(* ===== verification/_CoqProject ===== *)
-Q . S2P
Prelude.v
Strconv.v
Rpc.v
KVServer.v
KVService.v
KvModel.v
Clerk.v
Porcupine.v
RandValue.v
Lock.v
KvTest.v
PutTest.v
RandKeys.v
AppendTest.v
Fnv.v
ShardCfg.v
Raft.v
RaftSystem.v
RaftElection.v
Coordinator.v
MapReduce.v
MrApps.v
Worker.v
Labgob.v
Labrpc.v
Persister.v
RaftApi.v
TesterGroup.v
Clnts.v
TesterConfig.v
Annotation.v
RaftTest.v
RaftAgree.v
RaftReader.v
Rsm.v
ShardTest.v
KvSetup.v
CtrlTest.v
ConcurTest.v
Harness.v
KvNet.v
MrTiming.v
Commands.v
MrMain.v
Vis.v
LabCodec.v
