(* ===== verification/Prelude.v ===== *)
(** * Verification of the MIT 6.5840 laboratory code base

    The repository (Go, under [src/src]) holds the laboratories of a course on distributed
    systems: a MapReduce, a versioned key/value server with a lock on top of it, a Raft that
    elects leaders, the configurations of a sharded key/value service, and the framework that
    tests them on a simulated network. This library translates them into executable Gallina
    functions, and into step relations where several goroutines or machines interleave, and
    proves what makes each part correct. File names below are relative to [src/src].

    ** Conventions

    - A Go call yields an [outcome]: a result, a run-time panic, or [log.Fatalf].
    - Machine integers are [Z] with the wrap-around written out where it matters ([u64_wrap],
      [u32_wrap], [i64_wrap]); lengths and indices that cannot overflow are [nat]. The counters
      of calls in the tests (Porcupine, PutTest, RandKeys, AppendTest) are plain [Z]: their
      theorems bound the steps by 2^62, so the Go [int] does not wrap.
    - Go maps are [gmap]s. Where the code ranges over a map, the order of the visit is an
      argument, and the theorems hold for every order.
    - What is read from the machine is an argument: clocks, random draws, random names, new
      pointers, what another goroutine did in between.
    - A function that runs under one mutex is one atomic step.
    - Loops are structural or carry fuel, and the theorems show that the fuel is enough:
      [balance_fuel] is 67 iterations, more than the moves that rebalancing 12 shards can take
      ([Rebalance_correct]); [for] loops over the clock or the network are driven by a list of
      events ([Clerk_Put_events], [Worker_loop]).

    ** The parts

    Prelude (this file): outcomes, machine integers, tactics, hint databases, lists and counting.

    Key/value service.
    - Rpc.v: the types of [kvsrv1/rpc/rpc.go].
    - KVServer.v: [kvsrv1/server.go]. State [KVServer], handlers [KVServer_Get], [KVServer_Put];
      the specification is a history of values per key ([spec_handle]), and
      [KVServer_refines_history] is the refinement. Also versions and every branch of Put.
    - KVService.v: the interface, a class with laws, that clients of the service rely on, and
      its implementation by [KVServer].
    - Clerk.v: [kvsrv1/client.go]. [Clerk_Put] over a script of network events; a Put takes
      effect at most once, and what each error says about that, while the counter of its calls,
      a Go [int], does not overflow.
    - KvModel.v: [models1/kv.go], the model given to the linearizability checker, and when it
      accepts what the server does.
    - RandValue.v: random values of [kvtest1/kvtest.go].
    - Lock.v: [kvsrv1/lock/lock.go]. Any number of clients over any [KVService]; mutual
      exclusion, progress without contention, and the lost reply after which nobody ever holds
      the lock again.
    - Porcupine.v: [kvtest1/porcupine.go], the log of operations that is handed to the checker:
      every history that clients record over a [KVService] is linearizable
      in the sense of [KvModel] ([porcupine_accepts]). The search itself is a parameter.
    - KvTest.v: the helpers of [kvtest1/kvtest.go] (a Put that is retried, the tallies of many
      clients). PutTest.v, RandKeys.v and AppendTest.v: its concurrent Put test, of one key
      and of random keys, and its append test over any [KVService]; their checks accept every run
      of a correct service.
    - KvSetup.v: how [kvsrv1], [kvraft1] and [shardkv1] put servers, clerks and tests together,
      with the bodies that their authors left empty; [SpawnClientsAndWait] ends.
    - KvNet.v: the clerk's loops over [ClientEnd_Call], the network of Labrpc and the dispatch
      to [KVServer]: every run is a run of Clerk.v, and once the network is healed it returns.

    Shard configurations.
    - Fnv.v: the hash of keys. ShardCfg.v: [shardkv1/shardcfg/shardcfg.go]. Rebalancing
      terminates and balances, join and leave, the checker of configurations.
    - ShardTest.v: the helpers of [shardkv1/test.go] over the class [ShardCtrler] of shard
      controllers. The controller of the repository is a skeleton ([skeleton_ctrler]), with
      which [join], [leave] and [checkMember] panic; what its comments say of a finished one is
      stated by classes of laws, which are hypotheses and no translation. [setup_ok] holds of
      any controller, [thirteenth_group] asks two answers of it, and with the contract
      [ShardCtrlerLaws] joining groups and leaving them again restores the service.
      CtrlTest.v: its [partitionCtrler], two goroutines as a step relation, in which a change is
      a sequence of actions of the controller ([change_action]). Over the contract
      [RecoveringCtrler] (the next controller finishes a change that was begun) the recovery is
      accepted exactly if the change announced last has been begun, also in the middle of it.
      ConcurTest.v: its [concurCtrler], any number of goroutines with competing controllers, over
      the class of controllers that refuse outdated changes: no statement fails, the original
      groups stay, and all goroutines stop; a contract for one controller is not enough.

    Raft.
    - Raft.v: [raft1/raft.go], one peer. RaftSystem.v: the cluster as a step relation, without
      restarts: one vote per term, what a peer keeps within a term, no panics, a campaign that
      ends with a leader in whatever order its messages are delivered (a [candidate_at] counts
      down the messages that are needed), and the defects that remain (a leader without votes,
      heartbeats that are ignored, votes that are never cleared, no persistence).
      RaftElection.v: one leader per term, for the runs without restarts that count no refusal
      and keep no old votes; and a run of the code as it is that elects a leader of a minority.
    - RaftApi.v: [raftapi/raftapi.go], a class whose laws the peer satisfies.
    - RaftTest.v: the checks of [raft1/test.go] and [raft1/server.go]: what a test that has not
      stopped says about the servers, and what [checkOneLeader] returns. RaftAgree.v: its [one]
      and [wait]. RaftReader.v: the servers that snapshot, restart and are killed.
    - Rsm.v: [kvraft1/rsm]: the class [StateMachine], the replicated state machine as it stands,
      the counter server of its tests and the helpers of the tests.

    MapReduce.
    - Coordinator.v: [mr/coordinator.go] refines an abstract pool of tasks; phases, progress,
      and the bucket numbers, which are right exactly until a reduce task is handed out again.
      Worker.v: [mr/worker.go]. MapReduce.v: [main/mrsequential.go] computes
      the grouping of all pairs by key. MrApps.v: the plugins of [mrapps]; word count and
      indexer are correct. MrTiming.v: [mtiming.go] and [rtiming.go], whose [nparallel] is a
      step relation of processes over one directory; it counts the live ones.
    - MrMain.v: [main/mrcoordinator.go], [main/mrworker.go], the loading of plugins, and the job
      that the processes make up; as the code stands it never makes progress.
    - Strconv.v: numbers and booleans as strings, also for names made from numbers elsewhere.
      Commands.v: the other commands of [main], over packages that the repository does not have;
      the flags of [diskvd] are read as written.

    Test framework.
    - Labrpc.v: [labrpc/labrpc.go], the network, servers and services, and the fate of one call.
    - Labgob.v: [labgob/labgob.go], its checks of types and values; they end, and they find
      every lower-case field once. LabCodec.v: its encoders and decoders over the class [Gob];
      a stream of values is read back as it was written.
    - Persister.v: [tester1/persister.go], slices as references to a heap; it behaves like
      a pair of byte strings.
    - TesterGroup.v: [tester1/group.go] and [tester1/srv.go]; partitions, shutting down.
      TesterConfig.v: [tester1/config.go] and the starting of groups; a new group is a full mesh.
    - Clnts.v: [tester1/clnts.go]; a client is a view of which servers it can reach, which the
      list of allowed servers bounds only as long as [ConnectTo] takes none away.
    - Annotation.v: [tester1/annotation.go]; fault annotations form a timeline. Vis.v: the files
      that [checkPorcupine] and the clean-up of the annotations draw to; a page of operations is
      not overridden.
    - Harness.v: the tests of [raft1] and [kvraft1/rsm], from making to clean-up; the makers of
      clerks, of which that of [shardkv1] leaves a client behind.

    ** How the parts use one another

    Lock, Porcupine, PutTest, RandKeys and AppendTest are proved against the class of KVService and use
    the result of a clerk's Put ([Clerk_Put_err]) as proved in Clerk. KvModel is related to
    KVServer. Worker uses the hash of Fnv, the tasks of Coordinator and the pairs of MapReduce;
    MrApps instantiates the sequential MapReduce. TesterGroup, TesterConfig and Clnts operate on
    the network of Labrpc, and TesterGroup on the persisters. RaftTest, RaftAgree and RaftReader
    use the messages of Raft; Rsm uses Raft and the groups of TesterGroup. ShardTest puts
    together ShardCfg, the groups of TesterConfig, Rsm and KvTest; KvSetup the groups, the
    clients of Clnts, Rsm and Porcupine. KvNet joins Clerk, Labrpc and KVServer; MrMain joins
    Coordinator, Worker and MapReduce; Vis joins Porcupine and Annotation; CtrlTest and
    ConcurTest build on ShardTest and KvSetup; RaftElection restricts the steps of RaftSystem.
    A run of RandKeys is, key by key, a run of PutTest.

    ** What is not modelled

    - Bodies that the repository leaves empty ([kvraft1], [kvraft1/rsm], [shardkv1] except
      [shardcfg], the log of Raft) are translated as they stand, that is empty; no theorem says
      what they are meant to do once written.
    - Input and output: sockets, files other than through a map of names to contents, dynamic
      linking (a plugin is what it exports), most printing, and what the drawing of histories
      and annotations puts on a page. Packages that the commands of [main] call and the
      repository does not have are parameters.
    - The search of the external linearizability checker.
    - The encodings themselves ([encoding/gob], JSON) are parameters, with the round trip as a
      named hypothesis, or a law of the class [Gob], where a theorem needs it.
    - Of [shardkv1/test.go], the timing of [partitionCtrler] and what its first controller does when
      it is connected again, which the repository does not say; the controller itself, whose
      methods are empty.
    - Restarts of Raft peers as steps of the cluster; [raft_restart_votes_twice] says what a
      restart does to one peer.
    - Sleeping: delays are values where a theorem is about them (Labrpc) and absent elsewhere. *)

From stdpp Require Export functions.
From stdpp Require Export prelude gmap strings list relations sorting.
From Stdlib Require Import ZArith Lia.

#[export] Set Warnings "-clear-no-such-hyp".

(** ** Go's fixed-width integers, as [Z] with the wrap-around written out *)

Definition u64_wrap (z : Z) : Z := (z `mod` 2 ^ 64)%Z.

Definition u32_wrap (z : Z) : Z := (z `mod` 2 ^ 32)%Z.

Definition i64_wrap (z : Z) : Z := ((z + 2 ^ 63) `mod` 2 ^ 64 - 2 ^ 63)%Z.

Definition is_u64 (z : Z) : Prop := (0 ≤ z < 2 ^ 64)%Z.

(** ** Outcomes of a Go call: a result, a run-time panic, or [log.Fatal] *)

Inductive outcome (A : Type) : Type :=
  | Ret (a : A)
  | Panic (msg : string)
  | Fatal (msg : string).
Arguments Ret {_} _.
Arguments Panic {_} _.
Arguments Fatal {_} _.

#[export] Instance outcome_ret : MRet outcome := @Ret.

#[export] Instance outcome_bind : MBind outcome := λ A B f m,
  match m with
  | Ret a => f a
  | Panic e => Panic e
  | Fatal e => Fatal e
  end.

#[export] Instance outcome_fmap : FMap outcome := λ A B f m,
  match m with
  | Ret a => Ret (f a)
  | Panic e => Panic e
  | Fatal e => Fatal e
  end.

(** The result of a loop whose fuel has run out; no Go call returns it. *)
Definition out_of_fuel {A} : outcome A := Panic "out of fuel".

Definition is_Ret {A} (o : outcome A) : Prop := ∃ a, o = Ret a.

(** [l[i]] of a slice *)
Definition index {A} (l : list A) (i : nat) : outcome A :=
  match l !! i with Some x => Ret x | None => Panic "index out of range" end.

(** [l[i] = x] *)
Definition set_index {A} (l : list A) (i : nat) (x : A) : outcome (list A) :=
  match l !! i with Some _ => Ret (<[i := x]> l) | None => Panic "index out of range" end.

(** Reading a Go map: a missing key yields the zero value of the element type. *)
Definition map_get {K V} `{Countable K} (zero : V) (m : gmap K V) (k : K) : V :=
  default zero (m !! k).

(** Running a list of commands through a fallible step, collecting the replies. *)
Fixpoint run_list {S C R} (f : S → C → outcome (S * R)) (s : S) (cs : list C)
    : outcome (S * list R) :=
  match cs with
  | [] => Ret (s, [])
  | c :: cs =>
      '(s1, r) ← f s c;
      '(s2, rs) ← run_list f s1 cs;
      mret (s2, r :: rs)
  end.

(** ** Tactics and hint databases of the development *)

(** [invc H] inverts [H], substitutes and clears it. *)
Ltac invc H := inversion H; subst; clear H.

(** [split_case] performs one case analysis on a [match], [if] or decision of the
    goal or of a hypothesis. *)
Ltac split_case :=
  match goal with
  | |- context [bool_decide _] => case_bool_decide
  | H : context [bool_decide _] |- _ => case_bool_decide
  | |- context [decide _] => case_decide
  | H : context [decide _] |- _ => case_decide
  | |- context [match ?x with _ => _ end] =>
      lazymatch x with context [match _ with _ => _ end] => fail | _ => destruct x eqn:? end
  | H : context [match ?x with _ => _ end] |- _ =>
      lazymatch x with context [match _ with _ => _ end] => fail | _ => destruct x eqn:? end
  end.

(** [outcome_simpl] unfolds the binds of the outcome monad and splits equations
    between results. *)
Ltac outcome_simpl :=
  repeat (progress (simplify_eq/=; unfold mbind, outcome_bind, mret, outcome_ret in *));
  simplify_eq/=.

Lemma bind_Ret_inv {A B} (m : outcome A) (f : A → outcome B) b :
  m ≫= f = Ret b → ∃ a, m = Ret a ∧ f a = Ret b.
Proof. destruct m; simpl; intros; [eauto|done|done]. Qed.

(** [bind_inv H] splits [H : (x ← m; k) = Ret b] into its two computations. *)
Ltac bind_inv H :=
  let a := fresh "a" in let E := fresh "Hbind" in
  apply bind_Ret_inv in H as (a & E & H);
  repeat match goal with p : _ * _ |- _ => destruct p end;
  unfold mret, outcome_ret in *; simplify_eq/=.

Create HintDb go discriminated.
Create Rewrite HintDb go.

(** ** Arithmetic of the machine integers *)

Lemma u64_wrap_range z : is_u64 (u64_wrap z).
Proof. unfold is_u64, u64_wrap. apply Z.mod_pos_bound. lia. Qed.

Lemma u64_wrap_small z : is_u64 z → u64_wrap z = z.
Proof. intros. unfold u64_wrap. by apply Z.mod_small. Qed.

Lemma u64_wrap_succ_max : u64_wrap (2 ^ 64 - 1 + 1) = 0%Z.
Proof. reflexivity. Qed.

Lemma i64_wrap_small z : (- 2 ^ 63 ≤ z < 2 ^ 63)%Z → i64_wrap z = z.
Proof. intros. unfold i64_wrap. rewrite Z.mod_small; lia. Qed.

Lemma u32_wrap_range z : (0 ≤ u32_wrap z < 2 ^ 32)%Z.
Proof. unfold u32_wrap. apply Z.mod_pos_bound. lia. Qed.

#[export] Hint Resolve u64_wrap_range u32_wrap_range : go.

(** ** Maps, lists and runs *)

Lemma map_get_insert_eq {K V} `{Countable K} (z : V) (m : gmap K V) k v :
  map_get z (<[k := v]> m) k = v.
Proof. unfold map_get. by rewrite lookup_insert_eq. Qed.

Lemma map_get_insert_ne {K V} `{Countable K} (z : V) (m : gmap K V) k k' v :
  k ≠ k' → map_get z (<[k := v]> m) k' = map_get z m k'.
Proof. intros. unfold map_get. by rewrite lookup_insert_ne. Qed.

#[export] Hint Rewrite @map_get_insert_eq : go.
#[export] Hint Rewrite @map_get_insert_ne using congruence : go.

Section run_list.
Context {S C R : Type} (f : S → C → outcome (S * R)).

Lemma run_list_app s cs1 cs2 :
  run_list f s (cs1 ++ cs2) =
    ('(s1, rs1) ← run_list f s cs1;
     '(s2, rs2) ← run_list f s1 cs2;
     mret (s2, rs1 ++ rs2)).
Proof.
  revert s. induction cs1 as [|c cs1 IH]; intros s; simpl.
  - outcome_simpl. by destruct (run_list f s cs2) as [[]| |].
  - outcome_simpl. destruct (f s c) as [[s1 r]| |]; simpl; [|done|done].
    rewrite IH. destruct (run_list f s1 cs1) as [[s2 rs]| |]; simpl; [|done|done].
    by destruct (run_list f s2 cs2) as [[]| |].
Qed.

Lemma run_list_length s cs s' rs :
  run_list f s cs = Ret (s', rs) → length rs = length cs.
Proof.
  revert s rs. induction cs as [|c cs IH]; intros s rs Hr; simpl in *.
  - by simplify_eq/=.
  - outcome_simpl. repeat split_case; simplify_eq/=. f_equal. eauto.
Qed.

(** A step that preserves [I] and returns wherever [I] holds runs to the end. *)
Lemma run_list_total (I : S → Prop) s cs :
  (∀ s c, I s → ∃ s' r, f s c = Ret (s', r) ∧ I s') →
  I s → ∃ s' rs, run_list f s cs = Ret (s', rs) ∧ I s'.
Proof.
  intros Hf. revert s. induction cs as [|c cs IH]; intros s Hs; simpl; [eauto|].
  destruct (Hf s c Hs) as (s1 & r & -> & Hs1).
  destruct (IH s1 Hs1) as (s2 & rs & Hr & Hs2).
  outcome_simpl. rewrite Hr. eauto.
Qed.
End run_list.

Lemma forallb_false {A} (f : A → bool) l : forallb f l = false → ∃ x, x ∈ l ∧ f x = false.
Proof.
  induction l as [|x l IH]; simpl; [done|]. intros [?|(y & ? & ?)%IH]%andb_false_iff.
  - exists x. by split; [left|].
  - exists y. by split; [right|].
Qed.

Lemma omap_ext_in {A B} (f g : A → option B) (l : list A) :
  (∀ x, x ∈ l → f x = g x) → omap f l = omap g l.
Proof.
  induction l as [|x l IH]; intros Hfg; [done|].
  assert (IH' : omap f l = omap g l) by (apply IH; intros y ?; apply Hfg; by right).
  csimpl. rewrite Hfg by left. by rewrite IH'.
Qed.

Lemma StronglySorted_snoc {A} (R : relation A) l y :
  StronglySorted R l → Forall (λ x, R x y) l → StronglySorted R (l ++ [y]).
Proof.
  intros Hl Hy. rewrite Forall_forall in Hy. apply StronglySorted_app_2; [|done|by repeat constructor].
  intros x z Hx ->%list_elem_of_singleton. by apply Hy.
Qed.

(** Rule induction on a counted run, from the left end: the invariant may depend on
    the number of steps made. *)
Lemma nsteps_invariant {A} (R : relation A) (I : nat → A → Prop) n a b :
  I 0 a → (∀ m x y, m < n → I m x → R x y → I (S m) y) → nsteps R n a b → I n b.
Proof.
  intros H0 Hs. revert b. induction n as [|n IH]; intros b Hn.
  - by invc Hn.
  - apply nsteps_inv_r in Hn as (y & Hn & Hy). eapply Hs; [|apply IH; eauto|done]; lia.
Qed.

Lemma rtc_invariant {A} (R : relation A) (I : A → Prop) a b :
  I a → (∀ x y, I x → R x y → I y) → rtc R a b → I b.
Proof. intros H0 Hs. induction 1; eauto. Qed.

(** ** Grouping a list by a key *)

Section group_by.
Context {A K : Type} `{EqDecision K} (f : A → K).

(** Listing the blocks of a list, key after key, permutes the list. *)
Lemma concat_filter_keys (keys : list K) (l : list A) :
  NoDup keys → (∀ x, x ∈ l → f x ∈ keys) →
  concat ((λ k, filter (λ x, f x = k) l) <$> keys) ≡ₚ l.
Proof.
  revert l. induction keys as [|k keys IH]; intros l Hnd Hin; csimpl.
  - destruct l as [|x l]; [done|]. pose proof (Hin x ltac:(left)). set_solver.
  - apply NoDup_cons in Hnd as [Hk Hnd].
    trans (filter (λ x, f x = k) l ++ filter (λ x, f x ≠ k) l);
      [|apply filter_app_complement].
    f_equiv. rewrite <-(IH (filter (λ x, f x ≠ k) l)); [|done|].
    + apply reflexive_eq. f_equal. apply list_fmap_ext. intros i k' Hk'. simpl.
      rewrite list_filter_filter_l; [done|]. intros x Hx Heq. apply Hk.
      apply list_elem_of_lookup_2 in Hk'. congruence.
    + intros x [Hne Hx]%list_elem_of_filter. pose proof (Hin x Hx). set_solver.
Qed.
End group_by.

(** ** Counting occurrences *)

Section occ.
Context {A : Type} `{EqDecision A}.

Definition occ (x : A) (l : list A) : Z := Z.of_nat (length (filter (λ y, y = x) l)).

Lemma occ_cons x y l : occ x (y :: l) = ((if decide (y = x) then 1 else 0) + occ x l)%Z.
Proof. unfold occ. rewrite filter_cons. case_decide; simpl; lia. Qed.

Lemma occ_app x l k : occ x (l ++ k) = (occ x l + occ x k)%Z.
Proof. unfold occ. rewrite filter_app, length_app. lia. Qed.

Lemma occ_bounds x l : (0 ≤ occ x l ≤ Z.of_nat (length l))%Z.
Proof. unfold occ. pose proof (length_filter (λ y, y = x) l). lia. Qed.

Lemma occ_pos x l : x ∈ l ↔ (0 < occ x l)%Z.
Proof.
  induction l as [|y l IH]; [split; [set_solver|by intros ?]|].
  rewrite elem_of_cons, occ_cons, IH. pose proof (occ_bounds x l).
  case_decide; split; intros; try lia; [by left|naive_solver].
Qed.

Lemma occ_NoDup l : (∀ x, x ∈ l → (occ x l ≤ 1)%Z) → NoDup l.
Proof.
  induction l as [|y l IH]; intros Hl; [constructor|].
  constructor.
  - intros Hy%occ_pos. specialize (Hl y ltac:(left)). rewrite occ_cons, decide_True in Hl by done. lia.
  - apply IH. intros x Hx. specialize (Hl x ltac:(by right)). rewrite occ_cons in Hl. case_decide; lia.
Qed.

Lemma NoDup_occ x l : NoDup l → x ∈ l → occ x l = 1%Z.
Proof.
  induction 1 as [|y l Hy Hl IH]; [set_solver|]. rewrite occ_cons. intros [->|Hx]%elem_of_cons.
  - rewrite decide_True by done. pose proof (occ_bounds y l). rewrite occ_pos in Hy. lia.
  - rewrite decide_False by (by intros ->). by rewrite IH.
Qed.

#[export] Instance occ_perm x : Proper ((≡ₚ) ==> (=)) (occ x).
Proof. intros l k Hp. unfold occ. by rewrite Hp. Qed.

(** The number of pairs of equal elements. *)
Fixpoint equal_pairs (l : list A) : Z :=
  match l with [] => 0 | x :: l => occ x l + equal_pairs l end.

Lemma equal_pairs_bounds l :
  (0 ≤ 2 * equal_pairs l ≤ Z.of_nat (length l) * (Z.of_nat (length l) - 1))%Z.
Proof.
  induction l as [|x l IH]; [simpl; lia|]. pose proof (occ_bounds x l).
  cbn [length equal_pairs]. rewrite Nat2Z.inj_succ. nia.
Qed.

#[export] Instance equal_pairs_perm : Proper ((≡ₚ) ==> (=)) equal_pairs.
Proof.
  induction 1 as [|x l k Hp IH|x y l|]; simpl; [done|by rewrite IH, Hp| |by etrans].
  rewrite !occ_cons. repeat case_decide; subst; first [lia|congruence].
Qed.

(** Replacing one element. *)
Lemma insert_split (l : list A) i a b :
  l !! i = Some a → ∃ k, l ≡ₚ a :: k ∧ <[i := b]> l ≡ₚ b :: k.
Proof.
  intros Hi. apply list_elem_of_split_length in Hi as (l1 & l2 & -> & ->).
  exists (l1 ++ l2). split.
  - by rewrite Permutation_middle.
  - rewrite insert_app_r_alt by lia. rewrite Nat.sub_diag. simpl. by rewrite Permutation_middle.
Qed.

Lemma occ_insert (l : list A) i a b x :
  l !! i = Some a →
  occ x (<[i := b]> l) =
    (occ x l - (if decide (a = x) then 1 else 0) + (if decide (b = x) then 1 else 0))%Z.
Proof.
  intros Hi. destruct (insert_split l i a b Hi) as (k & E & ->). rewrite E, !occ_cons. lia.
Qed.

Lemma equal_pairs_insert (l : list A) i a b :
  l !! i = Some a → a ≠ b →
  equal_pairs (<[i := b]> l) = (equal_pairs l - (occ a l - 1) + occ b l)%Z.
Proof.
  intros Hi Hab. destruct (insert_split l i a b Hi) as (k & E & ->). rewrite E. simpl.
  rewrite !occ_cons, decide_True, decide_False by done. lia.
Qed.
End occ.

(** ** Quorums *)

(** Two sets of numbers below [n] whose sizes add up to more than [n] meet. *)
Lemma quorum_meet (n : nat) (Q1 Q2 : gset nat) :
  (∀ v, v ∈ Q1 → v < n) → (∀ v, v ∈ Q2 → v < n) → n < size Q1 + size Q2 →
  ∃ v, v ∈ Q1 ∧ v ∈ Q2.
Proof.
  intros H1 H2 Hs. destruct (decide (Q1 ∩ Q2 = ∅)) as [He|Hne].
  - assert (Hsub : Q1 ∪ Q2 ⊆ set_seq 0 n).
    { intros v Hv. apply elem_of_set_seq. apply elem_of_union in Hv as [?%H1|?%H2]; lia. }
    apply subseteq_size in Hsub. rewrite size_union, size_set_seq in Hsub; [lia|].
    set_solver.
  - apply set_choose_L in Hne as [v Hv]. set_solver.
Qed.

(** ** Filtering *)

Lemma filter_id {A} (P : A → Prop) `{∀ x, Decision (P x)} (l : list A) :
  (∀ x, x ∈ l → P x) → filter P l = l.
Proof.
  induction l as [|x l IH]; intros Hl; [done|].
  rewrite filter_cons_True by (apply Hl; left). f_equal. apply IH. intros y Hy.
  apply Hl. by right.
Qed.

(** ** Strings *)

Lemma str_app_nil_r (s : string) : s +:+ "" = s.
Proof. induction s as [|c s IH]; [done|]. exact (f_equal (String c) IH). Qed.

Lemma str_app_assoc (s t u : string) : (s +:+ t) +:+ u = s +:+ (t +:+ u).
Proof. induction s as [|c s IH]; [done|]. exact (f_equal (String c) IH). Qed.

(** The concatenation of a list of strings. *)
Definition str_concat (l : list string) : string := foldr String.append "" l.

Lemma str_concat_app l k : str_concat (l ++ k) = str_concat l +:+ str_concat k.
Proof. induction l as [|s l IH]; [done|]. simpl. by rewrite IH, str_app_assoc. Qed.

(** The parts before and after the last dot, as found by [strings.LastIndex(s, ".")]. *)
Fixpoint split_dot (s : list Ascii.ascii) : option (list Ascii.ascii * list Ascii.ascii) :=
  match s with
  | [] => None
  | c :: s =>
      match split_dot s with
      | Some (a, b) => Some (c :: a, b)
      | None => if bool_decide (c = Ascii.ascii_of_nat 46) then Some ([], s) else None
      end
  end.

Definition split_last_dot (s : string) : option (string * string) :=
  '(a, b) ← split_dot (String.list_ascii_of_string s);
  Some (String.string_of_list_ascii a, String.string_of_list_ascii b).

Lemma split_dot_spec s a b :
  split_dot s = Some (a, b) → s = a ++ Ascii.ascii_of_nat 46 :: b ∧ Ascii.ascii_of_nat 46 ∉ b.
Proof.
  revert a b. induction s as [|c s IH]; intros a b; simpl; [done|].
  destruct (split_dot s) as [[a' b']|] eqn:E.
  - intros; simplify_eq. destruct (IH _ _ eq_refl) as [-> ?]. done.
  - case_bool_decide as Hc; [|done]. intros [= <- <-]. rewrite Hc. split; [done|].
    clear -E. induction s as [|c s IH]; [set_solver|]. simpl in E.
    destruct (split_dot s) as [[]|]; [done|]. case_bool_decide; [done|].
    apply not_elem_of_cons. split; [congruence|by apply IH].
Qed.

(** ** Trying servers in a circle *)

(** The [n] indices after [a], modulo [n], are all of them. *)
Lemma cyclic_cover (n a s : nat) : (s < n)%nat → ∃ j, (j < n)%nat ∧ ((a + j) `mod` n)%nat = s.
Proof.
  intros Hs. pose proof (Nat.mod_upper_bound a n ltac:(lia)) as Ha.
  pose proof (Nat.div_mod_eq a n) as Hdiv.
  set (r := (a `mod` n)%nat) in *. set (q := (a `div` n)%nat) in *.
  assert (Hmod : ∀ x y : nat, (y < n)%nat → ((n * x + y) `mod` n)%nat = y).
  { intros x y Hy. rewrite Nat.add_comm, Nat.mul_comm, Nat.Div0.mod_add. by apply Nat.mod_small. }
  destruct (decide (r ≤ s)%nat).
  - exists (s - r)%nat. split; [lia|].
    replace (a + (s - r))%nat with (n * q + s)%nat by lia. by apply Hmod.
  - exists (n - r + s)%nat. split; [lia|].
    replace (a + (n - r + s))%nat with (n * S q + s)%nat by lia. by apply Hmod.
Qed.

Lemma mod_succ_l (n i j : nat) : ((S i `mod` n + j) `mod` n)%nat = ((i + S j) `mod` n)%nat.
Proof. rewrite Nat.Div0.add_mod_idemp_l. f_equal. lia. Qed.

(** ** Two outcomes that are alike: both results, related, or the same failure *)

Definition outcome_rel {A B} (R : A → B → Prop) (o : outcome A) (o' : outcome B) : Prop :=
  match o, o' with
  | Ret a, Ret b => R a b
  | Panic e, Panic e' => e = e'
  | Fatal e, Fatal e' => e = e'
  | _, _ => False
  end.

Lemma outcome_rel_bind {A B A' B'} (R : A → B → Prop) (R' : A' → B' → Prop) o o' f f' :
  outcome_rel R o o' → (∀ a b, R a b → outcome_rel R' (f a) (f' b)) →
  outcome_rel R' (o ≫= f) (o' ≫= f').
Proof. destruct o, o'; naive_solver. Qed.

(** ** An encoding into bytes, for examples *)

Fixpoint pos_bytes (p : positive) : list Z :=
  match p with xH => [] | xO p => 0%Z :: pos_bytes p | xI p => 1%Z :: pos_bytes p end.

Fixpoint bytes_pos (l : list Z) : positive :=
  match l with [] => xH | b :: l => if (b =? 0)%Z then xO (bytes_pos l) else xI (bytes_pos l) end.

Definition bytes_enc {A} `{Countable A} (x : A) : list Z := 0%Z :: pos_bytes (encode x).
Definition bytes_dec {A} `{Countable A} (l : list Z) : option A :=
  match l with [] => None | _ :: l => decode (bytes_pos l) end.

Lemma bytes_dec_enc {A} `{Countable A} (x : A) : bytes_dec (bytes_enc x) = Some x.
Proof.
  simpl. replace (bytes_pos (pos_bytes (encode x))) with (encode x); [apply decode_encode|].
  induction (encode x) as [p IH|p IH|]; simpl; congruence.
Qed.
