(* ===== verification/Strconv.v ===== *)
(** * Numbers and strings ([strconv] of Go's standard library, as the commands and applications use it)

    [ParseInt] in base 10 with 64 bits, [Atoi] and [ParseBool], with the values they return
    together with an error; and that every [int] is read back as it was printed. *)

From stdpp Require Import pretty.
From S2P Require Export Prelude.

Local Open Scope Z_scope.

Inductive NumErr := ErrSyntax | ErrRange.

(** The loop of [ParseUint]: it stops at the first digit that overflows. *)
Fixpoint parse_uint (n : Z) (s : string) : Z * option NumErr :=
  match s with
  | EmptyString => (n, None)
  | String c s =>
      match Ascii.is_nat c with
      | None => (0, Some ErrSyntax)
      | Some d =>
          let n := 10 * n + Z.of_nat d in
          if 2 ^ 64 - 1 <? n then (2 ^ 64 - 1, Some ErrRange) else parse_uint n s
      end
  end.

Definition ParseUint (s : string) : Z * option NumErr :=
  match s with EmptyString => (0, Some ErrSyntax) | _ => parse_uint 0 s end.

Definition sign_of (s : string) : bool * string :=
  match s with
  | String c s' =>
      if bool_decide (c = Ascii.ascii_of_nat 43) then (false, s')
      else if bool_decide (c = Ascii.ascii_of_nat 45) then (true, s') else (false, s)
  | EmptyString => (false, s)
  end.

Definition ParseInt (s : string) : Z * option NumErr :=
  let '(neg, s) := sign_of s in
  match ParseUint s with
  | (_, Some ErrSyntax) => (0, Some ErrSyntax)
  | (un, _) =>
      if negb neg && (2 ^ 63 <=? un) then (2 ^ 63 - 1, Some ErrRange)
      else if neg && (2 ^ 63 <? un) then (- 2 ^ 63, Some ErrRange)
      else (if neg then - un else un, None)
  end.

(** [Atoi] is [ParseInt] to an [int]; its short path for short strings agrees. *)
Definition Atoi (s : string) : Z * option NumErr := ParseInt s.

Definition ParseBool (s : string) : bool * option NumErr :=
  if bool_decide (s ∈ ["1"; "t"; "T"; "TRUE"; "true"; "True"]) then (true, None)
  else if bool_decide (s ∈ ["0"; "f"; "F"; "FALSE"; "false"; "False"]) then (false, None)
  else (false, Some ErrSyntax).

(** [strconv.FormatBool] *)
Definition FormatBool (b : bool) : string := if b then "true" else "false".

(** ** Characters *)

Lemma list_ascii_app s1 s2 :
  String.list_ascii_of_string (s1 +:+ s2) = String.list_ascii_of_string s1 ++ String.list_ascii_of_string s2.
Proof. induction s1 as [|c s1 IH]; [done|]. simpl. by rewrite <- IH. Qed.

(** A number consists of digits. *)
Lemma pretty_N_avoids (c : Ascii.ascii) (x : N) :
  (∀ y, pretty_N_char y ≠ c) → c ∉ String.list_ascii_of_string (pretty x).
Proof.
  intros Hc. assert (Hgo : ∀ x s, c ∉ String.list_ascii_of_string s → c ∉ String.list_ascii_of_string (pretty_N_go x s)).
  { intros y. induction (N.lt_wf_0 y) as [y _ IH]. intros s Hs. destruct (decide (0 < y)%N) as [Hy|Hy].
    - rewrite pretty_N_go_step by done. apply IH; [by apply N.div_lt|]. simpl.
      rewrite not_elem_of_cons. split; [|done]. intros E. by destruct (Hc (y `mod` 10)%N).
    - assert (y = 0%N) as -> by lia. by rewrite pretty_N_go_0. }
  unfold pretty, pretty_N. case_decide; [|apply Hgo; simpl; set_solver].
  pose proof (Hc 0%N) as H0. simpl in *. set_solver.
Qed.

(** ** Digits *)

Lemma is_nat_pretty_char (x : N) :
  (x < 10)%N → Ascii.is_nat (pretty_N_char x) = Some (N.to_nat x).
Proof.
  intros Hx. assert (x = 0 ∨ x = 1 ∨ x = 2 ∨ x = 3 ∨ x = 4 ∨ x = 5 ∨ x = 6 ∨ x = 7 ∨ x = 8 ∨ x = 9)%N
    as H by lia. by repeat destruct H as [-> | H]; [..|subst].
Qed.

(** A reader that adds digit after digit, up to the bound [m], reads what is printed. *)
Lemma digits_pretty_go {A} (m : Z) (f : Z → string → A) (x : N) s :
  (∀ acc c d s, Ascii.is_nat c = Some d → 10 * acc + Z.of_nat d ≤ m →
     f acc (String c s) = f (10 * acc + Z.of_nat d) s) →
  (0 < x)%N → Z.of_N x ≤ m → f 0 (pretty_N_go x s) = f (Z.of_N x) s.
Proof.
  intros Hf. revert s. induction (N.lt_wf_0 x) as [x _ IH]. intros s Hx Hm.
  rewrite pretty_N_go_step by done.
  pose proof (N.div_mod x 10 ltac:(done)) as Hdm. pose proof (N.mod_lt x 10 ltac:(done)) as Hlt.
  assert (Hc : ∀ acc, 10 * acc + Z.of_N (x `mod` 10) ≤ m →
    f acc (String (pretty_N_char (x `mod` 10)) s) = f (10 * acc + Z.of_N (x `mod` 10)) s).
  { intros acc Ha. rewrite <- N_nat_Z in *. apply Hf; [|done]. by apply is_nat_pretty_char. }
  destruct (decide (x / 10 = 0)%N) as [E|E].
  - rewrite E, pretty_N_go_0, Hc by lia. f_equal. lia.
  - assert (x `div` 10 < x)%N by (apply N.div_lt; lia).
    rewrite IH by lia. rewrite Hc by lia. f_equal. lia.
Qed.

Lemma pretty_go_digit (x : N) s :
  (0 < x)%N → ∃ c d s', pretty_N_go x s = String c s' ∧ Ascii.is_nat c = Some d.
Proof.
  revert s. induction (N.lt_wf_0 x) as [x _ IH]. intros s Hx. rewrite pretty_N_go_step by done.
  destruct (decide (x / 10 = 0)%N) as [E|E].
  - rewrite E, pretty_N_go_0. eexists _, _, _. split; [done|]. apply is_nat_pretty_char. by apply N.mod_lt.
  - apply IH; [by apply N.div_lt|by apply N.neq_0_lt_0].
Qed.

Lemma digit_plain c d :
  Ascii.is_nat c = Some d →
  c ≠ Ascii.ascii_of_nat 10 ∧ c ≠ Ascii.ascii_of_nat 45 ∧ c ≠ Ascii.ascii_of_nat 43 ∧
  Ascii.is_space c = false.
Proof. destruct c as [[] [] [] [] [] [] [] []]; intros ?; simplify_eq/=; by split_and!. Qed.

(** ** Round trips *)

Lemma ParseUint_pretty p :
  Z.pos p ≤ 2 ^ 64 - 1 → ∃ c d s, pretty (Z.pos p) = String c s ∧ Ascii.is_nat c = Some d ∧
    ParseUint (String c s) = (Z.pos p, None).
Proof.
  intros Hp. destruct (pretty_go_digit (N.pos p) "") as (c & d & s & Hs & Hd); [done|].
  exists c, d, s. split; [exact Hs|]. split; [done|]. unfold ParseUint. rewrite <- Hs.
  rewrite (digits_pretty_go (2 ^ 64 - 1) parse_uint) by (done || (intros acc c' d' s' Hc Hle; simpl; rewrite Hc;
    by rewrite (proj2 (Z.ltb_ge _ _) Hle))). done.
Qed.

Lemma ParseInt_pretty z : - 2 ^ 63 ≤ z < 2 ^ 63 → ParseInt (pretty z) = (z, None).
Proof.
  intros Hz. destruct z as [|p|p]; [done|..].
  - destruct (ParseUint_pretty p) as (c & d & s & -> & Hd & Hs); [lia|].
    destruct (digit_plain c d Hd) as (_ & ? & ? & _). unfold ParseInt, sign_of.
    rewrite !bool_decide_eq_false_2 by done. rewrite Hs. simpl negb. cbn [andb].
    by rewrite (proj2 (Z.leb_gt _ _)) by lia.
  - destruct (ParseUint_pretty p) as (c & d & s & Hp & Hd & Hs); [lia|].
    change (pretty (Z.neg p)) with (String (Ascii.ascii_of_nat 45) (pretty (Z.pos p))). rewrite Hp.
    unfold ParseInt, sign_of. rewrite bool_decide_eq_false_2, bool_decide_eq_true_2 by done.
    rewrite Hs. cbn [negb andb]. by rewrite (proj2 (Z.ltb_ge _ _)) by lia.
Qed.

Lemma ParseBool_FormatBool b : ParseBool (FormatBool b) = (b, None).
Proof. by destruct b. Qed.

(** Whatever is parsed is an [int64]. *)
Lemma ParseInt_bounds s : - 2 ^ 63 ≤ (ParseInt s).1 < 2 ^ 63.
Proof.
  unfold ParseInt. destruct (sign_of s) as [neg s']. destruct (ParseUint s') as [un e] eqn:E.
  assert (0 ≤ un).
  { assert (∀ n, 0 ≤ n → 0 ≤ (parse_uint n s').1) as Hu.
    { clear. induction s' as [|c s' IH]; intros n Hn; simpl; [done|].
      destruct (Ascii.is_nat c) as [d|]; simpl; [|lia]. destruct (_ <? _); simpl; [lia|]. apply IH. lia. }
    specialize (Hu 0 ltac:(done)). unfold ParseUint in E. destruct s'; simplify_eq/=; [lia|].
    by rewrite E in Hu. }
  destruct e as [[]|]; simpl; [lia|..]; destruct neg; cbn [negb andb];
    destruct (Z.leb_spec (2 ^ 63) un), (Z.ltb_spec (2 ^ 63) un); simpl; lia.
Qed.
