(* ===== verification/Rpc.v ===== *)
(** * The RPC vocabulary of the key/value service ([kvsrv1/rpc/rpc.go])

    Error strings, the version type and the argument and reply structs that the
    clerks, the server and the tester exchange. *)

From S2P Require Export Prelude.

(** [type Err string]: errors are Go strings; the zero value is the empty string. *)
Abbreviation Err := string (only parsing).

Definition OK : Err := "OK".
Definition ErrNoKey : Err := "ErrNoKey".
Definition ErrVersion : Err := "ErrVersion".
Definition ErrMaybe : Err := "ErrMaybe".
Definition ErrWrongLeader : Err := "ErrWrongLeader".
Definition ErrWrongGroup : Err := "ErrWrongGroup".

(** [type Tversion uint64] *)
Abbreviation Tversion := Z (only parsing).

Record PutArgs := mkPutArgs {
  PutArgs_Key : string;
  PutArgs_Value : string;
  PutArgs_Version : Tversion
}.

Record PutReply := mkPutReply { PutReply_Err : Err }.

Record GetArgs := mkGetArgs { GetArgs_Key : string }.

Record GetReply := mkGetReply {
  GetReply_Value : string;
  GetReply_Version : Tversion;
  GetReply_Err : Err
}.

#[export] Instance PutArgs_eq_dec : EqDecision PutArgs.
Proof. solve_decision. Defined.

#[export] Instance PutReply_eq_dec : EqDecision PutReply.
Proof. solve_decision. Defined.

#[export] Instance GetArgs_eq_dec : EqDecision GetArgs.
Proof. solve_decision. Defined.

#[export] Instance GetReply_eq_dec : EqDecision GetReply.
Proof. solve_decision. Defined.

(** The zero values that [reflect.New] and [rpc.PutReply{}] give. *)
Definition zero_PutReply : PutReply := mkPutReply "".
Definition zero_GetReply : GetReply := mkGetReply "" 0 "".
