(* ===== verification/KVServer.v ===== *)
(** * The versioned key/value server ([kvsrv1/server.go])

    [KVStore] is the map the server keeps; [KVServer_Get] and [KVServer_Put] are the
    two RPC handlers, each atomic because it holds the server's lock from its first
    line to its return. *)

From S2P Require Export Rpc.

Local Open Scope Z_scope.

Record Entry := mkEntry { Value : string; Version : Tversion }.

Record KVServer := mkKVServer { KVStore : gmap string Entry }.

#[export] Instance Entry_eq_dec : EqDecision Entry.
Proof. solve_decision. Defined.

Definition MakeKVServer : KVServer := mkKVServer ∅.

Definition KVServer_AddRecord (kv : KVServer) (key value : string) (version : Tversion)
    : KVServer :=
  let version := u64_wrap (version + 1) in
  let entry := mkEntry value version in
  mkKVServer (<[key := entry]> (KVStore kv)).

Definition KVServer_UpdateRecord (kv : KVServer) (key value : string)
    : outcome (KVServer * bool) :=
  match KVStore kv !! key with
  | None => Fatal "no entry found using the key when updating"
  | Some entryCurr =>
      let version := u64_wrap (Version entryCurr + 1) in
      let entry := mkEntry value version in
      Ret (mkKVServer (<[key := entry]> (KVStore kv)), true)
  end.

(** The handler writes into the reply it is given: on a missing key only [Err]. *)
Definition KVServer_Get (kv : KVServer) (args : GetArgs) (reply : GetReply) : GetReply :=
  let key := GetArgs_Key args in
  match KVStore kv !! key with
  | Some entry => mkGetReply (Value entry) (Version entry) OK
  | None => mkGetReply (GetReply_Value reply) (GetReply_Version reply) ErrNoKey
  end.

Definition KVServer_Put (kv : KVServer) (args : PutArgs) (reply : PutReply)
    : outcome (KVServer * PutReply) :=
  let key := PutArgs_Key args in
  let value := PutArgs_Value args in
  let version := PutArgs_Version args in
  match KVStore kv !! key with
  | None =>
      if bool_decide (version = 0)
      then Ret (KVServer_AddRecord kv key value version, mkPutReply OK)
      else Ret (kv, mkPutReply ErrNoKey)
  | Some entry =>
      if bool_decide (version = Version entry)
      then '(kv', _) ← KVServer_UpdateRecord kv key value;
           Ret (kv', mkPutReply OK)
      else Ret (kv, mkPutReply ErrVersion)
  end.

(** [Kill] does nothing. *)
Definition KVServer_Kill (kv : KVServer) : KVServer := kv.

(** The services of one server; the ends, group, index and persister are not used. *)
Definition StartKVServer : list KVServer := [MakeKVServer].

(** ** Requests as the network delivers them *)

Inductive Request :=
  | ReqGet (args : GetArgs)
  | ReqPut (args : PutArgs).

Inductive Reply :=
  | RepGet (reply : GetReply)
  | RepPut (reply : PutReply).

#[export] Instance Reply_eq_dec : EqDecision Reply.
Proof. solve_decision. Defined.

(** One RPC, with the freshly allocated reply that the dispatcher passes. *)
Definition KVServer_handle (kv : KVServer) (req : Request) : outcome (KVServer * Reply) :=
  match req with
  | ReqGet args => Ret (kv, RepGet (KVServer_Get kv args zero_GetReply))
  | ReqPut args =>
      '(kv', reply) ← KVServer_Put kv args zero_PutReply;
      Ret (kv', RepPut reply)
  end.

(** ** The abstract specification: an append-only history of values per key

    The version of a key is the length of its history; a Put appends exactly when it
    names that length. *)

Abbreviation Hist := (string → list string) (only parsing).

Definition hist_entry (l : list string) : option Entry :=
  match last l with
  | Some v => Some (mkEntry v (Z.of_nat (length l)))
  | None => None
  end.

Definition spec_handle (h : Hist) (req : Request) : outcome (Hist * Reply) :=
  match req with
  | ReqGet (mkGetArgs k) =>
      Ret (h, RepGet (match hist_entry (h k) with
                      | Some e => mkGetReply (Value e) (Version e) OK
                      | None => mkGetReply "" 0 ErrNoKey
                      end))
  | ReqPut (mkPutArgs k v ver) =>
      if bool_decide (ver = Z.of_nat (length (h k)))
      then Ret (<[k := h k ++ [v]]> h, RepPut (mkPutReply OK))
      else Ret (h, RepPut (mkPutReply (if bool_decide (h k = []) then ErrNoKey
                                       else ErrVersion)))
  end.

(** The successful Puts on key [k] of a trace, oldest first. *)
Fixpoint ok_puts (k : string) (tr : list (Request * Reply)) : list PutArgs :=
  match tr with
  | (ReqPut a, RepPut r) :: tr =>
      if bool_decide (PutArgs_Key a = k ∧ PutReply_Err r = OK)
      then a :: ok_puts k tr else ok_puts k tr
  | _ :: tr => ok_puts k tr
  | [] => []
  end.

(** Abstraction relation after at most [m] requests. *)
Definition hist_rel (m : nat) (kv : KVServer) (h : Hist) : Prop :=
  ∀ k, KVStore kv !! k = hist_entry (h k) ∧ (length (h k) ≤ m)%nat.

Lemma hist_entry_snoc l v :
  hist_entry (l ++ [v]) = Some (mkEntry v (Z.of_nat (length l) + 1)).
Proof. unfold hist_entry. rewrite last_snoc, length_app. simpl. do 2 f_equal. lia. Qed.

Lemma hist_entry_Some l e : hist_entry l = Some e → Version e = Z.of_nat (length l).
Proof. unfold hist_entry. destruct (last l); intros; by simplify_eq/=. Qed.

Lemma hist_entry_None l : hist_entry l = None ↔ l = [].
Proof.
  unfold hist_entry. destruct l using rev_ind; [done|]. rewrite last_snoc.
  split; [done|]. by destruct l.
Qed.

(** Every Put handler call returns: [log.Fatal] in [UpdateRecord] is unreachable. *)
Lemma Put_cases kv a r :
  KVServer_Put kv a r =
    match KVStore kv !! PutArgs_Key a with
    | None =>
        if decide (PutArgs_Version a = 0)
        then Ret (mkKVServer (<[PutArgs_Key a := mkEntry (PutArgs_Value a) 1]> (KVStore kv)),
                  mkPutReply OK)
        else Ret (kv, mkPutReply ErrNoKey)
    | Some e =>
        if decide (PutArgs_Version a = Version e)
        then Ret (mkKVServer (<[PutArgs_Key a :=
                    mkEntry (PutArgs_Value a) (u64_wrap (Version e + 1))]> (KVStore kv)),
                  mkPutReply OK)
        else Ret (kv, mkPutReply ErrVersion)
    end.
Proof.
  unfold KVServer_Put, KVServer_AddRecord, KVServer_UpdateRecord.
  destruct (KVStore kv !! PutArgs_Key a) eqn:E; repeat case_bool_decide;
    repeat case_decide; outcome_simpl; try done.
  by rewrite H.
Qed.

(** A Put leaves the other keys alone. *)
Lemma Put_other_key kv a r kv' r' k :
  KVServer_Put kv a r = Ret (kv', r') → PutArgs_Key a ≠ k →
  KVStore kv' !! k = KVStore kv !! k.
Proof.
  rewrite Put_cases. intros. repeat split_case; simplify_eq/=; try done;
    by rewrite lookup_insert_ne.
Qed.

Lemma handle_total kv req : ∃ kv' rep, KVServer_handle kv req = Ret (kv', rep).
Proof.
  destruct req as [a|a]; simpl; [eauto|]. rewrite Put_cases.
  repeat split_case; outcome_simpl; eauto.
Qed.

(** One request keeps the server and the specification in step. *)
Lemma handle_refines m kv h req :
  Z.of_nat m + 1 < 2 ^ 64 → hist_rel m kv h →
  ∃ kv' h' rep, KVServer_handle kv req = Ret (kv', rep) ∧
    spec_handle h req = Ret (h', rep) ∧ hist_rel (S m) kv' h'.
Proof.
  intros Hm Hrel. assert (Hmono : hist_rel (S m) kv h).
  { intros k. destruct (Hrel k). split; [done|lia]. }
  destruct req as [[k]|[k v ver]]; simpl.
  - unfold KVServer_Get; simpl. destruct (Hrel k) as [-> _].
    destruct (hist_entry (h k)) eqn:E; eexists _, _, _; by split_and!.
  - rewrite Put_cases; simpl. destruct (Hrel k) as [Hk Hl]. rewrite Hk.
    assert (Hins : ∀ e, e = mkEntry v (Z.of_nat (length (h k)) + 1) →
      hist_rel (S m) (mkKVServer (<[k := e]> (KVStore kv))) (<[k := h k ++ [v]]> h)).
    { intros e -> k'. simpl. destruct (decide (k = k')) as [<-|Hne].
      - rewrite lookup_insert_eq, fn_lookup_insert, hist_entry_snoc, length_app. simpl.
        split; [done|lia].
      - rewrite lookup_insert_ne, fn_lookup_insert_ne by done. apply Hmono. }
    destruct (hist_entry (h k)) as [e|] eqn:E.
    + pose proof (hist_entry_Some _ _ E) as Hv.
      assert (h k ≠ []) by (intros Hn; rewrite Hn in E; done).
      rewrite Hv, (bool_decide_eq_false_2 (h k = [])) by done. case_decide.
      * rewrite bool_decide_eq_true_2 by done. outcome_simpl.
        eexists _, _, _; split_and!; [done..|]. apply Hins.
        rewrite u64_wrap_small; [done|]. unfold is_u64. lia.
      * rewrite bool_decide_eq_false_2 by done. outcome_simpl. eauto 10.
    + apply hist_entry_None in E. rewrite E in *. simpl in *. case_decide.
      * rewrite bool_decide_eq_true_2 by done. outcome_simpl.
        eexists _, _, _; split_and!; [done..|]. by apply Hins.
      * rewrite bool_decide_eq_false_2 by done. outcome_simpl. eauto 10.
Qed.

Lemma run_refines m kv h reqs :
  Z.of_nat (m + length reqs) < 2 ^ 64 → hist_rel m kv h →
  ∃ kv' h' reps, run_list KVServer_handle kv reqs = Ret (kv', reps) ∧
    run_list spec_handle h reqs = Ret (h', reps) ∧ hist_rel (m + length reqs) kv' h'.
Proof.
  revert m kv h. induction reqs as [|req reqs IH]; intros m kv h Hm Hrel; simpl in *.
  - rewrite Nat.add_0_r. by eexists _, _, _.
  - destruct (handle_refines m kv h req) as (kv1 & h1 & rep & -> & -> & H1); [lia|done|].
    destruct (IH (S m) kv1 h1) as (kv2 & h2 & reps & E1 & E2 & H2); [lia|done|].
    outcome_simpl. rewrite E1, E2. outcome_simpl.
    replace (m + S (length reqs))%nat with (S m + length reqs)%nat by lia.
    by eexists _, _, _.
Qed.

Lemma hist_rel_init : hist_rel 0 MakeKVServer (λ _, []).
Proof. intros k. split; [apply lookup_empty|done]. Qed.

(** In the specification the successful Puts on [k] extend its history one by one. *)
Lemma spec_run_ok_puts k reqs h h' reps :
  run_list spec_handle h reqs = Ret (h', reps) →
  h' k = h k ++ (PutArgs_Value <$> ok_puts k (zip reqs reps)) ∧
  PutArgs_Version <$> ok_puts k (zip reqs reps) =
    seqZ (Z.of_nat (length (h k))) (Z.of_nat (length (ok_puts k (zip reqs reps)))).
Proof.
  revert h reps. induction reqs as [|req reqs IH]; intros h reps Hr; simpl in *.
  { simplify_eq/=. by rewrite app_nil_r. }
  destruct req as [[k']|[k' v ver]]; simpl in Hr.
  - bind_inv Hr. eauto.
  - case_bool_decide as Hver; bind_inv Hr; bind_inv Hr;
      match goal with H : run_list _ _ _ = _ |- _ => destruct (IH _ _ H) as [IH1 IH2] end.
    + destruct (decide (k' = k)) as [->|Hk].
      * rewrite fn_lookup_insert in IH1, IH2. rewrite bool_decide_eq_true_2 by done. csimpl.
        rewrite length_app in IH2. simpl in IH2.
        rewrite IH1, <-app_assoc. split; [done|]. rewrite IH2.
        rewrite (seqZ_cons (Z.of_nat (length (h k)))) by lia.
        f_equal. f_equal; lia.
      * rewrite fn_lookup_insert_ne in IH1, IH2 by done.
        rewrite bool_decide_eq_false_2 by tauto. eauto.
    + rewrite bool_decide_eq_false_2 by (case_bool_decide; intros [??]; done). eauto.
Qed.

(** Versions held by the store are 64-bit values, and every handler keeps them so. *)
Definition store_u64 (kv : KVServer) : Prop :=
  ∀ k e, KVStore kv !! k = Some e → is_u64 (Version e).

Lemma handle_store_u64 kv req kv' rep :
  store_u64 kv → KVServer_handle kv req = Ret (kv', rep) → store_u64 kv'.
Proof.
  intros Hs. destruct req as [a|a]; simpl; [intros; by simplify_eq/=|].
  rewrite Put_cases. intros Hr. repeat split_case; outcome_simpl; try done.
  all: intros k e' He; simpl in He; apply lookup_insert_Some in He as [[_ <-]|[_ He]];
    [|by eapply Hs]; simpl; auto with go.
  unfold is_u64; lia.
Qed.

(** ** Properties *)

(** Behaviour of the Put handler on every branch. It always returns (the
    [log.Fatal] of [UpdateRecord] is unreachable), touches no other key, creates a
    missing key only for version 0, overwrites a present key only for its exact
    version, and otherwise leaves the whole store unchanged and says why. *)
Theorem KVServer_Put_spec (kv : KVServer) (a : PutArgs) (r : PutReply) :
  ∃ kv' r', KVServer_Put kv a r = Ret (kv', r') ∧
    (∀ k, k ≠ PutArgs_Key a → KVStore kv' !! k = KVStore kv !! k) ∧
    match KVStore kv !! PutArgs_Key a with
    | None =>
        (PutArgs_Version a = 0 → PutReply_Err r' = OK ∧
           KVStore kv' !! PutArgs_Key a = Some (mkEntry (PutArgs_Value a) 1)) ∧
        (PutArgs_Version a ≠ 0 → PutReply_Err r' = ErrNoKey ∧ kv' = kv)
    | Some e =>
        (PutArgs_Version a = Version e → PutReply_Err r' = OK ∧
           KVStore kv' !! PutArgs_Key a =
             Some (mkEntry (PutArgs_Value a) (u64_wrap (Version e + 1)))) ∧
        (PutArgs_Version a ≠ Version e → PutReply_Err r' = ErrVersion ∧ kv' = kv)
    end.
Proof.
  rewrite Put_cases. destruct (KVStore kv !! PutArgs_Key a); case_decide;
    eexists _, _; (split; [reflexivity|]); simpl;
    (split; [intros; by rewrite ?lookup_insert_ne|]); split; intros; try done;
    by rewrite lookup_insert_eq.
Qed.

(** C12: refinement of the abstract history object. Any sequence of fewer than 2^64
    requests, served from the empty store, returns exactly the replies of the
    append-only history specification, and the final store shows, for every key, the
    last value of its history under the history's length as version. *)
Theorem KVServer_refines_history (reqs : list Request) :
  Z.of_nat (length reqs) < 2 ^ 64 →
  ∃ kv h reps,
    run_list KVServer_handle MakeKVServer reqs = Ret (kv, reps) ∧
    run_list spec_handle (λ _, []) reqs = Ret (h, reps) ∧
    ∀ k, KVStore kv !! k = hist_entry (h k).
Proof.
  intros Hn. destruct (run_refines 0 MakeKVServer (λ _, []) reqs) as (kv & h & reps & ?&?&Hr);
    [done|apply hist_rel_init|]. exists kv, h, reps. split_and!; [done..|]. intros k. apply Hr.
Qed.

(** Compare-and-set exclusivity. Along any run of fewer than 2^64 requests the
    successful Puts on a key carried the versions 0, 1, 2, ... in that order, so no
    version of a key is ever overwritten twice, and the store holds the value of the
    last successful Put with their number as version. *)
Theorem KVServer_ok_put_versions (reqs : list Request) kv reps (k : string) :
  Z.of_nat (length reqs) < 2 ^ 64 →
  run_list KVServer_handle MakeKVServer reqs = Ret (kv, reps) →
  let puts := ok_puts k (zip reqs reps) in
  PutArgs_Version <$> puts = seqZ 0 (Z.of_nat (length puts)) ∧
  KVStore kv !! k = hist_entry (PutArgs_Value <$> puts).
Proof.
  intros Hn Hrun puts.
  destruct (run_refines 0 MakeKVServer (λ _, []) reqs) as (kv' & h & reps' & E & Es & Hr);
    [done|apply hist_rel_init|]. rewrite Hrun in E. simplify_eq/=.
  destruct (spec_run_ok_puts k _ _ _ _ Es) as [Hv Hs]. split; [done|].
  destruct (Hr k) as [-> _]. by rewrite Hv.
Qed.

(** Version arithmetic. A successful overwrite of version [v] installs [v + 1],
    except at 2^64 - 1, where the [uint64] counter wraps to 0; in both cases the store
    stays within 64 bits. *)
Theorem KVServer_version_bounds (kv : KVServer) (a : PutArgs) (e : Entry) (r : PutReply) :
  store_u64 kv → KVStore kv !! PutArgs_Key a = Some e → PutArgs_Version a = Version e →
  ∃ kv' v', KVServer_Put kv a r = Ret (kv', mkPutReply OK) ∧ store_u64 kv' ∧
    KVStore kv' !! PutArgs_Key a = Some (mkEntry (PutArgs_Value a) v') ∧
    (Version e < 2 ^ 64 - 1 → v' = Version e + 1) ∧ (Version e = 2 ^ 64 - 1 → v' = 0).
Proof.
  intros Hs He Hv. pose proof (Hs _ _ He) as Hr.
  eexists _, _. rewrite Put_cases, He, decide_True by done. split_and!; [done|..].
  - intros k e' He'; simpl in He'; apply lookup_insert_Some in He' as [[_ <-]|[_ He']];
     [simpl; auto with go|by eapply Hs].
  - apply lookup_insert_eq.
  - intros ?. apply u64_wrap_small. unfold is_u64 in *. lia.
  - intros ->. reflexivity.
Qed.

(** ** Witnesses *)

Example KVServer_refines_history_witness :
  let reqs := [ReqPut (mkPutArgs "k" "a" 0); ReqPut (mkPutArgs "k" "b" 0);
               ReqPut (mkPutArgs "k" "c" 1); ReqGet (mkGetArgs "k")] in
  ∃ kv h reps,
    run_list KVServer_handle MakeKVServer reqs = Ret (kv, reps) ∧
    run_list spec_handle (λ _, []) reqs = Ret (h, reps) ∧
    ∀ k, KVStore kv !! k = hist_entry (h k).
Proof. intros reqs. apply (KVServer_refines_history reqs). vm_compute. reflexivity. Defined.

Example KVServer_ok_put_versions_witness :
  let reqs := [ReqPut (mkPutArgs "k" "a" 0); ReqPut (mkPutArgs "k" "b" 0);
               ReqPut (mkPutArgs "k" "c" 1)] in
  let reps := [RepPut (mkPutReply OK); RepPut (mkPutReply ErrVersion);
               RepPut (mkPutReply OK)] in
  let puts := ok_puts "k" (zip reqs reps) in
  PutArgs_Version <$> puts = seqZ 0 (Z.of_nat (length puts)) ∧
  KVStore (mkKVServer {["k" := mkEntry "c" 2]}) !! "k" = hist_entry (PutArgs_Value <$> puts).
Proof.
  apply (KVServer_ok_put_versions _ (mkKVServer {["k" := mkEntry "c" 2]}) _ "k");
    vm_compute; reflexivity.
Defined.

Example KVServer_version_bounds_witness :
  let kv := mkKVServer {["k" := mkEntry "c" (2 ^ 64 - 1)]} in
  ∃ kv' v', KVServer_Put kv (mkPutArgs "k" "d" (2 ^ 64 - 1)) zero_PutReply =
      Ret (kv', mkPutReply OK) ∧ store_u64 kv' ∧
    KVStore kv' !! "k" = Some (mkEntry "d" v') ∧
    (2 ^ 64 - 1 < 2 ^ 64 - 1 → v' = 2 ^ 64 - 1 + 1) ∧ (2 ^ 64 - 1 = 2 ^ 64 - 1 → v' = 0).
Proof.
  intros kv. apply (KVServer_version_bounds kv (mkPutArgs "k" "d" (2 ^ 64 - 1))
    (mkEntry "c" (2 ^ 64 - 1)) zero_PutReply); [|done|done].
  intros k e He; simpl in He. apply lookup_singleton_Some in He as [_ <-]. split; reflexivity || done.
Defined.
