(* ===== verification/KVService.v ===== *)
(** * The interface of a versioned key/value service

    What the code on top of a clerk ([kvsrv1/lock/lock.go], the append test) needs from the
    service behind it: an operation per RPC, the entry each key has, and the laws of a
    conditional Put. [KVServer] implements it; [Lock.v] and [AppendTest.v] use the class. *)

From S2P Require Export KVServer.

Local Open Scope Z_scope.

Class KVService (S : Type) := {
  svc_init : S;
  svc_get : S → GetArgs → GetReply → GetReply;
  svc_put : S → PutArgs → PutReply → outcome (S * PutReply);
  svc_entry : S → string → option Entry
}.

(** The version a Put has to name: 0 for a missing key. *)
Definition entry_ver (e : option Entry) : Z := match e with Some e => Version e | None => 0 end.

Definition entry_val (e : option Entry) : string := match e with Some e => Value e | None => "" end.

(** The answer to a Put of version [ver]. *)
Definition put_err (e : option Entry) (ver : Tversion) : Err :=
  if bool_decide (ver = entry_ver e) then OK
  else match e with Some _ => ErrVersion | None => ErrNoKey end.

(** The entry of [k] after a Put. *)
Definition put_entry (a : PutArgs) (old : string → option Entry) (k : string) : option Entry :=
  if decide (k = PutArgs_Key a ∧ PutArgs_Version a = entry_ver (old k))
  then Some (mkEntry (PutArgs_Value a) (u64_wrap (PutArgs_Version a + 1)))
  else old k.

Class KVServiceLaws (S : Type) `{KVService S} : Prop := {
  svc_init_entry k : svc_entry svc_init k = None;
  svc_get_entry s a r : svc_get s a r =
    match svc_entry s (GetArgs_Key a) with
    | Some e => mkGetReply (Value e) (Version e) OK
    | None => mkGetReply (GetReply_Value r) (GetReply_Version r) ErrNoKey
    end;
  svc_put_entry s a r : ∃ s',
    svc_put s a r =
      Ret (s', mkPutReply (put_err (svc_entry s (PutArgs_Key a)) (PutArgs_Version a))) ∧
    ∀ k, svc_entry s' k = put_entry a (svc_entry s) k
}.

#[export] Instance KVServer_service : KVService KVServer := {
  svc_init := MakeKVServer;
  svc_get := KVServer_Get;
  svc_put := KVServer_Put;
  svc_entry kv k := KVStore kv !! k
}.

#[export] Instance KVServer_service_laws : KVServiceLaws KVServer.
Proof.
  split; [done|done|]. intros s a r. cbn [svc_put svc_entry KVServer_service]. rewrite Put_cases.
  unfold put_err, put_entry.
  destruct (KVStore s !! PutArgs_Key a) as [e|] eqn:E; cbn [entry_ver]; case_decide as Hv;
    rewrite bool_decide_decide, ?decide_True, ?decide_False by done;
    eexists; (split; [reflexivity|]); intros k; cbn [KVStore];
    (destruct (decide (k = PutArgs_Key a)) as [->|Hk];
      [|rewrite ?lookup_insert_ne by done; by rewrite decide_False by naive_solver]);
    rewrite ?lookup_insert_eq, E; cbn [entry_ver].
  - rewrite decide_True by done. by rewrite Hv.
  - by rewrite decide_False by naive_solver.
  - rewrite decide_True by done. by rewrite Hv.
  - by rewrite decide_False by naive_solver.
Qed.

(** ** Consequences of the laws *)

Section service.
Context {St : Type} `{KVServiceLaws St}.

Definition svc_ver (s : St) (k : string) : Z := entry_ver (svc_entry s k).
Definition svc_val (s : St) (k : string) : string := entry_val (svc_entry s k).

(** A Put leaves the other keys alone. *)
Lemma svc_put_other s a r s' r' k :
  svc_put s a r = Ret (s', r') → PutArgs_Key a ≠ k → svc_entry s' k = svc_entry s k.
Proof.
  destruct (svc_put_entry s a r) as (s1 & -> & He). intros ? Hk. simplify_eq/=.
  rewrite He. unfold put_entry. by rewrite decide_False by naive_solver.
Qed.

(** A Put of the current version takes effect and is answered [OK]; any other is refused. *)
Lemma svc_put_cases s a r s' r' :
  svc_put s a r = Ret (s', r') → is_u64 (svc_ver s (PutArgs_Key a) + 1) →
  (PutReply_Err r' = OK ∧ PutArgs_Version a = svc_ver s (PutArgs_Key a) ∧
     svc_entry s' (PutArgs_Key a) =
       Some (mkEntry (PutArgs_Value a) (svc_ver s (PutArgs_Key a) + 1))) ∨
  (PutReply_Err r' ≠ OK ∧ PutArgs_Version a ≠ svc_ver s (PutArgs_Key a) ∧
     svc_entry s' (PutArgs_Key a) = svc_entry s (PutArgs_Key a)).
Proof.
  destruct (svc_put_entry s a r) as (s1 & -> & He). intros ? Hb. simplify_eq/=.
  rewrite He. unfold put_entry, put_err, svc_ver in *. case_bool_decide as Hv.
  - left. rewrite decide_True by done. rewrite u64_wrap_small by congruence. by rewrite Hv.
  - right. rewrite decide_False by naive_solver. split_and!; [|done..].
    by destruct (svc_entry s (PutArgs_Key a)).
Qed.

(** The Put of the current version, as a step to take. *)
Lemma svc_put_ok s k v r :
  is_u64 (svc_ver s k + 1) →
  ∃ s', svc_put s (mkPutArgs k v (svc_ver s k)) r = Ret (s', mkPutReply OK) ∧
    svc_entry s' k = Some (mkEntry v (svc_ver s k + 1)).
Proof.
  intros Hb. destruct (svc_put_entry s (mkPutArgs k v (svc_ver s k)) r) as (s1 & Hp & He).
  exists s1. rewrite Hp, He. unfold put_err, put_entry, svc_ver in *. simpl.
  rewrite bool_decide_eq_true_2, decide_True, u64_wrap_small by done. done.
Qed.

(** Reading a key into a fresh reply. *)
Lemma svc_get_cases s k :
  let reply := svc_get s (mkGetArgs k) zero_GetReply in
  GetReply_Value reply = svc_val s k ∧ GetReply_Version reply = svc_ver s k ∧
  (GetReply_Err reply = ErrNoKey → svc_ver s k = 0 ∧ svc_val s k = "").
Proof.
  rewrite svc_get_entry. unfold svc_val, svc_ver. simpl. by destruct (svc_entry s k).
Qed.

Lemma svc_get_present s k e :
  svc_entry s k = Some e →
  svc_get s (mkGetArgs k) zero_GetReply = mkGetReply (Value e) (Version e) OK.
Proof. intros He. rewrite svc_get_entry. simpl. by rewrite He. Qed.
End service.
