(* ===== verification/KvModel.v ===== *)
(** * The linearizability model of the tester ([models1/kv.go])

    [KvModel_Partition], [KvModel_Init] and [KvModel_Step] are the functions that the
    tester hands to the checker.  The theorems relate them to the server: sequential
    server traces are accepted exactly when no Put was answered [ErrNoKey]. *)

From stdpp Require Import pretty.
From S2P Require Export KVServer.

Local Open Scope Z_scope.

Record KvInput := mkKvInput {
  KvInput_Op : Z; (* uint8: 0 is get, 1 is put *)
  KvInput_Key : string;
  KvInput_Value : string;
  KvInput_Version : Z
}.

Record KvOutput := mkKvOutput {
  KvOutput_Value : string;
  KvOutput_Version : Z;
  KvOutput_Err : string
}.

Record KvState := mkKvState { KvState_Value : string; KvState_Version : Z }.

(** The model's state is an [interface{}]: a [KvState], or the string that [Step]
    returns for an unknown operation. *)
Inductive ModelState :=
  | MState (st : KvState)
  | MInvalid.

(** An operation of a history, as [kvtest] builds it. *)
Record Operation := mkOperation {
  Operation_ClientId : Z;
  Operation_Input : KvInput;
  Operation_Call : Z;
  Operation_Output : KvOutput;
  Operation_Return : Z
}.

#[export] Instance KvInput_eq_dec : EqDecision KvInput.
Proof. solve_decision. Defined.

Definition op_key (o : Operation) : string := KvInput_Key (Operation_Input o).

(** [m[key] = append(m[key], v)] over the whole history. *)
Definition partition_map (history : list Operation) : gmap string (list Operation) :=
  foldl (λ m v, <[op_key v := map_get [] m (op_key v) ++ [v]]> m) ∅ history.

(** [order] is the order in which Go's [range] yields the keys of the map; the keys
    are sorted afterwards. *)
Definition KvModel_Partition (order : list string) (history : list Operation)
    : list (list Operation) :=
  let m := partition_map history in
  let keys := merge_sort String.le order in
  (λ k, map_get [] m k) <$> keys.

Definition KvModel_Init : ModelState := MState (mkKvState "" 0).

Definition KvModel_Step (state : ModelState) (inp : KvInput) (out : KvOutput)
    : outcome (bool * ModelState) :=
  match state with
  | MInvalid => Panic "interface conversion: interface {} is string, not models.KvState"
  | MState st =>
      if bool_decide (KvInput_Op inp = 0)
      then Ret (bool_decide (KvOutput_Value out = KvState_Value st), state)
      else if bool_decide (KvInput_Op inp = 1)
      then
        if bool_decide (KvState_Version st = KvInput_Version inp)
        then Ret (bool_decide (KvOutput_Err out = "OK" ∨ KvOutput_Err out = "ErrMaybe"),
                  MState (mkKvState (KvInput_Value inp) (u64_wrap (KvState_Version st + 1))))
        else Ret (bool_decide (KvOutput_Err out = "ErrVersion" ∨
                               KvOutput_Err out = "ErrMaybe"), MState st)
      else Ret (false, MInvalid)
  end.

(** The text [porcupine] shows for an operation. *)
Definition KvModel_DescribeOperation (inp : KvInput) (out : KvOutput) : string :=
  if bool_decide (KvInput_Op inp = 0)
  then "get('" +:+ KvInput_Key inp +:+ "') -> ('" +:+ KvOutput_Value out +:+ "', '" +:+
       pretty (KvOutput_Version out) +:+ "', '" +:+ KvOutput_Err out +:+ "')"
  else if bool_decide (KvInput_Op inp = 1)
  then "put('" +:+ KvInput_Key inp +:+ "', '" +:+ KvInput_Value inp +:+ "', '" +:+
       pretty (KvInput_Version inp) +:+ "') -> ('" +:+ KvOutput_Err out +:+ "')"
  else "<invalid>".

(** A sequential history is legal when every step accepts. *)
Fixpoint legal (st : ModelState) (ops : list (KvInput * KvOutput)) : outcome bool :=
  match ops with
  | [] => Ret true
  | (i, o) :: ops =>
      '(ok, st') ← KvModel_Step st i o;
      if ok : bool then legal st' ops else Ret false
  end.

(** How [kvtest.Get] and [kvtest.Put] log an exchange on key [k]. *)
Fixpoint logged (k : string) (tr : list (Request * Reply)) : list (KvInput * KvOutput) :=
  match tr with
  | (ReqGet a, RepGet r) :: tr =>
      if bool_decide (GetArgs_Key a = k)
      then (mkKvInput 0 k "" 0,
            mkKvOutput (GetReply_Value r) (GetReply_Version r) (GetReply_Err r))
           :: logged k tr
      else logged k tr
  | (ReqPut a, RepPut r) :: tr =>
      if bool_decide (PutArgs_Key a = k)
      then (mkKvInput 1 k (PutArgs_Value a) (PutArgs_Version a),
            mkKvOutput "" 0 (PutReply_Err r)) :: logged k tr
      else logged k tr
  | _ :: tr => logged k tr
  | [] => []
  end.

Definition is_nokey_put (io : KvInput * KvOutput) : bool :=
  bool_decide (KvInput_Op io.1 = 1 ∧ KvOutput_Err io.2 = ErrNoKey).

(** ** Partition *)

Lemma partition_map_fold m history k :
  map_get [] (foldl (λ m v, <[op_key v := map_get [] m (op_key v) ++ [v]]> m) m history) k =
  map_get [] m k ++ filter (λ o, op_key o = k) history.
Proof.
  revert m. induction history as [|o history IH]; intros m; simpl.
  - by rewrite filter_nil, app_nil_r.
  - rewrite IH, filter_cons. case_decide as Hk.
    + rewrite Hk, map_get_insert_eq. by rewrite <-app_assoc.
    + by rewrite map_get_insert_ne.
Qed.

Lemma partition_map_get history k :
  map_get [] (partition_map history) k = filter (λ o, op_key o = k) history.
Proof. unfold partition_map. by rewrite partition_map_fold. Qed.

Lemma partition_map_dom history k :
  k ∈ dom (partition_map history) ↔ k ∈ op_key <$> history.
Proof.
  unfold partition_map.
  enough (∀ m, k ∈ dom (foldl (λ m v, <[op_key v := map_get [] m (op_key v) ++ [v]]> m)
            m history) ↔ k ∈ dom m ∨ k ∈ op_key <$> history) as Hm.
  { rewrite Hm, dom_empty_L. set_solver. }
  induction history as [|o history IH]; intros m; csimpl.
  - set_solver.
  - rewrite IH, dom_insert_L. set_solver.
Qed.

(** ** The model against the server *)

Definition model_of (kv : KVServer) (k : string) : ModelState :=
  MState (match KVStore kv !! k with
          | Some e => mkKvState (Value e) (Version e)
          | None => mkKvState "" 0
          end).

(** A Get of key [k] is accepted and leaves the model state. *)
Lemma Step_Get kv k v :
  let r := KVServer_Get kv (mkGetArgs k) zero_GetReply in
  KvModel_Step (model_of kv k) (mkKvInput 0 k v 0)
    (mkKvOutput (GetReply_Value r) (GetReply_Version r) (GetReply_Err r)) =
  Ret (true, model_of kv k).
Proof.
  unfold KvModel_Step, model_of, KVServer_Get; simpl.
  destruct (KVStore kv !! k); simpl; [|done]. by rewrite bool_decide_eq_true_2.
Qed.

(** A Put on [k] moves the model as the server, and is accepted unless [ErrNoKey]. *)
Lemma Step_Put kv a kv' r :
  KVServer_Put kv a zero_PutReply = Ret (kv', r) →
  KvModel_Step (model_of kv (PutArgs_Key a))
    (mkKvInput 1 (PutArgs_Key a) (PutArgs_Value a) (PutArgs_Version a))
    (mkKvOutput "" 0 (PutReply_Err r)) =
  Ret (bool_decide (PutReply_Err r ≠ ErrNoKey), model_of kv' (PutArgs_Key a)).
Proof.
  rewrite Put_cases. unfold KvModel_Step, model_of; simpl.
  destruct (KVStore kv !! PutArgs_Key a) as [e|] eqn:E; case_decide as Hv; intros Hr;
    simplify_eq/=; rewrite ?lookup_insert_eq, ?E; simpl; case_bool_decide; done.
Qed.

Lemma model_of_ext kv kv' k : KVStore kv' !! k = KVStore kv !! k → model_of kv' k = model_of kv k.
Proof. unfold model_of. by intros ->. Qed.

Lemma is_nokey_put_err io :
  KvInput_Op io.1 = 1 → is_nokey_put io = negb (bool_decide (KvOutput_Err io.2 ≠ ErrNoKey)).
Proof.
  unfold is_nokey_put. intros ->. repeat case_bool_decide; naive_solver.
Qed.

Lemma legal_from kv reqs kv' reps k :
  run_list KVServer_handle kv reqs = Ret (kv', reps) →
  legal (model_of kv k) (logged k (zip reqs reps)) =
    Ret (negb (existsb is_nokey_put (logged k (zip reqs reps)))).
Proof.
  revert kv reps. induction reqs as [|[[k']|a] reqs IH]; intros kv reps Hr; simpl in Hr.
  - by simplify_eq/=.
  - bind_inv Hr. case_bool_decide as Hk; [subst|by eapply IH].
    cbn [legal]. rewrite Step_Get. simpl. by eapply IH.
  - bind_inv Hr. bind_inv Hr. bind_inv Hbind. case_bool_decide as Hk; [subst|].
    + cbn [legal existsb]. erewrite Step_Put by done. rewrite is_nokey_put_err by done.
      simpl. case_bool_decide; [by eapply IH|done].
    + rewrite <-(model_of_ext kv k0 k); [by eapply IH|]. by eapply Put_other_key.
Qed.

(** ** Properties *)

(** [Partition] groups a history by key. Whatever order Go's map iteration yields
    the keys in, the blocks come in the (strictly increasing) order of their keys, each
    block is the history restricted to one key in its original order, and together
    they contain every operation exactly once. *)
Theorem KvModel_Partition_spec (order : list string) (history : list Operation) :
  order ≡ₚ elements (dom (partition_map history)) →
  ∃ keys, StronglySorted String.le keys ∧ NoDup keys ∧
    (∀ k, k ∈ keys ↔ k ∈ op_key <$> history) ∧
    KvModel_Partition order history =
      (λ k, filter (λ o, op_key o = k) history) <$> keys ∧
    concat (KvModel_Partition order history) ≡ₚ history.
Proof.
  intros Ho. exists (merge_sort String.le order).
  assert (Hp : merge_sort String.le order ≡ₚ elements (dom (partition_map history)))
    by (by rewrite merge_sort_Permutation).
  assert (Hin : ∀ k, k ∈ merge_sort String.le order ↔ k ∈ op_key <$> history)
    by (intros k; rewrite Hp, elem_of_elements; apply partition_map_dom).
  assert (Heq : KvModel_Partition order history =
      (λ k, filter (λ o, op_key o = k) history) <$> merge_sort String.le order)
    by (apply list_fmap_ext; intros; apply partition_map_get).
  assert (Hnd : NoDup (merge_sort String.le order)) by (rewrite Hp; apply NoDup_elements).
  split_and!; [apply StronglySorted_merge_sort; apply _|done..|].
  rewrite Heq. apply concat_filter_keys; [done|]. intros o Ho'. rewrite Hin.
  by apply list_elem_of_fmap_2.
Qed.

(** C36: the tester's model against the server. The exchanges of any server run, logged
    the way the tester logs them and restricted to one key, form a legal sequential
    history of the model from its initial state if and only if no Put on that key was
    answered [ErrNoKey]: the model has no transition for that answer, although the
    server gives it. *)
Theorem KvModel_accepts_server (reqs : list Request) kv reps (k : string) :
  run_list KVServer_handle MakeKVServer reqs = Ret (kv, reps) →
  legal KvModel_Init (logged k (zip reqs reps)) =
    Ret (negb (existsb is_nokey_put (logged k (zip reqs reps)))).
Proof. intros Hr. by apply (legal_from MakeKVServer _ kv). Qed.

(** ** Witnesses *)

Example KvModel_Partition_spec_witness :
  let o k n := mkOperation 0 (mkKvInput 1 k n 0) 0 (mkKvOutput "" 0 "OK") 1 in
  let history := [o "b" "1"; o "a" "2"; o "b" "3"]%string in
  ∃ keys, StronglySorted String.le keys ∧ NoDup keys ∧
    (∀ k, k ∈ keys ↔ k ∈ op_key <$> history) ∧
    KvModel_Partition ["b"; "a"]%string history =
      (λ k, filter (λ o, op_key o = k) history) <$> keys ∧
    concat (KvModel_Partition ["b"; "a"]%string history) ≡ₚ history.
Proof.
  intros o history. apply (KvModel_Partition_spec ["b"; "a"]%string history).
  replace (elements _) with ["a"; "b"]%string by (vm_compute; reflexivity).
  apply perm_swap.
Defined.

(** The server's answer to a Put of version 3 on a missing key is rejected. *)
Example KvModel_accepts_server_witness :
  let reqs := [ReqPut (mkPutArgs "k" "a" 3)] in
  let reps := [RepPut (mkPutReply ErrNoKey)] in
  legal KvModel_Init (logged "k" (zip reqs reps)) = Ret false.
Proof.
  intros reqs reps. apply (KvModel_accepts_server reqs MakeKVServer reps "k").
  vm_compute. reflexivity.
Defined.
