(* ===== verification/Clerk.v ===== *)
(** * The retrying clerk ([kvsrv1/client.go])

    [Clerk.Get] and [Clerk.Put] call the server in a loop until a call returns [true].
    The network is a script of events: a call may return [false] although its request
    is, or still will be, executed ([EvLost] followed by any number of [EvLate]); other
    clients' requests run in between ([EvOther]); [EvReply] is a call that returns
    [true] with the handler's reply. *)

From S2P Require Export KVServer.

Local Open Scope Z_scope.

Inductive NetEvent :=
  | EvOther (req : Request)  (* another client's request runs at the server *)
  | EvLost                   (* this clerk's call returns false; its request is in flight *)
  | EvLate                   (* one of this clerk's in-flight requests runs at the server *)
  | EvReply.                 (* this clerk's call runs and returns true *)

(** [err] as computed after the loop of [Clerk.Put]. *)
Definition Clerk_Put_err (err : Err) (requestCount : Z) : Err :=
  if bool_decide (err = ErrVersion) && bool_decide (1 < requestCount)
  then ErrMaybe else err.

(** The state of one [Clerk.Put] call and of the server it talks to. [run_count] is
    [requestCount], a Go [int]. [run_applied] is ghost: it counts the executions of the
    clerk's request answered [OK]. *)
Record PutRun := mkPutRun {
  run_srv : KVServer;
  run_inflight : nat;
  run_count : Z;
  run_applied : nat;
  run_result : option Err
}.

(** One execution of the clerk's request at the server. *)
Definition exec_put (args : PutArgs) (st : PutRun) : outcome (PutRun * PutReply) :=
  '(srv, reply) ← KVServer_Put (run_srv st) args zero_PutReply;
  Ret (mkPutRun srv (run_inflight st) (run_count st)
         (run_applied st + (if bool_decide (PutReply_Err reply = OK) then 1 else 0))
         (run_result st), reply).

(** The loop of [Clerk.Put], one network event at a time: [ok = Call(...)] and
    [requestCount++] until [ok], then the error of the last reply. *)
Definition Clerk_Put_event (args : PutArgs) (st : PutRun) (ev : NetEvent)
    : outcome PutRun :=
  match ev with
  | EvOther req =>
      '(srv, _) ← KVServer_handle (run_srv st) req;
      Ret (mkPutRun srv (run_inflight st) (run_count st) (run_applied st) (run_result st))
  | EvLost =>
      match run_result st with
      | Some _ => Ret st
      | None =>
          Ret (mkPutRun (run_srv st) (S (run_inflight st)) (i64_wrap (run_count st + 1))
                 (run_applied st) None)
      end
  | EvLate =>
      match run_inflight st with
      | O => Ret st
      | S n =>
          '(st', _) ← exec_put args (mkPutRun (run_srv st) n (run_count st)
                                       (run_applied st) (run_result st));
          Ret st'
      end
  | EvReply =>
      match run_result st with
      | Some _ => Ret st
      | None =>
          '(st', reply) ← exec_put args st;
          let requestCount := i64_wrap (run_count st' + 1) in
          Ret (mkPutRun (run_srv st') (run_inflight st') requestCount (run_applied st')
                 (Some (Clerk_Put_err (PutReply_Err reply) requestCount)))
      end
  end.

Fixpoint Clerk_Put_events (args : PutArgs) (st : PutRun) (evs : list NetEvent)
    : outcome PutRun :=
  match evs with
  | [] => Ret st
  | ev :: evs => st' ← Clerk_Put_event args st ev; Clerk_Put_events args st' evs
  end.

Definition Clerk_Put (srv : KVServer) (key value : string) (version : Tversion)
    (evs : list NetEvent) : outcome PutRun :=
  Clerk_Put_events (mkPutArgs key value version) (mkPutRun srv 0 0 0 None) evs.

(** How many of the events are calls of the clerk. *)
Fixpoint tries (evs : list NetEvent) : nat :=
  match evs with
  | [] => 0
  | EvLost :: evs | EvReply :: evs => S (tries evs)
  | EvOther _ :: evs | EvLate :: evs => tries evs
  end.

(** [Clerk.Get]: lost calls leave the server and the reply as they were, so only the
    other clients' requests matter until the call that returns [true]. The result is
    the server afterwards and what [Get] returned, if it did. *)
Fixpoint Clerk_Get (srv : KVServer) (key : string) (evs : list NetEvent)
    : outcome (KVServer * option (string * Tversion * Err)) :=
  match evs with
  | [] => Ret (srv, None)
  | EvOther req :: evs =>
      '(srv', _) ← KVServer_handle srv req;
      Clerk_Get srv' key evs
  | EvLost :: evs | EvLate :: evs => Clerk_Get srv key evs
  | EvReply :: _ =>
      let reply := KVServer_Get srv (mkGetArgs key) zero_GetReply in
      Ret (srv, Some (GetReply_Value reply, GetReply_Version reply, GetReply_Err reply))
  end.

Lemma tries_cons ev evs : tries (ev :: evs) = (tries [ev] + tries evs)%nat.
Proof. by destruct ev. Qed.

Lemma tries_app evs evs' : tries (evs ++ evs') = (tries evs + tries evs')%nat.
Proof. induction evs as [|[] evs IH]; simpl; lia. Qed.

Lemma tries_length evs : (tries evs ≤ length evs)%nat.
Proof. induction evs as [|[] evs IH]; simpl; lia. Qed.

(** ** Versions only grow *)

(** The version of a key, 0 when it is missing. *)
Definition kver (kv : KVServer) (k : string) : Z :=
  match KVStore kv !! k with Some e => Version e | None => 0 end.

Lemma Put_kver kv a r kv' r' :
  KVServer_Put kv a r = Ret (kv', r') → is_u64 (kver kv (PutArgs_Key a) + 1) →
  (PutReply_Err r' = OK ∧ PutArgs_Version a = kver kv (PutArgs_Key a) ∧
     kver kv' (PutArgs_Key a) = kver kv (PutArgs_Key a) + 1 ∧
     KVStore kv' !! PutArgs_Key a =
       Some (mkEntry (PutArgs_Value a) (PutArgs_Version a + 1))) ∨
  (PutReply_Err r' = ErrVersion ∧ kv' = kv ∧ is_Some (KVStore kv !! PutArgs_Key a) ∧
     PutArgs_Version a ≠ kver kv (PutArgs_Key a)) ∨
  (PutReply_Err r' = ErrNoKey ∧ kv' = kv ∧ KVStore kv !! PutArgs_Key a = None ∧
     PutArgs_Version a ≠ 0).
Proof.
  rewrite Put_cases. unfold kver. intros Hr Hb.
  destruct (KVStore kv !! PutArgs_Key a) eqn:E; case_decide as Hv; simplify_eq/=;
    rewrite ?lookup_insert_eq; simpl.
  - left. rewrite u64_wrap_small by done. by rewrite Hv.
  - right; left. eauto.
  - left. by rewrite Hv.
  - right; right. eauto.
Qed.

Lemma handle_kver kv req kv' rep k :
  KVServer_handle kv req = Ret (kv', rep) → is_u64 (kver kv k + 1) →
  kver kv k ≤ kver kv' k ≤ kver kv k + 1.
Proof.
  destruct req as [a|a]; simpl; intros Hr Hb; [simplify_eq/=; lia|].
  bind_inv Hr. destruct (decide (PutArgs_Key a = k)) as [<-|Hk].
  - apply Put_kver in Hbind as [(_&_&->&_)|[(_&->&_)|(_&->&_)]]; [lia..|done].
  - unfold kver. rewrite (Put_other_key _ _ _ _ _ _ Hbind Hk). lia.
Qed.

(** ** At most one execution of a Put takes effect *)

Section at_most_once.
Context (args : PutArgs).

Abbreviation key := (PutArgs_Key args).
Abbreviation ver := (PutArgs_Version args).

(** What the result of the clerk says about the executions so far. *)
Definition result_inv (st : PutRun) : Prop :=
  match run_result st with
  | None => Z.of_nat (run_applied st + run_inflight st) ≤ run_count st
  | Some err =>
      (err = OK ∧ run_applied st = 1%nat) ∨
      (err = ErrVersion ∧ run_count st = 1 ∧ run_inflight st = 0%nat ∧
         run_applied st = 0%nat) ∨
      (err = ErrNoKey ∧
         (run_count st = 1 → run_inflight st = 0%nat ∧ run_applied st = 0%nat)) ∨
      (err = ErrMaybe ∧ 1 < run_count st)
  end.

Record put_inv (st : PutRun) : Prop := {
  pi_nonneg : 0 ≤ kver (run_srv st) key;
  pi_once : (run_applied st ≤ 1)%nat;
  pi_past : run_applied st = 1%nat → ver < kver (run_srv st) key;
  pi_count : 0 ≤ run_count st;
  pi_result : result_inv st
}.

(** An execution of the request succeeds at most once, and only if no other did. *)
Lemma exec_put_inv st st' reply :
  0 ≤ kver (run_srv st) key → (run_applied st ≤ 1)%nat →
  (run_applied st = 1%nat → ver < kver (run_srv st) key) →
  kver (run_srv st) key + 1 < 2 ^ 64 → exec_put args st = Ret (st', reply) →
  run_inflight st' = run_inflight st ∧ run_count st' = run_count st ∧
  run_result st' = run_result st ∧
  kver (run_srv st) key ≤ kver (run_srv st') key ≤ kver (run_srv st) key + 1 ∧
  (run_applied st' = 1%nat → ver < kver (run_srv st') key) ∧
  ((PutReply_Err reply = OK ∧ run_applied st = 0%nat ∧ run_applied st' = 1%nat) ∨
   (PutReply_Err reply = ErrVersion ∧ run_applied st' = run_applied st) ∨
   (PutReply_Err reply = ErrNoKey ∧ run_applied st' = run_applied st)).
Proof.
  intros Hn H1 Hpast Hb Hex. unfold exec_put in Hex. bind_inv Hex.
  apply Put_kver in Hbind as [(He&Hv&Hv'&_)|[(He&->&_)|(He&->&_)]];
    [..|unfold is_u64; lia]; rewrite He; simpl.
  - split_and!; [done..|lia|lia|lia|].
    left. split; [done|lia].
  - rewrite Nat.add_0_r. split_and!; [done..|lia|lia|done|]. eauto.
  - rewrite Nat.add_0_r. split_and!; [done..|lia|lia|done|]. eauto.
Qed.

Lemma exec_put_total st : ∃ st' reply, exec_put args st = Ret (st', reply).
Proof.
  unfold exec_put. rewrite Put_cases. repeat split_case; simpl; eauto.
Qed.

Lemma event_total st ev : ∃ st', Clerk_Put_event args st ev = Ret st'.
Proof.
  destruct ev; simpl.
  - destruct (handle_total (run_srv st) req) as (kv' & rep & ->). simpl. eauto.
  - destruct (run_result st); eauto.
  - destruct (run_inflight st); [eauto|]. edestruct exec_put_total as (?&?&->). simpl. eauto.
  - destruct (run_result st); [eauto|]. edestruct exec_put_total as (?&?&->). simpl. eauto.
Qed.

Lemma put_events_total evs st : ∃ st', Clerk_Put_events args st evs = Ret st'.
Proof.
  revert st. induction evs as [|ev evs IH]; intros st; simpl; [eauto|].
  destruct (event_total st ev) as [st1 ->]. simpl. apply IH.
Qed.

Lemma event_inv st ev st' :
  put_inv st → kver (run_srv st) key + 1 < 2 ^ 64 →
  run_count st + Z.of_nat (tries [ev]) < 2 ^ 63 →
  Clerk_Put_event args st ev = Ret st' →
  put_inv st' ∧ kver (run_srv st') key ≤ kver (run_srv st) key + 1 ∧
  run_count st' ≤ run_count st + Z.of_nat (tries [ev]).
Proof.
  intros [Hn H1 Hp Hc Hr] Hb Ht. unfold result_inv in Hr. destruct ev; simpl in *; intros Hev.
  - bind_inv Hev. apply (handle_kver _ _ _ _ key) in Hbind; [|unfold is_u64; lia].
    split; [|simpl; lia]. split; simpl; [lia|lia|intros H; specialize (Hp H); lia|lia|done].
  - rewrite i64_wrap_small in Hev by lia.
    destruct (run_result st) eqn:Er; simplify_eq/=;
      (split; [|simpl; lia]); split; unfold result_inv; simpl; rewrite ?Er; try done; lia.
  - destruct (run_inflight st) as [|n] eqn:Ei; simplify_eq/=.
    { split; [|lia]. split; unfold result_inv; by rewrite ?Ei. }
    bind_inv Hev. apply exec_put_inv in Hbind as (E1&E2&E3&E4&E5&E6); simpl in *; [|done..].
    split; [|lia]. split; [lia|lia|done|lia|].
    unfold result_inv. rewrite E1, E2, E3. destruct (run_result st); [|lia].
    destruct Hr as [[-> ?]|[(->&?&?&?)|[[-> Hr]|[-> ?]]]].
    + left. split; [done|]. destruct E6 as [(?&?&?)|[[??]|[??]]]; lia.
    + lia.
    + right; right; left. split; [done|]. intros Hc1. destruct (Hr Hc1). lia.
    + right; right; right. done.
  - destruct (run_result st) eqn:Er; simplify_eq/=.
    { split; [|lia]. by split; unfold result_inv; rewrite ?Er. }
    bind_inv Hev. apply exec_put_inv in Hbind as (E1&E2&E3&E4&E5&E6); simpl in *; [|done..].
    rewrite i64_wrap_small by lia.
    split; [|simpl; lia]. split; simpl; [lia|lia|done|lia|].
    unfold result_inv, Clerk_Put_err. simpl. rewrite E1, E2.
    destruct E6 as [(->&?&?)|[(->&E)|(->&E)]]; simpl.
    + left. done.
    + rewrite E. case_bool_decide.
      * right; right; right. split; [done|lia].
      * right; left. split_and!; [done|lia..].
    + right; right; left. rewrite E. split; [done|]. intros. lia.
Qed.

Lemma events_inv evs st :
  put_inv st → kver (run_srv st) key + Z.of_nat (length evs) < 2 ^ 64 →
  run_count st + Z.of_nat (tries evs) < 2 ^ 63 →
  ∃ st', Clerk_Put_events args st evs = Ret st' ∧ put_inv st'.
Proof.
  revert st. induction evs as [|ev evs IH]; intros st Hi Hb Ht; [simpl; eauto|].
  rewrite tries_cons in Ht. simpl in Hb |- *.
  destruct (event_total st ev) as [st1 E]. rewrite E. simpl.
  destruct (event_inv st ev st1) as (Hi1 & Hk & Hc1); [done|lia|lia|done|]. apply IH; [done|lia..].
Qed.

(** The clerk has returned exactly when one of its calls has. *)
Lemma events_returned evs st st' :
  Clerk_Put_events args st evs = Ret st' →
  (is_Some (run_result st') ↔ is_Some (run_result st) ∨ EvReply ∈ evs).
Proof.
  revert st. induction evs as [|ev evs IH]; intros st Hr; simpl in *.
  { simplify_eq/=. set_solver. }
  bind_inv Hr. rewrite (IH _ Hr), elem_of_cons.
  assert (is_Some (run_result a) ↔ is_Some (run_result st) ∨ EvReply = ev) as ->;
    [|tauto].
  destruct ev; simpl in Hbind.
  - bind_inv Hbind. naive_solver.
  - destruct (run_result st) eqn:E; simplify_eq/=; rewrite ?E; naive_solver.
  - destruct (run_inflight st); simplify_eq/=; [naive_solver|].
    unfold exec_put in Hbind. bind_inv Hbind. bind_inv Hbind0. naive_solver.
  - destruct (run_result st) eqn:E; simplify_eq/=.
    + rewrite E. naive_solver.
    + bind_inv Hbind. naive_solver.
Qed.
End at_most_once.

(** ** Properties *)

(** C1: at-most-once semantics of [Clerk.Put] over a lossy, delaying network shared with
    other clients. As long as fewer than 2^64 events can advance the key's version, and the
    clerk makes fewer than 2^63 calls, which its counter can count, the request takes effect at most once, even counting copies that are executed after the
    clerk has returned; [OK] means it took effect exactly once; [ErrVersion] means it
    never does; [ErrNoKey] on the first try means it never does; [ErrMaybe] is only
    returned after a resend. The clerk returns exactly when one of its calls does. *)
Theorem Clerk_Put_at_most_once (srv : KVServer) (key value : string) (version : Tversion)
    (evs : list NetEvent) :
  0 ≤ kver srv key → kver srv key + Z.of_nat (length evs) < 2 ^ 64 →
  Z.of_nat (tries evs) < 2 ^ 63 →
  ∃ st, Clerk_Put srv key value version evs = Ret st ∧
    (run_applied st ≤ 1)%nat ∧
    (run_result st = Some OK → run_applied st = 1%nat) ∧
    (run_result st = Some ErrVersion → run_applied st = 0%nat ∧ run_count st = 1) ∧
    (run_result st = Some ErrNoKey → run_count st = 1 → run_applied st = 0%nat) ∧
    (run_result st = Some ErrMaybe → 1 < run_count st) ∧
    (is_Some (run_result st) ↔ EvReply ∈ evs).
Proof.
  intros H0 Hb Ht. unfold Clerk_Put.
  destruct (events_inv (mkPutArgs key value version) evs (mkPutRun srv 0 0 0 None))
    as (st & E & [Hn H1 Hp Hc Hr]); [by split; unfold result_inv; simpl; try lia|done|done|].
  exists st. split; [done|]. split; [done|]. unfold result_inv in Hr.
  pose proof (events_returned _ _ _ _ E) as Hret. simpl in Hret.
  assert (Hcase : ∀ e, run_result st = Some e → _) by (intros e He; rewrite He in Hr; exact Hr).
  split_and!.
  - intros [[??]|[[??]|[[??]|[??]]]]%Hcase; done.
  - intros [[??]|[(?&?&?&?)|[[??]|[??]]]]%Hcase; done.
  - intros [[??]|[(?&?&?&?)|[[? H]|[??]]]]%Hcase Hc1; try done. by destruct (H Hc1).
  - intros [[??]|[(?&?&?&?)|[[??]|[??]]]]%Hcase; done.
  - rewrite Hret. split; [intros [[??]|?]; done|by right].
Qed.

(** [ErrMaybe] is a real ambiguity, and so is [ErrNoKey] after a resend. The same
    answer [ErrMaybe] is given to a Put that took effect (its reply was lost) and to one
    that did not; and a Put answered [ErrNoKey] on a resend can still take effect later,
    when a copy in flight meets a key created in the meantime. *)
Theorem Clerk_Put_ambiguous :
  let store v := mkKVServer {["k" := mkEntry "x" v]} in
  let other v := EvOther (ReqPut (mkPutArgs "k" "other" v)) in
  (∃ st, Clerk_Put (store 1) "k" "mine" 1 [EvLost; EvLate; EvReply] = Ret st ∧
     run_result st = Some ErrMaybe ∧ run_applied st = 1%nat) ∧
  (∃ st, Clerk_Put (store 1) "k" "mine" 1 [EvLost; other 1; EvReply; EvLate] = Ret st ∧
     run_result st = Some ErrMaybe ∧ run_applied st = 0%nat) ∧
  (∃ st, Clerk_Put MakeKVServer "k" "mine" 1 [EvLost; EvReply; other 0; EvLate] = Ret st ∧
     run_result st = Some ErrNoKey ∧ run_applied st = 1%nat).
Proof. split_and!; eexists; (split; [vm_compute; reflexivity|]); split; reflexivity. Qed.

(** ** Witnesses *)

Example Clerk_Put_at_most_once_witness :
  let srv := mkKVServer {["k" := mkEntry "x" 1]} in
  let evs := [EvLost; EvLate; EvReply] in
  ∃ st, Clerk_Put srv "k" "mine" 1 evs = Ret st ∧
    (run_applied st ≤ 1)%nat ∧
    (run_result st = Some OK → run_applied st = 1%nat) ∧
    (run_result st = Some ErrVersion → run_applied st = 0%nat ∧ run_count st = 1) ∧
    (run_result st = Some ErrNoKey → run_count st = 1 → run_applied st = 0%nat) ∧
    (run_result st = Some ErrMaybe → 1 < run_count st) ∧
    (is_Some (run_result st) ↔ EvReply ∈ evs).
Proof.
  intros srv evs. apply (Clerk_Put_at_most_once srv "k" "mine" 1 evs).
  - vm_compute. discriminate.
  - vm_compute. reflexivity.
  - reflexivity.
Defined.
