(* ===== verification/Porcupine.v ===== *)
(** * The recorded histories of clerks are linearizable ([kvtest1/porcupine.go])

    [Get] and [Put] run a clerk's operation and append it to the [OpLog] with the times of its
    call and its return; [checkPorcupine] hands the log to an external checker, together with
    the model of KvModel.v. The system below is any number of clients over any [KVService];
    calls are lost, repeated and delayed. The checker is a parameter. *)

From S2P Require Export KVService KvModel Clerk.

Local Open Scope Z_scope.

(** ** The log *)

Definition OpLog : Type := list Operation.

Definition OpLog_Len (log : OpLog) : nat := length log.
Definition OpLog_Append (log : OpLog) (op : Operation) : OpLog := log ++ [op].
Definition OpLog_Read (log : OpLog) : list Operation := log.

(** What [Get] and [Put] log; [cli] is the client identifier they are given. *)
Definition get_op (cli : Z) (key : string) (start fin : Z) (reply : GetReply) : Operation :=
  mkOperation cli (mkKvInput 0 key "" 0) start
    (mkKvOutput (GetReply_Value reply) (GetReply_Version reply) (GetReply_Err reply)) fin.

Definition put_op (cli : Z) (a : PutArgs) (start fin : Z) (err : Err) : Operation :=
  mkOperation cli (mkKvInput 1 (PutArgs_Key a) (PutArgs_Value a) (PutArgs_Version a)) start
    (mkKvOutput "" 0 err) fin.

(** ** The check *)

(** [a] does not come after an operation that it precedes in real time. *)
Definition rt_order (a b : Operation) : Prop := ¬ Operation_Return b < Operation_Call a.

#[export] Instance rt_order_dec a b : Decision (rt_order a b).
Proof. unfold rt_order. apply _. Defined.

Definition in_out (o : Operation) : KvInput * KvOutput := (Operation_Input o, Operation_Output o).

(** [order] is an order in which the operations can have taken effect one at a time. *)
Definition linearizes (ops order : list Operation) : Prop :=
  order ≡ₚ ops ∧ legal KvModel_Init (in_out <$> order) = Ret true ∧ StronglySorted rt_order order.

Definition linearizable (ops : list Operation) : Prop := ∃ order, linearizes ops order.

Inductive CheckResult := CheckOk | CheckIllegal | CheckUnknown.

(** [checkPorcupine], without the drawing of the history. *)
Definition checkPorcupine (CheckOperations : list Operation → Z → CheckResult) (log : OpLog)
    (nsec : Z) : outcome unit :=
  match CheckOperations (OpLog_Read log) nsec with
  | CheckIllegal => Fatal "history is not linearizable"
  | _ => Ret tt
  end.

(** The checker says "illegal" only if some part of the model's partition is not linearizable. *)
Definition checker_sound (CheckOperations : list Operation → Z → CheckResult) : Prop :=
  ∀ ops nsec, CheckOperations ops nsec = CheckIllegal →
    ∃ order part, order ≡ₚ elements (dom (partition_map ops)) ∧
      part ∈ KvModel_Partition order ops ∧ ¬ linearizable part.

(** ** The system *)

(** Where a client is in [Get] or [Put], since when, with what answer of the server; [n] is
    [requestCount] in the clerk's loop. *)
Inductive PClient :=
  | PIdle
  | PGet (key : string) (start : Z)
  | PGot (key : string) (start : Z) (reply : GetReply)
  | PPut (a : PutArgs) (start : Z) (n : Z)
  | PPutDone (a : PutArgs) (start : Z) (err : Err).

Section porcupine.
Context {St : Type} `{KVServiceLaws St}.
(** The [cli] a client uses, and the Puts that clients may begin. *)
Context (cli : nat → Z) (may_put : St → PutArgs → Prop).

Record PSys := mkPSys {
  ps_srv : St;
  ps_now : Z;
  ps_clients : nat → PClient;
  ps_flight : list PutArgs;
  ps_log : OpLog
}.

Definition p_client (s : PSys) (i : nat) (c : PClient) : PSys :=
  mkPSys (ps_srv s) (ps_now s) (<[i := c]> (ps_clients s)) (ps_flight s) (ps_log s).

Definition p_return (s : PSys) (i : nat) (op : Operation) : PSys :=
  mkPSys (ps_srv s) (ps_now s) (<[i := PIdle]> (ps_clients s)) (ps_flight s)
    (OpLog_Append (ps_log s) op).

Inductive p_step : PSys → PSys → Prop :=
  | p_tick s d :
      0 ≤ d →
      p_step s (mkPSys (ps_srv s) (ps_now s + d) (ps_clients s) (ps_flight s) (ps_log s))
  | p_get_call s i k :
      ps_clients s i = PIdle → p_step s (p_client s i (PGet k (ps_now s)))
  | p_get_exec s i k t :
      ps_clients s i = PGet k t →
      p_step s (p_client s i (PGot k t (svc_get (ps_srv s) (mkGetArgs k) zero_GetReply)))
  | p_get_return s i k t r :
      ps_clients s i = PGot k t r → p_step s (p_return s i (get_op (cli i) k t (ps_now s) r))
  | p_put_call s i a :
      ps_clients s i = PIdle → may_put (ps_srv s) a → p_step s (p_client s i (PPut a (ps_now s) 0))
  | p_put_lost s i a t n :
      ps_clients s i = PPut a t n →
      p_step s (mkPSys (ps_srv s) (ps_now s) (<[i := PPut a t (n + 1)]> (ps_clients s))
                  (a :: ps_flight s) (ps_log s))
  | p_put_late s a srv reply :
      a ∈ ps_flight s → svc_put (ps_srv s) a zero_PutReply = Ret (srv, reply) →
      p_step s (mkPSys srv (ps_now s) (ps_clients s) (ps_flight s) (ps_log s))
  | p_put_exec s i a t n srv reply :
      ps_clients s i = PPut a t n → svc_put (ps_srv s) a zero_PutReply = Ret (srv, reply) →
      p_step s (mkPSys srv (ps_now s)
        (<[i := PPutDone a t (Clerk_Put_err (PutReply_Err reply) (n + 1))]> (ps_clients s))
        (ps_flight s) (ps_log s))
  | p_put_return s i a t e :
      ps_clients s i = PPutDone a t e → p_step s (p_return s i (put_op (cli i) a t (ps_now s) e)).

Definition p_init (s : PSys) : Prop :=
  ps_srv s = svc_init ∧ (∀ i, ps_clients s i = PIdle) ∧ ps_flight s = [] ∧ ps_log s = [].

(** ** The order of effects *)

(** An operation that has taken effect, and when it returned, if it did. *)
Record Lin := mkLin {
  ln_client : nat;
  ln_in : KvInput;
  ln_call : Z;
  ln_out : KvOutput;
  ln_ret : option Z
}.

Definition ln_op (x : Lin) (t : Z) : Operation :=
  mkOperation (cli (ln_client x)) (ln_in x) (ln_call x) (ln_out x) t.

Definition returned (x : Lin) : option Operation := ln_op x <$> ln_ret x.

Definition is_pending (i : nat) (x : Lin) : Prop := ln_client x = i ∧ ln_ret x = None.

Definition pend (i : nat) (lin : list Lin) : list Lin := filter (is_pending i) lin.

(** Client [i] returns at time [t]. *)
Definition complete (i : nat) (t : Z) (x : Lin) : Lin :=
  if decide (is_pending i x)
  then mkLin (ln_client x) (ln_in x) (ln_call x) (ln_out x) (Some t) else x.

Definition ln_io (x : Lin) : KvInput * KvOutput := (ln_in x, ln_out x).

Definition effects (k : string) (lin : list Lin) : list (KvInput * KvOutput) :=
  ln_io <$> filter (λ x, KvInput_Key (ln_in x) = k) lin.

(** The state the model ends in, when it accepts. *)
Fixpoint legal_to (st : ModelState) (ops : list (KvInput * KvOutput)) : option ModelState :=
  match ops with
  | [] => Some st
  | (i, o) :: ops =>
      match KvModel_Step st i o with
      | Ret (true, st') => legal_to st' ops
      | _ => None
      end
  end.

Lemma legal_to_legal st ops st' : legal_to st ops = Some st' → legal st ops = Ret true.
Proof.
  revert st. induction ops as [|[i o] ops IH]; intros st E; simpl in *; [done|].
  destruct (KvModel_Step st i o) as [[[] st1]|?|?]; simpl; [by apply IH|done..].
Qed.

Lemma legal_to_snoc st ops st1 i o st2 :
  legal_to st ops = Some st1 → KvModel_Step st1 i o = Ret (true, st2) →
  legal_to st (ops ++ [(i, o)]) = Some st2.
Proof.
  revert st. induction ops as [|[i' o'] ops IH]; intros st E1 E2; simpl in *.
  - injection E1 as ->. by rewrite E2.
  - destruct (KvModel_Step st i' o') as [[[] st']|?|?]; [by apply IH|done..].
Qed.

Lemma pend_snoc i lin y :
  ln_ret y = None → pend i (lin ++ [y]) = pend i lin ++ (if decide (ln_client y = i) then [y] else []).
Proof.
  intros Hr. unfold pend. rewrite filter_app. f_equal. case_decide.
  - by rewrite filter_cons_True.
  - rewrite filter_cons_False; [done|]. by intros [? _].
Qed.

Lemma pend_nil_complete i t lin : pend i lin = [] → complete i t <$> lin = lin.
Proof.
  induction lin as [|x lin IH]; [done|]. unfold pend, complete in *. rewrite filter_cons. csimpl.
  destruct (decide (is_pending i x)); [done|]. intros E. by rewrite IH.
Qed.

Lemma pend_complete i j t lin :
  pend j (complete i t <$> lin) = if decide (i = j) then [] else pend j lin.
Proof.
  induction lin as [|x lin IH]; [by case_decide|]. unfold pend in *. csimpl. rewrite !filter_cons, IH.
  unfold complete, is_pending. case_decide as Hij; repeat case_decide; naive_solver.
Qed.

Lemma effects_complete k i t lin : effects k (complete i t <$> lin) = effects k lin.
Proof.
  unfold effects. induction lin as [|x lin IH]; [done|]. csimpl. rewrite !filter_cons.
  assert (ln_in (complete i t x) = ln_in x ∧ ln_io (complete i t x) = ln_io x) as [Hin Hio].
  { unfold complete, ln_io. by destruct (decide _). }
  rewrite Hin. case_decide; csimpl; by rewrite ?IH, ?Hio.
Qed.

Lemma returned_complete i t lin y :
  pend i lin = [y] → omap returned (complete i t <$> lin) ≡ₚ omap returned lin ++ [ln_op y t].
Proof.
  induction lin as [|x lin IH]; [done|]. unfold pend in *. rewrite filter_cons. intros E. csimpl.
  unfold complete at 1. destruct (decide (is_pending i x)) as [Hx|Hx].
  - injection E as -> E. fold (pend i lin) in E. rewrite pend_nil_complete by done.
    destruct Hx as [_ Hx]. assert (returned y = None) as -> by (unfold returned; by rewrite Hx).
    apply Permutation_cons_append.
  - destruct (returned x); simpl; by rewrite (IH E).
Qed.

Lemma effects_snoc k lin y :
  effects k (lin ++ [y]) = effects k lin ++ (if decide (KvInput_Key (ln_in y) = k) then [ln_io y] else []).
Proof.
  unfold effects. rewrite filter_app, fmap_app. f_equal. case_decide.
  - by rewrite filter_cons_True.
  - by rewrite filter_cons_False.
Qed.

(** ** The invariant *)

Definition get_in (k : string) : KvInput := mkKvInput 0 k "" 0.
Definition get_out (r : GetReply) : KvOutput :=
  mkKvOutput (GetReply_Value r) (GetReply_Version r) (GetReply_Err r).
Definition put_in (a : PutArgs) : KvInput :=
  mkKvInput 1 (PutArgs_Key a) (PutArgs_Value a) (PutArgs_Version a).
Definition put_out (e : Err) : KvOutput := mkKvOutput "" 0 e.

Definition m_state (srv : St) (k : string) : ModelState :=
  MState (mkKvState (svc_val srv k) (svc_ver srv k)).

(** The operation of a client is among the effects when it has been answered; a Put also when
    one of its lost calls was executed, which makes its version an old one. *)
Definition client_ok (srv : St) (now : Z) (lin : list Lin) (i : nat) (c : PClient) : Prop :=
  match c with
  | PIdle => pend i lin = []
  | PGet k t => pend i lin = [] ∧ t ≤ now
  | PGot k t r => pend i lin = [mkLin i (get_in k) t (get_out r) None]
  | PPut a t n =>
      t ≤ now ∧ 0 ≤ n ∧ 0 ≤ PutArgs_Version a ≤ svc_ver srv (PutArgs_Key a) ∧
      (pend i lin = [] ∨
       1 ≤ n ∧ PutArgs_Version a < svc_ver srv (PutArgs_Key a) ∧
       pend i lin = [mkLin i (put_in a) t (put_out ErrMaybe) None])
  | PPutDone a t e => pend i lin = [mkLin i (put_in a) t (put_out e) None]
  end.

(** [y] takes effect after [x]. *)
Definition lin_order (x y : Lin) : Prop := ∀ t, ln_ret y = Some t → ln_call x ≤ t.

Definition flight_ok (srv : St) (clients : nat → PClient) (a : PutArgs) : Prop :=
  PutArgs_Version a < svc_ver srv (PutArgs_Key a) ∨
  ∃ i t n, clients i = PPut a t n ∧ 1 ≤ n.

Record p_inv (s : PSys) (lin : list Lin) : Prop := {
  pi_client i : client_ok (ps_srv s) (ps_now s) lin i (ps_clients s i);
  pi_model k : legal_to KvModel_Init (effects k lin) = Some (m_state (ps_srv s) k);
  pi_log : ps_log s ≡ₚ omap returned lin;
  pi_order : StronglySorted lin_order lin;
  pi_calls : Forall (λ x, ln_call x ≤ ps_now s) lin;
  pi_flight a : a ∈ ps_flight s → flight_ok (ps_srv s) (ps_clients s) a
}.

Lemma client_ok_mono srv srv' now now' lin lin' i c :
  now ≤ now' → (∀ k, svc_ver srv k ≤ svc_ver srv' k) → pend i lin' = pend i lin →
  client_ok srv now lin i c → client_ok srv' now' lin' i c.
Proof.
  intros Hn Hv Hp. destruct c as [|k t|k t r|a t n|a t e]; simpl; rewrite ?Hp; try done.
  - intros [? ?]. split; [done|lia].
  - specialize (Hv (PutArgs_Key a)). intros (? & ? & ? & Hc). split_and!; [lia|done|lia|lia|].
    destruct Hc as [?|(? & ? & ?)]; [by left|right]. split_and!; [done|lia|done].
Qed.

Lemma flight_ok_mono srv srv' clients clients' a :
  (∀ k, svc_ver srv k ≤ svc_ver srv' k) →
  (∀ i t n, clients i = PPut a t n → 1 ≤ n →
     PutArgs_Version a < svc_ver srv' (PutArgs_Key a) ∨ ∃ n', clients' i = PPut a t n' ∧ 1 ≤ n') →
  flight_ok srv clients a → flight_ok srv' clients' a.
Proof.
  intros Hv Hc [?|(i & t & n & Hi & Hn)]; [left; specialize (Hv (PutArgs_Key a)); lia|].
  destruct (Hc i t n Hi Hn) as [?|(n' & ? & ?)]; [by left|]. right. by exists i, t, n'.
Qed.

(** One client moves, and nothing takes effect. *)
Lemma p_client_move s lin srv i c now flight :
  p_inv s lin → (∀ k, svc_entry srv k = svc_entry (ps_srv s) k) → ps_now s ≤ now →
  client_ok srv now lin i c →
  (∀ a t n, ps_clients s i = PPut a t n → 1 ≤ n →
     PutArgs_Version a < svc_ver srv (PutArgs_Key a) ∨ ∃ n', c = PPut a t n' ∧ 1 ≤ n') →
  (∀ a, a ∈ flight → a ∈ ps_flight s ∨ ∃ t n, c = PPut a t n ∧ 1 ≤ n) →
  p_inv (mkPSys srv now (<[i := c]> (ps_clients s)) flight (ps_log s)) lin.
Proof.
  intros [H1 H2 H3 H4 H5 H6] He Hn Hc Hi Hf.
  assert (Hv : ∀ k, svc_ver srv k = svc_ver (ps_srv s) k) by (intros k; unfold svc_ver; by rewrite He).
  split; simpl; [| |done|done| |].
  - intros j. destruct (decide (i = j)) as [<-|Hne]; [by rewrite fn_lookup_insert|].
    rewrite fn_lookup_insert_ne by done. eapply client_ok_mono; [done| |done|by apply H1].
    intros k. by rewrite Hv.
  - intros k. rewrite H2. unfold m_state, svc_val, svc_ver. by rewrite He.
  - eapply Forall_impl; [done|]. simpl. lia.
  - intros a Ha. destruct (Hf a Ha) as [Ha'|(t & n & -> & ?)].
    + eapply flight_ok_mono; [| |by apply H6]; [intros k; by rewrite Hv|].
      intros j t n Hj Hn'. destruct (decide (i = j)) as [<-|Hne].
      * rewrite fn_lookup_insert. destruct (Hi a t n Hj Hn') as [?|?]; [by left|by right].
      * right. exists n. by rewrite fn_lookup_insert_ne.
    + right. exists i, t, n. by rewrite fn_lookup_insert.
Qed.

(** An operation of client [i] takes effect. *)
Lemma take_effect s lin srv clients y :
  let i := ln_client y in
  p_inv s lin → ln_ret y = None → ln_call y ≤ ps_now s → pend i lin = [] →
  (∀ k, svc_ver (ps_srv s) k ≤ svc_ver srv k) →
  (∀ k, k ≠ KvInput_Key (ln_in y) → m_state srv k = m_state (ps_srv s) k) →
  KvModel_Step (m_state (ps_srv s) (KvInput_Key (ln_in y))) (ln_in y) (ln_out y) =
    Ret (true, m_state srv (KvInput_Key (ln_in y))) →
  (∀ j, i ≠ j → clients j = ps_clients s j) →
  client_ok srv (ps_now s) (lin ++ [y]) i (clients i) →
  (∀ a t n, ps_clients s i = PPut a t n → 1 ≤ n →
     PutArgs_Version a < svc_ver srv (PutArgs_Key a)) →
  p_inv (mkPSys srv (ps_now s) clients (ps_flight s) (ps_log s)) (lin ++ [y]).
Proof.
  intros i [H1 H2 H3 H4 H5 H6] Hr Hcall Hp Hv Hother Hstep Hcl Hc Hput. split; simpl.
  - intros j. destruct (decide (i = j)) as [<-|Hne]; [done|]. rewrite Hcl by done.
    eapply (client_ok_mono (ps_srv s) _ (ps_now s)); [done|done| |by apply H1].
    rewrite pend_snoc by done. fold i. rewrite decide_False by done. apply app_nil_r.
  - intros k. rewrite effects_snoc. case_decide as Hk.
    + subst k. by eapply legal_to_snoc.
    + rewrite app_nil_r, H2. by rewrite Hother.
  - rewrite omap_app, H3. simpl. assert (returned y = None) as -> by (unfold returned; by rewrite Hr).
    by rewrite app_nil_r.
  - apply StronglySorted_snoc; [done|]. apply Forall_forall. intros x _ t. by rewrite Hr.
  - apply Forall_app. split; [done|]. by constructor.
  - intros a Ha. eapply flight_ok_mono; [done| |by apply H6]. intros j t n Hj Hn.
    destruct (decide (i = j)) as [<-|Hne]; [left; by eapply Hput|].
    right. exists n. by rewrite Hcl.
Qed.

(** Client [i] returns from the operation [y]. *)
Lemma returns s lin i y :
  p_inv s lin → pend i lin = [y] → (∀ a t n, ps_clients s i ≠ PPut a t n) →
  p_inv (p_return s i (ln_op y (ps_now s))) (complete i (ps_now s) <$> lin).
Proof.
  intros [H1 H2 H3 H4 H5 H6] Hy Hc.
  assert (Hcall : ∀ x, ln_call (complete i (ps_now s) x) = ln_call x).
  { intros x. unfold complete. by case_decide. }
  split; simpl.
  - intros j. destruct (decide (i = j)) as [<-|Hne].
    + rewrite fn_lookup_insert. simpl. by rewrite pend_complete, decide_True.
    + rewrite fn_lookup_insert_ne by done. eapply (client_ok_mono (ps_srv s) _ (ps_now s)); [done|done| |by apply H1].
      by rewrite pend_complete, decide_False.
  - intros k. by rewrite effects_complete.
  - unfold OpLog_Append. rewrite H3. symmetry. by apply returned_complete.
  - clear -H4 H5 Hcall. induction H4 as [|x l Hs IH Hx]; csimpl; [constructor|].
    apply Forall_cons in H5 as [Hnow H5]. constructor; [by apply IH|]. apply Forall_fmap.
    eapply Forall_impl; [exact Hx|]. intros z Hz t. simpl. rewrite Hcall. unfold complete.
    case_decide; simpl; [|apply Hz]. by intros [= <-].
  - apply Forall_fmap. eapply Forall_impl; [done|]. simpl. intros x. by rewrite Hcall.
  - intros a Ha. eapply flight_ok_mono; [done| |by apply H6]. intros j t n Hj Hn. right. exists n.
    rewrite fn_lookup_insert_ne; [done|]. intros <-. by apply Hc in Hj.
Qed.

(** ** Executing a Put *)

Definition same_entries (srv srv' : St) : Prop := ∀ k, svc_entry srv' k = svc_entry srv k.

Record put_applied (srv srv' : St) (a : PutArgs) : Prop := {
  pa_now : PutArgs_Version a = svc_ver srv (PutArgs_Key a);
  pa_new : svc_entry srv' (PutArgs_Key a) =
    Some (mkEntry (PutArgs_Value a) (PutArgs_Version a + 1));
  pa_other k : k ≠ PutArgs_Key a → svc_entry srv' k = svc_entry srv k
}.

Definition versions_below (srv : St) (b : Z) : Prop := ∀ k, 0 ≤ svc_ver srv k ≤ b.

Lemma put_outcome srv a srv' reply b :
  svc_put srv a zero_PutReply = Ret (srv', reply) → versions_below srv b → b + 1 < 2 ^ 64 →
  (PutReply_Err reply = OK ∧ put_applied srv srv' a) ∨
  (PutArgs_Version a ≠ svc_ver srv (PutArgs_Key a) ∧ same_entries srv srv' ∧
   (0 ≤ PutArgs_Version a ≤ svc_ver srv (PutArgs_Key a) → PutReply_Err reply = ErrVersion)).
Proof.
  intros Hp Hb Hlt. pose proof (Hb (PutArgs_Key a)) as Hk.
  destruct (svc_put_entry srv a zero_PutReply) as (s1 & Hp' & He). rewrite Hp in Hp'.
  injection Hp' as <- ->. unfold put_entry, svc_ver in *. unfold put_err. simpl.
  destruct (decide (PutArgs_Version a = entry_ver (svc_entry srv (PutArgs_Key a)))) as [Hv|Hv].
  - left. rewrite bool_decide_eq_true_2 by done. split; [done|]. split; [done| |].
    + rewrite He, decide_True by done. rewrite u64_wrap_small; [done|]. unfold is_u64. lia.
    + intros k ?. rewrite He, decide_False; [done|]. naive_solver.
  - right. split_and!; [done| |].
    + intros k. rewrite He, decide_False; [done|]. naive_solver.
    + intros Hr. rewrite bool_decide_eq_false_2 by done.
      destruct (svc_entry srv (PutArgs_Key a)); simpl in *; [done|lia].
Qed.

Lemma same_m_state srv srv' k : same_entries srv srv' → m_state srv' k = m_state srv k.
Proof. intros He. unfold m_state, svc_val, svc_ver. by rewrite He. Qed.

Lemma applied_ver srv srv' a :
  put_applied srv srv' a → svc_ver srv' (PutArgs_Key a) = PutArgs_Version a + 1.
Proof. intros [_ Hn _]. unfold svc_ver. by rewrite Hn. Qed.

Lemma applied_mono srv srv' a k : put_applied srv srv' a → svc_ver srv k ≤ svc_ver srv' k.
Proof.
  intros Ha. destruct (decide (k = PutArgs_Key a)) as [->|Hk].
  - rewrite (applied_ver _ _ _ Ha), (pa_now _ _ _ Ha). lia.
  - unfold svc_ver. rewrite (pa_other _ _ _ Ha) by done. lia.
Qed.

Lemma applied_below srv srv' a b :
  put_applied srv srv' a → versions_below srv b → versions_below srv' (b + 1).
Proof.
  intros Ha Hb k. specialize (Hb k). destruct (decide (k = PutArgs_Key a)) as [->|Hk].
  - rewrite (applied_ver _ _ _ Ha), (pa_now _ _ _ Ha). lia.
  - unfold svc_ver in *. rewrite (pa_other _ _ _ Ha) by done. lia.
Qed.

(** The model on a Put that took effect, and on one that was refused. *)
Lemma Step_applied srv srv' a e b :
  put_applied srv srv' a → versions_below srv b → b + 1 < 2 ^ 64 → e = OK ∨ e = ErrMaybe →
  KvModel_Step (m_state srv (PutArgs_Key a)) (put_in a) (put_out e) =
    Ret (true, m_state srv' (PutArgs_Key a)).
Proof.
  intros Ha Hb Hlt He. specialize (Hb (PutArgs_Key a)). unfold m_state, svc_val.
  rewrite (applied_ver _ _ _ Ha), (pa_new _ _ _ Ha). simpl. rewrite (pa_now _ _ _ Ha).
  rewrite (bool_decide_eq_true_2 (svc_ver _ _ = _)) by done.
  rewrite u64_wrap_small by (unfold is_u64; lia).
  by rewrite bool_decide_eq_true_2.
Qed.

Lemma Step_refused srv a e :
  PutArgs_Version a ≠ svc_ver srv (PutArgs_Key a) → e = ErrVersion ∨ e = ErrMaybe →
  KvModel_Step (m_state srv (PutArgs_Key a)) (put_in a) (put_out e) =
    Ret (true, m_state srv (PutArgs_Key a)).
Proof.
  intros Hv He. unfold m_state. simpl.
  rewrite (bool_decide_eq_false_2 (svc_ver _ _ = _)) by congruence.
  by rewrite bool_decide_eq_true_2.
Qed.

Lemma Step_read srv k r :
  r = svc_get srv (mkGetArgs k) zero_GetReply →
  KvModel_Step (m_state srv k) (get_in k) (get_out r) = Ret (true, m_state srv k).
Proof.
  intros ->. pose proof (svc_get_cases srv k) as (Hv & _ & _). unfold m_state, get_out. simpl.
  by rewrite Hv, bool_decide_eq_true_2.
Qed.

(** A pending Put of client [i] takes effect, by a late call or by the one that is answered. *)
Lemma put_effect s lin srv i a t n e c b clients :
  p_inv s lin → ps_clients s i = PPut a t n → pend i lin = [] → put_applied (ps_srv s) srv a →
  versions_below (ps_srv s) b → b + 1 < 2 ^ 64 → e = OK ∨ e = ErrMaybe →
  c = PPutDone a t e ∨ c = PPut a t n ∧ 1 ≤ n ∧ e = ErrMaybe →
  (∀ j, clients j = if decide (i = j) then c else ps_clients s j) →
  p_inv (mkPSys srv (ps_now s) clients (ps_flight s) (ps_log s))
    (lin ++ [mkLin i (put_in a) t (put_out e) None]).
Proof.
  intros Hi Hc Hp Ha Hb Hlt He Hc' Hcl. pose proof (pi_client _ _ Hi i) as Hok. rewrite Hc in Hok.
  destruct Hok as (Ht & Hn & Hv & _). pose proof (applied_ver _ _ _ Ha) as Hv'.
  pose proof (pa_now _ _ _ Ha) as Hnow.
  apply (take_effect s lin srv clients (mkLin i (put_in a) t (put_out e) None)); simpl; try done.
  - intros k. by eapply applied_mono.
  - intros k Hk. unfold m_state, svc_val, svc_ver. by rewrite (pa_other _ _ _ Ha).
  - by eapply Step_applied.
  - intros j Hj. rewrite Hcl. by rewrite decide_False.
  - rewrite Hcl, decide_True by done.
    assert (Hpend : pend i (lin ++ [mkLin i (put_in a) t (put_out e) None]) =
      [mkLin i (put_in a) t (put_out e) None]).
    { rewrite pend_snoc by done. simpl. by rewrite Hp, decide_True. }
    destruct Hc' as [->|(-> & ? & ->)]; [exact Hpend|]. simpl.
    split_and!; [lia..|]. right. split_and!; [done|lia|exact Hpend].
  - rewrite Hc. intros ??? [= <- <- <-] _. rewrite Hv'. lia.
Qed.

(** ** Every step keeps the invariant *)

Context (Hmay : ∀ srv a, may_put srv a → 0 ≤ PutArgs_Version a ≤ svc_ver srv (PutArgs_Key a)).

(** A call that comes late is executed. *)
Lemma p_late_inv s lin a srv reply b :
  p_inv s lin → a ∈ ps_flight s → svc_put (ps_srv s) a zero_PutReply = Ret (srv, reply) →
  versions_below (ps_srv s) b → b + 1 < 2 ^ 64 →
  ∃ lin', p_inv (mkPSys srv (ps_now s) (ps_clients s) (ps_flight s) (ps_log s)) lin' ∧
    versions_below srv (b + 1).
Proof.
  intros Hi Ha Hp Hb Hlt. destruct (put_outcome _ _ _ _ _ Hp Hb Hlt) as [[_ Hap]|(Hv & Hs & _)].
  - destruct (pi_flight _ _ Hi a Ha) as [Hold|(i & t & n & Hc & Hn)].
    { pose proof (pa_now _ _ _ Hap). lia. }
    pose proof (pi_client _ _ Hi i) as Hok. rewrite Hc in Hok. destruct Hok as (_ & _ & _ & Hpend).
    destruct Hpend as [Hpend|(_ & Hold & _)]; [|pose proof (pa_now _ _ _ Hap); lia].
    eexists. split; [|by eapply applied_below].
    eapply (put_effect s lin srv i a t n ErrMaybe (PPut a t n) b); [done..|auto|auto|].
    intros j. by case_decide; subst.
  - exists lin. split; [|intros k; unfold svc_ver; rewrite Hs; specialize (Hb k); unfold svc_ver in *; lia].
    destruct Hi as [H1 H2 H3 H4 H5 H6].
    assert (Hve : ∀ k, svc_ver (ps_srv s) k ≤ svc_ver srv k) by (intros k; unfold svc_ver; by rewrite Hs).
    split; simpl; try done.
    + intros i. by eapply (client_ok_mono (ps_srv s) _ (ps_now s)).
    + intros k. by rewrite (same_m_state _ _ _ Hs).
    + intros a' Ha'. eapply flight_ok_mono; [done| |by apply H6]. intros. right. eauto.
Qed.

(** The call that is answered. *)
Lemma p_exec_inv s lin i a t n srv reply b :
  p_inv s lin → ps_clients s i = PPut a t n →
  svc_put (ps_srv s) a zero_PutReply = Ret (srv, reply) →
  versions_below (ps_srv s) b → b + 1 < 2 ^ 64 →
  let c := PPutDone a t (Clerk_Put_err (PutReply_Err reply) (n + 1)) in
  ∃ lin', p_inv (mkPSys srv (ps_now s) (<[i := c]> (ps_clients s)) (ps_flight s) (ps_log s)) lin' ∧
    versions_below srv (b + 1).
Proof.
  intros Hi Hc Hp Hb Hlt c. pose proof (pi_client _ _ Hi i) as Hok. rewrite Hc in Hok.
  destruct Hok as (Ht & Hn & Hv & Hpend).
  destruct (put_outcome _ _ _ _ _ Hp Hb Hlt) as [[Herr Hap]|(Hne & Hs & Herr)].
  - destruct Hpend as [Hpend|(_ & Hold & _)]; [|pose proof (pa_now _ _ _ Hap); lia].
    eexists. split; [|by eapply applied_below].
    eapply (put_effect s lin srv i a t n OK c b); try done; [by left|left; unfold c; by rewrite Herr].
  - specialize (Herr Hv). assert (Hsb : versions_below srv (b + 1)).
    { intros k. unfold svc_ver. rewrite Hs. specialize (Hb k). unfold svc_ver in Hb. lia. }
    assert (Hve : ∀ k, svc_ver srv k = svc_ver (ps_srv s) k) by (intros k; unfold svc_ver; by rewrite Hs).
    assert (Hce : c = PPutDone a t (if decide (n = 0) then ErrVersion else ErrMaybe)).
    { unfold c, Clerk_Put_err. rewrite Herr. simpl. case_decide as Hn0; [by subst|].
      by rewrite bool_decide_eq_true_2 by lia. }
    destruct Hpend as [Hpend|(Hn1 & Hold & Hpend)].
    + set (e := if decide (n = 0) then ErrVersion else ErrMaybe) in *.
      exists (lin ++ [mkLin i (put_in a) t (put_out e) None]). split; [|done].
      apply (take_effect s lin srv _ (mkLin i (put_in a) t (put_out e) None)); simpl; try done.
      * intros k. rewrite Hve. lia.
      * intros k _. by apply same_m_state.
      * rewrite (same_m_state _ _ _ Hs). apply Step_refused; [done|].
        unfold e. case_decide; auto.
      * intros j Hj. by rewrite fn_lookup_insert_ne.
      * rewrite fn_lookup_insert, Hce. simpl. rewrite pend_snoc by done. simpl.
        by rewrite Hpend, decide_True.
      * rewrite Hc. intros ??? [= <- <- <-] _. rewrite Hve. lia.
    + exists lin. split; [|done].
      apply p_client_move; [done|done|lia| | |auto].
      * rewrite Hce, decide_False by lia. exact Hpend.
      * rewrite Hc. intros ??? [= <- <- <-] _. left. rewrite Hve. lia.
Qed.

Lemma p_step_inv s s' lin b :
  p_step s s' → p_inv s lin → versions_below (ps_srv s) b → b + 1 < 2 ^ 64 →
  ∃ lin', p_inv s' lin' ∧ versions_below (ps_srv s') (b + 1).
Proof.
  intros Hstep Hi Hb Hlt.
  assert (Hb' : versions_below (ps_srv s) (b + 1)) by (intros k; specialize (Hb k); lia).
  pose proof (pi_client _ _ Hi) as Hok.
  destruct Hstep as [s d Hd|s i k Hc|s i k t Hc|s i k t r Hc|s i a Hc Hm|s i a t n Hc|
    s a srv reply Ha Hp|s i a t n srv reply Hc Hp|s i a t e Hc].
  - exists lin. split; [|done]. destruct Hi as [H1 H2 H3 H4 H5 H6]. split; simpl; try done.
    + intros i. eapply (client_ok_mono (ps_srv s) _ (ps_now s)); [lia|done|done|done].
    + eapply Forall_impl; [done|]. simpl. lia.
  - exists lin. split; [|done]. specialize (Hok i). rewrite Hc in Hok.
    apply p_client_move; [done|done|lia|by split|by rewrite Hc|auto].
  - eexists. split; [|done]. specialize (Hok i). rewrite Hc in Hok. destruct Hok as [Hp Ht].
    set (r := svc_get (ps_srv s) (mkGetArgs k) zero_GetReply).
    apply (take_effect s lin (ps_srv s) _ (mkLin i (get_in k) t (get_out r) None)); simpl; try done.
    + by apply Step_read.
    + intros j Hj. by rewrite fn_lookup_insert_ne.
    + rewrite fn_lookup_insert. simpl. rewrite pend_snoc by done. simpl. by rewrite Hp, decide_True.
    + by rewrite Hc.
  - specialize (Hok i). rewrite Hc in Hok. simpl in Hok. eexists. split; [|done].
    apply (returns _ _ _ _ Hi Hok). by rewrite Hc.
  - exists lin. split; [|done]. specialize (Hok i). rewrite Hc in Hok. apply Hmay in Hm.
    apply p_client_move; [done|done|lia| |by rewrite Hc|auto]. simpl in *. split_and!; [lia..|by left].
  - exists lin. split; [|done]. specialize (Hok i). rewrite Hc in Hok. simpl in Hok.
    destruct Hok as (Ht & Hn & Hv & Hp).
    apply p_client_move; [done|done|lia| | |].
    + simpl. split_and!; [lia..|]. destruct Hp as [?|(?&?&?)]; [by left|right]. split_and!; [lia|done..].
    + rewrite Hc. intros ??? [= <- <- <-] _. right. exists (n + 1). split; [done|lia].
    + intros a' [->|Ha]%elem_of_cons; [right|by left]. exists t, (n + 1). split; [done|lia].
  - by eapply p_late_inv.
  - by eapply p_exec_inv.
  - specialize (Hok i). rewrite Hc in Hok. simpl in Hok. eexists. split; [|done].
    apply (returns _ _ _ _ Hi Hok). by rewrite Hc.
Qed.

Lemma p_reachable m s0 s :
  p_init s0 → nsteps p_step m s0 s → Z.of_nat m < 2 ^ 62 → ∃ lin, p_inv s lin.
Proof.
  intros (Hsrv & Hc & Hf & Hl) Hs Hm.
  enough (∃ lin, p_inv s lin ∧ versions_below (ps_srv s) (Z.of_nat m)) by naive_solver.
  assert (He : ∀ k, svc_entry (ps_srv s0) k = None) by (intros; rewrite Hsrv; apply svc_init_entry).
  apply (nsteps_invariant p_step
    (λ m s, ∃ lin, p_inv s lin ∧ versions_below (ps_srv s) (Z.of_nat m)) m s0 s); [| |done].
  - exists []. split; [|intros k; unfold svc_ver; by rewrite He].
    split; simpl; [intros i; by rewrite Hc| |by rewrite Hl|constructor|constructor|rewrite Hf; set_solver].
    intros k. unfold m_state, svc_val, svc_ver. by rewrite He.
  - intros k x y Hk (lin & Hi & Hb) Hxy.
    destruct (p_step_inv _ _ _ _ Hxy Hi Hb) as (lin' & ? & ?); [lia|]. exists lin'. split; [done|].
    by rewrite Nat2Z.inj_succ.
Qed.

(** ** Histories of runs that have come to rest *)

Definition lin_done (x : Lin) : Operation := ln_op x (default 0 (ln_ret x)).

Lemma lin_all_returned s lin x :
  p_inv s lin → (∀ i, ps_clients s i = PIdle) → x ∈ lin → is_Some (ln_ret x).
Proof.
  intros Hi Hidle Hx. destruct (ln_ret x) eqn:E; [done|]. exfalso.
  pose proof (pi_client _ _ Hi (ln_client x)) as Hp. rewrite Hidle in Hp. simpl in Hp.
  assert (Hin : x ∈ pend (ln_client x) lin) by (apply list_elem_of_filter; by repeat split).
  rewrite Hp in Hin. by apply not_elem_of_nil in Hin.
Qed.

Lemma filter_returned k (lin : list Lin) :
  (∀ x, x ∈ lin → is_Some (ln_ret x)) →
  filter (λ o, op_key o = k) (omap returned lin) =
    lin_done <$> filter (λ x, KvInput_Key (ln_in x) = k) lin.
Proof.
  induction lin as [|x lin IH]; intros Hr; [done|]. csimpl. rewrite (filter_cons _ x).
  destruct (Hr x) as [t Ht]; [left|]. unfold returned at 1. rewrite Ht. csimpl.
  assert (IH' := IH (λ y Hy, Hr y (list_elem_of_further _ _ _ Hy))).
  assert (Hx : lin_done x = ln_op x t) by (unfold lin_done; by rewrite Ht).
  destruct (decide (KvInput_Key (ln_in x) = k)).
  - rewrite filter_cons_True by done. csimpl. by rewrite Hx, IH'.
  - by rewrite filter_cons_False, IH' by done.
Qed.

Lemma lin_sorted k (lin : list Lin) :
  StronglySorted lin_order lin → (∀ x, x ∈ lin → is_Some (ln_ret x)) →
  StronglySorted rt_order (lin_done <$> filter (λ x, KvInput_Key (ln_in x) = k) lin).
Proof.
  induction 1 as [|x l Hs IH Hx]; intros Hr; [constructor|]. rewrite filter_cons.
  assert (IH' := IH (λ y Hy, Hr y (list_elem_of_further _ _ _ Hy))).
  case_decide; [|done]. csimpl. constructor; [done|]. apply Forall_fmap, Forall_forall.
  intros y [_ Hy]%list_elem_of_filter. rewrite Forall_forall in Hx.
  destruct (Hr y) as [t Ht]; [by right|]. specialize (Hx y Hy t Ht).
  unfold compose, rt_order, lin_done, ln_op. simpl. rewrite Ht. simpl. lia.
Qed.

Lemma history_linearizable s lin k :
  p_inv s lin → (∀ i, ps_clients s i = PIdle) →
  linearizable (filter (λ o, op_key o = k) (ps_log s)).
Proof.
  intros Hi Hidle. pose proof (lin_all_returned s lin) as Hr.
  exists (lin_done <$> filter (λ x, KvInput_Key (ln_in x) = k) lin). split_and!.
  - rewrite (pi_log _ _ Hi), filter_returned by eauto. done.
  - eapply legal_to_legal. rewrite <- list_fmap_compose. apply (pi_model _ _ Hi).
  - apply lin_sorted; [apply Hi|eauto].
Qed.

(** C4: porcupine_accepts: the linearizability check never fails on a correct service. Let any
    number of clients read and put keys through retrying clerks, over a network that loses,
    repeats and delays calls, each Put naming a version that the key has or has had. When no
    operation is under way, every part of the recorded history is linearizable: its operations
    have an order that the model accepts and that respects real time. So [checkPorcupine]
    passes with every checker that is sound. *)
Theorem porcupine_accepts m s0 s :
  p_init s0 → nsteps p_step m s0 s → Z.of_nat m < 2 ^ 62 → (∀ i, ps_clients s i = PIdle) →
  (∀ order part, order ≡ₚ elements (dom (partition_map (ps_log s))) →
     part ∈ KvModel_Partition order (ps_log s) → linearizable part) ∧
  (∀ CheckOperations nsec, checker_sound CheckOperations →
     checkPorcupine CheckOperations (ps_log s) nsec = Ret tt).
Proof.
  intros H0' Hs Hm Hidle. destruct (p_reachable m s0 s H0' Hs Hm) as [lin Hi].
  assert (Hparts : ∀ order part, order ≡ₚ elements (dom (partition_map (ps_log s))) →
    part ∈ KvModel_Partition order (ps_log s) → linearizable part).
  { intros order part Ho Hp. destruct (KvModel_Partition_spec _ _ Ho) as (keys & _ & _ & _ & E & _).
    rewrite E in Hp. apply list_elem_of_fmap in Hp as (k & -> & _). by eapply history_linearizable. }
  split; [done|]. intros check nsec Hsound. unfold checkPorcupine, OpLog_Read.
  destruct (check (ps_log s) nsec) eqn:E; [done| |done].
  apply Hsound in E as (order & part & Ho & Hp & Hn). by destruct Hn; eapply Hparts.
Qed.
End porcupine.

(** ** A checker, and two runs *)

Definition linearizesb (order : list Operation) : bool :=
  match legal KvModel_Init (in_out <$> order) with
  | Ret true => bool_decide (StronglySorted rt_order order)
  | _ => false
  end.

Definition linearizableb (part : list Operation) : bool := existsb linearizesb (permutations part).

(** All orders of each part are tried. *)
Definition check_all (ops : list Operation) (nsec : Z) : CheckResult :=
  if forallb linearizableb (KvModel_Partition (elements (dom (partition_map ops))) ops)
  then CheckOk else CheckIllegal.

Lemma linearizableb_spec part : linearizableb part = true ↔ linearizable part.
Proof.
  unfold linearizableb. rewrite existsb_exists. unfold linearizable, linearizes, linearizesb.
  apply exist_proper. intros order. rewrite <- list_elem_of_In, permutations_Permutation.
  split; intros [Hp Hl]; (split; [done|]).
  - destruct (legal _ _) as [[]|?|?]; [|done..]. by case_bool_decide.
  - destruct Hl as [-> Hs]. by rewrite bool_decide_eq_true_2.
Qed.

Lemma check_all_sound : checker_sound check_all.
Proof.
  intros ops nsec. unfold check_all. destruct (forallb _ _) eqn:E; [done|]. intros _.
  apply forallb_false in E as (part & Hp & Hf). exists (elements (dom (partition_map ops))), part.
  split_and!; [done..|]. rewrite <- linearizableb_spec. congruence.
Qed.

Definition p_start : PSys (St := KVServer) := mkPSys MakeKVServer 0 (λ _, PIdle) [] [].

Definition may_put_known (srv : KVServer) (a : PutArgs) : Prop :=
  0 ≤ PutArgs_Version a ≤ svc_ver srv (PutArgs_Key a).

(** Client 0's Put is executed by a call that was given up; client 1 reads the value before the
    Put returns [ErrMaybe]. *)
Lemma p_run_late :
  ∃ s, nsteps (p_step Z.of_nat may_put_known) 10 p_start s ∧ (∀ i, ps_clients s i = PIdle) ∧
    length (ps_log s) = 2%nat.
Proof.
  set (a := mkPutArgs "k" "v" 0). eexists. split.
  - eapply nsteps_l; [apply (p_put_call _ _ _ 0 a); [done|by split]|]. simpl.
    eapply nsteps_l; [by eapply (p_put_lost _ _ _ 0)|]. simpl.
    eapply nsteps_l; [by apply (p_get_call _ _ _ 1 "k")|]. simpl.
    eapply nsteps_l; [eapply (p_put_late _ _ _ a); [left|reflexivity]|]. simpl.
    eapply nsteps_l; [by apply (p_tick _ _ _ 1)|]. simpl.
    eapply nsteps_l; [by eapply (p_get_exec _ _ _ 1)|]. simpl.
    eapply nsteps_l; [by eapply (p_get_return _ _ _ 1)|]. simpl.
    eapply nsteps_l; [by eapply (p_put_exec _ _ _ 0)|]. simpl.
    eapply nsteps_l; [by apply (p_tick _ _ _ 1)|]. simpl.
    eapply nsteps_l; [by eapply (p_put_return _ _ _ 0)|]. apply nsteps_O.
  - split; [by intros [|[|i]]|done].
Qed.

Lemma porcupine_accepts_witness :
  ∃ s, nsteps (p_step Z.of_nat may_put_known) 10 p_start s ∧ length (ps_log s) = 2%nat ∧
    checkPorcupine check_all (ps_log s) 1 = Ret tt.
Proof.
  destruct p_run_late as (s & Hs & Hidle & Hlen). exists s. split; [done|]. split; [done|].
  destruct (porcupine_accepts Z.of_nat may_put_known (λ _ _ H, H) 10 p_start s) as [_ Hc];
    [by split_and!|done|reflexivity|done|]. apply Hc, check_all_sound.
Defined.

(** A Put that names a version the key does not have yet may take effect after it has returned
    [ErrMaybe]: the history is then not linearizable. *)
Lemma future_version_not_linearizable :
  ∃ s, nsteps (p_step Z.of_nat (λ _ _, True)) 17 p_start s ∧ (∀ i, ps_clients s i = PIdle) ∧
    ¬ linearizable (ps_log s).
Proof.
  set (x := mkPutArgs "k" "x" 2). eexists. split.
  - eapply nsteps_l; [by apply (p_put_call _ _ _ 1 (mkPutArgs "k" "a" 0))|]. simpl.
    eapply nsteps_l; [by eapply (p_put_exec _ _ _ 1)|]. simpl.
    eapply nsteps_l; [by eapply (p_put_return _ _ _ 1)|]. simpl.
    eapply nsteps_l; [by apply (p_tick _ _ _ 1)|]. simpl.
    eapply nsteps_l; [by apply (p_put_call _ _ _ 0 x)|]. simpl.
    eapply nsteps_l; [by eapply (p_put_lost _ _ _ 0)|]. simpl.
    eapply nsteps_l; [by eapply (p_put_exec _ _ _ 0)|]. simpl.
    eapply nsteps_l; [by eapply (p_put_return _ _ _ 0)|]. simpl.
    eapply nsteps_l; [by apply (p_tick _ _ _ 1)|]. simpl.
    eapply nsteps_l; [by apply (p_put_call _ _ _ 1 (mkPutArgs "k" "b" 1))|]. simpl.
    eapply nsteps_l; [by eapply (p_put_exec _ _ _ 1)|]. simpl.
    eapply nsteps_l; [by eapply (p_put_return _ _ _ 1)|]. simpl.
    eapply nsteps_l; [eapply (p_put_late _ _ _ x); [left|reflexivity]|]. simpl.
    eapply nsteps_l; [by apply (p_tick _ _ _ 1)|]. simpl.
    eapply nsteps_l; [by apply (p_get_call _ _ _ 1 "k")|]. simpl.
    eapply nsteps_l; [by eapply (p_get_exec _ _ _ 1)|]. simpl.
    eapply nsteps_l; [by eapply (p_get_return _ _ _ 1)|]. apply nsteps_O.
  - split; [by intros [|[|i]]|]. rewrite <- linearizableb_spec. vm_compute. done.
Qed.
