(* ===== verification/RandValue.v ===== *)
(** * Random strings ([kvtest1/kvtest.go], [RandValue])

    The stream [rnd] gives the successive results of [rand.Int63()]. *)

From S2P Require Export Prelude.

Local Open Scope Z_scope.

Definition letterBytes : string := "abcdefghijklmnopqrstuvwxyzABCDEFGHIJKLMNOPQRSTUVWXYZ".

(** [letterBytes[z]] for an index in range; the index is always in range below. *)
Definition letterByte (z : Z) : Ascii.ascii :=
  default Ascii.zero (String.get (Z.to_nat z) letterBytes).

Fixpoint RandValue_from (n : nat) (rnd : nat → Z) : string :=
  match n with
  | O => EmptyString
  | S n =>
      String (letterByte (rnd 0%nat `mod` Z.of_nat (String.length letterBytes)))
        (RandValue_from n (λ i, rnd (S i)))
  end.

Definition RandValue (n : nat) (rnd : nat → Z) : string := RandValue_from n rnd.

(** The strings [RandValue n] can return. *)
Definition is_rand_value (n : nat) (s : string) : Prop :=
  ∃ rnd, (∀ i, 0 ≤ rnd i < 2 ^ 63) ∧ s = RandValue n rnd.

Lemma RandValue_length n rnd : String.length (RandValue n rnd) = n.
Proof.
  unfold RandValue. revert rnd. induction n as [|n IH]; intros rnd; [done|].
  cbn [RandValue_from String.length]. by rewrite IH.
Qed.

Lemma is_rand_value_nonempty n s : is_rand_value (S n) s → s ≠ "".
Proof. intros (rnd & _ & ->) H. by pose proof (RandValue_length (S n) rnd) as Hl; rewrite H in Hl. Qed.

