(* ===== verification/Lock.v ===== *)
(** * The distributed lock ([kvsrv1/lock/lock.go])

    Any number of clients run [Acquire] and [Release] against one key of the
    key/value server through their clerks. A client's program counter [LockPC] names
    the call it is at, with the local variables of the Go code; the string [r] of the
    holding and releasing states is the value the client wrote when it acquired, and is
    ghost there ([Release] does not use it). Calls may fail: a Put whose call returned
    [false] stays in flight, and in-flight Puts may run at the server at any later
    time, any number of times. The service is any implementation of [KVService]. *)

From S2P Require Export KVService Clerk RandValue.

Local Open Scope Z_scope.

Inductive LockPC :=
  | Idle
  | AcqGet                                    (* Acquire: at [ck.Get] *)
  | AcqPut (nokey : bool) (r : string) (ver : Tversion) (n : Z)
                                              (* Acquire: in [ck.Put], [n] calls made *)
  | AcqRead (r : string)                      (* Acquire: in [ReadUntilSuccess] *)
  | Held (r : string)                         (* Acquire has returned *)
  | RelGet (r : string)                       (* Release: at [ck.Get] *)
  | RelRead (r : string) (cur : Tversion)     (* CheckAndReput: in [ReadUntilSuccess] *)
  | RelPut (r : string) (cur ver : Tversion) (n : Z).
                                              (* CheckAndReput: in [ck.Put] *)

#[export] Instance LockPC_eq_dec : EqDecision LockPC.
Proof. solve_decision. Defined.

(** [Acquire], from the result of [Get] to the first [Put]. *)
Definition Acquire_after_Get (value : string) (version : Tversion) (err : Err)
    (valWritten : string) : LockPC :=
  if bool_decide (err = ErrNoKey) then AcqPut true valWritten 0 0
  else if bool_decide (value = "") then AcqPut false valWritten version 0
  else AcqGet.

(** [Acquire], from the result of [Put]. *)
Definition Acquire_after_Put (nokey : bool) (valWritten : string) (err : Err) : LockPC :=
  if nokey then
    if bool_decide (err ≠ OK) then AcqGet else Held valWritten
  else if bool_decide (err = OK) then Held valWritten
  else if bool_decide (err = ErrMaybe) then AcqRead valWritten
  else AcqGet.

(** [Acquire], after [ReadUntilSuccess]. *)
Definition Acquire_after_Read (valWritten val : string) : LockPC :=
  if bool_decide (val ≠ valWritten) then AcqGet else Held valWritten.

(** One iteration of [ReadUntilSuccess]: stay, or go on with what was read. *)
Definition ReadUntilSuccess_step (pc : LockPC) (reply : GetReply)
    (k : string → Tversion → LockPC) : LockPC :=
  if bool_decide (GetReply_Err reply ≠ OK) then pc
  else k (GetReply_Value reply) (GetReply_Version reply).

(** [CheckAndReput], from the version read to the end or to [Put]. *)
Definition CheckAndReput_after_Read (r : string) (currVersion version : Tversion) : LockPC :=
  if bool_decide (currVersion < version) then Idle else RelPut r currVersion version 0.

(** The Put a client is in, its number of calls so far, and what its result leads to. *)
Definition pending (lkey : string) (pc : LockPC) : option PutArgs :=
  match pc with
  | AcqPut _ r ver _ => Some (mkPutArgs lkey r ver)
  | RelPut _ _ ver _ => Some (mkPutArgs lkey "" ver)
  | _ => None
  end.

Definition put_count (pc : LockPC) : Z :=
  match pc with AcqPut _ _ _ n | RelPut _ _ _ n => n | _ => 0 end.

Definition put_retry (pc : LockPC) : LockPC :=
  match pc with
  | AcqPut nokey r ver n => AcqPut nokey r ver (i64_wrap (n + 1))
  | RelPut r cur ver n => RelPut r cur ver (i64_wrap (n + 1))
  | _ => pc
  end.

Definition put_return (pc : LockPC) (err : Err) : LockPC :=
  match pc with
  | AcqPut nokey r _ _ => Acquire_after_Put nokey r err
  | RelPut r cur _ _ => RelRead r cur
  | _ => pc
  end.

Section lock.
Context {St : Type} `{KVServiceLaws St}.

(** The whole system: server, clients, Puts in flight, random values handed out. *)
Record LockSys := mkLockSys {
  ls_srv : St;
  ls_pc : nat → LockPC;
  ls_flight : list PutArgs;
  ls_used : gset string
}.

Definition set_pc (s : LockSys) (i : nat) (pc : LockPC) : LockSys :=
  mkLockSys (ls_srv s) (<[i := pc]> (ls_pc s)) (ls_flight s) (ls_used s).

Definition lock_init : LockSys := mkLockSys svc_init (λ _, Idle) [] ∅.

Inductive lock_step (lkey : string) : LockSys → LockSys → Prop :=
  | step_Acquire s i :
      ls_pc s i = Idle → lock_step lkey s (set_pc s i AcqGet)
  | step_AcqGet s i r reply :
      ls_pc s i = AcqGet → is_rand_value 8 r → r ∉ ls_used s →
      reply = svc_get (ls_srv s) (mkGetArgs lkey) zero_GetReply →
      lock_step lkey s
        (mkLockSys (ls_srv s)
           (<[i := Acquire_after_Get (GetReply_Value reply) (GetReply_Version reply)
                     (GetReply_Err reply) r]> (ls_pc s))
           (ls_flight s) ({[r]} ∪ ls_used s))
  | step_put_lost s i a :
      pending lkey (ls_pc s i) = Some a →
      lock_step lkey s
        (mkLockSys (ls_srv s) (<[i := put_retry (ls_pc s i)]> (ls_pc s))
           (a :: ls_flight s) (ls_used s))
  | step_put_late s a srv reply :
      a ∈ ls_flight s → svc_put (ls_srv s) a zero_PutReply = Ret (srv, reply) →
      lock_step lkey s (mkLockSys srv (ls_pc s) (ls_flight s) (ls_used s))
  | step_put_reply s i a srv reply :
      pending lkey (ls_pc s i) = Some a →
      svc_put (ls_srv s) a zero_PutReply = Ret (srv, reply) →
      lock_step lkey s
        (mkLockSys srv
           (<[i := put_return (ls_pc s i)
                     (Clerk_Put_err (PutReply_Err reply) (i64_wrap (put_count (ls_pc s i) + 1)))]>
              (ls_pc s))
           (ls_flight s) (ls_used s))
  | step_AcqRead s i r reply :
      ls_pc s i = AcqRead r →
      reply = svc_get (ls_srv s) (mkGetArgs lkey) zero_GetReply →
      lock_step lkey s
        (set_pc s i (ReadUntilSuccess_step (AcqRead r) reply
                       (λ val _, Acquire_after_Read r val)))
  | step_Release s i r :
      ls_pc s i = Held r → lock_step lkey s (set_pc s i (RelGet r))
  | step_RelGet s i r reply :
      ls_pc s i = RelGet r →
      reply = svc_get (ls_srv s) (mkGetArgs lkey) zero_GetReply →
      lock_step lkey s (set_pc s i (RelRead r (GetReply_Version reply)))
  | step_RelRead s i r cur reply :
      ls_pc s i = RelRead r cur →
      reply = svc_get (ls_srv s) (mkGetArgs lkey) zero_GetReply →
      lock_step lkey s
        (set_pc s i (ReadUntilSuccess_step (RelRead r cur) reply
                       (λ _ version, CheckAndReput_after_Read r cur version)))
  | step_other s a srv reply :
      PutArgs_Key a ≠ lkey → svc_put (ls_srv s) a zero_PutReply = Ret (srv, reply) →
      lock_step lkey s (mkLockSys srv (ls_pc s) (ls_flight s) (ls_used s)).

(** ** The invariant *)

Section invariant.
Context (lkey : string).

(** The value and the version under the lock key. *)
Abbreviation lval kv := (svc_val kv lkey).
Abbreviation lver kv := (svc_ver kv lkey).

Definition nonce (pc : LockPC) : option string :=
  match pc with
  | Idle | AcqGet => None
  | AcqPut _ r _ _ | AcqRead r | Held r | RelGet r | RelRead r _ | RelPut r _ _ _ => Some r
  end.

(** What a client's program counter says about the server's entry. *)
Definition pc_inv (kv : St) (pc : LockPC) : Prop :=
  match pc with
  | Idle | AcqGet | AcqRead _ => True
  | AcqPut _ _ ver _ => ver ≤ lver kv ∧ (ver = lver kv → lval kv = "")
  | Held r | RelGet r => lval kv = r
  | RelRead r cur => cur ≤ lver kv ∧ (cur = lver kv → lval kv = r)
  | RelPut r cur ver _ => ver = cur ∧ cur ≤ lver kv ∧ (cur = lver kv → lval kv = r)
  end.

Record lock_inv (s : LockSys) : Prop := {
  li_ver : 0 ≤ lver (ls_srv s);
  li_pc i : pc_inv (ls_srv s) (ls_pc s i);
  li_nonce i r : nonce (ls_pc s i) = Some r → r ≠ "" ∧ r ∈ ls_used s;
  li_distinct i j r :
    nonce (ls_pc s i) = Some r → nonce (ls_pc s j) = Some r → i = j;
  li_val : lval (ls_srv s) ≠ "" → lval (ls_srv s) ∈ ls_used s;
  li_flight a : a ∈ ls_flight s → PutArgs_Key a = lkey →
    PutArgs_Version a < lver (ls_srv s) ∨ ∃ i, pending lkey (ls_pc s i) = Some a
}.

Lemma lock_init_inv : lock_inv lock_init.
Proof.
  split; unfold lock_init, svc_ver, svc_val; simpl; rewrite ?svc_init_entry; try done; set_solver.
Qed.

(** A Put either leaves the entry of the lock key alone, or it was issued for the
    current version and moves it on by one. *)
Definition same_entry (kv kv' : St) : Prop :=
  lver kv' = lver kv ∧ lval kv' = lval kv.

Lemma same_lookup kv kv' :
  svc_entry kv' lkey = svc_entry kv lkey → same_entry kv kv'.
Proof. unfold same_entry, svc_ver, svc_val. by intros ->. Qed.

Lemma exec_cases kv a kv' reply :
  is_u64 (lver kv + 1) → svc_put kv a zero_PutReply = Ret (kv', reply) →
  (same_entry kv kv' ∧ (PutArgs_Key a = lkey →
     PutArgs_Version a ≠ lver kv ∧ PutReply_Err reply ≠ OK)) ∨
  (PutArgs_Key a = lkey ∧ PutArgs_Version a = lver kv ∧ PutReply_Err reply = OK ∧
     lver kv' = lver kv + 1 ∧ lval kv' = PutArgs_Value a).
Proof.
  intros Hb Hp. destruct (decide (PutArgs_Key a = lkey)) as [Hk|Hk].
  - rewrite <- Hk in Hb. destruct (svc_put_cases _ _ _ _ _ Hp Hb) as [(?&?&He)|(?&?&He)];
      rewrite Hk in *.
    + right. split_and!; [done..| |]; [unfold svc_ver at 1|unfold svc_val]; by rewrite He.
    + left. split; [by apply same_lookup|done].
  - left. split; [|done]. by eapply same_lookup, svc_put_other.
Qed.

Lemma pc_inv_same kv kv' pc : same_entry kv kv' → pc_inv kv pc → pc_inv kv' pc.
Proof. intros [Hv Hl]. unfold pc_inv. destruct pc; by rewrite ?Hv, ?Hl. Qed.

(** The effect of an execution that takes effect, on every client. *)
Definition put_owner (s : LockSys) (a : PutArgs) (i : nat) : Prop :=
  pending lkey (ls_pc s i) = Some a ∧ PutArgs_Version a = lver (ls_srv s).

Lemma put_effect_pc s a i kv' j :
  lock_inv s → put_owner s a i → lver kv' = lver (ls_srv s) + 1 →
  pc_inv kv' (ls_pc s j).
Proof.
  intros Hi [Hp Hv] Hv'. pose proof (li_pc s Hi i) as Hpi.
  pose proof (li_pc s Hi j) as Hpj.
  (* the entry before: unlocked, or owned by [i] *)
  assert (Hold : lval (ls_srv s) = "" ∨
      nonce (ls_pc s i) = Some (lval (ls_srv s)) ∧
      ∃ r cur ver n, ls_pc s i = RelPut r cur ver n).
  { destruct (ls_pc s i); simpl in *; try done; injection Hp as <-; simpl in Hv.
    - left. by apply Hpi.
    - right. destruct Hpi as (->&?&Hc). rewrite (Hc Hv). eauto 10. }
  assert (Hother : ∀ r, nonce (ls_pc s j) = Some r → lval (ls_srv s) = r →
      ∃ r cur ver n, ls_pc s j = RelPut r cur ver n).
  { intros r Hr Hl. destruct (li_nonce s Hi j r Hr) as [Hne _].
    destruct Hold as [Ho|[Ho Hrel]]; [congruence|].
    rewrite Hl in Ho. by rewrite (li_distinct s Hi j i r Hr Ho). }
  destruct (ls_pc s j) eqn:Ej; simpl in *; try done;
    try (destruct (Hother _ eq_refl Hpj) as (?&?&?&?&?); done); rewrite Hv'.
  all: split_and!; lia.
Qed.

(** Updating one client's program counter. *)
Lemma upd_pc (Q : LockPC → Prop) (pcs : nat → LockPC) i pc :
  Q pc → (∀ j, j ≠ i → Q (pcs j)) → ∀ j, Q ((<[i := pc]> pcs) j).
Proof.
  intros Hq Ho j. destruct (decide (i = j)) as [<-|Hne].
  - by rewrite fn_lookup_insert.
  - rewrite fn_lookup_insert_ne by done. by apply Ho.
Qed.

(** A client moves to a program counter that keeps its nonce, drops it, or takes a
    fresh one; the server, the flight and the other clients stay. *)
Lemma move_inv s i pc used' :
  lock_inv s → pc_inv (ls_srv s) pc →
  (∀ a, pending lkey (ls_pc s i) = Some a →
     PutArgs_Version a < lver (ls_srv s) ∨ pending lkey pc = Some a) →
  ls_used s ⊆ used' →
  (∀ r, nonce pc = Some r → nonce (ls_pc s i) = Some r ∨
     r ≠ "" ∧ (r ∉ ls_used s) ∧ r ∈ used') →
  lock_inv (mkLockSys (ls_srv s) (<[i := pc]> (ls_pc s)) (ls_flight s) used').
Proof.
  intros [H1 H2 H3 H4 H5 H6] Hpc Hpend Hu Hn.
  assert (Hn' : ∀ r, nonce pc = Some r → r ≠ "" ∧ r ∈ used').
  { intros r Hr. destruct (Hn r Hr) as [Ho|(?&?&?)]; [|done].
    destruct (H3 _ _ Ho). set_solver. }
  assert (Hcross : ∀ j r, j ≠ i → nonce (ls_pc s j) = Some r → nonce pc = Some r → False).
  { intros j r Hj Hr Hpr. destruct (Hn r Hpr) as [Ho|(?&Hf&?)].
    - by apply Hj, (H4 _ _ r).
    - by destruct (H3 _ _ Hr). }
  split; simpl; [done|..].
  - by apply upd_pc.
  - intros j r. destruct (decide (i = j)) as [<-|Hne].
    + rewrite fn_lookup_insert. apply Hn'.
    + rewrite fn_lookup_insert_ne by done. intros Hr. destruct (H3 _ _ Hr). set_solver.
  - intros j k r. destruct (decide (i = j)) as [<-|Hj], (decide (i = k)) as [<-|Hk];
      rewrite ?fn_lookup_insert, ?fn_lookup_insert_ne by done; eauto.
    + intros Hr Hr'. exfalso. by eapply (Hcross k).
    + intros Hr Hr'. exfalso. by eapply (Hcross j).
  - set_solver.
  - intros a Ha Hk. destruct (H6 a Ha Hk) as [?|[j Hj]]; [by left|].
    destruct (decide (i = j)) as [<-|Hne].
    + destruct (Hpend a Hj); [by left|right]. exists i. by rewrite fn_lookup_insert.
    + right. exists j. by rewrite fn_lookup_insert_ne.
Qed.

(** The server executes a Put that is pending somewhere or in flight. *)
Lemma exec_inv s a kv' reply :
  lock_inv s → lver (ls_srv s) + 1 < 2 ^ 64 →
  (PutArgs_Key a = lkey →
     PutArgs_Version a < lver (ls_srv s) ∨ ∃ i, pending lkey (ls_pc s i) = Some a) →
  svc_put (ls_srv s) a zero_PutReply = Ret (kv', reply) →
  lock_inv (mkLockSys kv' (ls_pc s) (ls_flight s) (ls_used s)) ∧
  lver (ls_srv s) ≤ lver kv' ≤ lver (ls_srv s) + 1.
Proof.
  intros Hi Hb Hsrc Hp. pose proof Hi as [H1 H2 H3 H4 H5 H6].
  assert (Hw : is_u64 (lver (ls_srv s) + 1)) by (unfold is_u64; lia).
  destruct (exec_cases _ _ _ _ Hw Hp) as [[Hs _]|(Hk&Hv&_&Hv'&Hl')].
  - split; [|destruct Hs; lia]. pose proof Hs as [Ev El].
    split; simpl; rewrite ?Ev, ?El; try done. intros j. by eapply pc_inv_same.
  - split; [|lia]. destruct (Hsrc Hk) as [?|[i Hpi]]; [lia|].
    split; simpl; [lia|..|done|done| |].
    + intros j. by eapply put_effect_pc.
    + rewrite Hl'. intros Hne. destruct (ls_pc s i) eqn:Ei; simplify_eq/=.
      apply (H3 i). by rewrite Ei.
    + intros a' Ha' Hk'. rewrite Hv'. destruct (H6 a' Ha' Hk') as [?|[j Hj]]; [left; lia|].
      right. eauto.
Qed.

(** After an execution, the client that waited for it goes on. *)
Lemma put_return_inv s i a kv' reply :
  lock_inv s → lver (ls_srv s) + 1 < 2 ^ 64 → pending lkey (ls_pc s i) = Some a →
  svc_put (ls_srv s) a zero_PutReply = Ret (kv', reply) →
  lock_inv (mkLockSys kv'
    (<[i := put_return (ls_pc s i)
              (Clerk_Put_err (PutReply_Err reply) (i64_wrap (put_count (ls_pc s i) + 1)))]> (ls_pc s))
    (ls_flight s) (ls_used s)).
Proof.
  intros Hi Hb Hpend Hp. destruct (exec_inv s a kv' reply) as [Hi' _]; [eauto..|].
  assert (Hw : is_u64 (lver (ls_srv s) + 1)) by (pose proof (li_ver s Hi); unfold is_u64; lia).
  assert (Hlt : PutArgs_Version a < lver kv').
  { pose proof (li_pc s Hi i) as Hpi.
    assert (PutArgs_Key a = lkey ∧ PutArgs_Version a ≤ lver (ls_srv s)) as [Hk Hle].
    { destruct (ls_pc s i); simplify_eq/=; split; try done; lia. }
    destruct (exec_cases _ _ _ _ Hw Hp) as [[[Hs _] Hne]|(_&?&_&?&_)]; [|lia].
    destruct (Hne Hk). lia. }
  apply (move_inv _ i _ _ Hi'); simpl; [|by intros ? ?; simplify_eq; left|done|].
  - destruct (ls_pc s i) eqn:Ei; simplify_eq/=.
    + assert (Hheld : Clerk_Put_err (PutReply_Err reply) (i64_wrap (n + 1)) = OK → lval kv' = r).
      { unfold Clerk_Put_err. intros Hok.
        destruct (exec_cases _ _ _ _ Hw Hp) as [[_ Hne]|(_&_&_&_&?)]; [|done].
        destruct (Hne eq_refl) as [_ He]. by repeat split_case. }
      unfold Acquire_after_Put. repeat case_bool_decide; destruct nokey; simpl; try done;
        try (by apply Hheld); apply Hheld; by apply dec_stable.
    + pose proof (li_pc _ Hi' i) as Hpc. simpl in Hpc. rewrite Ei in Hpc. apply Hpc.
  - intros r Hr. left. destruct (ls_pc s i); simplify_eq/=; [|done].
    unfold Acquire_after_Put in Hr. by repeat split_case.
Qed.

Lemma lock_step_inv s s' :
  lock_step lkey s s' → lock_inv s → lver (ls_srv s) + 1 < 2 ^ 64 →
  lock_inv s' ∧ lver (ls_srv s') ≤ lver (ls_srv s) + 1.
Proof.
  intros Hstep Hi Hb. pose proof (li_pc s Hi) as Hpcs.
  destruct (svc_get_cases (ls_srv s) lkey) as (Hval&Hver&Hnokey).
  destruct Hstep as [s i E|s i r reply E Hrnd Hr ->|s i a Hp|s a srv reply Ha Hp|
    s i a srv reply Hpend Hp|s i r reply E ->|s i r E|s i r reply E ->|
    s i r cur reply E ->|s a srv reply Hreq Hh]; simpl in *;
    try specialize (Hpcs i); try rewrite E in Hpcs; simpl in Hpcs.
  - split; [|simpl; lia]. apply move_inv; rewrite ?E; simpl; try done; set_solver.
  - split; [|simpl; lia].
    apply move_inv; rewrite ?E; [done| |done|set_solver|].
    + unfold Acquire_after_Get. case_bool_decide as Hc; [|case_bool_decide as Hc'];
        simpl; [|rewrite Hver|done].
      * destruct (Hnokey Hc) as [-> ->]. done.
      * by rewrite <-Hval.
    + unfold Acquire_after_Get. intros r'. apply is_rand_value_nonempty in Hrnd.
      repeat case_bool_decide; simpl; intros; simplify_eq; right; set_solver.
  - split; [|simpl; lia].
    assert (Hi' : lock_inv (mkLockSys (ls_srv s) (<[i := put_retry (ls_pc s i)]> (ls_pc s))
                              (ls_flight s) (ls_used s))).
    { apply move_inv; [done|..]; destruct (ls_pc s i); simpl in *; try done; eauto. }
    destruct Hi' as [H1 H2 H3 H4 H5 H6]. split; try done. simpl in *.
    intros a' [->|Ha']%elem_of_cons Hk; [|by apply H6]. right. exists i.
    rewrite fn_lookup_insert. by destruct (ls_pc s i).
  - destruct (exec_inv s a srv reply) as [? ?]; [done|done| |done|by split; [|lia]].
    by apply (li_flight s Hi).
  - split; [by eapply put_return_inv|]. simpl.
    destruct (exec_inv s a srv reply) as [? ?]; eauto; lia.
  - split; [|simpl; lia]. apply move_inv; rewrite ?E; try done; unfold ReadUntilSuccess_step,
      Acquire_after_Read; repeat case_bool_decide; simpl; try done; eauto.
    congruence.
  - split; [|simpl; lia]. apply move_inv; rewrite ?E; simpl; try done; eauto.
  - split; [|simpl; lia]. apply move_inv; rewrite ?E; simpl; try done; eauto.
    rewrite Hver. done.
  - split; [|simpl; lia]. apply move_inv; rewrite ?E; try done; unfold ReadUntilSuccess_step,
      CheckAndReput_after_Read; repeat case_bool_decide; simpl; try done; eauto.
    rewrite Hver in *. destruct Hpcs. split_and!; [lia|lia|]. intros. by eauto.
  - pose proof (same_lookup _ _ (svc_put_other _ _ _ _ _ _ Hh Hreq)) as [Ev El].
    split; [|simpl; lia]. destruct Hi as [H1 H2 H3 H4 H5 H6].
    split; simpl; rewrite ?Ev, ?El; try done. intros j. by eapply pc_inv_same.
Qed.
End invariant.

(** ** Reachable states *)

Lemma lock_reachable_inv lkey n s :
  Z.of_nat n < 2 ^ 64 → nsteps (lock_step lkey) n lock_init s →
  lock_inv lkey s ∧ svc_ver (ls_srv s) lkey ≤ Z.of_nat n.
Proof.
  intros Hn. apply (nsteps_invariant (lock_step lkey)
    (λ n s, lock_inv lkey s ∧ svc_ver (ls_srv s) lkey ≤ Z.of_nat n)).
  - split; [apply lock_init_inv|]. unfold svc_ver. simpl. by rewrite svc_init_entry.
  - intros m x y Hm [Hi Hv] Hs. destruct (lock_step_inv lkey x y Hs Hi); [lia|].
    split; [done|lia].
Qed.

Section lost_lock.
Context (lkey : string).

(** The lock key holds a value that no client recognises as its own. *)
Definition orphaned (s : LockSys) : Prop :=
  lock_inv lkey s ∧ svc_val (ls_srv s) lkey ≠ "" ∧
  ∀ i, nonce (ls_pc s i) ≠ Some (svc_val (ls_srv s) lkey).

(** No Put can take effect on an orphaned entry. *)
Lemma orphaned_exec s a kv' reply :
  orphaned s → is_u64 (svc_ver (ls_srv s) lkey + 1) →
  (PutArgs_Key a = lkey → PutArgs_Version a < svc_ver (ls_srv s) lkey ∨
     ∃ i, pending lkey (ls_pc s i) = Some a) →
  svc_put (ls_srv s) a zero_PutReply = Ret (kv', reply) →
  same_entry lkey (ls_srv s) kv'.
Proof.
  intros (Hi & Hv & Hn) Hb Hsrc Hp.
  destruct (exec_cases lkey _ _ _ _ Hb Hp) as [[? _]|(Hk&Hver&_)]; [done|].
  destruct (Hsrc Hk) as [?|[i Hpi]]; [lia|]. exfalso.
  pose proof (li_pc _ _ Hi i) as Hpc. specialize (Hn i).
  destruct (ls_pc s i); simpl in *; try done; injection Hpi as <-; simpl in Hver.
  - by apply Hv, Hpc.
  - apply Hn. destruct Hpc as (->&_&Hc). by rewrite Hc.
Qed.

Lemma orphaned_step s s' :
  lock_step lkey s s' → orphaned s → svc_ver (ls_srv s) lkey + 1 < 2 ^ 64 →
  orphaned s' ∧ same_entry lkey (ls_srv s) (ls_srv s').
Proof.
  intros Hs Ho Hb. pose proof Ho as (Hi & Hv & Hn).
  assert (Hw : is_u64 (svc_ver (ls_srv s) lkey + 1))
    by (pose proof (li_ver _ _ Hi); unfold is_u64; lia).
  destruct (lock_step_inv lkey s s' Hs Hi Hb) as [Hi' _].
  assert (Hused : svc_val (ls_srv s) lkey ∈ ls_used s) by (by apply (li_val _ _ Hi)).
  enough (same_entry lkey (ls_srv s) (ls_srv s') ∧
          ∀ i r, nonce (ls_pc s' i) = Some r → nonce (ls_pc s i) = Some r ∨ r ∉ ls_used s)
    as [[Ev El] Hnew].
  { split; [|by split]. split_and!; [done|by rewrite El|]. rewrite El.
    intros i Hr. destruct (Hnew _ _ Hr); [by eapply Hn|done]. }
  assert (Hupd : ∀ pcs i pc, (∀ r, nonce pc = Some r →
      nonce (ls_pc s i) = Some r ∨ r ∉ ls_used s) → pcs = <[i := pc]> (ls_pc s) →
      ∀ j r, nonce (pcs j) = Some r → nonce (ls_pc s j) = Some r ∨ r ∉ ls_used s).
  { intros pcs i pc Hpc -> j r. destruct (decide (i = j)) as [<-|?].
    - rewrite fn_lookup_insert. apply Hpc.
    - rewrite fn_lookup_insert_ne by done. auto. }
  clear Hi'. destruct Hs; simpl in *.
  1-3, 6-9: split; [by split|]; eapply Hupd; [|reflexivity]; intros r' Hr'.
  8: { split; [by eapply orphaned_exec; [..|by apply (li_flight _ _ Hi)|]|auto]. }
  8: { split; [by eapply orphaned_exec; eauto|]. eapply Hupd; [|reflexivity].
       intros r' Hr'. left. destruct (ls_pc s i); simplify_eq/=; [|done].
       unfold Acquire_after_Put in Hr'. by repeat split_case. }
  8: { split; [by eapply same_lookup, svc_put_other|auto]. }
  all: try match goal with E : ls_pc _ _ = _ |- _ => rewrite E in * end; simplify_eq/=; auto.
  - right. unfold Acquire_after_Get in Hr'. by repeat split_case; simplify_eq/=.
  - left. by destruct (ls_pc s i).
  - left. unfold ReadUntilSuccess_step, Acquire_after_Read in Hr'.
    by repeat split_case; simplify_eq/=.
  - left. unfold ReadUntilSuccess_step, CheckAndReput_after_Read in Hr'.
    by repeat split_case; simplify_eq/=.
Qed.

(** The entry stays as it is, and nobody holds the lock. *)
Lemma orphaned_forever s s' e :
  rtc (lock_step lkey) s s' → orphaned s → svc_entry (ls_srv s) lkey = Some e →
  Version e + 1 < 2 ^ 64 →
  svc_entry (ls_srv s') lkey = Some e ∧ ∀ i r, ls_pc s' i ≠ Held r.
Proof.
  intros Hr Ho He Hb.
  assert (Hver : svc_ver (ls_srv s) lkey = Version e) by (unfold svc_ver; by rewrite He).
  assert (orphaned s' ∧ svc_entry (ls_srv s') lkey = Some e) as [(Hi&_&Hn) He'].
  { apply (rtc_invariant (lock_step lkey)
      (λ x, orphaned x ∧ svc_entry (ls_srv x) lkey = Some e) s s'); [done| |done].
    intros x y [Hx Ex] Hxy. apply (orphaned_step x y Hxy) in Hx as (Hy & [Ev El]); [|unfold svc_ver; by rewrite Ex].
    split; [done|]. destruct Hy as (_ & Hne & _). unfold svc_ver, svc_val in *. rewrite Ex in Ev, El.
    destruct (svc_entry (ls_srv y) lkey) as [[v n]|]; [|done]. destruct e. simpl in *. congruence. }
  split; [done|]. intros i r Hh. apply (Hn i). rewrite Hh. simpl. f_equal.
  pose proof (li_pc _ _ Hi i) as Hpc. by rewrite Hh in Hpc.
Qed.

(** A client gives up a Put that has taken effect: nobody recognises the value any more. *)
Lemma abandoned_orphan s s1 i nk r n :
  lock_inv lkey s → ls_pc s i = AcqPut nk r 0 n → svc_entry (ls_srv s) lkey = Some (mkEntry r 1) →
  lock_step lkey s s1 → ls_pc s1 = <[i := AcqGet]> (ls_pc s) →
  svc_entry (ls_srv s1) lkey = Some (mkEntry r 1) → orphaned s1.
Proof.
  intros Hi Hpc He Hs Hp1 He1.
  destruct (lock_step_inv lkey s s1 Hs Hi) as [Hi1 _]; [unfold svc_ver; by rewrite He|].
  assert (Hn : nonce (ls_pc s i) = Some r) by by rewrite Hpc.
  destruct (li_nonce _ _ Hi i r Hn) as [Hne _].
  split; [done|]. unfold svc_val. rewrite He1, Hp1. split; [done|]. simpl. intros j Hj.
  destruct (decide (i = j)) as [<-|Hij]; [by rewrite fn_lookup_insert in Hj|].
  rewrite fn_lookup_insert_ne in Hj by done. by apply Hij, (li_distinct _ _ Hi i j r).
Qed.
End lost_lock.

(** ** Runs of a single client over a network that answers *)

Lemma upd_same {A} (f : nat → A) i x y : <[i := x]> (<[i := y]> f) i = x.
Proof. apply fn_lookup_insert. Qed.

Section uncontended.
Context (lkey : string).

(** [Acquire] on an unlocked key. *)
Lemma acquire_run s i r :
  ls_pc s i = Idle → svc_val (ls_srv s) lkey = "" → is_rand_value 8 r → r ∉ ls_used s →
  0 ≤ svc_ver (ls_srv s) lkey → svc_ver (ls_srv s) lkey + 1 < 2 ^ 64 →
  ∃ s', rtc (lock_step lkey) s s' ∧ ls_pc s' i = Held r ∧
    (∀ j, j ≠ i → ls_pc s' j = ls_pc s j) ∧
    svc_entry (ls_srv s') lkey = Some (mkEntry r (svc_ver (ls_srv s) lkey + 1)).
Proof.
  intros Hpc Hl Hr Hu Hnn Hb. destruct (svc_get_cases (ls_srv s) lkey) as (Ev&Ever&Enk).
  assert (Hgot : ∃ nk, Acquire_after_Get
      (GetReply_Value (svc_get (ls_srv s) (mkGetArgs lkey) zero_GetReply))
      (GetReply_Version (svc_get (ls_srv s) (mkGetArgs lkey) zero_GetReply))
      (GetReply_Err (svc_get (ls_srv s) (mkGetArgs lkey) zero_GetReply)) r
      = AcqPut nk r (svc_ver (ls_srv s) lkey) 0).
  { unfold Acquire_after_Get. case_bool_decide as Hc.
    - destruct (Enk Hc) as [-> _]. eauto.
    - rewrite Ev, Ever, Hl, bool_decide_eq_true_2 by done. eauto. }
  destruct Hgot as [nk Hgot].
  destruct (svc_put_ok (ls_srv s) lkey r zero_PutReply) as (kv' & Hput & Hstore);
    [unfold is_u64; lia|].
  eexists. split.
  - eapply rtc_l; [by apply (step_Acquire lkey s i)|].
    eapply rtc_l; [eapply (step_AcqGet lkey _ i r); [apply fn_lookup_insert|done..]|].
    eapply rtc_l; [|apply rtc_refl]. simpl. rewrite Hgot.
    eapply (step_put_reply lkey _ i); simpl; [by rewrite upd_same|done].
  - simpl. rewrite fn_lookup_insert, upd_same. simpl. split_and!; [by destruct nk| |done].
    intros j Hj. by rewrite !fn_lookup_insert_ne.
Qed.

(** [Release] by the holder. *)
Lemma release_run s i r ver :
  ls_pc s i = Held r → svc_entry (ls_srv s) lkey = Some (mkEntry r ver) →
  0 ≤ ver → ver + 1 < 2 ^ 64 →
  ∃ s', rtc (lock_step lkey) s s' ∧ ls_pc s' i = Idle ∧
    (∀ j, j ≠ i → ls_pc s' j = ls_pc s j) ∧
    svc_entry (ls_srv s') lkey = Some (mkEntry "" (ver + 1)).
Proof.
  intros Hpc He Hnn Hb.
  assert (Hver : svc_ver (ls_srv s) lkey = ver) by (unfold svc_ver; by rewrite He).
  destruct (svc_put_ok (ls_srv s) lkey "" zero_PutReply) as (kv' & Hput & Hstore);
    [rewrite Hver; unfold is_u64; lia|]. rewrite Hver in Hput, Hstore.
  pose proof (svc_get_present _ _ _ He) as Hg. pose proof (svc_get_present _ _ _ Hstore) as Hg'.
  simpl in Hg, Hg'.
  eexists. split.
  - eapply rtc_l; [by apply (step_Release lkey s i r)|].
    eapply rtc_l; [eapply (step_RelGet lkey _ i r); [apply fn_lookup_insert|done]|].
    eapply rtc_l; [eapply (step_RelRead lkey _ i r); [apply fn_lookup_insert|done]|].
    simpl. unfold ReadUntilSuccess_step, CheckAndReput_after_Read; simpl.
    rewrite bool_decide_eq_false_2 by lia.
    eapply rtc_l; [eapply (step_put_reply lkey _ i); simpl; [by rewrite upd_same|done]|].
    eapply rtc_l; [|apply rtc_refl]. simpl. rewrite upd_same. simpl.
    eapply (step_RelRead lkey _ i r ver); simpl; [apply upd_same|done].
  - simpl. unfold ReadUntilSuccess_step, CheckAndReput_after_Read; simpl.
    rewrite (bool_decide_eq_true_2 (ver < ver + 1)) by lia.
    rewrite fn_lookup_insert. split_and!; [done| |done].
    intros j Hj. by rewrite !fn_lookup_insert_ne.
Qed.
End uncontended.

(** ** Properties *)

(** C11: mutual exclusion. In every state reached in fewer than 2^64 steps, at most one
    client is between the return of [Acquire] and its [Release], whatever calls were
    lost, delayed or repeated, provided the random values are distinct. *)
Theorem lock_mutual_exclusion lkey n s i j r1 r2 :
  Z.of_nat n < 2 ^ 64 → nsteps (lock_step lkey) n lock_init s →
  ls_pc s i = Held r1 → ls_pc s j = Held r2 → i = j.
Proof.
  intros Hn Hs Hi Hj. destruct (lock_reachable_inv _ _ _ Hn Hs) as [Hinv _].
  pose proof (li_pc _ _ Hinv i) as H1. pose proof (li_pc _ _ Hinv j) as H2.
  rewrite Hi in H1. rewrite Hj in H2. simpl in *.
  apply (li_distinct _ _ Hinv i j r1); [by rewrite Hi|rewrite Hj; simpl; congruence].
Qed.

(** An uncontended client that finds the key unlocked gets the lock, and its
    [Release] gives it back: there is a run of [Acquire] then [Release] over a network
    that answers after which the entry is empty again, two versions on, and no other
    client has moved. *)
Theorem lock_uncontended lkey s i r :
  ls_pc s i = Idle → svc_val (ls_srv s) lkey = "" → is_rand_value 8 r → r ∉ ls_used s →
  0 ≤ svc_ver (ls_srv s) lkey → svc_ver (ls_srv s) lkey + 2 < 2 ^ 64 →
  ∃ s1 s2, rtc (lock_step lkey) s s1 ∧ ls_pc s1 i = Held r ∧
    rtc (lock_step lkey) s1 s2 ∧ ls_pc s2 i = Idle ∧
    (∀ j, j ≠ i → ls_pc s2 j = ls_pc s j) ∧
    svc_entry (ls_srv s2) lkey = Some (mkEntry "" (svc_ver (ls_srv s) lkey + 2)).
Proof.
  intros Hpc Hv Hr Hu Hnn Hb.
  destruct (acquire_run lkey s i r) as (s1 & R1 & P1 & O1 & E1); [done..|lia|].
  destruct (release_run lkey s1 i r (svc_ver (ls_srv s) lkey + 1)) as (s2 & R2 & P2 & O2 & E2);
    [done..|lia|lia|].
  exists s1, s2. split_and!; [done..| |by rewrite E2, <-Z.add_assoc].
  intros j Hj. by rewrite O2, O1.
Qed.

(** The first Put on a missing key takes effect. *)
Lemma first_put lkey r :
  ∃ s1 : St, svc_put svc_init (mkPutArgs lkey r 0) zero_PutReply = Ret (s1, mkPutReply OK) ∧
    svc_entry s1 lkey = Some (mkEntry r 1).
Proof.
  destruct (svc_put_ok (St := St) svc_init lkey r zero_PutReply) as (s1 & Hp & He);
    unfold svc_ver in *; rewrite svc_init_entry in *; [done|]. by exists s1.
Qed.

(** Putting it again is refused and changes nothing. *)
Lemma second_put (kv : St) lkey r :
  svc_entry kv lkey = Some (mkEntry r 1) →
  ∃ kv', svc_put kv (mkPutArgs lkey r 0) zero_PutReply = Ret (kv', mkPutReply ErrVersion) ∧
    svc_entry kv' lkey = Some (mkEntry r 1).
Proof.
  intros He. destruct (svc_put_entry kv (mkPutArgs lkey r 0) zero_PutReply) as (kv' & Hp & He').
  exists kv'. rewrite Hp, He'. unfold put_err, put_entry. simpl. rewrite He. simpl.
  by rewrite decide_False by naive_solver.
Qed.

(** A client is in the first Put on a fresh key, and has lost the reply of the call that took
    effect: [k] calls made, and the key holds its value. *)
Definition lost_reply (lkey : string) (s : LockSys) (i : nat) (r : string) (k : Z) : Prop :=
  ls_pc s i = AcqPut true r 0 k ∧ 1 ≤ k < 2 ^ 63 - 1 ∧
  svc_entry (ls_srv s) lkey = Some (mkEntry r 1).

(** Such a state comes up at once: one client, one value, one lost reply. *)
Lemma lost_reply_reachable lkey r :
  is_rand_value 8 r →
  ∃ s, nsteps (lock_step lkey) 4 lock_init s ∧ lost_reply lkey s 0 r 1 ∧ ls_used s = {[r]} ∧
    ∀ j, j ≠ 0%nat → ls_pc s j = Idle.
Proof.
  intros Hr. destruct (first_put lkey r) as (s1 & Hp1 & He). eexists. split.
  - eapply nsteps_l; [by apply (step_Acquire lkey _ 0)|].
    eapply nsteps_l; [eapply (step_AcqGet lkey _ 0 r); [done|done|set_solver|done]|].
    simpl. rewrite svc_get_entry, svc_init_entry. simpl.
    change (Acquire_after_Get "" 0 ErrNoKey r) with (AcqPut true r 0 0).
    eapply nsteps_l; [by apply (step_put_lost lkey _ 0 (mkPutArgs lkey r 0))|]. simpl.
    eapply nsteps_l; [eapply (step_put_late lkey); [by left|exact Hp1]|]. apply nsteps_O.
  - simpl. split_and!; try done; [by rewrite (right_id_L ∅ (∪))|by intros [|j]].
Qed.

(** C38: [Acquire] can lose the lock for good. When the first [Put] of a client on a fresh key
    has taken effect and its reply was lost, the resend is answered [ErrMaybe], and in this
    branch [Acquire] starts over without looking whether the value is its own (in the branch for
    a key that exists it looks). From then on, whatever the clients do and the network delivers, the key
    keeps the abandoned value and no client holds the lock again. Such a state is reached with
    one client, one random value and one lost reply. *)
Theorem lock_lost_forever lkey :
  (∀ m s i r k,
     Z.of_nat m < 2 ^ 64 → nsteps (lock_step lkey) m lock_init s → lost_reply lkey s i r k →
     ∃ s1 srv reply,
       svc_put (ls_srv s) (mkPutArgs lkey r 0) zero_PutReply = Ret (srv, reply) ∧
       Clerk_Put_err (PutReply_Err reply) (i64_wrap (k + 1)) = ErrMaybe ∧
       s1 = mkLockSys srv (<[i := AcqGet]> (ls_pc s)) (ls_flight s) (ls_used s) ∧
       lock_step lkey s s1 ∧
       ∀ s', rtc (lock_step lkey) s1 s' →
         svc_entry (ls_srv s') lkey = Some (mkEntry r 1) ∧ ∀ j r', ls_pc s' j ≠ Held r') ∧
  (∀ r, is_rand_value 8 r →
     ∃ s, nsteps (lock_step lkey) 4 lock_init s ∧ lost_reply lkey s 0 r 1 ∧ ls_used s = {[r]} ∧
       ∀ j, j ≠ 0%nat → ls_pc s j = Idle).
Proof.
  split; [|apply lost_reply_reachable]. intros m s i r k Hm Hs (Hpc & Hk & He).
  destruct (lock_reachable_inv _ _ _ Hm Hs) as [Hi _].
  destruct (second_put _ _ _ He) as (srv & Hput & He1).
  assert (Hmaybe : Clerk_Put_err ErrVersion (i64_wrap (k + 1)) = ErrMaybe).
  { rewrite i64_wrap_small by lia. unfold Clerk_Put_err. by rewrite (bool_decide_eq_true_2 (1 < _)) by lia. }
  assert (Hstep : lock_step lkey s
    (mkLockSys srv (<[i := AcqGet]> (ls_pc s)) (ls_flight s) (ls_used s))).
  { pose proof (step_put_reply lkey s i (mkPutArgs lkey r 0) srv (mkPutReply ErrVersion)) as Hst.
    rewrite Hpc in Hst. simpl in Hst. rewrite Hmaybe in Hst. by apply Hst. }
  eexists _, srv, _. split_and!; [exact Hput|exact Hmaybe|reflexivity|exact Hstep|].
  intros s' Hs'. eapply orphaned_forever; [exact Hs'| |exact He1|done].
  by eapply abandoned_orphan.
Qed.

End lock.

(** ** Witnesses *)

Lemma rand_value_a8 : is_rand_value 8 "aaaaaaaa".
Proof. exists (λ _, 0). split; [lia|reflexivity]. Qed.

(** Client 0 acquires the lock in three steps. *)
Lemma acquire_run_example :
  ∃ s : LockSys (St := KVServer), nsteps (lock_step "l") 3 lock_init s ∧ ls_pc s 0 = Held "aaaaaaaa".
Proof.
  eexists. split.
  - eapply nsteps_l; [by apply (step_Acquire "l" _ 0)|].
    eapply nsteps_l; [eapply (step_AcqGet "l" _ 0 "aaaaaaaa");
      [done|apply rand_value_a8|set_solver|done]|].
    eapply nsteps_l; [|apply nsteps_O].
    by apply (step_put_reply (St := KVServer) "l" _ 0 (mkPutArgs "l" "aaaaaaaa" 0)
      (mkKVServer {["l" := mkEntry "aaaaaaaa" 1]}) (mkPutReply OK)).
  - done.
Qed.

Example lock_mutual_exclusion_witness :
  ∃ s : LockSys (St := KVServer), nsteps (lock_step "l") 3 lock_init s ∧ ls_pc s 0 = Held "aaaaaaaa" ∧
    ∀ j r, ls_pc s j = Held r → 0%nat = j.
Proof.
  destruct acquire_run_example as (s & Hs & Hh). exists s. split_and!; [done..|].
  intros j r Hj. by refine (lock_mutual_exclusion "l" 3 s 0 j "aaaaaaaa" r _ Hs Hh Hj).
Defined.

Example lock_uncontended_witness :
  ∃ s1 s2 : LockSys (St := KVServer), rtc (lock_step "l") lock_init s1 ∧ ls_pc s1 0 = Held "aaaaaaaa" ∧
    rtc (lock_step "l") s1 s2 ∧ ls_pc s2 0 = Idle ∧
    (∀ j, j ≠ 0%nat → ls_pc s2 j = Idle) ∧
    KVStore (ls_srv s2) !! "l" = Some (mkEntry "" 2).
Proof.
  destruct (lock_uncontended (St := KVServer) "l" lock_init 0 "aaaaaaaa")
    as (s1 & s2 & R1 & P1 & R2 & P2 & Ho & He);
    [reflexivity..|apply rand_value_a8|set_solver|vm_compute; discriminate|reflexivity|].
  exists s1, s2. split_and!; [done..|exact Ho|exact He].
Defined.

Example lock_lost_forever_witness :
  ∃ s s1 : LockSys (St := KVServer),
    nsteps (lock_step "l") 4 lock_init s ∧ ls_pc s 0 = AcqPut true "aaaaaaaa" 0 1 ∧
    KVStore (ls_srv s) !! "l" = Some (mkEntry "aaaaaaaa" 1) ∧
    lock_step "l" s s1 ∧ ls_pc s1 0 = AcqGet ∧
    ∀ s', rtc (lock_step "l") s1 s' →
      KVStore (ls_srv s') !! "l" = Some (mkEntry "aaaaaaaa" 1) ∧ ∀ j r', ls_pc s' j ≠ Held r'.
Proof.
  destruct (lock_lost_forever (St := KVServer) "l") as [Hall Hex].
  destruct (Hex "aaaaaaaa" rand_value_a8) as (s & Hs & Hl & _).
  destruct (Hall 4%nat s 0%nat "aaaaaaaa" 1 ltac:(reflexivity) Hs Hl)
    as (s1 & srv & reply & _ & _ & -> & Hstep & Hstuck).
  destruct Hl as (Hpc & _ & He). eexists s, _.
  split; [exact Hs|]. split; [exact Hpc|]. split; [exact He|]. split; [exact Hstep|].
  split; [apply fn_lookup_insert|exact Hstuck].
Defined.
