(* ===== verification/KvTest.v ===== *)
(** * Helpers of the key/value tests ([kvtest1/kvtest.go])

    What the tests that put and get through clerks share: results of clients, reading a value
    encoded in JSON, checking a Get, putting until it is known to have happened, keys that
    spread over the shards. The scripts of network events are those of Clerk.v. *)

From stdpp Require Import pretty.
From S2P Require Export KVService Clerk.

Local Open Scope Z_scope.

Record ClntRes := mkClntRes { Nok : Z; Nmaybe : Z }.

(** [GetJson], from the result of the clerk's [Get]; [dec] is [json.Unmarshal]. *)
Definition GetJson {A} (dec : string → option A) (reply : GetReply) : outcome (Tversion * A) :=
  if bool_decide (GetReply_Err reply = OK) then
    match dec (GetReply_Value reply) with
    | None => Fatal "Unmarshal err"
    | Some v => Ret (GetReply_Version reply, v)
    end
  else Fatal "Get err".

(** A concrete encoding for examples, as strings of bits. *)
Definition bit (b : bool) : Ascii.ascii := Ascii.Ascii b false false false false false false false.

Fixpoint bits_of (p : positive) : string :=
  match p with
  | xH => ""
  | xO p => String (bit false) (bits_of p)
  | xI p => String (bit true) (bits_of p)
  end.

Fixpoint of_bits (s : string) : positive :=
  match s with
  | EmptyString => xH
  | String (Ascii.Ascii b _ _ _ _ _ _ _) s => if b then xI (of_bits s) else xO (of_bits s)
  end.

Definition bits_enc {A} `{Countable A} (x : A) : string := bits_of (encode x).
Definition bits_dec {A} `{Countable A} (s : string) : option A := decode (of_bits s).

Lemma of_bits_of p : of_bits (bits_of p) = p.
Proof. induction p; simpl; by f_equal. Qed.

Lemma bits_dec_enc {A} `{Countable A} (x : A) : bits_dec (bits_enc x) = Some x.
Proof. unfold bits_dec, bits_enc. rewrite of_bits_of. apply decode_encode. Qed.

Definition CheckGet (reply : GetReply) (value : string) (version : Tversion) : outcome unit :=
  if bool_decide (GetReply_Err reply ≠ OK) then Fatal "Get returns error"
  else if bool_decide (GetReply_Value reply ≠ value ∨ GetReply_Version reply ≠ version)
  then Fatal "Get returns another value or version"
  else Ret tt.

(** [MakeKeys] *)
Definition MakeKeys (n : nat) : list string :=
  (λ i, "k" +:+ pretty (Z.of_nat i)) <$> seq 0 n.

Lemma MakeKeys_NoDup n : NoDup (MakeKeys n).
Proof.
  apply NoDup_fmap_2; [|apply NoDup_seq]. intros i j E.
  apply (inj (String.append "k")), (inj pretty) in E. lia.
Qed.

(** ** Putting at least once *)

(** [PutAtLeastOnce]; each Put has a script of network events, and the result is [None] when
    the scripts are used up before the function returns. *)
Fixpoint PutAtLeastOnce (srv : KVServer) (key value : string) (ver : Tversion)
    (scripts : list (list NetEvent)) : outcome (KVServer * option Tversion) :=
  match scripts with
  | [] => Ret (srv, None)
  | evs :: scripts =>
      st ← Clerk_Put srv key value ver evs;
      match run_result st with
      | None => Ret (run_srv st, None)
      | Some err =>
          if bool_decide (err = OK) then Ret (run_srv st, Some (u64_wrap (ver + 1)))
          else if bool_decide (err = ErrMaybe ∨ err = ErrVersion)
          then PutAtLeastOnce (run_srv st) key value (u64_wrap (ver + 1)) scripts
          else if bool_decide (ver ≠ 0) then Fatal "Put err"
          else PutAtLeastOnce (run_srv st) key value ver scripts
      end
  end.

(** [PutAtLeastOnceJson], [json] being the encoded value. *)
Fixpoint PutAtLeastOnceJson (srv : KVServer) (key json : string) (ver : Tversion)
    (scripts : list (list NetEvent)) : outcome (KVServer * option Tversion) :=
  match scripts with
  | [] => Ret (srv, None)
  | evs :: scripts =>
      st ← Clerk_Put srv key json 0 evs;
      match run_result st with
      | None => Ret (run_srv st, None)
      | Some err =>
          if bool_decide (err ≠ ErrMaybe) then Ret (run_srv st, Some ver)
          else PutAtLeastOnceJson (run_srv st) key json (u64_wrap (ver + 1)) scripts
      end
  end.

(** No other request that puts the key names version [v] or a later one. *)
Definition only_old (key : string) (v : Z) (evs : list NetEvent) : Prop :=
  ∀ a, EvOther (ReqPut a) ∈ evs → PutArgs_Key a = key → PutArgs_Version a < v.

(** ** One Put of a key that nobody else puts *)

Section alone.
Context (key value : string) (ver : Z).

Abbreviation args := (mkPutArgs key value ver).

(** The Put has taken effect, once, or not at all. *)
Record alone_inv (st : PutRun) : Prop := {
  al_count : 0 ≤ run_count st;
  al_state :
    (kver (run_srv st) key = ver ∧
      (run_result st = None ∧ Z.of_nat (run_inflight st) ≤ run_count st)) ∨
    (KVStore (run_srv st) !! key = Some (mkEntry value (ver + 1)) ∧
      (run_result st = None ∧ 1 ≤ run_count st ∨ run_result st = Some OK ∨
       run_result st = Some ErrMaybe))
}.

Context (Hver : 0 ≤ ver) (Hmax : ver + 1 < 2 ^ 64).

(** Executing the Put before it has taken effect, and after. *)
Lemma alone_exec_new st :
  kver (run_srv st) key = ver →
  ∃ srv applied, exec_put args st =
      Ret (mkPutRun srv (run_inflight st) (run_count st) applied (run_result st), mkPutReply OK) ∧
    KVStore srv !! key = Some (mkEntry value (ver + 1)).
Proof.
  intros Hk. unfold exec_put. rewrite Put_cases. unfold kver in Hk. simpl.
  destruct (KVStore (run_srv st) !! key) as [e|] eqn:E.
  - rewrite decide_True by done. simpl. do 2 eexists. split; [done|]. simpl.
    rewrite lookup_insert_eq, Hk. by rewrite u64_wrap_small by (unfold is_u64; lia).
  - rewrite decide_True by done. simpl. do 2 eexists. split; [done|]. simpl.
    rewrite lookup_insert_eq. by rewrite <- Hk.
Qed.

Lemma alone_exec_old st :
  KVStore (run_srv st) !! key = Some (mkEntry value (ver + 1)) →
  ∃ applied, exec_put args st =
    Ret (mkPutRun (run_srv st) (run_inflight st) (run_count st) applied (run_result st),
      mkPutReply ErrVersion).
Proof.
  intros Hk. unfold exec_put. rewrite Put_cases. simpl. rewrite Hk. simpl.
  rewrite decide_False by lia. simpl. by eexists.
Qed.

Lemma alone_other kv req kv' rep :
  KVServer_handle kv req = Ret (kv', rep) →
  (∀ a, req = ReqPut a → PutArgs_Key a = key → PutArgs_Version a < ver) →
  ver ≤ kver kv key → KVStore kv' !! key = KVStore kv !! key.
Proof.
  intros Hh Hold Hk. destruct req as [a|a]; simpl in Hh; [by simplify_eq/=|]. bind_inv Hh.
  destruct (decide (PutArgs_Key a = key)) as [E|Hne]; [|by eapply Put_other_key].
  specialize (Hold a eq_refl E). rewrite Put_cases in Hbind. unfold kver in Hk. rewrite E in Hbind.
  destruct (KVStore kv !! key) eqn:Ek; rewrite decide_False in Hbind by lia; by simplify_eq/=.
Qed.

Lemma alone_event st ev st' :
  alone_inv st → only_old key ver [ev] → run_count st + Z.of_nat (tries [ev]) < 2 ^ 63 →
  Clerk_Put_event args st ev = Ret st' →
  alone_inv st' ∧ run_count st' ≤ run_count st + Z.of_nat (tries [ev]).
Proof.
  intros [Hc Hs] Hold Ht Hev. destruct ev as [req| | |]; simpl in Hev, Ht.
  - bind_inv Hev. apply alone_other in Hbind as Hsame; simpl.
    + split; [|simpl; lia]. split; simpl; [done|]. unfold kver in *. by rewrite Hsame.
    + intros a ->. apply Hold. left.
    + destruct Hs as [[-> _]|[Hk _]]; [lia|]. unfold kver. rewrite Hk. simpl. lia.
  - rewrite i64_wrap_small in Hev by lia.
    destruct (run_result st) eqn:Er; simplify_eq/=; [split; [by split; rewrite ?Er|lia]|].
    split; [|lia]. split; simpl; [lia|].
    destruct Hs as [(?&?&?)|[? Hs]]; [left; split_and!; [done..|lia]|right].
    split; [done|]. left. split; [done|]. destruct Hs as [[_ ?]|[?|?]]; [lia|done..].
  - destruct (run_inflight st) eqn:Ei; [by simplify_eq/=; split; [split; rewrite ?Ei|lia]|].
    bind_inv Hev. destruct Hs as [(Hk&Hr&?)|[Hk Hs]].
    + destruct (alone_exec_new (mkPutRun (run_srv st) n (run_count st) (run_applied st)
        (run_result st)) Hk) as (srv & ap & E & Hnew). rewrite E in Hbind. simplify_eq/=.
      split; [|lia]. split; simpl; [done|]. right. split; [done|]. left. split; [done|]. lia.
    + destruct (alone_exec_old (mkPutRun (run_srv st) n (run_count st) (run_applied st)
        (run_result st)) Hk) as (ap & E). rewrite E in Hbind. simplify_eq/=.
      split; [|lia]. split; simpl; [done|]. by right.
  - destruct (run_result st) eqn:Er; simplify_eq/=; [split; [by split; rewrite ?Er|lia]|].
    bind_inv Hev. destruct Hs as [(Hk&Hr&?)|[Hk Hs]].
    + destruct (alone_exec_new st Hk) as (srv & ap & E & Hnew). rewrite E in Hbind. simplify_eq/=.
      rewrite i64_wrap_small by lia.
      split; [|simpl; lia]. split; simpl; [lia|]. right. split; [done|]. auto.
    + destruct (alone_exec_old st Hk) as (ap & E). rewrite E in Hbind. simplify_eq/=.
      rewrite i64_wrap_small by lia.
      split; [|simpl; lia]. split; simpl; [lia|]. right. split; [done|]. unfold Clerk_Put_err. simpl.
      rewrite bool_decide_eq_true_2 by (destruct Hs as [[_ ?]|[?|?]]; [lia|done..]). auto.
Qed.

Lemma alone_events evs st st' :
  alone_inv st → only_old key ver evs → run_count st + Z.of_nat (tries evs) < 2 ^ 63 →
  Clerk_Put_events args st evs = Ret st' → alone_inv st'.
Proof.
  revert st. induction evs as [|ev evs IH]; intros st Hi Hold Ht Hr; [by simpl in Hr; simplify_eq|].
  rewrite tries_cons in Ht. simpl in Hr.
  destruct (event_total args st ev) as [a E]. rewrite E in Hr. simpl in Hr.
  destruct (alone_event st ev a) as [Hi' Hc]; [done| |lia|exact E|].
  - intros b Hb%list_elem_of_singleton. apply Hold. rewrite Hb. left.
  - eapply (IH a); [done|intros b ?; apply Hold; by right|lia|done].
Qed.

(** The Put alone: it is answered [OK] or [ErrMaybe], and it has taken effect. *)
Lemma Clerk_Put_alone srv evs :
  kver srv key = ver → only_old key ver evs → EvReply ∈ evs → Z.of_nat (tries evs) < 2 ^ 63 →
  ∃ st err, Clerk_Put srv key value ver evs = Ret st ∧ run_result st = Some err ∧
    (err = OK ∨ err = ErrMaybe) ∧ KVStore (run_srv st) !! key = Some (mkEntry value (ver + 1)).
Proof.
  intros Hk Hold Hin Ht. unfold Clerk_Put.
  destruct (put_events_total args evs (mkPutRun srv 0 0 0 None)) as [st E].
  exists st. rewrite E.
  assert (Hi : alone_inv st).
  { eapply alone_events; [|done| |exact E]; [|simpl; lia].
    split; simpl; [lia|]. left. split_and!; [done..|lia]. }
  apply events_returned in E as Hret. assert (Hsome : is_Some (run_result st)) by (apply Hret; by right).
  destruct Hsome as [err He]. exists err. split; [done|]. split; [done|].
  destruct (al_state _ Hi) as [(_&?&_)|[Hst Hs]]; [congruence|]. split; [|done].
  destruct Hs as [[? _]|[?|?]]; [congruence|left; congruence|right; congruence].
Qed.
End alone.

(** [PutAtLeastOnce] on a key that nobody else puts: it never fails; when it returns a version,
    this is the version of the key, which holds the value; and it returns at the first Put
    answered [OK]. *)
Theorem PutAtLeastOnce_correct srv key value ver scripts :
  0 ≤ ver → ver + Z.of_nat (length scripts) < 2 ^ 64 → kver srv key = ver →
  (∀ j evs, scripts !! j = Some evs → EvReply ∈ evs ∧ Z.of_nat (tries evs) < 2 ^ 63 ∧
     only_old key (ver + Z.of_nat j) evs) →
  ∃ srv' r, PutAtLeastOnce srv key value ver scripts = Ret (srv', r) ∧
    (∀ v, r = Some v → ver < v ≤ ver + Z.of_nat (length scripts) ∧
       KVStore srv' !! key = Some (mkEntry value v)) ∧
    (r = None → kver srv' key = ver + Z.of_nat (length scripts)).
Proof.
  revert srv ver. induction scripts as [|evs scripts IH]; intros srv ver Hv Hmax Hk Hs; simpl.
  { exists srv, None. split_and!; [done..|]. simpl. lia. }
  cbn [length] in Hmax. destruct (Hs 0%nat evs eq_refl) as (Hin & Ht & Hold).
  destruct (Clerk_Put_alone key value ver Hv ltac:(lia) srv evs) as (st & err & E & Hr & He & Hst);
    [done|by rewrite Z.add_0_r in Hold|done|done|].
  rewrite E. simpl. rewrite Hr. rewrite u64_wrap_small by (unfold is_u64; lia).
  destruct He as [->| ->]; simpl.
  - do 2 eexists. split; [done|]. split; [|done]. intros v [= <-]. split; [lia|done].
  - destruct (IH (run_srv st) (ver + 1)) as (srv' & r & -> & H1 & H2); [lia|lia| |..].
    + unfold kver. by rewrite Hst.
    + intros j evs' Hj. destruct (Hs (S j) evs' Hj) as (? & ? & Ho). split; [done|]. split; [done|].
      replace (ver + 1 + Z.of_nat j) with (ver + Z.of_nat (S j)) by lia. done.
    + do 2 eexists. split; [done|]. split.
      * intros v Hrv. destruct (H1 v Hrv). split; [lia|done].
      * intros Hn. specialize (H2 Hn). lia.
Qed.

Lemma PutAtLeastOnce_correct_witness :
  let scripts := [[EvLost; EvLate; EvReply]; [EvReply]] in
  ∃ srv', PutAtLeastOnce MakeKVServer "k" "v" 0 scripts = Ret (srv', Some 2) ∧
    KVStore srv' !! "k" = Some (mkEntry "v" 2).
Proof.
  intros scripts.
  destruct (PutAtLeastOnce_correct MakeKVServer "k" "v" 0 scripts) as (srv' & r & E & H1 & _);
    [lia|done|done| |].
  - intros j evs Hj. destruct j as [|[|j]]; simpl in Hj; [| |done]; injection Hj as <-;
      (split; [set_solver|]); (split; [done|]); intros a; rewrite !elem_of_cons; intros Ha;
      destruct_or? Ha; try done; by apply not_elem_of_nil in Ha.
  - vm_compute in E. injection E as <- <-. eexists. split; [vm_compute; reflexivity|].
    by apply (H1 2).
Defined.

(** ** Putting JSON at least once *)

Lemma exec_put_zero key json st st' reply :
  1 ≤ kver (run_srv st) key → exec_put (mkPutArgs key json 0) st = Ret (st', reply) →
  run_srv st' = run_srv st.
Proof.
  intros Hk. unfold exec_put, kver in *. rewrite Put_cases. simpl.
  destruct (KVStore (run_srv st) !! key); [|lia]. rewrite decide_False by lia. simpl.
  by intros [= <- _].
Qed.

Lemma put_zero_events key json evs st st' :
  1 ≤ kver (run_srv st) key → (∀ req, EvOther req ∉ evs) →
  Clerk_Put_events (mkPutArgs key json 0) st evs = Ret st' → run_srv st' = run_srv st.
Proof.
  revert st. induction evs as [|ev evs IH]; intros st Hk Hno Hr; simpl in Hr; [by simplify_eq|].
  bind_inv Hr. assert (run_srv a = run_srv st) as Ha.
  { destruct ev as [req| | |]; simpl in Hbind.
    - destruct (Hno req). left.
    - by destruct (run_result st); simplify_eq/=.
    - destruct (run_inflight st); [by simplify_eq|]. bind_inv Hbind.
      by apply exec_put_zero in Hbind0.
    - destruct (run_result st); [by simplify_eq|]. bind_inv Hbind.
      by apply exec_put_zero in Hbind0. }
  rewrite <- Ha. apply IH; [by rewrite Ha| |done]. intros req ?. apply (Hno req). by right.
Qed.

(** [PutAtLeastOnceJson] names version 0 in every Put: on a key that exists it never puts
    anything, whatever is lost or comes late, although it may return. *)
Theorem PutAtLeastOnceJson_puts_nothing srv key json ver scripts srv' r :
  1 ≤ kver srv key → (∀ evs, evs ∈ scripts → ∀ req, EvOther req ∉ evs) →
  PutAtLeastOnceJson srv key json ver scripts = Ret (srv', r) → srv' = srv.
Proof.
  revert srv ver. induction scripts as [|evs scripts IH]; intros srv ver Hk Hs Hr; simpl in Hr.
  { by simplify_eq. }
  bind_inv Hr. apply put_zero_events in Hbind as Ha; [|done|by apply Hs; left]. simpl in Ha.
  destruct (run_result a) as [err|]; [|by simplify_eq]. case_bool_decide; [by simplify_eq|].
  rewrite Ha in Hr. eapply IH; [done| |done]. intros evs' ?. apply Hs. by right.
Qed.

Lemma PutAtLeastOnceJson_puts_nothing_witness :
  let srv := mkKVServer {["k" := mkEntry "old" 1]} in
  ∃ srv', PutAtLeastOnceJson srv "k" "new" 1 [[EvReply]] = Ret (srv', Some 1) ∧ srv' = srv.
Proof.
  intros srv. eexists. split; [vm_compute; reflexivity|].
  apply (PutAtLeastOnceJson_puts_nothing srv "k" "new" 1 [[EvReply]] _ (Some 1)).
  - vm_compute. discriminate.
  - intros evs ->%list_elem_of_singleton req Hr%list_elem_of_singleton. done.
  - vm_compute. reflexivity.
Defined.

(** ** Spreading Puts over keys *)

(** The Puts of [SpreadPutsSize], whose results are ignored; one script per Put. *)
Fixpoint spread_puts (srv : KVServer) (kvs : list (string * string)) (scripts : list (list NetEvent))
    : outcome KVServer :=
  match kvs, scripts with
  | (k, v) :: kvs, evs :: scripts =>
      st ← Clerk_Put srv k v 0 evs; spread_puts (run_srv st) kvs scripts
  | _, _ => Ret srv
  end.

Fixpoint spread_checks (srv : KVServer) (kvs : list (string * string)) : outcome unit :=
  match kvs with
  | [] => Ret tt
  | (k, v) :: kvs =>
      _ ← CheckGet (KVServer_Get srv (mkGetArgs k) zero_GetReply) v 1; spread_checks srv kvs
  end.

Definition SpreadPutsSize (srv : KVServer) (va : list string) (scripts : list (list NetEvent))
    : outcome (KVServer * list string) :=
  let ka := MakeKeys (length va) in
  srv ← spread_puts srv (zip ka va) scripts;
  _ ← spread_checks srv (zip ka va);
  Ret (srv, ka).

(** A Put of one key, and old Puts, leave the entry of another key as it is. *)
Lemma put_events_keep args k v evs st st' :
  PutArgs_Key args ≠ k → v ≤ kver (run_srv st) k → only_old k v evs →
  Clerk_Put_events args st evs = Ret st' → KVStore (run_srv st') !! k = KVStore (run_srv st) !! k.
Proof.
  intros Hne. revert st. induction evs as [|ev evs IH]; intros st Hk Hold Hr; simpl in Hr; [by simplify_eq|].
  bind_inv Hr. assert (Hexec : ∀ st0 st1 reply, exec_put args st0 = Ret (st1, reply) →
    KVStore (run_srv st1) !! k = KVStore (run_srv st0) !! k).
  { intros st0 st1 reply He. unfold exec_put in He. bind_inv He.
    by apply (Put_other_key _ _ _ _ _ _ Hbind0 Hne). }
  assert (Ha : KVStore (run_srv a) !! k = KVStore (run_srv st) !! k).
  { destruct ev as [req| | |]; simpl in Hbind.
    - bind_inv Hbind. rewrite (alone_other k v _ _ _ _ Hbind0); [done| |done].
      intros b ->. apply Hold. left.
    - by destruct (run_result st); simplify_eq/=.
    - destruct (run_inflight st); [by simplify_eq|]. bind_inv Hbind. by apply Hexec in Hbind0.
    - destruct (run_result st); [by simplify_eq|]. bind_inv Hbind. by apply Hexec in Hbind0. }
  rewrite <- Ha. apply IH; [unfold kver; by rewrite Ha|intros b ?; apply Hold; by right|done].
Qed.

Lemma Clerk_Put_keep srv key value ver evs st k v :
  Clerk_Put srv key value ver evs = Ret st → key ≠ k → v ≤ kver srv k → only_old k v evs →
  KVStore (run_srv st) !! k = KVStore srv !! k.
Proof. intros E Hne Hv Hold. by apply (put_events_keep (mkPutArgs key value ver) k v evs (mkPutRun srv 0 0 0 None)). Qed.

(** What another clerk's late Puts may do while the [i]-th key is being put: nothing new. *)
Definition spread_quiet (ka : list string) (scripts : list (list NetEvent)) : Prop :=
  ∀ i evs, scripts !! i = Some evs → EvReply ∈ evs ∧ Z.of_nat (tries evs) < 2 ^ 63 ∧
    ∀ j k, ka !! j = Some k → only_old k (if decide (j < i)%nat then 1 else 0) evs.

Definition spread_done (srv : KVServer) (kvs : list (string * string)) : Prop :=
  ∀ k v, (k, v) ∈ kvs → KVStore srv !! k = Some (mkEntry v 1).

Lemma spread_puts_spec kvs2 kvs1 srv scripts :
  NoDup ((kvs1 ++ kvs2).*1) → length scripts = length (kvs1 ++ kvs2) →
  spread_quiet (kvs1 ++ kvs2).*1 scripts → spread_done srv kvs1 →
  (∀ k, k ∈ kvs2.*1 → KVStore srv !! k = None) →
  ∃ srv', spread_puts srv kvs2 (drop (length kvs1) scripts) = Ret srv' ∧
    spread_done srv' (kvs1 ++ kvs2).
Proof.
  revert kvs1 srv. induction kvs2 as [|[k v] kvs2 IH]; intros kvs1 srv Hnd Hlen Hq Hd Hn.
  { exists srv. by rewrite app_nil_r. }
  destruct (lookup_lt_is_Some_2 scripts (length kvs1)) as [evs Hevs];
    [rewrite Hlen, length_app; simpl; lia|].
  rewrite (drop_S _ evs) by done. destruct (Hq _ _ Hevs) as (Hin & Ht & Hold).
  assert (Hkey : (kvs1 ++ (k, v) :: kvs2).*1 !! length kvs1 = Some k).
  { rewrite list_lookup_fmap, list_lookup_middle by done. done. }
  assert (Hother : ∀ j k', (kvs1 ++ (k, v) :: kvs2).*1 !! j = Some k' → j ≠ length kvs1 → k ≠ k').
  { intros j k' Hj Hne <-. by eapply Hne, NoDup_lookup. }
  assert (Hz : kver srv k = 0) by (unfold kver; rewrite Hn; [done|csimpl; left]).
  destruct (Clerk_Put_alone k v 0 ltac:(lia) ltac:(lia) srv evs) as (st & err & E & _ & _ & Hst);
    [done| |done|done|].
  { specialize (Hold _ _ Hkey). by rewrite decide_False in Hold by lia. }
  cbn [spread_puts]. rewrite E. simpl. replace (kvs1 ++ (k, v) :: kvs2) with ((kvs1 ++ [(k, v)]) ++ kvs2) in *
    by by rewrite <- app_assoc.
  replace (S (length kvs1)) with (length (kvs1 ++ [(k, v)])) by (rewrite length_app; simpl; lia).
  apply IH; [done|done|done| |].
  - intros k' v' [Hin'|[= -> ->]%list_elem_of_singleton]%elem_of_app; [|done].
    apply list_elem_of_lookup in Hin' as [j Hj].
    assert (Hj' : ((kvs1 ++ [(k, v)]) ++ kvs2).*1 !! j = Some k').
    { rewrite <- app_assoc, list_lookup_fmap, lookup_app_l by (by eapply lookup_lt_Some). by rewrite Hj. }
    pose proof (lookup_lt_Some _ _ _ Hj).
    assert (He : KVStore srv !! k' = Some (mkEntry v' 1)) by (apply Hd; by eapply list_elem_of_lookup_2).
    rewrite <- He. eapply (Clerk_Put_keep _ _ _ _ _ _ k' 1 E); [|unfold kver; by rewrite He|].
    + eapply Hother; [done|lia].
    + specialize (Hold _ _ Hj'). by rewrite decide_True in Hold by done.
  - intros k' Hk'. apply list_elem_of_lookup in Hk' as [j Hj].
    assert (Hj' : ((kvs1 ++ [(k, v)]) ++ kvs2).*1 !! (length kvs1 + S j)%nat = Some k').
    { rewrite fmap_app, lookup_app_r by (rewrite length_fmap, length_app; simpl; lia).
      rewrite length_fmap, length_app. simpl. rewrite <- Hj. f_equal. lia. }
    assert (He : KVStore srv !! k' = None) by (apply Hn; csimpl; right; by eapply list_elem_of_lookup_2).
    rewrite <- He. eapply (Clerk_Put_keep _ _ _ _ _ _ k' 0 E); [|unfold kver; by rewrite He|].
    + eapply Hother; [done|lia].
    + specialize (Hold _ _ Hj'). by rewrite decide_False in Hold by lia.
Qed.

Lemma spread_checks_ok srv kvs : spread_done srv kvs → spread_checks srv kvs = Ret tt.
Proof.
  induction kvs as [|[k v] kvs IH]; intros Hd; [done|]. simpl. unfold KVServer_Get. simpl.
  rewrite (Hd k v) by left. unfold CheckGet. simpl. rewrite bool_decide_eq_false_2 by naive_solver.
  apply IH. intros k' v' ?. apply Hd. by right.
Qed.

(** [SpreadPutsSize] on a fresh server: whatever calls of its own Puts are lost or come late,
    every check succeeds and every key holds its value at version 1. *)
Theorem SpreadPutsSize_correct va scripts :
  length scripts = length va → spread_quiet (MakeKeys (length va)) scripts →
  ∃ srv, SpreadPutsSize MakeKVServer va scripts = Ret (srv, MakeKeys (length va)) ∧
    ∀ i k v, MakeKeys (length va) !! i = Some k → va !! i = Some v →
      KVStore srv !! k = Some (mkEntry v 1).
Proof.
  intros Hlen Hq. set (ka := MakeKeys (length va)) in *.
  assert (Hka : length ka = length va) by (unfold ka, MakeKeys; by rewrite length_fmap, length_seq).
  assert (Hfst : (zip ka va).*1 = ka) by (apply fst_zip; lia).
  destruct (spread_puts_spec (zip ka va) [] MakeKVServer scripts) as (srv & E & Hd).
  - simpl. rewrite Hfst. apply MakeKeys_NoDup.
  - simpl. rewrite length_zip_with. lia.
  - simpl. by rewrite Hfst.
  - intros k v. set_solver.
  - done.
  - exists srv. unfold SpreadPutsSize. fold ka. simpl in E. rewrite drop_0 in E. rewrite E. simpl.
    rewrite spread_checks_ok by done. split; [done|]. intros i k v Hk Hv. apply Hd.
    apply list_elem_of_lookup. exists i. simpl. rewrite lookup_zip_with, Hk. simpl. by rewrite Hv.
Qed.

Lemma SpreadPutsSize_correct_witness :
  ∃ srv, SpreadPutsSize MakeKVServer ["a"; "b"] [[EvLost; EvLate; EvReply]; [EvReply]] =
      Ret (srv, ["k0"; "k1"]) ∧
    KVStore srv !! "k1" = Some (mkEntry "b" 1).
Proof.
  destruct (SpreadPutsSize_correct ["a"; "b"] [[EvLost; EvLate; EvReply]; [EvReply]])
    as (srv & E & Hd); [done| |].
  - intros i evs Hi. assert (Hno : EvReply ∈ evs ∧ ∀ req, EvOther req ∉ evs).
    { destruct i as [|[|i]]; simpl in Hi; [| |done]; injection Hi as <-; split;
        [set_solver| |set_solver|]; intros req; rewrite !elem_of_cons; intros Hr;
        destruct_or? Hr; try done; by apply not_elem_of_nil in Hr. }
    split; [apply Hno|]. split; [|intros j k _ a Ha; by apply Hno in Ha].
    destruct i as [|[|i]]; simpl in Hi; by simplify_eq/=.
  - exists srv. split; [exact E|]. by apply (Hd 1%nat).
Defined.
