(* ===== verification/PutTest.v ===== *)
(** * Concurrent Puts of one key ([kvtest1/kvtest.go])

    Clients run [OneClientPut] on one key: each calls [OnePut] until it is told to stop, which
    puts its name and the version it knows, reads the key back, and tries again until the Put
    is answered [OK] or [ErrMaybe]. [CheckPutConcurrent] compares the final version with the
    clients' counters. The system runs over any [KVService]; calls are lost, repeated and
    delayed unless the network is reliable. Without [randomkeys] the key is the first one. *)

From S2P Require Export KvTest.

Local Open Scope Z_scope.

Record EntryV := mkEntryV { ev_Id : Z; ev_V : Tversion }.

(** ** The clients *)

(** Where a client of [OneClientPut] is. *)
Inductive PutPC :=
  | PtTop                          (* at [select] *)
  | PtPut (ver : Tversion) (n : Z) (* in [PutJson] of [OnePut], [n] calls made *)
  | PtGet (ver : Tversion) (err : Err) (* in [GetJson] after a Put of [ver] answered [err] *)
  | PtDone
  | PtFatal (msg : string).

Record PutClient := mkPutClient { pc_pc : PutPC; pc_verm : Tversion; pc_nok : Z; pc_nmay : Z }.

Definition put_at (c : PutClient) (pc : PutPC) : PutClient :=
  mkPutClient pc (pc_verm c) (pc_nok c) (pc_nmay c).

(** [OnePut] from the result of [PutJson] to [GetJson]. *)
Definition OnePut_after_Put (ver : Tversion) (err : Err) : PutPC :=
  if bool_decide (err = OK ∨ err = ErrVersion ∨ err = ErrMaybe) then PtGet ver err
  else PtFatal "Wrong error".

(** The check of [OnePut] on what it reads after its Put. *)
Definition OnePut_check (me : Z) (ver : Tversion) (err : Err) (ver0 : Tversion) (e : EntryV)
    : outcome unit :=
  if bool_decide (err = OK ∧ ver0 = u64_wrap (ver + 1))
  then if bool_decide (ev_Id e ≠ me ∧ ev_V e ≠ ver) then Fatal "Wrong value" else Ret tt
  else Ret tt.

(** [OnePut] from the result of [GetJson] on, and the counting in [OneClientPut]. *)
Definition OnePut_after_Get (me : Z) (c : PutClient) (ver : Tversion) (err : Err)
    (got : outcome (Tversion * EntryV)) : PutClient :=
  match ('(ver0, e) ← got; _ ← OnePut_check me ver err ver0 e; Ret ver0) with
  | Ret ver0 =>
      if bool_decide (err = OK) then mkPutClient PtTop ver0 (pc_nok c + 1) (pc_nmay c)
      else if bool_decide (err = ErrMaybe) then mkPutClient PtTop ver0 (pc_nok c) (pc_nmay c + 1)
      else put_at c (PtPut ver0 0)
  | Panic msg | Fatal msg => put_at c (PtFatal msg)
  end.

Definition put_result (c : PutClient) : ClntRes := mkClntRes (pc_nok c) (pc_nmay c).

(** The check is weak: after its own Put, a client accepts an entry that another client wrote
    under the same version. *)
Lemma OnePut_check_weak me other ver :
  OnePut_check me ver OK (u64_wrap (ver + 1)) (mkEntryV other ver) = Ret tt.
Proof.
  unfold OnePut_check. rewrite bool_decide_eq_true_2 by done. simpl.
  rewrite bool_decide_eq_false_2; [done|]. by intros [_ ?].
Qed.

(** ** The check *)

Definition add_results (res : ClntRes) (rs : list ClntRes) : ClntRes :=
  foldl (λ res r, mkClntRes (Nok res + Nok r) (Nmaybe res + Nmaybe r)) res rs.

(** [CheckPutConcurrent], from the result of its [GetJson]; it returns the updated [res]. *)
Definition CheckPutConcurrent (got : outcome (Tversion * EntryV)) (rs : list ClntRes)
    (res : ClntRes) (reliable : bool) : outcome ClntRes :=
  '(ver0, _) ← got;
  let res := add_results res rs in
  if reliable then
    if bool_decide (ver0 ≠ u64_wrap (Nok res)) then Fatal "Reliable: Wrong number of puts"
    else Ret res
  else
    if bool_decide (u64_wrap (Nok res + Nmaybe res) < ver0) then Fatal "Unreliable: Wrong number of puts"
    else Ret res.

(** ** Sums over a list *)

Abbreviation len l := (Z.of_nat (length l)).

Definition csum {A} (f : A → Z) (l : list A) : Z := foldr (λ i z, f i + z) 0 l.

Lemma csum_le {A} (f g : A → Z) l : (∀ i, i ∈ l → f i ≤ g i) → csum f l ≤ csum g l.
Proof.
  induction l as [|i l IH]; intros Hl; simpl; [done|].
  pose proof (Hl i ltac:(left)). assert (csum f l ≤ csum g l); [|lia].
  apply IH. intros. apply Hl. by right.
Qed.

Lemma csum_bound {A} (f : A → Z) b l : (∀ i, i ∈ l → f i ≤ b) → csum f l ≤ len l * b.
Proof.
  intros Hb. trans (csum (λ _, b) l); [by apply csum_le|]. clear. induction l; simpl; lia.
Qed.

Lemma csum_add {A} (f g : A → Z) l : csum (λ i, f i + g i) l = csum f l + csum g l.
Proof. induction l; simpl; lia. Qed.

Lemma csum_one `{EqDecision A} (x : A) l : csum (λ i, if decide (x = i) then 1 else 0) l = occ x l.
Proof.
  induction l as [|i l IH]; simpl; [done|]. rewrite occ_cons, IH. f_equal.
  repeat case_decide; congruence.
Qed.

Lemma csum_occ `{EqDecision A} (owner l : list A) :
  NoDup l → Forall (λ i, i ∈ l) owner → csum (λ i, occ i owner) l = len owner.
Proof.
  intros Hl. induction 1 as [|x owner Hx _ IH]; [clear Hl; by induction l|].
  assert (E : csum (λ i, occ i (x :: owner)) l =
    csum (λ i, (if decide (x = i) then 1 else 0) + occ i owner) l).
  { clear. induction l as [|i l IH]; simpl; [done|]. by rewrite IH, occ_cons. }
  rewrite E, csum_add, csum_one, IH, NoDup_occ by done. simpl. lia.
Qed.

Lemma csum_ext {A} (f g : A → Z) l : (∀ i, i ∈ l → f i = g i) → csum f l = csum g l.
Proof.
  intros Hl. apply Z.le_antisymm; apply csum_le; intros i Hi; by rewrite (Hl i Hi).
Qed.

Lemma csum_zero {A} (f : A → Z) l : (∀ i, i ∈ l → f i = 0) → csum f l = 0.
Proof. intros Hl. rewrite (csum_ext f (λ _, 0)) by done. clear. by induction l. Qed.

Lemma csum_swap {A B} (f : A → B → Z) l k :
  csum (λ x, csum (f x) k) l = csum (λ y, csum (λ x, f x y) l) k.
Proof.
  induction l as [|x l IH]; simpl; [by rewrite csum_zero|]. by rewrite IH, csum_add.
Qed.

Section puttest.
Context {St : Type} `{KVServiceLaws St}.
Context (enc : EntryV → string) (dec : string → option EntryV).
Context (key : string) (nclnt : nat) (reliable : bool).

Definition one_args (me : nat) (ver : Tversion) : PutArgs :=
  mkPutArgs key (enc (mkEntryV (Z.of_nat me) ver)) ver.

Record PutSys := mkPutSys {
  pt_srv : St;
  pt_clients : nat → PutClient;
  pt_flight : list PutArgs
}.

Definition pt_set (s : PutSys) (i : nat) (c : PutClient) : PutSys :=
  mkPutSys (pt_srv s) (<[i := c]> (pt_clients s)) (pt_flight s).

Definition pt_read (s : PutSys) : outcome (Tversion * EntryV) :=
  GetJson dec (svc_get (pt_srv s) (mkGetArgs key) zero_GetReply).

Inductive pt_step : PutSys → PutSys → Prop :=
  | pt_start s i :
      (i < nclnt)%nat → pc_pc (pt_clients s i) = PtTop →
      pt_step s (pt_set s i (put_at (pt_clients s i) (PtPut (pc_verm (pt_clients s i)) 0)))
  | pt_done s i :
      (i < nclnt)%nat → pc_pc (pt_clients s i) = PtTop →
      pt_step s (pt_set s i (put_at (pt_clients s i) PtDone))
  | pt_lost s i ver n :
      reliable = false → (i < nclnt)%nat → pc_pc (pt_clients s i) = PtPut ver n →
      pt_step s (mkPutSys (pt_srv s) (<[i := put_at (pt_clients s i) (PtPut ver (n + 1))]> (pt_clients s))
                   (one_args i ver :: pt_flight s))
  | pt_late s a srv reply :
      a ∈ pt_flight s → svc_put (pt_srv s) a zero_PutReply = Ret (srv, reply) →
      pt_step s (mkPutSys srv (pt_clients s) (pt_flight s))
  | pt_reply s i ver n srv reply :
      (i < nclnt)%nat → pc_pc (pt_clients s i) = PtPut ver n →
      svc_put (pt_srv s) (one_args i ver) zero_PutReply = Ret (srv, reply) →
      let pc := OnePut_after_Put ver (Clerk_Put_err (PutReply_Err reply) (n + 1)) in
      pt_step s (mkPutSys srv (<[i := put_at (pt_clients s i) pc]> (pt_clients s)) (pt_flight s))
  | pt_get s i ver err :
      (i < nclnt)%nat → pc_pc (pt_clients s i) = PtGet ver err →
      pt_step s (pt_set s i (OnePut_after_Get (Z.of_nat i) (pt_clients s i) ver err (pt_read s)))
  | pt_other s a srv reply :
      PutArgs_Key a ≠ key → svc_put (pt_srv s) a zero_PutReply = Ret (srv, reply) →
      pt_step s (mkPutSys srv (pt_clients s) (pt_flight s)).

(** The key is missing and every client is at the top of its loop with version 0. *)
Definition pt_init (s : PutSys) : Prop :=
  svc_entry (pt_srv s) key = None ∧ (∀ i, pt_clients s i = mkPutClient PtTop 0 0 0) ∧
  pt_flight s = [].

Definition pt_results (s : PutSys) : list ClntRes :=
  (λ i, put_result (pt_clients s i)) <$> seq 0 nclnt.

(** ** The invariant *)

(** The entry of the key after Puts of the clients [owner], the last one last. *)
Definition entry_of (owner : list nat) : option Entry :=
  i ← last owner;
  Some (mkEntry (enc (mkEntryV (Z.of_nat i) (len owner - 1))) (len owner)).

(** What client [i] knows; its counters bound the number of its Puts in [owner]. *)
Definition pc_inv (i : nat) (c : PutClient) (owner : list nat) : Prop :=
  match pc_pc c with
  | PtTop | PtDone => pc_nok c ≤ occ i owner ≤ pc_nok c + pc_nmay c
  | PtPut ver n =>
      0 ≤ n ∧ 0 ≤ ver ≤ len owner ∧ pc_nok c ≤ occ i owner ≤ pc_nok c + pc_nmay c + 1 ∧
      (occ i owner = pc_nok c + pc_nmay c + 1 → ver < len owner ∧ 1 ≤ n) ∧
      (reliable = true → n = 0)
  | PtGet ver err =>
      0 ≤ ver < len owner ∧
      (err = OK ∧ pc_nok c + 1 ≤ occ i owner ≤ pc_nok c + pc_nmay c + 1 ∧
         (len owner = ver + 1 → last owner = Some i) ∨
       err = ErrVersion ∧ pc_nok c ≤ occ i owner ≤ pc_nok c + pc_nmay c ∨
       err = ErrMaybe ∧ reliable = false ∧ pc_nok c ≤ occ i owner ≤ pc_nok c + pc_nmay c + 1)
  | PtFatal _ => False
  end.

Record put_client_inv (i : nat) (c : PutClient) (owner : list nat) : Prop := {
  pci_counts : 0 ≤ pc_nok c ∧ 0 ≤ pc_nmay c;
  pci_verm : 0 ≤ pc_verm c ≤ len owner;
  pci_some : 1 ≤ pc_nok c + pc_nmay c → 1 ≤ len owner;
  pci_reliable : reliable = true → pc_nmay c = 0;
  pci_pc : pc_inv i c owner
}.

Definition pt_waiting (clients : nat → PutClient) (a : PutArgs) : Prop :=
  ∃ i ver n, (i < nclnt)%nat ∧ pc_pc (clients i) = PtPut ver n ∧ a = one_args i ver ∧ 1 ≤ n.

Record pt_inv (s : PutSys) (owner : list nat) : Prop := {
  pti_entry : svc_entry (pt_srv s) key = entry_of owner;
  pti_owner : Forall (λ i, (i < nclnt)%nat) owner;
  pti_client i : put_client_inv i (pt_clients s i) owner;
  pti_flight a : a ∈ pt_flight s → PutArgs_Key a = key →
    PutArgs_Version a < len owner ∨ pt_waiting (pt_clients s) a;
  pti_reliable : reliable = true → pt_flight s = []
}.

Lemma entry_of_ver owner : entry_ver (entry_of owner) = len owner.
Proof. unfold entry_of. destruct owner as [|i l] using rev_ind; [done|]. by rewrite last_snoc. Qed.

Lemma entry_of_snoc owner i :
  entry_of (owner ++ [i]) = Some (mkEntry (enc (mkEntryV (Z.of_nat i) (len owner))) (len owner + 1)).
Proof.
  unfold entry_of. rewrite last_snoc, length_app. simpl. do 3 f_equal; [|lia]. f_equal. lia.
Qed.

Lemma occ_snoc (i j : nat) owner : occ i (owner ++ [j]) = occ i owner + (if decide (j = i) then 1 else 0).
Proof. rewrite occ_app, occ_cons. unfold occ at 2. simpl. case_decide; lia. Qed.

Lemma len_snoc (owner : list nat) i : len (owner ++ [i]) = len owner + 1.
Proof. rewrite length_app. simpl. lia. Qed.

(** Another client's Put takes effect. *)
Lemma put_client_other i j c owner :
  i ≠ j → put_client_inv j c owner → put_client_inv j c (owner ++ [i]).
Proof.
  intros Hne [H1 H2 H3 H4 H5]. split; rewrite ?len_snoc; [done|lia|lia|done|].
  unfold pc_inv in *. rewrite occ_snoc, decide_False, len_snoc, Z.add_0_r by done.
  destruct (pc_pc c) as [|ver n|ver err| |]; [done| | |done|done].
  - destruct H5 as (?&?&?&Ho&?). split_and!; [lia..| |done]. intros [??]%Ho. split; [lia|done].
  - destruct H5 as (Hv & Hc). split; [lia|]. destruct Hc as [(?&?&_)|Hc]; [left|by right].
    split_and!; [done|lia|lia|lia].
Qed.

Lemma pt_exec s owner a srv reply :
  pt_inv s owner → len owner + 1 < 2 ^ 64 → PutArgs_Key a = key →
  svc_put (pt_srv s) a zero_PutReply = Ret (srv, reply) →
  (PutReply_Err reply = OK ∧ PutArgs_Version a = len owner ∧
     svc_entry srv key = Some (mkEntry (PutArgs_Value a) (len owner + 1))) ∨
  (PutArgs_Version a ≠ len owner ∧ svc_entry srv key = entry_of owner ∧
     (0 < len owner → PutReply_Err reply = ErrVersion)).
Proof.
  intros Hi Hb Hk Hp. destruct (svc_put_entry (pt_srv s) a zero_PutReply) as (s1 & Hp' & He).
  rewrite Hp in Hp'. injection Hp' as <- ->. specialize (He key). unfold put_entry in He.
  rewrite Hk, (pti_entry _ _ Hi), entry_of_ver in *. unfold put_err. simpl.
  rewrite entry_of_ver. destruct (decide (PutArgs_Version a = len owner)) as [Hv|Hv].
  - left. rewrite bool_decide_eq_true_2 by done. rewrite decide_True in He by done.
    rewrite He, u64_wrap_small by (unfold is_u64; lia). by rewrite Hv.
  - right. rewrite decide_False in He by naive_solver. rewrite bool_decide_eq_false_2 by done.
    split_and!; [done|done|]. intros Hpos. unfold entry_of.
    destruct owner as [|i l _] using rev_ind; [done|]. by rewrite last_snoc.
Qed.

(** Client [i] moves and no Put takes effect. *)
Lemma pt_move s owner srv i c flight :
  pt_inv s owner → svc_entry srv key = svc_entry (pt_srv s) key → (i < nclnt)%nat →
  put_client_inv i c owner →
  (∀ ver n, pc_pc (pt_clients s i) = PtPut ver n → 1 ≤ n →
     ver < len owner ∨ ∃ n', pc_pc c = PtPut ver n' ∧ 1 ≤ n') →
  (∀ a, a ∈ flight → a ∈ pt_flight s ∨
     ∃ ver n, pc_pc c = PtPut ver n ∧ a = one_args i ver ∧ 1 ≤ n) →
  (reliable = true → flight = []) →
  pt_inv (mkPutSys srv (<[i := c]> (pt_clients s)) flight) owner.
Proof.
  intros [H1 H2 H3 H4 H5] He Hi Hc Hpend Hf Hr. split; simpl; [congruence|done| | |done].
  - intros j. destruct (decide (i = j)) as [<-|Hne]; [by rewrite fn_lookup_insert|].
    by rewrite fn_lookup_insert_ne.
  - intros a Ha Hk. destruct (Hf a Ha) as [Ha'|(ver & n & Hpc & -> & Hn)].
    + destruct (H4 a Ha' Hk) as [?|(j & ver & n & Hj & Hpc & -> & Hn)]; [by left|].
      destruct (decide (i = j)) as [<-|Hne].
      * destruct (Hpend ver n Hpc Hn) as [?|(n' & ? & ?)]; [by left|]. right.
        exists i, ver, n'. by rewrite fn_lookup_insert.
      * right. exists j, ver, n. by rewrite fn_lookup_insert_ne.
    + right. exists i, ver, n. by rewrite fn_lookup_insert.
Qed.

(** A Put of client [i] takes effect. *)
Lemma pt_effect s owner srv i clients :
  pt_inv s owner → (i < nclnt)%nat →
  svc_entry srv key = Some (mkEntry (enc (mkEntryV (Z.of_nat i) (len owner))) (len owner + 1)) →
  (∀ j, i ≠ j → clients j = pt_clients s j) → put_client_inv i (clients i) (owner ++ [i]) →
  pt_inv (mkPutSys srv clients (pt_flight s)) (owner ++ [i]).
Proof.
  intros [H1 H2 H3 H4 H5] Hi He Hcl Hc. split; simpl; [| | | |done].
  - by rewrite entry_of_snoc.
  - apply Forall_app. split; [done|]. by constructor.
  - intros j. destruct (decide (i = j)) as [<-|Hne]; [done|]. rewrite Hcl by done.
    by apply put_client_other.
  - intros a Ha Hk. rewrite len_snoc.
    destruct (H4 a Ha Hk) as [?|(j & ver & n & Hj & Hpc & -> & Hn)]; [left; lia|].
    destruct (decide (i = j)) as [<-|Hne].
    + left. simpl. pose proof (pci_pc _ _ _ (H3 i)) as Hp. unfold pc_inv in Hp. rewrite Hpc in Hp. lia.
    + right. exists j, ver, n. by rewrite Hcl.
Qed.

(** A call that comes late is executed. *)
Lemma pt_late_inv s owner a srv reply :
  pt_inv s owner → len owner + 1 < 2 ^ 64 → a ∈ pt_flight s →
  svc_put (pt_srv s) a zero_PutReply = Ret (srv, reply) →
  ∃ owner', pt_inv (mkPutSys srv (pt_clients s) (pt_flight s)) owner' ∧ len owner' ≤ len owner + 1.
Proof.
  intros Hi Hb Ha Hp.
  assert (Hsame : svc_entry srv key = svc_entry (pt_srv s) key →
    ∃ owner', pt_inv (mkPutSys srv (pt_clients s) (pt_flight s)) owner' ∧ len owner' ≤ len owner + 1).
  { intros He. exists owner. split; [|lia]. destruct Hi as [H1 H2 H3 H4 H5].
    split; simpl; [congruence|done..]. }
  destruct (decide (PutArgs_Key a = key)) as [Hk|Hk]; [|apply Hsame; by eapply svc_put_other].
  destruct (pt_exec _ _ _ _ _ Hi Hb Hk Hp) as [(_ & Hv & He)|(_ & He & _)].
  2: { apply Hsame. by rewrite (pti_entry _ _ Hi). }
  destruct (pti_flight _ _ Hi a Ha Hk) as [?|(i & ver & n & Hin & Hpc & -> & Hn)]; [lia|].
  simpl in Hv, He. subst ver. exists (owner ++ [i]). split; [|rewrite len_snoc; lia].
  apply pt_effect; [done..|]. destruct (pti_client _ _ Hi i) as [C1 C2 C3 C4 C5].
  split; rewrite ?len_snoc; [done|lia|lia|done|]. unfold pc_inv in *. rewrite Hpc in *.
  rewrite occ_snoc, decide_True, len_snoc by done. destruct C5 as (?&?&?&Ho&?).
  assert (occ i owner ≠ pc_nok (pt_clients s i) + pc_nmay (pt_clients s i) + 1) by (intros [? _]%Ho; lia).
  split_and!; [lia..| |done]. intros _. lia.
Qed.

(** The call that is answered. *)
Lemma pt_reply_inv s owner i ver n srv reply :
  pt_inv s owner → len owner + 1 < 2 ^ 64 → (i < nclnt)%nat →
  pc_pc (pt_clients s i) = PtPut ver n →
  svc_put (pt_srv s) (one_args i ver) zero_PutReply = Ret (srv, reply) →
  let pc := OnePut_after_Put ver (Clerk_Put_err (PutReply_Err reply) (n + 1)) in
  ∃ owner', pt_inv (mkPutSys srv (<[i := put_at (pt_clients s i) pc]> (pt_clients s)) (pt_flight s))
      owner' ∧ len owner' ≤ len owner + 1.
Proof.
  intros Hi Hb Hin Hpc Hp pc. destruct (pti_client _ _ Hi i) as [C1 C2 C3 C4 C5].
  pose proof C5 as C5'. unfold pc_inv in C5'. rewrite Hpc in C5'. destruct C5' as (Hn & Hv & Ho & Hnow & Hrel).
  destruct (pt_exec s owner (one_args i ver) srv reply Hi Hb eq_refl Hp) as [(He & Hver & Hst)|(Hne & Hst & He)]; simpl in *.
  - exists (owner ++ [i]). split; [|rewrite len_snoc; lia]. subst ver.
    assert (Hpc' : pc = PtGet (len owner) OK) by (unfold pc; by rewrite He).
    apply pt_effect; [done..|intros j ?; by rewrite fn_lookup_insert_ne|]. rewrite fn_lookup_insert.
    assert (occ i owner ≠ pc_nok (pt_clients s i) + pc_nmay (pt_clients s i) + 1) by (intros [? _]%Hnow; lia).
    split; rewrite ?len_snoc; simpl; [done|lia|lia|done|]. unfold pc_inv. simpl. rewrite Hpc'.
    rewrite occ_snoc, decide_True, len_snoc by done. split; [lia|]. left.
    split_and!; [done|lia|lia|]. intros _. by rewrite last_snoc.
  - assert (Hlt : ver < len owner) by lia. exists owner. split; [|lia].
    assert (Hpc' : pc = OnePut_after_Put ver (Clerk_Put_err ErrVersion (n + 1))).
    { unfold pc. by rewrite He by lia. }
    apply pt_move; [done|by rewrite (pti_entry _ _ Hi)|done| |by rewrite Hpc; intros ?? [= <- _]; left|auto|apply Hi].
    split; simpl; [done..|]. unfold pc_inv. simpl. rewrite Hpc'.
    unfold OnePut_after_Put, Clerk_Put_err. simpl.
    destruct (decide (n = 0)) as [->|Hn0].
    + simpl. split; [lia|]. right; left. split; [done|]. lia.
    + rewrite (bool_decide_eq_true_2 (1 < n + 1)) by lia. simpl. split; [lia|]. right; right.
      split_and!; [done| |lia..]. destruct reliable; [|done]. by destruct Hn0, Hrel.
Qed.

Context (Hdec : ∀ e, dec (enc e) = Some e).

Lemma pt_read_last s owner i :
  pt_inv s owner → last owner = Some i →
  pt_read s = Ret (len owner, mkEntryV (Z.of_nat i) (len owner - 1)).
Proof.
  intros Hi Hl. unfold pt_read, GetJson. pose proof (pti_entry _ _ Hi) as He.
  unfold entry_of in He. rewrite Hl in He. simpl in He. rewrite (svc_get_present _ _ _ He). simpl.
  by rewrite Hdec.
Qed.

(** [OnePut] reads the key back: no check fails. *)
Lemma pt_get_inv s owner i ver err :
  pt_inv s owner → len owner < 2 ^ 64 → (i < nclnt)%nat → pc_pc (pt_clients s i) = PtGet ver err →
  pt_inv (pt_set s i (OnePut_after_Get (Z.of_nat i) (pt_clients s i) ver err (pt_read s))) owner.
Proof.
  intros Hi Hb Hin Hpc. destruct (pti_client _ _ Hi i) as [C1 C2 C3 C4 C5].
  unfold pc_inv in C5. rewrite Hpc in C5. destruct C5 as [Hv Hc].
  destruct (last owner) as [j|] eqn:El; [|apply last_None in El; subst; simpl in Hv; lia].
  rewrite (pt_read_last _ _ j Hi El). unfold OnePut_after_Get. simpl.
  assert (Hcheck : OnePut_check (Z.of_nat i) ver err (len owner)
    (mkEntryV (Z.of_nat j) (len owner - 1)) = Ret tt).
  { unfold OnePut_check. case_bool_decide as Hok; [|done]. destruct Hok as [-> Hok].
    rewrite u64_wrap_small in Hok by (unfold is_u64; lia).
    destruct Hc as [(_&_&Hl)|[[? _]|[? _]]]; [|done..]. apply Hl in Hok. simplify_eq.
    rewrite bool_decide_eq_false_2; [done|]. simpl. tauto. }
  rewrite Hcheck. simpl.
  apply pt_move; [done|done|done| |by rewrite Hpc|auto|apply Hi].
  destruct Hc as [(->&?&_)|[(->&?)|(->&Hr&?)]]; simpl; split; simpl; try done; try lia;
    unfold pc_inv; simpl; try lia. congruence.
Qed.

Lemma pt_step_inv s s' owner :
  pt_step s s' → pt_inv s owner → len owner + 1 < 2 ^ 64 →
  ∃ owner', pt_inv s' owner' ∧ len owner' ≤ len owner + 1.
Proof.
  intros Hstep Hi Hb. pose proof (pti_client _ _ Hi) as Hc.
  destruct Hstep as [s i Hin Hpc|s i Hin Hpc|s i ver n Hr Hin Hpc|s a srv reply Ha Hp|
    s i ver n srv reply Hin Hpc Hp pc|s i ver err Hin Hpc|s a srv reply Hk Hp].
  - exists owner. split; [|lia].
    apply pt_move; [done|done|done| |by rewrite Hpc|auto|apply Hi].
    destruct (Hc i) as [C1 C2 C3 C4 C5]. split; try done. unfold pc_inv in *. rewrite Hpc in C5. simpl.
    split_and!; [lia..| |done]. lia.
  - exists owner. split; [|lia].
    apply pt_move; [done|done|done| |by rewrite Hpc|auto|apply Hi].
    destruct (Hc i) as [C1 C2 C3 C4 C5]. split; try done. unfold pc_inv in *. by rewrite Hpc in C5.
  - exists owner. split; [|lia].
    destruct (Hc i) as [C1 C2 C3 C4 C5]. unfold pc_inv in C5. rewrite Hpc in C5.
    destruct C5 as (?&?&?&Ho&?).
    apply pt_move; [done|done|done| | | |by rewrite Hr].
    + split; try done. unfold pc_inv. simpl. split_and!; [lia..| |by rewrite Hr].
      intros [??]%Ho. lia.
    + rewrite Hpc. intros ?? [= <- <-] _. right. exists (n + 1). split; [done|lia].
    + intros a [->|Ha]%elem_of_cons; [right|by left]. exists ver, (n + 1). split_and!; [done..|lia].
  - by eapply pt_late_inv.
  - by eapply pt_reply_inv.
  - exists owner. split; [|lia]. apply pt_get_inv; [done|lia|done..].
  - exists owner. split; [|lia]. apply (svc_put_other _ _ _ _ _ _ Hp) in Hk.
    destruct Hi as [H1 H2 H3 H4 H5]. split; simpl; [congruence|done..].
Qed.

Lemma pt_reachable m s0 s :
  pt_init s0 → nsteps pt_step m s0 s → Z.of_nat m < 2 ^ 62 →
  ∃ owner, pt_inv s owner ∧ len owner ≤ Z.of_nat m.
Proof.
  intros (He & Hc & Hf) Hs Hm.
  apply (nsteps_invariant pt_step (λ m s, ∃ owner, pt_inv s owner ∧ len owner ≤ Z.of_nat m) m s0 s);
    [| |done].
  - exists []. split; [|done]. split; [done|constructor| |rewrite Hf; set_solver|done].
    intros i. rewrite Hc. by split.
  - intros k x y Hk (owner & Hi & Hl) Hxy.
    destruct (pt_step_inv x y owner Hxy Hi) as (owner' & ? & ?); [lia|]. exists owner'.
    split; [done|lia].
Qed.

(** A client finishes at most one Put in a step. *)
Lemma pt_step_counts s s' i :
  pt_step s s' →
  pc_nok (pt_clients s' i) + pc_nmay (pt_clients s' i) ≤
    pc_nok (pt_clients s i) + pc_nmay (pt_clients s i) + 1.
Proof.
  assert (Hset : ∀ j c, pc_nok c + pc_nmay c ≤ pc_nok (pt_clients s j) + pc_nmay (pt_clients s j) + 1 →
    pc_nok (<[j := c]> (pt_clients s) i) + pc_nmay (<[j := c]> (pt_clients s) i) ≤
    pc_nok (pt_clients s i) + pc_nmay (pt_clients s i) + 1).
  { intros j c Hc. destruct (decide (j = i)) as [->|Hne].
    - by rewrite fn_lookup_insert.
    - rewrite fn_lookup_insert_ne by done. lia. }
  destruct 1 as [s j|s j|s j|s|s j|s j ver err|s]; simpl; try lia; apply Hset; simpl; try lia.
  unfold OnePut_after_Get. destruct (_ ≫= _); simpl; [|lia..]. repeat case_bool_decide; simpl; lia.
Qed.

Lemma pt_counts_bound m s0 s i :
  pt_init s0 → nsteps pt_step m s0 s →
  pc_nok (pt_clients s i) + pc_nmay (pt_clients s i) ≤ Z.of_nat m.
Proof.
  intros (_ & Hc & _) Hs. apply (nsteps_invariant pt_step
    (λ m s, pc_nok (pt_clients s i) + pc_nmay (pt_clients s i) ≤ Z.of_nat m) m s0 s); [|  |done].
  - by rewrite Hc.
  - intros k x y _ Hk Hxy. pose proof (pt_step_counts x y i Hxy). lia.
Qed.

(** ** The check at the end *)

Lemma add_results_csum (f : nat → ClntRes) res l :
  add_results res (f <$> l) =
    mkClntRes (Nok res + csum (λ i, Nok (f i)) l) (Nmaybe res + csum (λ i, Nmaybe (f i)) l).
Proof.
  revert res. induction l as [|i l IH]; intros [a b]; unfold add_results in *; csimpl.
  - by rewrite !Z.add_0_r.
  - rewrite IH. simpl. f_equal; lia.
Qed.

(** The clients' counters bound the number of Puts; they are exact on a reliable network. *)
Lemma pt_counts s owner :
  pt_inv s owner → (∀ i, (i < nclnt)%nat → pc_pc (pt_clients s i) = PtDone) →
  let res := add_results (mkClntRes 0 0) (pt_results s) in
  Nok res ≤ len owner ≤ Nok res + Nmaybe res ∧ (reliable = true → Nmaybe res = 0).
Proof.
  intros Hi Hd. unfold pt_results. cbv zeta. rewrite add_results_csum. simpl. rewrite !Z.add_0_l.
  assert (Hocc : len owner = csum (λ i, occ i owner) (seq 0 nclnt)).
  { symmetry. apply csum_occ; [apply NoDup_seq|]. eapply Forall_impl; [apply Hi|].
    intros i Hin. simpl in Hin. apply elem_of_seq. lia. }
  assert (Hc : ∀ i, i ∈ seq 0 nclnt → pc_nok (pt_clients s i) ≤ occ i owner ≤
    pc_nok (pt_clients s i) + pc_nmay (pt_clients s i)).
  { intros i Hin%elem_of_seq. pose proof (pci_pc _ _ _ (pti_client _ _ Hi i)) as Hp.
    unfold pc_inv in Hp. by rewrite Hd in Hp by lia. }
  rewrite Hocc, <- csum_add. split.
  - split; apply csum_le; intros i Hin; apply Hc in Hin; simpl; lia.
  - intros Hr. clear -Hi Hr. induction (seq 0 nclnt) as [|i l IH]; simpl; [done|].
    rewrite IH. by rewrite (pci_reliable _ _ _ (pti_client _ _ Hi i) Hr).
Qed.

Lemma pt_results_bound m s0 s :
  pt_init s0 → nsteps pt_step m s0 s →
  let res := add_results (mkClntRes 0 0) (pt_results s) in
  Nok res + Nmaybe res ≤ Z.of_nat nclnt * Z.of_nat m.
Proof.
  intros H0' Hs. unfold pt_results. cbv zeta. rewrite add_results_csum. simpl. rewrite !Z.add_0_l, <- csum_add.
  rewrite <- (length_seq nclnt 0) at 2. apply csum_bound. intros i _. by eapply pt_counts_bound.
Qed.

(** C7: the concurrent Put test raises no false alarm. Whatever calls are lost, repeated or
    delayed, no client fails in [OnePut]; and once all clients have returned, one of them
    after a Put, [CheckPutConcurrent] accepts the version of the key: it lies between the
    number of Puts answered [OK] and that number plus the doubtful ones, and is exact on a
    reliable network. *)
Theorem CheckPutConcurrent_accepts m s0 s :
  pt_init s0 → nsteps pt_step m s0 s → (Z.of_nat nclnt + 1) * Z.of_nat m < 2 ^ 62 →
  (∀ i msg, pc_pc (pt_clients s i) ≠ PtFatal msg) ∧
  ((∀ i, (i < nclnt)%nat → pc_pc (pt_clients s i) = PtDone) →
   (∃ i, 1 ≤ pc_nok (pt_clients s i) + pc_nmay (pt_clients s i)) →
   ∃ res, CheckPutConcurrent (pt_read s) (pt_results s) (mkClntRes 0 0) reliable = Ret res ∧
     Nok res ≤ svc_ver (pt_srv s) key ≤ Nok res + Nmaybe res).
Proof.
  intros H0' Hs Hm. destruct (pt_reachable m s0 s H0' Hs ltac:(lia)) as (owner & Hi & Hl). split.
  - intros i msg Hpc. pose proof (pci_pc _ _ _ (pti_client _ _ Hi i)) as Hp. unfold pc_inv in Hp.
    by rewrite Hpc in Hp.
  - intros Hd [i Hsome]. pose proof (pci_some _ _ _ (pti_client _ _ Hi i) Hsome) as Hpos.
    destruct (last owner) as [j|] eqn:El; [|apply last_None in El; subst; simpl in Hpos; lia].
    destruct (pt_counts s owner Hi Hd) as [Hcount Hrel]. unfold CheckPutConcurrent.
    rewrite (pt_read_last _ _ j Hi El). simpl.
    set (res := add_results (mkClntRes 0 0) (pt_results s)) in *. exists res.
    unfold svc_ver. rewrite (pti_entry _ _ Hi), entry_of_ver. split; [|done].
    destruct reliable.
    + rewrite bool_decide_eq_false_2; [done|]. rewrite u64_wrap_small by (unfold is_u64; lia).
      specialize (Hrel eq_refl). lia.
    + rewrite bool_decide_eq_false_2; [done|]. rewrite u64_wrap_small; [lia|].
      pose proof (pt_results_bound m s0 s H0' Hs) as Hb. fold res in Hb. cbv zeta in Hb.
      unfold is_u64. lia.
Qed.

End puttest.

(** ** An example run *)

#[export] Instance EntryV_eq_dec : EqDecision EntryV.
Proof. solve_decision. Defined.

#[export] Instance EntryV_countable : Countable EntryV.
Proof. apply (inj_countable' (λ e, (ev_Id e, ev_V e)) (λ p, mkEntryV p.1 p.2)). by intros []. Defined.

Definition pt_ex : PutSys (St := KVServer) :=
  mkPutSys MakeKVServer (λ _, mkPutClient PtTop 0 0 0) [].

(** Client 0 puts once, its first call being lost and executed late. *)
Lemma pt_ex_run :
  ∃ s, nsteps (pt_step bits_enc bits_dec "k" 1 false) 6 pt_ex s ∧
    (∀ i, (i < 1)%nat → pc_pc (pt_clients s i) = PtDone) ∧
    pc_nok (pt_clients s 0%nat) + pc_nmay (pt_clients s 0%nat) = 1.
Proof.
  set (a := one_args bits_enc "k" 0 0). eexists. split.
  - eapply nsteps_l; [by apply (pt_start _ _ _ _ _ _ 0); [lia|]|]. simpl.
    eapply nsteps_l; [by apply (pt_lost _ _ _ _ _ _ 0 0 0); [done|lia|]|]. simpl.
    eapply nsteps_l; [eapply (pt_late _ _ _ _ _ _ a); [left|reflexivity]|]. simpl.
    eapply nsteps_l; [eapply (pt_reply _ _ _ _ _ _ 0 0 1); [lia|done|reflexivity]|]. simpl.
    eapply nsteps_l; [by eapply (pt_get _ _ _ _ _ _ 0); [lia|]|].
    eapply nsteps_l; [apply (pt_done _ _ _ _ _ _ 0); [lia|vm_compute; reflexivity]|]. apply nsteps_O.
  - split; [|vm_compute; reflexivity]. intros [|i]; [intros _; vm_compute; reflexivity|lia].
Qed.

Lemma CheckPutConcurrent_accepts_witness :
  ∃ s res, nsteps (pt_step bits_enc bits_dec "k" 1 false) 6 pt_ex s ∧
    CheckPutConcurrent (pt_read bits_dec "k" s) (pt_results 1 s) (mkClntRes 0 0) false = Ret res.
Proof.
  destruct pt_ex_run as (s & Hs & Hd & Hmay).
  destruct (CheckPutConcurrent_accepts bits_enc bits_dec "k" 1 false bits_dec_enc 6 pt_ex s)
    as [_ Hc]; [by split_and!|done|reflexivity|].
  destruct Hc as (res & Hres & _); [done| |by exists s, res].
  exists 0%nat. by rewrite Hmay.
Defined.
