(* ===== verification/RandKeys.v ===== *)
(** * Concurrent Puts of several keys ([kvtest1/kvtest.go])

    [OneClientPut] with [randomkeys]: before each [OnePut] a client draws one of its keys, and it
    remembers a version for each. To an observer of a single key the run is a run of PutTest.v
    in which the work on the other keys is done by strangers; so no client fails, and the
    versions of all keys together lie between the clients' counters. *)

From S2P Require Export PutTest.

Local Open Scope Z_scope.

#[export] Instance PutPC_eq_dec : EqDecision PutPC.
Proof. solve_decision. Defined.

(** The locals of [OneClientPut] and where it is; [kc_key] is the key of the current [OnePut]. *)
Record KeysClient := mkKeysClient {
  kc_pc : PutPC;
  kc_key : string;
  kc_verm : gmap string Tversion;
  kc_nok : Z;
  kc_nmay : Z
}.

Definition keys_at (c : KeysClient) (pc : PutPC) : KeysClient :=
  mkKeysClient pc (kc_key c) (kc_verm c) (kc_nok c) (kc_nmay c).

(** [for _, k := range ka { verm[k] = rpc.Tversion(0) }] *)
Definition verm_init (ka : list string) : gmap string Tversion :=
  foldl (λ verm k, <[k := 0]> verm) ∅ ka.

(** [k := ka[0]], and with [randomkeys] the key that is drawn. *)
Definition pick_key (randomkeys : bool) (ka : list string) (rnd : Z) : outcome string :=
  k ← index ka 0;
  if randomkeys then index ka (Z.to_nat (Z.rem rnd (len ka))) else Ret k.

(** [OnePut] is called on [verm[k]]. *)
Definition keys_start (c : KeysClient) (picked : outcome string) : KeysClient :=
  match picked with
  | Ret k => mkKeysClient (PtPut (map_get 0 (kc_verm c) k) 0) k (kc_verm c) (kc_nok c) (kc_nmay c)
  | Panic msg | Fatal msg => keys_at c (PtFatal msg)
  end.

(** The client as [OnePut] and the counting see it, and what they leave. *)
Definition keys_view (c : KeysClient) : PutClient :=
  mkPutClient (kc_pc c) (map_get 0 (kc_verm c) (kc_key c)) (kc_nok c) (kc_nmay c).

Definition keys_after_Get (me : Z) (c : KeysClient) (ver : Tversion) (err : Err)
    (got : outcome (Tversion * EntryV)) : KeysClient :=
  let v := OnePut_after_Get me (keys_view c) ver err got in
  mkKeysClient (pc_pc v) (kc_key c) (<[kc_key c := pc_verm v]> (kc_verm c)) (pc_nok v) (pc_nmay v).

Section randkeys.
Context {St : Type} `{KVServiceLaws St}.
Context (enc : EntryV → string) (dec : string → option EntryV).
Context (ka : list string) (nclnt : nat) (reliable randomkeys : bool).

(** [ks_done] records, for the statements, which [OnePut]s have returned: the client, the key,
    and whether the answer was [OK]. *)
Record KeysSys := mkKeysSys {
  ks_srv : St;
  ks_clients : nat → KeysClient;
  ks_flight : list PutArgs;
  ks_done : list (nat * string * bool)
}.

Definition ks_set (s : KeysSys) (i : nat) (c : KeysClient) : KeysSys :=
  mkKeysSys (ks_srv s) (<[i := c]> (ks_clients s)) (ks_flight s) (ks_done s).

Definition ks_read (s : KeysSys) (k : string) : outcome (Tversion * EntryV) :=
  GetJson dec (svc_get (ks_srv s) (mkGetArgs k) zero_GetReply).

Definition finished (i : nat) (c : KeysClient) (err : Err) : list (nat * string * bool) :=
  match kc_pc c with PtTop => [(i, kc_key c, bool_decide (err = OK))] | _ => [] end.

Inductive keys_step : KeysSys → KeysSys → Prop :=
  | ks_start s i rnd :
      (i < nclnt)%nat → kc_pc (ks_clients s i) = PtTop → 0 ≤ rnd →
      keys_step s (ks_set s i (keys_start (ks_clients s i) (pick_key randomkeys ka rnd)))
  | ks_stop s i :
      (i < nclnt)%nat → kc_pc (ks_clients s i) = PtTop →
      keys_step s (ks_set s i (keys_at (ks_clients s i) PtDone))
  | ks_lost s i ver n :
      reliable = false → (i < nclnt)%nat → kc_pc (ks_clients s i) = PtPut ver n →
      keys_step s
        (mkKeysSys (ks_srv s) (<[i := keys_at (ks_clients s i) (PtPut ver (n + 1))]> (ks_clients s))
           (one_args enc (kc_key (ks_clients s i)) i ver :: ks_flight s) (ks_done s))
  | ks_late s a srv reply :
      a ∈ ks_flight s → svc_put (ks_srv s) a zero_PutReply = Ret (srv, reply) →
      keys_step s (mkKeysSys srv (ks_clients s) (ks_flight s) (ks_done s))
  | ks_reply s i ver n srv reply :
      (i < nclnt)%nat → kc_pc (ks_clients s i) = PtPut ver n →
      svc_put (ks_srv s) (one_args enc (kc_key (ks_clients s i)) i ver) zero_PutReply = Ret (srv, reply) →
      let pc := OnePut_after_Put ver (Clerk_Put_err (PutReply_Err reply) (n + 1)) in
      keys_step s (mkKeysSys srv (<[i := keys_at (ks_clients s i) pc]> (ks_clients s)) (ks_flight s)
                     (ks_done s))
  | ks_get s i ver err :
      (i < nclnt)%nat → kc_pc (ks_clients s i) = PtGet ver err →
      let c := keys_after_Get (Z.of_nat i) (ks_clients s i) ver err
                 (ks_read s (kc_key (ks_clients s i))) in
      keys_step s (mkKeysSys (ks_srv s) (<[i := c]> (ks_clients s)) (ks_flight s)
                     (ks_done s ++ finished i c err))
  | ks_other s a srv reply :
      PutArgs_Key a ∉ ka → svc_put (ks_srv s) a zero_PutReply = Ret (srv, reply) →
      keys_step s (mkKeysSys srv (ks_clients s) (ks_flight s) (ks_done s)).

(** The keys are missing and every client is at the top of its loop. *)
Definition keys_init (s : KeysSys) : Prop :=
  (∀ k, k ∈ ka → svc_entry (ks_srv s) k = None) ∧
  (∀ i, ks_clients s i = mkKeysClient PtTop "" (verm_init ka) 0 0) ∧
  ks_flight s = [] ∧ ks_done s = [].

Definition keys_result (c : KeysClient) : ClntRes := mkClntRes (kc_nok c) (kc_nmay c).

Definition keys_results (s : KeysSys) : list ClntRes :=
  (λ i, keys_result (ks_clients s i)) <$> seq 0 nclnt.

(** ** One key of the run *)

(** What an observer of [k] sees of a client: at the top while it works on another key. *)
Definition proj_pc (k : string) (c : KeysClient) : PutPC :=
  match kc_pc c with
  | PtDone => PtDone
  | pc => if decide (kc_key c = k) then pc else PtTop
  end.

Definition proj_client (k : string) (dn : list (nat * string * bool)) (i : nat) (c : KeysClient)
    : PutClient :=
  mkPutClient (proj_pc k c) (map_get 0 (kc_verm c) k) (occ (i, k, true) dn) (occ (i, k, false) dn).

Record key_sim (k : string) (s : KeysSys) (p : PutSys) : Prop := {
  sim_srv : pt_srv p = ks_srv s;
  sim_clients i : pt_clients p i = proj_client k (ks_done s) i (ks_clients s i);
  sim_flight : pt_flight p = filter (λ a, PutArgs_Key a = k) (ks_flight s)
}.

Abbreviation pstep k := (pt_step enc dec k nclnt reliable).

(** A step of the run is a step of the observed run, or none. *)
Definition follows (k : string) (s' : KeysSys) (p : PutSys) : Prop :=
  ∃ p', (p' = p ∨ pstep k p p') ∧ key_sim k s' p'.

Lemma occ_done (i j : nat) (k k' : string) (b b' : bool) dn :
  occ (i, k, b) (dn ++ [(j, k', b')]) =
    occ (i, k, b) dn + (if decide ((j, k', b') = (i, k, b)) then 1 else 0).
Proof. rewrite occ_app, occ_cons. change (occ (i, k, b) []) with 0. lia. Qed.

(** Client [i] moves; for the observer it becomes [c']. *)
Lemma sim_move k s p srv i c flight dn :
  key_sim k s p → (∀ j, j ≠ i → proj_client k dn j (ks_clients s j) = pt_clients p j) →
  key_sim k (mkKeysSys srv (<[i := c]> (ks_clients s)) flight dn)
    (mkPutSys srv (<[i := proj_client k dn i c]> (pt_clients p)) (filter (λ a, PutArgs_Key a = k) flight)).
Proof.
  intros Hs Hj. split; simpl; [done| |done]. intros j. destruct (decide (j = i)) as [->|Hne].
  - by rewrite !fn_lookup_insert.
  - by rewrite !fn_lookup_insert_ne, Hj by done.
Qed.

(** Nothing that the observer sees changes. *)
Lemma sim_stutter k s p i c flight dn :
  key_sim k s p → proj_client k dn i c = pt_clients p i →
  (∀ j, j ≠ i → proj_client k dn j (ks_clients s j) = pt_clients p j) →
  filter (λ a, PutArgs_Key a = k) flight = pt_flight p →
  follows k (mkKeysSys (ks_srv s) (<[i := c]> (ks_clients s)) flight dn) p.
Proof.
  intros Hs Hc Hj Hf. exists p. split; [by left|]. split; simpl; [apply Hs| |done].
  intros j. destruct (decide (j = i)) as [->|Hne]; [by rewrite fn_lookup_insert|].
  by rewrite fn_lookup_insert_ne, Hj by done.
Qed.

Lemma index_elem {A} (l : list A) i x : index l i = Ret x → x ∈ l.
Proof. unfold index. case_match; [|done]. intros [= <-]. by eapply list_elem_of_lookup_2. Qed.

Lemma pick_key_in rnd k : pick_key randomkeys ka rnd = Ret k → k ∈ ka.
Proof.
  unfold pick_key. intros Hp. bind_inv Hp. apply index_elem in Hbind.
  destruct randomkeys; [by eapply index_elem|by simplify_eq].
Qed.

Lemma pick_key_total rnd : ka ≠ [] → 0 ≤ rnd → ∃ k, pick_key randomkeys ka rnd = Ret k ∧ k ∈ ka.
Proof.
  intros Hne Hr. assert (Hex : ∃ k, pick_key randomkeys ka rnd = Ret k).
  { unfold pick_key, index. assert (Hpos : (0 < length ka)%nat) by (by destruct ka; simpl; [|lia]).
    destruct (lookup_lt_is_Some_2 ka 0 Hpos) as [k0 ->]. simpl. destruct randomkeys; [|by eexists].
    assert (is_Some (ka !! Z.to_nat (Z.rem rnd (len ka)))) as [k ->]; [|by eexists].
    apply lookup_lt_is_Some_2. pose proof (Z.rem_bound_pos rnd (len ka) Hr). lia. }
  destruct Hex as [k Hk]. exists k. split; [done|by eapply pick_key_in].
Qed.

(** What an observer sees of one move. *)
Lemma proj_other k dn i c : kc_key c ≠ k → kc_pc c ≠ PtDone → proj_client k dn i c =
  mkPutClient PtTop (map_get 0 (kc_verm c) k) (occ (i, k, true) dn) (occ (i, k, false) dn).
Proof. intros Hk Hd. unfold proj_client, proj_pc. destruct (kc_pc c); by rewrite ?decide_False by done. Qed.

Lemma proj_same k dn i c : kc_key c = k → proj_client k dn i c =
  mkPutClient (kc_pc c) (map_get 0 (kc_verm c) k) (occ (i, k, true) dn) (occ (i, k, false) dn).
Proof. intros Hk. unfold proj_client, proj_pc. destruct (kc_pc c); by rewrite ?decide_True by done. Qed.

Lemma proj_top k dn i c : kc_pc c = PtTop → proj_client k dn i c =
  mkPutClient PtTop (map_get 0 (kc_verm c) k) (occ (i, k, true) dn) (occ (i, k, false) dn).
Proof. intros Hp. unfold proj_client, proj_pc. rewrite Hp. by case_decide. Qed.

Lemma sim_start k s p i rnd :
  ka ≠ [] → key_sim k s p → (i < nclnt)%nat → kc_pc (ks_clients s i) = PtTop → 0 ≤ rnd →
  follows k (ks_set s i (keys_start (ks_clients s i) (pick_key randomkeys ka rnd))) p.
Proof.
  intros Hka Hs Hi Hpc Hr. destruct (pick_key_total rnd Hka Hr) as (k' & -> & _). simpl.
  pose proof (sim_clients _ _ _ Hs i) as Ei. rewrite (proj_top _ _ _ _ Hpc) in Ei.
  destruct (decide (k' = k)) as [->|Hne].
  - exists (pt_set p i (put_at (pt_clients p i) (PtPut (pc_verm (pt_clients p i)) 0))). split.
    + right. apply pt_start; [done|]. by rewrite Ei.
    + unfold pt_set, ks_set. rewrite (sim_srv _ _ _ Hs), (sim_flight _ _ _ Hs).
      replace (put_at _ _) with (proj_client k (ks_done s) i (mkKeysClient
        (PtPut (map_get 0 (kc_verm (ks_clients s i)) k) 0) k (kc_verm (ks_clients s i))
        (kc_nok (ks_clients s i)) (kc_nmay (ks_clients s i)))) by (by rewrite proj_same, Ei).
      apply sim_move; [done|]. intros j _. by rewrite (sim_clients _ _ _ Hs).
  - apply sim_stutter; [done|by rewrite proj_other, Ei| |by rewrite (sim_flight _ _ _ Hs)].
    intros j _. by rewrite (sim_clients _ _ _ Hs).
Qed.

Lemma sim_stop k s p i :
  key_sim k s p → (i < nclnt)%nat → kc_pc (ks_clients s i) = PtTop →
  follows k (ks_set s i (keys_at (ks_clients s i) PtDone)) p.
Proof.
  intros Hs Hi Hpc. pose proof (sim_clients _ _ _ Hs i) as Ei. rewrite (proj_top _ _ _ _ Hpc) in Ei.
  exists (pt_set p i (put_at (pt_clients p i) PtDone)). split.
  - right. apply pt_done; [done|]. by rewrite Ei.
  - unfold pt_set, ks_set. rewrite (sim_srv _ _ _ Hs), (sim_flight _ _ _ Hs), Ei.
    change (put_at _ PtDone) with (proj_client k (ks_done s) i (keys_at (ks_clients s i) PtDone)).
    apply sim_move; [done|]. intros j _. by rewrite (sim_clients _ _ _ Hs).
Qed.

Lemma sim_lost k s p i ver n :
  key_sim k s p → reliable = false → (i < nclnt)%nat → kc_pc (ks_clients s i) = PtPut ver n →
  follows k
    (mkKeysSys (ks_srv s) (<[i := keys_at (ks_clients s i) (PtPut ver (n + 1))]> (ks_clients s))
       (one_args enc (kc_key (ks_clients s i)) i ver :: ks_flight s) (ks_done s)) p.
Proof.
  intros Hs Hr Hi Hpc. pose proof (sim_clients _ _ _ Hs i) as Ei.
  destruct (decide (kc_key (ks_clients s i) = k)) as [Hk|Hne].
  - rewrite proj_same, Hpc in Ei by done.
    exists (mkPutSys (pt_srv p) (<[i := put_at (pt_clients p i) (PtPut ver (n + 1))]> (pt_clients p))
      (one_args enc k i ver :: pt_flight p)). split.
    + right. apply pt_lost; [done..|]. by rewrite Ei.
    + rewrite Ei, (sim_srv _ _ _ Hs), (sim_flight _ _ _ Hs), Hk.
      replace (one_args enc k i ver :: filter _ _) with
        (filter (λ a, PutArgs_Key a = k) (one_args enc k i ver :: ks_flight s))
        by (by rewrite filter_cons_True).
      replace (put_at _ _) with
        (proj_client k (ks_done s) i (keys_at (ks_clients s i) (PtPut ver (n + 1))))
        by (by rewrite proj_same).
      apply sim_move; [done|]. intros j _. by rewrite (sim_clients _ _ _ Hs).
  - rewrite proj_other in Ei by (done || by rewrite Hpc).
    apply sim_stutter; [done|by rewrite proj_other, Ei| |].
    + intros j _. by rewrite (sim_clients _ _ _ Hs).
    + rewrite filter_cons_False by done. by rewrite (sim_flight _ _ _ Hs).
Qed.

(** A Put of another key. *)
Lemma sim_exec_other k s p a srv reply clients :
  key_sim k s p → PutArgs_Key a ≠ k → svc_put (ks_srv s) a zero_PutReply = Ret (srv, reply) →
  (∀ i, proj_client k (ks_done s) i (clients i) = pt_clients p i) →
  follows k (mkKeysSys srv clients (ks_flight s) (ks_done s)) p.
Proof.
  intros Hs Hk Hp Hc. exists (mkPutSys srv (pt_clients p) (pt_flight p)). split.
  - right. eapply pt_other; [done|]. by rewrite (sim_srv _ _ _ Hs).
  - split; simpl; [done|done|apply Hs].
Qed.

Lemma sim_late k s p a srv reply :
  key_sim k s p → a ∈ ks_flight s → svc_put (ks_srv s) a zero_PutReply = Ret (srv, reply) →
  follows k (mkKeysSys srv (ks_clients s) (ks_flight s) (ks_done s)) p.
Proof.
  intros Hs Ha Hp. destruct (decide (PutArgs_Key a = k)) as [Hk|Hk].
  - exists (mkPutSys srv (pt_clients p) (pt_flight p)). split.
    + right. eapply pt_late; [|by rewrite (sim_srv _ _ _ Hs)].
      rewrite (sim_flight _ _ _ Hs). by apply list_elem_of_filter.
    + split; simpl; [done|apply Hs..].
  - eapply sim_exec_other; [done..|]. intros i. by rewrite (sim_clients _ _ _ Hs).
Qed.

Lemma after_Put_not_done ver err : OnePut_after_Put ver err ≠ PtDone.
Proof. unfold OnePut_after_Put. by case_bool_decide. Qed.

Lemma sim_reply k s p i ver n srv reply :
  key_sim k s p → (i < nclnt)%nat → kc_pc (ks_clients s i) = PtPut ver n →
  svc_put (ks_srv s) (one_args enc (kc_key (ks_clients s i)) i ver) zero_PutReply = Ret (srv, reply) →
  let pc := OnePut_after_Put ver (Clerk_Put_err (PutReply_Err reply) (n + 1)) in
  follows k (mkKeysSys srv (<[i := keys_at (ks_clients s i) pc]> (ks_clients s)) (ks_flight s)
    (ks_done s)) p.
Proof.
  intros Hs Hi Hpc Hp pc. pose proof (sim_clients _ _ _ Hs i) as Ei.
  destruct (decide (kc_key (ks_clients s i) = k)) as [Hk|Hne].
  - rewrite proj_same, Hpc in Ei by done. rewrite Hk in Hp.
    exists (mkPutSys srv (<[i := put_at (pt_clients p i) pc]> (pt_clients p)) (pt_flight p)). split.
    + right. eapply pt_reply; [done|by rewrite Ei|]. by rewrite (sim_srv _ _ _ Hs).
    + rewrite Ei, (sim_flight _ _ _ Hs).
      replace (put_at _ _) with (proj_client k (ks_done s) i (keys_at (ks_clients s i) pc))
        by (by rewrite proj_same).
      apply sim_move; [done|]. intros j _. by rewrite (sim_clients _ _ _ Hs).
  - rewrite proj_other in Ei by (done || by rewrite Hpc).
    eapply sim_exec_other; [done| |exact Hp|]; [exact Hne|]. intros j.
    destruct (decide (j = i)) as [->|Hj]; [rewrite fn_lookup_insert|].
    + rewrite proj_other, Ei; [done|done|]. apply after_Put_not_done.
    + by rewrite fn_lookup_insert_ne, (sim_clients _ _ _ Hs) by done.
Qed.

(** A finished [OnePut] counts for its client and its key. *)
Lemma occ_finished i j k b c err dn :
  occ (j, k, b) (dn ++ finished i c err) = occ (j, k, b) dn +
    (if decide (kc_pc c = PtTop ∧ i = j ∧ kc_key c = k ∧ bool_decide (err = OK) = b) then 1 else 0).
Proof.
  unfold finished. destruct (kc_pc c) eqn:Hpc;
    try (rewrite app_nil_r, decide_False by (by intros [? _]); lia).
  rewrite occ_done. f_equal. apply decide_ext. naive_solver.
Qed.

(** How [OnePut] goes on does not depend on the client's counters. *)
Lemma after_Get_cases me ver err got :
  (err = OK ∧ ∃ ver0, ∀ c, OnePut_after_Get me c ver err got =
     mkPutClient PtTop ver0 (pc_nok c + 1) (pc_nmay c)) ∨
  (err = ErrMaybe ∧ ∃ ver0, ∀ c, OnePut_after_Get me c ver err got =
     mkPutClient PtTop ver0 (pc_nok c) (pc_nmay c + 1)) ∨
  (∃ pc, pc ≠ PtTop ∧ pc ≠ PtDone ∧ ∀ c, OnePut_after_Get me c ver err got = put_at c pc).
Proof.
  unfold OnePut_after_Get. destruct (_ ≫= _) as [ver0|msg|msg]; [|right; right; exists (PtFatal msg); by split_and!..].
  case_bool_decide; [left; eauto|]. case_bool_decide; [right; left; eauto|].
  right; right. exists (PtPut ver0 0). by split_and!.
Qed.

(** [OnePut_after_Get] on the whole client and on one key of it. *)
Lemma after_Get_proj k dn i c ver err got :
  kc_key c = k → kc_pc c = PtGet ver err →
  let c' := keys_after_Get (Z.of_nat i) c ver err got in
  proj_client k (dn ++ finished i c' err) i c' =
    OnePut_after_Get (Z.of_nat i) (proj_client k dn i c) ver err got.
Proof.
  intros Hk Hpc c'. rewrite !proj_same by done. rewrite !occ_finished. unfold c', keys_after_Get.
  destruct (after_Get_cases (Z.of_nat i) ver err got)
    as [[-> [ver0 E]]|[[-> [ver0 E]]|(pc & H1 & H2 & E)]];
    rewrite !E; simpl; rewrite Hk, map_get_insert_eq.
  - rewrite decide_True, decide_False by naive_solver. by rewrite Z.add_0_r.
  - rewrite decide_False, decide_True by naive_solver. by rewrite Z.add_0_r.
  - rewrite !decide_False by (by intros [? _]). by rewrite !Z.add_0_r.
Qed.

Lemma sim_get k s p i ver err :
  key_sim k s p → (i < nclnt)%nat → kc_pc (ks_clients s i) = PtGet ver err →
  let c := keys_after_Get (Z.of_nat i) (ks_clients s i) ver err (ks_read s (kc_key (ks_clients s i))) in
  follows k (mkKeysSys (ks_srv s) (<[i := c]> (ks_clients s)) (ks_flight s)
    (ks_done s ++ finished i c err)) p.
Proof.
  intros Hs Hi Hpc c. pose proof (sim_clients _ _ _ Hs i) as Ei.
  assert (Hother : ∀ j, j ≠ i ∨ kc_key (ks_clients s i) ≠ k → ∀ c',
    proj_client k (ks_done s ++ finished i c err) j c' = proj_client k (ks_done s) j c').
  { intros j Hj c'. unfold proj_client. rewrite !occ_finished, !decide_False by naive_solver.
    by rewrite !Z.add_0_r. }
  destruct (decide (kc_key (ks_clients s i) = k)) as [Hk|Hne].
  - exists (pt_set p i (OnePut_after_Get (Z.of_nat i) (pt_clients p i) ver err (pt_read dec k p))). split.
    + right. apply pt_get; [done|]. by rewrite Ei, proj_same.
    + unfold pt_set. rewrite (sim_srv _ _ _ Hs), (sim_flight _ _ _ Hs), Ei.
      unfold pt_read. rewrite (sim_srv _ _ _ Hs). fold (ks_read s k). rewrite <- after_Get_proj by done.
      replace (keys_after_Get _ _ _ _ (ks_read s k)) with c by (unfold c; by rewrite Hk).
      apply sim_move; [done|]. intros j Hj. rewrite Hother by auto. by rewrite (sim_clients _ _ _ Hs).
  - apply sim_stutter; [done| | |by rewrite (sim_flight _ _ _ Hs)].
    + rewrite Hother, Ei by auto. rewrite (proj_other _ _ _ (ks_clients s i)) by (done || by rewrite Hpc).
      rewrite proj_other; [unfold c; simpl; by rewrite map_get_insert_ne|done|]. unfold c. simpl.
      destruct (after_Get_cases (Z.of_nat i) ver err (ks_read s (kc_key (ks_clients s i))))
        as [[_ [ver0 E]]|[[_ [ver0 E]]|(pc & _ & H2 & E)]]; by rewrite E.
    + intros j Hj. rewrite Hother by auto. by rewrite (sim_clients _ _ _ Hs).
Qed.

(** To the observer of one of the keys, every step is a step of PutTest.v, or none. *)
Lemma key_sim_step k s s' p :
  ka ≠ [] → k ∈ ka → key_sim k s p → keys_step s s' → follows k s' p.
Proof.
  intros Hka Hk Hs Hstep. destruct Hstep.
  - by apply sim_start.
  - by apply sim_stop.
  - by apply sim_lost.
  - by eapply sim_late.
  - by eapply sim_reply.
  - by apply sim_get.
  - eapply sim_exec_other; [done| |done|]; [set_solver|]. intros i. by rewrite (sim_clients _ _ _ Hs).
Qed.

Definition proj_init (k : string) (s : KeysSys) : PutSys :=
  mkPutSys (ks_srv s) (λ _, mkPutClient PtTop 0 0 0) [].

Lemma verm_init_zero k : map_get 0 (verm_init ka) k = 0.
Proof.
  unfold verm_init. assert (Hg : ∀ m, map_get 0 m k = 0 →
    map_get 0 (foldl (λ verm k, <[k := 0]> verm) m ka) k = 0); [|by apply Hg].
  induction ka as [|x l IH]; intros m Hm; simpl; [done|]. apply IH.
  destruct (decide (x = k)) as [->|Hne]; [by rewrite map_get_insert_eq|by rewrite map_get_insert_ne].
Qed.

Lemma key_sim_init k s : k ∈ ka → keys_init s → pt_init k (proj_init k s) ∧ key_sim k s (proj_init k s).
Proof.
  intros Hk (He & Hc & Hf & Hd). split; [split; [by apply He|done]|].
  split; simpl; [done| |by rewrite Hf]. intros i. rewrite Hc, Hd, proj_top by done. simpl.
  by rewrite verm_init_zero.
Qed.

(** The run as the observer sees it. *)
Lemma key_sim_run k m s0 s :
  ka ≠ [] → k ∈ ka → keys_init s0 → nsteps keys_step m s0 s →
  ∃ m' p, (m' ≤ m)%nat ∧ nsteps (pstep k) m' (proj_init k s0) p ∧ key_sim k s p.
Proof.
  intros Hka Hk Hi Hs. apply (nsteps_invariant keys_step (λ m s, ∃ m' p, (m' ≤ m)%nat ∧
    nsteps (pstep k) m' (proj_init k s0) p ∧ key_sim k s p) m s0 s); [| |done].
  - exists 0%nat, (proj_init k s0). split_and!; [done|constructor|by apply key_sim_init].
  - intros n x y _ (m' & p & Hm & Hp & Hsim) Hxy.
    destruct (key_sim_step k x y p Hka Hk Hsim Hxy) as (p' & [->|Hp'] & Hsim').
    + exists m', p. split_and!; [lia|done..].
    + exists (S m'), p'. split_and!; [lia| |done]. by eapply nsteps_r.
Qed.

(** ** The counters *)

Context (ka_nodup : NoDup ka).

Record keys_inv (s : KeysSys) : Prop := {
  ki_key i : kc_pc (ks_clients s i) = PtTop ∨ kc_pc (ks_clients s i) = PtDone ∨
    kc_key (ks_clients s i) ∈ ka;
  ki_nok i : kc_nok (ks_clients s i) = csum (λ k, occ (i, k, true) (ks_done s)) ka;
  ki_nmay i : kc_nmay (ks_clients s i) = csum (λ k, occ (i, k, false) (ks_done s)) ka
}.

Lemma csum_finished j b dn i c err :
  kc_key c ∈ ka →
  csum (λ k, occ (j, k, b) (dn ++ finished i c err)) ka = csum (λ k, occ (j, k, b) dn) ka +
    (if decide (kc_pc c = PtTop ∧ i = j ∧ bool_decide (err = OK) = b) then 1 else 0).
Proof.
  intros Hk. rewrite (csum_ext _ _ _ (λ k _, occ_finished i j k b c err dn)), csum_add. f_equal.
  case_decide as Hc; [|apply csum_zero; intros k _; by rewrite decide_False by naive_solver].
  trans (occ (kc_key c) ka); [|by apply NoDup_occ]. rewrite <- csum_one. apply csum_ext. intros k _.
  apply decide_ext. naive_solver.
Qed.

Lemma keys_inv_move s i c srv flight :
  keys_inv s → (kc_pc c = PtTop ∨ kc_pc c = PtDone ∨ kc_key c ∈ ka) →
  kc_nok c = kc_nok (ks_clients s i) → kc_nmay c = kc_nmay (ks_clients s i) →
  keys_inv (mkKeysSys srv (<[i := c]> (ks_clients s)) flight (ks_done s)).
Proof.
  intros [H1 H2 H3] Hk E1 E2. split; simpl; intros j; destruct (decide (j = i)) as [->|Hne];
    rewrite ?fn_lookup_insert, ?fn_lookup_insert_ne by done; rewrite ?E1, ?E2; auto.
Qed.

Lemma keys_inv_get s i ver err :
  keys_inv s → kc_pc (ks_clients s i) = PtGet ver err →
  let c := keys_after_Get (Z.of_nat i) (ks_clients s i) ver err (ks_read s (kc_key (ks_clients s i))) in
  keys_inv (mkKeysSys (ks_srv s) (<[i := c]> (ks_clients s)) (ks_flight s) (ks_done s ++ finished i c err)).
Proof.
  intros [H1 H2 H3] Hpc c. assert (Hk : kc_key c ∈ ka) by (by destruct (H1 i) as [?|[?|?]]; [congruence..|]).
  split; simpl; intros j; rewrite ?csum_finished by done; destruct (decide (j = i)) as [->|Hne];
    rewrite ?fn_lookup_insert, ?fn_lookup_insert_ne by done; auto;
    try (rewrite decide_False by naive_solver; rewrite Z.add_0_r; auto);
    rewrite <- ?H2, <- ?H3; unfold c, keys_after_Get;
    destruct (after_Get_cases (Z.of_nat i) ver err (ks_read s (kc_key (ks_clients s i))))
      as [[-> [v E]]|[[-> [v E]]|(pc & H4 & H5 & E)]]; rewrite E; simpl;
    try (rewrite decide_True by done; done); rewrite decide_False by naive_solver; lia.
Qed.

Lemma keys_step_inv s s' : ka ≠ [] → keys_step s s' → keys_inv s → keys_inv s'.
Proof.
  intros Hka Hstep Hi. destruct Hstep as [s i rnd Hin Hpc Hr|s i Hin Hpc|s i ver n Hr Hin Hpc|
    s a srv reply Ha Hp|s i ver n srv reply Hin Hpc Hp pc|s i ver err Hin Hpc c|s a srv reply Hk Hp].
  - destruct (pick_key_total rnd Hka Hr) as (k & -> & Hk). apply keys_inv_move; simpl; auto.
  - apply keys_inv_move; simpl; auto.
  - apply keys_inv_move; simpl; [done| |done..]. destruct (ki_key _ Hi i) as [?|[?|?]]; [congruence..|auto].
  - by destruct Hi; split.
  - apply keys_inv_move; simpl; [done| |done..]. destruct (ki_key _ Hi i) as [?|[?|?]]; [congruence..|auto].
  - by apply keys_inv_get.
  - by destruct Hi; split.
Qed.

Lemma keys_run_inv m s0 s : ka ≠ [] → keys_init s0 → nsteps keys_step m s0 s → keys_inv s.
Proof.
  intros Hka (He & Hc & Hf & Hd) Hs. apply (nsteps_invariant keys_step (λ _ s, keys_inv s) m s0 s); [| |done].
  - split; intros i; rewrite Hc; simpl; [by left|by rewrite csum_zero by (by rewrite Hd)..].
  - intros _ x y _ Hx Hxy. by eapply keys_step_inv.
Qed.

(** What the observer of [k] concludes about the version of [k]. *)
Lemma keys_counts_one k m s0 s :
  (∀ e, dec (enc e) = Some e) → ka ≠ [] → k ∈ ka → keys_init s0 → nsteps keys_step m s0 s →
  Z.of_nat m < 2 ^ 62 → (∀ i, (i < nclnt)%nat → kc_pc (ks_clients s i) = PtDone) →
  let nok := csum (λ i, occ (i, k, true) (ks_done s)) (seq 0 nclnt) in
  let nmay := csum (λ i, occ (i, k, false) (ks_done s)) (seq 0 nclnt) in
  nok ≤ svc_ver (ks_srv s) k ≤ nok + nmay ∧ (reliable = true → nmay = 0).
Proof.
  intros Hdec Hka Hk Hi Hs Hm Hd nok nmay.
  destruct (key_sim_run k m s0 s Hka Hk Hi Hs) as (m' & p & Hm' & Hp & Hsim).
  destruct (pt_reachable enc dec k nclnt reliable Hdec m' (proj_init k s0) p) as (owner & Hinv & _);
    [by apply key_sim_init|done|lia|].
  assert (Hdone : ∀ i, (i < nclnt)%nat → pc_pc (pt_clients p i) = PtDone).
  { intros i Hin. rewrite (sim_clients _ _ _ Hsim). unfold proj_client, proj_pc. simpl. by rewrite Hd. }
  pose proof (pt_counts enc k nclnt reliable p owner Hinv Hdone) as Hcnt.
  unfold pt_results in Hcnt. cbv zeta in Hcnt. rewrite add_results_csum in Hcnt.
  cbn [Nok Nmaybe put_result] in Hcnt. rewrite !Z.add_0_l in Hcnt.
  rewrite !(csum_ext (λ i, pc_nok _) _ _ (λ i _, f_equal pc_nok (sim_clients _ _ _ Hsim i))) in Hcnt.
  rewrite !(csum_ext (λ i, pc_nmay _) _ _ (λ i _, f_equal pc_nmay (sim_clients _ _ _ Hsim i))) in Hcnt.
  unfold svc_ver. rewrite <- (sim_srv _ _ _ Hsim), (pti_entry _ _ _ _ _ _ Hinv), entry_of_ver. done.
Qed.

(** C8: the concurrent Put test with random keys, drawn from a list of distinct keys as
    [MakeKeys] makes it. Whatever keys of it the clients draw and whatever calls are lost, repeated or delayed, no client fails in [OnePut] or in drawing a key. Once
    all have returned, the versions of the keys add up to at least the number of Puts answered
    [OK] and at most that number plus the doubtful ones, and are exact on a reliable network. *)
Theorem OneClientPut_keys m s0 s :
  (∀ e, dec (enc e) = Some e) → ka ≠ [] → keys_init s0 → nsteps keys_step m s0 s →
  Z.of_nat m < 2 ^ 62 →
  (∀ i msg, kc_pc (ks_clients s i) ≠ PtFatal msg) ∧
  ((∀ i, (i < nclnt)%nat → kc_pc (ks_clients s i) = PtDone) →
   let res := add_results (mkClntRes 0 0) (keys_results s) in
   let versions := csum (svc_ver (ks_srv s)) ka in
   Nok res ≤ versions ≤ Nok res + Nmaybe res ∧ (reliable = true → versions = Nok res)).
Proof.
  intros Hdec Hka Hi Hs Hm. pose proof (keys_run_inv m s0 s Hka Hi Hs) as Hinv. split.
  - intros i msg Hpc. destruct (ki_key _ Hinv i) as [?|[?|Hk]]; [congruence..|].
    destruct (key_sim_run _ m s0 s Hka Hk Hi Hs) as (m' & p & Hm' & Hp & Hsim).
    edestruct (pt_reachable enc dec) as (owner & Hpi & _); [exact Hdec| |exact Hp|lia|].
    { by apply key_sim_init. }
    pose proof (pci_pc _ _ _ _ (pti_client _ _ _ _ _ _ Hpi i)) as Hc. unfold pc_inv in Hc.
    by rewrite (sim_clients _ _ _ Hsim), proj_same, Hpc in Hc.
  - intros Hd res versions. unfold res, keys_results. rewrite add_results_csum.
    cbn [Nok Nmaybe keys_result]. rewrite !Z.add_0_l.
    rewrite (csum_ext (λ i, kc_nok _) _ _ (λ i _, ki_nok _ Hinv i)).
    rewrite (csum_ext (λ i, kc_nmay _) _ _ (λ i _, ki_nmay _ Hinv i)).
    rewrite !(csum_swap _ (seq 0 nclnt) ka), <- csum_add.
    assert (Hone := λ k Hk, keys_counts_one k m s0 s Hdec Hka Hk Hi Hs Hm Hd). simpl in Hone.
    unfold versions. split.
    + split; apply csum_le; intros k Hk; by apply Hone.
    + intros Hr. apply csum_ext. intros k Hk. destruct (Hone k Hk) as [Hb Hz].
      rewrite (Hz Hr) in Hb. lia.
Qed.
End randkeys.

(** ** An example run: one client, two keys *)

Definition ks_ex : KeysSys (St := KVServer) :=
  mkKeysSys MakeKVServer (λ _, mkKeysClient PtTop "" (verm_init ["k0"; "k1"]) 0 0) [] [].

(** It draws the second key; the first call of its Put is lost and executed late. *)
Lemma ks_ex_run :
  ∃ s, nsteps (keys_step bits_enc bits_dec ["k0"; "k1"] 1 false true) 6 ks_ex s ∧
    (∀ i, (i < 1)%nat → kc_pc (ks_clients s i) = PtDone) ∧
    kc_nok (ks_clients s 0%nat) = 0 ∧ kc_nmay (ks_clients s 0%nat) = 1.
Proof.
  set (a := one_args bits_enc "k1" 0 0). eexists. split.
  - eapply nsteps_l; [by apply (ks_start _ _ _ _ _ _ _ 0 3); [lia| |]|]. simpl.
    eapply nsteps_l; [by apply (ks_lost _ _ _ _ _ _ _ 0 0 0); [done|lia|]|]. simpl.
    eapply nsteps_l; [eapply (ks_late _ _ _ _ _ _ _ a); [left|reflexivity]|]. simpl.
    eapply nsteps_l; [eapply (ks_reply _ _ _ _ _ _ _ 0 0 1); [lia|done|reflexivity]|]. simpl.
    eapply nsteps_l; [by eapply (ks_get _ _ _ _ _ _ _ 0); [lia|]|].
    eapply nsteps_l; [apply (ks_stop _ _ _ _ _ _ _ 0); [lia|vm_compute; reflexivity]|]. apply nsteps_O.
  - split_and!; [|vm_compute; reflexivity..]. intros [|i]; [intros _; vm_compute; reflexivity|lia].
Qed.

Lemma OneClientPut_keys_witness :
  ∃ s, nsteps (keys_step bits_enc bits_dec ["k0"; "k1"] 1 false true) 6 ks_ex s ∧
    0 ≤ csum (svc_ver (ks_srv s)) ["k0"; "k1"] ≤ 1.
Proof.
  destruct ks_ex_run as (s & Hs & Hd & Hok & Hmay). exists s. split; [done|].
  destruct (OneClientPut_keys bits_enc bits_dec ["k0"; "k1"] 1 false true ltac:(repeat constructor; set_solver)
    6 ks_ex s bits_dec_enc) as [_ Hc]; [done| |done|done|].
  - split_and!; [|done..]. intros k _. done.
  - destruct (Hc Hd) as [Hb _]. unfold keys_results in Hb. simpl in Hb. unfold keys_result in Hb.
    rewrite Hok, Hmay in Hb. exact Hb.
Defined.
