(* ===== verification/AppendTest.v ===== *)
(** * The append test of the key/value service ([kvtest1/kvtest.go])

    Clients append entries to one key with [OneClientAppend]: read the list, put it back with
    one more entry, and go on when the clerk answers [OK] or [ErrMaybe]. [CheckAppends] then
    decides from the final list and the clients' counters whether the service behaved.

    The system is a step relation over any implementation of [KVService]; calls are lost,
    repeated and delayed as in [Lock.v]. The JSON encoding is a parameter. *)

From S2P Require Export KvTest.

Local Open Scope Z_scope.

(** [entry] and [EntryN], which have the same fields. *)
Record AppEntry := mkAppEntry { ae_Id : Z; ae_N : Z }.

#[export] Instance AppEntry_eq_dec : EqDecision AppEntry.
Proof. solve_decision. Defined.

(** ** The check *)

(** The first loop: the clients' entries up to [nclnt]. *)
Definition zero_counts (nclnt : nat) : gmap Z Z :=
  list_to_map ((λ i, (Z.of_nat i, 0)) <$> seq 0 nclnt).

(** The loop over the entries, from the counts [expect] and [skipped]. *)
Fixpoint count_entries (es : list AppEntry) (expect skipped : gmap Z Z)
    : outcome (gmap Z Z * gmap Z Z) :=
  match es with
  | [] => Ret (expect, skipped)
  | e :: es =>
      let x := map_get 0 expect (ae_Id e) in
      if bool_decide (ae_N e < x) then Fatal "wrong expecting"
      else if bool_decide (x = ae_N e)
      then count_entries es (<[ae_Id e := x + 1]> expect) skipped
      else
        let s := ae_N e - x in
        count_entries es (<[ae_Id e := ae_N e + 1]> expect)
          (<[ae_Id e := map_get 0 skipped (ae_Id e) + s]> skipped)
  end.

(** The last loop, over the clients of [expect] in the order visited. *)
Fixpoint check_counts (order : list (Z * Z)) (skipped : gmap Z Z) (rs : list ClntRes)
    : outcome unit :=
  match order with
  | [] => Ret tt
  | (c, n) :: order =>
      match (if bool_decide (0 ≤ c) then rs !! Z.to_nat c else None) with
      | None => Panic "index out of range"
      | Some r =>
          if bool_decide (Nmaybe r < map_get 0 skipped c) then Fatal "skipped puts"
          else if bool_decide (Nok r + Nmaybe r < n) then Fatal "puts on server > ok+maybe"
          else check_counts order skipped rs
      end
  end.

(** [visit] gives the order in which the last loop visits the map. *)
Definition CheckAppends (visit : gmap Z Z → list (Z * Z)) (es : list AppEntry) (nclnt : nat)
    (rs : list ClntRes) (ver : Tversion) : outcome unit :=
  '(expect, skipped) ← count_entries es (zero_counts nclnt) (zero_counts nclnt);
  if bool_decide (Z.of_nat (length es) + 1 ≠ i64_wrap ver) then Fatal "appends in val != puts on server"
  else check_counts (visit expect) skipped rs.

(** The numbers client [c] put into the list. *)
Definition own (c : Z) (es : list AppEntry) : list Z := ae_N <$> filter (λ e, ae_Id e = c) es.

Lemma own_cons_eq c e es : ae_Id e = c → own c (e :: es) = ae_N e :: own c es.
Proof. intros. unfold own. by rewrite filter_cons_True. Qed.

Lemma own_cons_ne c e es : ae_Id e ≠ c → own c (e :: es) = own c es.
Proof. intros. unfold own. by rewrite filter_cons_False. Qed.

Lemma own_snoc c e es :
  own c (es ++ [e]) = own c es ++ (if decide (ae_Id e = c) then [ae_N e] else []).
Proof.
  unfold own. rewrite filter_app, fmap_app. f_equal. destruct (decide (ae_Id e = c)).
  - by rewrite filter_cons_True.
  - by rewrite filter_cons_False.
Qed.

(** The loop over the entries, seen for one client: it ends past every number of the client,
    and counts the numbers it stepped over. *)
Record counted (c : Z) (es : list AppEntry) (x y x' y' : Z) : Prop := {
  ct_le : x ≤ x';
  ct_last b : x ≤ b → Forall (λ k, k < b) (own c es) → x' ≤ b;
  ct_skip : x' - x = y' - y + Z.of_nat (length (own c es))
}.

Lemma count_entries_spec es expect skipped :
  dom expect = dom skipped →
  (∀ e, e ∈ es → is_Some (expect !! ae_Id e)) →
  (∀ c x, expect !! c = Some x → StronglySorted Z.lt (own c es) ∧ Forall (λ k, x ≤ k) (own c es)) →
  ∃ expect' skipped', count_entries es expect skipped = Ret (expect', skipped') ∧
    dom expect' = dom expect ∧ dom skipped' = dom expect ∧
    ∀ c x y x' y', expect !! c = Some x → skipped !! c = Some y →
      expect' !! c = Some x' → skipped' !! c = Some y' → counted c es x y x' y'.
Proof.
  revert expect skipped. induction es as [|e es IH]; intros expect skipped Hd Hin Hs.
  { exists expect, skipped. split_and!; [done..|]. intros c x y x' y' ????. simplify_eq.
    split; [lia|done|simpl; lia]. }
  destruct (Hin e) as [x Hx]; [by left|].
  assert (is_Some (skipped !! ae_Id e)) as [y Hy].
  { apply elem_of_dom. rewrite <- Hd. by apply elem_of_dom. }
  destruct (Hs _ _ Hx) as [Hsort Hge]. rewrite own_cons_eq in Hsort, Hge by done.
  apply StronglySorted_inv in Hsort as [Hsort Hlt]. apply Forall_cons in Hge as [Hxe _].
  simpl. unfold map_get. rewrite Hx, Hy. simpl. rewrite bool_decide_eq_false_2 by lia.
  set (y1 := y + (ae_N e - x)).
  (* both branches store [ae_N e + 1] and [y1] *)
  assert (Hstep : ∀ skipped1, skipped1 = <[ae_Id e := y1]> skipped →
    ∃ expect' skipped', count_entries es (<[ae_Id e := ae_N e + 1]> expect) skipped1 =
        Ret (expect', skipped') ∧ dom expect' = dom expect ∧ dom skipped' = dom expect ∧
      ∀ c x y x' y', expect !! c = Some x → skipped !! c = Some y →
        expect' !! c = Some x' → skipped' !! c = Some y' → counted c (e :: es) x y x' y').
  { intros skipped1 ->.
    assert (Hdx : dom (<[ae_Id e := ae_N e + 1]> expect) = dom expect).
    { rewrite dom_insert_L. assert (ae_Id e ∈ dom expect) by by apply elem_of_dom. set_solver. }
    destruct (IH (<[ae_Id e := ae_N e + 1]> expect) (<[ae_Id e := y1]> skipped))
      as (ex & sk & -> & D1 & D2 & Hc).
    - rewrite Hdx, dom_insert_L. assert (ae_Id e ∈ dom skipped) by by apply elem_of_dom. set_solver.
    - intros e' He'. rewrite <- elem_of_dom, Hdx, elem_of_dom. apply Hin. by right.
    - intros c z Hz. destruct (decide (ae_Id e = c)) as [<-|Hne].
      + rewrite lookup_insert_eq in Hz. simplify_eq. split; [done|].
        eapply Forall_impl; [done|]. simpl. lia.
      + rewrite lookup_insert_ne in Hz by done. destruct (Hs c z Hz) as [H1 H2].
        by rewrite own_cons_ne in H1, H2.
    - exists ex, sk. split_and!; [done|congruence..|].
      intros c x0 y0 x' y' Hx0 Hy0 Hx' Hy'. destruct (decide (ae_Id e = c)) as [<-|Hne].
      + destruct (Hc (ae_Id e) (ae_N e + 1) y1 x' y') as [A B C];
          [by rewrite lookup_insert_eq..|done|done|]. simplify_eq.
        split; rewrite ?own_cons_eq by done; [lia| |simpl; lia].
        intros b Hb [Hb' Hb'']%Forall_cons. apply B; [lia|done].
      + destruct (Hc c x0 y0 x' y') as [A B C]; [by rewrite lookup_insert_ne..|done|done|].
        split; rewrite ?own_cons_ne by done; done. }
  case_bool_decide as He.
  - rewrite He. apply Hstep. unfold y1. rewrite insert_id; [done|]. rewrite Hy. f_equal. lia.
  - by apply Hstep.
Qed.

(** ** The clients *)

(** Where a client of [OneClientAppend] is, and its counters. *)
Inductive AppendPC :=
  | ApTop                                                (* at [select] *)
  | ApGet                                                (* in [GetJson] *)
  | ApPut (es : list AppEntry) (ver : Tversion) (n : Z)  (* in [PutJson], [n] calls made *)
  | ApDone.                                              (* returned *)

#[export] Instance AppendPC_eq_dec : EqDecision AppendPC.
Proof. solve_decision. Defined.

Record AppClient := mkAppClient { ac_pc : AppendPC; ac_i : Z; ac_nok : Z; ac_nmay : Z }.

Definition with_pc (c : AppClient) (pc : AppendPC) : AppClient :=
  mkAppClient pc (ac_i c) (ac_nok c) (ac_nmay c).

(** From the result of [PutJson] to the next iteration of a loop. *)
Definition OneClientAppend_after_Put (c : AppClient) (err : Err) : AppClient :=
  if bool_decide (err = OK) then mkAppClient ApTop (ac_i c + 1) (ac_nok c + 1) (ac_nmay c)
  else if bool_decide (err = ErrMaybe)
  then mkAppClient ApTop (ac_i c + 1) (ac_nok c) (ac_nmay c + 1)
  else with_pc c ApGet.

Definition app_result (c : AppClient) : ClntRes := mkClntRes (ac_nok c) (ac_nmay c).

Section append.
Context {St : Type} `{KVServiceLaws St}.
Context (enc : list AppEntry → string) (dec : string → option (list AppEntry)).
Context (nclnt : nat).

(** The Put of a client, as [PutJson] sends it. *)
Definition app_args (es : list AppEntry) (ver : Tversion) : PutArgs := mkPutArgs "k" (enc es) ver.

Definition app_pending (pc : AppendPC) : option PutArgs :=
  match pc with ApPut es ver _ => Some (app_args es ver) | _ => None end.

Record AppSys := mkAppSys {
  as_srv : St;
  as_clients : nat → AppClient;
  as_flight : list PutArgs
}.

Definition set_client (s : AppSys) (i : nat) (c : AppClient) : AppSys :=
  mkAppSys (as_srv s) (<[i := c]> (as_clients s)) (as_flight s).

Definition app_get (s : AppSys) : GetReply := svc_get (as_srv s) (mkGetArgs "k") zero_GetReply.

Inductive app_step : AppSys → AppSys → Prop :=
  | app_start s i :
      (i < nclnt)%nat → ac_pc (as_clients s i) = ApTop →
      app_step s (set_client s i (with_pc (as_clients s i) ApGet))
  | app_done s i :
      (i < nclnt)%nat → ac_pc (as_clients s i) = ApTop →
      app_step s (set_client s i (with_pc (as_clients s i) ApDone))
  | app_read s i ver es :
      (i < nclnt)%nat → ac_pc (as_clients s i) = ApGet → GetJson dec (app_get s) = Ret (ver, es) →
      let es' := es ++ [mkAppEntry (Z.of_nat i) (ac_i (as_clients s i))] in
      app_step s (set_client s i (with_pc (as_clients s i) (ApPut es' ver 0)))
  | app_put_lost s i es ver n :
      (i < nclnt)%nat → ac_pc (as_clients s i) = ApPut es ver n →
      app_step s
        (mkAppSys (as_srv s) (<[i := with_pc (as_clients s i) (ApPut es ver (n + 1))]> (as_clients s))
           (app_args es ver :: as_flight s))
  | app_put_late s a srv reply :
      a ∈ as_flight s → svc_put (as_srv s) a zero_PutReply = Ret (srv, reply) →
      app_step s (mkAppSys srv (as_clients s) (as_flight s))
  | app_put_reply s i es ver n srv reply :
      (i < nclnt)%nat → ac_pc (as_clients s i) = ApPut es ver n →
      svc_put (as_srv s) (app_args es ver) zero_PutReply = Ret (srv, reply) →
      app_step s
        (mkAppSys srv
           (<[i := OneClientAppend_after_Put (as_clients s i)
                     (Clerk_Put_err (PutReply_Err reply) (n + 1))]> (as_clients s))
           (as_flight s))
  | app_other s a srv reply :
      PutArgs_Key a ≠ "k" → svc_put (as_srv s) a zero_PutReply = Ret (srv, reply) →
      app_step s (mkAppSys srv (as_clients s) (as_flight s)).

(** The key holds the empty list, put once; every client is before its first iteration. *)
Definition app_init (s : AppSys) : Prop :=
  svc_entry (as_srv s) "k" = Some (mkEntry (enc []) 1) ∧
  (∀ i, as_clients s i = mkAppClient ApTop 0 0 0) ∧ as_flight s = [].

(** ** The invariant *)

Context (Hdec : ∀ es, dec (enc es) = Some es).

(** What the list says about client [i]. *)
Record client_inv (i : nat) (c : AppClient) (es : list AppEntry) (len : Z) : Prop := {
  ci_count : ac_i c = ac_nok c + ac_nmay c;
  ci_nonneg : 0 ≤ ac_nok c ∧ 0 ≤ ac_nmay c;
  ci_sorted : StronglySorted Z.lt (own (Z.of_nat i) es);
  ci_range : Forall (λ k, 0 ≤ k ≤ ac_i c) (own (Z.of_nat i) es);
  (* the current number is in the list only while its Put is being resent *)
  ci_now : ac_i c ∈ own (Z.of_nat i) es →
    ∃ es' ver n, ac_pc c = ApPut es' ver n ∧ ver < len ∧ 1 ≤ n;
  ci_nok : ac_nok c + (if decide (ac_i c ∈ own (Z.of_nat i) es) then 1 else 0)
    ≤ Z.of_nat (length (own (Z.of_nat i) es));
  ci_pending es' ver n : ac_pc c = ApPut es' ver n →
    0 ≤ n ∧ ver ≤ len ∧ (∃ es0, es' = es0 ++ [mkAppEntry (Z.of_nat i) (ac_i c)]) ∧
    (ver = len → es' = es ++ [mkAppEntry (Z.of_nat i) (ac_i c)])
}.

Record app_inv (s : AppSys) (es : list AppEntry) : Prop := {
  ai_entry : svc_entry (as_srv s) "k" = Some (mkEntry (enc es) (Z.of_nat (length es) + 1));
  ai_ids e : e ∈ es → ∃ i, (i < nclnt)%nat ∧ ae_Id e = Z.of_nat i;
  ai_idle i : (nclnt ≤ i)%nat → ac_pc (as_clients s i) = ApTop;
  ai_client i : client_inv i (as_clients s i) es (Z.of_nat (length es) + 1);
  ai_flight a : a ∈ as_flight s → PutArgs_Key a = "k" →
    PutArgs_Version a < Z.of_nat (length es) + 1 ∨
    ∃ i es' ver n, ac_pc (as_clients s i) = ApPut es' ver n ∧ a = app_args es' ver ∧ 1 ≤ n
}.

Abbreviation len es := (Z.of_nat (length es) + 1).

Lemma own_new i j k (es : list AppEntry) :
  i ≠ j → own (Z.of_nat j) (es ++ [mkAppEntry (Z.of_nat i) k]) = own (Z.of_nat j) es.
Proof. intros. rewrite own_snoc. simpl. rewrite decide_False by lia. apply app_nil_r. Qed.

(** The Put of client [i] takes effect: its own invariant, and that of the others. *)
Lemma client_inv_effect i c es es' ver n :
  client_inv i c es (len es) → ac_pc c = ApPut es' ver n → ver = len es → 1 ≤ n →
  client_inv i c es' (len es').
Proof.
  intros [H1 H2 H3 H4 H5 H6 H7] Hpc Hv Hn. destruct (H7 _ _ _ Hpc) as (_ & _ & _ & He).
  specialize (He Hv). set (z := ac_i c) in *.
  assert (Hout : z ∉ own (Z.of_nat i) es).
  { intros (?&?&?&?&?&?)%H5. rewrite Hpc in *. simplify_eq. lia. }
  rewrite decide_False in H6 by done.
  assert (Hown : own (Z.of_nat i) es' = own (Z.of_nat i) es ++ [z]).
  { rewrite He, own_snoc. simpl. by rewrite decide_True. }
  assert (Hlen : len es' = len es + 1) by (rewrite He, length_app; simpl; lia).
  split; rewrite ?Hown; fold z; [done|done| | | | |].
  - apply StronglySorted_snoc; [done|]. rewrite Forall_forall in *. intros k Hk.
    specialize (H4 k Hk). destruct (decide (k = z)); [naive_solver|lia].
  - apply Forall_app. split; [done|]. constructor; [lia|done].
  - intros _. exists es', ver, n. split_and!; [done|lia|done].
  - rewrite decide_True by set_solver. rewrite length_app. simpl. lia.
  - intros es2 ver2 n2 Hpc2. rewrite Hpc in Hpc2. simplify_eq.
    split_and!; [lia|lia|eauto|lia].
Qed.

Lemma client_inv_other i j c es k :
  i ≠ j → client_inv j c es (len es) →
  client_inv j c (es ++ [mkAppEntry (Z.of_nat i) k]) (len (es ++ [mkAppEntry (Z.of_nat i) k])).
Proof.
  intros Hij [H1 H2 H3 H4 H5 H6 H7]. rewrite length_app. simpl.
  split; rewrite ?own_new by done; try done.
  - intros (?&?&?&?&?&?)%H5. do 3 eexists. split_and!; [done|lia|done].
  - intros ??? Hpc. destruct (H7 _ _ _ Hpc) as (?&?&?&?). split_and!; [done|lia|done|lia].
Qed.

(** A Put is executed: one that a client is waiting for or that is in flight. *)
Definition waiting (s : AppSys) (a : PutArgs) : Prop :=
  ∃ i es ver n, ac_pc (as_clients s i) = ApPut es ver n ∧ a = app_args es ver ∧ 1 ≤ n.

Lemma app_exec s es a :
  app_inv s es → len es + 1 < 2 ^ 64 →
  (PutArgs_Key a = "k" → PutArgs_Version a < len es ∨ waiting s a) →
  ∃ srv err es1, svc_put (as_srv s) a zero_PutReply = Ret (srv, mkPutReply err) ∧
    app_inv (mkAppSys srv (as_clients s) (as_flight s)) es1 ∧
    (len es1 ≤ len es + 1) ∧
    (PutArgs_Key a ≠ "k" ∧ es1 = es ∨
     PutArgs_Key a = "k" ∧ PutArgs_Version a ≠ len es ∧ err = ErrVersion ∧ es1 = es ∨
     PutArgs_Key a = "k" ∧ err = OK ∧ len es1 = len es + 1 ∧ a = app_args es1 (len es)).
Proof.
  intros [H1 H2 H2' H3 H4] Hb Hsrc.
  destruct (svc_put_entry (as_srv s) a zero_PutReply) as (srv & Hp & He).
  destruct (decide (PutArgs_Key a = "k" ∧ PutArgs_Version a = len es)) as [[Hk Hv]|Hno].
  - destruct (Hsrc Hk) as [?|(i & es' & ver & n & Hpc & -> & Hn)]; [lia|]. simpl in Hv.
    pose proof (client_inv_effect _ _ _ _ _ _ (H3 i) Hpc Hv Hn) as Hi.
    destruct (ci_pending _ _ _ _ (H3 i) _ _ _ Hpc) as (_ & _ & _ & Hes). specialize (Hes Hv).
    assert (Hlen : len es' = len es + 1) by (rewrite Hes, length_app; simpl; lia).
    exists srv, OK, es'. split_and!.
    + rewrite Hp. simpl. rewrite H1. unfold put_err. simpl. by rewrite bool_decide_eq_true_2.
    + split; simpl.
      * rewrite He. unfold put_entry. simpl. rewrite H1, decide_True by done.
        rewrite u64_wrap_small by (unfold is_u64; lia). do 2 f_equal. lia.
      * intros e. rewrite Hes, elem_of_app, list_elem_of_singleton.
        intros [?| ->]; [auto|]. exists i. split; [|done].
        destruct (decide (i < nclnt)%nat); [done|]. rewrite H2' in Hpc by lia. done.
      * done.
      * intros j. destruct (decide (i = j)) as [<-|Hne]; [done|]. rewrite Hes.
        by apply client_inv_other.
      * intros a' Ha' Hk'. destruct (H4 a' Ha' Hk') as [?|?]; [left; lia|by right].
    + lia.
    + right; right. split_and!; [done..|]. by rewrite Hv.
  - assert (Hsame : svc_entry srv "k" = svc_entry (as_srv s) "k").
    { rewrite He. unfold put_entry. rewrite H1. simpl. by rewrite decide_False by naive_solver. }
    eexists srv, _, es. split_and!; [exact Hp| |lia|].
    + split; simpl; [by rewrite Hsame|done..].
    + destruct (decide (PutArgs_Key a = "k")) as [Hk|Hk]; [|by left]. right; left.
      rewrite Hk, H1. unfold put_err. simpl.
      rewrite bool_decide_eq_false_2 by naive_solver. naive_solver.
Qed.

(** One client moves. *)
Lemma client_move s es i c :
  app_inv s es → (i < nclnt)%nat → client_inv i c es (len es) →
  (∀ es' ver n, ac_pc (as_clients s i) = ApPut es' ver n →
     ver < len es ∨ ∃ n', ac_pc c = ApPut es' ver n' ∧ n ≤ n') →
  app_inv (set_client s i c) es.
Proof.
  intros [H1 H2 H2' H3 H4] Hi Hc Hpend. split; simpl; [done|done| | |].
  - intros j Hj. rewrite fn_lookup_insert_ne by lia. auto.
  - intros j. destruct (decide (i = j)) as [<-|Hne].
    + by rewrite fn_lookup_insert.
    + by rewrite fn_lookup_insert_ne.
  - intros a Ha Hk. destruct (H4 a Ha Hk) as [?|(j & es' & ver & n & Hpc & -> & Hn)]; [by left|].
    destruct (decide (i = j)) as [<-|Hne].
    + destruct (Hpend _ _ _ Hpc) as [?|(n' & Hpc' & ?)]; [by left|]. right.
      exists i, es', ver, n'. rewrite fn_lookup_insert. split_and!; [done..|lia].
    + right. exists j, es', ver, n. by rewrite fn_lookup_insert_ne.
Qed.

(** A client that is not in [PutJson] has not had its current number executed. *)
Lemma client_inv_now i c es es' ver n :
  client_inv i c es (len es) → ac_pc c = ApPut es' ver n → n = 0 →
  ac_i c ∉ own (Z.of_nat i) es.
Proof. intros Hc Hpc Hn (?&?&?&Hpc'&?&?)%(ci_now _ _ _ _ Hc). rewrite Hpc in Hpc'. simplify_eq. lia. Qed.

Lemma app_GetJson s es : app_inv s es → GetJson dec (app_get s) = Ret (len es, es).
Proof.
  intros Hi. unfold app_get, GetJson. rewrite (svc_get_present _ _ _ (ai_entry _ _ Hi)). simpl.
  by rewrite Hdec.
Qed.

(** The client's invariant when nothing of it is pending. *)
Lemma client_inv_rest i c c' es :
  client_inv i c es (len es) → (∀ es' ver n, ac_pc c' ≠ ApPut es' ver n) →
  ac_i c' = ac_i c → ac_nok c' = ac_nok c → ac_nmay c' = ac_nmay c →
  ac_i c ∉ own (Z.of_nat i) es → client_inv i c' es (len es).
Proof.
  intros [H1 H2 H3 H4 H5 H6 H7] Hpc Ei Eo Em Hn.
  split; rewrite ?Ei, ?Eo, ?Em; try done. intros ??? Hp. by apply Hpc in Hp.
Qed.

(** The client goes on to its next number after [OK] or [ErrMaybe]. *)
Lemma client_inv_next i c es ok may :
  client_inv i c es (len es) → 0 ≤ ok → 0 ≤ may → ok + may = 1 →
  (ok = 1 → ac_i c ∈ own (Z.of_nat i) es) →
  client_inv i (mkAppClient ApTop (ac_i c + 1) (ac_nok c + ok) (ac_nmay c + may)) es (len es).
Proof.
  intros [H1 H2 H3 H4 H5 H6 H7] Hok Hmay Hsum Hin. split; simpl; try done; [lia|lia| | |].
  - eapply Forall_impl; [done|]. simpl. lia.
  - intros Hn. rewrite Forall_forall in H4. specialize (H4 _ Hn). lia.
  - rewrite decide_False.
    + destruct (decide (ok = 1)) as [->|]; [rewrite decide_True in H6 by auto; lia|].
      destruct (decide _) in H6; lia.
    + intros Hn. rewrite Forall_forall in H4. specialize (H4 _ Hn). lia.
Qed.

Lemma app_inv_ext s clients es :
  app_inv s es → (∀ i, clients i = as_clients s i) →
  app_inv (mkAppSys (as_srv s) clients (as_flight s)) es.
Proof.
  intros [H1 H2 H2' H3 H4] He. split; simpl; [done|done| | |].
  - intros i. rewrite He. auto.
  - intros i. by rewrite He.
  - intros a Ha Hk. destruct (H4 a Ha Hk) as [?|(i&?&?&?&?)]; [by left|]. right. exists i.
    rewrite He. eauto.
Qed.

(** One more call of a pending Put. *)
Lemma app_retry s es i es' ver n :
  app_inv s es → (i < nclnt)%nat → ac_pc (as_clients s i) = ApPut es' ver n →
  app_inv (set_client s i (with_pc (as_clients s i) (ApPut es' ver (n + 1)))) es.
Proof.
  intros Hi Hn Hpc. apply client_move; [done|done| |].
  - destruct (ai_client _ _ Hi i) as [H1 H2 H3 H4 H5 H6 H7].
    destruct (H7 _ _ _ Hpc) as (?&?&?&?). split; simpl; try done.
    + intros (es2 & ver2 & n2 & Hpc2 & ? & ?)%H5. rewrite Hpc in Hpc2. simplify_eq.
      do 3 eexists. split_and!; [done|done|lia].
    + intros ???. intros. simplify_eq. split_and!; [lia|done..].
  - intros ??? Hpc'. rewrite Hpc in Hpc'. simplify_eq. right. eexists. split; [done|lia].
Qed.

Lemma set_client_twice s i c c' es :
  app_inv (set_client (set_client s i c) i c') es → app_inv (set_client s i c') es.
Proof.
  intros Hi. apply (app_inv_ext _ (<[i := c']> (as_clients s))) in Hi; [exact Hi|].
  intros j. simpl. destruct (decide (i = j)) as [<-|Hne].
  - by rewrite !fn_lookup_insert.
  - by rewrite !fn_lookup_insert_ne by done.
Qed.

(** The call that returns: the Put is executed and the client goes on. *)
Lemma app_reply s es i es' ver n srv reply :
  app_inv s es → len es + 1 < 2 ^ 64 → (i < nclnt)%nat →
  ac_pc (as_clients s i) = ApPut es' ver n →
  svc_put (as_srv s) (app_args es' ver) zero_PutReply = Ret (srv, reply) →
  ∃ es1, app_inv (mkAppSys srv
      (<[i := OneClientAppend_after_Put (as_clients s i)
                (Clerk_Put_err (PutReply_Err reply) (n + 1))]> (as_clients s)) (as_flight s)) es1 ∧
    len es1 ≤ len es + 1.
Proof.
  intros Hi Hb Hn Hpc Hput. pose proof (ci_pending _ _ _ _ (ai_client _ _ Hi i) _ _ _ Hpc) as
    (Hn0 & Hver & (es0 & Hes0) & _).
  set (c1 := with_pc (as_clients s i) (ApPut es' ver (n + 1))).
  destruct (app_exec (set_client s i c1) es (app_args es' ver)) as
    (srv1 & err & es1 & Hp & Hinv & Hlen & Hcase); [by apply app_retry|done| |].
  { intros _. right. exists i, es', ver, (n + 1). simpl. rewrite fn_lookup_insert.
    split_and!; [done..|lia]. }
  simpl in Hp. rewrite Hput in Hp. simplify_eq/=. exists es1. split; [|done].
  pose proof (ai_client _ _ Hinv i) as Hc. simpl in Hc. rewrite fn_lookup_insert in Hc.
  apply (set_client_twice (mkAppSys srv1 (as_clients s) (as_flight s)) i c1).
  assert (Hlt : ver < len es1).
  { destruct Hcase as [[? _]|[(_&?&_&->)|(_&_&->&?)]]; [done|lia|]. unfold app_args in *. simplify_eq. lia. }
  apply (client_move _ _ i _ Hinv Hn).
  2: { simpl. rewrite fn_lookup_insert. intros ??? Hpc1. left. unfold c1 in Hpc1. simpl in Hpc1.
       by simplify_eq. }
  unfold OneClientAppend_after_Put, Clerk_Put_err. destruct Hcase as [[? _]|[Hc1|Hc1]]; [done|..].
  - destruct Hc1 as (_&_&->&->). destruct (decide (n = 0)) as [Hn1|Hn1].
    + rewrite Hn1. simpl. eapply client_inv_rest; [exact (ai_client _ _ Hi i)|done..|].
      by eapply client_inv_now; [apply (ai_client _ _ Hi)|..].
    + rewrite (bool_decide_eq_true_2 (1 < n + 1)) by lia. simpl.
      rewrite <- (Z.add_0_r (ac_nok _)). by apply (client_inv_next i c1 es 0 1).
  - destruct Hc1 as (_ & -> & _ & Ha). simpl. rewrite <- (Z.add_0_r (ac_nmay _)).
    apply (client_inv_next i c1 es1 1 0); [done..|]. intros _.
    injection Ha as He _. apply (f_equal dec) in He. rewrite !Hdec in He. injection He as <-.
    rewrite own_snoc. simpl. rewrite decide_True by done. set_solver.
Qed.

Lemma client_inv_top i c es pc :
  client_inv i c es (len es) → ac_pc c = ApTop ∨ ac_pc c = ApGet → 
  (∀ es' ver n, pc ≠ ApPut es' ver n) → client_inv i (with_pc c pc) es (len es).
Proof.
  intros Hc Hpc Hp. eapply client_inv_rest; [done..|].
  intros (?&?&?&Hpc'&_)%(ci_now _ _ _ _ Hc). destruct Hpc; congruence.
Qed.

Lemma app_step_inv s s' es :
  app_step s s' → app_inv s es → len es + 1 < 2 ^ 64 →
  ∃ es', app_inv s' es' ∧ len es' ≤ len es + 1.
Proof.
  intros Hstep Hi Hb. pose proof (ai_client _ _ Hi) as Hc.
  destruct Hstep as [s i Hn Hpc|s i Hn Hpc|s i ver es1 Hn Hpc Hg es2|s i es1 ver n Hn Hpc|
    s a srv reply Ha Hp|s i es1 ver n srv reply Hn Hpc Hp|s a srv reply Hk Hp].
  - exists es. split; [|lia]. apply client_move; [done..|apply client_inv_top; auto|congruence].
  - exists es. split; [|lia]. apply client_move; [done..|apply client_inv_top; auto|congruence].
  - exists es. split; [|lia]. rewrite (app_GetJson _ _ Hi) in Hg. injection Hg as <- <-.
    apply client_move; [done..| |congruence].
    pose proof (client_inv_top _ _ _ ApDone (Hc i)) as [H1 H2 H3 H4 H5 H6 H7]; [auto|done|].
    split; simpl in *; try done.
    + intros (?&?&?&?&_)%H5. done.
    + intros ??? [= <- <- <-]. split_and!; [lia|lia|unfold es2; eauto|done].
  - exists es. split; [|lia]. pose proof (app_retry _ _ _ _ _ _ Hi Hn Hpc) as Hi'.
    destruct Hi' as [H1 H2 H2' H3 H4]. split; try done. simpl in *.
    intros a [->|Ha]%elem_of_cons Hk; [|by apply H4]. right. exists i, es1, ver, (n + 1).
    rewrite fn_lookup_insert. simpl.
    pose proof (ci_pending _ _ _ _ (Hc i) _ _ _ Hpc) as (? & _). split_and!; [done..|lia].
  - destruct (app_exec s es a) as (srv1 & err & es1 & Hp' & Hinv & Hlen & _); [done..| |].
    { intros Hk. destruct (ai_flight _ _ Hi a Ha Hk) as [?|?]; [by left|by right]. }
    rewrite Hp in Hp'. simplify_eq. eauto.
  - by eapply app_reply.
  - destruct (app_exec s es a) as (srv1 & err & es1 & Hp' & Hinv & Hlen & _); [done..|].
    rewrite Hp in Hp'. simplify_eq. eauto.
Qed.

Lemma app_init_inv s : app_init s → app_inv s [].
Proof.
  intros (H1 & H2 & H3). split; [done|set_solver|intros i _; by rewrite H2| |].
  - intros i. rewrite H2. split; unfold own; simpl; try done; [constructor|set_solver].
  - rewrite H3. set_solver.
Qed.

Lemma app_reachable m s0 s :
  app_init s0 → nsteps app_step m s0 s → Z.of_nat m < 2 ^ 62 →
  ∃ es, app_inv s es ∧ len es ≤ Z.of_nat m + 1.
Proof.
  intros H0' Hs Hm. apply (nsteps_invariant app_step
    (λ m s, ∃ es, app_inv s es ∧ len es ≤ Z.of_nat m + 1) m s0 s); [| |done].
  - exists []. split; [by apply app_init_inv|simpl; lia].
  - intros k x y Hk (es & Hi & Hl) Hxy. destruct (app_step_inv x y es Hxy Hi) as (es' & ? & ?);
      [lia|]. exists es'. split; [done|lia].
Qed.

(** ** The check at the end *)

Definition app_results (s : AppSys) : list ClntRes :=
  (λ i, app_result (as_clients s i)) <$> seq 0 nclnt.

Lemma zero_counts_lookup n c :
  zero_counts n !! c = if decide (0 ≤ c < Z.of_nat n) then Some 0 else None.
Proof.
  unfold zero_counts. case_decide as Hc.
  - apply elem_of_list_to_map_1.
    + rewrite <- list_fmap_compose. apply NoDup_fmap_2_strong; [|apply NoDup_seq]. simpl. lia.
    + apply list_elem_of_fmap. exists (Z.to_nat c). rewrite elem_of_seq. split; [f_equal; lia|lia].
  - apply not_elem_of_list_to_map_1. intros Hin.
    apply list_elem_of_fmap in Hin as ([c' z] & -> & Hin).
    apply list_elem_of_fmap in Hin as (i & ? & Hi%elem_of_seq). simplify_eq/=. lia.
Qed.

Lemma check_counts_ok order skipped rs :
  (∀ c n, (c, n) ∈ order → ∃ r, 0 ≤ c ∧ rs !! Z.to_nat c = Some r ∧
    map_get 0 skipped c ≤ Nmaybe r ∧ n ≤ Nok r + Nmaybe r) →
  check_counts order skipped rs = Ret tt.
Proof.
  induction order as [|[c n] order IH]; intros Ho; simpl; [done|].
  destruct (Ho c n) as (r & Hc & -> & H1 & H2); [by left|].
  rewrite bool_decide_eq_true_2 by done. rewrite !bool_decide_eq_false_2 by lia.
  apply IH. intros. apply Ho. by right.
Qed.

(** What the invariant says about the counts of one client. *)
Lemma counted_client i c es x' y' :
  client_inv i c es (len es) → (∀ es' ver n, ac_pc c ≠ ApPut es' ver n) →
  counted (Z.of_nat i) es 0 0 x' y' → y' ≤ ac_nmay c ∧ x' ≤ ac_nok c + ac_nmay c.
Proof.
  intros [H1 H2 H3 H4 H5 H6 H7] Hpc [A B C].
  assert (Hout : ac_i c ∉ own (Z.of_nat i) es).
  { intros (?&?&?&Hp&_)%H5. by apply Hpc in Hp. }
  rewrite decide_False in H6 by done.
  assert (x' ≤ ac_i c).
  { apply B; [lia|]. rewrite Forall_forall in *. intros k Hk. specialize (H4 k Hk).
    destruct (decide (k = ac_i c)); [naive_solver|lia]. }
  lia.
Qed.

Lemma CheckAppends_inv visit s es :
  app_inv s es → (∀ m, visit m ≡ₚ map_to_list m) → len es < 2 ^ 63 →
  (∀ i es' ver n, ac_pc (as_clients s i) ≠ ApPut es' ver n) →
  CheckAppends visit es nclnt (app_results s) (len es) = Ret tt.
Proof.
  intros Hi Hv Hb Hpc. unfold CheckAppends.
  destruct (count_entries_spec es (zero_counts nclnt) (zero_counts nclnt))
    as (ex & sk & -> & D1 & D2 & Hcount); [done| | |].
  - intros e (i & Hn & ->)%(ai_ids _ _ Hi). rewrite zero_counts_lookup, decide_True by lia. done.
  - intros c x Hx. rewrite zero_counts_lookup in Hx. case_decide; simplify_eq.
    pose proof (ai_client _ _ Hi (Z.to_nat c)) as [_ _ Hs Hr _ _ _].
    rewrite Z2Nat.id in Hs, Hr by lia. split; [done|].
    eapply Forall_impl; [done|]. simpl. lia.
  - simpl. rewrite bool_decide_eq_false_2.
    2:{ unfold i64_wrap. rewrite Z.mod_small; lia. }
    apply check_counts_ok. intros c x Hx. rewrite Hv, elem_of_map_to_list in Hx.
    assert (Hc : c ∈ dom (zero_counts nclnt)) by (rewrite <- D1; by apply elem_of_dom).
    apply elem_of_dom in Hc as [z Hz]. pose proof Hz as Hz'. rewrite zero_counts_lookup in Hz'.
    case_decide as Hrange; simplify_eq.
    assert (Hsk : is_Some (sk !! c)).
    { apply elem_of_dom. rewrite D2, <- D1. by apply elem_of_dom. }
    destruct Hsk as [y Hy]. pose proof (Hcount c 0 0 x y Hz Hz Hx Hy) as Hct.
    exists (app_result (as_clients s (Z.to_nat c))). split_and!; [lia| | |].
    + unfold app_results. rewrite list_lookup_fmap, lookup_seq_lt by lia. done.
    + unfold map_get. rewrite Hy. simpl. rewrite <- (Z2Nat.id c) in Hct by lia.
      by apply (counted_client _ _ _ _ _ (ai_client _ _ Hi (Z.to_nat c))) in Hct as [? _].
    + rewrite <- (Z2Nat.id c) in Hct by lia.
      by apply (counted_client _ _ _ _ _ (ai_client _ _ Hi (Z.to_nat c))) in Hct as [_ ?].
Qed.

(** C9: checkAppends_accepts: the append test raises no false alarm. Whatever calls are lost,
    repeated or delayed, [GetJson] succeeds in every state, and once all clients have returned
    [CheckAppends] accepts the final list, its version and the clients' counters. *)
Theorem CheckAppends_accepts visit m s0 s :
  app_init s0 → nsteps app_step m s0 s → Z.of_nat m < 2 ^ 62 →
  (∀ c : gmap Z Z, visit c ≡ₚ map_to_list c) →
  ∃ ver es, GetJson dec (app_get s) = Ret (ver, es) ∧
    ((∀ i, (i < nclnt)%nat → ac_pc (as_clients s i) = ApDone) →
     CheckAppends visit es nclnt (app_results s) ver = Ret tt).
Proof.
  intros H0' Hs Hm Hv. destruct (app_reachable m s0 s H0' Hs Hm) as (es & Hi & Hl).
  exists (len es), es. split; [by apply app_GetJson|]. intros Hd.
  apply CheckAppends_inv; [done..|lia|]. intros i ??? Hpc.
  destruct (decide (i < nclnt)%nat); [rewrite Hd in Hpc by done; done|].
  rewrite (ai_idle _ _ Hi) in Hpc by lia. done.
Qed.
End append.

(** ** An example run *)

#[export] Instance AppEntry_countable : Countable AppEntry.
Proof.
  apply (inj_countable' (λ e, (ae_Id e, ae_N e)) (λ p, mkAppEntry p.1 p.2)). by intros [].
Defined.

Definition app_ex : AppSys (St := KVServer) :=
  mkAppSys (mkKVServer {["k" := mkEntry (bits_enc (@nil AppEntry)) 1]}) (λ _, mkAppClient ApTop 0 0 0) [].

(** Client 0 appends one entry, its first call being lost and executed late. *)
Lemma app_ex_run :
  ∃ s, nsteps (app_step bits_enc bits_dec 1) 6 app_ex s ∧
    (∀ i, (i < 1)%nat → ac_pc (as_clients s i) = ApDone).
Proof.
  set (es := [mkAppEntry 0 0]). set (a := app_args bits_enc es 1). eexists. split.
  - eapply nsteps_l; [by apply (app_start _ _ _ _ 0); [lia|]|].
    eapply nsteps_l; [apply (app_read _ _ _ _ 0 1 []); [lia|done|reflexivity]|].
    simpl. eapply nsteps_l; [apply (app_put_lost _ _ _ _ 0 es 1 0); [lia|done]|]. simpl.
    eapply nsteps_l; [eapply (app_put_late _ _ _ _ a); [left|reflexivity]|]. simpl.
    eapply nsteps_l; [eapply (app_put_reply _ _ _ _ 0 es 1 1); [lia|done|reflexivity]|]. simpl.
    eapply nsteps_l; [by apply (app_done _ _ _ _ 0); [lia|]|]. apply nsteps_O.
  - intros [|i]; [done|lia].
Qed.

Lemma CheckAppends_accepts_witness :
  ∃ s ver es, nsteps (app_step bits_enc bits_dec 1) 6 app_ex s ∧
    GetJson bits_dec (app_get s) = Ret (ver, es) ∧
    CheckAppends map_to_list es 1 (app_results 1 s) ver = Ret tt.
Proof.
  destruct app_ex_run as (s & Hs & Hd).
  destruct (CheckAppends_accepts bits_enc bits_dec 1 bits_dec_enc map_to_list 6 app_ex s)
    as (ver & es & Hg & Hc); [|done|reflexivity|done|].
  - split_and!; [reflexivity|done..].
  - exists s, ver, es. auto.
Defined.
