(* ===== verification/Fnv.v ===== *)
(** * FNV-1a hashing of keys ([hash/fnv], [shardcfg.Key2Shard], [mr.ihash])

    Go's [fnv.New32a] as the standard library documents it, over the bytes of a string,
    and the two functions of the repository that reduce the hash. *)

From S2P Require Export Prelude.

Local Open Scope Z_scope.

Definition offset32 : Z := 2166136261.
Definition prime32 : Z := 16777619.

Definition fnv_byte (h : Z) (b : Ascii.ascii) : Z :=
  u32_wrap (Z.lxor h (Z.of_N (Ascii.N_of_ascii b)) * prime32).

(** [h := fnv.New32a(); h.Write([]byte(key)); h.Sum32()] *)
Definition Sum32a (key : string) : Z :=
  foldl fnv_byte offset32 (String.list_ascii_of_string key).

Definition NShards : Z := 12.

Definition Key2Shard (key : string) : Z := Z.rem (Sum32a key) NShards.

Definition ihash (key : string) : Z := Z.land (Sum32a key) 0x7fffffff.

(** Published test vectors of FNV-1a. *)
Example Sum32a_empty : Sum32a "" = 0x811c9dc5.
Proof. reflexivity. Qed.

Example Sum32a_a : Sum32a "a" = 0xe40c292c.
Proof. reflexivity. Qed.

Example Sum32a_foobar : Sum32a "foobar" = 0xbf9cf968.
Proof. reflexivity. Qed.

Lemma Sum32a_range key : 0 ≤ Sum32a key < 2 ^ 32.
Proof.
  unfold Sum32a. assert (H : 0 ≤ offset32 < 2 ^ 32) by done. revert H.
  generalize offset32. induction (String.list_ascii_of_string key) as [|b bs IH];
    intros h Hh; simpl; [done|].
  apply IH, u32_wrap_range.
Qed.

Lemma ihash_mod key : ihash key = Sum32a key `mod` 2 ^ 31.
Proof. unfold ihash. by rewrite <-(Z.land_ones (Sum32a key) 31). Qed.

(** Every key has a shard in range, and the hash that picks a reduce bucket is a
    non-negative 31-bit number, so [ihash(key) % n] is a valid bucket for every n > 0;
    the masking only drops the top bit of the 32-bit hash. *)
Theorem key_hash_ranges key :
  0 ≤ Key2Shard key < NShards ∧ 0 ≤ ihash key < 2 ^ 31 ∧
  (∀ n, 0 < n → 0 ≤ Z.rem (ihash key) n < n) ∧
  (ihash key = Sum32a key ∨ ihash key = Sum32a key - 2 ^ 31).
Proof.
  pose proof (Sum32a_range key) as H.
  assert (Hi : 0 ≤ ihash key < 2 ^ 31)
    by (rewrite ihash_mod; by apply Z.mod_pos_bound).
  split_and!.
  - apply Z.rem_nonneg; [done|lia].
  - unfold Key2Shard, NShards. pose proof (Z.rem_bound_pos (Sum32a key) 12). lia.
  - lia.
  - lia.
  - intros n Hn. pose proof (Z.rem_bound_pos (ihash key) n). lia.
  - rewrite ihash_mod. pose proof (Z.div_mod (Sum32a key) (2 ^ 31) ltac:(done)).
    assert (Sum32a key / 2 ^ 31 = 0 ∨ Sum32a key / 2 ^ 31 = 1) as [E|E]; [|lia..].
    assert (0 ≤ Sum32a key / 2 ^ 31 < 2); [|lia].
    split; [by apply Z.div_pos; lia|apply Z.div_lt_upper_bound; lia].
Qed.
