(* ===== verification/ShardCfg.v ===== *)
(** * Shard configurations ([shardkv1/shardcfg/shardcfg.go])

    A configuration assigns each of the 12 shards to a replica group. Groups are added
    and removed with [JoinBalance] and [LeaveBalance]; [Rebalance] spreads the shards.
    Where the Go code ranges over a map in an order that matters, the order is an
    argument of the model. *)

From S2P Require Export Fnv.

Local Open Scope Z_scope.

Abbreviation Tgid := Z (only parsing).
Abbreviation Tshid := Z (only parsing).
Abbreviation Tnum := Z (only parsing).

Definition NumFirst : Tnum := 1.
Definition Gid1 : Tgid := 1.

Record ShardConfig := mkShardConfig {
  Num : Tnum;
  Shards : list Tgid;
  Groups : gmap Tgid (list string)
}.

#[export] Instance ShardConfig_eq_dec : EqDecision ShardConfig.
Proof. solve_decision. Defined.

Definition set_Shards (c : ShardConfig) (l : list Tgid) : ShardConfig :=
  mkShardConfig (Num c) l (Groups c).

Definition set_Groups (c : ShardConfig) (m : gmap Tgid (list string)) : ShardConfig :=
  mkShardConfig (Num c) (Shards c) m.

Definition MakeShardConfig : ShardConfig :=
  mkShardConfig 0 (replicate (Z.to_nat NShards) 0) ∅.

(** [order] lists the entries of [cfg.Groups] as [range] yields them. *)
Definition Copy (order : list (Tgid * list string)) (cfg : ShardConfig) : ShardConfig :=
  mkShardConfig (Num cfg) (Shards cfg)
    (foldl (λ m e, <[e.1 := e.2]> m) (Groups MakeShardConfig) order).

(** Configurations as strings; [Marshal] and [Unmarshal] are those of [encoding/json], the second
    one into a value that is there. *)
Section json.
Context (Marshal : ShardConfig → option string) (Unmarshal : string → ShardConfig → option ShardConfig).

Definition ShardConfig_String (cfg : ShardConfig) : outcome string :=
  match Marshal cfg with
  | Some b => Ret b
  | None => Fatal "Unmarshall err"
  end.

Definition FromString (s : string) : outcome ShardConfig :=
  let scfg := mkShardConfig 0 (replicate (Z.to_nat NShards) 0) ∅ in
  match Unmarshal s scfg with
  | Some scfg => Ret scfg
  | None => Fatal "Unmarshall err"
  end.
End json.

(** [counts[g] += 1] over the shards. *)
Definition shard_counts (l : list Tgid) : gmap Tgid Z :=
  foldl (λ counts g, <[g := map_get 0 counts g + 1]> counts) ∅ l.

(** The body of the loop over the sorted groups. *)
Definition analyze_step (counts : gmap Tgid Z) (acc : Tgid * Z * Tgid * Z) (g : Tgid)
    : Tgid * Z * Tgid * Z :=
  let '(mg, mn, lg, ln) := acc in
  let '(lg, ln) := if map_get 0 counts g <? ln then (g, map_get 0 counts g) else (lg, ln) in
  let '(mg, mn) := if mn <? map_get 0 counts g then (g, map_get 0 counts g) else (mg, mn) in
  (mg, mn, lg, ln).

Definition sorted_gids (c : ShardConfig) : list Tgid :=
  merge_sort Z.le (map_to_list (Groups c)).*1.

(** The most and the least loaded group, with their numbers of shards. *)
Definition analyze (c : ShardConfig) : Tgid * Z * Tgid * Z :=
  foldl (analyze_step (shard_counts (Shards c))) (-1, -1, -1, 257) (sorted_gids c).

Definition least (c : ShardConfig) : Tgid := let '(_, _, lg, _) := analyze c in lg.

(** One iteration of the loop over the unassigned shards. *)
Definition assign_shard (c : ShardConfig) (sg : nat * Tgid) : ShardConfig :=
  match Groups c !! sg.2 with
  | Some _ => c
  | None => set_Shards c (<[sg.1 := least c]> (Shards c))
  end.

(** Move the first shard of [mg] to [lg]. *)
Fixpoint move_first (mg lg : Tgid) (l : list Tgid) : list Tgid :=
  match l with
  | [] => []
  | g :: l => if g =? mg then lg :: l else g :: move_first mg lg l
  end.

Fixpoint balance_loop (fuel : nat) (c : ShardConfig) : outcome ShardConfig :=
  match fuel with
  | O => out_of_fuel
  | S fuel =>
      let '(mg, mn, lg, ln) := analyze c in
      if mn <? ln + 2 then Ret c
      else balance_loop fuel (set_Shards c (move_first mg lg (Shards c)))
  end.

(** Twelve shards make at most 66 pairs, and every move removes one. *)
Definition balance_fuel : nat := 67.

(** [for s, g := range c.Shards] ranges over a copy of the array, so the assignment
    loop sees the old shards. *)
Definition Rebalance (c : ShardConfig) : outcome ShardConfig :=
  if decide (size (Groups c) < 1)%nat then
    Ret (set_Shards c ((λ _, 0) <$> Shards c))
  else balance_loop balance_fuel (foldl assign_shard c (imap pair (Shards c))).

Definition shares_server (servers xservers : list string) : bool :=
  existsb (λ s1, existsb (λ s2, bool_decide (s1 = s2)) servers) xservers.

(** [servers] lists the map of joining groups in the order of [range]; the flag is
    [changed]. The loop over [cfg.Groups] only looks for a clash, in any order. *)
Fixpoint Join_loop (cfg : ShardConfig) (servers : list (Tgid * list string)) (changed : bool)
    : outcome (ShardConfig * bool) :=
  match servers with
  | [] =>
      if changed
      then Ret (mkShardConfig (i64_wrap (Num cfg + 1)) (Shards cfg) (Groups cfg), true)
      else Fatal "Join but no change"
  | (gid, srvs) :: rest =>
      match Groups cfg !! gid with
      | Some _ => Ret (cfg, false)
      | None =>
          if existsb (λ x, shares_server srvs x.2) (map_to_list (Groups cfg))
          then Fatal "Join puts server in two groups"
          else Join_loop (set_Groups cfg (<[gid := srvs]> (Groups cfg))) rest true
      end
  end.

Definition Join (cfg : ShardConfig) (servers : list (Tgid * list string))
    : outcome (ShardConfig * bool) := Join_loop cfg servers false.

Fixpoint Leave_loop (cfg : ShardConfig) (gids : list Tgid) (changed : bool)
    : outcome (ShardConfig * bool) :=
  match gids with
  | [] =>
      if changed
      then Ret (mkShardConfig (i64_wrap (Num cfg + 1)) (Shards cfg) (Groups cfg), true)
      else Fatal "Leave but no change"
  | gid :: rest =>
      match Groups cfg !! gid with
      | None => Ret (cfg, false)
      | Some _ => Leave_loop (set_Groups cfg (delete gid (Groups cfg))) rest true
      end
  end.

Definition Leave (cfg : ShardConfig) (gids : list Tgid) : outcome (ShardConfig * bool) :=
  Leave_loop cfg gids false.

Definition JoinBalance (cfg : ShardConfig) (servers : list (Tgid * list string))
    : outcome (ShardConfig * bool) :=
  '(cfg, ok) ← Join cfg servers;
  if ok : bool then cfg ← Rebalance cfg; Ret (cfg, true) else Ret (cfg, false).

Definition LeaveBalance (cfg : ShardConfig) (gids : list Tgid)
    : outcome (ShardConfig * bool) :=
  '(cfg, ok) ← Leave cfg gids;
  if ok : bool then cfg ← Rebalance cfg; Ret (cfg, true) else Ret (cfg, false).

Definition GidServers (cfg : ShardConfig) (sh : Tshid) : outcome (Tgid * list string * bool) :=
  match (if 0 <=? sh then Shards cfg !! Z.to_nat sh else None) with
  | None => Panic "index out of range"
  | Some gid =>
      match Groups cfg !! gid with
      | Some srvs => Ret (gid, srvs, true)
      | None => Ret (gid, [], false)
      end
  end.

Definition IsMember (cfg : ShardConfig) (gid : Tgid) : bool :=
  existsb (λ g, g =? gid) (Shards cfg).

(** The body of the loop that looks for the largest and smallest load. *)
Definition min_max_step (counts : gmap Tgid Z) (mm : Z * Z) (g : Tgid) : Z * Z :=
  let '(mn, mx) := mm in
  let mx := if mx <? map_get 0 counts g then map_get 0 counts g else mx in
  let mn := if map_get 0 counts g <? mn then map_get 0 counts g else mn in
  (mn, mx).

(** [order] lists the keys of [cfg.Groups] as [range] yields them. *)
Definition CheckConfig (order : list Tgid) (cfg : ShardConfig) (groups : list Tgid)
    : outcome unit :=
  if negb (size (Groups cfg) =? length groups)%nat then Fatal "wanted groups, got" else
  if negb (forallb (λ g, bool_decide (is_Some (Groups cfg !! g))) groups)
  then Fatal "missing group" else
  if (0 <? length groups)%nat &&
     negb (forallb (λ g, bool_decide (is_Some (Groups cfg !! g))) (Shards cfg))
  then Fatal "invalid group" else
  let counts := shard_counts (Shards cfg) in
  let '(mn, mx) := foldl (min_max_step counts) (257, 0) order in
  if mn + 1 <? mx then Fatal "max too much larger than min" else Ret tt.

(** ** Counting and analysing *)

Lemma shard_counts_spec l g : map_get 0 (shard_counts l) g = occ g l.
Proof.
  unfold shard_counts. enough (H : ∀ m, map_get 0 (foldl (λ counts g,
      <[g := map_get 0 counts g + 1]> counts) m l) g = map_get 0 m g + occ g l) by apply H.
  induction l as [|x l IH]; intros m; simpl; [unfold occ; simpl; lia|].
  rewrite IH, occ_cons. case_decide as Hx.
  - subst. rewrite map_get_insert_eq. lia.
  - rewrite map_get_insert_ne by done. lia.
Qed.

Lemma elem_of_sorted_gids c g : g ∈ sorted_gids c ↔ is_Some (Groups c !! g).
Proof.
  unfold sorted_gids. rewrite merge_sort_Permutation. rewrite list_elem_of_fmap. split.
  - intros ([k v] & -> & Hkv). apply elem_of_map_to_list in Hkv. eauto.
  - intros [v Hv]. exists (g, v). by rewrite elem_of_map_to_list.
Qed.

(** The loop keeps the extreme counts seen, and a group that has them. *)
Lemma analyze_fold counts gs mg mn lg ln mg' mn' lg' ln' :
  foldl (analyze_step counts) (mg, mn, lg, ln) gs = (mg', mn', lg', ln') →
  (mn ≤ mn' ∧ (∀ g, g ∈ gs → map_get 0 counts g ≤ mn') ∧
     (mg' = mg ∧ mn' = mn ∨ mg' ∈ gs ∧ mn' = map_get 0 counts mg')) ∧
  (ln' ≤ ln ∧ (∀ g, g ∈ gs → ln' ≤ map_get 0 counts g) ∧
     (lg' = lg ∧ ln' = ln ∨ lg' ∈ gs ∧ ln' = map_get 0 counts lg')).
Proof.
  revert mg mn lg ln. induction gs as [|g gs IH]; intros mg mn lg ln Hf; simpl in Hf.
  - simplify_eq/=. split_and!; first [lia | by left | set_solver].
  -
    destruct (Z.ltb_spec (map_get 0 counts g) ln), (Z.ltb_spec mn (map_get 0 counts g));
      apply IH in Hf as ((H1&H2&H3)&(H4&H5&H6)); setoid_rewrite elem_of_cons;
      (split_and!; [lia|intros k [->|?]; [lia|by apply H2]| |lia|
                    intros k [->|?]; [lia|by apply H5]| ]); naive_solver.
Qed.

Definition len12 (c : ShardConfig) : Prop := length (Shards c) = 12%nat.

(** What [analyze] finds in a configuration with a group. *)
Lemma analyze_spec c mg mn lg ln :
  len12 c → Groups c ≠ ∅ → analyze c = (mg, mn, lg, ln) →
  is_Some (Groups c !! mg) ∧ mn = occ mg (Shards c) ∧
  is_Some (Groups c !! lg) ∧ ln = occ lg (Shards c) ∧
  ∀ g, is_Some (Groups c !! g) → ln ≤ occ g (Shards c) ≤ mn.
Proof.
  intros Hl Hne Ha. unfold analyze in Ha. apply analyze_fold in Ha as ((_&H2&H3)&(_&H5&H6)).
  setoid_rewrite elem_of_sorted_gids in H2. setoid_rewrite elem_of_sorted_gids in H5.
  rewrite elem_of_sorted_gids in H3, H6.
  setoid_rewrite shard_counts_spec in H2. setoid_rewrite shard_counts_spec in H5.
  rewrite shard_counts_spec in H3, H6.
  apply map_choose in Hne as (g & v & Hg). unfold len12 in Hl.
  pose proof (H2 g (mk_is_Some _ _ Hg)). pose proof (H5 g (mk_is_Some _ _ Hg)).
  pose proof (occ_bounds g (Shards c)). rewrite Hl in *.
  destruct H3 as [[??]|[??]], H6 as [[??]|[??]]; try lia. split_and!; auto.
Qed.

Lemma least_spec c :
  len12 c → Groups c ≠ ∅ →
  is_Some (Groups c !! least c) ∧
  ∀ g, is_Some (Groups c !! g) → occ (least c) (Shards c) ≤ occ g (Shards c).
Proof.
  intros Hl Hne. unfold least. destruct (analyze c) as [[[mg mn] lg] ln] eqn:Ha.
  apply analyze_spec in Ha as (_&_&H3&->&H5); [|done..]. naive_solver.
Qed.

(** ** Rebalancing *)

Definition assigned (c : ShardConfig) : Prop :=
  ∀ g, g ∈ Shards c → is_Some (Groups c !! g).

Definition balanced (c : ShardConfig) : Prop :=
  ∀ g h, is_Some (Groups c !! g) → is_Some (Groups c !! h) →
    occ g (Shards c) ≤ occ h (Shards c) + 1.

(** The invariant of the configurations the controller works with. *)
Record valid_config (c : ShardConfig) : Prop := {
  vc_len : len12 c;
  vc_none : Groups c = ∅ → ∀ g, g ∈ Shards c → g = 0;
  vc_assigned : Groups c ≠ ∅ → assigned c;
  vc_balanced : balanced c
}.

Lemma len12_insert c s g : len12 c → len12 (set_Shards c (<[s := g]> (Shards c))).
Proof. unfold len12. simpl. by rewrite length_insert. Qed.

(** *** Assigning the unassigned shards *)

Lemma assign_fold c sgs :
  len12 c → Groups c ≠ ∅ → NoDup sgs.*1 →
  (∀ s g, (s, g) ∈ sgs → Shards c !! s = Some g) →
  let c' := foldl assign_shard c sgs in
  Num c' = Num c ∧ Groups c' = Groups c ∧ len12 c' ∧
  ∀ s g, Shards c !! s = Some g → ∃ g', Shards c' !! s = Some g' ∧
    (is_Some (Groups c !! g) → g' = g) ∧ ((s, g) ∈ sgs → is_Some (Groups c !! g')).
Proof.
  intros Hl Hne. revert c Hl Hne. induction sgs as [|[s0 g0] sgs IH]; intros c Hl Hne Hnd Hin;
    simpl in *.
  { split_and!; [done..|]. intros s g Hs. exists g. set_solver. }
  apply NoDup_cons in Hnd as [Hs0 Hnd].
  assert (Hg0 : Shards c !! s0 = Some g0) by (apply Hin; left).
  assert (Hns : ∀ s g, (s, g) ∈ sgs → s ≠ s0).
  { intros s g Hs ->. apply Hs0. rewrite list_elem_of_fmap. by exists (s0, g). }
  destruct (Groups c !! g0) as [v|] eqn:Eg; unfold assign_shard at 2 4 6 8; simpl; rewrite Eg.
  - destruct (IH c) as (H1&H2&H3&H4); [done..|set_solver|]. split_and!; [done..|].
    intros s g Hs. destruct (H4 s g Hs) as (g'&?&?&Hg'). exists g'. split_and!; [done..|].
    intros [Heq|?]%elem_of_cons; [|auto]. simplify_eq. rewrite (H0 ltac:(eauto)). eauto.
  - set (c1 := set_Shards c (<[s0 := least c]> (Shards c))).
    destruct (least_spec c) as [Hleast _]; [done..|].
    destruct (IH c1) as (H1&H2&H3&H4); [by apply len12_insert|done..| |].
    { intros s g Hs. simpl. rewrite list_lookup_insert_ne; [set_solver|]. intros ->. by eapply Hns. }
    split_and!; [done..|]. intros s g Hs. destruct (decide (s = s0)) as [->|Hne0].
    + destruct (H4 s0 (least c)) as (g'&?&Hg'&?).
      { simpl. by apply list_lookup_insert_eq, lookup_lt_is_Some_1. }
      exists g'. rewrite (Hg' Hleast) in *. split_and!; [done| |done].
      intros [? ?]. congruence.
    + destruct (H4 s g) as (g'&?&?&?); [simpl; by rewrite list_lookup_insert_ne|].
      exists g'. split_and!; [done..|]. intros [?|?]%elem_of_cons; [by simplify_eq|auto].
Qed.

Lemma assign_all c :
  len12 c → Groups c ≠ ∅ →
  let c' := foldl assign_shard c (imap pair (Shards c)) in
  Num c' = Num c ∧ Groups c' = Groups c ∧ len12 c' ∧ assigned c' ∧
  ∀ s g, Shards c !! s = Some g → is_Some (Groups c !! g) → Shards c' !! s = Some g.
Proof.
  intros Hl Hne c'. destruct (assign_fold c (imap pair (Shards c))) as (H1&H2&H3&H4);
    [done..| | |].
  - rewrite fmap_imap. rewrite (imap_seq_0 _ (λ i, i)), list_fmap_id. apply NoDup_seq.
  - intros s g. rewrite elem_of_lookup_imap. intros (i & x & ? & ?). by simplify_eq.
  - fold c' in H1, H2, H3, H4. split_and!; [done..| |].
    + intros g' Hg'. rewrite H2. apply list_elem_of_lookup_1 in Hg' as [s Hs].
      assert (is_Some (Shards c !! s)) as [g Hg].
      { apply lookup_lt_is_Some. apply lookup_lt_Some in Hs. unfold len12 in *. lia. }
      destruct (H4 s g Hg) as (g''&Hs'&_&Hin). simplify_eq. apply Hin.
      rewrite elem_of_lookup_imap. eauto.
    + intros s g Hs Hg. destruct (H4 s g Hs) as (g'&?&Heq&_). by rewrite <-(Heq Hg).
Qed.

(** *** Moving shards from the most to the least loaded group *)

Lemma move_first_insert mg lg l :
  mg ∈ l → ∃ s, l !! s = Some mg ∧ move_first mg lg l = <[s := lg]> l.
Proof.
  induction l as [|g l IH]; [set_solver|]. simpl. destruct (Z.eqb_spec g mg) as [->|Hne].
  - intros _. by exists 0%nat.
  - intros [?|Hin]%elem_of_cons; [done|]. destruct (IH Hin) as (s & ? & ->). by exists (S s).
Qed.

(** A move from the most loaded group [mg] to the least loaded group [lg]. *)
Record shard_move (c : ShardConfig) (s : nat) (mg lg : Tgid) : Prop := {
  sm_from : Shards c !! s = Some mg;
  sm_to : is_Some (Groups c !! lg);
  sm_gap : occ lg (Shards c) + 2 ≤ occ mg (Shards c);
  sm_mg : is_Some (Groups c !! mg);
  sm_bounds g : is_Some (Groups c !! g) →
    occ lg (Shards c) ≤ occ g (Shards c) ≤ occ mg (Shards c)
}.

Definition moved (c : ShardConfig) (s : nat) (lg : Tgid) : ShardConfig :=
  set_Shards c (<[s := lg]> (Shards c)).

(** The loop returns a balanced configuration that every move-invariant holds of. *)
Lemma balance_loop_spec (I : ShardConfig → Prop) fuel c :
  len12 c → Groups c ≠ ∅ → equal_pairs (Shards c) < Z.of_nat fuel →
  (∀ c s mg lg, I c → shard_move c s mg lg → I (moved c s lg)) → I c →
  ∃ c', balance_loop fuel c = Ret c' ∧ Num c' = Num c ∧ Groups c' = Groups c ∧
    len12 c' ∧ balanced c' ∧ I c'.
Proof.
  intros Hl Hne Hf HI. revert c Hl Hne Hf. induction fuel as [|fuel IH]; intros c Hl Hne Hf Hc.
  { pose proof (equal_pairs_bounds (Shards c)). lia. }
  cbn [balance_loop]. destruct (analyze c) as [[[mg mn] lg] ln] eqn:Ha.
  destruct (analyze_spec c _ _ _ _ Hl Hne Ha) as (Hmg & -> & Hlg & -> & Hb).
  destruct (Z.ltb_spec (occ mg (Shards c)) (occ lg (Shards c) + 2)) as [Hlt|Hge].
  { exists c. split_and!; [done..| |done]. intros g h Hg Hh.
    pose proof (Hb g Hg). pose proof (Hb h Hh). lia. }
  pose proof (occ_bounds lg (Shards c)).
  destruct (move_first_insert mg lg (Shards c)) as (s & Hs & ->); [apply occ_pos; lia|].
  destruct (IH (moved c s lg)) as (c' & ? & ? & ? & ? & ? & ?); [..|by exists c'].
  - by apply len12_insert.
  - done.
  - simpl. rewrite (equal_pairs_insert _ _ mg); [lia|done|]. intros ->. lia.
  - by apply (HI c s mg lg).
Qed.

(** Any group that receives a shard is a group of the configuration. *)
Lemma assigned_move c s mg lg : assigned c → shard_move c s mg lg → assigned (moved c s lg).
Proof.
  intros Ha Hm g. simpl.
  destruct (insert_split _ _ _ lg (sm_from _ _ _ _ Hm)) as (k & Hp & ->).
  intros [->|Hg]%elem_of_cons; [apply Hm|]. apply Ha. rewrite Hp. by right.
Qed.

Lemma Rebalance_empty c :
  Groups c = ∅ → Rebalance c = Ret (set_Shards c ((λ _, 0) <$> Shards c)).
Proof. intros He. unfold Rebalance. by rewrite He, map_size_empty, decide_True by lia. Qed.

Lemma Rebalance_nonempty (I : ShardConfig → Prop) c :
  len12 c → Groups c ≠ ∅ →
  (∀ c s mg lg, I c → shard_move c s mg lg → I (moved c s lg)) →
  I (foldl assign_shard c (imap pair (Shards c))) →
  ∃ c', Rebalance c = Ret c' ∧ Num c' = Num c ∧ Groups c' = Groups c ∧
    valid_config c' ∧ I c'.
Proof.
  intros Hl Hne HI Hc. unfold Rebalance.
  rewrite decide_False by (rewrite <-map_size_non_empty_iff in Hne; lia).
  destruct (assign_all c Hl Hne) as (H1&H2&H3&H4&_).
  set (c1 := foldl _ _ _) in *.
  destruct (balance_loop_spec (λ c, assigned c ∧ I c) balance_fuel c1)
    as (c' & ? & ? & Hg & ? & ? & ? & ?); [done|by rewrite H2| | |done|].
  - pose proof (equal_pairs_bounds (Shards c1)) as Hb. rewrite H3 in Hb.
    unfold balance_fuel. lia.
  - intros ? ? ? ? [? ?] ?. split; [by eapply assigned_move|by eapply HI].
  - exists c'. split_and!; [done|congruence|congruence| |done].
    split; [done| |done|done]. rewrite Hg, H2. done.
Qed.

(** Rebalancing always terminates, in a valid configuration with the same groups. *)
Lemma Rebalance_total c :
  len12 c → ∃ c', Rebalance c = Ret c' ∧ Num c' = Num c ∧ Groups c' = Groups c ∧
    valid_config c'.
Proof.
  intros Hl. destruct (decide (Groups c = ∅)) as [He|Hne].
  - rewrite Rebalance_empty by done. eexists. split_and!; [done..|].
    split; simpl; rewrite ?He.
    + unfold len12. simpl. by rewrite length_fmap.
    + intros _ g (? & -> & _)%list_elem_of_fmap. done.
    + done.
    + intros g h []. simpl in *. by rewrite He, lookup_empty in *.
  - destruct (Rebalance_nonempty (λ _, True) c) as (c' & ? & ? & ? & ? & _); eauto.
Qed.

Lemma ShardConfig_eq c c' :
  Num c' = Num c → Groups c' = Groups c → len12 c → len12 c' →
  (∀ s g, Shards c !! s = Some g → Shards c' !! s = Some g) → c' = c.
Proof.
  destruct c as [n l m], c' as [n' l' m']; simpl. intros -> -> Hl Hl' Hs. f_equal.
  unfold len12 in *; simpl in *. apply list_eq_same_length with 12%nat; [done..|].
  intros i x y Hi Hx Hy. apply Hs in Hy. congruence.
Qed.

(** Nothing to assign: the first loop changes nothing. *)
Lemma assign_none c :
  len12 c → Groups c ≠ ∅ → assigned c → foldl assign_shard c (imap pair (Shards c)) = c.
Proof.
  intros Hl Hne Ha. destruct (assign_all c Hl Hne) as (?&?&?&?&Hs). apply ShardConfig_eq; try done.
  intros s g Hsg. apply Hs; [done|]. apply Ha. by eapply list_elem_of_lookup_2.
Qed.

(** A valid configuration stays as it is. *)
Lemma Rebalance_id c : valid_config c → Rebalance c = Ret c.
Proof.
  intros [Hl Hn Ha Hb]. destruct (decide (Groups c = ∅)) as [He|Hne].
  - rewrite Rebalance_empty by done. f_equal. apply ShardConfig_eq; try done.
    + unfold len12. simpl. by rewrite length_fmap.
    + intros s g Hs. simpl. rewrite list_lookup_fmap, Hs. simpl.
      by rewrite (Hn He g) by by eapply list_elem_of_lookup_2.
  - destruct (Rebalance_nonempty (λ x, x = c) c) as (c' & ? & _ & _ & _ & ->); [done..| | |done].
    + intros ? s mg lg -> [? ? ? Hmg Hbd]. destruct (Hbd lg ltac:(done)).
      pose proof (Hb mg lg ltac:(done) ltac:(done)). lia.
    + by apply assign_none; auto.
Qed.

(** ** Joining and leaving *)

Definition disjoint_servers (s1 s2 : list string) : Prop := ∀ x, x ∈ s1 → x ∉ s2.

Lemma shares_server_false s1 s2 : shares_server s1 s2 = false ↔ disjoint_servers s1 s2.
Proof.
  unfold shares_server, disjoint_servers. rewrite <-not_true_iff_false, existsb_exists. split.
  - intros Hn x H1 H2. apply Hn. exists x. split; [by apply list_elem_of_In|].
    apply existsb_exists. exists x. rewrite <-list_elem_of_In. by rewrite bool_decide_eq_true_2.
  - intros Hd (x & Hx & (y & Hy & He)%existsb_exists). apply bool_decide_eq_true_1 in He as <-.
    rewrite <-list_elem_of_In in *. by eapply Hd.
Qed.

(** The map of joining groups can be added: it is not empty, the groups are new, and no
    server is in two groups. *)
Record joinable (c : ShardConfig) (servers : list (Tgid * list string)) : Prop := {
  jn_nonempty : servers ≠ [];
  jn_nodup : NoDup servers.*1;
  jn_fresh g : g ∈ servers.*1 → Groups c !! g = None;
  jn_old g1 s1 g2 s2 : (g1, s1) ∈ servers → Groups c !! g2 = Some s2 → disjoint_servers s1 s2;
  jn_new g1 s1 g2 s2 : (g1, s1) ∈ servers → (g2, s2) ∈ servers → g1 ≠ g2 →
    disjoint_servers s1 s2
}.

Definition joined (c : ShardConfig) (servers : list (Tgid * list string)) : ShardConfig :=
  mkShardConfig (i64_wrap (Num c + 1)) (Shards c) (list_to_map servers ∪ Groups c).

Lemma Join_loop_ok c servers changed :
  NoDup servers.*1 → (∀ g, g ∈ servers.*1 → Groups c !! g = None) →
  (∀ g1 s1 g2 s2, (g1, s1) ∈ servers → Groups c !! g2 = Some s2 → disjoint_servers s1 s2) →
  (∀ g1 s1 g2 s2, (g1, s1) ∈ servers → (g2, s2) ∈ servers → g1 ≠ g2 →
    disjoint_servers s1 s2) →
  servers ≠ [] ∨ changed = true →
  Join_loop c servers changed = Ret (joined c servers, true).
Proof.
  revert c changed. induction servers as [|[gid srvs] rest IH];
    intros c changed Hnd Hf Ho Hn Hch; csimpl.
  { destruct Hch as [?| ->]; [done|]. unfold joined. by rewrite list_to_map_nil, map_empty_union. }
  csimpl in *. apply NoDup_cons in Hnd as [Hg Hnd]. rewrite (Hf gid) by left.
  destruct (existsb _ _) eqn:E.
  { apply existsb_exists in E as ([g2 s2] & Hin & Hs). exfalso.
    apply list_elem_of_In, elem_of_map_to_list in Hin.
    assert (shares_server srvs s2 = false); [|simpl in *; congruence].
    apply shares_server_false. eapply Ho; [left|done]. }
  rewrite IH; simpl; [|done|..|by right].
  - unfold joined, set_Groups; simpl. do 2 f_equal. f_equal.
    rewrite <-insert_union_r, insert_union_l; [done|].
    apply not_elem_of_list_to_map_1. done.
  - intros g Hin. rewrite lookup_insert_ne; [apply Hf; by right|]. by intros ->.
  - intros g1 s1 g2 s2 Hin [[<- <-]|[? ?]]%lookup_insert_Some.
    + eapply Hn; [by right|by left|]. intros ->. apply Hg, list_elem_of_fmap. by eexists (_, _).
    + eapply Ho; [by right|done].
  - intros g1 s1 g2 s2 ? ?. apply Hn; by right.
Qed.

Lemma Join_ok c servers : joinable c servers → Join c servers = Ret (joined c servers, true).
Proof. intros [? ? ? ? ?]. apply Join_loop_ok; auto. Qed.

Definition left_groups (c : ShardConfig) (gids : list Tgid) : gmap Tgid (list string) :=
  foldl (λ m g, delete g m) (Groups c) gids.

Lemma left_groups_lookup gids m g :
  foldl (λ (m : gmap Tgid (list string)) g, delete g m) m gids !! g =
    if decide (g ∈ gids) then None else m !! g.
Proof.
  revert m. induction gids as [|h gids IH]; intros m; simpl; [done|].
  rewrite IH. repeat case_decide; try set_solver.
  - destruct (decide (g = h)) as [->|]; [by rewrite lookup_delete_eq|set_solver].
  - rewrite lookup_delete_ne; [done|set_solver].
Qed.

Definition set_left (c : ShardConfig) (gids : list Tgid) : ShardConfig :=
  set_Groups c (left_groups c gids).

(** A run of [Leave] over groups that are all there comes to the rest of the list. *)
Lemma Leave_loop_app c pre post changed :
  NoDup pre → (∀ g, g ∈ pre → is_Some (Groups c !! g)) →
  Leave_loop c (pre ++ post) changed =
    Leave_loop (set_left c pre) post (changed || negb (bool_decide (pre = []))).
Proof.
  revert c changed. induction pre as [|g pre IH]; intros c changed Hnd Hin; simpl.
  - rewrite orb_false_r. by destruct c.
  - apply NoDup_cons in Hnd as [Hg Hnd]. destruct (Hin g ltac:(left)) as [v ->].
    rewrite IH; [|done|].
    + rewrite orb_true_r. by rewrite orb_true_l.
    + intros h Hh. simpl. rewrite lookup_delete_ne; [apply Hin; by right|set_solver].
Qed.

Lemma Leave_ok c gids :
  gids ≠ [] → NoDup gids → (∀ g, g ∈ gids → is_Some (Groups c !! g)) →
  Leave c gids = Ret (mkShardConfig (i64_wrap (Num c + 1)) (Shards c) (left_groups c gids), true).
Proof.
  intros Hne Hnd Hin. unfold Leave. rewrite <-(app_nil_r gids) at 1.
  rewrite Leave_loop_app by done. by rewrite bool_decide_eq_false_2.
Qed.

(** *** Joining moves shards only to the new groups *)

Section join_moves.
Context (old new : Tgid → Prop).

(** Loads during the rebalancing after a join. *)
Record join_loads (c : ShardConfig) : Prop := {
  jl_groups g : is_Some (Groups c !! g) → old g ∨ new g;
  jl_old o1 o2 : old o1 → old o2 → occ o1 (Shards c) ≤ occ o2 (Shards c) + 1;
  jl_new n1 n2 : new n1 → new n2 → occ n1 (Shards c) ≤ occ n2 (Shards c) + 1;
  jl_cross n o : new n → old o → occ n (Shards c) ≤ occ o (Shards c) + 1
}.

Lemma join_loads_move c s mg lg :
  (∀ g, old g → is_Some (Groups c !! g)) → (∀ g, new g → is_Some (Groups c !! g)) →
  join_loads c → shard_move c s mg lg → new lg ∧ join_loads (moved c s lg).
Proof.
  intros Hog Hng [Hg Ho Hn Hx] [Hs Hto Hgap Hmg Hb].
  assert (new lg ∧ old mg) as [Hlg Hom].
  { destruct (Hg lg Hto) as [Hol|Hnl], (Hg mg Hmg) as [Hom|Hnm]; try done.
    - pose proof (Ho mg lg Hom Hol). lia.
    - pose proof (Hx mg lg Hnm Hol). lia.
    - pose proof (Hn mg lg Hnm Hnl). lia. }
  split; [done|]. split; simpl; [done|..]; intros x y Hx1 Hy1;
    rewrite !(occ_insert _ _ _ _ _ Hs).
  - pose proof (Ho x y Hx1 Hy1). pose proof (Ho mg y Hom Hy1). pose proof (Hb x (Hog x Hx1)).
    pose proof (Hb y (Hog y Hy1)). repeat case_decide; subst; lia.
  - pose proof (Hn x y Hx1 Hy1). pose proof (Hn x lg Hx1 Hlg). pose proof (Hb x (Hng x Hx1)).
    pose proof (Hb y (Hng y Hy1)). repeat case_decide; subst; lia.
  - pose proof (Hx x y Hx1 Hy1). pose proof (Hn x lg Hx1 Hlg). pose proof (Ho mg y Hom Hy1).
    pose proof (Hb y (Hog y Hy1)). repeat case_decide; subst; lia.
Qed.
End join_moves.

(** Shards are where they were, or at one of [new]. *)
Definition moved_to (new : list Tgid) (c c' : ShardConfig) : Prop :=
  ∀ s g g', Shards c !! s = Some g → Shards c' !! s = Some g' → g' = g ∨ g' ∈ new.

Lemma moved_to_move new c0 c s mg lg :
  moved_to new c0 c → lg ∈ new → Shards c !! s = Some mg → moved_to new c0 (moved c s lg).
Proof.
  intros Hm Hl Hs s' g g' Hg Hg'. simpl in Hg'. destruct (decide (s = s')) as [<-|Hne].
  - rewrite list_lookup_insert_eq in Hg' by by eapply lookup_lt_Some. simplify_eq. by right.
  - rewrite list_lookup_insert_ne in Hg' by done. by eapply Hm.
Qed.

Lemma joined_lookup c servers g :
  joinable c servers →
  is_Some (Groups (joined c servers) !! g) ↔ is_Some (Groups c !! g) ∨ g ∈ servers.*1.
Proof.
  intros Hj. simpl. rewrite lookup_union_is_Some, <-!elem_of_dom, dom_list_to_map_L,
    elem_of_list_to_set. tauto.
Qed.

Lemma Rebalance_joined c servers :
  valid_config c → joinable c servers →
  ∃ c', Rebalance (joined c servers) = Ret c' ∧ Num c' = i64_wrap (Num c + 1) ∧
    Groups c' = list_to_map servers ∪ Groups c ∧ valid_config c' ∧
    moved_to servers.*1 c c'.
Proof.
  intros [Hl Hn Ha Hb] Hj. pose proof (λ g, joined_lookup c servers g Hj) as Hjl.
  assert (Hne : Groups (joined c servers) ≠ ∅).
  { destruct servers as [|[g v] ?]; [by destruct (jn_nonempty _ _ Hj)|]. intros He.
    assert (is_Some (Groups (joined c ((g, v) :: servers)) !! g)) as [? H]
      by (apply Hjl; right; by left).
    by rewrite He, lookup_empty in H. }
  destruct (decide (Groups c = ∅)) as [He|Hne'].
  { destruct (Rebalance_total (joined c servers)) as (c' & ? & ? & Hg & Hv); [done|].
    exists c'. split_and!; [done..|]. intros s g g' _ Hg'. right.
    destruct (Hjl g') as [[Hs|?] _]; [| |done].
    - rewrite <-Hg. apply (vc_assigned _ Hv); [by rewrite Hg|]. by eapply list_elem_of_lookup_2.
    - rewrite He, lookup_empty in Hs. by destruct Hs. }
  specialize (Ha Hne').
  assert (Hphase : foldl assign_shard (joined c servers) (imap pair (Shards c)) =
      joined c servers).
  { apply (assign_none (joined c servers)); [done..|]. intros g Hg. apply Hjl. left. by apply Ha. }
  set (I x := Groups x = Groups (joined c servers) ∧ moved_to servers.*1 c x ∧
    join_loads (λ g, is_Some (Groups c !! g)) (.∈ servers.*1) x).
  destruct (Rebalance_nonempty I (joined c servers)) as (c' & ? & ? & ? & ? & _ & ? & _);
    [done|done| | |by exists c'].
  - intros x s mg lg (Hg & Hm & Hjld) Hmv.
    destruct (join_loads_move (λ g, is_Some (Groups c !! g)) (.∈ servers.*1) x s mg lg)
      as [Hlg Hjl']; [..|exact Hjld|exact Hmv|].
    + intros g Ho. rewrite Hg, Hjl. by left.
    + intros g Ho. rewrite Hg, Hjl. by right.
    + split_and!; [done| |done]. eapply moved_to_move; [done..|apply Hmv].
  - unfold I. change (Shards (joined c servers)) with (Shards c). rewrite Hphase.
    split_and!; [done|intros s g g' ? ?; left; simpl in *; congruence|].
    assert (Hz : ∀ n, n ∈ servers.*1 → occ n (Shards c) = 0).
    { intros n Hns. pose proof (occ_bounds n (Shards c)). pose proof (occ_pos n (Shards c)) as Hp.
      destruct (decide (0 < occ n (Shards c))) as [Hlt|]; [|lia]. apply Hp, Ha in Hlt.
      rewrite (jn_fresh _ _ Hj) in Hlt by done. by destruct Hlt. }
    split; simpl; [intros g; by rewrite Hjl|apply Hb|intros ? ? ? ?; by rewrite !Hz|].
    intros n o Hns _. rewrite Hz by done. pose proof (occ_bounds o (Shards c)). lia.
Qed.

(** *** Leaving moves only the shards of the groups that left *)

Lemma left_lookup c gids g :
  is_Some (left_groups c gids !! g) ↔ is_Some (Groups c !! g) ∧ g ∉ gids.
Proof.
  unfold left_groups. rewrite left_groups_lookup. case_decide; split; naive_solver.
Qed.

(** Assigning to the least loaded group keeps the loads balanced. *)
Lemma assign_fold_balanced c sgs :
  len12 c → Groups c ≠ ∅ → NoDup sgs.*1 →
  (∀ s g, (s, g) ∈ sgs → Shards c !! s = Some g) → balanced c →
  balanced (foldl assign_shard c sgs).
Proof.
  revert c. induction sgs as [|[s0 g0] sgs IH]; intros c Hl Hne Hnd Hin Hb; simpl in *; [done|].
  apply NoDup_cons in Hnd as [Hs0 Hnd].
  assert (Hg0 : Shards c !! s0 = Some g0) by (apply Hin; left).
  unfold assign_shard at 2. simpl. destruct (Groups c !! g0) eqn:Eg.
  { apply IH; try done. set_solver. }
  apply IH; [by apply len12_insert|done|done| |].
  - intros s g Hs. simpl. rewrite list_lookup_insert_ne; [set_solver|]. intros ->.
    apply Hs0. rewrite list_elem_of_fmap. by exists (s, g).
  - destruct (least_spec c) as [Hls Hle]; [done..|].
    intros g h Hg Hh. simpl in *. rewrite !(occ_insert _ _ _ _ _ Hg0).
    pose proof (Hb g h Hg Hh). pose proof (Hle h Hh).
    repeat case_decide; subst; try lia; rewrite Eg in *; by destruct Hg, Hh.
Qed.

Lemma Rebalance_left c gids n :
  valid_config c → left_groups c gids ≠ ∅ →
  ∃ c', Rebalance (mkShardConfig n (Shards c) (left_groups c gids)) = Ret c' ∧ Num c' = n ∧
    Groups c' = left_groups c gids ∧ valid_config c' ∧
    ∀ s g, Shards c !! s = Some g → g ∉ gids → Shards c' !! s = Some g.
Proof.
  intros [Hl Hn Ha Hb] Hne. set (c1 := mkShardConfig n (Shards c) (left_groups c gids)).
  assert (Hne' : Groups c ≠ ∅).
  { apply map_choose in Hne as (g & v & Hg).
    assert (is_Some (Groups c !! g)) as [? H] by (apply (left_lookup c gids g); eauto).
    intros He. by rewrite He, lookup_empty in H. }
  destruct (assign_all c1) as (_&Hg1&_&_&Hs); [done..|].
  set (c2 := foldl assign_shard c1 (imap pair (Shards c1))) in *.
  assert (Hb2 : balanced c2).
  { apply assign_fold_balanced; [done..| | |].
    - rewrite fmap_imap. rewrite (imap_seq_0 _ (λ i, i)), list_fmap_id. apply NoDup_seq.
    - intros s g. rewrite elem_of_lookup_imap. intros (i & x & ? & ?). by simplify_eq.
    - intros g h [Hg _]%left_lookup [Hh _]%left_lookup. by apply Hb. }
  destruct (Rebalance_nonempty (λ x, x = c2) c1) as (c' & ? & ? & ? & ? & ->); [done..| |done|].
  - intros ? s mg lg -> [? ? ? Hmg Hbd]. pose proof (Hb2 mg lg ltac:(done) ltac:(done)). lia.
  - exists c2. split_and!; [done..|]. intros s g Hsg Hg. apply Hs; [done|].
    apply left_lookup. split; [|done]. apply (Ha Hne'). by eapply list_elem_of_lookup_2.
Qed.

(** ** Checking a configuration *)

Lemma min_max_fold counts gs mn mx mn' mx' :
  foldl (min_max_step counts) (mn, mx) gs = (mn', mx') →
  (mx ≤ mx' ∧ (∀ g, g ∈ gs → map_get 0 counts g ≤ mx') ∧
     (mx' = mx ∨ ∃ g, g ∈ gs ∧ mx' = map_get 0 counts g)) ∧
  (mn' ≤ mn ∧ (∀ g, g ∈ gs → mn' ≤ map_get 0 counts g) ∧
     (mn' = mn ∨ ∃ g, g ∈ gs ∧ mn' = map_get 0 counts g)).
Proof.
  revert mn mx. induction gs as [|g gs IH]; intros mn mx Hf; simpl in Hf.
  - simplify_eq/=. split_and!; first [lia | by left | set_solver].
  - destruct (Z.ltb_spec mx (map_get 0 counts g)), (Z.ltb_spec (map_get 0 counts g) mn);
      apply IH in Hf as ((H1&H2&H3)&(H4&H5&H6)); setoid_rewrite elem_of_cons;
      (split_and!; [lia|intros k [->|?]; [lia|by apply H2]| |lia|
                    intros k [->|?]; [lia|by apply H5]| ]); naive_solver.
Qed.

Lemma Shards_in_groups c :
  forallb (λ g, bool_decide (is_Some (Groups c !! g))) (Shards c) = true ↔ assigned c.
Proof.
  rewrite forallb_forall. unfold assigned. split; intros H g Hg.
  - apply list_elem_of_In in Hg. by apply H, bool_decide_eq_true_1 in Hg.
  - apply list_elem_of_In in Hg. by apply bool_decide_eq_true_2, H.
Qed.

(** The last test of [CheckConfig]. *)
Lemma min_max_balanced order c mn mx :
  len12 c → (∀ g, g ∈ order ↔ is_Some (Groups c !! g)) →
  foldl (min_max_step (shard_counts (Shards c))) (257, 0) order = (mn, mx) →
  (mn + 1 <? mx) = false ↔ balanced c.
Proof.
  intros Hl Ho Hf. apply min_max_fold in Hf as ((H1&H2&H3)&(H4&H5&H6)).
  setoid_rewrite shard_counts_spec in H2. setoid_rewrite shard_counts_spec in H3.
  setoid_rewrite shard_counts_spec in H5. setoid_rewrite shard_counts_spec in H6.
  rewrite Z.ltb_ge. unfold balanced. setoid_rewrite <-Ho. split.
  - intros Hle g h Hg Hh. pose proof (H2 g Hg). pose proof (H5 h Hh). lia.
  - intros Hb. destruct H3 as [->|(g & Hg & ->)], H6 as [->|(h & Hh & ->)]; try lia.
    + pose proof (occ_bounds h (Shards c)). lia.
    + pose proof (occ_bounds g (Shards c)). unfold len12 in Hl. lia.
    + pose proof (Hb g h Hg Hh). lia.
Qed.

Lemma group_list_dom (m : gmap Tgid (list string)) (groups : list Tgid) :
  NoDup groups →
  (size m = length groups ∧ (∀ g, g ∈ groups → is_Some (m !! g))) ↔
  (∀ g, g ∈ groups ↔ is_Some (m !! g)).
Proof.
  intros Hnd. setoid_rewrite <-elem_of_dom.
  rewrite <-size_dom, <-(size_list_to_set (C := gset Tgid) groups) by done. split.
  - intros [Hs Hin]. assert (Hsub : list_to_set groups ⊆@{gset Tgid} dom m) by set_solver.
    apply set_subseteq_size_eq in Hsub; [set_solver|lia].
  - intros Hin. split; [|naive_solver]. f_equal. set_solver.
Qed.

Lemma CheckConfig_iff order cfg groups :
  len12 cfg → (∀ g, g ∈ order ↔ is_Some (Groups cfg !! g)) →
  CheckConfig order cfg groups = Ret tt ↔
    (size (Groups cfg) = length groups ∧ (∀ g, g ∈ groups → is_Some (Groups cfg !! g))) ∧
    (groups ≠ [] → assigned cfg) ∧ balanced cfg.
Proof.
  intros Hl Ho. unfold CheckConfig.
  destruct (Nat.eqb_spec (size (Groups cfg)) (length groups)) as [Hs|Hs]; simpl; [|naive_solver].
  destruct (forallb _ groups) eqn:Hg; simpl.
  2: { split; [done|]. intros ((_&Hin)&_). apply not_true_iff_false in Hg. exfalso. apply Hg.
       apply forallb_forall. intros g Hx%list_elem_of_In. by apply bool_decide_eq_true_2, Hin. }
  rewrite forallb_forall in Hg.
  assert (Hin : ∀ g, g ∈ groups → is_Some (Groups cfg !! g)).
  { intros g Hx%list_elem_of_In. by apply (bool_decide_eq_true_1 _), Hg. }
  assert (Hlen : (0 <? length groups)%nat = true ↔ groups ≠ []).
  { rewrite Nat.ltb_lt. destruct groups; simpl; split; try done; lia. }
  destruct (foldl _ _ order) as [mn mx] eqn:Hf. rewrite <-(min_max_balanced _ _ _ _ Hl Ho Hf).
  rewrite <-Shards_in_groups, <-Hlen.
  destruct (0 <? length groups)%nat, (forallb _ (Shards cfg)), (mn + 1 <? mx); simpl; naive_solver.
Qed.

(** [Copy] makes an equal configuration, in whatever order it visits the groups. *)
Lemma Copy_spec order cfg : order ≡ₚ map_to_list (Groups cfg) → Copy order cfg = cfg.
Proof.
  intros Hp. destruct cfg as [n sh gs]. unfold Copy. simpl in *. f_equal.
  assert (Hnd : NoDup order.*1) by (rewrite Hp; apply NoDup_fst_map_to_list).
  assert (Hfold : ∀ l (m : gmap Tgid (list string)), NoDup l.*1 →
    foldl (λ m e, <[e.1 := e.2]> m) m l = list_to_map l ∪ m).
  { induction l as [|[g v] l IH]; intros m Hl; simpl; [by rewrite map_empty_union|].
    simpl in Hl. apply NoDup_cons in Hl as [Hg Hl]. rewrite IH by done. simpl.
    rewrite <- insert_union_l, insert_union_r by (by apply not_elem_of_list_to_map_1). done. }
  rewrite Hfold by done. rewrite map_union_empty.
  rewrite (list_to_map_proper order (map_to_list gs)) by done. apply list_to_map_to_list.
Qed.

(** With at most twelve groups every group of a valid configuration has a shard. *)
Lemma IsMember_group c g :
  valid_config c → (size (Groups c) ≤ 12)%nat → is_Some (Groups c !! g) → IsMember c g = true.
Proof.
  intros [Hl _ Ha Hb] Hsize Hg. destruct (decide (g ∈ Shards c)) as [Hin|Hno].
  { unfold IsMember. apply existsb_exists. exists g. rewrite <- list_elem_of_In. by rewrite Z.eqb_refl. }
  exfalso. assert (Hne : Groups c ≠ ∅) by (intros He; rewrite He, lookup_empty in Hg; by destruct Hg).
  specialize (Ha Hne). assert (H0 : occ g (Shards c) = 0).
  { pose proof (occ_bounds g (Shards c)). rewrite occ_pos in Hno. lia. }
  assert (Hnd : NoDup (Shards c)).
  { apply occ_NoDup. intros h Hh. pose proof (Hb h g (Ha h Hh) Hg). lia. }
  assert (Hsub : list_to_set (Shards c) ⊆ dom (Groups c) ∖ {[g]}).
  { intros h Hh%elem_of_list_to_set. apply elem_of_difference.
    rewrite elem_of_dom, elem_of_singleton. split; [by apply Ha|by intros ->]. }
  apply subseteq_size in Hsub. rewrite size_list_to_set in Hsub by done.
  rewrite size_difference, size_singleton, size_dom in Hsub by (apply singleton_subseteq_l, elem_of_dom; done).
  unfold len12 in Hl. assert (size (Groups c) ≠ 0%nat) by by rewrite map_size_non_empty_iff. lia.
Qed.

(** The functional behaviour of the two operations, for the properties below and for clients. *)
Lemma JoinBalance_spec c servers :
  valid_config c → joinable c servers →
  ∃ c', JoinBalance c servers = Ret (c', true) ∧ Num c' = i64_wrap (Num c + 1) ∧
    Groups c' = list_to_map servers ∪ Groups c ∧ valid_config c' ∧
    moved_to servers.*1 c c'.
Proof.
  intros Hv Hj. destruct (Rebalance_joined c servers Hv Hj) as (c' & Hr & ?).
  exists c'. unfold JoinBalance. rewrite Join_ok by done. simpl. by rewrite Hr.
Qed.

Lemma LeaveBalance_spec c gids :
  valid_config c → gids ≠ [] → NoDup gids → (∀ g, g ∈ gids → is_Some (Groups c !! g)) →
  ∃ c', LeaveBalance c gids = Ret (c', true) ∧ Num c' = i64_wrap (Num c + 1) ∧
    (∀ g, Groups c' !! g = if decide (g ∈ gids) then None else Groups c !! g) ∧
    valid_config c' ∧
    (Groups c' ≠ ∅ → ∀ s g, Shards c !! s = Some g → g ∉ gids → Shards c' !! s = Some g).
Proof.
  intros Hv Hne Hnd Hin. unfold LeaveBalance. rewrite Leave_ok by done. simpl.
  pose proof (left_groups_lookup gids (Groups c)) as Hlk. fold (left_groups c gids) in Hlk.
  set (c1 := mkShardConfig _ _ _).
  destruct (decide (left_groups c gids = ∅)) as [He|Hne'].
  - destruct (Rebalance_total c1) as (c' & -> & ? & Hg & ?); [apply Hv|].
    change (Groups c1) with (left_groups c gids) in Hg.
    exists c'. rewrite Hg. split_and!; [done..|]. by rewrite He.
  - destruct (Rebalance_left c gids (i64_wrap (Num c + 1))) as (c' & Hr & ? & Hg & ? & ?);
      [done..|]. exists c'. fold c1 in Hr. rewrite Hr, Hg. by split_and!.
Qed.

(** ** Properties *)

(** C33: [Rebalance] terminates from any configuration, however its shards are assigned,
    and returns a configuration with the same number and groups in which every shard
    belongs to a group (to 0 when there is none) and no group has two shards more than
    another; it leaves a configuration that is already so as it is. *)
Theorem Rebalance_correct c :
  len12 c →
  (∃ c', Rebalance c = Ret c' ∧ Num c' = Num c ∧ Groups c' = Groups c ∧ valid_config c' ∧
     Rebalance c' = Ret c') ∧
  (valid_config c → Rebalance c = Ret c).
Proof.
  intros Hl. split; [|apply Rebalance_id].
  destruct (Rebalance_total c Hl) as (c' & ? & ? & ? & Hv). exists c'.
  split_and!; auto using Rebalance_id.
Qed.

(** [JoinBalance] of new groups whose servers are in no other group, to a valid
    configuration, succeeds with a valid configuration that has the groups added and the
    next number, and moves no shard between old groups: a shard stays where it is or
    goes to one of the groups that joined. *)
Theorem JoinBalance_correct c servers :
  valid_config c → joinable c servers →
  ∃ c', JoinBalance c servers = Ret (c', true) ∧ Num c' = i64_wrap (Num c + 1) ∧
    Groups c' = list_to_map servers ∪ Groups c ∧ valid_config c' ∧
    moved_to servers.*1 c c'.
Proof. apply JoinBalance_spec. Qed.

(** [LeaveBalance] of groups of a valid configuration succeeds with a valid
    configuration that lacks these groups and has the next number, and moves only their
    shards; when no group remains all shards are unassigned. *)
Theorem LeaveBalance_correct c gids :
  valid_config c → gids ≠ [] → NoDup gids → (∀ g, g ∈ gids → is_Some (Groups c !! g)) →
  ∃ c', LeaveBalance c gids = Ret (c', true) ∧ Num c' = i64_wrap (Num c + 1) ∧
    (∀ g, Groups c' !! g = if decide (g ∈ gids) then None else Groups c !! g) ∧
    valid_config c' ∧
    (Groups c' ≠ ∅ → ∀ s g, Shards c !! s = Some g → g ∉ gids → Shards c' !! s = Some g).
Proof. apply LeaveBalance_spec. Qed.

(** In a valid configuration with a group, every key belongs to a shard whose group
    has a server list: the lookup never panics nor misses. *)
Theorem GidServers_key c key :
  valid_config c → Groups c ≠ ∅ →
  ∃ gid srvs, GidServers c (Key2Shard key) = Ret (gid, srvs, true) ∧
    Groups c !! gid = Some srvs ∧ IsMember c gid = true.
Proof.
  intros Hv Hne. pose proof (Z.rem_bound_pos (Sum32a key) 12) as Hb.
  pose proof (Sum32a_range key). unfold GidServers, Key2Shard, NShards.
  pose proof (vc_len _ Hv) as Hl. unfold len12 in Hl.
  assert (is_Some (Shards c !! Z.to_nat (Z.rem (Sum32a key) 12))) as [gid Hg]
    by (apply lookup_lt_is_Some; lia).
  rewrite (proj2 (Z.leb_le _ _)) by lia. rewrite Hg.
  apply list_elem_of_lookup_2 in Hg.
  destruct (vc_assigned _ Hv Hne gid Hg) as [srvs Hs]. rewrite Hs. exists gid, srvs.
  split_and!; [done..|]. unfold IsMember. apply existsb_exists. exists gid.
  rewrite <-list_elem_of_In. by rewrite Z.eqb_refl.
Qed.

(** The tester's [CheckConfig] accepts a configuration, in whatever order it ranges
    over the groups, exactly when it has the expected groups, every shard belongs to one
    of them if there is any, and the loads differ by at most one. *)
Theorem CheckConfig_correct order cfg groups :
  len12 cfg → (∀ g, g ∈ order ↔ is_Some (Groups cfg !! g)) → NoDup groups →
  CheckConfig order cfg groups = Ret tt ↔
    (∀ g, g ∈ groups ↔ is_Some (Groups cfg !! g)) ∧
    (Groups cfg ≠ ∅ → assigned cfg) ∧ balanced cfg.
Proof.
  intros Hl Ho Hnd. rewrite CheckConfig_iff, group_list_dom by done.
  split; intros (Hg & Ha & Hb); split_and!; try done; intros Hne; apply Ha.
  - intros ->. apply Hne, map_empty. intros g. apply eq_None_not_Some. rewrite <-Hg. set_solver.
  - intros He. destruct groups as [|g groups]; [done|]. destruct (proj1 (Hg g) ltac:(left)) as [? Hs].
    by rewrite He, lookup_empty in Hs.
Qed.

(** A [LeaveBalance] that names a group the configuration does not have (or names
    one twice) returns false after it has already removed the groups before it, without
    rebalancing: when one of those had a shard and a group remains, the configuration is
    no longer valid although nothing is reported to have changed. *)
Theorem LeaveBalance_partial c pre gid post :
  valid_config c → NoDup pre → (∀ g, g ∈ pre → is_Some (Groups c !! g)) →
  (Groups c !! gid = None ∨ gid ∈ pre) →
  let c' := mkShardConfig (Num c) (Shards c) (left_groups c pre) in
  LeaveBalance c (pre ++ gid :: post) = Ret (c', false) ∧
  ((∃ g, g ∈ pre ∧ g ∈ Shards c) → Groups c' ≠ ∅ → ¬ valid_config c').
Proof.
  intros Hv Hnd Hin Hg c'. split.
  - unfold LeaveBalance, Leave. rewrite Leave_loop_app by done. simpl.
    unfold left_groups. rewrite left_groups_lookup.
    assert (E : (if decide (gid ∈ pre) then None else Groups c !! gid) = None)
      by (case_decide; naive_solver).
    by rewrite E.
  - intros (g & Hp & Hs) Hne Hv'. pose proof (vc_assigned _ Hv' Hne g Hs) as Hsome.
    by apply left_lookup in Hsome as [_ ?].
Qed.

(** ** Witnesses *)

Lemma MakeShardConfig_valid : valid_config MakeShardConfig.
Proof.
  split; [done| |done|].
  - intros _ g. simpl. set_solver.
  - intros g h [? Hg]. simpl in Hg. by rewrite lookup_empty in Hg.
Qed.

Example Rebalance_correct_witness :
  let c := mkShardConfig 4 (replicate 12 7) {[1 := ["x"]; 2 := ["y"]]} in
  (∃ c', Rebalance c = Ret c' ∧ Num c' = 4 ∧ Groups c' = Groups c ∧ valid_config c' ∧
     Rebalance c' = Ret c') ∧ (valid_config c → Rebalance c = Ret c).
Proof. intros c. by apply (Rebalance_correct c). Defined.

Lemma joinable_example : joinable MakeShardConfig [(1, ["x"]); (2, ["y"])].
Proof.
  split.
  - done.
  - by refine (bool_decide_unpack _ _); vm_compute.
  - intros g _. apply lookup_empty.
  - intros g1 s1 g2 s2 _ Hg. simpl in Hg. by rewrite lookup_empty in Hg.
  - intros g1 s1 g2 s2 H1 H2 Hne. rewrite !elem_of_cons, elem_of_nil in H1, H2.
    destruct H1 as [|[|[]]], H2 as [|[|[]]]; simplify_eq; intros x; set_solver.
Qed.

Example JoinBalance_correct_witness :
  ∃ c', JoinBalance MakeShardConfig [(1, ["x"]); (2, ["y"])] = Ret (c', true) ∧ Num c' = 1 ∧
    Groups c' = list_to_map [(1, ["x"]); (2, ["y"])] ∪ ∅ ∧ valid_config c' ∧
    moved_to [1; 2] MakeShardConfig c'.
Proof.
  apply (JoinBalance_correct MakeShardConfig [(1, ["x"]); (2, ["y"])]).
  - apply MakeShardConfig_valid.
  - apply joinable_example.
Defined.

(** Two groups with six shards each. *)
Definition two_groups : ShardConfig :=
  mkShardConfig 1 [1; 2; 1; 2; 1; 2; 1; 2; 1; 2; 1; 2] {[1 := ["x"]; 2 := ["y"]]}.

Lemma two_groups_valid : valid_config two_groups.
Proof.
  split; [done|done| |].
  - intros _ g Hg. apply (bool_decide_unpack _). revert g Hg.
    apply Forall_forall, (bool_decide_unpack _). by vm_compute.
  - intros g h [? Hg] [? Hh]. simpl in Hg, Hh.
    apply lookup_insert_Some in Hg as [[<- _]|[_ [<- _]%lookup_singleton_Some]];
    apply lookup_insert_Some in Hh as [[<- _]|[_ [<- _]%lookup_singleton_Some]];
      vm_compute; discriminate.
Qed.

Example LeaveBalance_correct_witness :
  ∃ c', LeaveBalance two_groups [1] = Ret (c', true) ∧ Num c' = 2 ∧
    (∀ g, Groups c' !! g = if decide (g ∈ [1]) then None else Groups two_groups !! g) ∧
    valid_config c' ∧
    (Groups c' ≠ ∅ → ∀ s g, Shards two_groups !! s = Some g → g ∉ [1] → Shards c' !! s = Some g).
Proof.
  apply (LeaveBalance_correct two_groups [1]).
  - apply two_groups_valid.
  - discriminate.
  - apply NoDup_singleton.
  - intros g ->%list_elem_of_singleton. vm_compute. eauto.
Defined.

Example GidServers_key_witness :
  ∃ gid srvs, GidServers two_groups (Key2Shard "a") = Ret (gid, srvs, true) ∧
    Groups two_groups !! gid = Some srvs ∧ IsMember two_groups gid = true.
Proof.
  apply (GidServers_key two_groups "a"); [apply two_groups_valid|].
  intros H. by apply (f_equal (.!! 1)) in H.
Defined.

Example CheckConfig_correct_witness :
  CheckConfig [2; 1] two_groups [1; 2] = Ret tt ↔
    (∀ g, g ∈ [1; 2] ↔ is_Some (Groups two_groups !! g)) ∧
    (Groups two_groups ≠ ∅ → assigned two_groups) ∧ balanced two_groups.
Proof.
  apply (CheckConfig_correct [2; 1] two_groups [1; 2]).
  - reflexivity.
  - intros g. rewrite <-elem_of_dom. simpl. rewrite dom_insert_L, dom_singleton_L. set_solver.
  - by refine (bool_decide_unpack _ _); vm_compute.
Defined.

Example LeaveBalance_partial_witness :
  let c' := mkShardConfig 1 (Shards two_groups) (left_groups two_groups [1]) in
  LeaveBalance two_groups [1; 99] = Ret (c', false) ∧
  ((∃ g, g ∈ [1] ∧ g ∈ Shards two_groups) → Groups c' ≠ ∅ → ¬ valid_config c').
Proof.
  apply (LeaveBalance_partial two_groups [1] 99 []).
  - apply two_groups_valid.
  - apply NoDup_singleton.
  - intros g ->%list_elem_of_singleton. vm_compute. eauto.
  - by left.
Defined.
