(* ===== verification/Raft.v ===== *)
(** * A Raft peer ([raft1/raft.go], [raftapi/raftapi.go])

    The state of one peer and its locked operations, as functions. [now] is what
    [time.Now()] returns, in nanoseconds; [peers] is only used for its length. The system
    of peers, with the network and the ticker goroutines, is in RaftSystem. *)

From S2P Require Export Prelude.

Local Open Scope Z_scope.

(** The values that flow through [interface{}] parameters of this code and its tests. *)
Inductive any := any_nil | any_int (z : Z) | any_string (s : string).

#[export] Instance any_eq_dec : EqDecision any.
Proof. solve_decision. Defined.

(** ** [raftapi] *)

Record ApplyMsg := mkApplyMsg {
  am_CommandValid : bool;
  am_Command : any;
  am_CommandIndex : Z;
  am_SnapshotValid : bool;
  am_Snapshot : list Z;
  am_SnapshotTerm : Z;
  am_SnapshotIndex : Z
}.

(** ** Data *)

Inductive NodeRole := Follower | Leader | Candidate.

#[export] Instance NodeRole_eq_dec : EqDecision NodeRole.
Proof. solve_decision. Defined.

Record LogEntry := mkLogEntry { en_Term : Z; en_Index : Z; en_Command : any }.

#[export] Instance LogEntry_eq_dec : EqDecision LogEntry.
Proof. solve_decision. Defined.

Record Raft := mkRaft {
  rf_peers : Z;
  rf_me : Z;
  rf_dead : Z;
  rf_currTerm : Z;
  rf_role : NodeRole;
  rf_log : list LogEntry;
  rf_votedFor : Z;
  rf_votesReceived : Z;
  rf_electionTimeout : Z;
  rf_lastHeartBeat : Z;
  rf_lastAppliedIndex : Z;
  rf_lastCommitedIndex : Z
}.

Record RequestVoteArgs := mkRequestVoteArgs {
  rva_Term : Z;
  rva_CandidateId : Z;
  rva_LastestLogTerm : Z;
  rva_LastestLogIndex : Z
}.

Record RequestVoteReply := mkRequestVoteReply { rvr_Term : Z; rvr_VoteGranted : bool }.

Record AppendEntriesArgs := mkAppendEntriesArgs {
  aea_Term : Z;
  aea_LeaderId : Z;
  aea_Entries : list LogEntry
}.

Record AppendEntriesReply := mkAppendEntriesReply { aer_Term : Z; aer_Success : bool }.

#[export] Instance RequestVoteReply_eq_dec : EqDecision RequestVoteReply.
Proof. solve_decision. Defined.

(** The zero values that the callers allocate. *)
Definition zero_RequestVoteReply : RequestVoteReply := mkRequestVoteReply 0 false.
Definition zero_AppendEntriesReply : AppendEntriesReply := mkAppendEntriesReply 0 false.

(** ** Field assignments *)

(** [self.currTerm], [self.role], [self.votedFor], [self.votesReceived] and
    [self.lastHeartBeat] are the fields that the operations assign. *)
Definition with_election (rf : Raft) (term : Z) (role : NodeRole) (voted : Z) : Raft :=
  mkRaft (rf_peers rf) (rf_me rf) (rf_dead rf) term role (rf_log rf) voted
    (rf_votesReceived rf) (rf_electionTimeout rf) (rf_lastHeartBeat rf)
    (rf_lastAppliedIndex rf) (rf_lastCommitedIndex rf).

Definition setRole (rf : Raft) (role : NodeRole) : Raft :=
  with_election rf (rf_currTerm rf) role (rf_votedFor rf).

Definition resetTimeout (now : Z) (rf : Raft) : Raft :=
  mkRaft (rf_peers rf) (rf_me rf) (rf_dead rf) (rf_currTerm rf) (rf_role rf) (rf_log rf)
    (rf_votedFor rf) (rf_votesReceived rf) (rf_electionTimeout rf) now
    (rf_lastAppliedIndex rf) (rf_lastCommitedIndex rf).

Definition set_votesReceived (rf : Raft) (n : Z) : Raft :=
  mkRaft (rf_peers rf) (rf_me rf) (rf_dead rf) (rf_currTerm rf) (rf_role rf) (rf_log rf)
    (rf_votedFor rf) n (rf_electionTimeout rf) (rf_lastHeartBeat rf)
    (rf_lastAppliedIndex rf) (rf_lastCommitedIndex rf).

(** ** Operations *)

(** False when [term] is newer, and then the peer becomes a follower in it. *)
Definition checkTerm (rf : Raft) (term : Z) : Raft * bool :=
  if rf_currTerm rf <? term
  then (with_election (setRole rf Follower) term Follower (-1), false)
  else (rf, true).

(** [readPersist] reads nothing: both branches leave the peer as it is. *)
Definition readPersist (rf : Raft) (data : list Z) : Raft := rf.

Definition dummy_entry : LogEntry := mkLogEntry 0 0 (any_int 0).

(** [rnd] is what [rand.Intn(150)] returns; the timeout is in nanoseconds. *)
Definition Make (peers me : Z) (persisted : list Z) (rnd now : Z) : Raft :=
  let self := mkRaft peers me 0 0 Follower [] (-1) 0 ((150 + rnd) * 1000000) now 0 0 in
  let self := readPersist self persisted in
  mkRaft (rf_peers self) (rf_me self) (rf_dead self) (rf_currTerm self) (rf_role self)
    (rf_log self ++ [dummy_entry]) (rf_votedFor self) (rf_votesReceived self)
    (rf_electionTimeout self) (rf_lastHeartBeat self) (rf_lastAppliedIndex self)
    (rf_lastCommitedIndex self).

Definition AppendEntries (now : Z) (rf : Raft) (args : AppendEntriesArgs)
    (reply : AppendEntriesReply) : Raft * AppendEntriesReply :=
  let '(rf, legit) := checkTerm rf (aea_Term args) in
  if legit then (rf, mkAppendEntriesReply (rf_currTerm rf) false)
  else
    let rf := if bool_decide (length (aea_Entries args) = 0%nat) then resetTimeout now rf
              else rf in
    (rf, mkAppendEntriesReply (rf_currTerm rf) true).

(** [self.log[len(self.log)-1]] *)
Definition last_entry (rf : Raft) : outcome LogEntry :=
  match last (rf_log rf) with
  | Some e => Ret e
  | None => Panic "index out of range [-1]"
  end.

Definition RequestVote (now : Z) (rf : Raft) (args : RequestVoteArgs)
    (reply : RequestVoteReply) : outcome (Raft * RequestVoteReply) :=
  let '(rf, legit) := checkTerm rf (rva_Term args) in
  if legit then Ret (rf, mkRequestVoteReply (rf_currTerm rf) false) else
  e ← last_entry rf;
  if rva_LastestLogTerm args <? en_Term e
  then Ret (rf, mkRequestVoteReply (rf_currTerm rf) false) else
  if rva_LastestLogIndex args <? en_Index e
  then Ret (rf, mkRequestVoteReply (rf_currTerm rf) false) else
  let '(rf, reply) :=
    if rf_votedFor rf =? -1
    then (with_election rf (rf_currTerm rf) (rf_role rf) (rva_CandidateId args),
          mkRequestVoteReply (rf_currTerm rf) true)
    else (rf, reply) in
  Ret (resetTimeout now rf, reply).

Definition preElection (now : Z) (rf : Raft) : Raft :=
  resetTimeout now (with_election rf (i64_wrap (rf_currTerm rf + 1)) Candidate (rf_me rf)).

(** [sendRequestVote], from the reply on. *)
Definition sendRequestVote_reply (rf : Raft) (reply : RequestVoteReply) : Raft :=
  if rvr_Term reply <? rf_currTerm rf then rf else
  let '(rf, legit) := checkTerm rf (rvr_Term reply) in
  if negb legit then rf else
  let rf := set_votesReceived rf (i64_wrap (rf_votesReceived rf + 1)) in
  if rf_peers rf / 2 <? rf_votesReceived rf then setRole rf Leader else rf.

(** [sendAppendEntries] ignores the reply. *)
Definition sendAppendEntries_reply (rf : Raft) (reply : AppendEntriesReply) : Raft := rf.

Definition Kill (rf : Raft) : Raft :=
  mkRaft (rf_peers rf) (rf_me rf) 1 (rf_currTerm rf) (rf_role rf) (rf_log rf)
    (rf_votedFor rf) (rf_votesReceived rf) (rf_electionTimeout rf) (rf_lastHeartBeat rf)
    (rf_lastAppliedIndex rf) (rf_lastCommitedIndex rf).

Definition killed (rf : Raft) : bool := rf_dead rf =? 1.

Definition GetState (rf : Raft) : Z * bool :=
  (rf_currTerm rf, bool_decide (rf_role rf = Leader)).

(** [Start] is a stub: the command is not used. *)
Definition Start (rf : Raft) (command : any) : Z * Z * bool := (-1, -1, true).

(** [persist] and [Snapshot] are stubs too. *)
Definition persist (rf : Raft) : Raft := rf.
Definition Snapshot (rf : Raft) (index : Z) (snapshot : list Z) : Raft := rf.

(** The arguments that the ticker broadcasts. *)
Definition vote_args (rf : Raft) : outcome RequestVoteArgs :=
  e ← last_entry rf;
  Ret (mkRequestVoteArgs (rf_currTerm rf) (rf_me rf) (en_Term e) (en_Index e)).

Definition beat_args (rf : Raft) : AppendEntriesArgs :=
  mkAppendEntriesArgs (rf_currTerm rf) (rf_me rf) [].

Definition timed_out (now : Z) (rf : Raft) : bool :=
  rf_electionTimeout rf <? now - rf_lastHeartBeat rf.

(** ** Lemmas *)

Lemma last_entry_total rf : rf_log rf ≠ [] → ∃ e, last_entry rf = Ret e.
Proof.
  unfold last_entry. intros Hne. destruct (last (rf_log rf)) eqn:E; [eauto|].
  by apply last_None in E.
Qed.

(** Whether the candidate's log is recent enough for this peer. *)
Definition log_ok (rf : Raft) (args : RequestVoteArgs) : Prop :=
  ∃ e, last (rf_log rf) = Some e ∧ en_Term e ≤ rva_LastestLogTerm args ∧
    en_Index e ≤ rva_LastestLogIndex args.

#[export] Instance log_ok_dec rf args : Decision (log_ok rf args).
Proof.
  unfold log_ok. destruct (last (rf_log rf)) as [e|]; [|right; by intros (? & ? & _)].
  destruct (decide (en_Term e ≤ rva_LastestLogTerm args ∧
    en_Index e ≤ rva_LastestLogIndex args)) as [H|H]; [left; eauto|].
  right. intros (e' & He & ?). by simplify_eq.
Defined.

(** The three cases of [RequestVote]; the test of [votedFor] never fails. *)
Lemma RequestVote_cases now rf args reply :
  rf_log rf ≠ [] →
  RequestVote now rf args reply = Ret
    (if decide (rva_Term args ≤ rf_currTerm rf)
     then (rf, mkRequestVoteReply (rf_currTerm rf) false)
     else if decide (log_ok rf args)
     then (resetTimeout now (with_election rf (rva_Term args) Follower (rva_CandidateId args)),
           mkRequestVoteReply (rva_Term args) true)
     else (with_election rf (rva_Term args) Follower (-1),
           mkRequestVoteReply (rva_Term args) false)).
Proof.
  intros Hne. unfold RequestVote, checkTerm.
  destruct (Z.ltb_spec (rf_currTerm rf) (rva_Term args)) as [Hlt|Hge];
    [rewrite decide_False by lia|by rewrite decide_True by lia].
  destruct (last_entry_total rf Hne) as [e He]. unfold last_entry in *. simpl.
  destruct (last (rf_log rf)) as [e'|] eqn:El; [|done]. simplify_eq. simpl.
  destruct (Z.ltb_spec (rva_LastestLogTerm args) (en_Term e)) as [Ht|Ht].
  { rewrite decide_False; [done|]. intros (? & ? & ? & _). simplify_eq. lia. }
  destruct (Z.ltb_spec (rva_LastestLogIndex args) (en_Index e)) as [Hi|Hi].
  { rewrite decide_False; [done|]. intros (? & ? & _ & ?). simplify_eq. lia. }
  rewrite decide_True; [done|]. exists e. done.
Qed.
