(* ===== verification/RaftSystem.v ===== *)
(** * A cluster of Raft peers ([raft1/raft.go]: [ticker], the broadcasts and the RPCs)

    Every request is sent by its own goroutine, so requests and replies are in flight in
    any order and may be lost; each locked operation is one step. The ticker reads the
    peer without the lock: its program counter [TickPC] separates the reads from the
    locked [preElection]. Time only enters through the value of [time.Now()], which every
    step may choose. A ghost list records the votes that are cast. *)

From S2P Require Export Raft.

Local Open Scope Z_scope.

Inductive TickPC :=
  | TickTop      (* at the loop test and the read of the role *)
  | TickBeat     (* the role read was Leader: about to broadcast a heartbeat *)
  | TickElect    (* timed out: about to run preElection *)
  | TickSolicit. (* about to read the peer and broadcast RequestVote *)

Inductive Msg :=
  | MVoteReq (src dst : nat) (args : RequestVoteArgs)
  | MVoteRep (dst : nat) (reply : RequestVoteReply)
  | MAppReq (src dst : nat) (args : AppendEntriesArgs)
  | MAppRep (dst : nat) (reply : AppendEntriesReply).

#[export] Instance TickPC_eq_dec : EqDecision TickPC.
Proof. solve_decision. Defined.

(** A vote: the voter, the term and the candidate. *)
Abbreviation Vote := (nat * Z * Z)%type (only parsing).

Record RaftNet := mkRaftNet {
  rn_node : nat → Raft;
  rn_tick : nat → TickPC;
  rn_msgs : list Msg;
  rn_votes : list Vote
}.

Section cluster.
Context (n : nat).

(** [for i := range self.peers { if i != self.me { go send(i, args) } }] *)
Definition others (me : Z) : list nat := filter (λ i, Z.of_nat i ≠ me) (seq 0 n).

Definition broadCastVote (src : nat) (rf : Raft) (args : RequestVoteArgs) : list Msg :=
  (λ dst, MVoteReq src dst args) <$> others (rf_me rf).

Definition broadCastAppendEntries (src : nat) (rf : Raft) (args : AppendEntriesArgs) : list Msg :=
  (λ dst, MAppReq src dst args) <$> others (rf_me rf).

Definition raft_init (persisted : nat → list Z) (rnd now : nat → Z) : RaftNet :=
  mkRaftNet (λ i, Make (Z.of_nat n) (Z.of_nat i) (persisted i) (rnd i) (now i))
    (λ _, TickTop) [] [].

Definition granted (dst : nat) (args : RequestVoteArgs) (reply : RequestVoteReply) : list Vote :=
  if rvr_VoteGranted reply then [(dst, rva_Term args, rva_CandidateId args)] else [].

Inductive raft_step : RaftNet → RaftNet → Prop :=
  | rs_lose s l1 m l2 :
      rn_msgs s = l1 ++ m :: l2 →
      raft_step s (mkRaftNet (rn_node s) (rn_tick s) (l1 ++ l2) (rn_votes s))
  | rs_RequestVote s l1 l2 src dst args now rf reply :
      rn_msgs s = l1 ++ MVoteReq src dst args :: l2 →
      RequestVote now (rn_node s dst) args zero_RequestVoteReply = Ret (rf, reply) →
      raft_step s (mkRaftNet (<[dst := rf]> (rn_node s)) (rn_tick s)
                     (l1 ++ l2 ++ [MVoteRep src reply]) (granted dst args reply ++ rn_votes s))
  | rs_RequestVote_reply s l1 l2 dst reply :
      rn_msgs s = l1 ++ MVoteRep dst reply :: l2 →
      raft_step s (mkRaftNet (<[dst := sendRequestVote_reply (rn_node s dst) reply]> (rn_node s))
                     (rn_tick s) (l1 ++ l2) (rn_votes s))
  | rs_AppendEntries s l1 l2 src dst args now rf reply :
      rn_msgs s = l1 ++ MAppReq src dst args :: l2 →
      AppendEntries now (rn_node s dst) args zero_AppendEntriesReply = (rf, reply) →
      raft_step s (mkRaftNet (<[dst := rf]> (rn_node s)) (rn_tick s)
                     (l1 ++ l2 ++ [MAppRep src reply]) (rn_votes s))
  | rs_AppendEntries_reply s l1 l2 dst reply :
      rn_msgs s = l1 ++ MAppRep dst reply :: l2 →
      raft_step s (mkRaftNet (<[dst := sendAppendEntries_reply (rn_node s dst) reply]> (rn_node s))
                     (rn_tick s) (l1 ++ l2) (rn_votes s))
  | rs_tick_leader s i :
      (i < n)%nat → rn_tick s i = TickTop → killed (rn_node s i) = false →
      rf_role (rn_node s i) = Leader →
      raft_step s (mkRaftNet (rn_node s) (<[i := TickBeat]> (rn_tick s)) (rn_msgs s) (rn_votes s))
  | rs_tick_beat s i :
      rn_tick s i = TickBeat →
      raft_step s (mkRaftNet (rn_node s) (<[i := TickTop]> (rn_tick s))
                     (rn_msgs s ++ broadCastAppendEntries i (rn_node s i) (beat_args (rn_node s i)))
                     (rn_votes s))
  | rs_tick_timeout s i now :
      (i < n)%nat → rn_tick s i = TickTop → killed (rn_node s i) = false →
      rf_role (rn_node s i) ≠ Leader → timed_out now (rn_node s i) = true →
      raft_step s (mkRaftNet (rn_node s) (<[i := TickElect]> (rn_tick s)) (rn_msgs s) (rn_votes s))
  | rs_tick_elect s i now :
      rn_tick s i = TickElect →
      raft_step s (mkRaftNet (<[i := preElection now (rn_node s i)]> (rn_node s))
                     (<[i := TickSolicit]> (rn_tick s)) (rn_msgs s)
                     ((i, rf_currTerm (preElection now (rn_node s i)), Z.of_nat i) :: rn_votes s))
  | rs_tick_solicit s i args :
      rn_tick s i = TickSolicit → vote_args (rn_node s i) = Ret args →
      raft_step s (mkRaftNet (rn_node s) (<[i := TickTop]> (rn_tick s))
                     (rn_msgs s ++ broadCastVote i (rn_node s i) args) (rn_votes s))
  | rs_kill s i :
      raft_step s (mkRaftNet (<[i := Kill (rn_node s i)]> (rn_node s)) (rn_tick s) (rn_msgs s)
                     (rn_votes s)).

(** ** The invariant *)

Definition msg_term (m : Msg) : Z :=
  match m with
  | MVoteReq _ _ a => rva_Term a
  | MVoteRep _ r => rvr_Term r
  | MAppReq _ _ a => aea_Term a
  | MAppRep _ r => aer_Term r
  end.

(** What every peer satisfies after [k] steps. *)
Record node_inv (k : Z) (i : nat) (rf : Raft) : Prop := {
  ni_peers : rf_peers rf = Z.of_nat n;
  ni_me : rf_me rf = Z.of_nat i;
  ni_log : rf_log rf = [dummy_entry];
  ni_term : 0 ≤ rf_currTerm rf ≤ k;
  ni_votes : 0 ≤ rf_votesReceived rf ≤ k;
  ni_leader : rf_role rf = Leader → Z.of_nat n / 2 < rf_votesReceived rf
}.

Record net_inv (k : Z) (s : RaftNet) : Prop := {
  ri_node i : node_inv k i (rn_node s i);
  ri_msgs m : m ∈ rn_msgs s → msg_term m ≤ k;
  ri_past v T c : (v, T, c) ∈ rn_votes s → T ≤ rf_currTerm (rn_node s v);
  ri_once v T c1 c2 : (v, T, c1) ∈ rn_votes s → (v, T, c2) ∈ rn_votes s → c1 = c2
}.

Lemma raft_init_inv persisted rnd now : net_inv 0 (raft_init persisted rnd now).
Proof. split; simpl; [|set_solver..]. by split. Qed.

(** [rf'] may replace [rf]: the term did not go back, and within a term the vote stays and a
    leader leads on. *)
Record node_next (rf rf' : Raft) : Prop := {
  nn_term : rf_currTerm rf ≤ rf_currTerm rf';
  nn_voted : rf_currTerm rf' = rf_currTerm rf → rf_votedFor rf' = rf_votedFor rf;
  nn_leader : rf_currTerm rf' = rf_currTerm rf → rf_role rf = Leader → rf_role rf' = Leader
}.

Lemma node_next_refl rf : node_next rf rf.
Proof. by split. Qed.

Lemma node_next_newer rf rf' : rf_currTerm rf < rf_currTerm rf' → node_next rf rf'.
Proof. intros. split; lia. Qed.

Lemma RequestVote_node k i now rf args r rf' reply :
  node_inv k i rf → rva_Term args ≤ k → RequestVote now rf args r = Ret (rf', reply) →
  node_inv k i rf' ∧ node_next rf rf' ∧ rvr_Term reply = rf_currTerm rf' ∧
  (rvr_VoteGranted reply = true → rf_currTerm rf < rva_Term args ∧ rf_currTerm rf' = rva_Term args).
Proof.
  intros [? ? Hl ? ? ?] Hk. rewrite RequestVote_cases by by rewrite Hl.
  intros E. repeat case_decide; simplify_eq/=; (split_and!; [by split; simpl; try lia| |done|done || lia]).
  all: first [apply node_next_refl|apply node_next_newer; simpl; lia].
Qed.

Lemma AppendEntries_node k i now rf args r rf' reply :
  node_inv k i rf → aea_Term args ≤ k → AppendEntries now rf args r = (rf', reply) →
  node_inv k i rf' ∧ node_next rf rf' ∧ aer_Term reply = rf_currTerm rf'.
Proof.
  intros [? ? ? ? ? ?] Hk. unfold AppendEntries, checkTerm. intros E.
  destruct (Z.ltb_spec (rf_currTerm rf) (aea_Term args)); [|by simplify_eq/=].
  case_bool_decide; simplify_eq/=; (split_and!; [by split; simpl; try lia| |done]);
    apply node_next_newer; simpl; lia.
Qed.

Lemma sendRequestVote_reply_node k i rf reply :
  node_inv k i rf → rvr_Term reply ≤ k → k + 1 < 2 ^ 63 →
  node_inv (k + 1) i (sendRequestVote_reply rf reply) ∧
  node_next rf (sendRequestVote_reply rf reply).
Proof.
  intros [Hp ? ? ? ? ?] Hk Hb. unfold sendRequestVote_reply, checkTerm.
  destruct (Z.ltb_spec (rvr_Term reply) (rf_currTerm rf)).
  { split; [split; try done; lia|apply node_next_refl]. }
  destruct (Z.ltb_spec (rf_currTerm rf) (rvr_Term reply)); simpl.
  { split; [split; simpl; try done; lia|apply node_next_newer; simpl; lia]. }
  rewrite i64_wrap_small, Hp by lia.
  destruct (Z.ltb_spec (Z.of_nat n / 2) (rf_votesReceived rf + 1)); split; split; simpl;
    try done; try lia. intros; exfalso; naive_solver lia.
Qed.

Lemma preElection_node k i now rf :
  node_inv k i rf → k + 1 < 2 ^ 63 →
  node_inv (k + 1) i (preElection now rf) ∧ node_next rf (preElection now rf) ∧
  rf_currTerm (preElection now rf) = rf_currTerm rf + 1.
Proof.
  intros [? ? ? ? ? ?] Hb. unfold preElection. simpl. rewrite i64_wrap_small by lia.
  split_and!; [split; simpl; try done; lia|apply node_next_newer; simpl; lia|done].
Qed.

Lemma node_inv_mono k k' i rf : k ≤ k' → node_inv k i rf → node_inv k' i rf.
Proof. intros Hk []. split; try done; lia. Qed.

(** Every step replaces some peers by successors, sends messages with terms the peers
    have reached, and casts at most one vote, in a term that is new to the voter. *)
Record net_next (k : Z) (s s' : RaftNet) : Prop := {
  nx_node j : node_inv k j (rn_node s' j) ∧ node_next (rn_node s j) (rn_node s' j);
  nx_msgs m : m ∈ rn_msgs s' → m ∈ rn_msgs s ∨ msg_term m ≤ k;
  nx_votes : rn_votes s' = rn_votes s ∨ ∃ v T c, rn_votes s' = (v, T, c) :: rn_votes s ∧
    rf_currTerm (rn_node s v) < T ≤ rf_currTerm (rn_node s' v)
}.

Lemma net_next_inv k k' s s' : k ≤ k' → net_inv k s → net_next k' s s' → net_inv k' s'.
Proof.
  intros Hk [Hn Hm Hp Ho] [Hn' Hm' Hv]. split.
  - intros i. apply Hn'.
  - intros m [Hin|?]%Hm'; [|done]. specialize (Hm _ Hin). lia.
  - intros v T c. destruct Hv as [->|(v' & T' & c' & -> & Hlt & Hle)].
    + intros Hin%Hp. destruct (Hn' v) as [_ [? _ _]]. lia.
    + intros [?|Hin%Hp]%elem_of_cons; [by simplify_eq|]. destruct (Hn' v) as [_ [? _ _]]. lia.
  - intros v T c1 c2. destruct Hv as [->|(v' & T' & c' & -> & Hlt & Hle)]; [apply Ho|].
    intros [?|H1]%elem_of_cons [?|H2]%elem_of_cons; simplify_eq; [done|..].
    + apply Hp in H2. lia.
    + apply Hp in H1. lia.
    + by eapply Ho.
Qed.

Lemma upd_node k s i rf :
  (∀ j, node_inv k j (rn_node s j)) → node_inv k i rf → node_next (rn_node s i) rf →
  ∀ j, node_inv k j ((<[i := rf]> (rn_node s)) j) ∧
       node_next (rn_node s j) ((<[i := rf]> (rn_node s)) j).
Proof.
  intros Hn Hi Hx j. destruct (decide (i = j)) as [<-|Hne].
  - by rewrite fn_lookup_insert.
  - rewrite fn_lookup_insert_ne by done. split; [done|apply node_next_refl].
Qed.

Lemma raft_step_next k s s' :
  0 ≤ k → k + 1 < 2 ^ 63 → net_inv k s → raft_step s s' → net_next (k + 1) s s'.
Proof.
  intros Hk0 Hb [Hn Hm Hp Ho] Hs.
  assert (Hn' : ∀ j, node_inv (k + 1) j (rn_node s j))
    by (intros; eapply node_inv_mono; [|done]; lia).
  assert (Hsame : ∀ j, node_inv (k + 1) j (rn_node s j) ∧ node_next (rn_node s j) (rn_node s j))
    by (intros j; split; [done|apply node_next_refl]).
  destruct Hs as [s l1 m l2 E|s l1 l2 src dst args now rf reply E Ev|s l1 l2 dst reply E|
    s l1 l2 src dst args now rf reply E Ea|s l1 l2 dst reply E|s i|s i|s i|s i now Ht|
    s i args Ht Ha|s i].
  - split; simpl; [done| |by left]. rewrite E. set_solver.
  - assert (Hmt : rva_Term args ≤ k) by (apply (Hm (MVoteReq src dst args)); rewrite E; set_solver).
    destruct (RequestVote_node _ _ _ _ _ _ _ _ (Hn dst) Hmt Ev) as (Hi & Hx & Hr & Hg).
    assert (Hi1 : node_inv (k + 1) dst rf) by (eapply node_inv_mono; [|done]; lia).
    split; simpl.
    + by apply upd_node.
    + rewrite E. intros m [?|[?| ->%list_elem_of_singleton]%elem_of_app]%elem_of_app; [set_solver..|].
      right. simpl. rewrite Hr. apply Hi1.
    + unfold granted. destruct (rvr_VoteGranted reply); [|by left]. right. destruct (Hg eq_refl).
      eexists _, _, _. split; [done|]. rewrite fn_lookup_insert. lia.
  - assert (Hmt : rvr_Term reply ≤ k) by (apply (Hm (MVoteRep dst reply)); rewrite E; set_solver).
    destruct (sendRequestVote_reply_node _ _ _ _ (Hn dst) Hmt Hb) as (Hi & Hx).
    split; simpl; [by apply upd_node| |by left]. rewrite E. set_solver.
  - assert (Hmt : aea_Term args ≤ k) by (apply (Hm (MAppReq src dst args)); rewrite E; set_solver).
    destruct (AppendEntries_node _ _ _ _ _ _ _ _ (Hn dst) Hmt Ea) as (Hi & Hx & Hr).
    assert (Hi1 : node_inv (k + 1) dst rf) by (eapply node_inv_mono; [|done]; lia).
    split; simpl; [by apply upd_node| |by left].
    rewrite E. intros m [?|[?| ->%list_elem_of_singleton]%elem_of_app]%elem_of_app; [set_solver..|].
    right. simpl. rewrite Hr. apply Hi1.
  - split; simpl; [apply upd_node; [done..|apply node_next_refl]| |by left]. rewrite E. set_solver.
  - split; simpl; [done|by left|by left].
  - split; simpl; [done| |by left]. intros m [?|Hin]%elem_of_app; [by left|right].
    apply list_elem_of_fmap in Hin as (dst & -> & _). apply Hn'.
  - split; simpl; [done|by left|by left].
  - destruct (preElection_node k i now _ (Hn i) Hb) as (Hi & Hx & He).
    split; simpl; [by apply upd_node|by left|]. right. eexists _, _, _. split; [done|].
    rewrite fn_lookup_insert. simpl in *. lia.
  - split; simpl; [done| |by left]. intros m [?|Hin]%elem_of_app; [by left|right].
    apply list_elem_of_fmap in Hin as (dst & -> & _). unfold vote_args in Ha. bind_inv Ha.
    apply Hn'.
  - split; simpl; [|by left|by left]. apply upd_node; [done| |by split].
    destruct (Hn' i). by split.
Qed.

Lemma raft_reachable_inv persisted rnd now m s :
  Z.of_nat m < 2 ^ 63 → nsteps raft_step m (raft_init persisted rnd now) s →
  net_inv (Z.of_nat m) s.
Proof.
  intros Hb. apply (nsteps_invariant raft_step (λ m s, net_inv (Z.of_nat m) s)).
  - apply raft_init_inv.
  - intros p x y Hp Hi Hxy. rewrite Nat2Z.inj_succ. apply (net_next_inv (Z.of_nat p) _ x); [lia|done|].
    apply raft_step_next; [lia..|done|done].
Qed.
End cluster.

(** ** Scripted runs *)

Inductive Action :=
  | ADeliver (k : nat) (now : Z)   (* deliver the [k]-th message in flight *)
  | ATimeout (i : nat) (now : Z)   (* peer [i] times out, elects itself and solicits votes *)
  | ASolicit (i : nat).

Definition raft_act (n : nat) (s : RaftNet) (a : Action) : option RaftNet :=
  match a with
  | ADeliver k now =>
      let ms := take k (rn_msgs s) ++ drop (S k) (rn_msgs s) in
      match rn_msgs s !! k with
      | None => None
      | Some (MVoteReq src dst args) =>
          match RequestVote now (rn_node s dst) args zero_RequestVoteReply with
          | Ret (rf, reply) =>
              Some (mkRaftNet (<[dst := rf]> (rn_node s)) (rn_tick s)
                      (take k (rn_msgs s) ++ drop (S k) (rn_msgs s) ++ [MVoteRep src reply])
                      (granted dst args reply ++ rn_votes s))
          | _ => None
          end
      | Some (MVoteRep dst reply) =>
          Some (mkRaftNet (<[dst := sendRequestVote_reply (rn_node s dst) reply]> (rn_node s))
                  (rn_tick s) ms (rn_votes s))
      | Some (MAppReq src dst args) =>
          let '(rf, reply) := AppendEntries now (rn_node s dst) args zero_AppendEntriesReply in
          Some (mkRaftNet (<[dst := rf]> (rn_node s)) (rn_tick s)
                  (take k (rn_msgs s) ++ drop (S k) (rn_msgs s) ++ [MAppRep src reply])
                  (rn_votes s))
      | Some (MAppRep dst reply) =>
          Some (mkRaftNet (<[dst := sendAppendEntries_reply (rn_node s dst) reply]> (rn_node s))
                  (rn_tick s) ms (rn_votes s))
      end
  | ATimeout i now =>
      if bool_decide (i < n)%nat && bool_decide (rn_tick s i = TickTop) &&
         negb (killed (rn_node s i)) && bool_decide (rf_role (rn_node s i) ≠ Leader) &&
         timed_out now (rn_node s i)
      then
        let rf := preElection now (rn_node s i) in
        Some (mkRaftNet (<[i := rf]> (rn_node s)) (<[i := TickSolicit]> (<[i := TickElect]> (rn_tick s)))
                (rn_msgs s) ((i, rf_currTerm rf, Z.of_nat i) :: rn_votes s))
      else None
  | ASolicit i =>
      if bool_decide (rn_tick s i = TickSolicit) then
        match vote_args (rn_node s i) with
        | Ret args => Some (mkRaftNet (rn_node s) (<[i := TickTop]> (rn_tick s))
                              (rn_msgs s ++ broadCastVote n i (rn_node s i) args) (rn_votes s))
        | _ => None
        end
      else None
  end.

Fixpoint raft_run (n : nat) (s : RaftNet) (acts : list Action) : option RaftNet :=
  match acts with
  | [] => Some s
  | a :: acts => match raft_act n s a with Some s' => raft_run n s' acts | None => None end
  end.

Lemma raft_act_steps n s a s' : raft_act n s a = Some s' → bsteps (raft_step n) 2 s s'.
Proof.
  destruct a as [k now|i now|i]; simpl.
  - destruct (rn_msgs s !! k) as [m|] eqn:Em; [|done].
    pose proof (take_drop_middle _ _ _ Em) as Hm. symmetry in Hm.
    destruct m as [src dst args|dst reply|src dst args|dst reply].
    + destruct (RequestVote _ _ _ _) as [[rf reply]| |] eqn:Ev; intros; simplify_eq.
      eapply bsteps_l; [|apply bsteps_refl]. by eapply rs_RequestVote.
    + intros; simplify_eq. eapply bsteps_l; [|apply bsteps_refl]. by eapply rs_RequestVote_reply.
    + destruct (AppendEntries _ _ _ _) as [rf reply] eqn:Ea. intros; simplify_eq.
      eapply bsteps_l; [|apply bsteps_refl]. by eapply rs_AppendEntries.
    + intros; simplify_eq. eapply bsteps_l; [|apply bsteps_refl]. by eapply rs_AppendEntries_reply.
  - destruct (_ && _) eqn:Hc; [|done]. intros; simplify_eq.
    rewrite !andb_true_iff, !bool_decide_eq_true, negb_true_iff in Hc.
    destruct Hc as ((((?&?)&?)&?)&?).
    eapply bsteps_l; [by eapply (rs_tick_timeout n s i now)|]. eapply bsteps_l; [|apply bsteps_refl].
    refine (rs_tick_elect n (mkRaftNet _ (<[i := TickElect]> _) _ _) i now _).
    apply fn_lookup_insert.
  - case_bool_decide; [|done]. destruct (vote_args _) as [args| |] eqn:Ha; intros; simplify_eq.
    eapply bsteps_l; [|apply bsteps_refl]. by apply rs_tick_solicit.
Qed.

Lemma raft_run_bsteps n acts s s' :
  raft_run n s acts = Some s' → bsteps (raft_step n) (2 * length acts) s s'.
Proof.
  revert s. induction acts as [|a acts IH]; intros s; simpl; [intros; simplify_eq; apply bsteps_refl|].
  destruct (raft_act n s a) eqn:Ea; [|done]. intros Hr.
  replace (S (length acts + S (length acts + 0))) with (2 + 2 * length acts)%nat by lia.
  eapply bsteps_trans; [by eapply raft_act_steps|by apply IH].
Qed.

Lemma raft_run_steps n acts s s' : raft_run n s acts = Some s' → rtc (raft_step n) s s'.
Proof. intros Hr%raft_run_bsteps. by eapply rtc_bsteps_2. Qed.

(** A cluster started at time 0 with 150 ms timeouts. *)
Definition cluster0 (n : nat) : RaftNet := raft_init n (λ _, []) (λ _, 0) (λ _, 0).

(** Peers 0 and 1 of three time out together; all messages are delivered in order. *)
Definition two_leaders_script : list Action :=
  [ATimeout 0 (10^9); ATimeout 1 (10^9); ASolicit 0; ASolicit 1] ++
  replicate 8 (ADeliver 0 (10^9)).

(** ** A campaign over a network that loses nothing *)

(** Some message in flight is delivered, whichever and whenever. *)
Definition deliver (n : nat) (s s' : RaftNet) : Prop :=
  ∃ k now, raft_act n s (ADeliver k now) = Some s'.

Lemma deliver_steps n k s s' : nsteps (deliver n) k s s' → rtc (raft_step n) s s'.
Proof.
  induction 1 as [s|k s s1 s' (j & now & Ha) _ IH]; [done|].
  etrans; [|exact IH]. by eapply rtc_bsteps_2, raft_act_steps.
Qed.

Section campaign.
Context (n c : nat) (Hn : Z.of_nat n < 2 ^ 62) (Hc : (c < n)%nat).

Definition campaign_args : RequestVoteArgs := mkRequestVoteArgs 1 (Z.of_nat c) 0 0.

Definition campaign_reply : Msg := MVoteRep c (mkRequestVoteReply 1 true).

(** Peer [c] in term 1 after [v] replies. *)
Record candidate_at (rf : Raft) (v : Z) : Prop := {
  ca_peers : rf_peers rf = Z.of_nat n;
  ca_term : rf_currTerm rf = 1;
  ca_votes : rf_votesReceived rf = v;
  ca_leader : rf_role rf = Leader ↔ Z.of_nat n / 2 < v
}.

(** A peer that has seen no term yet. *)
Definition fresh (rf : Raft) : Prop := rf_currTerm rf = 0 ∧ rf_log rf = [dummy_entry].

Lemma fresh_grants rf t r :
  fresh rf → ∃ rf', RequestVote t rf campaign_args r = Ret (rf', mkRequestVoteReply 1 true) ∧
    GetState rf' = (1, false).
Proof.
  intros [Ht Hl]. rewrite RequestVote_cases by by rewrite Hl.
  rewrite decide_False by (rewrite Ht; simpl; lia).
  rewrite decide_True by (exists dummy_entry; rewrite Hl; simpl; split_and!; [done|lia..]).
  eexists. done.
Qed.

Lemma candidate_counts rf v :
  candidate_at rf v → 0 ≤ v < 2 ^ 62 →
  candidate_at (sendRequestVote_reply rf (mkRequestVoteReply 1 true)) (v + 1).
Proof.
  intros [Hp Ht Hv Hr] Hb. unfold sendRequestVote_reply, checkTerm. simpl. rewrite Ht.
  simpl. rewrite Hv, Hp, i64_wrap_small by lia.
  destruct (Z.ltb_spec (Z.of_nat n / 2) (v + 1)); split; simpl; try done.
  rewrite Hr. lia.
Qed.

Lemma elem_of_others d me : d ∈ others n (Z.of_nat me) ↔ (d < n)%nat ∧ d ≠ me.
Proof. unfold others. rewrite list_elem_of_filter, elem_of_seq. lia. Qed.

Lemma others_perm : c :: others n (Z.of_nat c) ≡ₚ seq 0 n.
Proof.
  apply NoDup_Permutation; [|apply NoDup_seq|].
  - constructor; [rewrite elem_of_others; lia|]. apply NoDup_filter, NoDup_seq.
  - intros d. rewrite elem_of_cons, elem_of_others, elem_of_seq.
    destruct (decide (d = c)); lia.
Qed.

Lemma others_length : length (others n (Z.of_nat c)) = (n - 1)%nat.
Proof. pose proof (Permutation_length others_perm) as Hl. rewrite length_seq in Hl. simpl in Hl. lia. Qed.

(** In the middle of the campaign: the peers in [P] have not been asked yet, [q] answers are on
    their way, and all others have been counted. *)
Record campaign_inv (s : RaftNet) (P : list nat) (q : nat) : Prop := {
  cp_msgs : rn_msgs s ≡ₚ ((λ d, MVoteReq c d campaign_args) <$> P) ++ replicate q campaign_reply;
  cp_nodup : NoDup P;
  cp_others d : d ∈ P → (d < n)%nat ∧ d ≠ c;
  cp_sum : (length P + q ≤ n - 1)%nat;
  cp_cand : candidate_at (rn_node s c) (Z.of_nat (n - 1 - length P - q));
  cp_fresh d : d ∈ P → fresh (rn_node s d);
  cp_asked d : (d < n)%nat → d ≠ c → d ∉ P → GetState (rn_node s d) = (1, false) ∧
    (d, 1, Z.of_nat c) ∈ rn_votes s;
  cp_own : (c, 1, Z.of_nat c) ∈ rn_votes s
}.

Lemma campaign_length s P q : campaign_inv s P q → length (rn_msgs s) = (length P + q)%nat.
Proof. intros Hi. by rewrite (cp_msgs _ _ _ Hi), length_app, length_fmap, length_replicate. Qed.

(** A message in flight is a request to a peer in [P] or an answer. *)
Lemma campaign_msg s P q m :
  campaign_inv s P q → m ∈ rn_msgs s →
  (∃ d P', m = MVoteReq c d campaign_args ∧ P ≡ₚ d :: P') ∨ (m = campaign_reply ∧ ∃ q', q = S q').
Proof.
  intros Hi. rewrite (cp_msgs _ _ _ Hi). intros [Hm|[-> Hq]%elem_of_replicate]%elem_of_app.
  - apply list_elem_of_fmap in Hm as (d & -> & Hd). left.
    apply list_elem_of_split in Hd as (l1 & l2 & ->). exists d, (l1 ++ l2).
    split; [done|]. by rewrite Permutation_middle.
  - right. split; [done|]. destruct q; [done|]. eauto.
Qed.

Lemma campaign_request s P P' q l1 l2 d rf t :
  campaign_inv s P q → rn_msgs s = l1 ++ MVoteReq c d campaign_args :: l2 → P ≡ₚ d :: P' →
  RequestVote t (rn_node s d) campaign_args zero_RequestVoteReply = Ret (rf, mkRequestVoteReply 1 true) →
  GetState rf = (1, false) →
  campaign_inv (mkRaftNet (<[d := rf]> (rn_node s)) (rn_tick s) (l1 ++ l2 ++ [campaign_reply])
    (granted d campaign_args (mkRequestVoteReply 1 true) ++ rn_votes s)) P' (S q).
Proof.
  intros [Hm Hnd Ho Hsum Hca Hfr Hask Hown] E HP _ Hg.
  assert (Hd : d ∈ P) by (rewrite HP; left). destruct (Ho d Hd) as [Hdn Hdc].
  assert (HP' : ∀ e, e ∈ P ↔ e = d ∨ e ∈ P') by (intros e; by rewrite HP, elem_of_cons).
  rewrite HP in Hnd. apply NoDup_cons in Hnd as [Hd' Hnd].
  pose proof (Permutation_length HP) as Hlen. simpl in Hlen.
  split; simpl; [|done|naive_solver|lia| | | |set_solver].
  - rewrite HP, fmap_cons, E, <- Permutation_middle in Hm. simpl in Hm.
    apply Permutation_cons_inv in Hm. rewrite (assoc_L (++)), Hm. solve_Permutation.
  - rewrite fn_lookup_insert_ne by done. rewrite Hlen in Hca.
    by replace (n - 1 - length P' - S q)%nat with (n - 1 - S (length P') - q)%nat by lia.
  - intros e He. rewrite fn_lookup_insert_ne by (intros ->; done). apply Hfr. naive_solver.
  - intros e He Hec HeP. destruct (decide (d = e)) as [<-|Hne].
    + rewrite fn_lookup_insert. split; [done|left].
    + rewrite fn_lookup_insert_ne by done. destruct (Hask e He Hec) as [? ?]; [naive_solver|].
      split; [done|by right].
Qed.

Lemma campaign_answer s P q l1 l2 :
  campaign_inv s P (S q) → rn_msgs s = l1 ++ campaign_reply :: l2 →
  campaign_inv (mkRaftNet
    (<[c := sendRequestVote_reply (rn_node s c) (mkRequestVoteReply 1 true)]> (rn_node s))
    (rn_tick s) (l1 ++ l2) (rn_votes s)) P q.
Proof.
  intros [Hm Hnd Ho Hsum Hca Hfr Hask Hown] E.
  split; simpl; [|done|done|lia| | | |done].
  - rewrite E, <- Permutation_middle in Hm. cbn [replicate] in Hm.
    rewrite <- Permutation_middle in Hm. by apply Permutation_cons_inv in Hm.
  - rewrite fn_lookup_insert.
    replace (Z.of_nat (n - 1 - length P - q)) with (Z.of_nat (n - 1 - length P - S q) + 1) by lia.
    apply candidate_counts; [done|lia].
  - intros e He. destruct (Ho e He). rewrite fn_lookup_insert_ne by done. by apply Hfr.
  - intros e He Hec HeP. rewrite fn_lookup_insert_ne by done. by apply Hask.
Qed.

(** Any message in flight can be delivered, and then one message less is needed. *)
Lemma campaign_deliver s P q k now :
  campaign_inv s P q → (k < length (rn_msgs s))%nat →
  ∃ s' P' q', raft_act n s (ADeliver k now) = Some s' ∧ campaign_inv s' P' q' ∧
    (2 * length P + q = S (2 * length P' + q'))%nat.
Proof.
  intros Hi [m Hm]%lookup_lt_is_Some. pose proof (take_drop_middle _ _ _ Hm) as E. symmetry in E.
  simpl. rewrite Hm.
  destruct (campaign_msg s P q m Hi (list_elem_of_lookup_2 _ _ _ Hm)) as [(d & P' & -> & HP)|[-> [q' ->]]].
  - destruct (fresh_grants (rn_node s d) now zero_RequestVoteReply) as (rf & Hrv & Hg).
    { apply (cp_fresh _ _ _ Hi). rewrite HP. left. }
    rewrite Hrv. eexists _, P', (S q). split; [done|]. split; [by eapply campaign_request|].
    rewrite (Permutation_length HP). simpl. lia.
  - simpl. eexists _, P, q'. split; [done|]. split; [by eapply campaign_answer|]. lia.
Qed.

Lemma deliver_inv s P q s' :
  campaign_inv s P q → deliver n s s' →
  ∃ P' q', campaign_inv s' P' q' ∧ (2 * length P + q = S (2 * length P' + q'))%nat.
Proof.
  intros Hi (k & now & Ha).
  assert (Hk : (k < length (rn_msgs s))%nat).
  { apply lookup_lt_is_Some. simpl in Ha. destruct (rn_msgs s !! k); [eauto|done]. }
  destruct (campaign_deliver s P q k now Hi Hk) as (s1 & P' & q' & E & Hi' & Hm).
  exists P', q'. by simplify_eq.
Qed.

Lemma deliver_run_inv k s P q s' :
  nsteps (deliver n) k s s' → campaign_inv s P q →
  ∃ P' q', campaign_inv s' P' q' ∧ (2 * length P + q = k + (2 * length P' + q'))%nat.
Proof.
  intros Hs. revert P q. induction Hs as [s|k s s1 s' Hd _ IH]; intros P q Hi; [by exists P, q|].
  destruct (deliver_inv s P q s1 Hi Hd) as (P1 & q1 & Hi1 & Hm1).
  destruct (IH P1 q1 Hi1) as (P2 & q2 & Hi2 & Hm2). exists P2, q2. split; [done|lia].
Qed.

(** Peer [c] times out and solicits votes. *)
Lemma campaign_start persisted rnd now late :
  timed_out late (rn_node (raft_init n persisted rnd now) c) = true →
  ∃ s, raft_run n (raft_init n persisted rnd now) [ATimeout c late; ASolicit c] = Some s ∧
    campaign_inv s (others n (Z.of_nat c)) 0.
Proof.
  intros Ht. cbn [raft_run raft_act]. rewrite Ht, !bool_decide_eq_true_2 by done. simpl.
  rewrite fn_lookup_insert, bool_decide_eq_true_2 by done. rewrite fn_lookup_insert.
  cbn [vote_args]. unfold vote_args, last_entry. simpl.
  eexists. split; [done|]. split; simpl.
  - by rewrite app_nil_r.
  - apply NoDup_filter, NoDup_seq.
  - intros d. apply elem_of_others.
  - rewrite others_length. lia.
  - rewrite fn_lookup_insert, others_length.
    replace (n - 1 - (n - 1) - 0)%nat with 0%nat by lia. split; simpl; try done.
    pose proof (Z.div_pos (Z.of_nat n) 2). split; [done|lia].
  - intros d [_ Hdc]%elem_of_others. by rewrite fn_lookup_insert_ne.
  - intros d ? ? []. by apply elem_of_others.
  - by left.
Qed.

(** What the invariant says of the peers. *)
Lemma campaign_state s P q :
  campaign_inv s P q →
  GetState (rn_node s c) =
    (1, bool_decide (Z.of_nat n / 2 < Z.of_nat (n - 1) - Z.of_nat (length (rn_msgs s)))).
Proof.
  intros Hi. rewrite (campaign_length s P q Hi). destruct Hi as [_ _ _ Hsum [_ Ht _ Hl] _ _ _].
  unfold GetState. rewrite Ht. f_equal. apply bool_decide_ext. rewrite Hl. lia.
Qed.
End campaign.

(** ** Properties *)

(** C5: votes are safe, as long as no peer restarts. In every state reached in fewer
    than 2^63 steps a peer has voted for at most one candidate of a term, its own
    candidacy included, so no two candidates of a term have the votes of a majority. *)
Theorem raft_vote_safety n persisted rnd now m s :
  Z.of_nat m < 2 ^ 63 → nsteps (raft_step n) m (raft_init n persisted rnd now) s →
  (∀ v T c1 c2, (v, T, c1) ∈ rn_votes s → (v, T, c2) ∈ rn_votes s → c1 = c2) ∧
  (∀ T c1 c2 (Q1 Q2 : gset nat),
     (∀ v, v ∈ Q1 → (v < n)%nat ∧ (v, T, c1) ∈ rn_votes s) → (n < 2 * size Q1)%nat →
     (∀ v, v ∈ Q2 → (v < n)%nat ∧ (v, T, c2) ∈ rn_votes s) → (n < 2 * size Q2)%nat →
     c1 = c2).
Proof.
  intros Hb Hs. pose proof (ri_once _ _ _ (raft_reachable_inv _ _ _ _ _ _ Hb Hs)) as Ho.
  split; [apply Ho|]. intros T c1 c2 Q1 Q2 H1 Hs1 H2 Hs2.
  destruct (quorum_meet n Q1 Q2) as (v & Hv1 & Hv2); [naive_solver..|lia|].
  destruct (H1 v Hv1), (H2 v Hv2). by eapply Ho.
Qed.

(** C10: what a peer keeps, and that nothing panics. In every state reached in fewer than
    2^63 - 1 steps, a further step lowers no peer's term; a peer that stays in its term keeps
    the vote it has recorded there, and if it leads, it leads on; a peer in the role of leader
    has counted replies from more than half the cluster size since it was made (in whatever
    terms: nothing clears the count, against the comment on it); and every request in flight
    can be handled and every candidate can solicit votes, that is, reading the last log entry
    never panics. *)
Theorem raft_monotone_no_panic n persisted rnd now m s :
  Z.of_nat m < 2 ^ 63 - 1 → nsteps (raft_step n) m (raft_init n persisted rnd now) s →
  (∀ s' i, raft_step n s s' →
     rf_currTerm (rn_node s i) ≤ rf_currTerm (rn_node s' i) ∧
     (rf_currTerm (rn_node s' i) = rf_currTerm (rn_node s i) →
        rf_votedFor (rn_node s' i) = rf_votedFor (rn_node s i) ∧
        ((GetState (rn_node s i)).2 = true → (GetState (rn_node s' i)).2 = true))) ∧
  (∀ i, (GetState (rn_node s i)).2 = true → Z.of_nat n / 2 < rf_votesReceived (rn_node s i)) ∧
  (∀ i t args reply, is_Ret (RequestVote t (rn_node s i) args reply)) ∧
  (∀ i, is_Ret (vote_args (rn_node s i))).
Proof.
  intros Hb Hs. pose proof (raft_reachable_inv n persisted rnd now m s ltac:(lia) Hs) as Hi.
  split_and!.
  - intros s' i Hstep. destruct (raft_step_next n (Z.of_nat m) s s' ltac:(lia) ltac:(lia) Hi Hstep) as [Hx _ _].
    destruct (Hx i) as [_ [? ? Hl]]. split_and!; [done|]. intros Ht. split; [auto|].
    unfold GetState. simpl. rewrite !bool_decide_eq_true. by apply Hl.
  - intros i Hl. apply (ri_node _ _ _ Hi i). by apply bool_decide_eq_true in Hl.
  - intros i t args reply. rewrite RequestVote_cases; [eexists; reflexivity|].
    by rewrite (ni_log _ _ _ _ (ri_node _ _ _ Hi i)).
  - intros i. unfold vote_args, last_entry.
    rewrite (ni_log _ _ _ _ (ri_node _ _ _ Hi i)). simpl. eexists; reflexivity.
Qed.

(** Elections are not safe. The candidate counts every reply of its term, also those
    that refuse the vote: from the initial state of three peers a state is reachable,
    without losing a message, with two leaders in the same term, although one of them
    was refused by both other peers. *)
Theorem raft_two_leaders :
  ∃ s, rtc (raft_step 3) (cluster0 3) s ∧
    GetState (rn_node s 0) = (1, true) ∧ GetState (rn_node s 1) = (1, true) ∧
    (∀ v, (v, 1, 1) ∈ rn_votes s → v = 1%nat).
Proof.
  destruct (raft_run 3 (cluster0 3) two_leaders_script) as [s|] eqn:Hr; [|by vm_compute in Hr].
  exists s. split; [by eapply raft_run_steps|]. vm_compute in Hr. simplify_eq.
  split_and!; [done..|]. simpl. intros v. rewrite !elem_of_cons, elem_of_nil. naive_solver.
Qed.

(** Heartbeats of the leader's own term have no effect. A peer refuses every
    AppendEntries whose term is not newer than its own and keeps its election timer, so
    after it has once heard of a term, no heartbeat of that term ever delays the
    election timeout. *)
Theorem AppendEntries_same_term_ignored rf (beats : list (Z * AppendEntriesArgs)) :
  Forall (λ b, aea_Term b.2 ≤ rf_currTerm rf) beats →
  foldl (λ rf b, (AppendEntries b.1 rf b.2 zero_AppendEntriesReply).1) rf beats = rf ∧
  Forall (λ b, AppendEntries b.1 rf b.2 zero_AppendEntriesReply =
                 (rf, mkAppendEntriesReply (rf_currTerm rf) false)) beats.
Proof.
  intros Hb. assert (Hone : ∀ t a, aea_Term a ≤ rf_currTerm rf →
    AppendEntries t rf a zero_AppendEntriesReply = (rf, mkAppendEntriesReply (rf_currTerm rf) false)).
  { intros t a Ha. unfold AppendEntries, checkTerm. by rewrite (proj2 (Z.ltb_ge _ _)). }
  split; [|eapply Forall_impl; [done|]; intros [] ?; by apply Hone].
  induction Hb as [|[t a] beats Ha Hb IH]; simpl; [done|]. by rewrite Hone.
Qed.

(** C39: elections make progress. In a new cluster of at least three peers, let any peer time
    out first and solicit votes. Then in every run in which nothing happens but that messages
    are delivered, requests and answers in any order, and none is lost: as long as a message is
    in flight, any of them can be delivered; the peer leads term 1 as soon as more than half
    the cluster size of answers have come in (its own vote does not count, which is why two
    peers do not suffice); and after exactly 2 (n - 1) deliveries there are no more messages,
    the peer leads, all others follow in term 1, and everybody has voted for it. *)
Theorem raft_elects_leader n c persisted rnd now late :
  (3 <= n)%nat → Z.of_nat n < 2 ^ 62 → (c < n)%nat →
  timed_out late (rn_node (raft_init n persisted rnd now) c) = true →
  ∃ s1, raft_run n (raft_init n persisted rnd now) [ATimeout c late; ASolicit c] = Some s1 ∧
    ∀ k s, nsteps (deliver n) k s1 s →
      rtc (raft_step n) (raft_init n persisted rnd now) s ∧
      (k ≤ 2 * (n - 1))%nat ∧ (rn_msgs s = [] ↔ k = (2 * (n - 1))%nat) ∧
      (∀ j t, (j < length (rn_msgs s))%nat → ∃ s', raft_act n s (ADeliver j t) = Some s') ∧
      GetState (rn_node s c) =
        (1, bool_decide (Z.of_nat n / 2 < Z.of_nat (n - 1) - Z.of_nat (length (rn_msgs s)))) ∧
      (rn_msgs s = [] →
        GetState (rn_node s c) = (1, true) ∧
        (∀ i, (i < n)%nat → i ≠ c → GetState (rn_node s i) = (1, false)) ∧
        (∀ i, (i < n)%nat → (i, 1, Z.of_nat c) ∈ rn_votes s)).
Proof.
  intros H3 Hn Hc Ht. destruct (campaign_start n c Hc persisted rnd now late Ht) as (s1 & Hr & Hi1).
  exists s1. split; [done|]. intros k s Hs.
  destruct (deliver_run_inv n c Hn Hc k s1 _ _ s Hs Hi1) as (P & q & Hi & Hm).
  rewrite others_length in Hm by done.
  pose proof (campaign_length n c s P q Hi) as Hl. pose proof (campaign_state n c Hc s P q Hi) as Hg.
  split_and!; [|lia| | |done|].
  - etrans; [by eapply raft_run_steps|by eapply deliver_steps].
  - rewrite <- length_zero_iff_nil. destruct Hi. split; lia.
  - intros j t Hj. destruct (campaign_deliver n c Hn Hc s P q j t Hi Hj) as (s' & _ & _ & E & _). eauto.
  - intros E. rewrite E in Hl. simpl in Hl. destruct P; [|done].
    rewrite Hg, E, bool_decide_eq_true_2 by (simpl; apply Z.div_lt_upper_bound; lia).
    split_and!; [done| |]; intros i Hin.
    + intros Hic. apply (cp_asked _ _ _ _ _ Hi); [done..|]. apply not_elem_of_nil.
    + destruct (decide (i = c)) as [->|Hic]; [apply (cp_own _ _ _ _ _ Hi)|].
      apply (cp_asked _ _ _ _ _ Hi); [done..|]. apply not_elem_of_nil.
Qed.

(** Nothing is persisted. A peer that restarts forgets its vote, whatever it had
    saved, and grants the same term to a second candidate. *)
Theorem raft_restart_votes_twice T c1 c2 (peers me rnd now : Z) (saved : list Z) :
  0 < T → c1 ≠ c2 →
  let args c := mkRequestVoteArgs T c 0 0 in
  let boot := Make peers me saved rnd now in
  ∃ rf1 rf2,
    RequestVote now boot (args c1) zero_RequestVoteReply = Ret (rf1, mkRequestVoteReply T true) ∧
    rf_votedFor rf1 = c1 ∧
    RequestVote now rf1 (args c2) zero_RequestVoteReply = Ret (rf1, mkRequestVoteReply T false) ∧
    RequestVote now boot (args c2) zero_RequestVoteReply = Ret (rf2, mkRequestVoteReply T true) ∧
    rf_votedFor rf2 = c2.
Proof.
  intros HT Hc args boot.
  assert (Hlog : ∀ c, log_ok boot (args c))
    by (intros c; exists dummy_entry; simpl; split_and!; [done|lia..]).
  assert (Hg : ∀ c, RequestVote now boot (args c) zero_RequestVoteReply =
    Ret (resetTimeout now (with_election boot T Follower c), mkRequestVoteReply T true)).
  { intros c. rewrite RequestVote_cases by done.
    rewrite decide_False, decide_True; [done|apply Hlog|simpl; lia]. }
  rewrite !Hg. eexists _, _. split_and!; try done.
  rewrite RequestVote_cases by done. by rewrite decide_True by (simpl; lia).
Qed.

(** ** Witnesses *)

Lemma two_leaders_run :
  ∃ m s, nsteps (raft_step 3) m (cluster0 3) s ∧ Z.of_nat m < 2 ^ 63 - 1 ∧
    (0%nat, 1, 0) ∈ rn_votes s.
Proof.
  exists 2%nat. eexists. split; [|split; [done|]].
  - eapply nsteps_l; [by apply (rs_tick_timeout 3 _ 0 (10 ^ 9)); [lia|..]|].
    eapply nsteps_l; [|apply nsteps_O]. by apply (rs_tick_elect 3 _ 0 (10 ^ 9)).
  - by left.
Qed.

Example raft_vote_safety_witness :
  ∃ s, (0%nat, 1, 0) ∈ rn_votes s ∧
    ∀ c, (0%nat, 1, c) ∈ rn_votes s → c = 0.
Proof.
  destruct two_leaders_run as (m & s & Hs & Hm & Hv). exists s. split; [done|]. intros c Hc.
  destruct (raft_vote_safety 3 (λ _, []) (λ _, 0) (λ _, 0) m s) as [Ho _]; [lia|done|].
  by eapply Ho.
Defined.

(** A state in which peer 0 has been elected, eight messages later. *)
Lemma elected_run :
  ∃ m s, nsteps (raft_step 3) m (cluster0 3) s ∧ Z.of_nat m < 2 ^ 63 - 1 ∧
    GetState (rn_node s 0) = (1, true).
Proof.
  destruct (raft_run 3 (cluster0 3) two_leaders_script) as [s|] eqn:Hr; [|by vm_compute in Hr].
  pose proof (raft_run_bsteps _ _ _ _ Hr) as (m & Hm & Hs)%bsteps_nsteps.
  exists m, s. split; [done|]. split; [simpl in Hm; lia|]. vm_compute in Hr. by simplify_eq.
Qed.

Example raft_monotone_no_panic_witness :
  ∃ s, GetState (rn_node s 0) = (1, true) ∧ 1 < rf_votesReceived (rn_node s 0) ∧
    (∀ s', raft_step 3 s s' → rf_currTerm (rn_node s' 0) = 1 → (GetState (rn_node s' 0)).2 = true) ∧
    is_Ret (RequestVote 7 (rn_node s 1) (mkRequestVoteArgs 5 2 0 0) zero_RequestVoteReply).
Proof.
  destruct elected_run as (m & s & Hs & Hm & Hg). exists s.
  destruct (raft_monotone_no_panic 3 (λ _, []) (λ _, 0) (λ _, 0) m s Hm Hs) as (Hstep & Hl & Hreq & _).
  split; [exact Hg|]. split; [apply (Hl 0%nat); by rewrite Hg|]. split; [|apply Hreq].
  intros s' Hs' Ht. destruct (Hstep s' 0%nat Hs') as [_ Hk]. apply Hk; [|by rewrite Hg].
  rewrite Ht. by injection Hg.
Defined.

Example AppendEntries_same_term_ignored_witness :
  let rf := rn_node (cluster0 3) 1 in
  let beats := [(5, mkAppendEntriesArgs 0 0 [])] in
  foldl (λ rf b, (AppendEntries b.1 rf b.2 zero_AppendEntriesReply).1) rf beats = rf ∧
  Forall (λ b, AppendEntries b.1 rf b.2 zero_AppendEntriesReply =
                 (rf, mkAppendEntriesReply (rf_currTerm rf) false)) beats.
Proof.
  apply AppendEntries_same_term_ignored. constructor; [|constructor].
  vm_compute. discriminate.
Defined.

(** Peer 2 of five, its messages delivered in some order. *)
Definition campaign_script : list Action := [ATimeout 2 (10^9); ASolicit 2].

Definition campaign_deliveries : list Action :=
  [ADeliver 3 0; ADeliver 1 0; ADeliver 3 0; ADeliver 0 0; ADeliver 2 0; ADeliver 0 0;
   ADeliver 0 0; ADeliver 0 0].

Definition delivers (a : Action) : bool := match a with ADeliver _ _ => true | _ => false end.

Lemma raft_run_app n s acts acts' :
  raft_run n s (acts ++ acts') =
    match raft_run n s acts with Some s' => raft_run n s' acts' | None => None end.
Proof.
  revert s. induction acts as [|a acts IH]; intros s; simpl; [done|].
  destruct (raft_act n s a); [apply IH|done].
Qed.

Lemma deliver_script n s acts s' :
  raft_run n s acts = Some s' → forallb delivers acts = true →
  nsteps (deliver n) (length acts) s s'.
Proof.
  revert s. induction acts as [|a acts IH]; intros s Hr Ha; simpl in *;
    [simplify_eq; constructor|].
  apply andb_true_iff in Ha as [Ha Has].
  destruct (raft_act n s a) as [s1|] eqn:E; [|done]. apply nsteps_l with s1; [|by apply IH].
  destruct a; [by eexists _, _|done..].
Qed.

Lemma campaign_runs :
  match raft_run 5 (cluster0 5) (campaign_script ++ campaign_deliveries) with
  | Some _ => true | None => false end = true.
Proof. vm_compute. reflexivity. Qed.

Lemma campaign_delivered s1 :
  raft_run 5 (cluster0 5) campaign_script = Some s1 →
  ∃ s, raft_run 5 (cluster0 5) (campaign_script ++ campaign_deliveries) = Some s ∧
    nsteps (deliver 5) 8 s1 s.
Proof.
  intros H1. pose proof campaign_runs as Hr. rewrite raft_run_app, H1 in *.
  destruct (raft_run 5 s1 campaign_deliveries) as [s|] eqn:E; [|discriminate Hr].
  exists s. split; [reflexivity|]. exact (deliver_script 5 s1 campaign_deliveries s E eq_refl).
Qed.

Example raft_elects_leader_witness :
  ∃ s, raft_run 5 (cluster0 5) (campaign_script ++ campaign_deliveries) = Some s ∧
    GetState (rn_node s 2) = (1, true) ∧
    (∀ i, (i < 5)%nat → i ≠ 2%nat → GetState (rn_node s i) = (1, false)) ∧
    (∀ i, (i < 5)%nat → (i, 1, 2) ∈ rn_votes s).
Proof.
  destruct (raft_elects_leader 5 2 (λ _, []) (λ _, 0) (λ _, 0) (10^9)) as (s1 & Hr & Hall);
    [lia|reflexivity|lia|reflexivity|].
  destruct (campaign_delivered s1 Hr) as (s & E & Hs). exists s. split; [exact E|].
  destruct (Hall _ _ Hs) as (_ & _ & Hend & _ & _ & Hlead). apply Hlead, Hend. reflexivity.
Defined.

Example raft_restart_votes_twice_witness :
  let args c := mkRequestVoteArgs 1 c 0 0 in
  let boot := Make 3 2 [] 0 0 in
  ∃ rf1 rf2,
    RequestVote 0 boot (args 0) zero_RequestVoteReply = Ret (rf1, mkRequestVoteReply 1 true) ∧
    rf_votedFor rf1 = 0 ∧
    RequestVote 0 rf1 (args 1) zero_RequestVoteReply = Ret (rf1, mkRequestVoteReply 1 false) ∧
    RequestVote 0 boot (args 1) zero_RequestVoteReply = Ret (rf2, mkRequestVoteReply 1 true) ∧
    rf_votedFor rf2 = 1.
Proof. apply raft_restart_votes_twice; [reflexivity|discriminate]. Defined.
