(* ===== verification/RaftElection.v ===== *)
(** * What elections of Raft need ([raft1/raft.go])

    Elections of the repository's Raft are not safe ([raft_two_leaders]). This file says what is
    missing: in every run without restarts in which no candidate counts a refused vote and no peer
    starts an election while it still has votes from an earlier one, two leaders of the same term
    are the same peer. The invariant relates the votes a candidate has counted, and the grants in
    flight to it, to the votes that have been cast for it. *)

From S2P Require Export RaftSystem.

Local Open Scope Z_scope.

(** ** The two faults *)

(** A reply of the receiver's current term that refuses the vote, and is counted all the same. *)
Definition counts_refusal (s s' : RaftNet) : Prop :=
  ∃ l1 l2 dst reply, rn_msgs s = l1 ++ MVoteRep dst reply :: l2 ∧
    s' = mkRaftNet (<[dst := sendRequestVote_reply (rn_node s dst) reply]> (rn_node s))
           (rn_tick s) (l1 ++ l2) (rn_votes s) ∧
    rvr_VoteGranted reply = false ∧ rvr_Term reply = rf_currTerm (rn_node s dst).

(** An election that starts from the votes of an earlier one: [votesReceived] is never reset. *)
Definition keeps_votes (s s' : RaftNet) : Prop :=
  ∃ i, rn_tick s i = TickElect ∧ rn_tick s' i = TickSolicit ∧ rf_votesReceived (rn_node s i) ≠ 0.

Definition sound_step (n : nat) (s s' : RaftNet) : Prop :=
  raft_step n s s' ∧ ¬ counts_refusal s s' ∧ ¬ keeps_votes s s'.

(** ** Counting *)

(** A grant of term [T] on its way to [c]. *)
Definition is_grant (c : nat) (T : Z) (m : Msg) : bool :=
  match m with
  | MVoteRep d r => bool_decide (d = c) && rvr_VoteGranted r && (rvr_Term r =? T)
  | _ => false
  end.

Definition grants (c : nat) (T : Z) (l : list Msg) : nat :=
  length (filter (λ m, is_grant c T m = true) l).

(** A request of [c] of term [T], or a grant that answers one. *)
Definition asks (c : nat) (T : Z) (m : Msg) : Prop :=
  match m with
  | MVoteReq s _ a => s = c ∧ rva_Term a = T
  | _ => is_grant c T m = true
  end.

(** The votes of others. *)
Definition is_vote (c : nat) (T : Z) (x : nat * Z * Z) : Prop :=
  x.1.2 = T ∧ x.2 = Z.of_nat c ∧ x.1.1 ≠ c.

#[export] Instance is_vote_dec c T x : Decision (is_vote c T x).
Proof. unfold is_vote. apply _. Defined.

Definition votes_for (c : nat) (T : Z) (votes : list (nat * Z * Z)) : nat :=
  length (filter (is_vote c T) votes).

Lemma grants_app c T l1 l2 : grants c T (l1 ++ l2) = (grants c T l1 + grants c T l2)%nat.
Proof. unfold grants. by rewrite filter_app, length_app. Qed.

Lemma grants_cons c T m l :
  grants c T (m :: l) = ((if is_grant c T m then 1 else 0) + grants c T l)%nat.
Proof.
  unfold grants. destruct (is_grant c T m) eqn:E.
  - by rewrite filter_cons_True.
  - rewrite filter_cons_False; [done|congruence].
Qed.

Lemma grants_pos c T l : (0 < grants c T l)%nat ↔ ∃ m, m ∈ l ∧ is_grant c T m = true.
Proof.
  unfold grants. split.
  - intros H. destruct (filter _ l) as [|m k] eqn:E; simpl in H; [lia|].
    assert (Hm : m ∈ filter (λ m, is_grant c T m = true) l) by (rewrite E; left).
    apply list_elem_of_filter in Hm as [? ?]. eauto.
  - intros (m & Hin & Hg). assert (Hm : m ∈ filter (λ m, is_grant c T m = true) l)
      by by apply list_elem_of_filter.
    destruct (filter _ l); [by apply elem_of_nil in Hm|simpl; lia].
Qed.

Lemma votes_for_cons c T v T' c' votes :
  votes_for c T ((v, T', c') :: votes) =
    ((if decide (is_vote c T (v, T', c')) then 1 else 0) + votes_for c T votes)%nat.
Proof.
  unfold votes_for. case_decide; [by rewrite filter_cons_True|by rewrite filter_cons_False].
Qed.

Lemma grant_asks c T m : is_grant c T m = true → asks c T m.
Proof. by destruct m. Qed.

Lemma grant_one c T src T' :
  grants c T [MVoteRep src (mkRequestVoteReply T' true)] = if decide (c = src ∧ T = T') then 1%nat else 0%nat.
Proof.
  rewrite grants_cons. change (grants c T []) with 0%nat. rewrite Nat.add_0_r. simpl.
  destruct (bool_decide_reflect (src = c)), (Z.eqb_spec T' T); case_decide as Hd; simpl; try done;
    exfalso; try (destruct Hd; congruence); by apply Hd.
Qed.

Lemma vote_one c T v src T' votes :
  v ≠ src → votes_for c T ((v, T', Z.of_nat src) :: votes) =
    ((if decide (c = src ∧ T = T') then 1 else 0) + votes_for c T votes)%nat.
Proof.
  intros Hne. rewrite votes_for_cons. f_equal. unfold is_vote. simpl.
  case_decide as H1; case_decide as H2; try done; exfalso.
  - destruct H1 as (-> & E & _). apply Nat2Z.inj in E as ->. by apply H2.
  - destruct H2 as [-> ->]. by apply H1.
Qed.

Lemma no_grants c T l : (∀ x, x ∈ l → ¬ asks c T x) → grants c T l = 0%nat.
Proof.
  intros Hx. pose proof (grants_pos c T l) as Hp. destruct (grants c T l); [done|].
  destruct (proj1 Hp ltac:(lia)) as (x & Hin & Hg). by destruct (Hx x Hin (grant_asks _ _ _ Hg)).
Qed.

(** ** The invariant *)

Section election.
Context (n : nat).

Record el_inv (s : RaftNet) : Prop := {
  ei_req src dst a : MVoteReq src dst a ∈ rn_msgs s →
    rva_CandidateId a = Z.of_nat src ∧ dst ≠ src ∧ (dst < n)%nat;
  ei_asks c T m : m ∈ rn_msgs s → asks c T m → T ≤ rf_currTerm (rn_node s c);
  ei_count c T : (grants c T (rn_msgs s) ≤ votes_for c T (rn_votes s))%nat;
  ei_solicit c : rn_tick s c = TickSolicit → rf_votesReceived (rn_node s c) = 0 ∧
    ∀ T m, m ∈ rn_msgs s → asks c T m → T < rf_currTerm (rn_node s c);
  ei_voted c : 0 < rf_votesReceived (rn_node s c) →
    ∃ T, rf_votesReceived (rn_node s c) + Z.of_nat (grants c T (rn_msgs s)) ≤
           Z.of_nat (votes_for c T (rn_votes s)) ∧
      (∀ T' m, m ∈ rn_msgs s → asks c T' m → T' ≤ T) ∧
      T ≤ rf_currTerm (rn_node s c) ∧
      (rf_role (rn_node s c) = Leader → T = rf_currTerm (rn_node s c));
  ei_votes : NoDup (rn_votes s);
  ei_voters c T v : (v, T, Z.of_nat c) ∈ rn_votes s → v ≠ c → (v < n)%nat
}.

(** A peer that has not counted a vote: its term may have grown, and then it is no leader. *)
Record quiet (rf rf' : Raft) : Prop := {
  qu_term : rf_currTerm rf ≤ rf_currTerm rf';
  qu_votes : rf_votesReceived rf' = rf_votesReceived rf;
  qu_leader : rf_role rf' = Leader → rf_role rf = Leader ∧ rf_currTerm rf' = rf_currTerm rf
}.

Lemma quiet_refl rf : quiet rf rf.
Proof. by split. Qed.

Lemma quiet_upd (f : nat → Raft) i rf : quiet (f i) rf → ∀ j, quiet (f j) ((<[i := rf]> f) j).
Proof.
  intros Hq j. destruct (decide (i = j)) as [<-|]; [by rewrite fn_lookup_insert|].
  rewrite fn_lookup_insert_ne by done. apply quiet_refl.
Qed.

(** Steps that neither cast nor count votes: messages may go, and others may come. *)
Lemma el_frame s s' :
  el_inv s → (∀ i, quiet (rn_node s i) (rn_node s' i)) →
  (∀ i, rn_tick s' i = TickSolicit → rn_tick s i = TickSolicit) →
  (∀ c T m, m ∈ rn_msgs s' → asks c T m → m ∈ rn_msgs s) →
  (∀ c T, (grants c T (rn_msgs s') ≤ grants c T (rn_msgs s))%nat) →
  rn_votes s' = rn_votes s → el_inv s'.
Proof.
  intros [Hreq Hask Hcnt Hsol Hvot Hnd Hlt] Hq Ht Hm Hg Hv. split; rewrite ?Hv.
  - intros src dst a Hin. apply Hreq, (Hm src (rva_Term a)); done.
  - intros c T m Hin Ha. specialize (Hask c T m (Hm _ _ _ Hin Ha) Ha). pose proof (qu_term _ _ (Hq c)). lia.
  - intros c T. specialize (Hg c T). specialize (Hcnt c T). lia.
  - intros c Hc. destruct (Hsol c (Ht c Hc)) as [Hz Hl]. rewrite (qu_votes _ _ (Hq c)). split; [done|].
    intros T m Hin Ha. specialize (Hl T m (Hm _ _ _ Hin Ha) Ha). pose proof (qu_term _ _ (Hq c)). lia.
  - intros c Hc. rewrite (qu_votes _ _ (Hq c)) in *. destruct (Hvot c Hc) as (T & H1 & H2 & H3 & H4).
    pose proof (qu_term _ _ (Hq c)). specialize (Hg c T). exists T. split_and!; [lia| |lia|].
    + intros T' m Hin Ha. by apply (H2 T' m); [eapply Hm|].
    + intros Hl. destruct (qu_leader _ _ (Hq c) Hl) as [Hl' ->]. auto.
  - done.
  - done.
Qed.

Lemma el_init persisted rnd now : el_inv (raft_init n persisted rnd now).
Proof.
  split; simpl; try done; [set_solver..|constructor|set_solver].
Qed.

(** A message is delivered or lost; no vote comes of it. *)
Lemma el_drop s l1 m l2 extra nodes ticks :
  el_inv s → rn_msgs s = l1 ++ m :: l2 → (∀ i, quiet (rn_node s i) (nodes i)) →
  (∀ i, ticks i = TickSolicit → rn_tick s i = TickSolicit) →
  (∀ c T x, x ∈ extra → ¬ asks c T x) →
  el_inv (mkRaftNet nodes ticks (l1 ++ l2 ++ extra) (rn_votes s)).
Proof.
  intros Hi E Hq Ht Hx. apply (el_frame s); simpl; try done.
  - intros c T x Hin Ha. rewrite E. apply elem_of_app. rewrite elem_of_cons.
    apply elem_of_app in Hin as [?|[?|Hin]%elem_of_app]; auto. by destruct (Hx c T x Hin).
  - intros c T. rewrite E, !grants_app, grants_cons.
    rewrite (no_grants c T extra) by (intros; by apply Hx). lia.
Qed.

(** More messages, none of them a request or a grant. *)
Lemma el_send s extra ticks :
  el_inv s → (∀ i, ticks i = TickSolicit → rn_tick s i = TickSolicit) →
  (∀ c T x, x ∈ extra → ¬ asks c T x) →
  el_inv (mkRaftNet (rn_node s) ticks (rn_msgs s ++ extra) (rn_votes s)).
Proof.
  intros Hi Ht Hx. apply (el_frame s); simpl; try done.
  - intros c T x [Hin|Hin]%elem_of_app Ha; [done|]. by destruct (Hx c T x Hin).
  - intros c T. rewrite grants_app.
    rewrite (no_grants c T extra) by (intros; by apply Hx). lia.
Qed.

(** A vote is cast: the request becomes a grant. *)
Lemma el_grant s l1 l2 src dst args rf :
  el_inv s → rn_msgs s = l1 ++ MVoteReq src dst args :: l2 → quiet (rn_node s dst) rf →
  rf_currTerm (rn_node s dst) < rva_Term args →
  (∀ v T c, (v, T, c) ∈ rn_votes s → T ≤ rf_currTerm (rn_node s v)) →
  el_inv (mkRaftNet (<[dst := rf]> (rn_node s)) (rn_tick s)
    (l1 ++ l2 ++ [MVoteRep src (mkRequestVoteReply (rva_Term args) true)])
    ((dst, rva_Term args, rva_CandidateId args) :: rn_votes s)).
Proof.
  intros [Hreq Hask Hcnt Hsol Hvot Hnd Hlt] E Hq Hterm Hpast.
  destruct (Hreq src dst args) as (Hid & Hne & Hdst); [rewrite E; set_solver|].
  pose proof (quiet_upd (rn_node s) dst rf Hq) as Hqs.
  set (rep := MVoteRep src (mkRequestVoteReply (rva_Term args) true)).
  assert (Hold : ∀ c T x, x ∈ l1 ++ l2 ++ [rep] → asks c T x → ∃ y, y ∈ rn_msgs s ∧ asks c T y).
  { intros c T x Hx Ha. rewrite E. apply elem_of_app in Hx as [Hx|[Hx| ->%list_elem_of_singleton]%elem_of_app];
      [exists x; set_solver..|]. exists (MVoteReq src dst args). split; [set_solver|].
    cbn in *. rewrite !andb_true_iff, bool_decide_eq_true, Z.eqb_eq in Ha. naive_solver. }
  assert (Hg : ∀ c T, grants c T (l1 ++ l2 ++ [rep]) =
    (grants c T (rn_msgs s) + if decide (c = src ∧ T = rva_Term args) then 1 else 0)%nat).
  { intros c T. rewrite E, !grants_app, (grants_cons c T (MVoteReq src dst args) l2). unfold rep.
    rewrite grant_one. simpl. lia. }
  assert (Hv : ∀ c T, votes_for c T ((dst, rva_Term args, rva_CandidateId args) :: rn_votes s) =
    (votes_for c T (rn_votes s) + if decide (c = src ∧ T = rva_Term args) then 1 else 0)%nat).
  { intros c T. rewrite Hid. rewrite vote_one by done. lia. }
  split; simpl.
  - intros s1 d1 a1 Hin. apply Hreq. rewrite E. unfold rep in Hin. set_solver.
  - intros c T x Hx Ha. destruct (Hold c T x Hx Ha) as (y & Hy & Hay).
    specialize (Hask c T y Hy Hay). pose proof (qu_term _ _ (Hqs c)). lia.
  - intros c T. rewrite Hg, Hv. specialize (Hcnt c T). lia.
  - intros c Hc. destruct (Hsol c Hc) as [Hz Hl]. rewrite (qu_votes _ _ (Hqs c)). split; [done|].
    intros T x Hx Ha. destruct (Hold c T x Hx Ha) as (y & Hy & Hay). specialize (Hl T y Hy Hay).
    pose proof (qu_term _ _ (Hqs c)). lia.
  - intros c Hc. rewrite (qu_votes _ _ (Hqs c)) in *. destruct (Hvot c Hc) as (T & H1 & H2 & H3 & H4).
    pose proof (qu_term _ _ (Hqs c)). exists T. rewrite Hg, Hv. split_and!; [lia| |lia|].
    + intros T' x Hx Ha. destruct (Hold c T' x Hx Ha) as (y & Hy & Hay). by apply (H2 T' y).
    + intros Hl. destruct (qu_leader _ _ (Hqs c) Hl) as [Hl' ->]. auto.
  - apply NoDup_cons. split; [|done]. intros Hin%Hpast. lia.
  - intros c T v [?|Hin]%elem_of_cons Hvc; [simplify_eq; done|by eapply Hlt].
Qed.

(** A grant is counted. *)
Lemma el_count s l1 l2 dst reply rf :
  el_inv s → rn_msgs s = l1 ++ MVoteRep dst reply :: l2 → rvr_VoteGranted reply = true →
  rvr_Term reply = rf_currTerm (rn_node s dst) → 0 ≤ rf_votesReceived (rn_node s dst) →
  rf_currTerm rf = rf_currTerm (rn_node s dst) →
  rf_votesReceived rf = rf_votesReceived (rn_node s dst) + 1 →
  el_inv (mkRaftNet (<[dst := rf]> (rn_node s)) (rn_tick s) (l1 ++ l2) (rn_votes s)).
Proof.
  intros [Hreq Hask Hcnt Hsol Hvot Hnd Hlt] E Hgr Hterm Hpos Ht Hv.
  set (t := rf_currTerm (rn_node s dst)) in *.
  assert (Hin : ∀ x, x ∈ l1 ++ l2 → x ∈ rn_msgs s) by (intros x; rewrite E; set_solver).
  assert (Hrep : asks dst t (MVoteRep dst reply)).
  { simpl. rewrite Hgr, Hterm, bool_decide_eq_true_2, Z.eqb_refl by done. done. }
  assert (Hrin : MVoteRep dst reply ∈ rn_msgs s) by (rewrite E; set_solver).
  assert (Hg : ∀ c T, grants c T (rn_msgs s) =
    (grants c T (l1 ++ l2) + if decide (c = dst ∧ T = t) then 1 else 0)%nat).
  { intros c T. rewrite E, !grants_app, grants_cons. pose proof (grant_one c T dst t) as H1.
    rewrite grants_cons in H1. change (grants c T []) with 0%nat in H1.
    destruct reply as [rt rg]. simpl in *. subst rg rt. case_decide; lia. }
  assert (Hnode : ∀ c, rf_currTerm ((<[dst := rf]> (rn_node s)) c) = rf_currTerm (rn_node s c)).
  { intros c. destruct (decide (dst = c)) as [<-|]; [by rewrite fn_lookup_insert|].
    by rewrite fn_lookup_insert_ne. }
  split; simpl.
  - intros src d a Hr. by apply Hreq, Hin.
  - intros c T x Hx Ha. rewrite Hnode. apply (Hask c T x); auto.
  - intros c T. specialize (Hcnt c T). rewrite Hg in Hcnt. lia.
  - intros c Hc. destruct (Hsol c Hc) as [Hz Hl]. assert (Hne : dst ≠ c).
    { intros <-. specialize (Hl t _ Hrin Hrep). subst t. lia. }
    rewrite fn_lookup_insert_ne by done. split; [done|]. intros T x Hx. by apply Hl, Hin.
  - intros c Hc. rewrite Hnode. destruct (decide (dst = c)) as [<-|Hne].
    + rewrite fn_lookup_insert, Hv in *. fold t.
      destruct (decide (rf_votesReceived (rn_node s dst) = 0)) as [Hz|Hz].
      * exists t. specialize (Hcnt dst t). rewrite Hg, decide_True in Hcnt by done.
        split_and!; [lia| |lia|done]. intros T x Hx Ha. apply (Hask dst T x); auto.
      * destruct (Hvot dst) as (T & H1 & H2 & H3 & _); [lia|]. assert (T = t) as ->.
        { specialize (H2 t _ Hrin Hrep). subst t. lia. }
        exists t. rewrite Hg, decide_True in H1 by done. split_and!; [lia| |lia|done].
        intros T x Hx Ha. apply (H2 T x); auto.
    + rewrite fn_lookup_insert_ne in Hc |- * by done. destruct (Hvot c Hc) as (T & H1 & H2 & H3 & H4).
      exists T. rewrite Hg in H1. split_and!; [lia| |done|done]. intros T' x Hx. by apply H2, Hin.
  - done.
  - done.
Qed.

(** An election starts from no votes. *)
Lemma el_elect s i rf :
  el_inv s → rf_votesReceived (rn_node s i) = 0 → rf_votesReceived rf = 0 →
  rf_currTerm rf = rf_currTerm (rn_node s i) + 1 →
  (∀ v T c, (v, T, c) ∈ rn_votes s → T ≤ rf_currTerm (rn_node s v)) →
  el_inv (mkRaftNet (<[i := rf]> (rn_node s)) (<[i := TickSolicit]> (rn_tick s)) (rn_msgs s)
    ((i, rf_currTerm rf, Z.of_nat i) :: rn_votes s)).
Proof.
  intros [Hreq Hask Hcnt Hsol Hvot Hnd Hlt] Hz Hz' Ht Hpast.
  assert (Hv : ∀ c T, votes_for c T ((i, rf_currTerm rf, Z.of_nat i) :: rn_votes s) =
    votes_for c T (rn_votes s)).
  { intros c T. rewrite votes_for_cons, decide_False; [done|]. unfold is_vote. simpl.
    intros (_ & E%Nat2Z.inj & Hne). by subst. }
  split; simpl.
  - done.
  - intros c T x Hx Ha. specialize (Hask c T x Hx Ha). destruct (decide (i = c)) as [<-|].
    + rewrite fn_lookup_insert. lia.
    + by rewrite fn_lookup_insert_ne.
  - intros c T. rewrite Hv. apply Hcnt.
  - intros c Hc. destruct (decide (i = c)) as [<-|].
    + rewrite fn_lookup_insert. split; [done|]. intros T x Hx Ha. specialize (Hask i T x Hx Ha). lia.
    + rewrite fn_lookup_insert_ne in Hc by done. rewrite fn_lookup_insert_ne by done. by apply Hsol.
  - intros c Hc. destruct (decide (i = c)) as [<-|].
    + rewrite fn_lookup_insert in Hc. lia.
    + rewrite fn_lookup_insert_ne in Hc by done. rewrite fn_lookup_insert_ne by done.
      setoid_rewrite Hv. by apply Hvot.
  - apply NoDup_cons. split; [|done]. intros Hin%Hpast. lia.
  - intros c T v [?|Hin]%elem_of_cons Hvc; [simplify_eq; lia|by eapply Hlt].
Qed.

(** The candidate solicits votes. *)
Lemma el_solicit s i args :
  el_inv s → rn_tick s i = TickSolicit → rf_me (rn_node s i) = Z.of_nat i →
  rva_CandidateId args = Z.of_nat i → rva_Term args = rf_currTerm (rn_node s i) →
  el_inv (mkRaftNet (rn_node s) (<[i := TickTop]> (rn_tick s))
    (rn_msgs s ++ broadCastVote n i (rn_node s i) args) (rn_votes s)).
Proof.
  intros [Hreq Hask Hcnt Hsol Hvot Hnd Hlt] Hti Hme Hid Ht. destruct (Hsol i Hti) as [Hz _].
  assert (Hnew : ∀ x, x ∈ broadCastVote n i (rn_node s i) args →
    ∃ dst, x = MVoteReq i dst args ∧ dst ≠ i ∧ (dst < n)%nat).
  { intros x (dst & -> & Hd)%list_elem_of_fmap. unfold others in Hd.
    apply list_elem_of_filter in Hd as [Hd [_ Hd']%elem_of_seq]. exists dst. rewrite Hme in Hd. naive_solver. }
  assert (Hnot : ∀ c T x, c ≠ i → x ∈ broadCastVote n i (rn_node s i) args → ¬ asks c T x).
  { intros c T x Hne (dst & -> & _)%Hnew [? _]. by subst. }
  assert (Hg : ∀ c T, grants c T (rn_msgs s ++ broadCastVote n i (rn_node s i) args) = grants c T (rn_msgs s)).
  { intros c T. rewrite grants_app. enough (grants c T (broadCastVote n i (rn_node s i) args) = 0%nat) by lia.
    pose proof (grants_pos c T (broadCastVote n i (rn_node s i) args)) as Hp.
    destruct (grants c T (broadCastVote n i (rn_node s i) args)); [done|].
    destruct (proj1 Hp ltac:(lia)) as (x & (d & -> & _)%Hnew & Hgx). done. }
  split; simpl.
  - intros src dst a [Hin|(d & E & ? & ?)%Hnew]%elem_of_app; [by apply Hreq|]. by simplify_eq.
  - intros c T x [Hin|Hin]%elem_of_app Ha; [by eapply Hask|].
    destruct (Hnew x Hin) as (d & -> & _). destruct Ha as [<- <-]. lia.
  - intros c T. rewrite Hg. apply Hcnt.
  - intros c Hc. destruct (decide (i = c)) as [<-|Hne]; [by rewrite fn_lookup_insert in Hc|].
    rewrite fn_lookup_insert_ne in Hc by done. destruct (Hsol c Hc) as [Hz' Hl]. split; [done|].
    intros T x [Hin|Hin]%elem_of_app Ha; [by eapply Hl|]. by destruct (Hnot c T x (not_eq_sym Hne) Hin).
  - intros c Hc. assert (Hne : c ≠ i) by (intros ->; lia).
    destruct (Hvot c Hc) as (T & H1 & H2 & H3 & H4). exists T. rewrite Hg. split_and!; [done| |done|done].
    intros T' x [Hin|Hin]%elem_of_app Ha; [by eapply H2|]. by destruct (Hnot c T' x Hne Hin).
  - done.
  - done.
Qed.

(** ** Every sound step keeps the invariant *)

Lemma upd_tick (f : nat → TickPC) i pc :
  pc ≠ TickSolicit → ∀ j, (<[i := pc]> f) j = TickSolicit → f j = TickSolicit.
Proof.
  intros Hpc j. destruct (decide (i = j)) as [<-|]; [by rewrite fn_lookup_insert|].
  by rewrite fn_lookup_insert_ne.
Qed.

Lemma AppendEntries_quiet now rf args r : quiet rf (AppendEntries now rf args r).1.
Proof.
  unfold AppendEntries, checkTerm. destruct (Z.ltb_spec (rf_currTerm rf) (aea_Term args)); simpl.
  - case_bool_decide; split; simpl; by try lia.
  - apply quiet_refl.
Qed.

Lemma el_RequestVote k s l1 l2 src dst args now rf reply :
  net_inv n k s → el_inv s → rn_msgs s = l1 ++ MVoteReq src dst args :: l2 →
  RequestVote now (rn_node s dst) args zero_RequestVoteReply = Ret (rf, reply) →
  el_inv (mkRaftNet (<[dst := rf]> (rn_node s)) (rn_tick s) (l1 ++ l2 ++ [MVoteRep src reply])
    (granted dst args reply ++ rn_votes s)).
Proof.
  intros Hn Hi E Hr. rewrite RequestVote_cases in Hr by by rewrite (ni_log _ _ _ _ (ri_node _ _ _ Hn dst)).
  assert (Hrefused : ∀ T, ∀ c T' x, x ∈ [MVoteRep src (mkRequestVoteReply T false)] → ¬ asks c T' x).
  { intros T c T' x ->%list_elem_of_singleton. simpl. by rewrite andb_false_r. }
  case_decide as Hle; [|case_decide as Hok]; simplify_eq; simpl.
  - eapply el_drop; [done..|by apply quiet_upd, quiet_refl|done|apply Hrefused].
  - eapply el_grant; [done..| |simpl; lia|apply (ri_past _ _ _ Hn)]. split; simpl; [lia|done|done].
  - eapply el_drop; [done..|apply quiet_upd; split; simpl; [lia|done|done]|done|apply Hrefused].
Qed.

Lemma el_reply k s l1 l2 dst reply :
  net_inv n k s → k + 1 < 2 ^ 63 → el_inv s → rn_msgs s = l1 ++ MVoteRep dst reply :: l2 →
  (rvr_VoteGranted reply = false → rvr_Term reply ≠ rf_currTerm (rn_node s dst)) →
  el_inv (mkRaftNet (<[dst := sendRequestVote_reply (rn_node s dst) reply]> (rn_node s)) (rn_tick s)
    (l1 ++ l2) (rn_votes s)).
Proof.
  intros Hn Hk Hi E Hgood. pose proof (ni_votes _ _ _ _ (ri_node _ _ _ Hn dst)) as Hv.
  rewrite <- (app_nil_r l2) at 1. unfold sendRequestVote_reply, checkTerm.
  destruct (Z.ltb_spec (rvr_Term reply) (rf_currTerm (rn_node s dst))).
  { eapply el_drop; [done..|by apply quiet_upd, quiet_refl|done|by intros ??? ?%elem_of_nil]. }
  destruct (Z.ltb_spec (rf_currTerm (rn_node s dst)) (rvr_Term reply)); simpl.
  { eapply el_drop; [done..|apply quiet_upd; split; simpl; [lia|done|done]|done|by intros ??? ?%elem_of_nil]. }
  rewrite app_nil_r. destruct (rvr_VoteGranted reply) eqn:Hg; [|by destruct (Hgood eq_refl); lia].
  rewrite i64_wrap_small by lia.
  eapply el_count; [done..|lia|lia| |]; by destruct (Z.ltb_spec (rf_peers (rn_node s dst) / 2)
    (rf_votesReceived (rn_node s dst) + 1)).
Qed.

Lemma el_step k s s' :
  0 ≤ k → k + 1 < 2 ^ 63 → net_inv n k s → el_inv s → sound_step n s s' → el_inv s'.
Proof.
  intros Hk0 Hk Hn Hi (Hs & Href & Hkeep).
  destruct Hs as [s l1 m l2 E|s l1 l2 src dst args now rf reply E Ev|s l1 l2 dst reply E|
    s l1 l2 src dst args now rf reply E Ea|s l1 l2 dst reply E|s i|s i|s i|s i now Ht|
    s i args Ht Ha|s i].
  - rewrite <- (app_nil_r l2).
    eapply el_drop; [done..|intros; apply quiet_refl|done|by intros ??? ?%elem_of_nil].
  - by eapply el_RequestVote.
  - eapply el_reply; [done..|]. intros Hg Ht. apply Href. by exists l1, l2, dst, reply.
  - eapply el_drop; [done..| |done|by intros c T x ->%list_elem_of_singleton].
    apply quiet_upd. pose proof (AppendEntries_quiet now (rn_node s dst) args zero_AppendEntriesReply) as Hq.
    by rewrite Ea in Hq.
  - rewrite <- (app_nil_r l2).
    eapply el_drop; [done..|by apply quiet_upd, quiet_refl|done|by intros ??? ?%elem_of_nil].
  - rewrite <- (app_nil_r (rn_msgs s)).
    apply el_send; [done|by apply upd_tick|by intros ??? ?%elem_of_nil].
  - apply el_send; [done|by apply upd_tick|]. by intros c T x (dst & -> & _)%list_elem_of_fmap.
  - rewrite <- (app_nil_r (rn_msgs s)).
    apply el_send; [done|by apply upd_tick|by intros ??? ?%elem_of_nil].
  - assert (Hz : rf_votesReceived (rn_node s i) = 0).
    { destruct (decide (rf_votesReceived (rn_node s i) = 0)) as [|Hnz]; [done|]. destruct Hkeep.
      exists i. split; [done|]. split; [apply fn_lookup_insert|done]. }
    destruct (preElection_node n k i now _ (ri_node _ _ _ Hn i) Hk) as (_ & _ & Hterm).
    apply el_elect; [done|done|done|done|apply (ri_past _ _ _ Hn)].
  - unfold vote_args in Ha. bind_inv Ha. simplify_eq.
    pose proof (ni_me _ _ _ _ (ri_node _ _ _ Hn i)) as Hme. by apply el_solicit.
  - eapply (el_frame s); simpl; try done. apply quiet_upd. by split.
Qed.

(** ** The theorem *)

Lemma sound_reachable persisted rnd now m s :
  Z.of_nat m < 2 ^ 63 → nsteps (sound_step n) m (raft_init n persisted rnd now) s →
  net_inv n (Z.of_nat m) s ∧ el_inv s.
Proof.
  intros Hb. apply (nsteps_invariant (sound_step n) (λ m s, net_inv n (Z.of_nat m) s ∧ el_inv s)).
  - split; [apply raft_init_inv|apply el_init].
  - intros p x y Hp [Hi He] Hxy. split; [|by eapply (el_step (Z.of_nat p)); try lia].
    rewrite Nat2Z.inj_succ. apply (net_next_inv n (Z.of_nat p) _ x); [lia|done|].
    apply raft_step_next; [lia..|done|apply Hxy].
Qed.

(** The voters of a leader: more than half of the cluster, the leader itself not counted. *)
Lemma leader_quorum k s c :
  net_inv n k s → el_inv s → (0 < n)%nat → (GetState (rn_node s c)).2 = true →
  ∃ Q : gset nat, (∀ v, v ∈ Q → (v < n)%nat ∧ (v, rf_currTerm (rn_node s c), Z.of_nat c) ∈ rn_votes s) ∧
    (n < 2 * size Q)%nat.
Proof.
  intros Hn Hi Hpos Hl%bool_decide_eq_true. pose proof (ni_leader _ _ _ _ (ri_node _ _ _ Hn c) Hl) as Hmaj.
  pose proof (Z.div_pos (Z.of_nat n) 2) as Hd.
  destruct (ei_voted _ Hi c) as (T & H1 & _ & _ & H4); [lia|]. rewrite (H4 Hl) in *.
  set (l := filter (is_vote c (rf_currTerm (rn_node s c))) (rn_votes s)).
  assert (Hin : ∀ x, x ∈ l → x = (x.1.1, rf_currTerm (rn_node s c), Z.of_nat c) ∧ x ∈ rn_votes s ∧ x.1.1 ≠ c).
  { intros [[v T'] c'] [(H & H' & H'') Hx]%list_elem_of_filter. simpl in *. by subst. }
  exists (list_to_set l.*1.*1). split.
  - intros v (y & -> & (x & -> & Hx)%list_elem_of_fmap)%elem_of_list_to_set%list_elem_of_fmap.
    destruct (Hin x Hx) as (E & Hxv & Hne). rewrite E in Hxv. split; [by eapply ei_voters|done].
  - rewrite size_list_to_set.
    + rewrite !length_fmap. change (length l) with (votes_for c (rf_currTerm (rn_node s c)) (rn_votes s)).
      assert (Z.of_nat n < 2 * (Z.of_nat n / 2 + 1)); [|lia].
      pose proof (Z.mod_pos_bound (Z.of_nat n) 2 ltac:(lia)). pose proof (Z.div_mod (Z.of_nat n) 2). lia.
    + rewrite <- list_fmap_compose. apply NoDup_fmap_2_strong; [|by apply NoDup_filter, Hi].
      intros x y Hx Hy E. destruct (Hin x Hx) as [-> _], (Hin y Hy) as [-> _]. simpl in *. by rewrite E.
Qed.

(** C6: while no peer restarts, elections are safe but for two faults. In every run of fewer than
    2^63 steps, with messages lost, delayed and reordered, peers killed for good and tickers
    reading without the lock, if no candidate counts a reply of its term that refuses the vote,
    and no peer starts an election with votes left from an earlier one, then a term has at most
    one leader. Restarts are not among the steps: a peer that restarts forgets its vote
    ([raft_restart_votes_twice]), and that is a third fault. *)
Theorem raft_election_safety persisted rnd now m s i j :
  (0 < n)%nat → Z.of_nat m < 2 ^ 63 → nsteps (sound_step n) m (raft_init n persisted rnd now) s →
  (GetState (rn_node s i)).2 = true → (GetState (rn_node s j)).2 = true →
  (GetState (rn_node s i)).1 = (GetState (rn_node s j)).1 → i = j.
Proof.
  intros Hpos Hb Hs Hli Hlj HT. destruct (sound_reachable persisted rnd now m s Hb Hs) as [Hn Hi].
  destruct (leader_quorum _ _ _ Hn Hi Hpos Hli) as (Q1 & H1 & Hq1).
  destruct (leader_quorum _ _ _ Hn Hi Hpos Hlj) as (Q2 & H2 & Hq2).
  destruct (quorum_meet n Q1 Q2) as (v & Hv1 & Hv2); [naive_solver..|lia|].
  destruct (H1 v Hv1) as [_ Hvi], (H2 v Hv2) as [_ Hvj]. simpl in HT. rewrite HT in Hvi.
  pose proof (ri_once _ _ _ Hn v _ _ _ Hvi Hvj) as E. by apply Nat2Z.inj in E.
Qed.
End election.

(** ** Both conditions are needed *)

(** The second fault alone: peer 0 of five has two votes left from term 1, and the vote of one
    more peer makes it the leader of term 2, with the votes of a minority. *)
Definition minority_script : list Action :=
  [ATimeout 0 (10 ^ 9); ASolicit 0; ADeliver 0 (10 ^ 9); ADeliver 0 (10 ^ 9); ADeliver 2 (10 ^ 9);
   ADeliver 2 (10 ^ 9); ATimeout 0 (2 * 10 ^ 9); ASolicit 0; ADeliver 4 (2 * 10 ^ 9); ADeliver 5 (2 * 10 ^ 9)].

Theorem raft_minority_leader :
  ∃ s, rtc (raft_step 5) (cluster0 5) s ∧ GetState (rn_node s 0) = (2, true) ∧
    ∀ v, (v, 2, 0) ∈ rn_votes s → v = 0%nat ∨ v = 3%nat.
Proof.
  destruct (raft_run 5 (cluster0 5) minority_script) as [s|] eqn:Hr; [|by vm_compute in Hr].
  exists s. split; [by eapply raft_run_steps|]. vm_compute in Hr. simplify_eq.
  split; [done|]. simpl. intros v. rewrite !elem_of_cons, elem_of_nil. naive_solver.
Qed.

(** ** An election without faults *)

(** All the replies in flight are grants. *)
Definition only_grants (l : list Msg) : bool :=
  forallb (λ m, match m with MVoteRep _ r => rvr_VoteGranted r | _ => true end) l.

Lemma sound_intro n s s' :
  raft_step n s s' → only_grants (rn_msgs s) = true →
  (∀ i, rn_tick s i = TickElect → rf_votesReceived (rn_node s i) = 0) → sound_step n s s'.
Proof.
  intros Hs Hg He. split; [done|]. split.
  - intros (l1 & l2 & dst & r & E & _ & Hf & _). unfold only_grants in Hg. rewrite E, forallb_app in Hg.
    simpl in Hg. rewrite Hf in Hg. simpl in Hg. by rewrite andb_false_r in Hg.
  - intros (i & Ht & _ & Hv). by apply Hv, He.
Qed.

(** Peer 0 of three becomes leader of term 1. *)
Lemma ex_election :
  ∃ s, nsteps (sound_step 3) 7 (cluster0 3) s ∧ GetState (rn_node s 0) = (1, true).
Proof.
  eexists. split.
  - eapply nsteps_l; [apply sound_intro; [apply (rs_tick_timeout 3 _ 0 (10 ^ 9)); try done; lia|done..]|].
    eapply nsteps_l; [apply sound_intro; [by apply (rs_tick_elect 3 _ 0 (10 ^ 9))|done|by intros [|i]]|].
    eapply nsteps_l; [apply sound_intro; [apply (rs_tick_solicit 3 _ 0 (mkRequestVoteArgs 1 0 0 0)); done|done|by intros [|i]]|].
    eapply nsteps_l; [apply sound_intro; [eapply (rs_RequestVote 3 _ [] _ 0 1 _ 7); vm_compute; reflexivity|done|by intros [|i]]|].
    eapply nsteps_l; [apply sound_intro; [eapply (rs_RequestVote 3 _ [] _ 0 2 _ 7); vm_compute; reflexivity|done|by intros [|i]]|].
    eapply nsteps_l; [apply sound_intro; [eapply (rs_RequestVote_reply 3 _ [] _ 0); vm_compute; reflexivity|done|by intros [|i]]|].
    eapply nsteps_l; [apply sound_intro; [eapply (rs_RequestVote_reply 3 _ [] _ 0); vm_compute; reflexivity|done|by intros [|i]]|].
    apply nsteps_O.
  - vm_compute. reflexivity.
Qed.

Lemma raft_election_safety_witness :
  ∃ s, nsteps (sound_step 3) 7 (cluster0 3) s ∧ GetState (rn_node s 0) = (1, true) ∧
    ∀ j, GetState (rn_node s j) = (1, true) → 0%nat = j.
Proof.
  destruct ex_election as (s & Hs & H0). exists s. split; [exact Hs|]. split; [exact H0|].
  intros j Hj.
  apply (raft_election_safety 3 (λ _, []) (λ _, 0) (λ _, 0) 7 s 0 j);
    [lia|reflexivity|exact Hs|by rewrite H0|by rewrite Hj|by rewrite H0, Hj].
Defined.
