(* ===== verification/Coordinator.v ===== *)
(** * The MapReduce coordinator ([mr/coordinator.go], [mr/rpc.go])

    Workers ask for tasks with [GetTask] and report them done with [ReportTask]; both run
    under the coordinator's mutex. Times are nanoseconds; [now] arguments are the
    successive results of [time.Now()]. A pointer [&c.tasks[i]] is the index [i]. *)

From S2P Require Export Prelude.

Local Open Scope Z_scope.

Inductive TaskType := MapTask | ReduceTask | WaitTask | FinishedTask | NoTask.

Inductive Status := Idle | InProgress | Completed | NoStatus.

#[export] Instance TaskType_eq_dec : EqDecision TaskType.
Proof. solve_decision. Defined.

#[export] Instance Status_eq_dec : EqDecision Status.
Proof. solve_decision. Defined.

(** [NoTask] and [NoStatus] are the zero values, the empty strings. *)
Record Task := mkTask {
  t_FileName : string;
  t_NReduce : Z;
  t_Status : Status;
  t_TaskType : TaskType;
  t_StartTime : Z;
  t_TaskId : Z
}.

#[export] Instance Task_eq_dec : EqDecision Task.
Proof. solve_decision. Defined.

(** The zero [time.Time]. *)
Definition zero_time : Z := 0.

Definition zero_Task : Task := mkTask "" 0 NoStatus NoTask zero_time 0.

Definition NewTask (taskType : TaskType) : Task := mkTask "" 0 NoStatus taskType zero_time 0.

Definition set_Status (t : Task) (s : Status) : Task :=
  mkTask (t_FileName t) (t_NReduce t) s (t_TaskType t) (t_StartTime t) (t_TaskId t).

Definition set_StartTime (t : Task) (now : Z) : Task :=
  mkTask (t_FileName t) (t_NReduce t) (t_Status t) (t_TaskType t) now (t_TaskId t).

Record GetTaskReply := mkGetTaskReply { gtr_TaskInfo : Task; gtr_BucketNum : Z; gtr_MapNum : Z }.

Record ReportTaskArgs := mkReportTaskArgs { rta_TaskId : Z; rta_WorkerId : Z }.

Record ReportTaskReply := mkReportTaskReply { rtr_ok : bool }.

#[export] Instance GetTaskReply_eq_dec : EqDecision GetTaskReply.
Proof. solve_decision. Defined.

Record Coordinator := mkCoordinator {
  c_tasks : list Task;
  c_nReduce : Z;
  c_nMap : Z;
  c_mapCount : Z;
  c_reduceCount : Z;
  c_files : list string
}.

Definition set_tasks (c : Coordinator) (ts : list Task) : Coordinator :=
  mkCoordinator ts (c_nReduce c) (c_nMap c) (c_mapCount c) (c_reduceCount c) (c_files c).

Definition set_reduceCount (c : Coordinator) (n : Z) : Coordinator :=
  mkCoordinator (c_tasks c) (c_nReduce c) (c_nMap c) (c_mapCount c) n (c_files c).

(** ** Operations *)

(** The index of the first task with the id. *)
Definition getTaskByTaskId (c : Coordinator) (id : Z) : option nat :=
  fst <$> list_find (λ t, t_TaskId t = id) (c_tasks c).

(** [t.Sub(u)], which saturates. *)
Definition time_Sub (t u : Z) : Z := Z.max (- 2 ^ 63) (Z.min (2 ^ 63 - 1) (t - u)).

Definition task_timeout : Z := 10 * 1000000000.

Definition checkTimeout (now : Z) (c : Coordinator) : Coordinator :=
  set_tasks c ((λ t,
    if bool_decide (task_timeout < time_Sub now (t_StartTime t)) &&
       bool_decide (t_Status t = InProgress)
    then set_Status t Idle else t) <$> c_tasks c).

(** The loop of [getMapTask] and [getReduceTask], from index [i]: the first idle task of
    the type, else the first task of [progress]. *)
Fixpoint find_task (ty : TaskType) (ts : list Task) (i : nat) (progress : list nat)
    : Status * option nat :=
  match ts with
  | [] =>
      match progress with
      | [] => (Completed, None)
      | p :: _ => (InProgress, Some p)
      end
  | t :: ts =>
      if bool_decide (t_TaskType t = ty) then
        if bool_decide (t_Status t = Idle) then (Idle, Some i)
        else if bool_decide (t_Status t = InProgress)
        then find_task ty ts (S i) (progress ++ [i])
        else find_task ty ts (S i) progress
      else find_task ty ts (S i) progress
  end.

Definition getMapTask (c : Coordinator) : Status * option nat :=
  find_task MapTask (c_tasks c) 0 [].

Definition getReduceTask (c : Coordinator) : Status * option nat :=
  find_task ReduceTask (c_tasks c) 0 [].

(** [task.Status = InProgress; task.StartTime = time.Now()] through a task pointer. *)
Definition start_task (now : Z) (c : Coordinator) (p : option nat)
    : outcome (Coordinator * Task) :=
  match p with
  | None => Panic "nil pointer dereference"
  | Some i =>
      match c_tasks c !! i with
      | None => Panic "nil pointer dereference"
      | Some t =>
          let t := set_StartTime (set_Status t InProgress) now in
          Ret (set_tasks c (<[i := t]> (c_tasks c)), t)
      end
  end.

(** [now] is read by [checkTimeout] and [now'] when a task is started. *)
Definition GetTask (now now' : Z) (c : Coordinator) (reply : GetTaskReply)
    : outcome (Coordinator * GetTaskReply) :=
  let c := checkTimeout now c in
  let '(mapStatus, mapTask) := getMapTask c in
  let '(reduceStatus, reduceTask) := getReduceTask c in
  if bool_decide (mapStatus = Completed) && bool_decide (reduceStatus = Completed)
  then Ret (c, mkGetTaskReply (NewTask FinishedTask) 0 0)
  else if bool_decide (mapStatus = Idle)
  then '(c, t) ← start_task now' c mapTask;
       Ret (c, mkGetTaskReply t 0 0)
  else if bool_decide (mapStatus = InProgress)
  then Ret (c, mkGetTaskReply (NewTask WaitTask) 0 0)
  else if bool_decide (mapStatus = Completed) && bool_decide (reduceStatus = Idle)
  then '(c, t) ← start_task now' c reduceTask;
       let reply := mkGetTaskReply t (c_reduceCount c) (Z.of_nat (length (c_files c))) in
       Ret (set_reduceCount c (i64_wrap (c_reduceCount c + 1)), reply)
  else if bool_decide (mapStatus = Completed) && bool_decide (reduceStatus = InProgress)
  then Ret (c, mkGetTaskReply (NewTask WaitTask) 0 0)
  else Ret (c, reply).

Definition ReportTask (c : Coordinator) (args : ReportTaskArgs)
    : outcome (Coordinator * ReportTaskReply) :=
  match getTaskByTaskId c (rta_TaskId args) with
  | None => Fatal "no task found by taskId"
  | Some i =>
      Ret (set_tasks c (alter (λ t, set_Status t Completed) i (c_tasks c)), mkReportTaskReply true)
  end.

Definition map_task (nReduce : Z) (i : nat) (file : string) : Task :=
  mkTask file nReduce Idle MapTask zero_time (Z.of_nat i).

Definition reduce_task (nReduce : Z) (nfiles i : nat) : Task :=
  mkTask "" nReduce Idle ReduceTask zero_time (Z.of_nat nfiles + Z.of_nat i).

(** [MakeCoordinator] ends by starting the RPC server, which is [server] in MrMain.v. *)
Definition MakeCoordinator (files : list string) (nReduce : Z) : Coordinator :=
  mkCoordinator
    (imap (map_task nReduce) files ++
     (reduce_task nReduce (length files) <$> seq 0 (Z.to_nat nReduce)))
    nReduce (Z.of_nat (length files)) 0 0 files.

Definition Done (c : Coordinator) : bool := false.

(** ** Requests of the workers *)

Inductive Call :=
  | CallGetTask (now now' : Z)
  | CallReportTask (args : ReportTaskArgs).

Inductive CallReply :=
  | RepGetTask (reply : GetTaskReply)
  | RepReportTask (reply : ReportTaskReply).

Definition zero_GetTaskReply : GetTaskReply := mkGetTaskReply zero_Task 0 0.

Definition Coordinator_handle (c : Coordinator) (call : Call)
    : outcome (Coordinator * CallReply) :=
  match call with
  | CallGetTask now now' =>
      '(c, reply) ← GetTask now now' c zero_GetTaskReply;
      Ret (c, RepGetTask reply)
  | CallReportTask args =>
      '(c, reply) ← ReportTask c args;
      Ret (c, RepReportTask reply)
  end.

(** ** The abstract behaviour of [GetTask] *)

Definition is_idle (ty : TaskType) (t : Task) : Prop := t_TaskType t = ty ∧ t_Status t = Idle.

(** Task [k] is the first idle task of the type. *)
Definition first_idle (ty : TaskType) (c : Coordinator) (k : nat) (t : Task) : Prop :=
  c_tasks c !! k = Some t ∧ is_idle ty t ∧
  ∀ j u, (j < k)%nat → c_tasks c !! j = Some u → ¬ is_idle ty u.

Definition no_idle (ty : TaskType) (c : Coordinator) : Prop :=
  ∀ t, t ∈ c_tasks c → ¬ is_idle ty t.

Definition all_completed (ty : TaskType) (c : Coordinator) : Prop :=
  ∀ t, t ∈ c_tasks c → t_TaskType t = ty → t_Status t = Completed.

Definition started (now : Z) (t : Task) : Task := set_StartTime (set_Status t InProgress) now.

Definition assign (c : Coordinator) (k : nat) (t : Task) : Coordinator :=
  set_tasks c (<[k := t]> (c_tasks c)).

(** What [GetTask] does once expired tasks are idle again: the job is finished; or the
    first idle map task is handed out; or the worker waits for the map tasks in
    progress; or, with all map tasks completed, the same for the reduce tasks, with the
    next bucket number. *)
Inductive get_task_spec (now' : Z) (c : Coordinator) : Coordinator → GetTaskReply → Prop :=
  | gts_finished :
      all_completed MapTask c → all_completed ReduceTask c →
      get_task_spec now' c c (mkGetTaskReply (NewTask FinishedTask) 0 0)
  | gts_map k t :
      first_idle MapTask c k t →
      get_task_spec now' c (assign c k (started now' t)) (mkGetTaskReply (started now' t) 0 0)
  | gts_wait_map :
      no_idle MapTask c → ¬ all_completed MapTask c →
      get_task_spec now' c c (mkGetTaskReply (NewTask WaitTask) 0 0)
  | gts_reduce k t :
      all_completed MapTask c → first_idle ReduceTask c k t →
      get_task_spec now' c
        (set_reduceCount (assign c k (started now' t)) (i64_wrap (c_reduceCount c + 1)))
        (mkGetTaskReply (started now' t) (c_reduceCount c) (Z.of_nat (length (c_files c))))
  | gts_wait_reduce :
      all_completed MapTask c → no_idle ReduceTask c → ¬ all_completed ReduceTask c →
      get_task_spec now' c c (mkGetTaskReply (NewTask WaitTask) 0 0).

(** The statuses that tasks of the coordinator have. *)
Definition live_status (t : Task) : Prop :=
  t_Status t = Idle ∨ t_Status t = InProgress ∨ t_Status t = Completed.

Lemma find_task_spec ty ts i progress :
  (∀ t, t ∈ ts → live_status t) →
  match find_task ty ts i progress with
  | (Idle, p) => ∃ k t, p = Some (i + k)%nat ∧ ts !! k = Some t ∧ is_idle ty t ∧
      ∀ j u, (j < k)%nat → ts !! j = Some u → ¬ is_idle ty u
  | (InProgress, p) => (∀ t, t ∈ ts → ¬ is_idle ty t) ∧
      (progress ≠ [] ∨ ∃ t, t ∈ ts ∧ t_TaskType t = ty ∧ t_Status t = InProgress)
  | (Completed, p) => progress = [] ∧ ∀ t, t ∈ ts → t_TaskType t = ty → t_Status t = Completed
  | (NoStatus, _) => False
  end.
Proof.
  revert i progress. induction ts as [|t ts IH]; intros i progress Hl; simpl.
  { destruct progress; [set_solver|]. split; [set_solver|by left]. }
  assert (Hts : ∀ t, t ∈ ts → live_status t) by set_solver.
  assert (Ht : live_status t) by (apply Hl; left).
  assert (Hskip : ¬ is_idle ty t → ∀ progress',
    (progress' = progress ∨ t_TaskType t = ty ∧ t_Status t = InProgress) →
    (progress' = [] → progress = [] ∧ (t_TaskType t = ty → t_Status t = Completed)) →
    match find_task ty ts (S i) progress' with
    | (Idle, p) => ∃ k u, p = Some (i + k)%nat ∧ (t :: ts) !! k = Some u ∧ is_idle ty u ∧
        ∀ j u, (j < k)%nat → (t :: ts) !! j = Some u → ¬ is_idle ty u
    | (InProgress, p) => (∀ u, u ∈ t :: ts → ¬ is_idle ty u) ∧
        (progress ≠ [] ∨ ∃ u, u ∈ t :: ts ∧ t_TaskType u = ty ∧ t_Status u = InProgress)
    | (Completed, p) => progress = [] ∧
        ∀ u, u ∈ t :: ts → t_TaskType u = ty → t_Status u = Completed
    | (NoStatus, _) => False
    end).
  { intros Hni progress' Hp Hp'. specialize (IH (S i) progress' Hts).
    destruct (find_task ty ts (S i) progress') as [[] p]; [| | |done].
    - destruct IH as (k & u & -> & Hu & Hi & Hk). exists (S k), u.
      split_and!; [f_equal; lia|done|done|]. intros [|j] v Hj Hv; simpl in Hv; [by simplify_eq|].
      apply (Hk j); [lia|done].
    - destruct IH as [H1 H2]. split; [intros u [->|?]%elem_of_cons; auto|].
      destruct H2 as [H2|(u & ? & ? & ?)]; [|right; exists u; split_and!; [by right|done..]].
      destruct Hp as [->|[? ?]]; [by left|right]. exists t. split_and!; [by left|done..].
    - destruct IH as [-> H]. destruct (Hp' eq_refl) as [? Hc].
      split; [done|]. intros u [->|?]%elem_of_cons; auto. }
  case_bool_decide as Hty; [case_bool_decide as Hs; [|case_bool_decide as Hs']|].
  - exists 0%nat, t. split_and!; [f_equal; lia|done|done|lia].
  - apply Hskip; [by intros [_ ?]|by right|by intros [_ ?]%app_nil].
  - apply Hskip; [by intros [_ ?]|by left|]. intros ->. split; [done|].
    intros _. by destruct Ht as [|[|]].
  - apply Hskip; [by intros [? _]|by left|by intros ->].
Qed.

(** ** [GetTask] meets its specification *)

Lemma checkTimeout_tasks now c k :
  c_tasks (checkTimeout now c) !! k =
    (λ t, if bool_decide (task_timeout < time_Sub now (t_StartTime t)) &&
             bool_decide (t_Status t = InProgress)
          then set_Status t Idle else t) <$> c_tasks c !! k.
Proof. simpl. by rewrite list_lookup_fmap. Qed.

(** Timing out only makes tasks in progress idle. *)
Lemma checkTimeout_elem now c t :
  t ∈ c_tasks (checkTimeout now c) →
  t ∈ c_tasks c ∨ ∃ u, u ∈ c_tasks c ∧ t_Status u = InProgress ∧ t = set_Status u Idle.
Proof.
  intros (u & -> & Hu)%list_elem_of_fmap. repeat case_bool_decide; simpl; eauto.
Qed.

Lemma checkTimeout_live now c :
  (∀ t, t ∈ c_tasks c → live_status t) → ∀ t, t ∈ c_tasks (checkTimeout now c) → live_status t.
Proof.
  intros Hl t [?|(u & ? & ? & ->)]%checkTimeout_elem; [by apply Hl|by left].
Qed.

Lemma find_task_cases ty c :
  (∀ t, t ∈ c_tasks c → live_status t) →
  (∃ k t, find_task ty (c_tasks c) 0 [] = (Idle, Some k) ∧ first_idle ty c k t) ∨
  (∃ p, find_task ty (c_tasks c) 0 [] = (InProgress, p) ∧ no_idle ty c ∧ ¬ all_completed ty c) ∨
  (∃ p, find_task ty (c_tasks c) 0 [] = (Completed, p) ∧ all_completed ty c).
Proof.
  intros Hl. pose proof (find_task_spec ty (c_tasks c) 0 [] Hl) as Hf.
  destruct (find_task ty (c_tasks c) 0 []) as [[] p]; [..|done].
  - left. destruct Hf as (k & t & -> & ? & ? & ?). by exists k, t.
  - right; left. destruct Hf as [Hn [?|(t & Ht & Hty & Hs)]]; [done|].
    exists p. split_and!; [done..|]. intros Ha. by rewrite (Ha t Ht Hty) in Hs.
  - right; right. destruct Hf as [_ ?]. by exists p.
Qed.

Lemma start_task_first now c ty k t :
  first_idle ty c k t → start_task now c (Some k) = Ret (assign c k (started now t), started now t).
Proof. intros (Hk & _). unfold start_task. by rewrite Hk. Qed.

#[local] Arguments start_task : simpl never.

Lemma GetTask_meets_spec now now' c reply :
  (∀ t, t ∈ c_tasks c → live_status t) →
  ∃ c' r, GetTask now now' c reply = Ret (c', r) ∧
    get_task_spec now' (checkTimeout now c) c' r.
Proof.
  intros Hl. pose proof (checkTimeout_live now c Hl) as Hl'.
  unfold GetTask, getMapTask, getReduceTask. set (c1 := checkTimeout now c) in *.
  destruct (find_task_cases MapTask c1 Hl') as [(k & t & -> & Hf)|[(p & -> & Hn & Hc)|(p & -> & Hc)]].
  - destruct (find_task ReduceTask (c_tasks c1) 0 []) as [sr pr]. simpl.
    rewrite (start_task_first _ _ _ _ _ Hf). eexists _, _. split; [reflexivity|].
    by apply gts_map.
  - destruct (find_task ReduceTask (c_tasks c1) 0 []) as [sr pr]. simpl.
    eexists _, _. split; [reflexivity|]. by apply gts_wait_map.
  - destruct (find_task_cases ReduceTask c1 Hl')
      as [(k & t & -> & Hf)|[(q & -> & Hn & Hc')|(q & -> & Hc')]]; simpl.
    + rewrite (start_task_first _ _ _ _ _ Hf). simpl. eexists _, _. split; [reflexivity|].
      exact (gts_reduce now' c1 k t Hc Hf).
    + eexists _, _. split; [reflexivity|]. by apply gts_wait_reduce.
    + eexists _, _. split; [reflexivity|]. by apply gts_finished.
Qed.

(** ** The invariant *)

(** A task without its status and start time. *)
Definition strip (t : Task) : Task := set_StartTime (set_Status t Idle) zero_time.

Section job.
Context (files : list string) (nReduce : Z).

Definition job : Coordinator := MakeCoordinator files nReduce.

Record coord_inv (c : Coordinator) : Prop := {
  ci_tasks : strip <$> c_tasks c = strip <$> c_tasks job;
  ci_live t : t ∈ c_tasks c → live_status t;
  ci_phase t : t ∈ c_tasks c → t_TaskType t = ReduceTask → t_Status t = InProgress →
    all_completed MapTask c;
  ci_files : c_files c = files
}.

(** Tasks keep their place: id, type, file and number of buckets never change. *)
Lemma inv_task c k t :
  coord_inv c → c_tasks c !! k = Some t →
  t_TaskId t = Z.of_nat k ∧
  t_TaskType t = (if decide (k < length files)%nat then MapTask else ReduceTask) ∧
  t_NReduce t = nReduce ∧ t_FileName t = default "" (files !! k).
Proof.
  intros [Ht _ _ _] Hk. assert (Hs : (strip <$> c_tasks job) !! k = Some (strip t))
    by (by rewrite <-Ht, list_lookup_fmap, Hk).
  rewrite list_lookup_fmap in Hs. apply fmap_Some in Hs as (u & Hu & Hs).
  assert (t_TaskId t = t_TaskId u ∧ t_TaskType t = t_TaskType u ∧ t_NReduce t = t_NReduce u ∧
    t_FileName t = t_FileName u) as (-> & -> & -> & ->).
  { destruct t, u. unfold strip, set_StartTime, set_Status in Hs. simpl in *. by simplify_eq. }
  unfold job, MakeCoordinator in Hu. simpl in Hu.
  apply lookup_app_Some in Hu as [Hu|[Hge Hu]].
  - rewrite list_lookup_imap in Hu. apply fmap_Some in Hu as (f & Hf & ->). simpl.
    rewrite Hf, decide_True by by eapply lookup_lt_Some. done.
  - rewrite length_imap in *. apply list_lookup_fmap_Some in Hu as (m & -> & Hm).
    apply lookup_seq in Hm as [-> Hlt]. simpl. rewrite decide_False by lia.
    rewrite (proj2 (lookup_ge_None files k)) by lia. split_and!; [lia|done..].
Qed.

Lemma job_inv : coord_inv job.
Proof.
  split; [done|..].
  - intros t [Ht|Ht]%elem_of_app; left.
    + apply elem_of_lookup_imap in Ht as (i & f & -> & _). done.
    + apply list_elem_of_fmap in Ht as (i & -> & _). done.
  - intros t [Ht|Ht]%elem_of_app.
    + apply elem_of_lookup_imap in Ht as (i & f & -> & _). done.
    + apply list_elem_of_fmap in Ht as (i & -> & _). done.
  - done.
Qed.

(** Replacing task [k] by a version with another status. *)
Lemma inv_update c k t t' n :
  coord_inv c → c_tasks c !! k = Some t → strip t' = strip t → live_status t' →
  (t_Status t' = Completed ∨ t_Status t ≠ Completed) →
  (t_TaskType t = ReduceTask → t_Status t' = InProgress → all_completed MapTask c) →
  coord_inv (set_reduceCount (assign c k t') n).
Proof.
  intros [Ht Hl Hp Hf] Hk Hs Hlive Hst Hr.
  assert (Hty : t_TaskType t' = t_TaskType t).
  { destruct t, t'. unfold strip, set_StartTime, set_Status in Hs. simpl in *. by simplify_eq. }
  assert (Hmono : all_completed MapTask c → t_TaskType t = MapTask ∨ t_TaskType t = ReduceTask →
      (t_TaskType t = MapTask → t_Status t' = Completed) →
      all_completed MapTask (set_reduceCount (assign c k t') n)).
  { intros Ha Ht' Hc u Hu. simpl in Hu. apply list_elem_of_lookup_1 in Hu as [j Hj].
    apply list_lookup_insert_Some in Hj as [(<- & <- & _)|[_ Hj]].
    - rewrite Hty. done.
    - apply Ha. by eapply list_elem_of_lookup_2. }
  assert (Htypes : t_TaskType t = MapTask ∨ t_TaskType t = ReduceTask).
  { destruct (inv_task c k t) as (_ & -> & _); [by split|done|]. case_decide; auto. }
  assert (Hmapc : all_completed MapTask c → t_TaskType t = MapTask → t_Status t' = Completed).
  { intros Ha Hm. destruct Hst as [|Hne]; [done|]. exfalso. apply Hne.
    apply Ha; [by eapply list_elem_of_lookup_2|done]. }
  split; simpl; [..|done].
  - etrans; [|exact Ht]. apply list_eq. intros j. rewrite !list_lookup_fmap.
    destruct (decide (k = j)) as [<-|Hne].
    + rewrite list_lookup_insert_eq by by eapply lookup_lt_Some. by rewrite Hk; simpl; rewrite Hs.
    + by rewrite list_lookup_insert_ne.
  - intros u Hu. apply list_elem_of_lookup_1 in Hu as [j Hj].
    apply list_lookup_insert_Some in Hj as [(<- & <- & _)|[_ Hj]]; [done|].
    apply Hl. by eapply list_elem_of_lookup_2.
  - intros u Hu Hur Hup. apply list_elem_of_lookup_1 in Hu as [j Hj].
    apply list_lookup_insert_Some in Hj as [(<- & <- & _)|[_ Hj]].
    + rewrite Hty in Hur. assert (Ha := Hr Hur Hup). by apply Hmono; auto.
    + assert (Ha : all_completed MapTask c)
        by (eapply Hp; [by eapply list_elem_of_lookup_2|done..]).
      by apply Hmono; auto.
Qed.

(** A completed task is never touched again. *)
Definition keeps_completed (c c' : Coordinator) : Prop :=
  ∀ k t, c_tasks c !! k = Some t → t_Status t = Completed → c_tasks c' !! k = Some t.

Lemma assign_keeps c k t t' n :
  c_tasks c !! k = Some t → (t_Status t = Completed → t' = t) →
  keeps_completed c (set_reduceCount (assign c k t') n).
Proof.
  intros Hk Heq j u Hj Hu. simpl. destruct (decide (k = j)) as [<-|Hne].
  - rewrite list_lookup_insert_eq by by eapply lookup_lt_Some. simplify_eq. by rewrite Heq.
  - by rewrite list_lookup_insert_ne.
Qed.

Lemma checkTimeout_inv now c :
  coord_inv c → coord_inv (checkTimeout now c) ∧ keeps_completed c (checkTimeout now c).
Proof.
  intros Hi. pose proof Hi as [Ht Hl Hp Hf].
  assert (Hk : keeps_completed c (checkTimeout now c)).
  { intros k t Hk Hs. rewrite checkTimeout_tasks, Hk. simpl.
    by rewrite (bool_decide_eq_false_2 (t_Status t = InProgress)), andb_false_r by by rewrite Hs. }
  split; [|done]. split; [..|done].
  - rewrite <-Ht. simpl. rewrite <-list_fmap_compose. apply list_fmap_ext.
    intros _ t _. simpl. by destruct (_ && _).
  - by apply checkTimeout_live.
  - intros t Hin Hty Hs. assert (Hc : all_completed MapTask c).
    { apply checkTimeout_elem in Hin as [?|(u & ? & ? & ->)]; [by eapply Hp|done]. }
    intros u [Hu|(v & Hv & Hvs & ->)]%checkTimeout_elem Huty; [by apply Hc|].
    exfalso. by rewrite (Hc v Hv Huty) in Hvs.
Qed.

Lemma get_task_spec_inv now' c c' r :
  coord_inv c → get_task_spec now' c c' r →
  coord_inv c' ∧ keeps_completed c c'.
Proof.
  intros Hi Hs. destruct Hs as [Hm Hr|k t Hf|Hn Hc|k t Hm Hf|Hm Hn Hc];
    try (split; [done|by intros ?]).
  - destruct Hf as (Hk & [Hty Hs] & _). split.
    + by apply (inv_update c k t _ (c_reduceCount c) Hi Hk); simpl; [done|right; left|
        right; rewrite Hs|rewrite Hty].
    + apply (assign_keeps c k t _ (c_reduceCount c) Hk). by rewrite Hs.
  - destruct Hf as (Hk & [Hty Hs] & _). split.
    + by apply (inv_update c k t _ _ Hi Hk); simpl; [done|right; left|right; rewrite Hs|].
    + apply (assign_keeps c k t _ _ Hk). by rewrite Hs.
Qed.

Lemma getTaskByTaskId_inv c id :
  coord_inv c → 0 ≤ id < Z.of_nat (length (c_tasks c)) →
  ∃ t, getTaskByTaskId c id = Some (Z.to_nat id) ∧ c_tasks c !! Z.to_nat id = Some t.
Proof.
  intros Hi Hid. assert (is_Some (c_tasks c !! Z.to_nat id)) as [t Ht]
    by (apply lookup_lt_is_Some; lia).
  exists t. split; [|done]. unfold getTaskByTaskId.
  rewrite (proj2 (list_find_Some _ _ (Z.to_nat id) t)); [done|].
  destruct (inv_task c _ t Hi Ht) as (Hid' & _). split_and!; [done|lia|].
  intros j u Hu Hj. destruct (inv_task c j u Hi Hu) as (-> & _). lia.
Qed.

Lemma getTaskByTaskId_out c id :
  coord_inv c → ¬ (0 ≤ id < Z.of_nat (length (c_tasks c))) → getTaskByTaskId c id = None.
Proof.
  intros Hi Hid. unfold getTaskByTaskId. rewrite (proj2 (list_find_None _ _)); [done|].
  apply Forall_forall. intros t Ht Heq. apply list_elem_of_lookup_1 in Ht as [k Hk].
  destruct (inv_task c k t Hi Hk) as (Hk' & _). apply lookup_lt_Some in Hk. lia.
Qed.

Lemma ReportTask_inv c args c' r :
  coord_inv c → ReportTask c args = Ret (c', r) → coord_inv c' ∧ keeps_completed c c'.
Proof.
  intros Hi. unfold ReportTask.
  destruct (decide (0 ≤ rta_TaskId args < Z.of_nat (length (c_tasks c)))) as [Hid|Hid];
    [|by rewrite getTaskByTaskId_out].
  destruct (getTaskByTaskId_inv c _ Hi Hid) as (t & -> & Ht). intros E; simplify_eq.
  assert (Ha : alter (λ t, set_Status t Completed) (Z.to_nat (rta_TaskId args)) (c_tasks c) =
    <[Z.to_nat (rta_TaskId args) := set_Status t Completed]> (c_tasks c)).
  { apply list_eq. intros j. destruct (decide (Z.to_nat (rta_TaskId args) = j)) as [<-|Hne].
    - rewrite list_lookup_alter_eq, list_lookup_insert_eq, Ht by by eapply lookup_lt_Some. done.
    - by rewrite list_lookup_alter_ne, list_lookup_insert_ne. }
  rewrite Ha. split.
  - by apply (inv_update c _ t _ (c_reduceCount c) Hi Ht); [done|right; right|left|].
  - apply (assign_keeps c _ t _ (c_reduceCount c) Ht). destruct t; simpl. by intros ->.
Qed.

Lemma handle_inv c call c' r :
  coord_inv c → Coordinator_handle c call = Ret (c', r) → coord_inv c' ∧ keeps_completed c c'.
Proof.
  intros Hi. destruct call as [now now'|args]; simpl; intros Hr; bind_inv Hr.
  - destruct (GetTask_meets_spec now now' c zero_GetTaskReply (ci_live _ Hi)) as (c1 & r1 & E & Hs).
    rewrite E in Hbind. simplify_eq. destruct (checkTimeout_inv now c Hi) as [Hi' Hk].
    destruct (get_task_spec_inv _ _ _ _ Hi' Hs) as [? Hk']. split; [done|].
    intros k t Ht Hc. apply Hk'; [by apply Hk|done].
  - by eapply ReportTask_inv.
Qed.

Lemma run_inv c calls c' rs :
  coord_inv c → run_list Coordinator_handle c calls = Ret (c', rs) →
  coord_inv c' ∧ keeps_completed c c'.
Proof.
  revert c rs. induction calls as [|call calls IH]; intros c rs Hi Hr; simpl in Hr.
  { simplify_eq. split; [done|by intros ?]. }
  bind_inv Hr. bind_inv Hr. destruct (handle_inv _ _ _ _ Hi Hbind) as [Hi1 Hk1].
  destruct (IH _ _ Hi1 Hbind0) as [Hi2 Hk2]. split; [done|].
  intros k t Ht Hc. apply Hk2; [by apply Hk1|done].
Qed.

Lemma length_tasks c :
  coord_inv c → length (c_tasks c) = (length files + Z.to_nat nReduce)%nat.
Proof.
  intros Hi. rewrite <-(length_fmap strip), (ci_tasks _ Hi), length_fmap. simpl.
  by rewrite length_app, length_imap, length_fmap, length_seq.
Qed.

(** *** Bucket numbers *)

(** The reduce task that a reply hands out, with its bucket number. *)
Definition reduce_handout (rep : CallReply) : option (Z * Z) :=
  match rep with
  | RepGetTask r =>
      if bool_decide (t_TaskType (gtr_TaskInfo r) = ReduceTask)
      then Some (t_TaskId (gtr_TaskInfo r), gtr_BucketNum r) else None
  | RepReportTask _ => None
  end.

Definition handouts (reps : list CallReply) : list (Z * Z) := omap reduce_handout reps.

#[local] Arguments handouts : simpl never.

Abbreviation nf := (Z.of_nat (length files)).

(** A worker reports a reduce task only when it was handed out, to it or another. *)
Definition honest (hs : list (Z * Z)) (call : Call) : Prop :=
  match call with
  | CallReportTask args => rta_TaskId args < nf ∨ rta_TaskId args ∈ hs.*1
  | CallGetTask _ _ => True
  end.

Fixpoint reports_honest (hs : list (Z * Z)) (calls : list Call) (reps : list CallReply) : Prop :=
  match calls, reps with
  | call :: calls, rep :: reps =>
      honest hs call ∧ reports_honest (hs ++ option_list (reduce_handout rep)) calls reps
  | _, _ => True
  end.

(** Not idle: handed out, or reported. *)
Definition busy (c : Coordinator) (k : nat) : Prop :=
  ∃ t, c_tasks c !! k = Some t ∧ t_Status t ≠ Idle.

Lemma busy_checkTimeout now c k : busy (checkTimeout now c) k → busy c k.
Proof.
  intros (t & Ht & Hs). rewrite checkTimeout_tasks in Ht. apply fmap_Some in Ht as (u & Hu & ->).
  exists u. split; [done|]. by destruct (_ && _).
Qed.

Lemma busy_assign c k t n j :
  busy (set_reduceCount (assign c k t) n) j → j = k ∨ busy c j.
Proof.
  intros (u & Hu & Hs). simpl in Hu.
  apply list_lookup_insert_Some in Hu as [(-> & _)|[_ Hu]]; [by left|right; by exists u].
Qed.

(** A step hands out no reduce task and makes at most the reported one busy; or it hands out the
    first idle one. *)
Definition hands_none (c : Coordinator) (call : Call) (c' : Coordinator) (rep : CallReply) : Prop :=
  reduce_handout rep = None ∧ c_reduceCount c' = c_reduceCount c ∧
  ∀ k, (length files ≤ k)%nat → busy c' k →
    busy c k ∨ ∃ args, call = CallReportTask args ∧ rta_TaskId args = Z.of_nat k.

Definition hands_first (c : Coordinator) (c' : Coordinator) (rep : CallReply) : Prop :=
  ∃ k, reduce_handout rep = Some (Z.of_nat k, c_reduceCount c) ∧
    c_reduceCount c' = i64_wrap (c_reduceCount c + 1) ∧
    (length files ≤ k < length files + Z.to_nat nReduce)%nat ∧
    (∀ j, (length files ≤ j < k)%nat → busy c j) ∧
    (∀ j, busy c' j → j = k ∨ busy c j).

Lemma reduce_index c k t : coord_inv c → c_tasks c !! k = Some t →
  t_TaskType t = ReduceTask ↔ (length files ≤ k)%nat.
Proof.
  intros Hi Hk. destruct (inv_task c k t Hi Hk) as (_ & -> & _). case_decide; split; try done; lia.
Qed.

Lemma GetTask_handout c now now' c' r :
  coord_inv c → get_task_spec now' (checkTimeout now c) c' r →
  hands_none c (CallGetTask now now') c' (RepGetTask r) ∨ hands_first c c' (RepGetTask r).
Proof.
  intros Hi Hs. destruct (checkTimeout_inv now c Hi) as [Hi1 _].
  pose proof (busy_checkTimeout now c) as Hbt.
  destruct Hs as [Hm Hr|k t Hf|Hn Hc|k t Hm Hf|Hm Hn Hc];
    try (left; split_and!; [done|done|intros j _ Hj; left; by apply Hbt]).
  - destruct Hf as (Hk & [Hty _] & _). left. unfold hands_none. simpl. rewrite Hty.
    split_and!; [done|done|]. intros j Hj Hb.
    destruct (busy_assign _ k (started now' t) (c_reduceCount c) j Hb) as [->|?]; [|left; by apply Hbt].
    apply (reduce_index _ _ _ Hi1 Hk) in Hj. congruence.
  - destruct Hf as (Hk & [Hty _] & Hfirst). right. exists k. simpl. rewrite Hty. simpl.
    destruct (inv_task _ _ _ Hi1 Hk) as (-> & _).
    pose proof (proj1 (reduce_index _ _ _ Hi1 Hk) Hty) as Hge.
    apply lookup_lt_Some in Hk as Hlt. rewrite (length_tasks _ Hi1) in Hlt.
    split_and!; [done|done|done|done| |].
    + intros j [Hj Hjk]. apply Hbt.
      destruct (lookup_lt_is_Some_2 (c_tasks (checkTimeout now c)) j) as [u Hu];
        [rewrite (length_tasks _ Hi1); lia|].
      exists u. split; [done|]. intros Hidle. apply (Hfirst j u Hjk Hu). split; [|done].
      by apply (reduce_index _ _ _ Hi1 Hu).
    + intros j Hb. apply busy_assign in Hb as [->|Hb]; [by left|right; by apply Hbt].
Qed.

Lemma handle_handout c call c' rep :
  coord_inv c → Coordinator_handle c call = Ret (c', rep) →
  hands_none c call c' rep ∨ hands_first c c' rep.
Proof.
  intros Hi. destruct call as [now now'|args]; simpl; intros Hr; bind_inv Hr.
  - destruct (GetTask_meets_spec now now' c zero_GetTaskReply (ci_live _ Hi)) as (c1 & r1 & E & Hs).
    rewrite E in Hbind. simplify_eq. by apply GetTask_handout.
  - left. unfold ReportTask in Hbind.
    destruct (decide (0 ≤ rta_TaskId args < Z.of_nat (length (c_tasks c)))) as [Hid|Hid];
      [|by rewrite getTaskByTaskId_out in Hbind].
    destruct (getTaskByTaskId_inv c _ Hi Hid) as (t & E & Ht). rewrite E in Hbind. simplify_eq/=.
    split_and!; [done|done|]. intros k _ (u & Hu & Hs). simpl in Hu.
    destruct (decide (Z.to_nat (rta_TaskId args) = k)) as [<-|Hne].
    + right. exists args. split; [done|lia].
    + left. rewrite list_lookup_alter_ne in Hu by done. by exists u.
Qed.

(** After the reduce tasks of [hs] have been handed out, in this order. *)
Record handed_inv (hs : list (Z * Z)) (c : Coordinator) : Prop := {
  hi_inv : coord_inv c;
  hi_count : c_reduceCount c = Z.of_nat (length hs);
  hi_buckets : hs.*2 = seqZ 0 (Z.of_nat (length hs));
  hi_ids id : id ∈ hs.*1 → nf ≤ id < nf + nReduce
}.

(** When all reports are honest and no task was handed out twice. *)
Record honest_inv (hs : list (Z * Z)) (c : Coordinator) : Prop := {
  ho_busy k : (length files ≤ k)%nat → busy c k → Z.of_nat k ∈ hs.*1;
  ho_order : NoDup hs.*1 → hs.*1 = seqZ nf (Z.of_nat (length hs))
}.

Lemma handed_step hs c call c' rep :
  handed_inv hs c → Z.of_nat (length hs) + 1 < 2 ^ 63 → Coordinator_handle c call = Ret (c', rep) →
  handed_inv (hs ++ option_list (reduce_handout rep)) c'.
Proof.
  intros [Hi Hc Hb Hid] Hlt Hr. destruct (handle_inv _ _ _ _ Hi Hr) as [Hi' _].
  destruct (handle_handout _ _ _ _ Hi Hr) as [(E & Hc' & _)|(k & E & Hc' & Hk & _)]; rewrite E; simpl.
  - rewrite app_nil_r. split; [done|congruence|done|done].
  - rewrite Hc in Hc'. rewrite i64_wrap_small in Hc' by lia. split; [done|..].
    + rewrite Hc', length_app. simpl. lia.
    + rewrite fmap_app, length_app, Hb, Hc. simpl. rewrite Nat.add_1_r, seqZ_S. done.
    + intros id. rewrite fmap_app, elem_of_app. intros [?|Hin]; [by apply Hid|].
      simpl in Hin. apply list_elem_of_singleton in Hin as ->. lia.
Qed.

Lemma honest_step hs c call c' rep :
  handed_inv hs c → honest_inv hs c → honest hs call → Coordinator_handle c call = Ret (c', rep) →
  honest_inv (hs ++ option_list (reduce_handout rep)) c'.
Proof.
  intros [Hi Hc Hb Hid] [Hbusy Hord] Hh Hr.
  destruct (handle_handout _ _ _ _ Hi Hr)
    as [(E & _ & Hnew)|(k & E & _ & Hk & Hbelow & Hnew)]; rewrite E; simpl.
  - rewrite app_nil_r. split; [|done]. intros j Hj Hbj.
    destruct (Hnew j Hj Hbj) as [?|(args & -> & Ea)]; [by apply Hbusy|].
    simpl in Hh. rewrite Ea in Hh. destruct Hh as [?|?]; [lia|done].
  - split.
    + intros j Hj Hbj. rewrite fmap_app, elem_of_app. simpl. rewrite list_elem_of_singleton.
      destruct (Hnew j Hbj) as [->|?]; [by right|left; by apply Hbusy].
    + rewrite fmap_app. simpl. intros (Hnd & Hfresh & _)%NoDup_app. specialize (Hord Hnd).
      rewrite length_app. simpl. rewrite Nat.add_1_r, seqZ_S, Hord. do 2 f_equal.
      assert (Hout : Z.of_nat k ∉ hs.*1).
      { intros Hin. apply (Hfresh _ Hin). left. }
      rewrite Hord, elem_of_seqZ in Hout.
      destruct (decide (Z.of_nat k = nf + Z.of_nat (length hs))) as [|Hne]; [done|exfalso].
      assert (Hin : Z.of_nat (length files + length hs) ∈ hs.*1) by (apply Hbusy; [lia|apply Hbelow; lia]).
      rewrite Hord, elem_of_seqZ in Hin. lia.
Qed.

Lemma handed_run hs c calls c' reps :
  handed_inv hs c → Z.of_nat (length hs) + Z.of_nat (length calls) < 2 ^ 63 →
  run_list Coordinator_handle c calls = Ret (c', reps) →
  handed_inv (hs ++ handouts reps) c' ∧
  (honest_inv hs c → reports_honest hs calls reps → honest_inv (hs ++ handouts reps) c').
Proof.
  revert hs c reps. induction calls as [|call calls IH]; intros hs c reps Hi Hb Hr; simpl in Hr.
  { simplify_eq. unfold handouts. simpl. rewrite app_nil_r. done. }
  bind_inv Hr. bind_inv Hr. simpl in Hb.
  pose proof (handed_step _ _ _ _ _ Hi ltac:(lia) Hbind) as Hi1.
  assert (E : ∀ rep reps, hs ++ handouts (rep :: reps) =
    (hs ++ option_list (reduce_handout rep)) ++ handouts reps).
  { intros rep reps. unfold handouts. simpl. rewrite <- (assoc_L (++)).
    by destruct (reduce_handout rep). }
  rewrite !E. destruct (IH (hs ++ option_list (reduce_handout c1)) c0 l) as [H1 H2]; [done| |done|].
  { rewrite length_app. enough (length (option_list (reduce_handout c1)) ≤ 1)%nat by lia.
    by destruct (reduce_handout c1) as [[]|]; simpl; lia. }
  split; [done|]. intros Hho [Hh Hhs]. apply H2; [|done]. by eapply honest_step.
Qed.

Lemma job_handed : handed_inv [] job ∧ honest_inv [] job.
Proof.
  split; split; try done; [apply job_inv|set_solver|].
  intros k _ (t & Ht & Hs). exfalso. apply Hs.
  simpl in Ht. apply lookup_app_Some in Ht as [Ht|[_ Ht]].
  - rewrite list_lookup_imap in Ht. by apply fmap_Some in Ht as (f & _ & ->).
  - by apply list_lookup_fmap_Some in Ht as (i & -> & _).
Qed.

(** All reduce tasks have been handed out: a number is out of range iff a task was repeated. *)
Lemma handed_repeat hs c :
  handed_inv hs c → (∀ id, nf ≤ id < nf + nReduce → id ∈ hs.*1) →
  ¬ NoDup hs.*1 ↔ ∃ b, b ∈ hs.*2 ∧ nReduce ≤ b.
Proof.
  intros [Hi Hc Hb Hid] Hall.
  assert (Hlen : NoDup hs.*1 ↔ Z.of_nat (length hs) ≤ Z.max 0 nReduce).
  { assert (Hsub : seqZ nf nReduce ⊆+ hs.*1).
    { apply NoDup_submseteq; [apply NoDup_seqZ|]. intros x Hx%elem_of_seqZ. by apply Hall. }
    split.
    - intros Hnd. apply NoDup_submseteq with (k := seqZ nf nReduce) in Hnd.
      + apply submseteq_length in Hnd. rewrite length_seqZ, length_fmap in Hnd. lia.
      + intros x Hx%Hid. by apply elem_of_seqZ.
    - intros Hle. apply submseteq_length_Permutation in Hsub; [by rewrite <- Hsub; apply NoDup_seqZ|].
      rewrite length_seqZ, length_fmap. lia. }
  rewrite Hlen, Hb. setoid_rewrite elem_of_seqZ. split.
  - intros Hlt. exists (Z.of_nat (length hs) - 1). lia.
  - intros (b & Hb' & Hle). destruct (decide (0 ≤ nReduce)); [lia|].
    destruct hs as [|h hs]; [simpl in *; lia|]. destruct (Hid h.1); [csimpl; left|lia].
Qed.

(** A reduce task that has expired, with no idle or expired one before it, is handed out again. *)
Definition expired (now : Z) (t : Task) : Prop :=
  t_Status t = InProgress ∧ task_timeout < time_Sub now (t_StartTime t).

Lemma reissue hs c k t now now' :
  handed_inv hs c → c_tasks c !! k = Some t → (length files ≤ k)%nat → expired now t →
  (∀ j u, (length files ≤ j < k)%nat → c_tasks c !! j = Some u → t_Status u ≠ Idle ∧ ¬ expired now u) →
  ∃ c', GetTask now now' c zero_GetTaskReply =
    Ret (c', mkGetTaskReply (started now' t) (Z.of_nat (length hs)) nf).
Proof.
  intros [Hi Hc _ _] Hk Hge [Hp Hx] Hbelow.
  pose proof (proj2 (reduce_index _ _ _ Hi Hk) Hge) as Hty.
  assert (Ha : all_completed MapTask c) by (eapply (ci_phase _ Hi t); [by eapply list_elem_of_lookup_2|done..]).
  destruct (checkTimeout_inv now c Hi) as [Hi1 Hkeep].
  assert (Hk1 : c_tasks (checkTimeout now c) !! k = Some (set_Status t Idle)).
  { rewrite checkTimeout_tasks, Hk. simpl. by rewrite !bool_decide_eq_true_2. }
  assert (Hfirst : first_idle ReduceTask (checkTimeout now c) k (set_Status t Idle)).
  { split_and!; [done|by split|]. intros j u Hj Hu [Hut Hus].
    pose proof (proj1 (reduce_index _ _ _ Hi1 Hu) Hut) as Hjf. rewrite checkTimeout_tasks in Hu.
    apply fmap_Some in Hu as (v & Hv & ->). destruct (Hbelow j v ltac:(lia) Hv) as [Hni Hnx].
    unfold expired in Hnx. repeat case_bool_decide; simpl in *; try done; naive_solver. }
  assert (Ha1 : all_completed MapTask (checkTimeout now c)).
  { intros u [Hu|(v & Hv & Hvs & ->)]%checkTimeout_elem Huty; [by apply Ha|].
    exfalso. by rewrite (Ha v Hv Huty) in Hvs. }
  destruct (GetTask_meets_spec now now' c zero_GetTaskReply (ci_live _ Hi)) as (c' & r & E & Hs).
  exists c'. rewrite E. do 2 f_equal. apply list_elem_of_lookup_2 in Hk1 as Hin.
  destruct Hs as [Hm Hr|j u Hf|Hn Hcc|j u Hm Hf|Hm Hn Hcc].
  - by specialize (Hr _ Hin Hty).
  - destruct Hf as (Hj & [Hjt Hjs] & _). apply list_elem_of_lookup_2 in Hj.
    by rewrite (Ha1 u Hj Hjt) in Hjs.
  - done.
  - destruct Hf as (Hj & Hju & Hjf), Hfirst as (_ & Hku & Hkf).
    assert (j = k) as ->.
    { destruct (Nat.lt_trichotomy j k) as [Hl|[->|Hl]]; [by destruct (Hkf j u Hl Hj)|done|].
      by destruct (Hjf k _ Hl Hk1). }
    rewrite Hj in Hk1. simplify_eq. simpl. by rewrite Hc, (ci_files _ Hi).
  - by destruct (Hn _ Hin).
Qed.

(** *** One worker that reports every task it gets *)

Definition worker_round (c : Coordinator) (nows : Z * Z) : outcome (Coordinator * GetTaskReply) :=
  '(c, r) ← GetTask nows.1 nows.2 c zero_GetTaskReply;
  '(c, _) ← ReportTask c (mkReportTaskArgs (t_TaskId (gtr_TaskInfo r)) 0);
  Ret (c, r).

(** The first [k] tasks are completed and the others have never been started. *)
Record progress (k : nat) (c : Coordinator) : Prop := {
  pg_inv : coord_inv c;
  pg_status j t : c_tasks c !! j = Some t →
    t_Status t = if decide (j < k)%nat then Completed else Idle;
  pg_count : c_reduceCount c = Z.of_nat (k - length files)
}.

Lemma progress_checkTimeout k now c : progress k c → progress k (checkTimeout now c).
Proof.
  intros [Hi Hs Hc]. split; [by apply checkTimeout_inv| |done].
  intros j t Hj. rewrite checkTimeout_tasks in Hj. apply fmap_Some in Hj as (u & Hu & ->).
  specialize (Hs j u Hu). rewrite (bool_decide_eq_false_2 (t_Status u = InProgress)),
    andb_false_r by (rewrite Hs; by case_decide). done.
Qed.

Lemma progress_first k c ty j t :
  progress k c → first_idle ty c j t →
  (∀ u, c_tasks c !! k = Some u → t_TaskType u = ty) → (k < length (c_tasks c))%nat → j = k.
Proof.
  intros Hp (Hj & [Hty Hs] & Hfirst) Hk Hlt. pose proof (pg_status _ _ Hp j t Hj) as Hjs.
  rewrite Hs in Hjs. case_decide; [done|]. destruct (decide (j = k)) as [|Hne]; [done|].
  apply lookup_lt_is_Some in Hlt as [u Hu]. exfalso.
  apply (Hfirst k u); [lia|done|]. split; [by apply Hk|].
  by rewrite (pg_status _ _ Hp k u Hu), decide_False by lia.
Qed.

(** With nothing in progress, a type without idle tasks is completed. *)
Lemma progress_completed k c ty : progress k c → no_idle ty c → all_completed ty c.
Proof.
  intros Hp Hn t Ht Hty. pose proof Ht as Ht'. apply list_elem_of_lookup_1 in Ht' as [j Hj].
  pose proof (pg_status _ _ Hp j t Hj) as Hs. case_decide; [done|]. by destruct (Hn t Ht).
Qed.

(** The reply to the [k]-th request of a lone worker, at the time [now']. *)
Definition expected_reply (k : nat) (now' : Z) : GetTaskReply :=
  if decide (k < length files)%nat
  then mkGetTaskReply (mkTask (default "" (files !! k)) nReduce InProgress MapTask now'
                         (Z.of_nat k)) 0 0
  else mkGetTaskReply (mkTask "" nReduce InProgress ReduceTask now' (Z.of_nat k))
         (Z.of_nat (k - length files)) (Z.of_nat (length files)).

(** The next task to be handed out has not been touched by the timeouts. *)
Lemma progress_same_task k now c t :
  progress k c → c_tasks (checkTimeout now c) !! k = Some t → c_tasks c !! k = Some t.
Proof.
  intros Hp Ht. rewrite checkTimeout_tasks in Ht. apply fmap_Some in Ht as (u & Hu & ->).
  rewrite Hu. f_equal. pose proof (pg_status _ _ Hp k u Hu) as Hus.
  rewrite decide_False in Hus by lia.
  by rewrite (bool_decide_eq_false_2 (t_Status u = InProgress)), andb_false_r by by rewrite Hus.
Qed.

Lemma expected_map k now' c t :
  coord_inv c → c_tasks c !! k = Some t → (k < length files)%nat →
  expected_reply k now' = mkGetTaskReply (started now' t) 0 0.
Proof.
  intros Hi Ht Hk. destruct (inv_task _ k t Hi Ht) as (Hid & Hty & Hnr & Hfn).
  rewrite decide_True in Hty by done. unfold expected_reply. rewrite decide_True by done.
  rewrite <-Hid, <-Hnr, <-Hfn. destruct t; simpl in *. by subst.
Qed.

Lemma expected_reduce k now' c t :
  progress k c → c_tasks c !! k = Some t → (length files ≤ k)%nat →
  expected_reply k now' =
    mkGetTaskReply (started now' t) (c_reduceCount c) (Z.of_nat (length (c_files c))).
Proof.
  intros Hp Ht Hk. pose proof (pg_inv _ _ Hp) as Hi.
  destruct (inv_task _ k t Hi Ht) as (Hid & Hty & Hnr & Hfn).
  rewrite decide_False in Hty by lia. unfold expected_reply. rewrite decide_False by lia.
  rewrite <-Hid, <-Hnr, (pg_count _ _ Hp), (ci_files _ Hi).
  rewrite (proj2 (lookup_ge_None files k)) in Hfn by lia. destruct t; simpl in *. by subst.
Qed.

Lemma progress_GetTask k now now' c :
  progress k c → (k < length files + Z.to_nat nReduce)%nat → Z.of_nat k < 2 ^ 62 →
  ∃ c' t, GetTask now now' c zero_GetTaskReply = Ret (c', expected_reply k now') ∧
    coord_inv c' ∧ c_tasks c !! k = Some t ∧
    c_tasks c' = <[k := started now' t]> (c_tasks (checkTimeout now c)) ∧
    c_reduceCount c' = Z.of_nat (S k - length files).
Proof.
  intros Hp Hk Hb. pose proof (progress_checkTimeout k now c Hp) as Hp1.
  destruct (GetTask_meets_spec now now' c zero_GetTaskReply (ci_live _ (pg_inv _ _ Hp)))
    as (c' & r & HG & Hs).
  rewrite HG. destruct (get_task_spec_inv _ _ _ _ (pg_inv _ _ Hp1) Hs) as [Hi' _].
  set (c1 := checkTimeout now c) in *. pose proof (pg_inv _ _ Hp1) as Hi1.
  assert (Hlt : (k < length (c_tasks c1))%nat) by by rewrite (length_tasks _ Hi1).
  pose proof Hlt as [t Ht]%lookup_lt_is_Some. pose proof (pg_status _ _ Hp1 k t Ht) as Hst.
  rewrite decide_False in Hst by lia.
  pose proof (progress_same_task _ _ _ _ Hp Ht) as Htc.
  destruct (inv_task _ k t Hi1 Ht) as (Hid & Hty & Hnr & Hfn).
  assert (Hel : t ∈ c_tasks c1) by by eapply list_elem_of_lookup_2.
  assert (Hred : all_completed MapTask c1 → (length files ≤ k)%nat).
  { intros Ha. destruct (decide (k < length files)%nat); [|lia].
    by rewrite (Ha t Hel Hty) in Hst. }
  exists c', t.
  destruct Hs as [Hm Hr|j u Hf|Hn Hc|j u Hm Hf|Hm Hn Hc].
  - exfalso. assert (Ha : t_Status t = Completed); [|congruence].
    rewrite decide_False in Hty by (specialize (Hred Hm); lia). by apply Hr.
  - assert (Hkl : (k < length files)%nat).
    { destruct Hf as (Hj & [Hjt Hjs] & _). pose proof (pg_status _ _ Hp1 j u Hj) as Hu.
      destruct (inv_task _ j u Hi1 Hj) as (_ & Hut & _). rewrite Hjt in Hut. rewrite Hjs in Hu.
      repeat case_decide; try done; lia. }
    rewrite decide_True in Hty by done.
    assert (j = k) as -> by (eapply progress_first; [done..|intros; by simplify_eq|done]).
    destruct Hf as (Hj & _). assert (u = t) as -> by congruence.
    rewrite (expected_map _ _ _ _ Hi1 Ht Hkl). split_and!; try done. simpl. rewrite (pg_count _ _ Hp). lia.
  - exfalso. by eapply Hc, progress_completed.
  - specialize (Hred Hm). rewrite decide_False in Hty by lia.
    assert (j = k) as -> by (eapply progress_first; [done..|intros; by simplify_eq|done]).
    destruct Hf as (Hj & _). assert (u = t) as -> by congruence.
    rewrite (expected_reduce _ _ _ _ Hp1 Ht Hred). split_and!; try done. cbn [c_reduceCount set_reduceCount].
    rewrite (pg_count _ _ Hp1), i64_wrap_small; lia.
  - exfalso. by eapply Hc, progress_completed.
Qed.

Lemma expected_reply_id k now' : t_TaskId (gtr_TaskInfo (expected_reply k now')) = Z.of_nat k.
Proof. unfold expected_reply. by case_decide. Qed.

Lemma progress_round k nows c :
  progress k c → (k < length files + Z.to_nat nReduce)%nat → Z.of_nat k < 2 ^ 62 →
  ∃ c', worker_round c nows = Ret (c', expected_reply k nows.2) ∧ progress (S k) c'.
Proof.
  intros Hp Hk Hb. destruct (progress_GetTask k nows.1 nows.2 c Hp Hk Hb)
    as (c1 & t & HG & Hi1 & Ht & Htasks & Hcount).
  unfold worker_round. rewrite HG. simpl. rewrite expected_reply_id.
  destruct (getTaskByTaskId_inv c1 (Z.of_nat k) Hi1) as (u & Hid & Hu);
    [rewrite (length_tasks _ Hi1); lia|].
  rewrite Nat2Z.id in Hid, Hu. destruct (ReportTask c1 (mkReportTaskArgs (Z.of_nat k) 0))
    as [[c2 rep]| |] eqn:Hr; unfold ReportTask in Hr; simpl in Hr; rewrite Hid in Hr; try done.
  exists c2. split; [done|].
  assert (Hi2 : coord_inv c2).
  { apply (ReportTask_inv c1 (mkReportTaskArgs (Z.of_nat k) 0) c2 rep Hi1).
    unfold ReportTask. simpl. by rewrite Hid. }
  split; [done| |by simplify_eq/=].
  simplify_eq. simpl. intros j v Hv. destruct (decide (k = j)) as [<-|Hne].
  - rewrite list_lookup_alter_eq, Hu in Hv. simplify_eq/=. by rewrite decide_True by lia.
  - rewrite list_lookup_alter_ne, Htasks, list_lookup_insert_ne in Hv by done.
    rewrite (pg_status _ _ (progress_checkTimeout k nows.1 c Hp) j v Hv).
    repeat case_decide; try done; lia.
Qed.

Lemma progress_rounds nows k c :
  progress k c → (k + length nows <= length files + Z.to_nat nReduce)%nat →
  Z.of_nat (k + length nows) < 2 ^ 62 →
  ∃ c', run_list worker_round c nows = Ret (c', imap (λ i ns, expected_reply (k + i) ns.2) nows) ∧
    progress (k + length nows) c'.
Proof.
  revert k c. induction nows as [|ns nows IH]; intros k c Hp Hle Hb; simpl in *.
  { exists c. by rewrite Nat.add_0_r. }
  destruct (progress_round k ns c Hp) as (c1 & -> & Hp1); [lia..|]. simpl.
  destruct (IH (S k) c1 Hp1) as (c2 & -> & Hp2); [lia..|]. simpl. exists c2.
  rewrite Nat.add_0_r. split; [|by rewrite Nat.add_succ_r]. do 3 f_equal.
  apply imap_ext. intros i x _. simpl. by rewrite Nat.add_succ_r.
Qed.

Lemma job_progress : progress 0 job.
Proof.
  split; [apply job_inv| |done]. intros j t [Ht|[_ Ht]]%lookup_app_Some.
  - rewrite list_lookup_imap in Ht. by apply fmap_Some in Ht as (f & _ & ->).
  - by apply list_lookup_fmap_Some in Ht as (i & -> & _).
Qed.
End job.

(** ** Properties *)

(** C13: in every state reached by calls of workers, [GetTask] returns, and does what its
    specification says: expired tasks become idle, then the job is finished, or the
    first idle map task is handed out, or the worker waits for map tasks, and only when
    all map tasks are completed the same happens with the reduce tasks. In particular
    the final [return nil] with an unset reply is never reached. *)
Theorem GetTask_refines files nReduce calls c reps now now' reply :
  run_list Coordinator_handle (MakeCoordinator files nReduce) calls = Ret (c, reps) →
  ∃ c' r, GetTask now now' c reply = Ret (c', r) ∧
    get_task_spec now' (checkTimeout now c) c' r.
Proof.
  intros Hr. apply GetTask_meets_spec.
  apply (run_inv files nReduce) in Hr as [Hi _]; [apply Hi|apply job_inv].
Qed.

(** C14: the phases of a job, over any calls that workers make, also late or repeated
    reports: tasks keep their identity, and id [k] is task [k]; a reduce task is in
    progress only if all map tasks are completed; a completed task is never changed
    again; and a report is fatal exactly for an id that is no task. *)
Theorem Coordinator_phases files nReduce calls c reps :
  run_list Coordinator_handle (MakeCoordinator files nReduce) calls = Ret (c, reps) →
  length (c_tasks c) = (length files + Z.to_nat nReduce)%nat ∧
  (∀ k t, c_tasks c !! k = Some t →
     t_TaskId t = Z.of_nat k ∧ t_NReduce t = nReduce ∧ t_FileName t = default "" (files !! k) ∧
     t_TaskType t = (if decide (k < length files)%nat then MapTask else ReduceTask) ∧
     live_status t ∧
     (t_TaskType t = ReduceTask → t_Status t = InProgress → all_completed MapTask c)) ∧
  (∀ call c' rep, Coordinator_handle c call = Ret (c', rep) → keeps_completed c c') ∧
  (∀ args, (∃ msg, ReportTask c args = Fatal msg) ↔
     ¬ (0 ≤ rta_TaskId args < Z.of_nat (length (c_tasks c)))).
Proof.
  intros Hr. apply (run_inv files nReduce) in Hr as [Hi _]; [|apply job_inv].
  split_and!.
  - by apply length_tasks.
  - intros k t Hk. destruct (inv_task _ _ _ k t Hi Hk) as (? & ? & ? & ?).
    apply list_elem_of_lookup_2 in Hk. split_and!; try done.
    + by apply (ci_live _ _ _ Hi).
    + by apply (ci_phase _ _ _ Hi).
  - intros call c' rep Hh. by eapply handle_inv.
  - intros args. unfold ReportTask. split.
    + intros [msg He] Hid. destruct (getTaskByTaskId_inv _ _ c _ Hi Hid) as (t & E & _).
      by rewrite E in He.
    + intros Hid. rewrite (getTaskByTaskId_out _ _ c _ Hi Hid). eauto.
Qed.

(** C15: one worker finishes the job. A worker that asks for a task and reports it, as
    often as there are tasks, gets the map tasks and then the reduce tasks in order,
    each once, with bucket number [i] and the number of files for the [i]-th reduce
    task; then all tasks are completed and the next request is answered with a finished
    task. ([Done] still says that the job is not done.) *)
Theorem Coordinator_finishes files nReduce (nows : list (Z * Z)) now now' :
  length nows = (length files + Z.to_nat nReduce)%nat → Z.of_nat (length nows) < 2 ^ 62 →
  ∃ c, run_list worker_round (MakeCoordinator files nReduce) nows =
         Ret (c, imap (λ i ns, expected_reply files nReduce i ns.2) nows) ∧
    (∀ t, t ∈ c_tasks c → t_Status t = Completed) ∧
    (∃ c', GetTask now now' c zero_GetTaskReply =
             Ret (c', mkGetTaskReply (NewTask FinishedTask) 0 0)) ∧
    Done c = false.
Proof.
  intros Hl Hb. destruct (progress_rounds files nReduce nows 0 (MakeCoordinator files nReduce))
    as (c & -> & Hp); [apply job_progress|lia|lia|].
  exists c. pose proof (pg_inv _ _ _ _ Hp) as Hi. simpl in Hp.
  assert (Hall : ∀ now t, t ∈ c_tasks (checkTimeout now c) → t_Status t = Completed).
  { intros nw t [k Hk]%list_elem_of_lookup_1.
    pose proof (progress_checkTimeout _ _ _ nw _ Hp) as Hp'.
    rewrite (pg_status _ _ _ _ Hp' k t Hk), decide_True; [done|].
    apply lookup_lt_Some in Hk. rewrite (length_tasks _ _ _ (pg_inv _ _ _ _ Hp')) in Hk. lia. }
  split_and!; [done| | |done].
  - intros t [k Hk]%list_elem_of_lookup_1.
    rewrite (pg_status _ _ _ _ Hp k t Hk), decide_True; [done|].
    apply lookup_lt_Some in Hk. rewrite (length_tasks _ _ _ Hi) in Hk. lia.
  - destruct (GetTask_meets_spec now now' c zero_GetTaskReply (ci_live _ _ _ Hi))
      as (c' & r & -> & Hs). exists c'. do 2 f_equal.
    destruct Hs as [Hm Hr|j u Hf|Hn Hc|j u Hm Hf|Hm Hn Hc]; [done|exfalso..].
    + destruct Hf as (Hj & [_ Hs] & _). apply list_elem_of_lookup_2 in Hj.
      by rewrite (Hall _ _ Hj) in Hs.
    + apply Hc. by intros t Ht _; apply (Hall now).
    + destruct Hf as (Hj & [_ Hs] & _). apply list_elem_of_lookup_2 in Hj.
      by rewrite (Hall _ _ Hj) in Hs.
    + apply Hc. by intros t Ht _; apply (Hall now).
Qed.

(** C40: the bucket number of a reduce task is the number of reduce tasks handed out before it,
    not a property of the task. Over any calls that workers make, the numbers handed out are 0,
    1, 2, ...; if workers report only reduce tasks that were handed out and none was handed out
    twice, they are the positions of the tasks, as the worker needs it; but a reduce task that
    has been in progress for more than ten seconds, with no idle or expired one before it, is
    handed out again by the next request, with the next number instead of its own; and once all
    reduce tasks have been handed out, some number that was handed out is out of range (at
    least [nReduce]) if and only if some task was handed out twice. *)
Theorem Coordinator_buckets files nReduce calls c reps :
  Z.of_nat (length calls) < 2 ^ 63 →
  run_list Coordinator_handle (MakeCoordinator files nReduce) calls = Ret (c, reps) →
  let nf := Z.of_nat (length files) in
  let hs := handouts reps in
  hs.*2 = seqZ 0 (Z.of_nat (length hs)) ∧
  (reports_honest files [] calls reps → NoDup hs.*1 → hs.*1 = seqZ nf (Z.of_nat (length hs))) ∧
  (∀ k t now now', c_tasks c !! k = Some t → (length files ≤ k)%nat → expired now t →
     (∀ j u, (length files ≤ j < k)%nat → c_tasks c !! j = Some u →
        t_Status u ≠ Idle ∧ ¬ expired now u) →
     ∃ c', GetTask now now' c zero_GetTaskReply =
       Ret (c', mkGetTaskReply (started now' t) (Z.of_nat (length hs)) nf)) ∧
  ((∀ id, nf ≤ id < nf + nReduce → id ∈ hs.*1) →
     (¬ NoDup hs.*1 ↔ ∃ b, b ∈ hs.*2 ∧ nReduce ≤ b)).
Proof.
  intros Hb Hr nf hs. destruct (job_handed files nReduce) as [H0 Ho].
  destruct (handed_run files nReduce [] _ calls c reps H0 Hb Hr) as [Hi Hho].
  simpl in Hi, Hho. fold hs in Hi, Hho. split_and!.
  - apply (hi_buckets _ _ _ _ Hi).
  - intros Hh. by apply (ho_order _ _ _ (Hho Ho Hh)).
  - intros k t now now'. by eapply reissue.
  - by eapply handed_repeat.
Qed.

(** The bucket number can leave the range: with one file and one reduce task, a
    reduce task that times out is handed out again with bucket 1 of 1. *)
Theorem Coordinator_bucket_out_of_range :
  ∃ calls c reps r,
    run_list Coordinator_handle (MakeCoordinator ["f"] 1) calls = Ret (c, reps ++ [RepGetTask r]) ∧
    t_TaskType (gtr_TaskInfo r) = ReduceTask ∧ t_NReduce (gtr_TaskInfo r) = 1 ∧
    gtr_BucketNum r = 1.
Proof.
  exists [CallGetTask 1 1; CallReportTask (mkReportTaskArgs 0 7); CallGetTask 2 2;
          CallGetTask (20 * 1000000000) (20 * 1000000000)].
  eexists _, [_; _; _], _. split; [vm_compute; reflexivity|]. done.
Qed.

(** ** Witnesses *)

Definition example_calls : list Call :=
  [CallGetTask 1 1; CallReportTask (mkReportTaskArgs 0 7); CallGetTask 2 2].

Lemma example_calls_run :
  ∃ c reps, run_list Coordinator_handle (MakeCoordinator ["f"] 1) example_calls = Ret (c, reps).
Proof. eexists _, _. vm_compute. reflexivity. Qed.

Example GetTask_refines_witness :
  ∃ c c' r, GetTask 3 3 c zero_GetTaskReply = Ret (c', r) ∧
    get_task_spec 3 (checkTimeout 3 c) c' r.
Proof.
  destruct example_calls_run as (c & reps & H). exists c.
  exact (GetTask_refines ["f"] 1 example_calls c reps 3 3 zero_GetTaskReply H).
Defined.

Example Coordinator_phases_witness :
  ∃ c, length (c_tasks c) = 2%nat ∧
    ∀ call c' rep, Coordinator_handle c call = Ret (c', rep) → keeps_completed c c'.
Proof.
  destruct example_calls_run as (c & reps & H). exists c.
  destruct (Coordinator_phases ["f"] 1 example_calls c reps H) as (H1 & _ & H3 & _).
  by split.
Defined.

Example Coordinator_finishes_witness :
  ∃ c, run_list worker_round (MakeCoordinator ["f"; "g"] 1) [(1, 1); (2, 2); (3, 3)] =
         Ret (c, imap (λ i ns, expected_reply ["f"; "g"] 1 i ns.2) [(1, 1); (2, 2); (3, 3)]) ∧
    (∀ t, t ∈ c_tasks c → t_Status t = Completed) ∧
    (∃ c', GetTask 4 4 c zero_GetTaskReply =
             Ret (c', mkGetTaskReply (NewTask FinishedTask) 0 0)) ∧
    Done c = false.
Proof. apply (Coordinator_finishes ["f"; "g"] 1 [(1, 1); (2, 2); (3, 3)] 4 4); reflexivity. Defined.

(** One file and two reduce tasks; the worker of the first reduce task is late. *)
Definition late_calls : list Call :=
  [CallGetTask 1 1; CallReportTask (mkReportTaskArgs 0 7); CallGetTask 2 2;
   CallGetTask 3 3].

(** Twenty seconds later it is handed out again, with bucket 2 of 0 and 1. *)
Example Coordinator_buckets_witness :
  ∃ c reps c' r, run_list Coordinator_handle (MakeCoordinator ["f"] 2) late_calls = Ret (c, reps) ∧
    handouts reps = [(1, 0); (2, 1)] ∧
    GetTask (20 * 10 ^ 9) (20 * 10 ^ 9) c zero_GetTaskReply = Ret (c', r) ∧
    t_TaskId (gtr_TaskInfo r) = 1 ∧ gtr_BucketNum r = 2 ∧
    ∃ c'' reps', run_list Coordinator_handle (MakeCoordinator ["f"] 2)
      (late_calls ++ [CallGetTask (20 * 10 ^ 9) (20 * 10 ^ 9)]) = Ret (c'', reps') ∧
      handouts reps' = [(1, 0); (2, 1); (1, 2)] ∧ ∃ b, b ∈ (handouts reps').*2 ∧ 2 ≤ b.
Proof.
  destruct (run_list Coordinator_handle (MakeCoordinator ["f"] 2) late_calls) as [[c reps]| |] eqn:Hr;
    [|discriminate Hr..].
  destruct (run_list Coordinator_handle (MakeCoordinator ["f"] 2)
    (late_calls ++ [CallGetTask (20 * 10 ^ 9) (20 * 10 ^ 9)])) as [[c'' reps']| |] eqn:Hr';
    [|vm_compute in Hr'; discriminate Hr'..].
  destruct (Coordinator_buckets ["f"] 2 late_calls c reps eq_refl Hr) as (_ & _ & Hre & _).
  destruct (Coordinator_buckets ["f"] 2
    (late_calls ++ [CallGetTask (20 * 10 ^ 9) (20 * 10 ^ 9)]) c'' reps' eq_refl Hr') as (_ & _ & _ & Hdup).
  vm_compute in Hr. injection Hr as <- <-. vm_compute in Hr'. injection Hr' as <- <-.
  destruct (Hre 1%nat (mkTask "" 2 InProgress ReduceTask 2 1) (20 * 10 ^ 9) (20 * 10 ^ 9)) as [c' E];
    [reflexivity|simpl; lia|split; [reflexivity|vm_compute; reflexivity]|simpl; lia|].
  eexists _, _, c', _. split; [reflexivity|]. split; [reflexivity|]. split; [exact E|].
  split; [reflexivity|]. split; [reflexivity|]. eexists _, _. split; [reflexivity|].
  split; [reflexivity|]. apply Hdup.
  - intros id [Hid1 Hid2]. simpl in Hid1, Hid2. simpl. rewrite !elem_of_cons. lia.
  - intros Hnd. apply NoDup_cons in Hnd as [Hnd _]. apply Hnd. simpl. right. left.
Defined.
