(* ===== verification/MapReduce.v ===== *)
(** * Sequential MapReduce ([main/mrsequential.go])

    The reference implementation that the tests compare the distributed one with: map all
    files, sort the pairs by key, reduce each run of equal keys. The map and reduce
    functions of the plugin are parameters, and so is the sorting of [sort.Sort], of which
    only what it documents is used: the order of pairs with equal keys is unspecified. *)

From S2P Require Export Prelude.

Local Open Scope Z_scope.

Record KeyValue := mkKeyValue { kv_Key : string; kv_Value : string }.

#[export] Instance KeyValue_eq_dec : EqDecision KeyValue.
Proof. solve_decision. Defined.

Abbreviation Mapf := (string → string → list KeyValue) (only parsing).
Abbreviation Reducef := (string → list string → string) (only parsing).

Definition newline : string := String (Ascii.ascii_of_nat 10) EmptyString.

(** [ByKey.Less] *)
Definition ByKey_le (a b : KeyValue) : Prop := String.le (kv_Key a) (kv_Key b).

(** What [sort.Sort(ByKey(l))] documents. *)
Definition sorts_by_key (sort_kvs : list KeyValue → list KeyValue) : Prop :=
  ∀ l, sort_kvs l ≡ₚ l ∧ StronglySorted ByKey_le (sort_kvs l).

Section mrsequential.
Context (mapf : Mapf) (reducef : Reducef) (sort_kvs : list KeyValue → list KeyValue).

(** The loop over the input files; [fs] gives the contents of the files that exist. *)
Fixpoint map_files (fs : gmap string string) (files : list string) (intermediate : list KeyValue)
    : outcome (list KeyValue) :=
  match files with
  | [] => Ret intermediate
  | filename :: files =>
      match fs !! filename with
      | None => Fatal "cannot open"
      | Some content => map_files fs files (intermediate ++ mapf filename content)
      end
  end.

(** The inner loops: the values of the pairs that follow with the key [k], and the rest. *)
Fixpoint take_group (k : string) (l : list KeyValue) : list string * list KeyValue :=
  match l with
  | [] => ([], [])
  | kv :: l' =>
      if bool_decide (kv_Key kv = k)
      then let '(vs, rest) := take_group k l' in (kv_Value kv :: vs, rest)
      else ([], l)
  end.

(** [fmt.Fprintf(ofile, "%v %v\n", key, output)] *)
Definition output_line (key output : string) : string := key +:+ " " +:+ output +:+ newline.

Fixpoint reduce_loop (fuel : nat) (intermediate : list KeyValue) (ofile : string)
    : outcome string :=
  match intermediate, fuel with
  | [], _ => Ret ofile
  | _, O => out_of_fuel
  | kv :: l, S fuel =>
      let '(vs, rest) := take_group (kv_Key kv) l in
      let output := reducef (kv_Key kv) (kv_Value kv :: vs) in
      reduce_loop fuel rest (ofile +:+ output_line (kv_Key kv) output)
  end.

(** [main], from the file names on the command line to the contents of mr-out-0. *)
Definition mrsequential (fs : gmap string string) (files : list string) : outcome string :=
  if bool_decide (length files < 1)%nat then Fatal "Usage" else
  intermediate ← map_files fs files [];
  let intermediate := sort_kvs intermediate in
  reduce_loop (length intermediate) intermediate "".

(** ** Grouping *)

(** The values that [l] has for the key [k]. *)
Definition values_of (k : string) (l : list KeyValue) : list string :=
  kv_Value <$> filter (λ kv, kv_Key kv = k) l.

Definition lines (out : string → string) (keys : list string) : string :=
  str_concat ((λ k, output_line k (out k)) <$> keys).

#[local] Instance ByKey_le_trans : Transitive ByKey_le.
Proof. intros a b c. unfold ByKey_le. apply transitivity. Qed.

Lemma take_group_sorted k l :
  StronglySorted ByKey_le l → Forall (λ kv, String.le k (kv_Key kv)) l →
  take_group k l = (values_of k l, filter (λ kv, kv_Key kv ≠ k) l).
Proof.
  unfold values_of. induction l as [|kv l IH]; intros Hs Hk; simpl; [done|].
  apply StronglySorted_inv in Hs as [Hs Hkv]. apply Forall_cons in Hk as [Hk0 Hk].
  rewrite !filter_cons. case_bool_decide as E.
  - rewrite IH by done. rewrite decide_True, decide_False by naive_solver. done.
  - rewrite decide_False, decide_True by done.
    assert (Hne : ∀ x, x ∈ l → kv_Key x ≠ k).
    { intros x Hx Ex. apply E. rewrite Forall_forall in Hkv.
      apply (anti_symm String.le); [|done]. rewrite <-Ex. by apply Hkv. }
    assert (filter (λ kv, kv_Key kv = k) l = []) as ->.
    { apply list_nil_subseteq. intros x [Hx Hin]%list_elem_of_filter. by destruct (Hne x). }
    by rewrite filter_id.
Qed.

Lemma values_of_head kv l :
  values_of (kv_Key kv) (kv :: l) = kv_Value kv :: values_of (kv_Key kv) l.
Proof. unfold values_of. by rewrite filter_cons_True. Qed.

Lemma values_of_other k j l : j ≠ k → values_of j (filter (λ kv, kv_Key kv ≠ k) l) = values_of j l.
Proof.
  intros Hne. unfold values_of. rewrite list_filter_filter_l; [done|]. intros x ->. done.
Qed.

Lemma sorted_filter (P : KeyValue → Prop) `{∀ x, Decision (P x)} l :
  StronglySorted ByKey_le l → StronglySorted ByKey_le (filter P l).
Proof.
  induction 1 as [|x l Hs IH Hx]; [constructor|]. rewrite filter_cons.
  case_decide; [|done]. constructor; [done|]. rewrite Forall_forall in *.
  intros y [_ Hy]%list_elem_of_filter. by apply Hx.
Qed.

Definition key_lt (j k : string) : Prop := String.le j k ∧ j ≠ k.

(** On sorted pairs the loop writes one line per key, in increasing order, with all its
    values, and the number of pairs is enough fuel. *)
Lemma reduce_loop_spec fuel l ofile :
  StronglySorted ByKey_le l → (length l <= fuel)%nat →
  ∃ keys, reduce_loop fuel l ofile =
      Ret (ofile +:+ lines (λ k, reducef k (values_of k l)) keys) ∧
    StronglySorted key_lt keys ∧ ∀ k, k ∈ keys ↔ k ∈ kv_Key <$> l.
Proof.
  revert l ofile. induction fuel as [|fuel IH]; intros [|kv l] ofile Hs Hf;
    csimpl in *; try lia.
  1-2: exists []; split_and!; [by rewrite str_app_nil_r|constructor|set_solver].
  apply StronglySorted_inv in Hs as [Hs Hkv].
  rewrite take_group_sorted by done.
  destruct (IH (filter (λ x, kv_Key x ≠ kv_Key kv) l)
    (ofile +:+ output_line (kv_Key kv) (reducef (kv_Key kv)
       (kv_Value kv :: values_of (kv_Key kv) l)))) as (keys & -> & Hk & Hin).
  - by apply sorted_filter.
  - pose proof (length_filter (λ x, kv_Key x ≠ kv_Key kv) l). lia.
  - assert (Hkeys : ∀ k, k ∈ keys → String.le (kv_Key kv) k ∧ k ≠ kv_Key kv).
    { intros k Hk'. apply Hin in Hk' as (x & -> & [Hne Hx]%list_elem_of_filter)%list_elem_of_fmap.
      rewrite Forall_forall in Hkv. split; [by apply Hkv|done]. }
    exists (kv_Key kv :: keys). split_and!.
    + f_equal. rewrite str_app_assoc. f_equal. unfold lines. csimpl.
      rewrite values_of_head. f_equal. f_equal. apply list_fmap_ext.
      intros i k Hk'%list_elem_of_lookup_2. destruct (Hkeys k Hk') as [_ Hne].
      rewrite values_of_other by done. unfold values_of. by rewrite filter_cons_False by done.
    + constructor; [done|]. apply Forall_forall. intros k Hk'. destruct (Hkeys k Hk').
      split; [done|congruence].
    + intros k. rewrite !elem_of_cons, Hin, !list_elem_of_fmap.
      setoid_rewrite list_elem_of_filter. split.
      * intros [->|(x & -> & _ & Hx)]; [by left|right; by exists x].
      * intros [->|(x & -> & Hx)]; [by left|].
        destruct (decide (kv_Key x = kv_Key kv)) as [->|Hne]; [by left|right; by exists x].
Qed.
End mrsequential.

(** ** Properties *)

(** The pairs that the map function yields for the files, in order. *)
Definition all_pairs (mapf : Mapf) (fs : gmap string string) (files : list string)
    : list KeyValue :=
  concat ((λ f, mapf f (default "" (fs !! f))) <$> files).

Lemma map_files_ok mapf fs files acc :
  (∀ f, f ∈ files → is_Some (fs !! f)) →
  map_files mapf fs files acc = Ret (acc ++ all_pairs mapf fs files).
Proof.
  revert acc. induction files as [|f files IH]; intros acc Hf; simpl; [by rewrite app_nil_r|].
  destruct (Hf f ltac:(left)) as [content Hc]. rewrite Hc, IH by set_solver.
  unfold all_pairs. csimpl. by rewrite Hc, app_assoc.
Qed.

Lemma map_files_missing mapf fs files acc f :
  f ∈ files → fs !! f = None → map_files mapf fs files acc = Fatal "cannot open".
Proof.
  revert acc. induction files as [|g files IH]; intros acc Hin Hf; simpl; [set_solver|].
  apply elem_of_cons in Hin as [<-|Hin]; [by rewrite Hf|].
  destruct (fs !! g); [by apply IH|done].
Qed.

#[export] Instance values_of_perm k : Proper ((≡ₚ) ==> (≡ₚ)) (values_of k).
Proof. intros l1 l2 Hp. unfold values_of. by rewrite Hp. Qed.

(** A run on files that are all there. *)
Lemma mrsequential_run mapf reducef sort_kvs fs files :
  sorts_by_key sort_kvs → files ≠ [] → (∀ f, f ∈ files → is_Some (fs !! f)) →
  ∃ keys vals, mrsequential mapf reducef sort_kvs fs files =
      Ret (lines (λ k, reducef k (vals k)) keys) ∧
    StronglySorted key_lt keys ∧
    (∀ k, k ∈ keys ↔ ∃ v, mkKeyValue k v ∈ all_pairs mapf fs files) ∧
    ∀ k, vals k ≡ₚ values_of k (all_pairs mapf fs files).
Proof.
  intros Hsort Hne Hf. unfold mrsequential.
  rewrite bool_decide_eq_false_2 by (by destruct files; simpl; [|lia]).
  rewrite map_files_ok by done. simpl. set (kvs := all_pairs mapf fs files).
  destruct (Hsort kvs) as [Hp Hs].
  destruct (reduce_loop_spec reducef (length (sort_kvs kvs)) (sort_kvs kvs) "" Hs)
    as (keys & -> & Hk & Hin); [done|].
  exists keys, (λ k, values_of k (sort_kvs kvs)). split_and!; [done|done| |by intros k; rewrite Hp].
  intros k. rewrite Hin, Hp, list_elem_of_fmap. split.
  - intros ([k' v] & -> & ?). by exists v.
  - intros [v ?]. by exists (mkKeyValue k v).
Qed.

(** C16: sequential MapReduce writes, for each key that some input file yields, in
    increasing order and once, the line "key output", where the output is the reduce
    function applied to exactly the values that all files yield for the key, in some
    order; it fails exactly when there is no file name or some file is missing. The
    loops terminate. *)
Theorem mrsequential_correct mapf reducef sort_kvs fs files :
  sorts_by_key sort_kvs →
  (files ≠ [] → (∀ f, f ∈ files → is_Some (fs !! f)) →
   ∃ keys vals, mrsequential mapf reducef sort_kvs fs files =
       Ret (lines (λ k, reducef k (vals k)) keys) ∧
     StronglySorted key_lt keys ∧
     (∀ k, k ∈ keys ↔ ∃ v, mkKeyValue k v ∈ all_pairs mapf fs files) ∧
     ∀ k, vals k ≡ₚ values_of k (all_pairs mapf fs files)) ∧
  ((files = [] ∨ ∃ f, f ∈ files ∧ fs !! f = None) →
   ∃ msg, mrsequential mapf reducef sort_kvs fs files = Fatal msg).
Proof.
  intros Hsort. split; [by apply mrsequential_run|]. unfold mrsequential.
  intros [->|(f & Hin & Hf)]; [by eexists|].
  rewrite bool_decide_eq_false_2 by (destruct files; [set_solver|simpl; lia]).
  rewrite (map_files_missing mapf fs files [] f Hin Hf). by eexists.
Qed.

(** ** A sorting function with the documented behaviour *)

#[export] Instance ByKey_le_dec a b : Decision (ByKey_le a b).
Proof. unfold ByKey_le. apply _. Defined.

#[export] Instance ByKey_le_total : Total ByKey_le.
Proof. intros a b. unfold ByKey_le. apply total, _. Qed.

#[export] Instance ByKey_le_trans' : Transitive ByKey_le.
Proof. intros a b c. unfold ByKey_le. apply transitivity. Qed.

Lemma merge_sort_sorts : sorts_by_key (merge_sort ByKey_le).
Proof. intros l. split; [apply merge_sort_Permutation|]. apply (StronglySorted_merge_sort _). Qed.

(** ** Witnesses *)

Example mrsequential_correct_witness :
  let mapf := λ f c, [mkKeyValue c f; mkKeyValue "x" f] in
  let reducef := λ (k : string) vs, str_concat vs in
  let fs : gmap string string := {["a" := "one"; "b" := "two"]} in
  ∃ keys vals, mrsequential mapf reducef (merge_sort ByKey_le) fs ["a"; "b"] =
      Ret (lines (λ k, reducef k (vals k)) keys) ∧
    StronglySorted key_lt keys ∧
    (∀ k, k ∈ keys ↔ ∃ v, mkKeyValue k v ∈ all_pairs mapf fs ["a"; "b"]) ∧
    ∀ k, vals k ≡ₚ values_of k (all_pairs mapf fs ["a"; "b"]).
Proof.
  intros mapf reducef fs.
  destruct (mrsequential_correct mapf reducef (merge_sort ByKey_le) fs ["a"; "b"]
    merge_sort_sorts) as [H _].
  apply H; [discriminate|].
  intros f [->|[->|[]%not_elem_of_nil]%elem_of_cons]%elem_of_cons; vm_compute; eauto.
Defined.
