(* ===== verification/MrApps.v ===== *)
(** * MapReduce applications ([mrapps/])

    The map and reduce functions of the plugins wc, indexer, crash, nocrash, early_exit
    and jobcount. A Go string is its bytes; a rune is represented by the bytes it is
    decoded from, and [is_letter] stands for [unicode.IsLetter]. *)

From stdpp Require Import pretty.
From S2P Require Export MapReduce.

Local Open Scope Z_scope.

(** ** Decoding UTF-8, as [range] over a string does *)

Definition byte_in (lo hi : Z) (c : Ascii.ascii) : bool :=
  (lo <=? Z.of_N (Ascii.N_of_ascii c)) && (Z.of_N (Ascii.N_of_ascii c) <=? hi).

(** The bounds of the second byte, and the number of bytes, for a lead byte. *)
Definition lead_byte (c : Ascii.ascii) : option (nat * Z * Z) :=
  if byte_in 0xC2 0xDF c then Some (2%nat, 0x80, 0xBF)
  else if byte_in 0xE0 0xE0 c then Some (3%nat, 0xA0, 0xBF)
  else if byte_in 0xED 0xED c then Some (3%nat, 0x80, 0x9F)
  else if byte_in 0xE1 0xEF c then Some (3%nat, 0x80, 0xBF)
  else if byte_in 0xF0 0xF0 c then Some (4%nat, 0x90, 0xBF)
  else if byte_in 0xF1 0xF3 c then Some (4%nat, 0x80, 0xBF)
  else if byte_in 0xF4 0xF4 c then Some (4%nat, 0x80, 0x8F)
  else None.

(** The number of bytes of the first rune: 1 for ASCII and for an invalid encoding. *)
Definition rune_width (s : list Ascii.ascii) : nat :=
  match s with
  | [] => 0
  | c :: s =>
      match lead_byte c with
      | None => 1
      | Some (n, lo, hi) =>
          match s with
          | c1 :: s1 =>
              if byte_in lo hi c1 then
                if (length (take (n - 2) s1) =? n - 2)%nat &&
                   forallb (byte_in 0x80 0xBF) (take (n - 2) s1)
                then n else 1
              else 1
          | [] => 1
          end
      end
  end%nat.

Fixpoint runes_from (fuel : nat) (s : list Ascii.ascii) : list (list Ascii.ascii) :=
  match s, fuel with
  | [], _ => []
  | _, O => []
  | _, S fuel => take (rune_width s) s :: runes_from fuel (drop (rune_width s) s)
  end.

Definition runes (s : list Ascii.ascii) : list (list Ascii.ascii) := runes_from (length s) s.

Lemma rune_width_bounds c s : (1 <= rune_width (c :: s) <= 4)%nat.
Proof.
  unfold rune_width, lead_byte. repeat (case_match; simplify_eq/=); lia.
Qed.

(** Decoding loses nothing, and the length is enough fuel. *)
Lemma runes_concat s : concat (runes s) = s.
Proof.
  unfold runes. assert (H : ∀ fuel s, (length s <= fuel)%nat → concat (runes_from fuel s) = s).
  { induction fuel as [|fuel IH]; intros [|c t] Hl; simpl in *; try done; [lia|].
    pose proof (rune_width_bounds c t) as Hw. simpl in Hw.
    rewrite IH by (rewrite length_drop; simpl; lia).
    exact (take_drop _ (c :: t)). }
  by apply H.
Qed.

Lemma runes_bounds s r : r ∈ runes s → (1 <= length r <= 4)%nat.
Proof.
  unfold runes. generalize (length s). intros fuel. revert s.
  induction fuel as [|fuel IH]; intros [|c t]; cbn [runes_from]; [set_solver..|].
  pose proof (rune_width_bounds c t) as Hw. intros [->|Hr]%elem_of_cons; [|by eapply IH].
  rewrite length_take. cbn [length]. lia.
Qed.

Lemma string_of_concat (l : list (list Ascii.ascii)) :
  String.string_of_list_ascii (concat l) = str_concat (String.string_of_list_ascii <$> l).
Proof.
  induction l as [|x l IH]; [done|]. csimpl. rewrite <-IH. clear IH.
  induction x as [|c x IH]; [done|]. exact (f_equal (String c) IH).
Qed.

(** ** [strings.FieldsFunc] *)

Section fields.
Context (sep : list Ascii.ascii → bool).

(** [cur] is the current field, if one has begun. *)
Fixpoint FieldsFunc_from (cur : option (list Ascii.ascii)) (rs : list (list Ascii.ascii))
    : list (list Ascii.ascii) :=
  match rs with
  | [] => match cur with Some w => [w] | None => [] end
  | r :: rs =>
      if sep r
      then match cur with
           | Some w => w :: FieldsFunc_from None rs
           | None => FieldsFunc_from None rs
           end
      else FieldsFunc_from (Some (default [] cur ++ r)) rs
  end.

Definition FieldsFunc (s : string) : list string :=
  String.string_of_list_ascii <$> FieldsFunc_from None (runes (String.list_ascii_of_string s)).

(** Together the fields are the runes that are not separators. *)
Lemma FieldsFunc_from_concat cur rs :
  concat (FieldsFunc_from cur rs) = default [] cur ++ concat (filter (λ r, sep r = false) rs).
Proof.
  revert cur. induction rs as [|r rs IH]; intros cur; simpl.
  - destruct cur; simpl; by rewrite ?app_nil_r.
  - rewrite filter_cons. destruct (sep r) eqn:E.
    + rewrite decide_False by done. destruct cur; simpl; by rewrite IH.
    + rewrite decide_True by done. rewrite IH. simpl. by rewrite app_assoc.
Qed.

Lemma FieldsFunc_from_nonempty cur rs w :
  (∀ r, r ∈ rs → r ≠ []) → cur ≠ Some [] → w ∈ FieldsFunc_from cur rs → w ≠ [].
Proof.
  revert cur. induction rs as [|r rs IH]; intros cur Hr Hc; simpl.
  - destruct cur; [|set_solver]. intros ->%list_elem_of_singleton. congruence.
  - destruct (sep r).
    + destruct cur as [v|]; [intros [->|?]%elem_of_cons; [congruence|]|intros ?];
        eapply (IH None); set_solver.
    + apply IH; [set_solver|]. intros [= [_ ?]%app_nil]. by apply (Hr r ltac:(left)).
Qed.
End fields.

Definition Itoa (z : Z) : string := pretty z.

(** ** wc *)

Definition wc_Map (is_letter : list Ascii.ascii → bool) : Mapf := λ filename contents,
  (λ w, mkKeyValue w "1") <$> FieldsFunc (λ r, negb (is_letter r)) contents.

Definition wc_Reduce : Reducef := λ key values, Itoa (Z.of_nat (length values)).

(** ** indexer *)

(** The words of the file without repetition; [order] is the order in which [range] yields
    the keys of the map, a function of the set. *)
Definition indexer_Map (is_letter : list Ascii.ascii → bool) (order : gset string → list string)
    : Mapf := λ document value,
  let m : gset string := list_to_set (FieldsFunc (λ r, negb (is_letter r)) value) in
  (λ w, mkKeyValue w document) <$> order m.

Definition indexer_Reduce : Reducef := λ key values,
  Itoa (Z.of_nat (length values)) +:+ " " +:+ String.concat "," (merge_sort String.le values).

(** ** crash and nocrash *)

(** The random number is below 1000 and the result tells whether the process exits;
    crash may also sleep, nocrash never exits. *)
Definition crash_maybeCrash (rr : Z) : bool := rr <? 330.
Definition nocrash_maybeCrash (rr : Z) : bool := false && (rr <? 500).

Definition nocrash_Map : Mapf := λ filename contents,
  [mkKeyValue "a" filename; mkKeyValue "b" (Itoa (Z.of_nat (String.length filename)));
   mkKeyValue "c" (Itoa (Z.of_nat (String.length contents))); mkKeyValue "d" "xyzzy"].

Definition nocrash_Reduce : Reducef := λ key values,
  String.concat " " (merge_sort String.le values).

(** The same functions, when the process survives. *)
Definition crash_Map (rr : Z) (filename contents : string) : outcome (list KeyValue) :=
  if crash_maybeCrash rr then Fatal "exit status 1" else Ret (nocrash_Map filename contents).

Definition crash_Reduce (rr : Z) (key : string) (values : list string) : outcome string :=
  if crash_maybeCrash rr then Fatal "exit status 1" else Ret (nocrash_Reduce key values).

(** ** early_exit *)

Definition early_exit_Map : Mapf := λ filename contents, [mkKeyValue filename "1"].

(** Keys with a certain substring also sleep for three seconds. *)
Definition early_exit_Reduce : Reducef := λ key values, Itoa (Z.of_nat (length values)).

(** ** jobcount *)

(** The global [count] of a worker process and the names in the working directory. *)
Definition jobcount_Map (pid : Z) (st : Z * gset string) (filename contents : string)
    : (Z * gset string) * list KeyValue :=
  let '(count, dir) := st in
  let f := "mr-worker-jobcount-" +:+ Itoa pid +:+ "-" +:+ Itoa count in
  ((i64_wrap (count + 1), {[f]} ∪ dir), [mkKeyValue "a" "x"]).

Definition jobcount_Reduce (dir : gset string) (key : string) (values : list string) : string :=
  Itoa (Z.of_nat (length (filter (λ f, String.prefix "mr-worker-jobcount" f = true)
                            (elements dir)))).

(** ** Properties *)

(** All words of the input files, with repetitions. *)
Definition all_words (is_letter : list Ascii.ascii → bool) (fs : gmap string string)
    (files : list string) : list string :=
  concat ((λ f, FieldsFunc (λ r, negb (is_letter r)) (default "" (fs !! f))) <$> files).

Lemma wc_pairs is_letter fs files :
  all_pairs (wc_Map is_letter) fs files =
    (λ w, mkKeyValue w "1") <$> all_words is_letter fs files.
Proof.
  unfold all_pairs, all_words, wc_Map. induction files as [|f files IH]; [done|].
  csimpl. by rewrite IH, fmap_app.
Qed.

Lemma values_of_wc w ws :
  Z.of_nat (length (values_of w ((λ w, mkKeyValue w "1") <$> ws))) = occ w ws.
Proof.
  unfold values_of. rewrite length_fmap. induction ws as [|x ws IH]; [done|].
  rewrite fmap_cons, filter_cons, occ_cons, <-IH. simpl. case_decide; simpl; lia.
Qed.

(** C17: the word count is right: whatever characters count as letters and whatever sort
    the library uses, sequential MapReduce with the wc plugin writes one line per word of
    the input files, in increasing order, with the number of its occurrences in all the
    files together. *)
Theorem wc_correct is_letter sort_kvs fs files :
  sorts_by_key sort_kvs → files ≠ [] → (∀ f, f ∈ files → is_Some (fs !! f)) →
  ∃ words, mrsequential (wc_Map is_letter) wc_Reduce sort_kvs fs files =
      Ret (lines (λ w, Itoa (occ w (all_words is_letter fs files))) words) ∧
    StronglySorted key_lt words ∧
    ∀ w, w ∈ words ↔ w ∈ all_words is_letter fs files.
Proof.
  intros Hsort Hne Hf.
  destruct (mrsequential_run (wc_Map is_letter) wc_Reduce sort_kvs fs files Hsort Hne Hf)
    as (keys & vals & -> & Hk & Hin & Hv).
  exists keys. rewrite wc_pairs in Hin, Hv. split_and!; [|done|].
  - f_equal. unfold lines. f_equal. apply list_fmap_ext. intros _ w _.
    unfold wc_Reduce. by rewrite <-values_of_wc, (Permutation_length (Hv w)).
  - intros w. rewrite Hin. setoid_rewrite list_elem_of_fmap. split.
    + intros (v & x & Heq & ?). by simplify_eq.
    + intros. by exists "1", w.
Qed.

(** Splitting into words loses no letter: the words of a text are not empty, and put
    together they are the letters of the text in order, as decoded from UTF-8; and
    decoding itself loses no byte. *)
Theorem words_are_letters is_letter (contents : string) :
  let rs := runes (String.list_ascii_of_string contents) in
  let words := FieldsFunc (λ r, negb (is_letter r)) contents in
  (∀ w, w ∈ words → w ≠ "") ∧
  str_concat words =
    String.string_of_list_ascii (concat (filter (λ r, is_letter r = true) rs)) ∧
  String.string_of_list_ascii (concat rs) = contents ∧
  ∀ r, r ∈ rs → (1 <= length r <= 4)%nat.
Proof.
  intros rs words. split_and!.
  - intros w (l & -> & Hl)%list_elem_of_fmap Hw.
    apply FieldsFunc_from_nonempty in Hl; [by destruct l| |done].
    intros r Hr%runes_bounds ->. simpl in Hr. lia.
  - unfold words, FieldsFunc. rewrite <-string_of_concat, FieldsFunc_from_concat. simpl.
    do 2 f_equal. apply list_filter_iff. intros r. by destruct (is_letter r).
  - unfold rs. by rewrite runes_concat, String.string_of_list_ascii_of_string.
  - apply runes_bounds.
Qed.

Lemma merge_sort_perm (l k : list string) :
  l ≡ₚ k → merge_sort String.le l = merge_sort String.le k.
Proof.
  intros Hp. apply (StronglySorted_unique String.le);
    [apply (StronglySorted_merge_sort _)..|by rewrite !merge_sort_Permutation].
Qed.

Lemma values_of_app w l k : values_of w (l ++ k) = values_of w l ++ values_of w k.
Proof. unfold values_of. by rewrite filter_app, fmap_app. Qed.

(** The pairs of one document have each of its words once. *)
Lemma values_of_document w doc ws :
  NoDup ws → values_of w ((λ w, mkKeyValue w doc) <$> ws) = if decide (w ∈ ws) then [doc] else [].
Proof.
  unfold values_of. induction 1 as [|x ws Hx Hnd IH]; [done|].
  rewrite fmap_cons, filter_cons. simpl. destruct (decide (x = w)) as [->|Hne].
  - rewrite (decide_True (P := w ∈ w :: ws)) by by left. csimpl. rewrite IH.
    by rewrite decide_False.
  - rewrite IH. repeat case_decide; set_solver.
Qed.

Lemma values_of_indexer is_letter order fs files w :
  (∀ m, NoDup (order m) ∧ ∀ w, w ∈ order m ↔ w ∈ m) →
  values_of w (all_pairs (indexer_Map is_letter order) fs files) =
    filter (λ f, w ∈ FieldsFunc (λ r, negb (is_letter r)) (default "" (fs !! f))) files.
Proof.
  intros Ho. unfold all_pairs, indexer_Map. induction files as [|f files IH]; [done|].
  csimpl. rewrite values_of_app, IH. destruct (Ho (list_to_set
    (FieldsFunc (λ r, negb (is_letter r)) (default "" (fs !! f))))) as [Hnd Hin].
  rewrite values_of_document by done. rewrite filter_cons.
  repeat case_decide; try done; rewrite Hin, elem_of_list_to_set in *; done.
Qed.

(** The index is right: with the indexer plugin every line is a word that occurs in
    some file, in increasing order, with the number and the sorted list of the names of
    the files that contain it, as often as they are given. *)
Theorem indexer_correct is_letter order sort_kvs fs files :
  (∀ m, NoDup (order m) ∧ ∀ w, w ∈ order m ↔ w ∈ m) →
  sorts_by_key sort_kvs → files ≠ [] → (∀ f, f ∈ files → is_Some (fs !! f)) →
  let words_of f := FieldsFunc (λ r, negb (is_letter r)) (default "" (fs !! f)) in
  let docs w := filter (λ f, w ∈ words_of f) files in
  ∃ words, mrsequential (indexer_Map is_letter order) indexer_Reduce sort_kvs fs files =
      Ret (lines (λ w, Itoa (Z.of_nat (length (docs w))) +:+ " " +:+
                       String.concat "," (merge_sort String.le (docs w))) words) ∧
    StronglySorted key_lt words ∧
    ∀ w, w ∈ words ↔ docs w ≠ [].
Proof.
  intros Ho Hsort Hne Hf words_of docs.
  destruct (mrsequential_run (indexer_Map is_letter order) indexer_Reduce sort_kvs fs files
    Hsort Hne Hf) as (keys & vals & -> & Hk & Hin & Hv).
  assert (Hd : ∀ w, vals w ≡ₚ docs w) by (intros w; by rewrite Hv, values_of_indexer).
  exists keys. split_and!; [|done|].
  - f_equal. unfold lines. f_equal. apply list_fmap_ext. intros _ w _. unfold indexer_Reduce.
    by rewrite (Permutation_length (Hd w)), (merge_sort_perm _ _ (Hd w)).
  - intros w. rewrite Hin. unfold docs, words_of. rewrite <-(values_of_indexer _ order) by done.
    unfold values_of. split.
    + intros [v Hw] Hnil%fmap_nil_inv. assert (Hel : mkKeyValue w v ∈ filter (λ kv, kv_Key kv = w)
        (all_pairs (indexer_Map is_letter order) fs files)) by by apply list_elem_of_filter.
      rewrite Hnil in Hel. set_solver.
    + destruct (filter _ _) as [|[k v] l] eqn:El; [done|]. intros _. exists v.
      assert (Hel : mkKeyValue k v ∈ filter (λ kv, kv_Key kv = w)
        (all_pairs (indexer_Map is_letter order) fs files)) by (rewrite El; left).
      apply list_elem_of_filter in Hel as [Heq ?]. simpl in Heq. by subst.
Qed.

(** ** Witnesses *)

(** ASCII letters. *)
Definition ascii_letter (r : list Ascii.ascii) : bool :=
  match r with [c] => byte_in 65 90 c || byte_in 97 122 c | _ => false end.

Definition example_fs : gmap string string := {["f" := "to be or not to be"; "g" := "to do"]}.

Lemma example_fs_files f : f ∈ ["f"; "g"] → is_Some (example_fs !! f).
Proof. intros [->|[->|[]%not_elem_of_nil]%elem_of_cons]%elem_of_cons; vm_compute; eauto. Qed.

Example wc_correct_witness :
  ∃ words, mrsequential (wc_Map ascii_letter) wc_Reduce (merge_sort ByKey_le) example_fs ["f"; "g"] =
      Ret (lines (λ w, Itoa (occ w (all_words ascii_letter example_fs ["f"; "g"]))) words) ∧
    StronglySorted key_lt words ∧
    ∀ w, w ∈ words ↔ w ∈ all_words ascii_letter example_fs ["f"; "g"].
Proof.
  apply (wc_correct ascii_letter (merge_sort ByKey_le) example_fs ["f"; "g"]).
  - apply merge_sort_sorts.
  - discriminate.
  - apply example_fs_files.
Defined.

(** The output itself, on this input. *)
Example wc_output :
  mrsequential (wc_Map ascii_letter) wc_Reduce (merge_sort ByKey_le) example_fs ["f"; "g"] =
    Ret ("be 2" +:+ newline +:+ "do 1" +:+ newline +:+ "not 1" +:+ newline +:+ "or 1" +:+
         newline +:+ "to 3" +:+ newline).
Proof. vm_compute. reflexivity. Qed.

Lemma elements_order (m : gset string) : NoDup (elements m) ∧ ∀ w, w ∈ elements m ↔ w ∈ m.
Proof. split; [apply NoDup_elements|]. intros w. apply elem_of_elements. Qed.

Example indexer_correct_witness :
  let words_of f := FieldsFunc (λ r, negb (ascii_letter r)) (default "" (example_fs !! f)) in
  let docs w := filter (λ f, w ∈ words_of f) ["f"; "g"] in
  ∃ words, mrsequential (indexer_Map ascii_letter elements) indexer_Reduce (merge_sort ByKey_le)
        example_fs ["f"; "g"] =
      Ret (lines (λ w, Itoa (Z.of_nat (length (docs w))) +:+ " " +:+
                       String.concat "," (merge_sort String.le (docs w))) words) ∧
    StronglySorted key_lt words ∧
    ∀ w, w ∈ words ↔ docs w ≠ [].
Proof.
  apply (indexer_correct ascii_letter elements (merge_sort ByKey_le) example_fs ["f"; "g"]).
  - apply elements_order.
  - apply merge_sort_sorts.
  - discriminate.
  - apply example_fs_files.
Defined.
