(* ===== verification/Worker.v ===== *)
(** * The MapReduce worker ([mr/worker.go])

    Map and reduce tasks over a file system given as a map from names to contents. Parts
    of the Go library that the worker uses are parameters where their result is not
    determined: the directory and the random suffix of [os.CreateTemp], the JSON decoder and
    the order of [sort.Slice]. A file of the current directory has its bare name in the map. *)

From stdpp Require Import pretty.
From S2P Require Export Fnv Coordinator MapReduce.
From S2P Require Import Strconv.

Local Open Scope Z_scope.

(** ** Map tasks *)

(** [intermediate[bucketNum] = append(intermediate[bucketNum], kv)] *)
Definition add_to_bucket (NReduce : Z) (intermediate : list (list KeyValue)) (kv : KeyValue)
    : outcome (list (list KeyValue)) :=
  let hashedKey := ihash (kv_Key kv) in
  if bool_decide (NReduce = 0) then Panic "integer divide by zero" else
  let bucketNum := Z.rem hashedKey NReduce in
  match (if 0 <=? bucketNum then intermediate !! Z.to_nat bucketNum else None) with
  | None => Panic "index out of range"
  | Some b => Ret (<[Z.to_nat bucketNum := b ++ [kv]]> intermediate)
  end.

Fixpoint fill_buckets (NReduce : Z) (intermediate : list (list KeyValue)) (kvs : list KeyValue)
    : outcome (list (list KeyValue)) :=
  match kvs with
  | [] => Ret intermediate
  | kv :: kvs =>
      intermediate ← add_to_bucket NReduce intermediate kv;
      fill_buckets NReduce intermediate kvs
  end.

Definition partition_kvs (NReduce : Z) (kvs : list KeyValue) : outcome (list (list KeyValue)) :=
  if NReduce <? 0 then Panic "makeslice: len out of range"
  else fill_buckets NReduce (replicate (Z.to_nat NReduce) []) kvs.

Definition bucket_name (i b : Z) : string := "mr-" +:+ pretty i +:+ "-" +:+ pretty b.

(** [for kv := range intermediate[i] { encoder.Encode(&kv) }]: [kv] is the index, encoded as
    a JSON number on a line of its own. *)
Definition encode_bucket (b : list KeyValue) : string :=
  str_concat ((λ j, pretty (Z.of_nat j) +:+ newline) <$> seq 0 (length b)).

(** [os.CreateTemp] with an empty directory: [tmpdir] is [os.TempDir] up to its last separator,
    and [random] is appended to the pattern. *)
Definition CreateTemp (tmpdir pattern random : string) : string := tmpdir +:+ "/" +:+ pattern +:+ random.

(** [suffix i] is the random part of the [i]-th name. The result is the list of the files
    written. *)
Definition doMap (tmpdir : string) (mapf : Mapf) (fs : gmap string string) (suffix : nat → string)
    (taskInfo : Task) : outcome (list (string * string)) :=
  match fs !! t_FileName taskInfo with
  | None => Fatal "err opening file in map"
  | Some content =>
      intermediate ← partition_kvs (t_NReduce taskInfo) (mapf (t_FileName taskInfo) content);
      Ret (imap (λ i b, (CreateTemp tmpdir (bucket_name (t_TaskId taskInfo) (Z.of_nat i)) (suffix i),
                         encode_bucket b)) intermediate)
  end.

(** ** Reduce tasks *)

Section reduce.
Context (decode : string → list KeyValue) (sort_kvs : list KeyValue → list KeyValue)
  (reducef : Reducef) (fs : gmap string string).

(** The pairs decoded from the files of the bucket; a file that cannot be opened gives none. *)
Definition read_bucket (bucketNum mapNum : Z) : list KeyValue :=
  concat ((λ i, match fs !! bucket_name i bucketNum with
                | Some content => decode content
                | None => []
                end) <$> seqZ 0 mapNum).

Definition kv_at (l : list KeyValue) (i : Z) : outcome KeyValue :=
  match (if 0 <=? i then l !! Z.to_nat i else None) with
  | Some kv => Ret kv
  | None => Panic "index out of range"
  end.

(** The grouping loop: [res] collects what is written to the result files. *)
Fixpoint group_loop (fuel : nat) (allKV : list KeyValue) (i start end_ : Z) (res : list string)
    : outcome (list string) :=
  match fuel with
  | O => out_of_fuel
  | S fuel =>
      if Z.of_nat (length allKV) <=? i then Ret res else
      kv ← kv_at allKV i;
      prev ← kv_at allKV (i - 1);
      if bool_decide (kv_Key kv = kv_Key prev)
      then group_loop fuel allKV (i + 1) start (end_ + 1) res
      else
        let temp := kv_Value <$> take (Z.to_nat (end_ - start)) (drop (Z.to_nat start) allKV) in
        group_loop fuel allKV (i + 1) start end_ (res ++ [reducef (kv_Key prev) temp])
  end.

Definition doReduce (taskInfo : Task) (bucketNum mapNum : Z) : outcome (list string) :=
  let allKV := sort_kvs (read_bucket bucketNum mapNum) in
  group_loop (S (length allKV)) allKV 0 0 0 [].
End reduce.

(** ** Talking to the coordinator *)

(** [net/rpc] names a method "Service.Method" and splits at the last dot; a name without
    a dot is ill-formed. *)
Definition service_method (rpcName : string) : option (string * string) := split_last_dot rpcName.

Definition method_name (req : Call) : string :=
  match req with CallGetTask _ _ => "GetTask" | CallReportTask _ => "ReportTask" end.

(** [call], when the coordinator can be dialled: [None] is an error, and then the reply
    stays as it was. *)
Definition call (rpcName : string) (c : Coordinator) (req : Call)
    : outcome (Coordinator * option CallReply) :=
  if bool_decide (service_method rpcName = Some ("Coordinator", method_name req))
  then '(c, rep) ← Coordinator_handle c req; Ret (c, Some rep)
  else Ret (c, None).

Definition getTaskRPC (c : Coordinator) (now now' : Z) : outcome (Coordinator * GetTaskReply) :=
  '(c, rep) ← call "GetTask" c (CallGetTask now now');
  Ret (c, match rep with Some (RepGetTask r) => r | _ => zero_GetTaskReply end).

Definition reportTaskDone (c : Coordinator) (id taskId : Z) : outcome Coordinator :=
  '(c, _) ← call "ReportTask" c (CallReportTask (mkReportTaskArgs taskId id));
  Ret c.

(** ** The worker's loop *)

Inductive WorkerAction :=
  | DoMap (taskInfo : Task)
  | DoReduce (taskInfo : Task) (bucketNum mapNum : Z)
  | Sleep500ms
  | Spin.

(** One iteration of the loop; [None] leaves it. The reply is not changed in the loop. *)
Definition Worker_iteration (reply : GetTaskReply) : option WorkerAction :=
  match t_TaskType (gtr_TaskInfo reply) with
  | MapTask => Some (DoMap (gtr_TaskInfo reply))
  | ReduceTask => Some (DoReduce (gtr_TaskInfo reply) (gtr_BucketNum reply) (gtr_MapNum reply))
  | WaitTask => Some Sleep500ms
  | FinishedTask => None
  | NoTask => Some Spin
  end.

(** The actions of the first [n] iterations, and whether the worker has returned. *)
Fixpoint Worker_loop (n : nat) (reply : GetTaskReply) : list WorkerAction * bool :=
  match n with
  | O => ([], false)
  | S n =>
      match Worker_iteration reply with
      | None => ([], true)
      | Some a => let '(l, done) := Worker_loop n reply in (a :: l, done)
      end
  end.

Definition Worker (n : nat) (c : Coordinator) (now now' : Z)
    : outcome (Coordinator * (list WorkerAction * bool)) :=
  '(c, reply) ← getTaskRPC c now now';
  Ret (c, Worker_loop n reply).

(** ** Partitioning *)

(** The bucket of a key. *)
Definition key_bucket (NReduce : Z) (kv : KeyValue) : nat := Z.to_nat (Z.rem (ihash (kv_Key kv)) NReduce).

Lemma ihash_nonneg k : 0 ≤ ihash k.
Proof. rewrite ihash_mod. by apply Z.mod_pos_bound. Qed.

Lemma key_bucket_lt n kv : 0 < n → (key_bucket n kv < Z.to_nat n)%nat.
Proof.
  intros Hn. unfold key_bucket. pose proof (Z.rem_bound_pos (ihash (kv_Key kv)) n (ihash_nonneg _) Hn).
  lia.
Qed.

Lemma fill_buckets_spec n kvs bs :
  0 < n → length bs = Z.to_nat n →
  ∃ bs', fill_buckets n bs kvs = Ret bs' ∧ length bs' = Z.to_nat n ∧
    ∀ i b, bs !! i = Some b → bs' !! i = Some (b ++ filter (λ kv, key_bucket n kv = i) kvs).
Proof.
  intros Hn. revert bs. induction kvs as [|kv kvs IH]; intros bs Hl; simpl.
  { exists bs. split_and!; [done..|]. intros i b Hb. by rewrite filter_nil, app_nil_r. }
  pose proof (key_bucket_lt n kv Hn) as Hk.
  assert (is_Some (bs !! key_bucket n kv)) as [b0 Hb0] by (apply lookup_lt_is_Some; lia).
  assert (Hadd : add_to_bucket n bs kv = Ret (<[key_bucket n kv := b0 ++ [kv]]> bs)).
  { unfold add_to_bucket. rewrite bool_decide_eq_false_2 by lia.
    pose proof (Z.rem_nonneg (ihash (kv_Key kv)) n ltac:(lia) (ihash_nonneg _)).
    rewrite (proj2 (Z.leb_le _ _)) by done. fold (key_bucket n kv). by rewrite Hb0. }
  rewrite Hadd. simpl.
  destruct (IH (<[key_bucket n kv := b0 ++ [kv]]> bs)) as (bs' & -> & Hl' & Hb');
    [by rewrite length_insert|].
  exists bs'. split_and!; [done..|]. intros i b Hb. rewrite filter_cons.
  destruct (decide (key_bucket n kv = i)) as [<-|Hne].
  - rewrite (Hb' (key_bucket n kv) (b0 ++ [kv])).
    + simplify_eq. by rewrite <-app_assoc.
    + by apply list_lookup_insert_eq, lookup_lt_is_Some_1.
  - apply Hb'. by rewrite list_lookup_insert_ne.
Qed.

Lemma group_loop_panics reducef fuel kv l :
  group_loop reducef (S fuel) (kv :: l) 0 0 0 [] = Panic "index out of range".
Proof. done. Qed.

Lemma Worker_loop_spec n reply :
  match Worker_iteration reply with
  | Some a => Worker_loop n reply = (replicate n a, false)
  | None => Worker_loop (S n) reply = ([], true)
  end.
Proof.
  destruct (Worker_iteration reply) as [a|] eqn:E; [|simpl; by rewrite E].
  induction n as [|n IH]; [done|]. simpl. by rewrite E, IH.
Qed.

Lemma fill_buckets_keys n bs1 bs2 kvs1 kvs2 :
  length <$> bs1 = length <$> bs2 → kv_Key <$> kvs1 = kv_Key <$> kvs2 →
  match fill_buckets n bs1 kvs1, fill_buckets n bs2 kvs2 with
  | Ret r1, Ret r2 => length <$> r1 = length <$> r2
  | Panic e1, Panic e2 => e1 = e2
  | Fatal e1, Fatal e2 => e1 = e2
  | _, _ => False
  end.
Proof.
  revert bs1 bs2 kvs2. induction kvs1 as [|x kvs1 IH]; intros bs1 bs2 [|y kvs2] Hb Hk; csimpl in *;
    try done.
  injection Hk as Hxy Hk. unfold add_to_bucket. rewrite Hxy.
  case_bool_decide; [done|]. destruct (0 <=? _); [|done].
  set (i := Z.to_nat _). assert (Hi : length <$> bs1 !! i = length <$> bs2 !! i)
    by (by rewrite <-!list_lookup_fmap, Hb).
  destruct (bs1 !! i) as [b1|], (bs2 !! i) as [b2|]; simpl in *; try done.
  injection Hi as Hi. apply IH; [|done]. rewrite !list_fmap_insert, Hb, !length_app, Hi. done.
Qed.

(** ** Properties *)

(** Map tasks partition their pairs: with a positive number of buckets every pair is
    in exactly one bucket, pairs with the same key are in the same one, the order within
    a bucket is that of the map function, and no index is out of range; with no bucket a
    map function that yields something makes the worker panic. *)
Theorem partition_kvs_correct NReduce kvs :
  (0 < NReduce → ∃ bs, partition_kvs NReduce kvs = Ret bs ∧ length bs = Z.to_nat NReduce ∧
     concat bs ≡ₚ kvs ∧
     ∀ i b, bs !! i = Some b → b = filter (λ kv, key_bucket NReduce kv = i) kvs) ∧
  (NReduce = 0 → kvs ≠ [] → partition_kvs NReduce kvs = Panic "integer divide by zero").
Proof.
  unfold partition_kvs. split.
  - intros Hn. rewrite (proj2 (Z.ltb_ge _ _)) by lia.
    destruct (fill_buckets_spec NReduce kvs (replicate (Z.to_nat NReduce) []) Hn)
      as (bs & -> & Hl & Hb); [apply length_replicate|].
    assert (Hbs : bs = (λ i, filter (λ kv, key_bucket NReduce kv = i) kvs) <$>
        seq 0 (Z.to_nat NReduce)).
    { apply list_eq. intros i. rewrite list_lookup_fmap.
      destruct (decide (i < Z.to_nat NReduce)%nat) as [Hi|Hi].
      - rewrite (Hb i []) by by apply lookup_replicate_2.
        by rewrite lookup_seq_lt.
      - rewrite (proj2 (lookup_ge_None _ _)) by lia. by rewrite lookup_seq_ge by lia. }
    exists bs. split_and!; [done|done| |].
    + rewrite Hbs. apply concat_filter_keys; [apply NoDup_seq|].
      intros kv _. apply elem_of_seq. pose proof (key_bucket_lt NReduce kv Hn). lia.
    + intros i b Hib. rewrite Hbs, list_lookup_fmap in Hib. apply fmap_Some in Hib as (j & Hj & ->).
      by apply lookup_seq in Hj as [-> _].
  - intros -> Hne. by destruct kvs.
Qed.

(** The files of a map task do not contain the pairs: the loop that writes a bucket
    ranges over its indices. What is written depends only on the keys of the pairs
    (through the sizes of the buckets); the values are lost. *)
Theorem doMap_loses_values tmpdir mapf1 mapf2 fs suffix taskInfo :
  (∀ f c, kv_Key <$> mapf1 f c = kv_Key <$> mapf2 f c) →
  doMap tmpdir mapf1 fs suffix taskInfo = doMap tmpdir mapf2 fs suffix taskInfo.
Proof.
  intros Hk. unfold doMap, partition_kvs. destruct (fs !! t_FileName taskInfo) as [c|]; [|done].
  destruct (t_NReduce taskInfo <? 0); [done|].
  pose proof (fill_buckets_keys (t_NReduce taskInfo) (replicate (Z.to_nat (t_NReduce taskInfo)) [])
    (replicate (Z.to_nat (t_NReduce taskInfo)) []) _ _ eq_refl (Hk (t_FileName taskInfo) c)) as H.
  destruct (fill_buckets _ _ (mapf1 _ _)) as [r1|e1|e1],
    (fill_buckets _ _ (mapf2 _ _)) as [r2|e2|e2]; try done; simpl; [|by f_equal..].
  f_equal. apply list_eq. intros i. rewrite !list_lookup_imap.
  assert (Hi : length <$> r1 !! i = length <$> r2 !! i) by (by rewrite <-!list_lookup_fmap, H).
  destruct (r1 !! i) as [b1|], (r2 !! i) as [b2|]; simpl in *; try done.
  injection Hi as Hi. unfold encode_bucket. by rewrite Hi.
Qed.

(** Nor does a reduce task find them: they are in the directory for temporary files, and it
    looks in the current directory, under a name without a slash. *)
Definition slash : Ascii.ascii := Ascii.ascii_of_nat 47.

Lemma bucket_name_no_slash i b : slash ∉ String.list_ascii_of_string (bucket_name i b).
Proof.
  assert (Hn : ∀ x : N, slash ∉ String.list_ascii_of_string (pretty x)).
  { intros x. apply pretty_N_avoids. intros y. unfold pretty_N_char. by repeat case_match. }
  assert (Hz : ∀ z : Z, slash ∉ String.list_ascii_of_string (pretty z)).
  { intros [|p|p]; [simpl; set_solver|apply (Hn (N.pos p))|]. change (pretty (Z.neg p)) with ("-" +:+ pretty (N.pos p)).
    rewrite list_ascii_app. specialize (Hn (N.pos p)). simpl. set_solver. }
  unfold bucket_name. rewrite !list_ascii_app. pose proof (Hz i). pose proof (Hz b). simpl. set_solver.
Qed.

Theorem doReduce_reads_no_map_output tmpdir mapf fs suffix taskInfo files decode fs' bucketNum mapNum :
  doMap tmpdir mapf fs suffix taskInfo = Ret files →
  read_bucket decode (list_to_map files ∪ fs') bucketNum mapNum = read_bucket decode fs' bucketNum mapNum.
Proof.
  unfold doMap. destruct (fs !! t_FileName taskInfo) as [content|]; [|done]. intros Hf. bind_inv Hf.
  simplify_eq. unfold read_bucket. f_equal. apply list_fmap_ext. intros _ i _.
  rewrite lookup_union_r; [done|]. apply not_elem_of_list_to_map_1.
  intros ([name b] & Hname & Hin)%list_elem_of_fmap. apply elem_of_lookup_imap in Hin as (k & x & [= -> ->] & _).
  apply (bucket_name_no_slash i bucketNum). simpl in Hname. rewrite Hname. unfold CreateTemp.
  rewrite !list_ascii_app. simpl. set_solver.
Qed.

(** Reduce tasks produce nothing: if any of the files of the bucket yields a pair, the
    grouping loop reads index -1 in its first iteration and panics; otherwise no result
    is written. *)
Theorem doReduce_never_reduces decode sort_kvs reducef fs taskInfo bucketNum mapNum :
  (∀ l, sort_kvs l ≡ₚ l) →
  doReduce decode sort_kvs reducef fs taskInfo bucketNum mapNum =
    if decide (read_bucket decode fs bucketNum mapNum = []) then Ret []
    else Panic "index out of range".
Proof.
  intros Hp. unfold doReduce. set (l := read_bucket decode fs bucketNum mapNum).
  case_decide as Hl.
  - pose proof (Hp l) as Hnil. rewrite Hl in *. apply Permutation_nil_r in Hnil. by rewrite Hnil.
  - destruct (sort_kvs l) as [|kv k] eqn:E; [|apply group_loop_panics].
    exfalso. apply Hl. pose proof (Hp l) as Hnil. rewrite E in Hnil.
    by apply Permutation_nil_l in Hnil.
Qed.

(** The worker does no work. Its request goes to the method name "GetTask", which has
    no service part, so the coordinator's state does not change and the reply stays
    zero; the loop then spins for ever. And with any reply the loop repeats the first
    task for ever: it never asks again, and only a finished task makes it return. *)
Theorem Worker_stuck n c now now' :
  Worker n c now now' = Ret (c, (replicate n Spin, false)) ∧
  (∀ reply a, Worker_iteration reply = Some a → Worker_loop n reply = (replicate n a, false)) ∧
  (∀ reply, t_TaskType (gtr_TaskInfo reply) = FinishedTask ↔
     (Worker_loop (S n) reply).2 = true) ∧
  (∀ id taskId, reportTaskDone c id taskId = Ret c).
Proof.
  split_and!.
  - unfold Worker, getTaskRPC, call. rewrite bool_decide_eq_false_2 by done. simpl.
    do 2 f_equal. apply (Worker_loop_spec n zero_GetTaskReply).
  - intros reply a Ha. pose proof (Worker_loop_spec n reply) as H. by rewrite Ha in H.
  - intros reply. pose proof (Worker_loop_spec n reply) as H.
    pose proof (Worker_loop_spec (S n) reply) as HS.
    unfold Worker_iteration in H, HS. destruct (t_TaskType (gtr_TaskInfo reply));
      rewrite ?H, ?HS; by split.
  - intros id taskId. unfold reportTaskDone, call. by rewrite bool_decide_eq_false_2.
Qed.

(** ** Witnesses *)

Example partition_kvs_correct_witness :
  let kvs := [mkKeyValue "a" "1"; mkKeyValue "b" "2"; mkKeyValue "a" "3"] in
  ∃ bs, partition_kvs 4 kvs = Ret bs ∧ length bs = 4%nat ∧ concat bs ≡ₚ kvs ∧
    ∀ i b, bs !! i = Some b → b = filter (λ kv, key_bucket 4 kv = i) kvs.
Proof.
  intros kvs. destruct (partition_kvs_correct 4 kvs) as [H _]. apply H. reflexivity.
Defined.

Example doMap_loses_values_witness :
  let fs : gmap string string := {["f" := "text"]} in
  let task := mkTask "f" 2 InProgress MapTask 0 0 in
  doMap "/tmp" (λ f c, [mkKeyValue c "1"]) fs (λ _, "77") task =
  doMap "/tmp" (λ f c, [mkKeyValue c f]) fs (λ _, "77") task.
Proof. intros fs task. apply doMap_loses_values. reflexivity. Defined.

Example doReduce_never_reduces_witness :
  let fs : gmap string string := {["mr-0-1" := "some JSON"]} in
  let decode := λ s, [mkKeyValue s "1"] in
  doReduce decode (merge_sort ByKey_le) (λ k _, k) fs zero_Task 1 1 =
    if decide (read_bucket decode fs 1 1 = []) then Ret [] else Panic "index out of range".
Proof.
  intros fs decode. apply doReduce_never_reduces. intros l. apply merge_sort_Permutation.
Defined.
