(* ===== verification/Labgob.v ===== *)
(** * The checks of labgob ([labgob/labgob.go])

    Before a value is encoded or decoded, labgob complains about lower-case field names in all
    types below it, once per type, and about variables that are not zero when something is
    decoded into them, counting them. Types and values are what the package [reflect] shows of them; whether
    the first character of a name is upper case is a parameter. The encoding itself is the
    package [encoding/gob]. *)

From S2P Require Export Prelude.

Local Open Scope Z_scope.

#[local] Set Warnings "-register-all".

(** A type as [checkType] sees it; types are identified by numbers, fields have a name and a
    type. *)
Inductive TypeDesc :=
  | TStruct (name : string) (fields : list (string * nat))
  | TElem (elem : nat)                                   (* slices, arrays, pointers *)
  | TMap (key elem : nat)
  | TOther.

(** A value as [checkDefault1] sees it; a field has a name, and is embedded or not. *)
Inductive GoValue :=
  | VStruct (fields : list (string * bool * GoValue))
  | VPtr (elem : option GoValue)
  | VBasic (typename : string) (is_zero : bool)          (* booleans, numbers, strings *)
  | VOther.

(** The package's variables, and what was printed. *)
Record Labgob := mkLabgob {
  lg_checked : gset nat;
  lg_errorCount : Z;
  lg_errors : list (string * string);
  lg_warnings : list string
}.

Definition labgob_init : Labgob := mkLabgob ∅ 0 [] [].

Section labgob.
Context (desc : nat → TypeDesc) (is_upper : string → bool).

Definition mark (t : nat) (lg : Labgob) : Labgob :=
  mkLabgob ({[t]} ∪ lg_checked lg) (lg_errorCount lg) (lg_errors lg) (lg_warnings lg).

Definition complain (field name : string) (lg : Labgob) : Labgob :=
  mkLabgob (lg_checked lg) (lg_errorCount lg + 1) (lg_errors lg ++ [(field, name)]) (lg_warnings lg).

(** The loop over the fields of a struct. *)
Fixpoint check_fields (rec : nat → Labgob → outcome Labgob) (name : string)
    (fields : list (string * nat)) (lg : Labgob) : outcome Labgob :=
  match fields with
  | [] => Ret lg
  | (f, ft) :: fields =>
      let lg := if is_upper f then lg else complain f name lg in
      lg ← rec ft lg;
      check_fields rec name fields lg
  end.

Fixpoint checkType (fuel : nat) (t : nat) (lg : Labgob) : outcome Labgob :=
  match fuel with
  | O => out_of_fuel
  | S fuel =>
      if decide (t ∈ lg_checked lg) then Ret lg
      else
        let lg := mark t lg in
        match desc t with
        | TStruct name fields => check_fields (checkType fuel) name fields lg
        | TElem elem => checkType fuel elem lg
        | TMap key elem => lg ← checkType fuel elem lg; checkType fuel key lg
        | TOther => Ret lg
        end
  end.

(** [checkValue] of values whose types are [ts], one after the other. *)
Fixpoint checkValues (fuel : nat) (ts : list nat) (lg : Labgob) : outcome Labgob :=
  match ts with
  | [] => Ret lg
  | t :: ts => lg ← checkType fuel t lg; checkValues fuel ts lg
  end.

(** How [reflect] remembers that a value was reached through an unexported field: [StickyRO]
    stays for everything below, [EmbedRO] (an embedded field) does not. *)
Inductive RO := NoRO | EmbedRO | StickyRO.

Definition field_ro (ro : RO) (f : string) (embedded : bool) : RO :=
  match ro with
  | StickyRO => StickyRO
  | _ => if is_upper f then NoRO else if embedded then EmbedRO else StickyRO
  end.

(** A value that is not the zero value of its type. *)
Definition complain_default (typename name : string) (lg : Labgob) : Labgob :=
  let warnings :=
    if lg_errorCount lg <? 1
    then lg_warnings lg ++ [if bool_decide (name = "") then typename else name]
    else lg_warnings lg in
  mkLabgob (lg_checked lg) (lg_errorCount lg + 1) (lg_errors lg) warnings.

Definition name1 (name f : string) : string :=
  if bool_decide (name = "") then f else name +:+ "." +:+ f.

Fixpoint default_fields (rec : RO → GoValue → string → Labgob → outcome Labgob) (ro : RO)
    (name : string) (fields : list (string * bool * GoValue)) (lg : Labgob) : outcome Labgob :=
  match fields with
  | [] => Ret lg
  | (f, embedded, vv) :: fields =>
      lg ← rec (field_ro ro f embedded) vv (name1 name f) lg;
      default_fields rec ro name fields lg
  end.

(** [checkDefault1] at depth [4 - d]. [value.Interface()] panics for a value that was reached
    through an unexported field. *)
Fixpoint checkDefault1 (d : nat) (ro : RO) (value : GoValue) (name : string) (lg : Labgob) :
    outcome Labgob :=
  match d with
  | O => Ret lg
  | S d =>
      match value with
      | VStruct fields => default_fields (checkDefault1 d) ro name fields lg
      | VPtr None => Ret lg
      | VPtr (Some elem) => checkDefault1 d ro elem name lg
      | VBasic typename is_zero =>
          match ro with
          | NoRO => Ret (if is_zero then lg else complain_default typename name lg)
          | _ => Panic "reflect.Value.Interface: unexported field"
          end
      | VOther => Ret lg
      end
  end.

(** [None] is the nil interface. *)
Definition checkDefault (value : option GoValue) (lg : Labgob) : outcome Labgob :=
  match value with None => Ret lg | Some v => checkDefault1 3 NoRO v "" lg end.

(** ** The types below a type *)

Definition child (t u : nat) : Prop :=
  match desc t with
  | TStruct _ fields => u ∈ fields.*2
  | TElem elem => u = elem
  | TMap key elem => u = key ∨ u = elem
  | TOther => False
  end.

(** The number of lower-case fields of a type, and of a set of types. *)
Definition lower_fields (fields : list (string * nat)) : Z :=
  Z.of_nat (length (filter (λ f : string * nat, is_upper f.1 = false) fields)).

Definition lower (t : nat) : Z :=
  match desc t with TStruct _ fields => lower_fields fields | _ => 0 end.

Definition total (X : gset nat) : Z := foldr Z.add 0 (lower <$> elements X).

#[local] Instance sum_perm : Proper ((≡ₚ) ==> (=)) (foldr Z.add 0).
Proof. intros l l' Hl. induction Hl; simpl; lia. Qed.

Lemma total_insert t X : t ∉ X → total ({[t]} ∪ X) = lower t + total X.
Proof.
  intros Ht. unfold total. rewrite elements_union_singleton by done. done.
Qed.

(** All types but those of [G], whose check is still going on, have their children checked. *)
Definition closed_except (G X : gset nat) : Prop :=
  ∀ u, u ∈ X → u ∈ G ∨ ∀ c, child u c → c ∈ X.

(** Complaints beyond the lower-case fields of the checked types. *)
Definition surplus (lg : Labgob) : Z := lg_errorCount lg - total (lg_checked lg).

(** [U] is a finite set of types that is closed under [child]. *)
Context (U : gset nat) (HU : ∀ t u, t ∈ U → child t u → u ∈ U).

Definition left_over (lg : Labgob) : nat := size (U ∖ lg_checked lg).

(** What a check of the types [ts] does, [k] complaints aside. *)
Record checks (G : gset nat) (ts : list nat) (k : Z) (lg lg' : Labgob) : Prop := {
  ck_grow : lg_checked lg ⊆ lg_checked lg';
  ck_in t : t ∈ ts → t ∈ lg_checked lg';
  ck_U : lg_checked lg' ⊆ U;
  ck_closed : closed_except G (lg_checked lg');
  ck_reach u : u ∈ lg_checked lg' → u ∈ lg_checked lg ∨ ∃ t, t ∈ ts ∧ rtc child t u;
  ck_surplus : surplus lg' = surplus lg + k
}.

Lemma left_over_mono lg lg' : lg_checked lg ⊆ lg_checked lg' → (left_over lg' ≤ left_over lg)%nat.
Proof. intros Hs. unfold left_over. apply subseteq_size. set_solver. Qed.

Lemma left_over_mark t lg :
  t ∈ U → t ∉ lg_checked lg → (left_over (mark t lg) < left_over lg)%nat.
Proof. intros Ht Hn. unfold left_over. apply subset_size. simpl. set_solver. Qed.

Lemma checks_nil G lg : lg_checked lg ⊆ U → closed_except G (lg_checked lg) → checks G [] 0 lg lg.
Proof. intros. split; [done|set_solver|done|done|by left|lia]. Qed.

Lemma checks_app G ts1 ts2 k1 k2 lg1 lg2 lg3 :
  checks G ts1 k1 lg1 lg2 → checks G ts2 k2 lg2 lg3 → checks G (ts1 ++ ts2) (k1 + k2) lg1 lg3.
Proof.
  intros [A1 A2 A3 A4 A5 A6] [B1 B2 B3 B4 B5 B6]. split; [set_solver| |done|done| |lia].
  - intros t [?|?]%elem_of_app; auto.
  - intros u Hu. destruct (B5 u Hu) as [Hu'|(t & ? & ?)].
    + destruct (A5 u Hu') as [?|(t & ? & ?)]; [by left|]. right. exists t. set_solver.
    + right. exists t. set_solver.
Qed.

Lemma complain_checks G ts k f name lg lg' :
  checks G ts k (complain f name lg) lg' → checks G ts (k + 1) lg lg'.
Proof. intros [A1 A2 A3 A4 A5 A6]. split; try done. unfold surplus in *. simpl in A6. lia. Qed.

Lemma checks_eq G ts k k' lg lg' : checks G ts k lg lg' → k = k' → checks G ts k' lg lg'.
Proof. by intros ? <-. Qed.

(** What the recursive calls are known to do. *)
Definition rec_ok (G : gset nat) (n : nat) (rec : nat → Labgob → outcome Labgob) : Prop :=
  ∀ t lg, t ∈ U → lg_checked lg ⊆ U → (left_over lg < n)%nat → closed_except G (lg_checked lg) →
    ∃ lg', rec t lg = Ret lg' ∧ checks G [t] 0 lg lg'.

Lemma check_fields_spec G n rec name fields lg :
  rec_ok G n rec → (∀ t, t ∈ fields.*2 → t ∈ U) → lg_checked lg ⊆ U → (left_over lg < n)%nat →
  closed_except G (lg_checked lg) →
  ∃ lg', check_fields rec name fields lg = Ret lg' ∧
    checks G fields.*2 (lower_fields fields) lg lg'.
Proof.
  intros Hrec. revert lg. induction fields as [|[f ft] fields IH]; intros lg Hin HlU Hn Hcl; simpl.
  { exists lg. split; [done|]. by apply checks_nil. }
  set (lg1 := if is_upper f then lg else complain f name lg).
  assert (E1 : lg_checked lg1 = lg_checked lg) by (unfold lg1; by destruct (is_upper f)).
  destruct (Hrec ft lg1) as (lg2 & -> & H2); [apply Hin; left|by rewrite E1| |by rewrite E1|].
  { unfold left_over. by rewrite E1. }
  simpl. destruct (IH lg2) as (lg3 & -> & H3).
  - intros t Ht. apply Hin. by right.
  - apply (ck_U _ _ _ _ _ H2).
  - pose proof (left_over_mono _ _ (ck_grow _ _ _ _ _ H2)) as Hm. unfold left_over in *.
    rewrite E1 in Hm. lia.
  - apply (ck_closed _ _ _ _ _ H2).
  - exists lg3. split; [done|]. unfold lower_fields in *.
    pose proof (checks_app _ _ _ _ _ _ _ _ H2 H3) as H23. unfold lg1 in H23.
    destruct (is_upper f) eqn:Eu.
    + rewrite filter_cons_False by (simpl; congruence). exact H23.
    + rewrite filter_cons_True by done. apply complain_checks in H23.
      eapply (checks_eq _ _ _ _ _ _ H23). simpl. lia.
Qed.

Lemma checkType_spec fuel G : rec_ok G fuel (checkType fuel).
Proof.
  revert G. induction fuel as [|fuel IH]; intros G t lg Ht HlU Hn Hcl; [lia|].
  cbn [checkType]. destruct (decide (t ∈ lg_checked lg)) as [Hin|Hout].
  { exists lg. split; [done|]. split; [done|set_solver|done|done|by left|lia]. }
  set (lg1 := mark t lg). set (G1 := {[t]} ∪ G).
  pose proof (left_over_mark t lg Ht Hout) as Hlt. fold lg1 in Hlt.
  assert (HlU1 : lg_checked lg1 ⊆ U) by (simpl; set_solver).
  assert (Hcl1 : closed_except G1 (lg_checked lg1)).
  { intros u Hu. simpl in Hu. apply elem_of_union in Hu as [Hu|Hu]; [left; set_solver|].
    destruct (Hcl u Hu) as [?|Hc]; [left; set_solver|]. right. intros c ?. simpl. set_solver. }
  assert (Hchildren : ∃ ts lg', (∀ u, child t u ↔ u ∈ ts) ∧
    match desc t with
    | TStruct name fields => check_fields (checkType fuel) name fields lg1
    | TElem elem => checkType fuel elem lg1
    | TMap key elem => lg ← checkType fuel elem lg1; checkType fuel key lg
    | TOther => Ret lg1
    end = Ret lg' ∧ checks G1 ts (lower t) lg1 lg').
  { pose proof (HU t) as HUt. unfold child, lower in *. destruct (desc t) as [name fields|e|k e|].
    - destruct (check_fields_spec G1 fuel (checkType fuel) name fields lg1)
        as (lg' & H1 & H2); [apply IH|by auto|done|lia|done|]. by exists fields.*2, lg'.
    - destruct (IH G1 e lg1) as (lg' & H1 & H2); [by apply HUt|done|lia|done|].
      exists [e], lg'. split; [intros u; by rewrite list_elem_of_singleton|done].
    - destruct (IH G1 e lg1) as (lg2 & -> & H2); [apply HUt; auto|done|lia|done|]. simpl.
      destruct (IH G1 k lg2) as (lg3 & H3 & H4); [apply HUt; auto|apply H2| |apply H2|].
      { pose proof (left_over_mono _ _ (ck_grow _ _ _ _ _ H2)). lia. }
      exists ([e] ++ [k]), lg3. split; [intros u; simpl; set_solver|]. split; [done|].
      by eapply checks_eq; [by eapply checks_app|].
    - exists [], lg1. split; [intros u; set_solver|]. split; [done|]. by apply checks_nil. }
  destruct Hchildren as (ts & lg' & Hts & -> & [A1 A2 A3 A4 A5 A6]). exists lg'. split; [done|].
  assert (Htin : t ∈ lg_checked lg') by (apply A1; simpl; set_solver).
  split; [simpl in A1; set_solver|by intros u ->%list_elem_of_singleton|done| | |].
  - intros u Hu. destruct (A4 u Hu) as [Hg|?]; [|by right].
    apply elem_of_union in Hg as [->%elem_of_singleton|?]; [right|by left].
    intros c Hc. by apply A2, Hts.
  - intros u Hu. destruct (A5 u Hu) as [Hu'|(c & Hc & Hr)].
    + simpl in Hu'. apply elem_of_union in Hu' as [->%elem_of_singleton|?]; [right|by left].
      exists t. split; [left|apply rtc_refl].
    + right. exists t. split; [left|]. eapply rtc_l; [by apply Hts|done].
  - unfold surplus in *. simpl in A6. rewrite total_insert in A6 by done. lia.
Qed.

Lemma closed_reach X t u : closed_except ∅ X → t ∈ X → rtc child t u → u ∈ X.
Proof.
  intros Hc Ht Hr. induction Hr as [|t v u Htv _ IH]; [done|]. apply IH.
  destruct (Hc t Ht) as [?|Hch]; [set_solver|by apply Hch].
Qed.

Lemma checkValues_spec fuel ts lg :
  (size U < fuel)%nat → (∀ t, t ∈ ts → t ∈ U) → lg_checked lg ⊆ U → closed_except ∅ (lg_checked lg) →
  ∃ lg', checkValues fuel ts lg = Ret lg' ∧ checks ∅ ts 0 lg lg'.
Proof.
  intros Hfuel. revert lg. induction ts as [|t ts IH]; intros lg Hts HlU Hcl; simpl.
  { exists lg. split; [done|]. by apply checks_nil. }
  destruct (checkType_spec fuel ∅ t lg) as (lg1 & -> & H1); [apply Hts; left|done| |done|].
  { unfold left_over. assert (size (U ∖ lg_checked lg) ≤ size U)%nat; [|lia].
    apply subseteq_size. set_solver. }
  simpl. destruct (IH lg1) as (lg2 & -> & H2); [intros; apply Hts; by right|apply H1|apply H1|].
  exists lg2. split; [done|]. exact (checks_app _ [t] ts 0 0 _ _ _ H1 H2).
Qed.

(** C34: checkValues_complete: the checks of types end, even for recursive types, and are complete
    and free of repetitions. With a finite set of types below the values' types and more fuel
    than it has elements, checking values of the types [ts] returns; exactly the types
    reachable from [ts] have then been checked, and the number of errors is the number of
    lower-case fields in all of them, each counted once. *)
Theorem checkValues_complete fuel ts :
  (size U < fuel)%nat → (∀ t, t ∈ ts → t ∈ U) →
  ∃ lg, checkValues fuel ts labgob_init = Ret lg ∧
    (∀ u, u ∈ lg_checked lg ↔ ∃ t, t ∈ ts ∧ rtc child t u) ∧
    lg_errorCount lg = total (lg_checked lg).
Proof.
  intros Hf Hts. destruct (checkValues_spec fuel ts labgob_init) as (lg & E & [A1 A2 A3 A4 A5 A6]);
    [done..|set_solver|intros u; set_solver|].
  exists lg. split; [done|]. split.
  - intros u. split.
    + intros Hu. destruct (A5 u Hu) as [?|?]; [set_solver|done].
    + intros (t & Ht & Hr). eapply closed_reach; [done|by apply A2|done].
  - unfold surplus in A6. simpl in A6. change (total ∅) with 0 in A6. lia.
Qed.
End labgob.

(** ** Values that are decoded into *)

(** What [checkDefault1] adds to the counter is the number of its basic values, at the depths
    it looks at, that are not zero, provided it does not panic. *)
Fixpoint nonzero (d : nat) (value : GoValue) : Z :=
  match d with
  | O => 0
  | S d =>
      match value with
      | VStruct fields => foldr (λ f n, nonzero d f.2 + n) 0 fields
      | VPtr (Some elem) => nonzero d elem
      | VBasic _ false => 1
      | _ => 0
      end
  end.

(** A first warning is given only if nothing was wrong before. *)
Definition warned_once (lg lg' : Labgob) (n : Z) : Prop :=
  0 ≤ n ∧ lg_errorCount lg' = lg_errorCount lg + n ∧
  (length (lg_warnings lg') =
    length (lg_warnings lg) + if decide (lg_errorCount lg < 1 ∧ 0 < n)%Z then 1 else 0)%nat.

Lemma warned_once_refl lg : warned_once lg lg 0.
Proof. split; [lia|]. split; [lia|]. destruct (decide _); lia. Qed.

Lemma warned_once_trans lg1 lg2 lg3 n m :
  0 ≤ lg_errorCount lg1 →
  warned_once lg1 lg2 n → warned_once lg2 lg3 m → warned_once lg1 lg3 (n + m).
Proof.
  intros H0 (A1 & A2 & A3) (B1 & B2 & B3). split; [lia|]. split; [lia|].
  rewrite B3, A3. repeat destruct (decide _); lia.
Qed.

Lemma checkDefault1_spec is_upper d ro value name lg lg' :
  0 ≤ lg_errorCount lg → checkDefault1 is_upper d ro value name lg = Ret lg' →
  warned_once lg lg' (nonzero d value).
Proof.
  revert ro value name lg lg'. induction d as [|d IH]; intros ro value name lg lg' Hp E; simpl in *.
  { injection E as <-. apply warned_once_refl. }
  destruct value as [fields|[elem|]|t z|]; [|by eapply IH| | |].
  - revert lg Hp E. induction fields as [|[[f e] v] fields IHf]; intros lg Hp E; simpl in *.
    { injection E as <-. apply warned_once_refl. }
    destruct (checkDefault1 is_upper d (field_ro is_upper ro f e) v (name1 name f) lg)
      as [lg2|?|?] eqn:E2; [|done|done]. simpl in E. apply IH in E2; [|done].
    eapply warned_once_trans; [done|done|]. apply IHf; [|done]. destruct E2 as (? & ? & _). lia.
  - injection E as <-. apply warned_once_refl.
  - destruct ro; [|done|done]. injection E as <-. destruct z; [apply warned_once_refl|].
    split; [lia|]. split; [done|]. simpl.
    destruct (Z.ltb_spec (lg_errorCount lg) 1); destruct (decide _); rewrite ?length_app; simpl; lia.
  - injection E as <-. apply warned_once_refl.
Qed.

(** Decoding into a value warns at most once in the life of the program, and only for a
    variable that is not zero; every such variable is counted. *)
Theorem checkDefault_counts is_upper value lg lg' :
  0 ≤ lg_errorCount lg → checkDefault is_upper value lg = Ret lg' →
  warned_once lg lg' (from_option (nonzero 3) 0 value).
Proof.
  intros Hp E. destruct value as [v|]; [by eapply checkDefault1_spec|].
  injection E as <-. apply warned_once_refl.
Qed.

(** A lower-case field of a basic type is not only complained about: decoding into a struct
    that has one panics. *)
Theorem checkDefault_unexported_panics is_upper f t z fields lg :
  is_upper f = false →
  ∃ msg, checkDefault is_upper (Some (VPtr (Some (VStruct ((f, false, VBasic t z) :: fields))))) lg
    = Panic msg.
Proof. intros Hf. eexists. simpl. by rewrite Hf. Qed.

(** ** An example: a recursive type with one lower-case field *)

Definition ex_desc (t : nat) : TypeDesc :=
  match t with
  | 0%nat => TStruct "Node" [("Val", 1%nat); ("next", 2%nat)]
  | 2%nat => TElem 0
  | _ => TOther
  end.

Definition ascii_upper (s : string) : bool :=
  match s with
  | EmptyString => false
  | String c _ => (65 <=? Z.of_nat (Ascii.nat_of_ascii c)) && (Z.of_nat (Ascii.nat_of_ascii c) <=? 90)
  end.

Definition ex_types : gset nat := {[0%nat; 1%nat; 2%nat]}.

Lemma ex_desc_closed t u : t ∈ ex_types → child ex_desc t u → u ∈ ex_types.
Proof.
  unfold ex_types, child. rewrite !elem_of_union, !elem_of_singleton.
  intros [[->| ->]| ->]; simpl; [|done|auto].
  change ([("Val", 1%nat); ("next", 2%nat)].*2) with [1%nat; 2%nat].
  rewrite elem_of_cons, list_elem_of_singleton. tauto.
Qed.

Lemma checkValues_complete_witness :
  ∃ lg, checkValues ex_desc ascii_upper 4 [0%nat; 2%nat] labgob_init = Ret lg ∧
    lg_errorCount lg = 1 ∧ 2%nat ∈ lg_checked lg.
Proof.
  destruct (checkValues_complete ex_desc ascii_upper ex_types ex_desc_closed 4
    [0%nat; 2%nat]) as (lg & E & Hc & _).
  - vm_compute. lia.
  - intros t. unfold ex_types. rewrite elem_of_cons, list_elem_of_singleton.
    rewrite !elem_of_union, !elem_of_singleton. naive_solver.
  - exists lg. split; [exact E|]. split.
    + vm_compute in E. injection E as <-. reflexivity.
    + apply Hc. exists 2%nat. split; [right; left|apply rtc_refl].
Defined.
