(* ===== verification/Labrpc.v ===== *)
(** * The simulated network ([labrpc/labrpc.go])

    A [Network] connects client ends to servers and can lose or delay messages. The fate
    of one call is the function [processReq] of what its goroutine reads: successive
    snapshots of the network (other goroutines change it), the random draws, the number
    of times the wait for the handler times out, and the state on which the handler runs.
    The encoding of values by labgob is a parameter: encoding gives the bytes written and whether
    it succeeded, decoding what the target becomes and whether it succeeded. *)

From S2P Require Export Prelude.

Local Open Scope Z_scope.

Definition SHORTDELAY : Z := 27.
Definition LONGDELAY : Z := 7000.
Definition MAXDELAY : Z := LONGDELAY + 100.

Abbreviation bytes := (list Z) (only parsing).

Record replyMsg := mkReplyMsg { rep_ok : bool; rep_reply : bytes }.

(** ** Services and servers *)

Section labrpc.
(** Values and types of the program, the state of the objects behind the services, and
    what labgob and reflect provide. *)
Context {V T St : Type}.
Context (encode : V → bytes * bool) (decode : bytes → V → V * bool) (zero : T → V).

Record reqMsg := mkReqMsg {
  req_endname : string;
  req_svcMeth : string;
  req_argsType : T;
  req_args : bytes
}.

(** What [reflect] says about a method. *)
Record Method := mkMethod {
  m_Name : string;
  m_exported : bool;
  m_NumIn : Z;
  m_In2_ptr : bool;
  m_NumOut : Z;
  m_replyType : T;
  m_Func : St → V → V → outcome (St * V)
}.

Record Service := mkService { svc_name : string; svc_methods : gmap string Method }.

Record Server := mkServer { rs_services : gmap string Service; rs_count : Z }.

(** Whether a method looks like a handler. *)
Definition suitable (method : Method) : bool :=
  negb (negb (m_exported method) || negb (m_NumIn method =? 3) || negb (m_In2_ptr method) ||
        negb (m_NumOut method =? 0)).

Definition MakeService (name : string) (methods : list Method) : Service :=
  mkService name
    (foldl (λ ms method, if suitable method then <[m_Name method := method]> ms else ms)
       ∅ methods).

Definition MakeServer : Server := mkServer ∅ 0.

Definition AddService (rs : Server) (svc : Service) : Server :=
  mkServer (<[svc_name svc := svc]> (rs_services rs)) (rs_count rs).

Definition Server_GetCount (rs : Server) : Z := rs_count rs.

(** The error of decoding the arguments is ignored. *)
Definition Service_dispatch (svc : Service) (methname : string) (req : reqMsg) (st : St)
    : outcome (St * replyMsg) :=
  match svc_methods svc !! methname with
  | Some method =>
      let '(args, _) := decode (req_args req) (zero (req_argsType req)) in
      '(st, replyv) ← m_Func method st args (zero (m_replyType method));
      let '(rb, _) := encode replyv in
      Ret (st, mkReplyMsg true rb)
  | None => Fatal "labrpc.Service.dispatch(): unknown method"
  end.

Definition Server_dispatch (rs : Server) (req : reqMsg) (st : St)
    : outcome (Server * St * replyMsg) :=
  let rs := mkServer (rs_services rs) (i64_wrap (rs_count rs + 1)) in
  match split_last_dot (req_svcMeth req) with
  | None => Panic "slice bounds out of range [:-1]"
  | Some (serviceName, methodName) =>
      match rs_services rs !! serviceName with
      | Some service =>
          '(st, rep) ← Service_dispatch service methodName req st;
          Ret (rs, st, rep)
      | None => Fatal "labrpc.Server.dispatch(): unknown service"
      end
  end.

(** ** The network *)

(** Servers are pointers: [rn_servers] maps a name to one, or to nil. *)
Record Network := mkNetwork {
  rn_reliable : bool;
  rn_longDelays : bool;
  rn_longReordering : bool;
  rn_ends : gset string;
  rn_enabled : gmap string bool;
  rn_servers : gmap string (option nat);
  rn_connections : gmap string (option string);
  rn_done : bool;
  rn_count : Z;
  rn_bytes : Z
}.

Definition MakeNetwork : Network := mkNetwork true false false ∅ ∅ ∅ ∅ false 0 0.

Definition Cleanup (rn : Network) : outcome Network :=
  if rn_done rn then Panic "close of closed channel" else
  Ret (mkNetwork (rn_reliable rn) (rn_longDelays rn) (rn_longReordering rn) (rn_ends rn)
         (rn_enabled rn) (rn_servers rn) (rn_connections rn) true (rn_count rn) (rn_bytes rn)).

Definition Reliable (rn : Network) (yes : bool) : Network :=
  mkNetwork yes (rn_longDelays rn) (rn_longReordering rn) (rn_ends rn) (rn_enabled rn)
    (rn_servers rn) (rn_connections rn) (rn_done rn) (rn_count rn) (rn_bytes rn).

Definition IsReliable (rn : Network) : bool := rn_reliable rn.

Definition LongReordering (rn : Network) (yes : bool) : Network :=
  mkNetwork (rn_reliable rn) (rn_longDelays rn) yes (rn_ends rn) (rn_enabled rn)
    (rn_servers rn) (rn_connections rn) (rn_done rn) (rn_count rn) (rn_bytes rn).

Definition LongDelays (rn : Network) (yes : bool) : Network :=
  mkNetwork (rn_reliable rn) yes (rn_longReordering rn) (rn_ends rn) (rn_enabled rn)
    (rn_servers rn) (rn_connections rn) (rn_done rn) (rn_count rn) (rn_bytes rn).

Definition IsLongDelays (rn : Network) : bool := rn_longDelays rn.

Definition with_names (rn : Network) (ends : gset string) (enabled : gmap string bool)
    (servers : gmap string (option nat)) (connections : gmap string (option string)) : Network :=
  mkNetwork (rn_reliable rn) (rn_longDelays rn) (rn_longReordering rn) ends enabled servers
    connections (rn_done rn) (rn_count rn) (rn_bytes rn).

Definition MakeEnd (rn : Network) (endname : string) : outcome Network :=
  if decide (endname ∈ rn_ends rn) then Fatal "MakeEnd: already exists" else
  Ret (with_names rn ({[endname]} ∪ rn_ends rn) (<[endname := false]> (rn_enabled rn))
         (rn_servers rn) (<[endname := None]> (rn_connections rn))).

Definition DeleteEnd (rn : Network) (endname : string) : outcome Network :=
  if decide (endname ∈ rn_ends rn) then
    Ret (with_names rn (rn_ends rn ∖ {[endname]}) (delete endname (rn_enabled rn))
           (rn_servers rn) (delete endname (rn_connections rn)))
  else Fatal "MakeEnd: doesn't exists".

Definition AddServer (rn : Network) (servername : string) (rs : nat) : Network :=
  with_names rn (rn_ends rn) (rn_enabled rn) (<[servername := Some rs]> (rn_servers rn))
    (rn_connections rn).

Definition DeleteServer (rn : Network) (servername : string) : Network :=
  with_names rn (rn_ends rn) (rn_enabled rn) (<[servername := None]> (rn_servers rn))
    (rn_connections rn).

Definition Connect (rn : Network) (endname servername : string) : Network :=
  with_names rn (rn_ends rn) (rn_enabled rn) (rn_servers rn)
    (<[endname := Some servername]> (rn_connections rn)).

Definition Enable (rn : Network) (endname : string) (enabled : bool) : Network :=
  with_names rn (rn_ends rn) (<[endname := enabled]> (rn_enabled rn)) (rn_servers rn)
    (rn_connections rn).

(** [heap] gives the server behind a pointer. *)
Definition Network_GetCount (heap : nat → Server) (rn : Network) (servername : string)
    : outcome Z :=
  match map_get None (rn_servers rn) servername with
  | Some rs => Ret (Server_GetCount (heap rs))
  | None => Panic "nil pointer dereference"
  end.

Definition GetTotalCount (rn : Network) : Z := rn_count rn.
Definition GetTotalBytes (rn : Network) : Z := rn_bytes rn.

(** The goroutine of [MakeNetwork], for one request. *)
Definition accept_req (rn : Network) (xreq : reqMsg) : Network :=
  mkNetwork (rn_reliable rn) (rn_longDelays rn) (rn_longReordering rn) (rn_ends rn)
    (rn_enabled rn) (rn_servers rn) (rn_connections rn) (rn_done rn)
    ((rn_count rn + 1 + 2 ^ 31) `mod` 2 ^ 32 - 2 ^ 31)
    (i64_wrap (rn_bytes rn + Z.of_nat (length (req_args xreq)))).

(** ** The life of a request *)

Definition readEndnameInfo (rn : Network) (endname : string)
    : bool * option string * option nat * bool * bool :=
  let enabled := map_get false (rn_enabled rn) endname in
  let servername := map_get None (rn_connections rn) endname in
  let server := match servername with
                | Some s => map_get None (rn_servers rn) s
                | None => None
                end in
  (enabled, servername, server, rn_reliable rn, rn_longReordering rn).

Definition isServerDead (rn : Network) (endname servername : string) (server : nat) : bool :=
  if bool_decide (map_get false (rn_enabled rn) endname = false ∨
                  map_get None (rn_servers rn) servername ≠ Some server)
  then true else false.

(** The results of [rand.Int()] and [rand.Intn(n)], each used at most once per request. *)
Record Draws := mkDraws {
  d_short : Z;      (* rand.Int(), the short delay *)
  d_drop_req : Z;   (* rand.Int(), dropping the request *)
  d_drop_rep : Z;   (* rand.Int(), dropping the reply *)
  d_reorder : Z;    (* rand.Intn(900) *)
  d_inner : Z;      (* rand.Intn(2000) *)
  d_outer : Z;      (* rand.Intn(1 + d_inner) *)
  d_timeout : Z     (* rand.Int(), the delay of a call that cannot succeed *)
}.

(** What a request came to: the reply, whether its handler has run (with the server and
    the state it left), the sleeps before the handler and before the reply in ms, and the
    bytes counted for the reply. *)
Record CallResult := mkCallResult {
  cr_reply : replyMsg;
  cr_exec : option (Server * St);
  cr_before : Z;
  cr_after : Z;
  cr_bytes : Z
}.

(** The wait for the handler: [polls] timeouts happen before it returns. The result tells
    whether the reply was received, and how many snapshots were read. *)
Fixpoint wait_handler (nets : nat → Network) (endname servername : string) (server : nat)
    (k polls : nat) : bool * nat :=
  match polls with
  | O => (true, k)
  | S polls =>
      if isServerDead (nets k) endname servername server then (false, S k)
      else wait_handler nets endname servername server (S k) polls
  end.

Definition failure : replyMsg := mkReplyMsg false [].

(** [nets k] is the network as it is at the [k]-th read of this goroutine; the handler
    runs on [st] at some time, even if the wait for it is given up. *)
Definition processReq (nets : nat → Network) (heap : nat → Server) (d : Draws) (polls : nat)
    (st : St) (req : reqMsg) : outcome CallResult :=
  let '(enabled, servername, server, reliable, longreordering) :=
    readEndnameInfo (nets 0%nat) (req_endname req) in
  match enabled, servername, server with
  | true, Some servername, Some server =>
      let short := if reliable then 0 else Z.rem (d_short d) SHORTDELAY in
      if negb reliable && (Z.rem (d_drop_req d) 1000 <? 100)
      then Ret (mkCallResult failure None short 0 0) else
      '(rs, st, reply) ← Server_dispatch (heap server) req st;
      let '(replyOK, k) := wait_handler nets (req_endname req) servername server 1 polls in
      let serverDead := isServerDead (nets k) (req_endname req) servername server in
      if negb replyOK || serverDead
      then Ret (mkCallResult failure (Some (rs, st)) short 0 0)
      else if negb reliable && (Z.rem (d_drop_rep d) 1000 <? 100)
      then Ret (mkCallResult failure (Some (rs, st)) short 0 0)
      else
        let n := Z.of_nat (length (rep_reply reply)) in
        if longreordering && (d_reorder d <? 600)
        then Ret (mkCallResult reply (Some (rs, st)) short (200 + d_outer d) n)
        else Ret (mkCallResult reply (Some (rs, st)) short 0 n)
  | _, _, _ =>
      let ms := if IsLongDelays (nets 1%nat) then Z.rem (d_timeout d) LONGDELAY
                else Z.rem (d_timeout d) 100 in
      Ret (mkCallResult failure None 0 ms 0)
  end.

(** [ClientEnd.Call]: what it returns, and the value that [reply] points to afterwards. *)
Definition ClientEnd_Call (nets : nat → Network) (heap : nat → Server) (d : Draws) (polls : nat)
    (st : St) (endname svcMeth : string) (argsType : T) (args reply : V)
    : outcome (bool * V * option CallResult) :=
  let '(qb, ok) := encode args in
  if negb ok then Panic "Encode" else
  let req := mkReqMsg endname svcMeth argsType qb in
  if rn_done (nets 0%nat) then Ret (false, reply, None) else
  res ← processReq nets heap d polls st req;
  if rep_ok (cr_reply res) then
    let '(reply, ok) := decode (rep_reply (cr_reply res)) reply in
    if ok : bool then Ret (true, reply, Some res) else Fatal "ClientEnd.Call(): decode reply"
  else Ret (false, reply, Some res).

(** ** Lemmas *)

(** What the random number generator guarantees. *)
Record draws_ok (d : Draws) : Prop := {
  do_short : 0 ≤ d_short d < 2 ^ 63;
  do_drop_req : 0 ≤ d_drop_req d < 2 ^ 63;
  do_drop_rep : 0 ≤ d_drop_rep d < 2 ^ 63;
  do_reorder : 0 ≤ d_reorder d < 900;
  do_inner : 0 ≤ d_inner d < 2000;
  do_outer : 0 ≤ d_outer d < 1 + d_inner d;
  do_timeout : 0 ≤ d_timeout d < 2 ^ 63
}.

(** The server that an end reaches, if it is enabled, connected and the server is there. *)
Definition reaches (rn : Network) (endname servername : string) (server : nat) : Prop :=
  rn_enabled rn !! endname = Some true ∧ rn_connections rn !! endname = Some (Some servername) ∧
  rn_servers rn !! servername = Some (Some server).

Lemma readEndnameInfo_reaches rn endname :
  (∃ servername server, reaches rn endname servername server ∧
     readEndnameInfo rn endname =
       (true, Some servername, Some server, rn_reliable rn, rn_longReordering rn)) ∨
  ((∀ servername server, ¬ reaches rn endname servername server) ∧
   ∀ servername server r l, readEndnameInfo rn endname ≠ (true, Some servername, Some server, r, l)).
Proof.
  unfold readEndnameInfo, reaches, map_get.
  destruct (rn_enabled rn !! endname) as [[]|]; simpl; [|right; naive_solver..].
  destruct (rn_connections rn !! endname) as [[s|]|]; simpl; [|right; naive_solver..].
  destruct (rn_servers rn !! s) as [[r|]|] eqn:E; simpl; [left|right; naive_solver..].
  by exists s, r.
Qed.

Lemma reaches_alive rn endname servername server :
  reaches rn endname servername server → isServerDead rn endname servername server = false.
Proof.
  intros (He & _ & Hs). unfold isServerDead, map_get. rewrite He, Hs. simpl.
  rewrite bool_decide_eq_false_2; [done|]. intros [?|?]; done.
Qed.

Lemma wait_handler_alive nets endname servername server k polls :
  (∀ k, isServerDead (nets k) endname servername server = false) →
  ∃ k', wait_handler nets endname servername server k polls = (true, k').
Proof.
  intros Ha. revert k. induction polls as [|polls IH]; intros k; simpl; [eauto|].
  rewrite Ha. apply IH.
Qed.

(** Every outcome of a request: its handler did not run and it failed; or its handler ran
    once, on the server that the end reached at the start, and it failed or returned the
    handler's reply. *)
Lemma processReq_cases nets heap d polls st req res :
  draws_ok d → processReq nets heap d polls st req = Ret res →
  0 ≤ cr_before res < SHORTDELAY ∧ 0 ≤ cr_after res < LONGDELAY ∧
  ((cr_exec res = None ∧ cr_reply res = failure) ∨
   ∃ servername server rs' st' rep,
     reaches (nets 0%nat) (req_endname req) servername server ∧
     Server_dispatch (heap server) req st = Ret (rs', st', rep) ∧
     cr_exec res = Some (rs', st') ∧
     (cr_reply res = failure ∨ cr_reply res = rep)).
Proof.
  intros [? ? ? ? ? ? ?] Hp. unfold processReq in Hp.
  pose proof (Z.rem_bound_pos (d_short d) SHORTDELAY) as Hs.
  pose proof (Z.rem_bound_pos (d_timeout d) LONGDELAY) as Hl.
  pose proof (Z.rem_bound_pos (d_timeout d) 100) as Ht.
  unfold SHORTDELAY, LONGDELAY in *.
  destruct (readEndnameInfo_reaches (nets 0%nat) (req_endname req))
    as [(servername & server & Hr & Hi)|[Hn Hi]].
  - rewrite Hi in Hp.
    destruct (negb (rn_reliable (nets 0%nat)) && (Z.rem (d_drop_req d) 1000 <? 100)).
    { simplify_eq/=. destruct (rn_reliable (nets 0%nat)); split_and!; try lia; by left. }
    destruct (Server_dispatch (heap server) req st) as [[[rs' st'] rep]| |] eqn:Hd; simpl in Hp;
      try done.
    destruct (wait_handler _ _ _ _ _ _) as [replyOK k].
    repeat case_match; simplify_eq/=; (split_and!; [lia..|]); right;
      exists servername, server, rs', st', rep; auto.
  - destruct (readEndnameInfo _ _) as [[[[en sn] sv] r] l]. specialize (Hi (default "" sn) (default 0%nat sv) r l).
    assert (Hres : res = mkCallResult failure None 0 (if IsLongDelays (nets 1%nat)
      then Z.rem (d_timeout d) 7000 else Z.rem (d_timeout d) 100) 0)
      by (by destruct en, sn, sv; simplify_eq/=).
    subst res. simpl. destruct (IsLongDelays _); split_and!; try lia; by left.
Qed.
(** The same of a whole call: no handler ran and it failed, or one ran and it failed or
    returned the decoded reply. *)
Lemma Call_cases nets heap d polls st endname svcMeth argsType args reply ok reply' ores :
  draws_ok d →
  ClientEnd_Call nets heap d polls st endname svcMeth argsType args reply = Ret (ok, reply', ores) →
  (∀ res, ores = Some res → 0 ≤ cr_before res + cr_after res < MAXDELAY) ∧
  ((ok = false ∧ reply' = reply ∧ ores ≫= cr_exec = None) ∨
   ∃ servername server rs' st' rep,
     reaches (nets 0%nat) endname servername server ∧
     Server_dispatch (heap server) (mkReqMsg endname svcMeth argsType (encode args).1) st =
       Ret (rs', st', rep) ∧
     ores ≫= cr_exec = Some (rs', st') ∧
     ((ok = false ∧ reply' = reply) ∨ (ok = true ∧ decode (rep_reply rep) reply = (reply', true)))).
Proof.
  intros Hd Hc. unfold ClientEnd_Call in Hc. destruct (encode args) as [qb []]; [|done].
  simpl in Hc. destruct (rn_done (nets 0%nat)).
  { simplify_eq. split; [done|by left]. }
  bind_inv Hc. destruct (processReq_cases _ _ _ _ _ _ _ Hd Hbind) as (Hb & Ha & Hcase).
  assert (Hdel : 0 ≤ cr_before a + cr_after a < MAXDELAY).
  { unfold SHORTDELAY, LONGDELAY, MAXDELAY, LONGDELAY in *. lia. }
  destruct Hcase as [[Hex Hrep]|(sn & sv & rs' & st' & rep & Hr & Hdis & Hex & Hrep)].
  - rewrite Hrep in Hc. simplify_eq/=. split; [by intros ? [= <-]|by left].
  - destruct (rep_ok (cr_reply a)) eqn:Hok.
    + destruct Hrep as [Hrep|Hrep]; [by rewrite Hrep in Hok|]. rewrite Hrep in *.
      destruct (decode (rep_reply rep) reply) as [r []] eqn:Hdec; simplify_eq.
      split; [by intros ? [= <-]|]. right. eexists sn, sv, rs', st', _. eauto 10.
    + simplify_eq. split; [by intros ? [= <-]|]. right. eexists sn, sv, rs', st', _. eauto 10.
Qed.

(** A call ends without a panic when the handler it reaches does and its reply can be read. *)
Lemma Call_total nets heap d polls st endname svcMeth argsType args reply :
  (encode args).2 = true →
  (∀ servername server, reaches (nets 0%nat) endname servername server →
     ∃ rs' st' rep reply',
       Server_dispatch (heap server) (mkReqMsg endname svcMeth argsType (encode args).1) st =
         Ret (rs', st', rep) ∧
       decode (rep_reply rep) reply = (reply', true)) →
  is_Ret (ClientEnd_Call nets heap d polls st endname svcMeth argsType args reply).
Proof.
  intros He Hh. unfold ClientEnd_Call, is_Ret. destruct (encode args) as [qb ok]. simpl in He, Hh.
  subst ok. simpl. destruct (rn_done (nets 0%nat)); [eauto|].
  unfold processReq. cbn [req_endname].
  destruct (readEndnameInfo_reaches (nets 0%nat) endname) as [(sn & sv & Hr & ->)|[_ Hi]].
  - destruct (Hh _ _ Hr) as (rs' & st' & rep & reply' & Hdis & Hdec).
    destruct (negb (rn_reliable (nets 0%nat)) && (Z.rem (d_drop_req d) 1000 <? 100)); [simpl; eauto|].
    rewrite Hdis. simpl. destruct (wait_handler _ _ _ _ _ _) as [replyOK k].
    repeat case_match; simpl; eauto; simplify_eq; simpl; rewrite Hdec; case_match; eauto.
  - destruct (readEndnameInfo _ _) as [[[[en sn] sv] r] l].
    destruct en, sn, sv; simpl; eauto. by destruct (Hi s n r l).
Qed.
End labrpc.

Arguments Method : clear implicits.
Arguments Service : clear implicits.
Arguments Server : clear implicits.

(** ** Properties *)

(** C19: what [Call] promises, whatever the network does meanwhile. If it returns true, the
    handler ran exactly once, on the arguments sent, at the server the end reached when
    the call began, and the reply is what that run produced. If it returns false the
    reply is untouched, and the handler ran once or not at all: not at all if the end
    was disabled, unconnected or its server gone when the call began. The delays stay
    below the documented maximum. *)
Theorem Call_fate {V T St} (encode : V → bytes * bool) (decode : bytes → V → V * bool) (zero : T → V)
    nets heap d polls (st : St) endname svcMeth argsType args reply ok reply' ores :
  draws_ok d →
  ClientEnd_Call encode decode zero nets heap d polls st endname svcMeth argsType args reply =
    Ret (ok, reply', ores) →
  let req := mkReqMsg endname svcMeth argsType (encode args).1 in
  (ok = true → ∃ servername server rs' st' rep res,
     reaches (nets 0%nat) endname servername server ∧
     Server_dispatch encode decode zero (heap server) req st = Ret (rs', st', rep) ∧
     decode (rep_reply rep) reply = (reply', true) ∧
     ores = Some res ∧ cr_exec res = Some (rs', st')) ∧
  (ok = false → reply' = reply ∧ ∀ res rs' st', ores = Some res → cr_exec res = Some (rs', st') →
     ∃ servername server rep, reaches (nets 0%nat) endname servername server ∧
       Server_dispatch encode decode zero (heap server) req st = Ret (rs', st', rep)) ∧
  (∀ res, ores = Some res → 0 ≤ cr_before res + cr_after res < MAXDELAY).
Proof.
  intros Hd Hc req.
  destruct (Call_cases _ _ _ _ _ _ _ _ _ _ _ _ _ _ _ _ Hd Hc)
    as [Hdel [(-> & -> & Hno)|(sn & sv & rs' & st' & rep & Hr & Hdis & Hex & Hrep)]].
  - split_and!; [done| |done]. intros _. split; [done|]. intros; by simplify_eq/=.
  - apply bind_Some in Hex as (res & -> & Hex).
    destruct Hrep as [[-> ->]|[-> Hdec]]; (split_and!; [done || eauto 10|done || eauto|done]).
    + intros _. split; [done|]. intros; simplify_eq. eauto.
    + intros _. by exists sn, sv, rs', st', rep, res.
Qed.

(** On a reliable network calls succeed. If the end reaches a server at every read,
    the network is reliable, the method is a registered handler, and labgob decodes what
    it encodes, then [Call] returns true with the value that the handler computed from
    the arguments, whatever the draws and however long the handler takes, and the server
    has counted one more request. *)
Theorem Call_reliable {V T St} (encode : V → bytes * bool) (decode : bytes → V → V * bool) (zero : T → V)
    nets heap d polls (st st' : St) endname servername server svcMeth sname mname svc method
    argsType args reply v :
  (∀ k, reaches (nets k) endname servername server ∧ rn_reliable (nets k) = true ∧
        rn_done (nets k) = false) →
  split_last_dot svcMeth = Some (sname, mname) →
  rs_services (heap server) !! sname = Some svc → svc_methods svc !! mname = Some method →
  (encode args).2 = true → decode (encode args).1 (zero argsType) = (args, true) →
  decode (encode v).1 reply = (v, true) →
  m_Func method st args (zero (m_replyType method)) = Ret (st', v) →
  ∃ res, ClientEnd_Call encode decode zero nets heap d polls st endname svcMeth argsType args reply =
      Ret (true, v, Some res) ∧
    cr_exec res = Some (mkServer (rs_services (heap server)) (i64_wrap (rs_count (heap server) + 1)),
                        st').
Proof.
  intros Hn Hsplit Hsvc Hm He Hda Hdr Hf. unfold ClientEnd_Call.
  destruct (encode args) as [qb ok]. simpl in He, Hda. subst ok. cbn [negb].
  destruct (Hn 0%nat) as (Hr & Hrel & ->).
  unfold processReq. cbn [req_endname].
  destruct (readEndnameInfo_reaches (nets 0%nat) endname) as [(sn & sv & Hr' & ->)|[Hno _]];
    [|by destruct (Hno _ _ Hr)].
  assert (sn = servername ∧ sv = server) as [-> ->].
  { destruct Hr as (_ & Hc & Hs), Hr' as (_ & Hc' & Hs'). split; congruence. }
  rewrite Hrel. simpl. unfold Server_dispatch, Service_dispatch. simpl. rewrite Hsplit, Hsvc, Hm.
  rewrite Hda. simpl. rewrite Hf. simpl. destruct (encode v) as [rb rok]. simpl in *.
  assert (Ha : ∀ k, isServerDead (nets k) endname servername server = false)
    by (intros k; by apply reaches_alive, Hn).
  destruct (wait_handler_alive nets endname servername server 1 polls Ha) as [k ->]. simpl.
  rewrite Ha. destruct (rn_longReordering (nets 0%nat) && (d_reorder d <? 600)); simpl;
    rewrite Hdr; eauto.
Qed.

(** ** Witnesses *)

(** A server that counts: the state is a number, a request adds its argument. *)
Definition add_method : Method Z unit Z :=
  mkMethod "Add" true 3 true 0 tt (λ st args _, Ret (st + args, st + args)).

Definition add_server : Server Z unit Z :=
  AddService MakeServer (MakeService "Adder" [add_method]).

(** A network with one end connected to it. *)
Definition add_network : outcome Network :=
  rn ← MakeEnd MakeNetwork "end";
  Ret (Enable (AddServer (Connect rn "end" "srv") "srv" 0) "end" true).

Definition add_rn : Network :=
  match add_network with Ret rn => rn | _ => MakeNetwork end.

Definition one_byte (v : Z) : bytes * bool := ([v], true).
Definition from_byte (b : bytes) (old : Z) : Z * bool :=
  match head b with Some v => (v, true) | None => (old, false) end.

Example Call_reliable_witness :
  ∃ res, ClientEnd_Call one_byte from_byte (λ _, 0) (λ _, add_rn) (λ _, add_server)
      (mkDraws 5 5 5 5 5 5 5) 3 40 "end" "Adder.Add" tt 2 0 = Ret (true, 42, Some res) ∧
    cr_exec res = Some (mkServer (rs_services add_server) 1, 42).
Proof.
  apply (Call_reliable one_byte from_byte (λ _, 0) (λ _, add_rn) (λ _, add_server)
    (mkDraws 5 5 5 5 5 5 5) 3 40 42 "end" "srv" 0 "Adder.Add" "Adder" "Add"
    (MakeService "Adder" [add_method]) add_method tt 2 0 42); try reflexivity.
  intros k. by vm_compute.
Defined.

Example Call_fate_witness :
  ∃ ok reply' ores, ClientEnd_Call one_byte from_byte (λ _, 0) (λ _, Reliable add_rn false)
      (λ _, add_server) (mkDraws 5 500 50 5 5 5 5) 3 40 "end" "Adder.Add" tt 2 0 =
      Ret (ok, reply', ores) ∧
    (ok = false → reply' = 0) ∧
    ∀ res, ores = Some res → 0 ≤ cr_before res + cr_after res < MAXDELAY.
Proof.
  eexists _, _, _. split; [vm_compute; reflexivity|].
  destruct (Call_fate one_byte from_byte (λ _, 0) (λ _, Reliable add_rn false)
    (λ _, add_server) (mkDraws 5 500 50 5 5 5 5) 3 40 "end" "Adder.Add" tt 2 0 false 0 _
    ltac:(split; simpl; lia) eq_refl) as (_ & H2 & H3).
  split; [intros H; apply (H2 H)|apply H3].
Defined.
