(* ===== verification/Persister.v ===== *)
(** * The persister ([tester1/persister.go])

    A persister holds two byte slices. Slices are references, so the model has a heap of
    byte arrays: [clone] allocates, [Copy] shares. The theorem is that none of this is
    visible: a persister behaves like a pair of byte strings, whatever its clients write
    into the slices that they pass in or get back. *)

From S2P Require Export Prelude.

Local Open Scope Z_scope.

Abbreviation slice := nat (only parsing).
Abbreviation Heap := (gmap nat (list Z)) (only parsing).

(** [None] is the nil slice. *)
Record Persister := mkPersister { ps_raftstate : option slice; ps_snapshot : option slice }.

Definition MakePersister : Persister := mkPersister None None.

(** The bytes of a slice; nil has none. *)
Definition slice_bytes (h : Heap) (s : option slice) : list Z :=
  match s with Some r => map_get [] h r | None => [] end.

Definition clone (h : Heap) (orig : option slice) : Heap * slice :=
  let x := fresh (dom h) in
  (<[x := slice_bytes h orig]> h, x).

Definition Persister_Copy (ps : Persister) : Persister :=
  let np := MakePersister in
  let np := mkPersister (ps_raftstate ps) (ps_snapshot np) in
  mkPersister (ps_raftstate np) (ps_snapshot ps).

Definition ReadRaftState (h : Heap) (ps : Persister) : Heap * slice := clone h (ps_raftstate ps).

Definition RaftStateSize (h : Heap) (ps : Persister) : Z :=
  Z.of_nat (length (slice_bytes h (ps_raftstate ps))).

Definition Save (h : Heap) (ps : Persister) (raftstate snapshot : option slice)
    : Heap * Persister :=
  let '(h, r) := clone h raftstate in
  let ps := mkPersister (Some r) (ps_snapshot ps) in
  let '(h, s) := clone h snapshot in
  (h, mkPersister (ps_raftstate ps) (Some s)).

Definition ReadSnapshot (h : Heap) (ps : Persister) : Heap * slice := clone h (ps_snapshot ps).

Definition SnapshotSize (h : Heap) (ps : Persister) : Z :=
  Z.of_nat (length (slice_bytes h (ps_snapshot ps))).

(** ** Programs that use persisters *)

(** Persisters are numbered in the order of creation. A slice that the program uses is
    given by its position among the slices it has obtained; [None] is nil. *)
Inductive PersistCmd :=
  | PMake
  | PCopy (i : nat)
  | PSave (i : nat) (raftstate snapshot : option nat)
  | PReadRaftState (i : nat)
  | PReadSnapshot (i : nat)
  | PSizes (i : nat)
  | PAlloc (b : list Z)              (* the program makes a slice *)
  | PWrite (k : nat) (b : list Z).   (* the program overwrites a slice it has *)

(** The heap, the persisters, and the slices that the program has. *)
Record PWorld := mkPWorld { pw_heap : Heap; pw_ps : list Persister; pw_slices : list slice }.

(** The same with values: what the persisters hold, and the contents of the program's slices. *)
Record AWorld := mkAWorld { aw_ps : list (list Z * list Z); aw_slices : list (list Z) }.

(** What a command lets the program see: the two sizes, or nothing. *)
Abbreviation Seen := (option (Z * Z)) (only parsing).

Definition the_slice (w : PWorld) (k : option nat) : option slice := k ≫= λ k, pw_slices w !! k.

Definition run_cmd (w : PWorld) (c : PersistCmd) : outcome (PWorld * Seen) :=
  match c with
  | PMake => Ret (mkPWorld (pw_heap w) (pw_ps w ++ [MakePersister]) (pw_slices w), None)
  | PAlloc b =>
      let x := fresh (dom (pw_heap w)) in
      Ret (mkPWorld (<[x := b]> (pw_heap w)) (pw_ps w) (pw_slices w ++ [x]), None)
  | PWrite k b =>
      match pw_slices w !! k with
      | Some x => Ret (mkPWorld (<[x := b]> (pw_heap w)) (pw_ps w) (pw_slices w), None)
      | None => Panic "no such slice"
      end
  | PCopy i | PSave i _ _ | PReadRaftState i | PReadSnapshot i | PSizes i =>
      match pw_ps w !! i with
      | None => Panic "nil pointer dereference"
      | Some ps =>
          match c with
          | PCopy _ => Ret (mkPWorld (pw_heap w) (pw_ps w ++ [Persister_Copy ps]) (pw_slices w), None)
          | PSave _ r s =>
              let '(h, ps) := Save (pw_heap w) ps (the_slice w r) (the_slice w s) in
              Ret (mkPWorld h (<[i := ps]> (pw_ps w)) (pw_slices w), None)
          | PReadRaftState _ =>
              let '(h, x) := ReadRaftState (pw_heap w) ps in
              Ret (mkPWorld h (pw_ps w) (pw_slices w ++ [x]), None)
          | PReadSnapshot _ =>
              let '(h, x) := ReadSnapshot (pw_heap w) ps in
              Ret (mkPWorld h (pw_ps w) (pw_slices w ++ [x]), None)
          | _ => Ret (w, Some (RaftStateSize (pw_heap w) ps, SnapshotSize (pw_heap w) ps))
          end
      end
  end.

Definition the_bytes (a : AWorld) (k : option nat) : list Z :=
  default [] (k ≫= λ k, aw_slices a !! k).

(** The specification: persisters and slices are values. *)
Definition spec_cmd (a : AWorld) (c : PersistCmd) : outcome (AWorld * Seen) :=
  match c with
  | PMake => Ret (mkAWorld (aw_ps a ++ [([], [])]) (aw_slices a), None)
  | PAlloc b => Ret (mkAWorld (aw_ps a) (aw_slices a ++ [b]), None)
  | PWrite k b =>
      match aw_slices a !! k with
      | Some _ => Ret (mkAWorld (aw_ps a) (<[k := b]> (aw_slices a)), None)
      | None => Panic "no such slice"
      end
  | PCopy i | PSave i _ _ | PReadRaftState i | PReadSnapshot i | PSizes i =>
      match aw_ps a !! i with
      | None => Panic "nil pointer dereference"
      | Some (r, s) =>
          match c with
          | PCopy _ => Ret (mkAWorld (aw_ps a ++ [(r, s)]) (aw_slices a), None)
          | PSave _ kr ks =>
              Ret (mkAWorld (<[i := (the_bytes a kr, the_bytes a ks)]> (aw_ps a)) (aw_slices a), None)
          | PReadRaftState _ => Ret (mkAWorld (aw_ps a) (aw_slices a ++ [r]), None)
          | PReadSnapshot _ => Ret (mkAWorld (aw_ps a) (aw_slices a ++ [s]), None)
          | _ => Ret (a, Some (Z.of_nat (length r), Z.of_nat (length s)))
          end
      end
  end.

(** ** The simulation *)

(** The slices that a persister refers to. *)
Definition ps_refs (ps : Persister) : list slice :=
  option_list (ps_raftstate ps) ++ option_list (ps_snapshot ps).

Definition ps_value (h : Heap) (ps : Persister) : list Z * list Z :=
  (slice_bytes h (ps_raftstate ps), slice_bytes h (ps_snapshot ps)).

(** The program's slices are distinct, allocated, and no persister refers to them. *)
Record sim (w : PWorld) (a : AWorld) : Prop := {
  sim_ps : ps_value (pw_heap w) <$> pw_ps w = aw_ps a;
  sim_slices : (λ x, map_get [] (pw_heap w) x) <$> pw_slices w = aw_slices a;
  sim_nodup : NoDup (pw_slices w);
  sim_alloc x : x ∈ pw_slices w → x ∈ dom (pw_heap w);
  sim_refs ps x : ps ∈ pw_ps w → x ∈ ps_refs ps → x ∈ dom (pw_heap w) ∧ x ∉ pw_slices w
}.

Lemma slice_bytes_insert h x b s :
  s ≠ Some x → slice_bytes (<[x := b]> h) s = slice_bytes h s.
Proof.
  destruct s as [y|]; simpl; [|done]. intros Hne. apply map_get_insert_ne. congruence.
Qed.

Lemma ps_value_insert h x b ps : x ∉ ps_refs ps → ps_value (<[x := b]> h) ps = ps_value h ps.
Proof.
  unfold ps_refs, ps_value. rewrite elem_of_app. intros Hx.
  rewrite !slice_bytes_insert; [done|..]; intros E; apply Hx; rewrite E; set_solver.
Qed.

Lemma fresh_slice (h : Heap) : fresh (dom h) ∉ dom h.
Proof. apply is_fresh. Qed.

(** Writing to a slice that no persister refers to changes no persister's value. *)
Lemma values_insert h x b (l : list Persister) :
  (∀ ps, ps ∈ l → x ∉ ps_refs ps) → ps_value (<[x := b]> h) <$> l = ps_value h <$> l.
Proof.
  intros Hx. apply list_fmap_ext. intros i ps Hps. apply ps_value_insert, Hx.
  by eapply list_elem_of_lookup_2.
Qed.

Lemma slices_insert_fresh (h : Heap) x b (l : list slice) :
  x ∉ l → (λ y, map_get [] (<[x := b]> h) y) <$> l = (λ y, map_get [] h y) <$> l.
Proof.
  intros Hx. apply list_fmap_ext. intros i y Hy. apply map_get_insert_ne.
  intros ->. by eapply Hx, list_elem_of_lookup_2.
Qed.

(** A new array, of which nobody knows yet. *)
Lemma sim_alloc_fresh w a b :
  sim w a →
  let x := fresh (dom (pw_heap w)) in
  sim (mkPWorld (<[x := b]> (pw_heap w)) (pw_ps w) (pw_slices w)) a ∧
  (x ∉ pw_slices w) ∧ ∀ ps, ps ∈ pw_ps w → x ∉ ps_refs ps.
Proof.
  intros [Hp Hs Hnd Ha Hr] x. pose proof (fresh_slice (pw_heap w)) as Hx. fold x in Hx.
  assert (Hxs : x ∉ pw_slices w) by (intros ?%Ha; done).
  assert (Hxr : ∀ ps, ps ∈ pw_ps w → x ∉ ps_refs ps).
  { intros ps Hps Hin. by destruct (Hr ps x Hps Hin). }
  split_and!; [|done|done]. split; simpl.
  - by rewrite values_insert.
  - by rewrite slices_insert_fresh.
  - done.
  - intros y Hy. rewrite dom_insert_L. set_solver.
  - intros ps y Hps Hy. rewrite dom_insert_L. destruct (Hr ps y Hps Hy). set_solver.
Qed.

(** The program gets the array [x]. *)
Lemma sim_give w a x :
  sim w a → x ∈ dom (pw_heap w) → x ∉ pw_slices w → (∀ ps, ps ∈ pw_ps w → x ∉ ps_refs ps) →
  sim (mkPWorld (pw_heap w) (pw_ps w) (pw_slices w ++ [x]))
    (mkAWorld (aw_ps a) (aw_slices a ++ [map_get [] (pw_heap w) x])).
Proof.
  intros [Hp Hs Hnd Ha Hr] Hx Hxs Hxr. split; simpl.
  - done.
  - by rewrite fmap_app, Hs.
  - apply NoDup_app. split_and!; [done|set_solver|apply NoDup_singleton].
  - set_solver.
  - intros ps y Hps Hy. destruct (Hr ps y Hps Hy). split; [done|].
    rewrite not_elem_of_app, list_elem_of_singleton. split; [done|]. intros ->. by eapply Hxr.
Qed.

(** Reading a persister: a clone of what it holds. *)
Lemma sim_read w a s :
  sim w a →
  let '(h, x) := clone (pw_heap w) s in
  sim (mkPWorld h (pw_ps w) (pw_slices w ++ [x]))
    (mkAWorld (aw_ps a) (aw_slices a ++ [slice_bytes (pw_heap w) s])).
Proof.
  intros Hsim. unfold clone.
  destruct (sim_alloc_fresh w a (slice_bytes (pw_heap w) s) Hsim) as (H1 & H2 & H3).
  pose proof (sim_give _ _ (fresh (dom (pw_heap w))) H1) as Hg. simpl in Hg.
  rewrite map_get_insert_eq in Hg. apply Hg; [|done|done]. rewrite dom_insert_L. set_solver.
Qed.

Lemma sim_the_slice w a k : sim w a → slice_bytes (pw_heap w) (the_slice w k) = the_bytes a k.
Proof.
  intros Hs. unfold the_slice, the_bytes. destruct k as [k|]; simpl; [|done].
  rewrite <-(sim_slices _ _ Hs), list_lookup_fmap. by destruct (pw_slices w !! k).
Qed.

(** Saving: the persister gets two new arrays. *)
Lemma sim_save w a i ps kr ks :
  sim w a → pw_ps w !! i = Some ps →
  let '(h, ps') := Save (pw_heap w) ps (the_slice w kr) (the_slice w ks) in
  sim (mkPWorld h (<[i := ps']> (pw_ps w)) (pw_slices w))
    (mkAWorld (<[i := (the_bytes a kr, the_bytes a ks)]> (aw_ps a)) (aw_slices a)).
Proof.
  intros Hsim Hi. unfold Save, clone. simpl.
  set (h := pw_heap w). set (r := the_slice w kr). set (s := the_slice w ks).
  destruct (sim_alloc_fresh w a (slice_bytes h r) Hsim) as (H1 & H2 & H3). fold h in H1, H2, H3.
  set (x := fresh (dom h)) in *. set (h1 := <[x := slice_bytes h r]> h) in *.
  destruct (sim_alloc_fresh _ a (slice_bytes h1 s) H1) as (H4 & H5 & H6). simpl in H4, H5, H6.
  set (y := fresh (dom h1)) in *. set (h2 := <[y := slice_bytes h1 s]> h1) in *.
  assert (Hx : x ∉ dom h) by apply fresh_slice. assert (Hy : y ∉ dom h1) by apply fresh_slice.
  assert (Hxy : x ≠ y) by (intros E; apply Hy; rewrite <-E; unfold h1; rewrite dom_insert_L; set_solver).
  assert (Hsb : slice_bytes h1 s = the_bytes a ks).
  { pose proof (sim_the_slice _ a ks H1) as Hb. simpl in Hb. exact Hb. }
  destruct H4 as [Hp Hs Hnd Ha Hr]. simpl in *. split; simpl.
  - rewrite list_fmap_insert, Hp. f_equal. unfold ps_value. simpl.
    assert (E1 : map_get [] h2 x = slice_bytes h r).
    { unfold h2. rewrite map_get_insert_ne by done. unfold h1. by rewrite map_get_insert_eq. }
    assert (E2 : map_get [] h2 y = slice_bytes h1 s) by (unfold h2; by rewrite map_get_insert_eq).
    rewrite E1, E2, Hsb. f_equal. by apply sim_the_slice.
  - done.
  - done.
  - done.
  - intros p z Hpz Hz. apply list_elem_of_lookup_1 in Hpz as [j Hj].
    apply list_lookup_insert_Some in Hj as [(<- & <- & _)|[_ Hj]].
    + unfold ps_refs in Hz. simpl in Hz. unfold h2, h1. rewrite !dom_insert_L.
      apply elem_of_cons in Hz as [->|Hz%list_elem_of_singleton]; [|subst z]; set_solver.
    + apply (Hr p z); [by eapply list_elem_of_lookup_2|done].
Qed.

(** The program writes into a slice it has. *)
Lemma sim_write w a k x b :
  sim w a → pw_slices w !! k = Some x →
  sim (mkPWorld (<[x := b]> (pw_heap w)) (pw_ps w) (pw_slices w))
    (mkAWorld (aw_ps a) (<[k := b]> (aw_slices a))).
Proof.
  intros [Hp Hs Hnd Ha Hr] Hk. assert (Hx : x ∈ pw_slices w) by by eapply list_elem_of_lookup_2.
  split; simpl.
  - rewrite values_insert; [done|]. intros ps Hps Hin. by destruct (Hr ps x Hps Hin).
  - rewrite <-Hs. apply list_eq. intros j. rewrite list_lookup_fmap.
    destruct (decide (k = j)) as [<-|Hne].
    + rewrite Hk, list_lookup_insert_eq; simpl; [by rewrite map_get_insert_eq|].
      rewrite length_fmap. by eapply lookup_lt_Some.
    + rewrite list_lookup_insert_ne, list_lookup_fmap by done.
      destruct (pw_slices w !! j) as [y|] eqn:Ej; simpl; [|done].
      rewrite map_get_insert_ne; [done|]. intros ->. apply Hne. by eapply NoDup_lookup.
  - done.
  - intros y Hy. rewrite dom_insert_L. set_solver.
  - intros ps y Hps Hy. rewrite dom_insert_L. destruct (Hr ps y Hps Hy). set_solver.
Qed.

Lemma sim_add_ps w a ps :
  sim w a → (∀ x, x ∈ ps_refs ps → x ∈ dom (pw_heap w) ∧ x ∉ pw_slices w) →
  sim (mkPWorld (pw_heap w) (pw_ps w ++ [ps]) (pw_slices w))
    (mkAWorld (aw_ps a ++ [ps_value (pw_heap w) ps]) (aw_slices a)).
Proof.
  intros [Hp Hs Hnd Ha Hr] Hps. split; simpl; try done.
  - by rewrite fmap_app, Hp.
  - intros q x [Hq| ->%list_elem_of_singleton]%elem_of_app; [by apply Hr|apply Hps].
Qed.

Lemma run_cmd_sim w a c :
  sim w a →
  match run_cmd w c, spec_cmd a c with
  | Ret (w', o), Ret (a', o') => sim w' a' ∧ o = o'
  | Panic e, Panic e' => e = e'
  | _, _ => False
  end.
Proof.
  intros Hsim. pose proof Hsim as [Hp Hs Hnd Ha Hr].
  assert (Hps : ∀ i, aw_ps a !! i = ps_value (pw_heap w) <$> pw_ps w !! i)
    by (intros i; by rewrite <-Hp, list_lookup_fmap).
  destruct c as [|i|i kr ks|i|i|i|b|k b]; simpl; rewrite ?Hps;
    try (destruct (pw_ps w !! i) as [ps|] eqn:Ei; simpl; [|done]).
  - split; [|done]. apply (sim_add_ps w a MakePersister); [done|set_solver].
  - split; [|done]. apply (sim_add_ps w a (Persister_Copy ps)); [done|].
    intros x Hx. apply (Hr ps); [by eapply list_elem_of_lookup_2|done].
  - pose proof (sim_save w a i ps kr ks Hsim Ei) as H.
    split; [exact H|done].
  - split; [|done]. by apply (sim_read w a (ps_raftstate ps)).
  - split; [|done]. by apply (sim_read w a (ps_snapshot ps)).
  - done.
  - split; [|done]. destruct (sim_alloc_fresh w a b Hsim) as (H1 & H2 & H3).
    pose proof (sim_give _ _ (fresh (dom (pw_heap w))) H1) as Hg. simpl in Hg.
    rewrite map_get_insert_eq in Hg. apply Hg; [|done|done]. rewrite dom_insert_L. set_solver.
  - rewrite <-Hs, list_lookup_fmap. destruct (pw_slices w !! k) as [x|] eqn:Ek; simpl; [|done].
    split; [|done]. rewrite Hs. by eapply sim_write.
Qed.

Definition pworld_init : PWorld := mkPWorld ∅ [] [].
Definition aworld_init : AWorld := mkAWorld [] [].

Lemma init_sim : sim pworld_init aworld_init.
Proof. split; simpl; try done; try set_solver. constructor. Qed.

Lemma run_cmds_sim w a cs w' os :
  sim w a → run_list run_cmd w cs = Ret (w', os) →
  ∃ a', run_list spec_cmd a cs = Ret (a', os) ∧ sim w' a'.
Proof.
  revert w a os. induction cs as [|c cs IH]; intros w a os Hsim Hr; simpl in Hr |- *.
  { simplify_eq. eauto. }
  bind_inv Hr. bind_inv Hr. pose proof (run_cmd_sim w a c Hsim) as H. rewrite Hbind in H.
  destruct (spec_cmd a c) as [[a1 o1]| |]; [|done..]. destruct H as [H1 ->].
  destruct (IH _ _ _ H1 Hbind0) as (a' & Hr & H2). outcome_simpl. rewrite Hr. eauto.
Qed.

(** ** Properties *)

(** C30: a persister is a pair of byte strings. Whatever a program does with any number of
    persisters and the slices it passes in or gets back, writing into them included, it
    sees exactly what it would see if [Save] stored values, reads returned them, and
    [Copy] copied them: what is read is what was last saved, both parts from the same
    [Save], and a copy is independent of the original. *)
Theorem Persister_refines_values cs w os :
  run_list run_cmd pworld_init cs = Ret (w, os) →
  ∃ a, run_list spec_cmd aworld_init cs = Ret (a, os) ∧
    ps_value (pw_heap w) <$> pw_ps w = aw_ps a ∧
    (λ x, map_get [] (pw_heap w) x) <$> pw_slices w = aw_slices a.
Proof.
  intros Hr. destruct (run_cmds_sim _ _ _ _ _ init_sim Hr) as (a & Ha & [Hp Hs _ _ _]). eauto.
Qed.

(** ** Witnesses *)

(** A slice is saved, overwritten by the program, and read back from a copy. *)
Definition persist_script : list PersistCmd :=
  [PMake; PAlloc [1; 2]; PSave 0 (Some 0%nat) None; PWrite 0 [9; 9]; PCopy 0; PReadRaftState 1;
   PSave 0 None None; PReadRaftState 1; PSizes 1].

Example Persister_refines_values_witness :
  ∃ w os a, run_list spec_cmd aworld_init persist_script = Ret (a, os) ∧
    (λ x, map_get [] (pw_heap w) x) <$> pw_slices w = aw_slices a ∧
    aw_slices a = [[9; 9]; [1; 2]; [1; 2]].
Proof.
  destruct (run_list run_cmd pworld_init persist_script) as [[w os]| |] eqn:Hr;
    [|vm_compute in Hr; discriminate..].
  destruct (Persister_refines_values persist_script w os Hr) as (a & Ha & _ & Hs).
  exists w, os, a. split; [exact Ha|]. split; [exact Hs|].
  vm_compute in Ha. by injection Ha as <- _.
Defined.
