(* ===== verification/RaftApi.v ===== *)
(** * The interface of Raft ([raftapi/raftapi.go])

    What a service and the tester may call on a Raft peer, as a class, and the peer of
    [raft1/raft.go] with its persister as an instance. The laws are those that the clients of
    this repository rely on: the calls do not elect or depose anyone, and killing a peer twice is
    killing it once. *)

From S2P Require Export Raft Persister.

Local Open Scope Z_scope.

(** [raft1/util.go]: what [DPrintf] prints. *)
Definition Debug : bool := false.

Definition DPrintf {A} (line : A) : list A := if Debug then [line] else [].

Class RaftApi (R : Type) := {
  api_Start : R → any → R * (Z * Z * bool);
  api_GetState : R → Z * bool;
  api_Snapshot : R → Z → list Z → R;
  api_PersistBytes : R → Z;
  api_Kill : R → R
}.

Class RaftApiLaws (R : Type) `{RaftApi R} : Prop := {
  api_Start_state r c : api_GetState (api_Start r c).1 = api_GetState r;
  api_Snapshot_state r i s : api_GetState (api_Snapshot r i s) = api_GetState r;
  api_Kill_state r : api_GetState (api_Kill r) = api_GetState r;
  api_Kill_twice r : api_Kill (api_Kill r) = api_Kill r
}.

(** A peer and its persister, whose slices are in a heap. *)
Record RaftPeer := mkRaftPeer { rp_raft : Raft; rp_heap : Heap; rp_persister : Persister }.

Definition with_raft (rp : RaftPeer) (rf : Raft) : RaftPeer :=
  mkRaftPeer rf (rp_heap rp) (rp_persister rp).

Definition PersistBytes (rp : RaftPeer) : Z := RaftStateSize (rp_heap rp) (rp_persister rp).

#[export] Instance RaftPeer_api : RaftApi RaftPeer := {
  api_Start rp c := (rp, Start (rp_raft rp) c);
  api_GetState rp := GetState (rp_raft rp);
  api_Snapshot rp i s := with_raft rp (Snapshot (rp_raft rp) i s);
  api_PersistBytes := PersistBytes;
  api_Kill rp := with_raft rp (Kill (rp_raft rp))
}.

#[export] Instance RaftPeer_laws : RaftApiLaws RaftPeer.
Proof. split; intros []; reflexivity. Qed.

(** ** Sequences of calls *)

Inductive ApiCall :=
  | CallStart (command : any)
  | CallSnapshot (index : Z) (snapshot : list Z)
  | CallKill.

Section calls.
Context {R : Type} `{RaftApiLaws R}.

Definition api_call (r : R) (c : ApiCall) : R :=
  match c with
  | CallStart c => (api_Start r c).1
  | CallSnapshot i s => api_Snapshot r i s
  | CallKill => api_Kill r
  end.

(** No sequence of calls of its clients changes the term or the role of a peer. *)
Theorem api_calls_keep_state r cs : api_GetState (foldl api_call r cs) = api_GetState r.
Proof.
  revert r. induction cs as [|c cs IH]; intros r; simpl; [done|]. rewrite IH.
  destruct c; simpl; auto using api_Start_state, api_Snapshot_state, api_Kill_state.
Qed.
End calls.

(** As it stands the peer never saves anything: whatever is started or snapshotted, the size
    of its persisted log is what it was when the peer was made, and so is what a restarted
    peer will read. *)
Theorem PersistBytes_never_changes (rp : RaftPeer) cs :
  rp_heap (foldl api_call rp cs) = rp_heap rp ∧
  rp_persister (foldl api_call rp cs) = rp_persister rp ∧
  api_PersistBytes (foldl api_call rp cs) = api_PersistBytes rp.
Proof.
  assert (Hk : ∀ rp c, rp_heap (api_call rp c) = rp_heap rp ∧ rp_persister (api_call rp c) = rp_persister rp)
    by (intros ? []; done).
  enough (∀ rp, rp_heap (foldl api_call rp cs) = rp_heap rp ∧
    rp_persister (foldl api_call rp cs) = rp_persister rp) as Hall.
  { destruct (Hall rp) as [E1 E2]. split; [done|]. split; [done|]. simpl. unfold PersistBytes.
    by rewrite E1, E2. }
  clear rp. induction cs as [|c cs IH]; intros rp; simpl; [done|].
  destruct (IH (api_call rp c)) as [E1 E2], (Hk rp c) as [E3 E4]. split; congruence.
Qed.
