(* ===== verification/TesterGroup.v ===== *)
(** * Server groups of the tester ([tester1/group.go], [tester1/srv.go])

    Every server of a group has its own end towards each server of the group; connecting,
    disconnecting and partitioning enable and disable ends. All operations work on the
    shared network. Services are opaque; the list [w_killed] records the calls of [Kill].
    Fresh names of ends ([Randstring]) and pointers of servers are arguments. *)

From stdpp Require Import pretty.
From S2P Require Export Labrpc Persister.

Local Open Scope Z_scope.

Definition ServerName (gid : Z) (i : nat) : string :=
  "server-" +:+ pretty gid +:+ "-" +:+ pretty (Z.of_nat i).

Section group.
Context {Svc : Type}.

(** [tester.Server]; [endNames] is never nil. *)
Record TServer := mkTServer {
  ts_saved : option Persister;
  ts_svcs : list Svc;
  ts_endNames : list string
}.

Record World := mkWorld { w_net : Network; w_killed : list Svc }.

Definition with_net (w : World) (net : Network) : World := mkWorld net (w_killed w).

Definition Kill_all (w : World) (svcs : list Svc) : World := mkWorld (w_net w) (w_killed w ++ svcs).

Record ServerGrp := mkServerGrp {
  sg_srvs : list TServer;
  sg_servernames : list string;
  sg_gid : Z;
  sg_connected : list bool;
  sg_mks : Z → nat → option Persister → list Svc
}.

Definition set_srvs (sg : ServerGrp) (srvs : list TServer) : ServerGrp :=
  mkServerGrp srvs (sg_servernames sg) (sg_gid sg) (sg_connected sg) (sg_mks sg).

Definition set_connected (sg : ServerGrp) (c : list bool) : ServerGrp :=
  mkServerGrp (sg_srvs sg) (sg_servernames sg) (sg_gid sg) c (sg_mks sg).

(** ** Servers ([srv.go]) *)

(** The loop of [makeServer], from end [j] on; [names] are the random names. *)
Fixpoint make_ends (net : Network) (gid : Z) (names : list string) (j : nat) : outcome Network :=
  match names with
  | [] => Ret net
  | name :: names =>
      net ← MakeEnd net name;
      make_ends (Connect net name (ServerName gid j)) gid names (S j)
  end.

(** The number of ends is the number of names given. *)
Definition makeServer (net : Network) (gid : Z) (names : list string)
    : outcome (Network * TServer) :=
  net ← make_ends net gid names 0;
  Ret (net, mkTServer None [] names).

Definition startServer (net : Network) (s : TServer) (gid : Z) (names : list string)
    : outcome (Network * TServer) :=
  '(net, srv) ← makeServer net gid names;
  let saved := match ts_saved s with
               | Some ps => Persister_Copy ps
               | None => MakePersister
               end in
  Ret (net, mkTServer (Some saved) (ts_svcs srv) (ts_endNames srv)).

(** [IsConnected] is [sg.connected[i]]. *)
Definition IsConnected (connected : list bool) (i : nat) : outcome bool := index connected i.

Fixpoint Server_connect (net : Network) (endNames : list string) (connected : list bool)
    (to : list nat) : outcome Network :=
  match to with
  | [] => Ret net
  | t :: to =>
      c ← IsConnected connected t;
      if c : bool then
        endname ← index endNames t;
        Server_connect (Enable net endname true) endNames connected to
      else Server_connect net endNames connected to
  end.

Fixpoint Server_disconnect (net : Network) (endNames : list string) (from : list nat)
    : outcome Network :=
  match from with
  | [] => Ret net
  | f :: from =>
      endname ← index endNames f;
      Server_disconnect (Enable net endname false) endNames from
  end.

(** ** The group *)

(** The incoming ends in [connect]. *)
Fixpoint connect_incoming (net : Network) (srvs : list TServer) (connected : list bool) (i : nat)
    (to : list nat) : outcome Network :=
  match to with
  | [] => Ret net
  | t :: to =>
      c ← IsConnected connected t;
      if c : bool then
        s ← index srvs t;
        endname ← index (ts_endNames s) i;
        connect_incoming (Enable net endname true) srvs connected i to
      else connect_incoming net srvs connected i to
  end.

(** The incoming ends in [disconnect]. *)
Fixpoint disconnect_incoming (net : Network) (srvs : list TServer) (i : nat) (from : list nat)
    : outcome Network :=
  match from with
  | [] => Ret net
  | f :: from =>
      s ← index srvs f;
      endname ← index (ts_endNames s) i;
      disconnect_incoming (Enable net endname false) srvs i from
  end.

Definition connect (net : Network) (sg : ServerGrp) (i : nat) (to : list nat)
    : outcome (Network * ServerGrp) :=
  connected ← set_index (sg_connected sg) i true;
  s ← index (sg_srvs sg) i;
  net ← Server_connect net (ts_endNames s) connected to;
  net ← connect_incoming net (sg_srvs sg) connected i to;
  Ret (net, set_connected sg connected).

Definition disconnect (net : Network) (sg : ServerGrp) (i : nat) (from : list nat)
    : outcome (Network * ServerGrp) :=
  connected ← set_index (sg_connected sg) i false;
  s ← index (sg_srvs sg) i;
  net ← Server_disconnect net (ts_endNames s) from;
  net ← disconnect_incoming net (sg_srvs sg) i from;
  Ret (net, set_connected sg connected).

Definition sg_N (sg : ServerGrp) : nat := length (sg_srvs sg).

Definition SrvNames (sg : ServerGrp) : list string := sg_servernames sg.

Definition SrvName (sg : ServerGrp) (i : nat) : outcome string := index (sg_servernames sg) i.

Definition Services (sg : ServerGrp) : list (list Svc) := ts_svcs <$> sg_srvs sg.

Fixpoint SrvNamesTo (sg : ServerGrp) (to : list nat) : outcome (list string) :=
  match to with
  | [] => Ret []
  | i :: to => n ← index (sg_servernames sg) i; ns ← SrvNamesTo sg to; Ret (n :: ns)
  end.

Definition sg_all (sg : ServerGrp) : list nat := seq 0 (sg_N sg).

Definition ConnectOne (net : Network) (sg : ServerGrp) (i : nat) : outcome (Network * ServerGrp) :=
  connect net sg i (sg_all sg).

Fixpoint connect_each (net : Network) (sg : ServerGrp) (ids : list nat)
    : outcome (Network * ServerGrp) :=
  match ids with
  | [] => Ret (net, sg)
  | i :: ids => '(net, sg) ← ConnectOne net sg i; connect_each net sg ids
  end.

Definition ConnectAll (net : Network) (sg : ServerGrp) : outcome (Network * ServerGrp) :=
  connect_each net sg (sg_all sg).

Definition DisconnectAll (net : Network) (sg : ServerGrp) (i : nat)
    : outcome (Network * ServerGrp) := disconnect net sg i (sg_all sg).

Definition GetConnected (sg : ServerGrp) : list bool := sg_connected sg.

Definition sg_cleanup (w : World) (sg : ServerGrp) : World :=
  foldl (λ w s, Kill_all w (ts_svcs s)) w (sg_srvs sg).

(** [makeSrvGrp]; [names] has a list of end names for every server. *)
Fixpoint make_servers (net : Network) (gid : Z) (names : list (list string))
    : outcome (Network * list TServer) :=
  match names with
  | [] => Ret (net, [])
  | ns :: names =>
      '(net, s) ← makeServer net gid ns;
      '(net, ss) ← make_servers net gid names;
      Ret (net, s :: ss)
  end.

Definition makeSrvGrp (net : Network) (gid : Z) (names : list (list string))
    (mks : Z → nat → option Persister → list Svc) : outcome (Network * ServerGrp) :=
  '(net, srvs) ← make_servers net gid names;
  let n := length names in
  Ret (net, mkServerGrp srvs (ServerName gid <$> seq 0 n) gid (replicate n false) mks).

(** [StartServer]; [ptr] is the new labrpc server. *)
Definition StartServer (net : Network) (sg : ServerGrp) (i : nat) (names : list string) (ptr : nat)
    : outcome (Network * ServerGrp) :=
  s ← index (sg_srvs sg) i;
  '(net, srv) ← startServer net s (sg_gid sg) names;
  let srv := mkTServer (ts_saved srv) (sg_mks sg (sg_gid sg) i (ts_saved srv)) (ts_endNames srv) in
  Ret (AddServer net (ServerName (sg_gid sg) i) ptr, set_srvs sg (<[i := srv]> (sg_srvs sg))).

Definition shutdownServer (w : World) (s : TServer) : World * TServer :=
  (Kill_all w (ts_svcs s), mkTServer (Persister_Copy <$> ts_saved s) [] (ts_endNames s)).

Definition ShutdownServer (w : World) (sg : ServerGrp) (i : nat) : outcome (World * ServerGrp) :=
  '(net, sg) ← disconnect (w_net w) sg i (sg_all sg);
  let w := with_net w (DeleteServer net (ServerName (sg_gid sg) i)) in
  s ← index (sg_srvs sg) i;
  let '(w, s) := shutdownServer w s in
  Ret (w, set_srvs sg (<[i := s]> (sg_srvs sg))).

(** The loop of [MakePartition]: [i] and [j] as in the code, [k] iterations left. *)
Fixpoint partition_loop (k : nat) (l : Z) (i j : nat) (p1 p2 : list Z)
    : outcome (list Z * list Z) :=
  match k with
  | O => Ret (p1, p2)
  | S k =>
      if bool_decide (Z.of_nat i ≠ l) then
        if bool_decide (j < length p1)%nat
        then p1 ← set_index p1 j (Z.of_nat i); partition_loop k l (S i) (S j) p1 p2
        else p2 ← set_index p2 (j - length p1) (Z.of_nat i);
             partition_loop k l (S i) (S j) p1 p2
      else partition_loop k l (S i) j p1 p2
  end.

Definition MakePartition (sg : ServerGrp) (l : Z) : outcome (list Z * list Z) :=
  let n := sg_N sg in
  let p1 := replicate (n / 2 + 1) 0 in
  let p2 := replicate (n / 2) 0 in
  '(p1, p2) ← partition_loop n l 0 0 p1 p2;
  match length p2 with
  | O => Panic "index out of range [-1]"
  | S m => p2 ← set_index p2 m l; Ret (p1, p2)
  end.

(** One of the two loops of [Partition]. *)
Fixpoint partition_side (net : Network) (sg : ServerGrp) (ids side other : list nat)
    : outcome (Network * ServerGrp) :=
  match ids with
  | [] => Ret (net, sg)
  | i :: ids =>
      '(net, sg) ← disconnect net sg i other;
      '(net, sg) ← connect net sg i side;
      partition_side net sg ids side other
  end.

Definition Partition (net : Network) (sg : ServerGrp) (p1 p2 : list nat)
    : outcome (Network * ServerGrp) :=
  '(net, sg) ← partition_side net sg p1 p1 p2;
  partition_side net sg p2 p2 p1.

(** The largest persisted log and snapshot. *)
Definition LogSize (h : Heap) (sg : ServerGrp) : outcome Z :=
  foldl (λ acc s, logsize ← acc;
    match ts_saved s with
    | None => Panic "nil pointer dereference"
    | Some ps => Ret (if logsize <? RaftStateSize h ps then RaftStateSize h ps else logsize)
    end) (Ret 0) (sg_srvs sg).

Definition sg_SnapshotSize (h : Heap) (sg : ServerGrp) : outcome Z :=
  foldl (λ acc s, snapshotsize ← acc;
    match ts_saved s with
    | None => Panic "nil pointer dereference"
    | Some ps =>
        Ret (if snapshotsize <? SnapshotSize h ps then SnapshotSize h ps else snapshotsize)
    end) (Ret 0) (sg_srvs sg).

(** ** Ends of a group *)

(** Whether an end is enabled. *)
Definition on (net : Network) (x : string) : Prop := map_get false (rn_enabled net) x = true.

(** Two networks that differ only in which ends are enabled. *)
Definition same_but_enabled (net net' : Network) : Prop :=
  net' = with_names net (rn_ends net) (rn_enabled net') (rn_servers net) (rn_connections net).

#[export] Instance same_refl : Reflexive same_but_enabled.
Proof. intros []. done. Qed.

#[export] Instance same_trans : Transitive same_but_enabled.
Proof. intros n1 n2 n3. unfold same_but_enabled. intros -> ->. done. Qed.

Lemma on_true net y x : on (Enable net y true) x ↔ x = y ∨ on net x.
Proof.
  unfold on. simpl. destruct (decide (y = x)) as [->|Hne].
  - rewrite map_get_insert_eq. tauto.
  - rewrite map_get_insert_ne by done. naive_solver.
Qed.

Lemma on_false net y x : on (Enable net y false) x ↔ x ≠ y ∧ on net x.
Proof.
  unfold on. simpl. destruct (decide (y = x)) as [->|Hne].
  - rewrite map_get_insert_eq. naive_solver.
  - rewrite map_get_insert_ne by done. naive_solver.
Qed.

(** The end of server [a] towards server [b]. *)
Definition end_name (srvs : list TServer) (a b : nat) : option string :=
  s ← srvs !! a; ts_endNames s !! b.

Record wf (sg : ServerGrp) : Prop := {
  wf_connected : length (sg_connected sg) = sg_N sg;
  wf_ends a : (a < sg_N sg)%nat → ∃ s, sg_srvs sg !! a = Some s ∧ length (ts_endNames s) = sg_N sg;
  wf_inj a b c d x : end_name (sg_srvs sg) a b = Some x → end_name (sg_srvs sg) c d = Some x →
    a = c ∧ b = d
}.

Lemma end_name_Some sg a b :
  wf sg → (a < sg_N sg)%nat → (b < sg_N sg)%nat → ∃ s x, sg_srvs sg !! a = Some s ∧
    ts_endNames s !! b = Some x ∧ end_name (sg_srvs sg) a b = Some x.
Proof.
  intros Hw Ha Hb. destruct (wf_ends _ Hw a Ha) as (s & Hs & Hl).
  assert (is_Some (ts_endNames s !! b)) as [x Hx] by (apply lookup_lt_is_Some; lia).
  exists s, x. unfold end_name. by rewrite Hs.
Qed.

Lemma index_Some {A} (l : list A) i x : l !! i = Some x → index l i = Ret x.
Proof. unfold index. by intros ->. Qed.

(** The four loops over ends, for server [i] and peers in range. *)
Section loops.
Context (sg : ServerGrp) (Hw : wf sg) (i : nat) (Hi : (i < sg_N sg)%nat)
  (connected : list bool) (Hc : length connected = sg_N sg).

Definition up (conn : list bool) (t : nat) : Prop := conn !! t = Some true.

Lemma IsConnected_cases t :
  (t < sg_N sg)%nat → ∃ c, IsConnected connected t = Ret c ∧ (c = true ↔ up connected t).
Proof.
  intros Ht. assert (is_Some (connected !! t)) as [c E] by (apply lookup_lt_is_Some; lia).
  exists c. unfold IsConnected, up. rewrite (index_Some _ _ _ E), E. naive_solver.
Qed.

Lemma Server_connect_spec net s to :
  sg_srvs sg !! i = Some s → (∀ t, t ∈ to → (t < sg_N sg)%nat) →
  ∃ net', Server_connect net (ts_endNames s) connected to = Ret net' ∧ same_but_enabled net net' ∧
    ∀ x, on net' x ↔
      (∃ t, t ∈ to ∧ up connected t ∧ end_name (sg_srvs sg) i t = Some x) ∨ on net x.
Proof.
  intros Hs. revert net. induction to as [|t to IH]; intros net Ht; simpl.
  { exists net. split_and!; [done|done|set_solver]. }
  destruct (IsConnected_cases t) as (c & -> & Hup); [apply Ht; left|]. simpl.
  destruct (end_name_Some sg i t Hw Hi) as (s' & x & Hs' & Hx & He); [apply Ht; left|].
  rewrite Hs in Hs'. simplify_eq. assert (Hto : ∀ t, t ∈ to → (t < sg_N sg)%nat) by set_solver.
  destruct c; simpl.
  - rewrite (index_Some _ _ _ Hx). simpl.
    destruct (IH (Enable net x true) Hto) as (net' & -> & Hsame & Hon). exists net'.
    split_and!; [done|by etrans|]. intros y. rewrite Hon, on_true. setoid_rewrite elem_of_cons.
    split; [naive_solver|]. intros [(t' & [->|?] & ? & ?)|?]; [|naive_solver..].
    right; left. congruence.
  - destruct (IH net Hto) as (net' & -> & Hsame & Hon). exists net'.
    split_and!; [done|done|]. intros y. rewrite Hon. setoid_rewrite elem_of_cons.
    split; [naive_solver|]. intros [(t' & [->|?] & Hu & ?)|?]; [|naive_solver..].
    by apply Hup in Hu.
Qed.

Lemma connect_incoming_spec net to :
  (∀ t, t ∈ to → (t < sg_N sg)%nat) →
  ∃ net', connect_incoming net (sg_srvs sg) connected i to = Ret net' ∧
    same_but_enabled net net' ∧
    ∀ x, on net' x ↔
      (∃ t, t ∈ to ∧ up connected t ∧ end_name (sg_srvs sg) t i = Some x) ∨ on net x.
Proof.
  revert net. induction to as [|t to IH]; intros net Ht; simpl.
  { exists net. split_and!; [done|done|set_solver]. }
  destruct (IsConnected_cases t) as (c & -> & Hup); [apply Ht; left|]. simpl.
  destruct (end_name_Some sg t i Hw) as (s & x & Hs & Hx & He); [apply Ht; left|done|].
  assert (Hto : ∀ t, t ∈ to → (t < sg_N sg)%nat) by set_solver. destruct c; simpl.
  - rewrite (index_Some _ _ _ Hs). simpl. rewrite (index_Some _ _ _ Hx). simpl.
    destruct (IH (Enable net x true) Hto) as (net' & -> & Hsame & Hon). exists net'.
    split_and!; [done|by etrans|]. intros y. rewrite Hon, on_true. setoid_rewrite elem_of_cons.
    split; [naive_solver|]. intros [(t' & [->|?] & ? & ?)|?]; [|naive_solver..].
    right; left. congruence.
  - destruct (IH net Hto) as (net' & -> & Hsame & Hon). exists net'.
    split_and!; [done|done|]. intros y. rewrite Hon. setoid_rewrite elem_of_cons.
    split; [naive_solver|]. intros [(t' & [->|?] & Hu & ?)|?]; [|naive_solver..].
    by apply Hup in Hu.
Qed.

Lemma Server_disconnect_spec net s from :
  sg_srvs sg !! i = Some s → (∀ f, f ∈ from → (f < sg_N sg)%nat) →
  ∃ net', Server_disconnect net (ts_endNames s) from = Ret net' ∧ same_but_enabled net net' ∧
    ∀ x, on net' x ↔ on net x ∧ ∀ f, f ∈ from → end_name (sg_srvs sg) i f ≠ Some x.
Proof.
  intros Hs. revert net. induction from as [|f from IH]; intros net Hf; simpl.
  { exists net. split_and!; [done|done|set_solver]. }
  destruct (end_name_Some sg i f Hw Hi) as (s' & x & Hs' & Hx & He); [apply Hf; left|].
  rewrite Hs in Hs'. simplify_eq. rewrite (index_Some _ _ _ Hx). simpl.
  destruct (IH (Enable net x false)) as (net' & -> & Hsame & Hon); [set_solver|]. exists net'.
  split_and!; [done|by etrans|]. intros y. rewrite Hon, on_false. setoid_rewrite elem_of_cons.
  split; [|naive_solver]. intros [[? ?] ?]. split; [done|]. intros f' [->|?]; [congruence|auto].
Qed.

Lemma disconnect_incoming_spec net from :
  (∀ f, f ∈ from → (f < sg_N sg)%nat) →
  ∃ net', disconnect_incoming net (sg_srvs sg) i from = Ret net' ∧ same_but_enabled net net' ∧
    ∀ x, on net' x ↔ on net x ∧ ∀ f, f ∈ from → end_name (sg_srvs sg) f i ≠ Some x.
Proof.
  revert net. induction from as [|f from IH]; intros net Hf; simpl.
  { exists net. split_and!; [done|done|set_solver]. }
  destruct (end_name_Some sg f i Hw) as (s & x & Hs & Hx & He); [apply Hf; left|done|].
  rewrite (index_Some _ _ _ Hs). simpl. rewrite (index_Some _ _ _ Hx). simpl.
  destruct (IH (Enable net x false)) as (net' & -> & Hsame & Hon); [set_solver|]. exists net'.
  split_and!; [done|by etrans|]. intros y. rewrite Hon, on_false. setoid_rewrite elem_of_cons.
  split; [|naive_solver]. intros [[? ?] ?]. split; [done|]. intros f' [->|?]; [congruence|auto].
Qed.
End loops.

(** The end [x] joins servers [a] and [b], in either direction. *)
Definition link (srvs : list TServer) (x : string) (a b : nat) : Prop :=
  end_name srvs a b = Some x ∨ end_name srvs b a = Some x.

Lemma link_det sg x a b c d :
  wf sg → link (sg_srvs sg) x a b → link (sg_srvs sg) x c d → (a = c ∧ b = d) ∨ (a = d ∧ b = c).
Proof. intros Hw. pose proof (wf_inj _ Hw). unfold link. naive_solver. Qed.

Lemma set_index_Some {A} (l : list A) i x :
  (i < length l)%nat → set_index l i x = Ret (<[i := x]> l).
Proof. intros H. unfold set_index. by destruct (lookup_lt_is_Some_2 _ _ H) as [? ->]. Qed.

Lemma wf_set_connected sg c : wf sg → length c = sg_N sg → wf (set_connected sg c).
Proof. intros [] ?. by constructor. Qed.

Lemma connect_spec net sg i to :
  wf sg → (i < sg_N sg)%nat → (∀ t, t ∈ to → (t < sg_N sg)%nat) →
  let c := <[i := true]> (sg_connected sg) in
  ∃ net', connect net sg i to = Ret (net', set_connected sg c) ∧
    same_but_enabled net net' ∧ wf (set_connected sg c) ∧
    ∀ x, on net' x ↔ (∃ t, t ∈ to ∧ up c t ∧ link (sg_srvs sg) x i t) ∨ on net x.
Proof.
  intros Hw Hi Hto c. pose proof (wf_connected _ Hw) as Hc. unfold connect.
  rewrite set_index_Some by lia. simpl. fold c.
  assert (Hlc : length c = sg_N sg) by (unfold c; rewrite length_insert; lia).
  destruct (wf_ends _ Hw i Hi) as (s & Hs & _). rewrite (index_Some _ _ _ Hs). simpl.
  destruct (Server_connect_spec sg Hw i Hi c Hlc net s to Hs Hto) as (n1 & -> & Hs1 & H1). simpl.
  destruct (connect_incoming_spec sg Hw i Hi c Hlc n1 to Hto) as (n2 & -> & Hs2 & H2). simpl.
  exists n2. split_and!; [done|by etrans|by apply wf_set_connected|].
  intros x. rewrite H2, H1. unfold link. naive_solver.
Qed.

Lemma disconnect_spec net sg i from :
  wf sg → (i < sg_N sg)%nat → (∀ f, f ∈ from → (f < sg_N sg)%nat) →
  let c := <[i := false]> (sg_connected sg) in
  ∃ net', disconnect net sg i from = Ret (net', set_connected sg c) ∧
    same_but_enabled net net' ∧ wf (set_connected sg c) ∧
    ∀ x, on net' x ↔ on net x ∧ ∀ f, f ∈ from → ¬ link (sg_srvs sg) x i f.
Proof.
  intros Hw Hi Hf c. pose proof (wf_connected _ Hw) as Hc. unfold disconnect.
  rewrite set_index_Some by lia. simpl. fold c.
  assert (Hlc : length c = sg_N sg) by (unfold c; rewrite length_insert; lia).
  destruct (wf_ends _ Hw i Hi) as (s & Hs & _). rewrite (index_Some _ _ _ Hs). simpl.
  destruct (Server_disconnect_spec sg Hw i Hi c Hlc net s from Hs Hf) as (n1 & -> & Hs1 & H1). simpl.
  destruct (disconnect_incoming_spec sg Hw i Hi c Hlc n1 from Hf) as (n2 & -> & Hs2 & H2). simpl.
  exists n2. split_and!; [done|by etrans|by apply wf_set_connected|].
  intros x. rewrite H2, H1. unfold link. naive_solver.
Qed.

(** One iteration of a loop of [Partition]. *)
Lemma partition_step net sg i side other :
  wf sg → (i < sg_N sg)%nat → (∀ t, t ∈ side ++ other → (t < sg_N sg)%nat) →
  let c := <[i := true]> (sg_connected sg) in
  ∃ net' net1 sg1, disconnect net sg i other = Ret (net1, sg1) ∧
    connect net1 sg1 i side = Ret (net', set_connected sg c) ∧
    same_but_enabled net net' ∧ wf (set_connected sg c) ∧
    ∀ x, on net' x ↔ (∃ t, t ∈ side ∧ up c t ∧ link (sg_srvs sg) x i t) ∨
      (on net x ∧ ∀ f, f ∈ other → ¬ link (sg_srvs sg) x i f).
Proof.
  intros Hw Hi Hr c.
  destruct (disconnect_spec net sg i other) as (n1 & Hd & Hs1 & Hw1 & H1); [done..|set_solver|].
  destruct (connect_spec n1 _ i side Hw1) as (n2 & Hc & Hs2 & Hw2 & H2); [done|set_solver|].
  simpl in *. rewrite list_insert_insert_eq in * by done.
  exists n2, n1. eexists. split_and!; [exact Hd|exact Hc|by etrans|exact Hw2|].
  intros x. rewrite H2, H1. done.
Qed.

Lemma partition_side_spec side other ids net sg :
  wf sg → (∀ t, t ∈ side ++ other → (t < sg_N sg)%nat) → side ## other → ids ⊆ side →
  ∃ net' c, partition_side net sg ids side other = Ret (net', set_connected sg c) ∧
    same_but_enabled net net' ∧ wf (set_connected sg c) ∧
    (∀ t, t ∈ ids ∨ up (sg_connected sg) t → up c t) ∧
    (∀ a b x, a ∈ ids → b ∈ side → b ∈ ids ∨ up (sg_connected sg) b →
      link (sg_srvs sg) x a b → on net' x) ∧
    (∀ a b x, a ∈ ids → b ∈ other → link (sg_srvs sg) x a b → ¬ on net' x) ∧
    (∀ a b x, a ∈ side → b ∈ side → link (sg_srvs sg) x a b → on net x → on net' x) ∧
    (∀ x, (∀ a b, a ∈ ids → b ∈ side ++ other → ¬ link (sg_srvs sg) x a b) →
      on net' x ↔ on net x).
Proof.
  intros Hw Hr Hd. revert net sg Hw Hr. induction ids as [|i ids IH]; intros net sg Hw Hr Hids.
  { exists net, (sg_connected sg). destruct sg; simpl. split_and!; set_solver. }
  destruct (partition_step net sg i side other) as (n1 & nd & sgd & Hdi & Hco & Hs1 & Hw1 & H1);
    [done|apply Hr; set_solver|done|].
  edestruct (IH n1 _ Hw1) as (n2 & c & Hp & Hs2 & Hw2 & Hup & Hon & Hoff & Hmono & Hfr);
    [done|set_solver|]. simpl in Hup, Hon, Hoff, Hmono, Hfr, H1.
  pose proof (wf_connected _ Hw) as Hlc. assert (Hi : (i < sg_N sg)%nat) by (apply Hr; set_solver).
  assert (Hup1 : up (<[i := true]> (sg_connected sg)) i)
    by (unfold up; by rewrite list_lookup_insert_eq by lia).
  assert (Hupm : ∀ t, up (sg_connected sg) t → up (<[i := true]> (sg_connected sg)) t).
  { intros t Ht. unfold up in *. destruct (decide (t = i)) as [->|]; [done|].
    by rewrite list_lookup_insert_ne. }
  exists n2, c. simpl. rewrite Hdi. simpl. rewrite Hco. simpl.
  split_and!; [exact Hp|by etrans|exact Hw2|..].
  - intros t [[->|?]%elem_of_cons|?]; naive_solver.
  - intros a b x [->|Ha]%elem_of_cons Hb Hub Hl.
    + destruct (decide (b ∈ ids)) as [Hb'|Hb'].
      * apply (Hon b i x Hb'); [set_solver|by right|]. unfold link in *. naive_solver.
      * apply (Hmono i b x); [set_solver|done..|]. apply H1. left. exists b.
        split_and!; [done| |done]. destruct Hub as [[->|?]%elem_of_cons|?]; naive_solver.
    + apply (Hon a b x Ha Hb); [|done]. destruct Hub as [[->|?]%elem_of_cons|?]; naive_solver.
  - intros a b x [->|Ha]%elem_of_cons Hb Hl; [|by eapply Hoff].
    destruct (decide (i ∈ ids)); [by eapply Hoff|]. rewrite Hfr.
    + rewrite H1. intros [(t & Ht & _ & Hl')|[_ Hn]]; [|naive_solver].
      destruct (link_det _ _ _ _ _ _ Hw Hl Hl') as [[]|[]]; set_solver.
    + intros a' b' Ha' Hb' Hl'. destruct (link_det _ _ _ _ _ _ Hw Hl Hl') as [[]|[]]; set_solver.
  - intros a b x Ha Hb Hl Hx. apply (Hmono a b x Ha Hb Hl). apply H1. right. split; [done|].
    intros f Hf Hl'. destruct (link_det _ _ _ _ _ _ Hw Hl Hl') as [[]|[]]; set_solver.
  - intros x Hx. rewrite Hfr by set_solver. rewrite H1. split.
    + intros [(t & ? & _ & ?)|[? _]]; [|done]. exfalso. apply (Hx i t); set_solver.
    + intros ?. right. split; [done|]. intros f Hf. apply Hx; set_solver.
Qed.

(** Partition_correct: after [Partition(p1, p2)] with disjoint sides in range, whatever was
    enabled before, an end between two servers of one side is enabled, an end between servers
    of different sides is disabled in both directions, every end that does not join two
    servers of [p1 ++ p2] is as before, nothing else of the network changes, and the servers
    of both sides are marked connected. *)
Theorem Partition_correct net sg p1 p2 :
  wf sg → (∀ t, t ∈ p1 ++ p2 → (t < sg_N sg)%nat) → p1 ## p2 →
  ∃ net' c, Partition net sg p1 p2 = Ret (net', set_connected sg c) ∧ same_but_enabled net net' ∧
    wf (set_connected sg c) ∧ (∀ t, t ∈ p1 ++ p2 → c !! t = Some true) ∧
    (∀ a b x, a ∈ p1 ++ p2 → b ∈ p1 ++ p2 → end_name (sg_srvs sg) a b = Some x →
      on net' x ↔ (a ∈ p1 ↔ b ∈ p1)) ∧
    (∀ x, (∀ a b, a ∈ p1 ++ p2 → b ∈ p1 ++ p2 → end_name (sg_srvs sg) a b ≠ Some x) →
      on net' x ↔ on net x).
Proof.
  intros Hw Hr Hd. unfold Partition.
  destruct (partition_side_spec p1 p2 p1 net sg) as (n1 & c1 & Hp1 & Hs1 & Hw1 & Hu1 & Hon1 &
    Hoff1 & _ & Hfr1); [done..|].
  destruct (partition_side_spec p2 p1 p2 n1 _ Hw1) as (n2 & c2 & Hp2 & Hs2 & Hw2 & Hu2 & Hon2 &
    Hoff2 & _ & Hfr2); [set_solver..|]. simpl in Hp2, Hw2, Hu2, Hon2, Hoff2, Hfr2.
  exists n2, c2. rewrite Hp1. simpl. rewrite Hp2.
  assert (Hl : ∀ a b x, end_name (sg_srvs sg) a b = Some x →
    link (sg_srvs sg) x a b ∧ link (sg_srvs sg) x b a) by (unfold link; auto).
  split_and!; [done|by etrans|done|set_solver| |].
  - intros a b x Ha Hb Hx. destruct (Hl _ _ _ Hx) as [Hab Hba]. set_unfold in Ha. set_unfold in Hb.
    destruct Ha as [Ha|Ha], Hb as [Hb|Hb].
    + split; [done|]. intros _. apply Hfr2; [|by apply (Hon1 a b x); auto].
      intros a' b' Ha' _ Hl'. destruct (link_det _ _ _ _ _ _ Hw Hab Hl') as [[]|[]]; set_solver.
    + pose proof (Hoff2 b a x Hb Ha Hba). set_solver.
    + pose proof (Hoff2 a b x Ha Hb Hab). set_solver.
    + split; [set_solver|]. intros _. apply (Hon2 a b x); auto.
  - intros x Hx. rewrite Hfr2, Hfr1; [done|..];
      intros a b Ha Hb [Hl'|Hl']; (eapply Hx; [| |exact Hl']; set_solver).
Qed.

(** The servers other than [l] from [i] on. *)
Definition rest_from (l : Z) (i k : nat) : list Z :=
  Z.of_nat <$> filter (λ i, Z.of_nat i ≠ l) (seq i k).

Lemma rest_from_step_eq l i k : Z.of_nat i = l → rest_from l i (S k) = rest_from l (S i) k.
Proof. intros. unfold rest_from. simpl. by rewrite filter_cons_False by naive_solver. Qed.

Lemma rest_from_step_ne l i k : Z.of_nat i ≠ l → rest_from l i (S k) = Z.of_nat i :: rest_from l (S i) k.
Proof. intros. unfold rest_from. simpl. by rewrite filter_cons_True by done. Qed.

Lemma rest_from_split (l n : nat) :
  (l < n)%nat → rest_from (Z.of_nat l) 0 n = (Z.of_nat <$> seq 0 l) ++ (Z.of_nat <$> seq (S l) (n - S l)).
Proof.
  intros H. unfold rest_from.
  replace n with (l + S (n - S l))%nat at 1 by lia. rewrite seq_app, filter_app, Nat.add_0_l. simpl.
  rewrite filter_cons_False by naive_solver.
  rewrite !filter_id; [by rewrite fmap_app| |]; intros x Hx%elem_of_seq; lia.
Qed.

Lemma length_rest_from (l n : nat) : (l < n)%nat → length (rest_from (Z.of_nat l) 0 n) = (n - 1)%nat.
Proof. intros H. rewrite rest_from_split by done. rewrite length_app, !length_fmap, !length_seq. lia. Qed.

Lemma rest_from_perm (l n : nat) :
  (l < n)%nat → rest_from (Z.of_nat l) 0 n ++ [Z.of_nat l] ≡ₚ Z.of_nat <$> seq 0 n.
Proof.
  intros H. rewrite rest_from_split by done. rewrite <- app_assoc.
  rewrite (Permutation_app_comm (_ <$> seq (S l) _)). simpl.
  replace n with (l + S (n - S l))%nat at 2 by lia. rewrite seq_app, fmap_app, Nat.add_0_l. done.
Qed.

(** The loop writes [rest_from l i k] from index [j] of the two slices taken as one. *)
Lemma partition_loop_spec k l i j p1 p2 :
  (j + length (rest_from l i k) ≤ length p1 + length p2)%nat →
  ∃ q1 q2, partition_loop k l i j p1 p2 = Ret (q1, q2) ∧
    length q1 = length p1 ∧ length q2 = length p2 ∧
    q1 ++ q2 = take j (p1 ++ p2) ++ rest_from l i k ++ drop (j + length (rest_from l i k)) (p1 ++ p2).
Proof.
  revert i j p1 p2. induction k as [|k IH]; intros i j p1 p2.
  { exists p1, p2. simpl. by rewrite Nat.add_0_r, take_drop. }
  cbn [partition_loop]. destruct (bool_decide_reflect (Z.of_nat i ≠ l)) as [Hi|Hi].
  2:{ rewrite rest_from_step_eq by (by apply dec_stable). intros Hj. by apply IH. }
  rewrite rest_from_step_ne by done. cbn [length]. intros Hj.
  assert (Hstep : ∀ p1' p2', length p1' = length p1 → length p2' = length p2 →
    p1' ++ p2' = <[j := Z.of_nat i]> (p1 ++ p2) →
    ∃ q1 q2, partition_loop k l (S i) (S j) p1' p2' = Ret (q1, q2) ∧
      length q1 = length p1 ∧ length q2 = length p2 ∧
      q1 ++ q2 = take j (p1 ++ p2) ++ (Z.of_nat i :: rest_from l (S i) k) ++
        drop (j + S (length (rest_from l (S i) k))) (p1 ++ p2)).
  { intros p1' p2' H1 H2 He. destruct (IH (S i) (S j) p1' p2') as (q1 & q2 & -> & L1 & L2 & Hq);
      [lia|]. exists q1, q2. split_and!; [done|lia..|]. rewrite Hq, He.
    rewrite drop_insert_lt by lia. rewrite (take_S_r _ _ (Z.of_nat i))
      by (apply list_lookup_insert_eq; rewrite length_app; lia).
    rewrite take_insert_ge by lia. rewrite <- app_assoc. by rewrite Nat.add_succ_r. }
  destruct (bool_decide_reflect (j < length p1)%nat).
  - rewrite set_index_Some by done. simpl. apply Hstep; [apply length_insert|done|].
    by rewrite insert_app_l.
  - rewrite set_index_Some by lia. simpl. apply Hstep; [done|apply length_insert|].
    by rewrite insert_app_r_alt by lia.
Qed.

(** MakePartition_correct: for a group of [n >= 3] servers and a server [l] of it, the first
    side holds the first [n/2 + 1] servers other than [l], the second the others and, last,
    [l]. When [n] is odd the sides are a permutation of all servers, so [Partition] isolates
    [l] in the minority; when [n] is even the second side has [n/2] entries but one server
    too few, and its unwritten entry stands for server 0, which may be on both sides. *)
Theorem MakePartition_correct sg (l : nat) :
  (3 ≤ sg_N sg)%nat → (l < sg_N sg)%nat →
  let n := sg_N sg in
  let rest := rest_from (Z.of_nat l) 0 n in
  ∃ p1 p2, MakePartition sg (Z.of_nat l) = Ret (p1, p2) ∧
    p1 = take (n / 2 + 1) rest ∧
    p2 = drop (n / 2 + 1) rest ++ replicate (1 - n mod 2) 0 ++ [Z.of_nat l] ∧
    ((n mod 2 = 1)%nat → p1 ++ p2 ≡ₚ Z.of_nat <$> seq 0 n).
Proof.
  intros Hn Hl n rest. pose proof (length_rest_from l n Hl) as Hlen. fold rest in Hlen.
  pose proof (Nat.div_mod_eq n 2) as Hdm. pose proof (Nat.mod_upper_bound n 2) as Hm.
  unfold MakePartition. fold n.
  generalize dependent (n mod 2)%nat; intros r Hdm Hm.
  generalize dependent (n / 2)%nat; intros h Hdm.
  destruct (partition_loop_spec n (Z.of_nat l) 0 0 (replicate (h + 1) 0) (replicate (h) 0))
    as (q1 & q2 & -> & L1 & L2 & Hq).
  { fold rest. rewrite !length_replicate. lia. }
  fold rest in Hq. rewrite !length_replicate in *.
  rewrite take_0, app_nil_l, Nat.add_0_l, <- replicate_add, drop_replicate, Hlen in Hq.
  replace (h + 1 + h - (n - 1))%nat with (S (1 - r)) in Hq by lia.
  assert (q1 = take (h + 1) rest ∧
    q2 = drop (h + 1) rest ++ replicate (1 - r) 0 ++ [0]) as [E1 E2].
  { rewrite <- (take_drop (h + 1) rest), <- app_assoc in Hq.
    apply app_inj_1 in Hq as [? Hq]; [|rewrite length_take; lia]. split; [done|].
    rewrite Hq. f_equal. apply replicate_cons_app. }
  simpl. rewrite L2. destruct (h)%nat as [|m]; [lia|].
  rewrite set_index_Some by lia.
  assert (Hlast : length (drop (S m + 1) rest ++ replicate (1 - r) 0) = m).
  { rewrite length_app, length_drop, length_replicate. lia. }
  rewrite E1, E2, !app_assoc, insert_app_r_alt, Hlast, Nat.sub_diag by lia.
  do 2 eexists. split_and!; [done..|]. intros ->. cbn [replicate Nat.sub].
  rewrite app_nil_r, app_assoc, take_drop. by apply rest_from_perm.
Qed.

Lemma end_name_insert srvs i s s' a b :
  srvs !! i = Some s → ts_endNames s' = ts_endNames s →
  end_name (<[i := s']> srvs) a b = end_name srvs a b.
Proof.
  intros Hs He. unfold end_name. destruct (decide (a = i)) as [->|Hne].
  - rewrite list_lookup_insert_eq by (by eapply lookup_lt_Some). rewrite Hs. simpl. by rewrite He.
  - by rewrite list_lookup_insert_ne.
Qed.

(** ** Building a group *)

Lemma mjoin_lookup_inj (ls : list (list string)) a b c d k1 k2 x :
  NoDup (mjoin ls) → ls !! a = Some k1 → ls !! c = Some k2 → k1 !! b = Some x → k2 !! d = Some x →
  a = c ∧ b = d.
Proof.
  revert a c. induction ls as [|k ls IH]; intros a c Hnd Ha Hc Hb Hd; [done|].
  simpl in Hnd. apply NoDup_app in Hnd as (Hk & Hdis & Hls).
  assert (Hin : ∀ i k', ls !! i = Some k' → x ∈ k' → x ∈ mjoin ls).
  { intros i k' Hi Hx. apply list_elem_of_join. exists k'. split; [done|]. by eapply list_elem_of_lookup_2. }
  destruct a as [|a], c as [|c]; simplify_eq/=.
  - split; [done|]. eapply NoDup_lookup; [exact Hk|done|done].
  - destruct (Hdis x); [by eapply list_elem_of_lookup_2|]. eapply Hin; [done|].
    by eapply list_elem_of_lookup_2.
  - destruct (Hdis x); [by eapply list_elem_of_lookup_2|]. eapply Hin; [done|].
    by eapply list_elem_of_lookup_2.
  - destruct (IH a c Hls Ha Hc Hb Hd). by subst.
Qed.

Lemma make_servers_spec net gid names net' srvs :
  make_servers net gid names = Ret (net', srvs) → srvs = mkTServer None [] <$> names.
Proof.
  revert net net' srvs. induction names as [|ns names IH]; intros net net' srvs H; simpl in H.
  { by simplify_eq. }
  unfold makeServer in H. destruct (make_ends net gid ns 0) as [n1| |]; simplify_eq/=.
  destruct (make_servers n1 gid names) as [[n2 ss]| |] eqn:E; simplify_eq/=.
  by rewrite (IH _ _ _ E).
Qed.

(** MakeSrvGrp_wf: a group whose random names are distinct is well formed: every server has
    one end towards each server, no two ends share a name, and no server is connected. *)
Theorem makeSrvGrp_wf net gid names mks net' sg :
  makeSrvGrp net gid names mks = Ret (net', sg) → NoDup (mjoin names) →
  Forall (λ ns, length ns = length names) names →
  wf sg ∧ sg_N sg = length names ∧ ∀ i, ¬ up (sg_connected sg) i.
Proof.
  intros H Hnd Hl. unfold makeSrvGrp in H.
  destruct (make_servers net gid names) as [[n1 srvs]| |] eqn:E; simplify_eq/=.
  apply make_servers_spec in E as ->.
  assert (Hn : sg_N (mkServerGrp (mkTServer None [] <$> names) (ServerName gid <$> seq 0 (length names))
    gid (replicate (length names) false) mks) = length names) by apply length_fmap.
  split_and!; [|done|].
  - constructor; rewrite ?Hn; simpl.
    + apply length_replicate.
    + intros a Ha. apply lookup_lt_is_Some in Ha as [ns Hns]. rewrite list_lookup_fmap, Hns.
      eexists. split; [done|]. simpl. by eapply Forall_lookup_1 in Hl.
    + intros a b c d x. unfold end_name. rewrite !list_lookup_fmap.
      destruct (names !! a) as [k1|] eqn:E1, (names !! c) as [k2|] eqn:E2; simpl; try done.
      intros. by eapply mjoin_lookup_inj.
  - intros i. unfold up. simpl. rewrite lookup_replicate. naive_solver.
Qed.

(** ** Shutting a server down *)

Lemma ShutdownServer_spec w sg i s :
  wf sg → sg_srvs sg !! i = Some s →
  ∃ w' sg', ShutdownServer w sg i = Ret (w', sg') ∧ wf sg' ∧
    w_net w' = with_names (w_net w) (rn_ends (w_net w)) (rn_enabled (w_net w'))
      (<[ServerName (sg_gid sg) i := None]> (rn_servers (w_net w))) (rn_connections (w_net w)) ∧
    w_killed w' = w_killed w ++ ts_svcs s ∧
    sg' = set_connected (set_srvs sg (<[i := mkTServer (Persister_Copy <$> ts_saved s) [] (ts_endNames s)]>
      (sg_srvs sg))) (<[i := false]> (sg_connected sg)) ∧
    ∀ x, on (w_net w') x ↔ on (w_net w) x ∧
      ∀ a, (a < sg_N sg)%nat → ¬ link (sg_srvs sg) x i a.
Proof.
  intros Hw Hs. assert (Hi : (i < sg_N sg)%nat) by by eapply lookup_lt_Some.
  unfold ShutdownServer.
  destruct (disconnect_spec (w_net w) sg i (sg_all sg)) as (net & -> & Hsame & Hw1 & Hon);
    [done..|unfold sg_all; intros f; rewrite elem_of_seq; lia|].
  simpl. rewrite (index_Some _ _ _ Hs). simpl. do 2 eexists. split; [done|]. simpl.
  split_and!; [|by rewrite Hsame|done..|].
  - destruct Hw as [H1 H2 H3]. constructor; unfold sg_N; simpl; rewrite ?length_insert.
    + done.
    + intros a Ha. destruct (H2 a Ha) as (s' & Hs' & Hl). destruct (decide (a = i)) as [->|Hne].
      * eexists. rewrite list_lookup_insert_eq by done. split; [done|]. simpl. by simplify_eq.
      * exists s'. by rewrite list_lookup_insert_ne.
    + intros a b c d x. rewrite !end_name_insert with (s := s) by done. apply H3.
  - intros x. change (on net x ↔ on (w_net w) x ∧ ∀ a, (a < sg_N sg)%nat → ¬ link (sg_srvs sg) x i a).
    rewrite Hon. unfold sg_all. setoid_rewrite elem_of_seq. split; intros [Hx Hf]; split; auto with lia.
Qed.

(** ShutdownServer_isolates: shutting server [i] down disables every end between it and the
    group in both directions and leaves all other ends alone, removes it from the network,
    calls [Kill] on its services exactly once and in order, and keeps its persisted state for
    the next [StartServer]; the other servers and the group's shape are untouched. *)
Theorem ShutdownServer_isolates w sg i s :
  wf sg → sg_srvs sg !! i = Some s →
  ∃ w' sg', ShutdownServer w sg i = Ret (w', sg') ∧ wf sg' ∧
    rn_servers (w_net w') = <[ServerName (sg_gid sg) i := None]> (rn_servers (w_net w)) ∧
    w_killed w' = w_killed w ++ ts_svcs s ∧
    sg_srvs sg' = <[i := mkTServer (Persister_Copy <$> ts_saved s) [] (ts_endNames s)]> (sg_srvs sg) ∧
    sg_connected sg' = <[i := false]> (sg_connected sg) ∧
    ∀ x, on (w_net w') x ↔ on (w_net w) x ∧
      ∀ a, (a < sg_N sg)%nat → ¬ link (sg_srvs sg) x i a.
Proof.
  intros Hw Hs. destruct (ShutdownServer_spec w sg i s Hw Hs) as (w' & sg' & E & Hw' & Hn & Hk & -> & Hon).
  exists w'. eexists. split_and!; [exact E|done|by rewrite Hn|done..].
Qed.
End group.

(** ** Examples *)

Definition ex_names : list (list string) :=
  [["a0"; "a1"; "a2"]; ["b0"; "b1"; "b2"]; ["c0"; "c1"; "c2"]].

Definition ex_group : outcome (Network * ServerGrp (Svc := nat)) :=
  makeSrvGrp MakeNetwork 0 ex_names (λ _ i _, [i]).

Definition ex_net : Network := match ex_group with Ret (net, _) => net | _ => MakeNetwork end.

Definition ex_sg : ServerGrp (Svc := nat) :=
  match ex_group with
  | Ret (_, sg) => sg
  | _ => mkServerGrp [] [] 0 [] (λ _ _ _, [])
  end.

Lemma ex_group_eq : ex_group = Ret (ex_net, ex_sg).
Proof. vm_compute. done. Qed.

Lemma ex_names_ok : NoDup (mjoin ex_names) ∧ Forall (λ ns, length ns = length ex_names) ex_names.
Proof. split; apply (bool_decide_unpack _); vm_compute; done. Qed.

Lemma ex_wf : wf ex_sg.
Proof.
  destruct ex_names_ok. pose proof ex_group_eq as H1. unfold ex_group in H1.
  by eapply makeSrvGrp_wf.
Qed.

Lemma makeSrvGrp_wf_witness : wf ex_sg ∧ sg_N ex_sg = 3%nat.
Proof.
  destruct ex_names_ok as [H1 H2].
  destruct (makeSrvGrp_wf MakeNetwork 0 ex_names (λ _ i _, [i]) ex_net ex_sg ex_group_eq H1 H2)
    as (? & ? & ?). auto.
Defined.

Lemma Partition_correct_witness :
  ∃ net' sg', Partition ex_net ex_sg [0%nat; 1%nat] [2%nat] = Ret (net', sg') ∧
    on net' "a1" ∧ ¬ on net' "a2" ∧ ¬ on net' "c1".
Proof.
  destruct (Partition_correct ex_net ex_sg [0%nat; 1%nat] [2%nat] ex_wf)
    as (net' & c & Hp & _ & _ & _ & Hon & _).
  - apply Forall_forall. repeat constructor.
  - intros x Hx Hx'. set_unfold. naive_solver.
  - exists net', (set_connected ex_sg c). split; [exact Hp|].
    rewrite (Hon 0%nat 1%nat "a1"), (Hon 0%nat 2%nat "a2"), (Hon 2%nat 1%nat "c1")
      by (reflexivity || by apply (bool_decide_unpack _)).
    by apply (bool_decide_unpack _).
Defined.

Lemma MakePartition_correct_witness : MakePartition ex_sg 0 = Ret ([1; 2], [0]).
Proof.
  destruct (MakePartition_correct ex_sg 0) as (p1 & p2 & H & -> & -> & _);
    [vm_compute; lia..|]. exact H.
Defined.

Lemma ShutdownServer_isolates_witness :
  ∃ w sg', ShutdownServer (mkWorld ex_net []) ex_sg 1 = Ret (w, sg') ∧ wf sg'.
Proof.
  destruct (ShutdownServer_isolates (mkWorld ex_net []) ex_sg 1 (mkTServer None [] ["b0"; "b1"; "b2"])
    ex_wf eq_refl) as (w & sg' & H & Hw & _). eauto.
Defined.
