(* ===== verification/Clnts.v ===== *)
(** * Clients of the tester ([tester1/clnts.go])

    A client makes an end towards a server when it first calls it; connecting and
    disconnecting enable and disable the ends it has. Maps are visited in an order that is an
    argument; random names and new pointers are arguments. *)

From S2P Require Export Labrpc.

Local Open Scope Z_scope.

(** [clnt_ends] maps a server to the name of the end; [clnt_srvs] is [None] for nil. *)
Record Clnt := mkClnt { clnt_ends : gmap string string; clnt_srvs : option (list string) }.

Definition makeClntTo (srvs : option (list string)) : Clnt := mkClnt ∅ srvs.

Definition allowedL (clnt : Clnt) (server : string) : bool :=
  match clnt_srvs clnt with
  | None => true
  | Some srvs => existsb (λ n, bool_decide (n = server)) srvs
  end.

(** [makeEnd]; [name] is the random name. *)
Definition Clnt_makeEnd (net : Network) (clnt : Clnt) (server name : string)
    : outcome (Network * Clnt * string) :=
  match clnt_ends clnt !! server with
  | Some e => Ret (net, clnt, e)
  | None =>
      net ← MakeEnd net name;
      let net := Connect net name server in
      let net := if allowedL clnt server then Enable net name true else Enable net name false in
      Ret (net, mkClnt (<[server := name]> (clnt_ends clnt)) (clnt_srvs clnt), name)
  end.

(** The loops over the ends: [Enable] the ends of the servers that satisfy [p]. *)
Definition enable_if (p : string → bool) (b : bool) (net : Network) (order : list (string * string))
    : Network :=
  foldl (λ net e, if p e.1 then Enable net e.2 b else net) net order.

Definition Clnt_ConnectAll (net : Network) (clnt : Clnt) (order : list (string * string))
    : Network * Clnt :=
  (enable_if (λ _, true) true net order, mkClnt (clnt_ends clnt) None).

Definition Clnt_ConnectTo (net : Network) (clnt : Clnt) (srvs : option (list string))
    (order : list (string * string)) : Network * Clnt :=
  let clnt := mkClnt (clnt_ends clnt) srvs in
  (enable_if (allowedL clnt) true net order, clnt).

Definition Clnt_Disconnect (net : Network) (clnt : Clnt) (srv : string)
    (order : list (string * string)) : Network * Clnt :=
  (enable_if (λ s, bool_decide (s = srv)) false net order, clnt).

Definition Clnt_DisconnectAll (net : Network) (clnt : Clnt) (order : list (string * string))
    : Network * Clnt :=
  (enable_if (λ _, true) false net order, mkClnt (clnt_ends clnt) (Some [])).

Fixpoint Clnt_remove (net : Network) (order : list (string * string)) : outcome Network :=
  match order with
  | [] => Ret net
  | e :: order => net ← DeleteEnd net e.2; Clnt_remove net order
  end.

(** ** The set of clients *)

(** Pointers to clients and the clients behind them; [None] is the nil map. *)
Record Clnts := mkClnts { clnts_clerks : option (gset nat); clnts_heap : gmap nat Clnt }.

Definition makeClnts : Clnts := mkClnts (Some ∅) ∅.

Definition Clnts_makeEnd (net : Network) (servername name : string) : outcome Network :=
  net ← MakeEnd net name;
  Ret (Enable (Connect net name servername) name true).

Definition MakeClientTo (clnts : Clnts) (srvs : option (list string)) (ptr : nat) : outcome Clnts :=
  let clnt := makeClntTo srvs in
  match clnts_clerks clnts with
  | None => Panic "assignment to entry in nil map"
  | Some clerks => Ret (mkClnts (Some ({[ptr]} ∪ clerks)) (<[ptr := clnt]> (clnts_heap clnts)))
  end.

Definition MakeClient (clnts : Clnts) (ptr : nat) : outcome Clnts := MakeClientTo clnts None ptr.

(** The clients in the order visited, each with the order of its ends. *)
Fixpoint remove_each (net : Network) (orders : list (list (string * string))) : outcome Network :=
  match orders with
  | [] => Ret net
  | order :: orders => net ← Clnt_remove net order; remove_each net orders
  end.

Definition Clnts_cleanup (net : Network) (clnts : Clnts) (orders : list (list (string * string)))
    : outcome (Network * Clnts) :=
  net ← remove_each net orders;
  Ret (net, mkClnts None (clnts_heap clnts)).

Definition DeleteClient (net : Network) (clnts : Clnts) (ptr : nat) (order : list (string * string))
    : outcome (Network * Clnts) :=
  match clnts_clerks clnts with
  | None => Ret (net, clnts)
  | Some clerks =>
      if bool_decide (ptr ∈ clerks) then
        net ← Clnt_remove net order;
        Ret (net, mkClnts (Some (clerks ∖ {[ptr]})) (clnts_heap clnts))
      else Ret (net, clnts)
  end.

(** ** What a client sees *)

(** One operation on a client; [OpOther] is anything else that happens to the network. *)
Inductive ClntOp :=
  | OpEnd (server : string)
  | OpConnectAll
  | OpConnectTo (srvs : option (list string))
  | OpDisconnect (srv : string)
  | OpDisconnectAll
  | OpOther.

Definition visits (clnt : Clnt) (order : list (string * string)) : Prop :=
  order ≡ₚ map_to_list (clnt_ends clnt).

Inductive clnt_step : Network * Clnt → ClntOp → Network * Clnt → Prop :=
  | step_end net clnt server name net' clnt' e :
      Clnt_makeEnd net clnt server name = Ret (net', clnt', e) →
      clnt_step (net, clnt) (OpEnd server) (net', clnt')
  | step_connect_all net clnt order :
      visits clnt order →
      clnt_step (net, clnt) OpConnectAll (Clnt_ConnectAll net clnt order)
  | step_connect_to net clnt srvs order :
      visits clnt order →
      clnt_step (net, clnt) (OpConnectTo srvs) (Clnt_ConnectTo net clnt srvs order)
  | step_disconnect net clnt srv order :
      visits clnt order →
      clnt_step (net, clnt) (OpDisconnect srv) (Clnt_Disconnect net clnt srv order)
  | step_disconnect_all net clnt order :
      visits clnt order →
      clnt_step (net, clnt) OpDisconnectAll (Clnt_DisconnectAll net clnt order)
  | step_others net clnt net' :
      (∀ s x, clnt_ends clnt !! s = Some x →
        (x ∈ rn_ends net → x ∈ rn_ends net') ∧
        rn_enabled net' !! x = rn_enabled net !! x ∧
        rn_connections net' !! x = rn_connections net !! x) →
      clnt_step (net, clnt) OpOther (net', clnt).

Inductive clnt_run : Network * Clnt → list ClntOp → Network * Clnt → Prop :=
  | run_nil st : clnt_run st [] st
  | run_cons st op st' ops st'' :
      clnt_step st op st' → clnt_run st' ops st'' → clnt_run st (op :: ops) st''.

(** The specification: the allowed servers, and for every server called so far whether it can
    be reached. *)
Record View := mkView { v_srvs : option (list string); v_on : gmap string bool }.

Definition allowed (srvs : option (list string)) (s : string) : bool :=
  match srvs with None => true | Some l => bool_decide (s ∈ l) end.

Definition view_op (v : View) (op : ClntOp) : View :=
  match op with
  | OpEnd s =>
      match v_on v !! s with
      | Some _ => v
      | None => mkView (v_srvs v) (<[s := allowed (v_srvs v) s]> (v_on v))
      end
  | OpConnectAll => mkView None ((λ _, true) <$> v_on v)
  | OpConnectTo srvs => mkView srvs (map_imap (λ s b, Some (allowed srvs s || b)) (v_on v))
  | OpDisconnect s => mkView (v_srvs v) (alter (λ _, false) s (v_on v))
  | OpDisconnectAll => mkView (Some []) ((λ _, false) <$> v_on v)
  | OpOther => v
  end.

Definition enabled (net : Network) (x : string) : bool := map_get false (rn_enabled net) x.

Record sees (st : Network * Clnt) (v : View) : Prop := {
  sees_srvs : clnt_srvs st.2 = v_srvs v;
  sees_on s : v_on v !! s = enabled st.1 <$> clnt_ends st.2 !! s;
  sees_end s x : clnt_ends st.2 !! s = Some x →
    x ∈ rn_ends st.1 ∧ rn_connections st.1 !! x = Some (Some s)
}.

Lemma allowedL_allowed clnt s : allowedL clnt s = allowed (clnt_srvs clnt) s.
Proof.
  unfold allowedL, allowed. destruct (clnt_srvs clnt) as [l|]; [|done].
  apply eq_bool_prop_intro. rewrite bool_decide_spec, Is_true_true, existsb_exists.
  setoid_rewrite <- Is_true_true. setoid_rewrite bool_decide_spec.
  setoid_rewrite <- list_elem_of_In. naive_solver.
Qed.

Lemma enable_if_names p b net order :
  rn_ends (enable_if p b net order) = rn_ends net ∧
  rn_connections (enable_if p b net order) = rn_connections net.
Proof.
  revert net. induction order as [|e order IH]; intros net; [done|]. unfold enable_if in *. simpl.
  destruct (IH (if p e.1 then Enable net e.2 b else net)) as [-> ->]. by destruct (p e.1).
Qed.

Lemma enable_if_other p b net order x :
  (∀ e, e ∈ order → e.2 ≠ x) → enabled (enable_if p b net order) x = enabled net x.
Proof.
  revert net. induction order as [|e order IH]; intros net Hx; [done|]. unfold enable_if in *. simpl.
  rewrite IH by set_solver. destruct (p e.1); [|done]. unfold enabled. simpl.
  by rewrite map_get_insert_ne by (apply Hx; left).
Qed.

(** The loop sets the end [x] of [s] when [p s], if no other server has that end. *)
Lemma enable_if_at p b net order s x :
  (s, x) ∈ order → (∀ s', (s', x) ∈ order → s' = s) →
  enabled (enable_if p b net order) x = if p s then b else enabled net x.
Proof.
  revert net. induction order as [|[s0 x0] order IH]; intros net Hin Huniq; [set_solver|].
  unfold enable_if in *. simpl. destruct (decide ((s, x) ∈ order)) as [Hin'|Hout].
  - rewrite IH; [|done|intros; apply Huniq; by right]. destruct (p s) eqn:Es; [done|].
    destruct (p s0) eqn:E0; [|done]. unfold enabled. simpl. apply map_get_insert_ne.
    intros ->. rewrite (Huniq s0) in E0 by left. congruence.
  - apply elem_of_cons in Hin as [He|?]; [|done]. injection He as <- <-.
    fold (enable_if p b (if p s then Enable net x b else net) order).
    rewrite enable_if_other.
    + destruct (p s); [|done]. unfold enabled. simpl. apply map_get_insert_eq.
    + intros [s' x'] He E. simpl in E. subst x'. apply Hout.
      by rewrite <- (Huniq s') by (by right).
Qed.

(** All loops over the ends, seen from the specification. *)
Lemma sees_loop (p : string → bool) b net clnt order srvs v (on : gmap string bool) :
  sees (net, clnt) v → visits clnt order →
  (∀ s, on !! s = (λ old : bool, if p s then b else old) <$> (v_on v !! s)) →
  sees (enable_if p b net order, mkClnt (clnt_ends clnt) srvs) (mkView srvs on).
Proof.
  intros [H1 H2 H3] Hv Hon. simpl in *. destruct (enable_if_names p b net order) as [Ee Ec].
  split; simpl; [done| |by rewrite Ee, Ec]. intros s. rewrite Hon, H2.
  destruct (clnt_ends clnt !! s) as [x|] eqn:Ex; [|done]. simpl. f_equal. symmetry.
  assert (Hmem : ∀ s', (s', x) ∈ order ↔ clnt_ends clnt !! s' = Some x).
  { intros s'. unfold visits in Hv. rewrite Hv. apply elem_of_map_to_list. }
  apply enable_if_at; [by apply Hmem|]. intros s' Hs'%Hmem.
  destruct (H3 _ _ Hs') as [_ E1]. destruct (H3 _ _ Ex) as [_ E2]. congruence.
Qed.

Lemma sees_makeEnd net clnt server name net' clnt' e v :
  sees (net, clnt) v → Clnt_makeEnd net clnt server name = Ret (net', clnt', e) →
  sees (net', clnt') (view_op v (OpEnd server)) ∧ clnt_ends clnt' !! server = Some e.
Proof.
  intros Hs Hm. pose proof Hs as [H1 H2 H3]. unfold Clnt_makeEnd in Hm. simpl in *.
  rewrite H2. destruct (clnt_ends clnt !! server) as [x|] eqn:Ex; simplify_eq/=; [done|].
  unfold MakeEnd in Hm. case_decide as Hfresh; simplify_eq/=. split; [|apply lookup_insert_eq].
  assert (Hne : ∀ s y, clnt_ends clnt !! s = Some y → y ≠ e).
  { intros s y Hy ->. by destruct (H3 _ _ Hy). }
  rewrite allowedL_allowed, H1. split; simpl; [done| |].
  - intros s. destruct (decide (s = server)) as [->|Hs'].
    + rewrite !lookup_insert_eq. simpl. f_equal. unfold enabled.
      by destruct (allowed _ _); simpl; rewrite map_get_insert_eq.
    + rewrite !lookup_insert_ne by done. rewrite H2.
      destruct (clnt_ends clnt !! s) as [y|] eqn:Ey; [|done]. simpl. f_equal. unfold enabled.
      specialize (Hne _ _ Ey).
      by destruct (allowed _ _); simpl; rewrite !map_get_insert_ne by done.
  - intros s y. destruct (decide (s = server)) as [->|Hs'].
    + rewrite lookup_insert_eq. intros ?. simplify_eq.
      destruct (allowed _ _); simpl; (split; [set_solver|by rewrite lookup_insert_eq]).
    + rewrite lookup_insert_ne by done. intros Hy. destruct (H3 _ _ Hy) as [Hin Hc].
      specialize (Hne _ _ Hy).
      destruct (allowed _ _); simpl;
        (split; [set_solver|by rewrite !lookup_insert_ne by done]).
Qed.

Lemma sees_step st op st' v : clnt_step st op st' → sees st v → sees st' (view_op v op).
Proof.
  intros Hstep Hs. destruct Hstep; simpl.
  - by eapply sees_makeEnd.
  - eapply sees_loop; [done..|]. intros s. by rewrite lookup_fmap.
  - eapply sees_loop; [done..|]. intros s. rewrite map_lookup_imap, allowedL_allowed. simpl.
    destruct (v_on v !! s); simpl; [|done]. by destruct (allowed srvs s).
  - destruct clnt as [ends srvs]. rewrite <- (sees_srvs _ _ Hs). simpl.
    change (sees (enable_if (λ s, bool_decide (s = srv)) false net order, mkClnt ends srvs)
      (mkView srvs (alter (λ _, false) srv (v_on v)))).
    eapply (sees_loop _ _ _ (mkClnt ends srvs)); [done..|]. intros s. destruct (decide (s = srv)) as [->|Hne].
    + rewrite lookup_alter_eq, bool_decide_eq_true_2 by done. done.
    + rewrite lookup_alter_ne, bool_decide_eq_false_2 by done. by destruct (v_on v !! s).
  - eapply sees_loop; [done..|]. intros s. by rewrite lookup_fmap.
  - destruct Hs as [H1 H2 H3]. simpl in *. split; simpl; [done| |].
    + intros s. rewrite H2. destruct (clnt_ends clnt !! s) as [x|] eqn:Ex; [|done]. simpl.
      f_equal. unfold enabled, map_get. by destruct (H s x Ex) as (_ & -> & _).
    + intros s x Hx. destruct (H s x Hx) as (He & _ & ->). destruct (H3 _ _ Hx). auto.
Qed.

Lemma sees_run st ops st' v : clnt_run st ops st' → sees st v → sees st' (foldl view_op v ops).
Proof.
  intros Hr. revert v. induction Hr; intros v Hs; simpl; [done|]. by eapply IHHr, sees_step.
Qed.

(** ** The list of servers as a bound *)

(** Every [ConnectTo] names all the servers that are allowed already; after [DisconnectAll] any
    list does. *)
Fixpoint widens (v : View) (ops : list ClntOp) : Prop :=
  match ops with
  | [] => True
  | op :: ops =>
      match op with
      | OpConnectTo l => ∀ s, allowed (v_srvs v) s = true → allowed l s = true
      | _ => True
      end ∧ widens (view_op v op) ops
  end.

Definition within (v : View) : Prop := ∀ s, v_on v !! s = Some true → allowed (v_srvs v) s = true.

Lemma within_op v op : widens v [op] → within v → within (view_op v op).
Proof.
  intros [Hw _] Hv s. destruct op as [s'| |l|s'| |]; simpl; [| |..|apply Hv].
  - destruct (v_on v !! s') eqn:E; [apply Hv|]. simpl. destruct (decide (s' = s)) as [<-|Hne].
    + rewrite lookup_insert_eq. by intros [= ->].
    + rewrite lookup_insert_ne by done. apply Hv.
  - done.
  - rewrite map_lookup_imap. specialize (Hw s). specialize (Hv s).
    destruct (v_on v !! s) as [[]|]; simpl; [intros _; by apply Hw, Hv| |done].
    rewrite orb_false_r. by intros [= ->].
  - destruct (decide (s' = s)) as [<-|Hne]; [|rewrite lookup_alter_ne by done; apply Hv].
    rewrite lookup_alter_eq. by destruct (v_on v !! s').
  - rewrite lookup_fmap. by destruct (v_on v !! s).
Qed.

Lemma within_run ops v : widens v ops → within v → within (foldl view_op v ops).
Proof.
  revert v. induction ops as [|op ops IH]; intros v Hw Hv; [done|]. destruct Hw as [Hw Hws].
  simpl. apply IH; [done|]. by apply within_op.
Qed.

(** [ConnectTo] enables but never disables. An end that was enabled stays enabled even when its
    server is not in the list, although the field's comment promises that a client with an empty
    list cannot connect to any server. *)
Theorem ConnectTo_keeps_ends net srvs ops net1 clnt1 l net2 clnt2 s x :
  clnt_run (net, makeClntTo srvs) ops (net1, clnt1) →
  clnt_step (net1, clnt1) (OpConnectTo l) (net2, clnt2) →
  clnt_ends clnt1 !! s = Some x → enabled net1 x = true →
  clnt_ends clnt2 !! s = Some x ∧ enabled net2 x = true.
Proof.
  intros Hr Hstep Hx Hon.
  assert (He : clnt_ends clnt2 = clnt_ends clnt1) by by inversion Hstep.
  rewrite He. split; [done|]. destruct (sees_run _ _ _ (mkView srvs ∅) Hr) as [H1 H2 H3].
  { by split; simpl; [|intros s'; rewrite !lookup_empty|intros s' y; rewrite lookup_empty]. }
  pose proof (sees_step _ _ _ _ Hstep (Build_sees _ _ H1 H2 H3)) as [_ H2' _].
  specialize (H2 s). specialize (H2' s). simpl in *. rewrite map_lookup_imap, H2, He, Hx in H2'.
  simpl in H2'. rewrite Hon, orb_true_r in H2'. by injection H2'.
Qed.

(** C31: clnt_refines_view: whatever is done to a client, in whatever order its maps are visited
    and whatever else happens to the network, it has at most one end per server, connected to
    that server in the network, and the end is on exactly when the last operation that sets it
    turned it on: when it is made it is on if its server is allowed, [ConnectAll] and
    [ConnectTo] of a list with its server turn it on, [Disconnect] and [DisconnectAll] turn it
    off, and [ConnectTo] of a list without its server leaves it as it is. So the list bounds the
    servers that a client reaches, as the comment on [srvs] says, as long as every [ConnectTo]
    keeps all that was allowed before (or follows [DisconnectAll]); and otherwise it does not,
    against that comment: [ConnectTo], even of no servers, cuts nothing off. *)
Theorem Clnt_refines_view net srvs ops net' clnt :
  clnt_run (net, makeClntTo srvs) ops (net', clnt) →
  let v := foldl view_op (mkView srvs ∅) ops in
  (clnt_srvs clnt = v_srvs v ∧
   ∀ s, match clnt_ends clnt !! s with
        | None => v_on v !! s = None
        | Some x => x ∈ rn_ends net' ∧ rn_connections net' !! x = Some (Some s) ∧
                    v_on v !! s = Some (enabled net' x)
        end) ∧
  (widens (mkView srvs ∅) ops →
     ∀ s x, clnt_ends clnt !! s = Some x → enabled net' x = true → allowed (clnt_srvs clnt) s = true) ∧
  (∀ l net2 clnt2 s x, clnt_step (net', clnt) (OpConnectTo l) (net2, clnt2) →
     clnt_ends clnt !! s = Some x → enabled net' x = true →
     clnt_srvs clnt2 = l ∧ clnt_ends clnt2 !! s = Some x ∧ enabled net2 x = true).
Proof.
  intros Hr v. destruct (sees_run _ _ _ (mkView srvs ∅) Hr) as [H1 H2 H3].
  { by split; simpl; [|intros s; rewrite !lookup_empty|intros s x; rewrite lookup_empty]. }
  fold v in H1, H2. simpl in *. split_and!.
  - done.
  - intros s. specialize (H2 s). destruct (clnt_ends clnt !! s) as [x|] eqn:Ex; [|done].
    destruct (H3 s x Ex). auto.
  - intros Hw s x Hx Hon. rewrite H1. apply (within_run ops (mkView srvs ∅)); [done| |].
    + intros s'. simpl. by rewrite lookup_empty.
    + fold v. by rewrite H2, Hx, <- Hon.
  - intros l net2 clnt2 s x Hstep Hx Hon. split; [by inversion Hstep|].
    by eapply ConnectTo_keeps_ends.
Qed.

(** ** Examples *)

Definition ex_clnt : Network * Clnt :=
  match Clnt_makeEnd MakeNetwork (makeClntTo None) "server-0-0" "x" with
  | Ret (net, clnt, _) => (net, clnt)
  | _ => (MakeNetwork, makeClntTo None)
  end.

Lemma ex_run : clnt_run (MakeNetwork, makeClntTo None) [OpEnd "server-0-0"] ex_clnt.
Proof.
  apply (run_cons _ _ ex_clnt); [|apply run_nil]. by apply (step_end _ _ _ "x" _ _ "x").
Qed.

(** A client calls two servers, is cut off, and is connected to the first of them again. *)
Definition ex_two : Network * Clnt :=
  match Clnt_makeEnd ex_clnt.1 ex_clnt.2 "server-0-1" "y" with
  | Ret (net, clnt, _) => (net, clnt)
  | _ => ex_clnt
  end.

Definition ex_order : list (string * string) := map_to_list (clnt_ends ex_two.2).

Definition ex_off : Network * Clnt := Clnt_DisconnectAll ex_two.1 ex_two.2 ex_order.

Definition ex_first : Network * Clnt := Clnt_ConnectTo ex_off.1 ex_off.2 (Some ["server-0-0"]) ex_order.

Definition ex_none : Network * Clnt := Clnt_ConnectTo ex_first.1 ex_first.2 (Some []) ex_order.

Definition ex_ops : list ClntOp :=
  [OpEnd "server-0-0"; OpEnd "server-0-1"; OpDisconnectAll; OpConnectTo (Some ["server-0-0"])].

Lemma ex_ops_run : clnt_run (MakeNetwork, makeClntTo None) ex_ops ex_first.
Proof.
  apply (run_cons _ _ ex_clnt); [by apply (step_end _ _ _ "x" _ _ "x")|].
  apply (run_cons _ _ ex_two); [by apply (step_end _ _ _ "y" _ _ "y")|].
  apply (run_cons _ _ ex_off); [apply (step_disconnect_all ex_two.1 ex_two.2); unfold visits; reflexivity|].
  apply (run_cons _ _ ex_first); [apply (step_connect_to ex_off.1 ex_off.2); unfold visits; reflexivity|]. apply run_nil.
Qed.

Lemma Clnt_refines_view_witness :
  clnt_ends ex_first.2 !! "server-0-0" = Some "x" ∧ enabled ex_first.1 "x" = true ∧
  clnt_ends ex_first.2 !! "server-0-1" = Some "y" ∧ enabled ex_first.1 "y" = false ∧
  (∀ s x, clnt_ends ex_first.2 !! s = Some x → enabled ex_first.1 x = true →
     allowed (clnt_srvs ex_first.2) s = true) ∧
  clnt_srvs ex_none.2 = Some [] ∧ enabled ex_none.1 "x" = true.
Proof.
  destruct (Clnt_refines_view MakeNetwork None ex_ops ex_first.1 ex_first.2 ex_ops_run)
    as ([_ Hv] & Hw & Hc).
  split; [reflexivity|]. split.
  { destruct (Hv "server-0-0") as (_ & _ & E). apply (inj Some). rewrite <- E. vm_compute. reflexivity. }
  split; [reflexivity|]. split.
  { destruct (Hv "server-0-1") as (_ & _ & E). apply (inj Some). rewrite <- E. vm_compute. reflexivity. }
  split; [apply Hw; simpl; split_and!; try done; intros s Hs; by apply bool_decide_eq_true in Hs; set_solver|].
  destruct (Hc (Some []) ex_none.1 ex_none.2 "server-0-0" "x") as (Hs & _ & Hon); [|reflexivity..|].
  - apply (step_connect_to ex_first.1 ex_first.2). unfold visits; reflexivity.
  - split; [exact Hs|exact Hon].
Defined.

Lemma ConnectTo_keeps_ends_witness :
  enabled (Clnt_ConnectTo ex_clnt.1 ex_clnt.2 (Some []) [("server-0-0", "x")]).1 "x" = true.
Proof.
  destruct (ConnectTo_keeps_ends MakeNetwork None [OpEnd "server-0-0"] ex_clnt.1 ex_clnt.2 (Some [])
    (Clnt_ConnectTo ex_clnt.1 ex_clnt.2 (Some []) [("server-0-0", "x")]).1
    (Clnt_ConnectTo ex_clnt.1 ex_clnt.2 (Some []) [("server-0-0", "x")]).2 "server-0-0" "x" ex_run)
    as [_ H]; [|reflexivity..|exact H].
  apply step_connect_to. unfold visits; reflexivity.
Defined.
