(* ===== verification/TesterConfig.v ===== *)
(** * Test configurations ([tester1/config.go], the rest of [tester1/group.go])

    A configuration holds the network, the groups of servers and the clients of a test, and
    counts the operations of clerks. Starting a group makes all its servers, with fresh ends
    and new servers of the network, and connects everyone to everyone. Random names, pointers
    of servers, the clock and random draws are arguments. *)

From stdpp Require Import pretty.
From S2P Require Export TesterGroup Clnts.
From S2P Require Import Strconv.

Local Open Scope Z_scope.

Section config.
Context {Svc : Type}.

Abbreviation SGrp := (ServerGrp (Svc := Svc)).

(** ** Groups *)

Abbreviation Groups := (gmap Z SGrp).

Definition newGroups : Groups := ∅.

Definition MakeGroup (net : Network) (gs : Groups) (gid : Z) (names : list (list string))
    (mks : Z → nat → option Persister → list Svc) : outcome (Network * Groups) :=
  '(net, sg) ← makeSrvGrp net gid names mks;
  Ret (net, <[gid := sg]> gs).

Definition lookupGroup (gs : Groups) (gid : Z) : option SGrp := gs !! gid.

Definition Groups_delete (gs : Groups) (gid : Z) : Groups := delete gid gs.

(** [order] lists the groups of the map as they are visited. *)
Definition Groups_cleanup (w : World (Svc := Svc)) (order : list SGrp) : World :=
  foldl sg_cleanup w order.

(** ** Starting and stopping a group *)

(** The loop of [start], from server [i] on: the names of the new ends and the new labrpc
    server of each. *)
Fixpoint start_from (i : nat) (net : Network) (sg : SGrp) (starts : list (list string * nat))
    : outcome (Network * SGrp) :=
  match starts with
  | [] => Ret (net, sg)
  | (names, ptr) :: starts =>
      '(net, sg) ← StartServer net sg i names ptr;
      start_from (S i) net sg starts
  end.

Definition sg_start (net : Network) (sg : SGrp) (starts : list (list string * nat))
    : outcome (Network * SGrp) := start_from 0 net sg starts.

Definition StartServers (net : Network) (sg : SGrp) (starts : list (list string * nat))
    : outcome (Network * SGrp) :=
  '(net, sg) ← sg_start net sg starts;
  ConnectAll net sg.

Fixpoint shutdown_each (w : World) (sg : SGrp) (ids : list nat) : outcome (World * SGrp) :=
  match ids with
  | [] => Ret (w, sg)
  | i :: ids => '(w, sg) ← ShutdownServer w sg i; shutdown_each w sg ids
  end.

Definition sg_Shutdown (w : World) (sg : SGrp) : outcome (World * SGrp) :=
  shutdown_each w sg (sg_all sg).

Definition RpcCount {Mths Err Res} (heap : nat → Server Mths Err Res) (net : Network) (sg : SGrp)
    (server : nat) : outcome Z :=
  Network_GetCount heap net (ServerName (sg_gid sg) server).

(** ** Fresh ends *)

Lemma make_ends_spec net gid names j :
  NoDup names → (∀ x, x ∈ names → x ∉ rn_ends net) →
  ∃ net', make_ends net gid names j = Ret net' ∧
    rn_ends net' = list_to_set names ∪ rn_ends net ∧
    rn_servers net' = rn_servers net ∧
    (∀ b x, names !! b = Some x →
       rn_connections net' !! x = Some (Some (ServerName gid (j + b)))) ∧
    (∀ x, x ∉ names → rn_connections net' !! x = rn_connections net !! x ∧ (on net' x ↔ on net x)).
Proof.
  revert net j. induction names as [|name names IH]; intros net j Hnd Hf; simpl.
  { exists net. split_and!; [done|set_solver|done|done|done]. }
  apply NoDup_cons in Hnd as [Hn Hnd]. unfold MakeEnd.
  rewrite decide_False by (apply Hf; left). simpl.
  edestruct IH as (net' & -> & He & Hs & Hc & Ho); [done| |].
  { intros x Hx. simpl. assert (x ∉ rn_ends net) by (apply Hf; by right). set_solver. }
  exists net'. split; [done|]. split; [rewrite He; simpl; set_solver|]. split; [by rewrite Hs|].
  split.
  - intros [|b] x Hx; simpl in Hx.
    + injection Hx as ->. destruct (Ho x Hn) as [-> _]. simpl. rewrite lookup_insert_eq.
      by rewrite Nat.add_0_r.
    + rewrite (Hc b x Hx). do 3 f_equal. lia.
  - intros x [Hx Hx']%not_elem_of_cons. destruct (Ho x Hx') as [-> ->]. unfold on, map_get. simpl.
    by rewrite !lookup_insert_ne.
Qed.

(** The ends of the group exist in the network. *)
Definition registered (net : Network) (sg : SGrp) : Prop :=
  ∀ a b x, end_name (sg_srvs sg) a b = Some x → x ∈ rn_ends net.

(** Server [a] is in the network and its ends lead to the servers they are for. *)
Definition ready (net : Network) (sg : SGrp) (a ptr : nat) : Prop :=
  rn_servers net !! ServerName (sg_gid sg) a = Some (Some ptr) ∧
  ∀ b x, end_name (sg_srvs sg) a b = Some x →
    rn_connections net !! x = Some (Some (ServerName (sg_gid sg) b)).

(** Names for the ends of one more server. *)
Definition fresh_ends (net : Network) (sg : SGrp) (names : list string) : Prop :=
  length names = sg_N sg ∧ NoDup names ∧ ∀ x, x ∈ names → x ∉ rn_ends net.

Lemma ServerName_inj gid i j : ServerName gid i = ServerName gid j → i = j.
Proof.
  unfold ServerName. intros E. do 3 apply (inj (String.append _)) in E. apply (inj pretty) in E. lia.
Qed.

Definition dash : Ascii.ascii := Ascii.ascii_of_nat 45.

(** A number has no dash, so a server's name tells its group and its index. *)
Lemma app_sep_inj {A} (x : A) l1 l2 r1 r2 :
  l1 ++ x :: r1 = l2 ++ x :: r2 → x ∉ r1 → x ∉ r2 → l1 = l2 ∧ r1 = r2.
Proof.
  revert l2. induction l1 as [|y l1 IH]; intros [|z l2] E H1 H2; simpl in E; simplify_eq; try set_solver.
Qed.

Lemma pretty_N_dash (x : N) : dash ∉ String.list_ascii_of_string (pretty x).
Proof. apply pretty_N_avoids. intros y. unfold pretty_N_char. by repeat case_match. Qed.

Lemma pretty_nat_dash (i : nat) : dash ∉ String.list_ascii_of_string (pretty (Z.of_nat i)).
Proof. destruct i as [|i]; [simpl; set_solver|]. apply (pretty_N_dash (N.pos (Pos.of_succ_nat i))). Qed.

Lemma ServerName_inj2 g h i j : ServerName g i = ServerName h j → g = h ∧ i = j.
Proof.
  unfold ServerName. intros E. apply (inj (String.append _)) in E.
  apply (f_equal String.list_ascii_of_string) in E. rewrite !list_ascii_app in E. simpl in E.
  apply app_sep_inj in E as [Eg Ei]; [|apply pretty_nat_dash..].
  apply (f_equal String.string_of_list_ascii) in Eg, Ei. rewrite !String.string_of_list_ascii_of_string in Eg, Ei.
  apply (inj pretty) in Eg, Ei. lia.
Qed.

Lemma end_name_new (srvs : list TServer) i (s' : TServer (Svc := Svc)) a b :
  (i < length srvs)%nat →
  end_name (<[i := s']> srvs) a b = if decide (a = i) then ts_endNames s' !! b else end_name srvs a b.
Proof.
  intros Hi. unfold end_name. case_decide as Ha; [subst; by rewrite list_lookup_insert_eq|].
  by rewrite list_lookup_insert_ne.
Qed.

Lemma wf_new_ends net sg i s' :
  wf sg → registered net sg → (i < sg_N sg)%nat → fresh_ends net sg (ts_endNames s') →
  wf (set_srvs sg (<[i := s']> (sg_srvs sg))).
Proof.
  intros [H1 H2 H3] Hreg Hi (Hl & Hnd & Hf). constructor; unfold sg_N in *; simpl; rewrite ?length_insert.
  - done.
  - intros a Ha. destruct (decide (a = i)) as [->|Hne].
    + exists s'. by rewrite list_lookup_insert_eq.
    + rewrite list_lookup_insert_ne by done. by apply H2.
  - intros a b c d x. rewrite !end_name_new by done.
    assert (Hnew : ∀ k, ts_endNames s' !! k = Some x → ∀ a b, end_name (sg_srvs sg) a b ≠ Some x).
    { intros k Hk a' b' Hold. apply (Hf x); [by eapply list_elem_of_lookup_2|by eapply Hreg]. }
    repeat case_decide; subst; intros E1 E2.
    + split; [done|]. by eapply NoDup_lookup.
    + by destruct (Hnew _ E1 _ _ E2).
    + by destruct (Hnew _ E2 _ _ E1).
    + by eapply H3.
Qed.

(** Starting server [i]: fresh ends in place of the old ones, and a new server. *)
Lemma StartServer_spec net sg i s names ptr :
  wf sg → registered net sg → sg_srvs sg !! i = Some s → fresh_ends net sg names →
  let saved := match ts_saved s with Some ps => Persister_Copy ps | None => MakePersister end in
  let s' := mkTServer (Some saved) (sg_mks sg (sg_gid sg) i (Some saved)) names in
  let sg' := set_srvs sg (<[i := s']> (sg_srvs sg)) in
  ∃ net', StartServer net sg i names ptr = Ret (net', sg') ∧ wf sg' ∧ registered net' sg' ∧
    rn_ends net' = list_to_set names ∪ rn_ends net ∧
    ready net' sg' i ptr ∧ (∀ a p, a ≠ i → ready net sg a p → ready net' sg' a p) ∧
    (∀ x, x ∉ names → on net' x ↔ on net x).
Proof.
  intros Hw Hreg Hs Hfr saved s' sg'. assert (Hi : (i < sg_N sg)%nat) by by eapply lookup_lt_Some.
  destruct Hfr as (Hl & Hnd & Hf).
  destruct (make_ends_spec net (sg_gid sg) names 0 Hnd Hf) as (n1 & E & He & Hsv & Hc & Ho).
  exists (AddServer n1 (ServerName (sg_gid sg) i) ptr). split_and!.
  - unfold StartServer, startServer, makeServer. rewrite (index_Some _ _ _ Hs). simpl. by rewrite E.
  - by eapply wf_new_ends.
  - intros a b x. unfold sg'. simpl. rewrite end_name_new, He by done. case_decide.
    + intros Hx%list_elem_of_lookup_2. simpl in Hx. set_solver.
    + intros Hx%Hreg. set_solver.
  - done.
  - split; [simpl; by rewrite lookup_insert_eq|]. intros b x. unfold sg'. simpl.
    rewrite end_name_new, decide_True by done. apply Hc.
  - intros a p Ha [Hp Hx]. split; simpl.
    + rewrite lookup_insert_ne; [by rewrite Hsv|]. by intros ->%ServerName_inj.
    + intros b x. rewrite end_name_new, decide_False by done. intros Hb.
      destruct (Ho x) as [-> _]; [|by apply Hx]. intros Hin. apply (Hf x Hin). by eapply Hreg.
  - intros x Hx. by apply Ho.
Qed.

(** ** Starting all servers *)

(** Names and servers for the servers from [i] on. *)
Definition starts_ok (net : Network) (sg : SGrp) (starts : list (list string * nat)) : Prop :=
  Forall (λ st : list string * nat, length st.1 = sg_N sg) starts ∧ NoDup (mjoin starts.*1) ∧
  ∀ x, x ∈ mjoin starts.*1 → x ∉ rn_ends net.

Lemma start_from_spec starts i net sg :
  wf sg → registered net sg → (i + length starts = sg_N sg)%nat → starts_ok net sg starts →
  ∃ net' sg', start_from i net sg starts = Ret (net', sg') ∧ wf sg' ∧ registered net' sg' ∧
    sg_N sg' = sg_N sg ∧ sg_gid sg' = sg_gid sg ∧ sg_connected sg' = sg_connected sg ∧
    (∀ a p, (a < i)%nat → ready net sg a p → ready net' sg' a p) ∧
    (∀ k names p, starts !! k = Some (names, p) → ready net' sg' (i + k) p) ∧
    sg_servernames sg' = sg_servernames sg ∧
    rn_ends net' = list_to_set (mjoin starts.*1) ∪ rn_ends net.
Proof.
  revert i net sg. induction starts as [|[names ptr] starts IH]; intros i net sg Hw Hreg Hl Hok.
  { exists net, sg. split_and!; try done. set_solver. }
  destruct Hok as (Hall & Hnd & Hf). simpl in Hall, Hnd, Hf, Hl.
  apply Forall_cons in Hall as [Hn Hall]. apply NoDup_app in Hnd as (Hnn & Hdis & Hnd).
  destruct (lookup_lt_is_Some_2 (sg_srvs sg) i) as [s Hs]; [fold (sg_N sg); lia|].
  destruct (StartServer_spec net sg i s names ptr) as (n1 & E & Hw1 & Hr1 & He1 & Hi1 & Ho1 & _);
    [done..|split_and!; [done..|intros; apply Hf; set_solver]|].
  match type of E with _ = Ret (_, ?g) => set (sg1 := g) in * end.
  assert (HN : sg_N sg1 = sg_N sg) by (unfold sg1, sg_N; simpl; by rewrite length_insert).
  destruct (IH (S i) n1 sg1) as (n2 & sg2 & E2 & Hw2 & Hr2 & HN2 & Hg2 & Hc2 & Hb & Ha & Hsn & He2);
    [done|done|rewrite HN; lia| |].
  { split_and!; [by rewrite HN|done|]. intros x Hx. rewrite He1.
    assert (x ∉ rn_ends net) by (apply Hf; set_solver). assert (x ∉ names) by set_solver. set_solver. }
  exists n2, sg2. cbn [start_from]. rewrite E. simpl.
  split_and!; [done|done|done|congruence|done|done| | |done|].
  - intros a p Hlt Hrd. apply Hb; [lia|]. apply Ho1; [lia|done].
  - intros [|k] names' p Hk; simpl in Hk.
    + injection Hk as -> ->. rewrite Nat.add_0_r. apply Hb; [lia|done].
    + rewrite <- Nat.add_succ_comm. by eapply Ha.
  - rewrite He2, He1. simpl. rewrite list_to_set_app_L. set_solver.
Qed.

Lemma sg_start_spec net sg starts :
  wf sg → registered net sg → length starts = sg_N sg → starts_ok net sg starts →
  ∃ net' sg', sg_start net sg starts = Ret (net', sg') ∧ wf sg' ∧ registered net' sg' ∧
    sg_N sg' = sg_N sg ∧ sg_gid sg' = sg_gid sg ∧
    (∀ k names p, starts !! k = Some (names, p) → ready net' sg' k p) ∧
    sg_servernames sg' = sg_servernames sg ∧
    rn_ends net' = list_to_set (mjoin starts.*1) ∪ rn_ends net.
Proof.
  intros Hw Hr Hl Hok.
  destruct (start_from_spec starts 0 net sg Hw Hr Hl Hok) as (n & g & ? & ? & ? & ? & ? & _ & _ & ? & ? & ?).
  exists n, g. by split_and!.
Qed.

(** ** Connecting everyone *)

Lemma connect_each_spec (ids : list nat) net (sg : SGrp) :
  wf sg → (∀ t, t ∈ ids → (t < sg_N sg)%nat) →
  ∃ net' c, connect_each net sg ids = Ret (net', set_connected sg c) ∧ same_but_enabled net net' ∧
    wf (set_connected sg c) ∧ (∀ t, t ∈ ids ∨ up (sg_connected sg) t → up c t) ∧
    (∀ x, on net x → on net' x) ∧
    (∀ a b x, a ∈ ids → b ∈ ids ∨ up (sg_connected sg) b → (b < sg_N sg)%nat →
      link (sg_srvs sg) x a b → on net' x).
Proof.
  revert net sg. induction ids as [|i ids IH]; intros net sg Hw Hr.
  { exists net, (sg_connected sg). assert (set_connected sg (sg_connected sg) = sg) as -> by by destruct sg.
    split_and!; try done.
    - by intros t [?%not_elem_of_nil|?].
    - by intros a b x ?%not_elem_of_nil. }
  destruct (connect_spec net sg i (sg_all sg)) as (n1 & E1 & Hs1 & Hw1 & H1);
    [done|apply Hr; left|unfold sg_all; intros t; rewrite elem_of_seq; lia|].
  set (c1 := <[i:=true]> (sg_connected sg)) in *. pose proof (wf_connected _ Hw) as Hlen.
  assert (Hi : (i < sg_N sg)%nat) by (apply Hr; left).
  assert (Hup1 : up c1 i) by (unfold up, c1; by rewrite list_lookup_insert_eq by lia).
  assert (Hupm : ∀ t, up (sg_connected sg) t → up c1 t).
  { intros t Ht. unfold up, c1 in *. destruct (decide (t = i)) as [->|]; [done|].
    by rewrite list_lookup_insert_ne. }
  destruct (IH n1 (set_connected sg c1) Hw1) as (n2 & c & E2 & Hs2 & Hw2 & Hu2 & Hm2 & H2);
    [intros; apply Hr; by right|]. simpl in *.
  exists n2, c. unfold ConnectOne. rewrite E1. simpl. split_and!; [done|by etrans|done| | |].
  - intros t [[->|?]%elem_of_cons|?]; apply Hu2; auto.
  - intros x Hx. apply Hm2, H1. by right.
  - intros a b x Ha Hb Hlt Hlk. destruct (decide (a ∈ ids)) as [Ha'|Ha'].
    + apply (H2 a b x Ha'); [|done|done]. destruct Hb as [[->|?]%elem_of_cons|?]; auto.
    + apply elem_of_cons in Ha as [->|?]; [|done]. destruct (decide (b ∈ ids)) as [Hb'|Hb'].
      * apply (H2 b i x Hb'); [auto|done|]. unfold link in *. tauto.
      * apply Hm2, H1. left. exists b. split_and!; [|set_solver|done].
        unfold sg_all. apply elem_of_seq. lia.
Qed.

(** Every end of the group is enabled and leads to a server that is there. *)
Definition full_mesh (net : Network) (sg : SGrp) (ptrs : list nat) : Prop :=
  ∀ a b, (a < sg_N sg)%nat → (b < sg_N sg)%nat →
    ∃ x p, end_name (sg_srvs sg) a b = Some x ∧ ptrs !! b = Some p ∧
      reaches net x (ServerName (sg_gid sg) b) p.

Lemma ready_same net net' sg c a p :
  same_but_enabled net net' → ready net sg a p → ready net' (set_connected sg c) a p.
Proof. unfold same_but_enabled. intros -> [H1 H2]. by split. Qed.

(** An enabled end between two servers that are ready. *)
Lemma ready_reaches net sg a b x p q :
  on net x → end_name (sg_srvs sg) a b = Some x → ready net sg a p → ready net sg b q →
  reaches net x (ServerName (sg_gid sg) b) q.
Proof.
  intros Hon Hx [_ Hc] [Hs _]. split_and!; [|by apply Hc|done].
  unfold on, map_get in Hon. by destruct (rn_enabled net !! x) as [[]|].
Qed.

Lemma StartServers_spec net sg starts :
  wf sg → registered net sg → length starts = sg_N sg → starts_ok net sg starts →
  ∃ net' sg', StartServers net sg starts = Ret (net', sg') ∧ wf sg' ∧ registered net' sg' ∧
    sg_N sg' = sg_N sg ∧ (∀ i, (i < sg_N sg)%nat → up (sg_connected sg') i) ∧
    (∀ k names p, starts !! k = Some (names, p) → ready net' sg' k p) ∧
    full_mesh net' sg' starts.*2 ∧ sg_servernames sg' = sg_servernames sg ∧
    rn_ends net' = list_to_set (mjoin starts.*1) ∪ rn_ends net.
Proof.
  intros Hw Hr Hl Hok. unfold StartServers.
  destruct (sg_start_spec net sg starts Hw Hr Hl Hok) as (n1 & g & -> & Hw1 & Hr1 & HN & Hg & Hrd & Hsn & He). simpl.
  destruct (connect_each_spec (sg_all g) n1 g) as (n2 & c & E & Hs & Hw2 & Hu & _ & Hon);
    [done|unfold sg_all; intros t; rewrite elem_of_seq; lia|].
  unfold ConnectAll. rewrite E. exists n2, (set_connected g c).
  split_and!; [done|done| |done| | | |done|by rewrite Hs].
  - intros a b x Hx. rewrite Hs. simpl. by eapply Hr1.
  - intros i Hi. apply Hu. left. unfold sg_all. apply elem_of_seq. lia.
  - intros k names p Hk. by eapply ready_same, Hrd.
  - intros a b Ha Hb. change (sg_N (set_connected g c)) with (sg_N g) in *.
    destruct (end_name_Some g a b Hw1 Ha Hb) as (s & x & _ & _ & Hx). exists x.
    destruct (lookup_lt_is_Some_2 starts b) as [[nb pb] Hpb]; [lia|].
    destruct (lookup_lt_is_Some_2 starts a) as [[na pa] Hpa]; [lia|].
    exists pb. split_and!; [done|by rewrite list_lookup_fmap, Hpb|].
    apply (ready_reaches n2 (set_connected g c) a b x pa pb); [|done|by eapply ready_same, Hrd..].
    apply (Hon a b x); [unfold sg_all; apply elem_of_seq; lia|
      left; unfold sg_all; apply elem_of_seq; lia|done|by left].
Qed.

(** ** Restarting a server *)

(** Connecting server [i] to a group whose other servers are connected. *)
Lemma ConnectOne_reaches net sg i ptr :
  wf sg → (i < sg_N sg)%nat → ready net sg i ptr →
  (∀ a, (a < sg_N sg)%nat → a ≠ i → up (sg_connected sg) a ∧ ∃ p, ready net sg a p) →
  ∃ net' c, ConnectOne net sg i = Ret (net', set_connected sg c) ∧ wf (set_connected sg c) ∧
    ∀ a, (a < sg_N sg)%nat →
      (∃ x, end_name (sg_srvs sg) a i = Some x ∧ reaches net' x (ServerName (sg_gid sg) i) ptr) ∧
      (∃ x p, end_name (sg_srvs sg) i a = Some x ∧ reaches net' x (ServerName (sg_gid sg) a) p).
Proof.
  intros Hw Hi Hrd Hothers.
  destruct (connect_spec net sg i (sg_all sg)) as (n3 & E3 & Hsame & Hw3 & Hon);
    [done|lia|unfold sg_all; intros t; rewrite elem_of_seq; lia|].
  set (c := <[i:=true]> (sg_connected sg)) in *. exists n3, c. split; [done|]. split; [done|].
  pose proof (wf_connected _ Hw) as Hlen.
  assert (Hall : ∀ a, (a < sg_N sg)%nat → up c a ∧ ∃ p, ready n3 (set_connected sg c) a p).
  { intros a Ha. unfold up, c. destruct (decide (a = i)) as [->|Hne].
    - rewrite list_lookup_insert_eq by lia. split; [done|]. exists ptr. by apply (ready_same net).
    - rewrite list_lookup_insert_ne by done. destruct (Hothers a Ha Hne) as [Hu [p Hp]].
      split; [exact Hu|]. exists p. by apply (ready_same net). }
  assert (Hlink : ∀ a x, (a < sg_N sg)%nat → link (sg_srvs sg) x i a → on n3 x).
  { intros a x Ha Hl. apply Hon. left. exists a. split_and!; [|by apply Hall|done].
    unfold sg_all. apply elem_of_seq. lia. }
  assert (Hi3 : ready n3 (set_connected sg c) i ptr) by (by apply (ready_same net)).
  intros a Ha. destruct (Hall a Ha) as [_ [p Hp]]. split.
  - destruct (end_name_Some sg a i Hw Ha Hi) as (_ & x & _ & _ & Hx). exists x. split; [done|].
    apply (ready_reaches n3 (set_connected sg c) a i x p ptr); [|done..].
    apply (Hlink a); [done|]. by right.
  - destruct (end_name_Some sg i a Hw Hi Ha) as (_ & x & _ & _ & Hx). exists x, p. split; [done|].
    apply (ready_reaches n3 (set_connected sg c) i a x ptr p); [|done..].
    apply (Hlink a); [done|]. by left.
Qed.

(** RestartServer: shutting server [i] down, starting it and connecting it again, in a group whose
    other servers are connected and ready: the new server is reached by everyone at its new
    pointer and reaches everyone; it was given a copy of the persisted state of the old one,
    whose services were killed. *)
Theorem restart_server w sg i s names ptr :
  wf sg → registered (w_net w) sg → sg_srvs sg !! i = Some s → fresh_ends (w_net w) sg names →
  (∀ a, (a < sg_N sg)%nat → a ≠ i → up (sg_connected sg) a ∧ ∃ p, ready (w_net w) sg a p) →
  ∃ w1 sg1 net2 sg2 net3 sg3 s', ShutdownServer w sg i = Ret (w1, sg1) ∧
    StartServer (w_net w1) sg1 i names ptr = Ret (net2, sg2) ∧
    ConnectOne net2 sg2 i = Ret (net3, sg3) ∧ wf sg3 ∧
    w_killed w1 = w_killed w ++ ts_svcs s ∧ sg_srvs sg3 !! i = Some s' ∧
    ts_saved s' = Some (match ts_saved s with Some ps => Persister_Copy ps | None => MakePersister end) ∧
    ∀ a, (a < sg_N sg)%nat →
      (∃ x, end_name (sg_srvs sg3) a i = Some x ∧ reaches net3 x (ServerName (sg_gid sg) i) ptr) ∧
      (∃ x p, end_name (sg_srvs sg3) i a = Some x ∧ reaches net3 x (ServerName (sg_gid sg) a) p).
Proof.
  intros Hw Hreg Hs Hfr Hothers.
  pose proof (lookup_lt_Some _ _ _ Hs) as Hi. fold (sg_N sg) in Hi.
  destruct (ShutdownServer_spec w sg i s Hw Hs) as (w1 & sg1 & E1 & Hw1 & Hn1 & Hk1 & Hsg1 & _).
  set (s0 := mkTServer (Persister_Copy <$> ts_saved s) [] (ts_endNames s)) in *.
  assert (He1 : ∀ a b, end_name (sg_srvs sg1) a b = end_name (sg_srvs sg) a b).
  { intros a b. rewrite Hsg1. by apply (end_name_insert _ i s). }
  assert (HN1 : sg_N sg1 = sg_N sg) by (rewrite Hsg1; unfold sg_N; simpl; by rewrite length_insert).
  assert (Hg1 : sg_gid sg1 = sg_gid sg) by by rewrite Hsg1.
  assert (Hs1 : sg_srvs sg1 !! i = Some s0) by (rewrite Hsg1; simpl; by rewrite list_lookup_insert_eq).
  assert (Hrd1 : ∀ a p, a ≠ i → ready (w_net w) sg a p → ready (w_net w1) sg1 a p).
  { intros a p Ha [Hp Hc]. rewrite Hn1. split; simpl; rewrite Hg1.
    - rewrite lookup_insert_ne; [done|]. by intros ->%ServerName_inj.
    - intros b x. rewrite He1. apply Hc. }
  destruct (StartServer_spec (w_net w1) sg1 i s0 names ptr) as (n2 & E2 & Hw2 & _ & _ & Hi2 & Ho2 & _);
    [done|intros a b x; rewrite He1, Hn1; apply Hreg|done|by unfold fresh_ends; rewrite HN1, Hn1|].
  match type of E2 with _ = Ret (_, ?g) => set (sg2 := g) in * end.
  assert (HN2 : sg_N sg2 = sg_N sg) by (unfold sg2, sg_N; simpl; rewrite length_insert; exact HN1).
  destruct (ConnectOne_reaches n2 sg2 i ptr) as (n3 & c & E3 & Hw3 & Hr); [done|lia|done| |].
  { intros a Ha Hne. rewrite HN2 in Ha. destruct (Hothers a Ha Hne) as [Hu [p Hp]]. split.
    - unfold up, sg2. rewrite Hsg1. simpl. by rewrite list_lookup_insert_ne.
    - exists p. apply Ho2; [done|]. by apply Hrd1. }
  exists w1, sg1, n2, sg2, n3, (set_connected sg2 c).
  eexists. split_and!; [done..|unfold sg2; simpl; by rewrite list_lookup_insert_eq by (fold (sg_N sg1); lia)| |].
  { unfold s0. simpl. by destruct (ts_saved s) as [[]|]. }
  intros a Ha. rewrite <- Hg1. apply Hr. lia.
Qed.

(** ** Configurations *)

Definition GRP0 : Z := 0.

(** [cf_failed] is [t.Failed()]; times are in nanoseconds. *)
Record Config := mkConfig {
  cf_clnts : Clnts;
  cf_groups : Groups;
  cf_net : Network;
  cf_killed : list Svc;
  cf_failed : bool;
  cf_start : Z;
  cf_t0 : Z;
  cf_rpcs0 : Z;
  cf_ops : Z
}.

Definition with_groups (cfg : Config) (net : Network) (gs : Groups) : Config :=
  mkConfig (cf_clnts cfg) gs net (cf_killed cfg) (cf_failed cfg) (cf_start cfg) (cf_t0 cfg)
    (cf_rpcs0 cfg) (cf_ops cfg).

Definition with_cnet (cfg : Config) (net : Network) : Config := with_groups cfg net (cf_groups cfg).

Definition Group (cfg : Config) (gid : Z) : option SGrp := lookupGroup (cf_groups cfg) gid.

(** [Group(gid)] where the code uses the result: nil panics. *)
Definition the_group (cfg : Config) (gid : Z) : outcome SGrp :=
  match Group cfg gid with Some sg => Ret sg | None => Panic "nil pointer dereference" end.

Definition MakeGroupStart (cfg : Config) (gid : Z) (names : list (list string))
    (mks : Z → nat → option Persister → list Svc) (starts : list (list string * nat))
    : outcome Config :=
  '(net, gs) ← MakeGroup (cf_net cfg) (cf_groups cfg) gid names mks;
  let cfg := with_groups cfg net gs in
  sg ← the_group cfg gid;
  '(net, sg) ← StartServers (cf_net cfg) sg starts;
  Ret (with_groups cfg net (<[gid := sg]> (cf_groups cfg))).

Definition MakeConfig (reliable : bool) (names : list (list string))
    (mks : Z → nat → option Persister → list Svc) (starts : list (list string * nat)) (now : Z)
    : outcome Config :=
  let cfg := mkConfig makeClnts newGroups MakeNetwork [] false 0 0 0 0 in
  cfg ← MakeGroupStart cfg GRP0 names mks starts;
  let cfg := mkConfig makeClnts (cf_groups cfg) (cf_net cfg) [] false now 0 0 0 in
  Ret (with_cnet cfg (Reliable (cf_net cfg) reliable)).

Definition SetReliable (cfg : Config) (reliable : bool) : Config :=
  with_cnet cfg (Reliable (cf_net cfg) reliable).

Definition Config_IsReliable (cfg : Config) : bool := IsReliable (cf_net cfg).

Definition SetLongReordering (cfg : Config) (longrel : bool) : Config :=
  with_cnet cfg (LongReordering (cf_net cfg) longrel).

Definition SetLongDelays (cfg : Config) (longdel : bool) : Config :=
  with_cnet cfg (LongDelays (cf_net cfg) longdel).

Definition ExitGroup (cfg : Config) (gid : Z) : outcome Config :=
  sg ← the_group cfg gid;
  '(w, _) ← sg_Shutdown (mkWorld (cf_net cfg) (cf_killed cfg)) sg;
  Ret (mkConfig (cf_clnts cfg) (Groups_delete (cf_groups cfg) gid) (w_net w) (w_killed w)
         (cf_failed cfg) (cf_start cfg) (cf_t0 cfg) (cf_rpcs0 cfg) (cf_ops cfg)).

Definition RpcTotal (cfg : Config) : Z := GetTotalCount (cf_net cfg).
Definition BytesTotal (cfg : Config) : Z := GetTotalBytes (cf_net cfg).

(** [Begin], without the printing. *)
Definition Begin (cfg : Config) (now : Z) : Config :=
  mkConfig (cf_clnts cfg) (cf_groups cfg) (cf_net cfg) (cf_killed cfg) (cf_failed cfg)
    (cf_start cfg) now (RpcTotal cfg) 0.

(** [Op] adds to an [int32]. *)
Definition Op (cfg : Config) : Config :=
  mkConfig (cf_clnts cfg) (cf_groups cfg) (cf_net cfg) (cf_killed cfg) (cf_failed cfg)
    (cf_start cfg) (cf_t0 cfg) (cf_rpcs0 cfg) ((cf_ops cfg + 1 + 2 ^ 31) `mod` 2 ^ 32 - 2 ^ 31).

Definition CheckTimeout (cfg : Config) (now : Z) : outcome unit :=
  if negb (cf_failed cfg) && bool_decide (120 * 1000000000 < now - cf_start cfg)
  then Fatal "test took longer than 120 seconds" else Ret tt.

(** What [End] prints: elapsed time, peers, RPCs and operations. *)
Record Stats := mkStats { st_time : Z; st_npeers : nat; st_nrpc : Z; st_ops : Z }.

Definition End_ (cfg : Config) (now : Z) : outcome (option Stats) :=
  _ ← CheckTimeout cfg now;
  if cf_failed cfg then Ret None
  else
    sg ← the_group cfg GRP0;
    Ret (Some (mkStats (now - cf_t0 cfg) (sg_N sg) (RpcTotal cfg - cf_rpcs0 cfg) (cf_ops cfg))).

(** [Cleanup], without the annotations (Annotation.v): [orders] lists the ends of the clients
    and [gorder] the groups as the maps are visited. *)
Definition Config_Cleanup (cfg : Config) (orders : list (list (string * string)))
    (gorder : list SGrp) (now : Z) : outcome Config :=
  '(net, clnts) ← Clnts_cleanup (cf_net cfg) (cf_clnts cfg) orders;
  let w := Groups_cleanup (mkWorld net (cf_killed cfg)) gorder in
  net ← Cleanup (w_net w);
  _ ← CheckTimeout cfg now;
  Ret (mkConfig clnts (cf_groups cfg) net (w_killed w) (cf_failed cfg) (cf_start cfg)
         (cf_t0 cfg) (cf_rpcs0 cfg) (cf_ops cfg)).

(** ** Leaving a group *)

Lemma shutdown_each_spec ids w (sg : SGrp) :
  wf sg → NoDup ids → (∀ i, i ∈ ids → (i < sg_N sg)%nat) →
  ∃ w' sg', shutdown_each w sg ids = Ret (w', sg') ∧
    w_killed w' = w_killed w ++ mjoin (omap (λ i, ts_svcs <$> sg_srvs sg !! i) ids) ∧
    (∀ x, rn_servers (w_net w') !! x =
       if decide (x ∈ ServerName (sg_gid sg) <$> ids) then Some None else rn_servers (w_net w) !! x) ∧
    (∀ x, on (w_net w') x ↔ on (w_net w) x ∧
       ∀ i a, i ∈ ids → (a < sg_N sg)%nat → ¬ link (sg_srvs sg) x i a).
Proof.
  revert w sg. induction ids as [|i ids IH]; intros w sg Hw Hnd Hr.
  { exists w, sg. split_and!; [done|by rewrite app_nil_r| |].
    - intros x. by rewrite decide_False by apply not_elem_of_nil.
    - intros x. split; [|by intros [? _]]. intros Hx. split; [done|]. by intros i a ?%not_elem_of_nil. }
  apply NoDup_cons in Hnd as [Hi Hnd].
  destruct (lookup_lt_is_Some_2 (sg_srvs sg) i) as [s Hs]; [apply Hr; left|].
  destruct (ShutdownServer_spec w sg i s Hw Hs) as (w1 & sg1 & E1 & Hw1 & Hn1 & Hk1 & Hsg1 & Hon1).
  assert (HN1 : sg_N sg1 = sg_N sg) by (rewrite Hsg1; unfold sg_N; simpl; by rewrite length_insert).
  destruct (IH w1 sg1 Hw1 Hnd) as (w2 & sg2 & E2 & Hk2 & Hs2 & Hon2).
  { intros j Hj. rewrite HN1. apply Hr. by right. }
  exists w2, sg2. cbn [shutdown_each]. rewrite E1. simpl. split_and!; [done| | |].
  - rewrite Hk2, Hk1, <- app_assoc, Hs. simpl. f_equal. f_equal. f_equal.
    apply omap_ext_in. intros j Hj. rewrite Hsg1. simpl.
    rewrite list_lookup_insert_ne; [done|]. by intros ->.
  - intros x. rewrite Hs2, Hn1. assert (Hg : sg_gid sg1 = sg_gid sg) by by rewrite Hsg1.
    rewrite Hg. simpl. destruct (decide (x = ServerName (sg_gid sg) i)) as [->|Hne].
    + rewrite lookup_insert_eq. rewrite (decide_True (P := _ ∈ _ :: _)) by left. by case_decide.
    + rewrite lookup_insert_ne by done. repeat case_decide; set_solver.
  - intros x. rewrite Hon2, Hon1, HN1.
    assert (Hl : ∀ a b, link (sg_srvs sg1) x a b ↔ link (sg_srvs sg) x a b).
    { intros a b. unfold link. rewrite Hsg1. simpl. by rewrite !(end_name_insert _ i s) by done. }
    setoid_rewrite Hl. setoid_rewrite elem_of_cons. naive_solver.
Qed.

(** ExitGroup: leaving a group kills the services of all its servers, each once and in order,
    removes every server from the network and disables every end of the group; the group is
    then unknown, and the other groups are as before. *)
Theorem ExitGroup_correct cfg gid sg :
  Group cfg gid = Some sg → wf sg →
  ∃ cfg', ExitGroup cfg gid = Ret cfg' ∧ Group cfg' gid = None ∧
    (∀ g, g ≠ gid → Group cfg' g = Group cfg g) ∧
    cf_killed cfg' = cf_killed cfg ++ mjoin (Services sg) ∧
    (∀ i, (i < sg_N sg)%nat → rn_servers (cf_net cfg') !! ServerName (sg_gid sg) i = Some None) ∧
    (∀ a b x, end_name (sg_srvs sg) a b = Some x → ¬ on (cf_net cfg') x).
Proof.
  intros Hg Hw. unfold ExitGroup, the_group. rewrite Hg. simpl.
  destruct (shutdown_each_spec (sg_all sg) (mkWorld (cf_net cfg) (cf_killed cfg)) sg Hw)
    as (w & sg' & E & Hk & Hs & Hon);
    [apply NoDup_seq|unfold sg_all; intros i; rewrite elem_of_seq; lia|].
  unfold sg_Shutdown. rewrite E. simpl. eexists. split; [done|]. split_and!.
  - unfold Group, lookupGroup, Groups_delete. simpl. apply lookup_delete_eq.
  - intros g Hne. unfold Group, lookupGroup, Groups_delete. simpl. by apply lookup_delete_ne.
  - simpl. rewrite Hk. simpl. f_equal. f_equal. unfold sg_all, sg_N, Services. clear.
    induction (sg_srvs sg) as [|s srvs IH] using rev_ind; [done|].
    rewrite length_app. simpl. rewrite Nat.add_1_r, seq_S, omap_app, fmap_app. simpl.
    rewrite lookup_app_r, Nat.sub_diag by lia. simpl. f_equal. rewrite <- IH.
    apply omap_ext_in. intros i Hi%elem_of_seq. by rewrite lookup_app_l by lia.
  - intros i Hi. rewrite Hs, decide_True; [done|]. apply list_elem_of_fmap_2. unfold sg_all.
    apply elem_of_seq. lia.
  - intros a b x Hx Honx. apply Hon in Honx as [_ Hno].
    assert (Ha : (a < sg_N sg)%nat).
    { unfold end_name in Hx. destruct (sg_srvs sg !! a) eqn:Ea; [by eapply lookup_lt_Some|done]. }
    destruct (wf_ends _ Hw a Ha) as (s & Hsa & Hl). apply (Hno a b).
    + unfold sg_all. apply elem_of_seq. lia.
    + unfold end_name in Hx. rewrite Hsa in Hx. simpl in Hx. rewrite <- Hl. by eapply lookup_lt_Some.
    + by left.
Qed.

(** ** A new configuration *)

Lemma make_servers_total net gid names :
  NoDup (mjoin names) → (∀ x, x ∈ mjoin names → x ∉ rn_ends net) →
  ∃ net' (srvs : list (TServer (Svc := Svc))), make_servers net gid names = Ret (net', srvs) ∧
    rn_ends net' = list_to_set (mjoin names) ∪ rn_ends net.
Proof.
  revert net. induction names as [|ns names IH]; intros net Hnd Hf; simpl in *.
  { exists net, []. split_and!; [done|set_solver]. }
  apply NoDup_app in Hnd as (Hn & Hdis & Hnd).
  destruct (make_ends_spec net gid ns 0 Hn) as (n1 & E & He & _); [set_solver|].
  unfold makeServer. rewrite E. simpl.
  destruct (IH n1 Hnd) as (n2 & srvs & -> & He2).
  { intros x Hx. rewrite He. assert (x ∉ rn_ends net) by (apply Hf; set_solver). set_solver. }
  simpl. eexists _, _. split_and!; [done|]. rewrite He2, He, list_to_set_app_L. set_solver.
Qed.

(** MakeGroupStart with distinct, fresh names makes a group that is fully connected. *)
Lemma MakeGroupStart_spec cfg gid names mks starts :
  NoDup (mjoin names ++ mjoin starts.*1) → length starts = length names →
  Forall (λ ns, length ns = length names) names →
  Forall (λ st : list string * nat, length st.1 = length names) starts →
  (∀ x, x ∈ mjoin names ++ mjoin starts.*1 → x ∉ rn_ends (cf_net cfg)) →
  ∃ net sg, MakeGroupStart cfg gid names mks starts =
      Ret (with_groups cfg net (<[gid := sg]> (cf_groups cfg))) ∧ wf sg ∧
    registered net sg ∧ sg_N sg = length names ∧
    (∀ i, (i < length names)%nat → up (sg_connected sg) i) ∧
    (∀ k names p, starts !! k = Some (names, p) → ready net sg k p) ∧
    full_mesh net sg starts.*2 ∧ SrvNames sg = ServerName gid <$> seq 0 (length names) ∧
    rn_ends net = list_to_set (mjoin names ++ mjoin starts.*1) ∪ rn_ends (cf_net cfg).
Proof.
  intros Hnd Hl Hn Hs Hf. apply NoDup_app in Hnd as (Hnn & Hdis & Hns).
  destruct (make_servers_total (cf_net cfg) gid names Hnn) as (n1 & srvs & E & He);
    [intros; apply Hf; set_solver|].
  assert (Em : makeSrvGrp (cf_net cfg) gid names mks = Ret (n1,
    mkServerGrp srvs (ServerName gid <$> seq 0 (length names)) gid (replicate (length names) false) mks))
    by (unfold makeSrvGrp; by rewrite E).
  set (sg1 := mkServerGrp srvs _ _ _ _) in Em.
  destruct (makeSrvGrp_wf _ _ _ _ _ _ Em Hnn Hn) as (Hw & HN & _).
  assert (Hreg : registered n1 sg1).
  { intros a b x. apply make_servers_spec in E. unfold end_name. simpl. rewrite E, list_lookup_fmap.
    destruct (names !! a) as [ns|] eqn:En; [|done]. simpl. intros Hx. rewrite He.
    apply elem_of_union_l, elem_of_list_to_set, list_elem_of_join. exists ns.
    split; by eapply list_elem_of_lookup_2. }
  destruct (StartServers_spec n1 sg1 starts Hw Hreg) as (n2 & sg2 & E2 & Hw2 & Hr2 & HN2 & Hu & Hrd & Hm & Hsn & He2).
  { by rewrite HN. }
  { split_and!; [by rewrite HN|done|]. intros x Hx. rewrite He.
    assert (x ∉ rn_ends (cf_net cfg)) by (apply Hf; set_solver). set_solver. }
  exists n2, sg2. split_and!; [|done|done|congruence|by rewrite <- HN|done|done|done|].
  2: { rewrite He2, He, list_to_set_app_L. set_solver. }
  unfold MakeGroupStart, MakeGroup. rewrite Em. simpl. unfold the_group, Group, lookupGroup. simpl.
  rewrite lookup_insert_eq. simpl. rewrite E2. simpl. unfold with_groups. simpl.
  by rewrite insert_insert_eq.
Qed.

(** C29: makeConfig_full_mesh: a new configuration with [n] servers and distinct random names: its
    construction does not fail, its group is well formed, every server is connected, every
    end of every server is enabled and leads to the server it is for, which is there, and the
    network is as reliable as asked. *)
Theorem MakeConfig_full_mesh reliable names mks starts now :
  NoDup (mjoin names ++ mjoin starts.*1) → length starts = length names →
  Forall (λ ns, length ns = length names) names →
  Forall (λ st : list string * nat, length st.1 = length names) starts →
  ∃ cfg sg, MakeConfig reliable names mks starts now = Ret cfg ∧ Group cfg GRP0 = Some sg ∧
    wf sg ∧ sg_N sg = length names ∧ (∀ i, (i < length names)%nat → up (sg_connected sg) i) ∧
    full_mesh (cf_net cfg) sg starts.*2 ∧ Config_IsReliable cfg = reliable.
Proof.
  intros Hnd Hl Hn Hs. unfold MakeConfig.
  edestruct (MakeGroupStart_spec (mkConfig makeClnts newGroups MakeNetwork [] false 0 0 0 0) GRP0 names mks starts)
    as (net & sg & -> & Hw & _ & HN & Hu & _ & Hm & _); [done..|set_solver|].
  simpl. eexists _, sg. split; [done|]. split_and!; [|done..].
  unfold Group, lookupGroup. simpl. by rewrite lookup_insert_eq.
Qed.

End config.

Definition ex_starts : list (list string * nat) :=
  [(["d0"; "d1"; "d2"], 10%nat); (["e0"; "e1"; "e2"], 11%nat); (["f0"; "f1"; "f2"], 12%nat)].

(** A group that has just been started, and one more list of names. *)
Lemma ex_started :
  ∃ net sg, MakeGroupStart (mkConfig makeClnts newGroups MakeNetwork [] false 0 0 0 0) GRP0 ex_names
      (λ _ i _, [i]) ex_starts = Ret (with_groups (mkConfig makeClnts newGroups MakeNetwork [] false 0 0 0 0)
        net {[GRP0 := sg]}) ∧ wf sg ∧ registered net sg ∧ sg_N sg = 3%nat ∧
    (∀ i, (i < 3)%nat → up (sg_connected sg) i ∧ ready net sg i (10 + i)) ∧
    fresh_ends net sg ["g0"; "g1"; "g2"].
Proof.
  edestruct (MakeGroupStart_spec (mkConfig makeClnts newGroups MakeNetwork [] false 0 0 0 0) GRP0
    ex_names (λ _ i _, [i]) ex_starts) as (net & sg & E & Hw & Hreg & HN & Hu & Hrd & _);
    [apply (bool_decide_unpack _); vm_compute; done|done|apply ex_names_ok|by repeat constructor|set_solver|].
  exists net, sg. do 4 (split; [done|]). split.
  - intros i Hi. split; [by apply Hu|].
    destruct i as [|[|[|i]]]; [..|lia]; (eapply Hrd; reflexivity).
  - split; [by rewrite HN|]. split; [apply (bool_decide_unpack _); vm_compute; done|].
    vm_compute in E. injection E as <- <-. apply Forall_forall, (bool_decide_unpack _). vm_compute. done.
Qed.

Lemma restart_server_witness :
  ∃ net (sg sg1 sg2 sg3 : ServerGrp (Svc := nat)) w1 net2 net3 x, wf sg ∧
    ShutdownServer (mkWorld net []) sg 1 = Ret (w1, sg1) ∧
    StartServer (w_net w1) sg1 1 ["g0"; "g1"; "g2"] 20 = Ret (net2, sg2) ∧
    ConnectOne net2 sg2 1 = Ret (net3, sg3) ∧
    end_name (sg_srvs sg3) 0 1 = Some x ∧ reaches net3 x (ServerName (sg_gid sg) 1) 20.
Proof.
  destruct ex_started as (net & sg & _ & Hw & Hreg & HN & Hrd & Hfr).
  destruct (lookup_lt_is_Some_2 (sg_srvs sg) 1) as [s Hs]; [fold (sg_N sg); rewrite HN; lia|].
  destruct (restart_server (mkWorld net []) sg 1 s ["g0"; "g1"; "g2"] 20 Hw Hreg Hs Hfr)
    as (w1 & sg1 & n2 & sg2 & n3 & sg3 & s' & E1 & E2 & E3 & _ & _ & _ & _ & Hr).
  - rewrite HN. intros a Ha _. destruct (Hrd a Ha). split; [done|]. eauto.
  - destruct (Hr 0%nat) as [(x & Hx & Hxr) _]; [rewrite HN; lia|].
    exists net, sg, sg1, sg2, sg3, w1, n2, n3, x. by split_and!.
Defined.

Lemma ExitGroup_correct_witness :
  ∃ cfg (sg : ServerGrp (Svc := nat)) cfg', Group cfg GRP0 = Some sg ∧ wf sg ∧
    ExitGroup cfg GRP0 = Ret cfg' ∧ Group cfg' GRP0 = None ∧
    rn_servers (cf_net cfg') !! ServerName (sg_gid sg) 2 = Some None.
Proof.
  destruct ex_started as (net & sg & _ & Hw & _ & HN & _).
  set (cfg := mkConfig makeClnts {[GRP0 := sg]} net [] false 0 0 0 0).
  destruct (ExitGroup_correct cfg GRP0 sg) as (cfg' & E & Hg & _ & _ & Hs & _); [done|done|].
  exists cfg, sg, cfg'. split_and!; [done..|]. apply Hs. rewrite HN. lia.
Defined.

(** ** The partitioner ([Partitioner] of [kvtest1/kvtest.go]) *)

Section partitioner.
Context {Svc : Type}.

(** The servers that drew side [b]; [a j] is [rand.Int()] for server [j]. *)
Definition side_of (a : nat → Z) (n : nat) (b : Z) : list nat :=
  filter (λ j, a j `mod` 2 = b) (seq 0 n).

(** One round, without the annotation and the sleep. *)
Definition Partitioner_round (net : Network) (sg : ServerGrp (Svc := Svc)) (a : nat → Z)
    : outcome (Network * ServerGrp (Svc := Svc)) :=
  Partition net sg (side_of a (sg_N sg) 0) (side_of a (sg_N sg) 1).

(** The rounds until the channel delivers; [draws] has the draws of each. *)
Fixpoint Partitioner (draws : list (nat → Z)) (net : Network) (sg : ServerGrp (Svc := Svc))
    : outcome (Network * ServerGrp (Svc := Svc)) :=
  match draws with
  | [] => Ret (net, sg)
  | a :: draws => '(net, sg) ← Partitioner_round net sg a; Partitioner draws net sg
  end.

(** Partitioner_splits: whatever is drawn and whatever was enabled before, after a round every
    server is connected, and the end of one server towards another is enabled exactly if the
    two drew the same side. *)
Theorem Partitioner_splits net sg a :
  wf sg → (∀ j, 0 ≤ a j < 2 ^ 63) →
  ∃ net' sg', Partitioner_round net sg a = Ret (net', sg') ∧ wf sg' ∧
    sg_srvs sg' = sg_srvs sg ∧ same_but_enabled net net' ∧
    (∀ i, (i < sg_N sg)%nat → up (sg_connected sg') i) ∧
    ∀ i j x, end_name (sg_srvs sg) i j = Some x → (i < sg_N sg)%nat → (j < sg_N sg)%nat →
      on net' x ↔ a i `mod` 2 = a j `mod` 2.
Proof.
  intros Hw Ha. set (n := sg_N sg).
  assert (Hside : ∀ j b, j ∈ side_of a n b ↔ a j `mod` 2 = b ∧ (j < n)%nat).
  { intros j b. unfold side_of. rewrite list_elem_of_filter, elem_of_seq. naive_solver lia. }
  assert (Hbit : ∀ j, a j `mod` 2 = 0 ∨ a j `mod` 2 = 1).
  { intros j. pose proof (Z.mod_pos_bound (a j) 2). lia. }
  assert (Hall : ∀ j, (j < n)%nat → j ∈ side_of a n 0 ++ side_of a n 1).
  { intros j Hj. rewrite elem_of_app, !Hside. destruct (Hbit j); auto. }
  destruct (Partition_correct net sg (side_of a n 0) (side_of a n 1) Hw)
    as (net' & c & E & Hs & Hw' & Hc & Hon & _).
  - intros t. rewrite elem_of_app, !Hside. unfold n. naive_solver.
  - intros j H0 H1. rewrite !Hside in *. lia.
  - exists net', (set_connected sg c). split_and!; [exact E|done..| |].
    + intros i Hi. by apply Hc, Hall.
    + intros i j x Hx Hi Hj. rewrite (Hon i j x) by auto. rewrite !Hside.
      destruct (Hbit i) as [->| ->], (Hbit j) as [->| ->]; naive_solver.
Qed.

(** However many rounds are played, the partitioner does not fail, and the servers are as the
    last round split them. *)
Theorem Partitioner_last net sg draws a :
  wf sg → Forall (λ a : nat → Z, ∀ j, 0 ≤ a j < 2 ^ 63) (draws ++ [a]) →
  ∃ net' sg', Partitioner (draws ++ [a]) net sg = Ret (net', sg') ∧ wf sg' ∧
    sg_srvs sg' = sg_srvs sg ∧ (∀ i, (i < sg_N sg)%nat → up (sg_connected sg') i) ∧
    ∀ i j x, end_name (sg_srvs sg) i j = Some x → (i < sg_N sg)%nat → (j < sg_N sg)%nat →
      on net' x ↔ a i `mod` 2 = a j `mod` 2.
Proof.
  revert net sg. induction draws as [|b draws IH]; intros net sg Hw [Hb Hd]%Forall_cons; simpl.
  - destruct (Partitioner_splits net sg a Hw Hb) as (net' & sg' & -> & Hw' & Hs & _ & Hup & Hon).
    exists net', sg'. by split_and!.
  - destruct (Partitioner_splits net sg b Hw Hb) as (net1 & sg1 & -> & Hw1 & Hs1 & _).
    destruct (IH net1 sg1 Hw1 Hd) as (net2 & sg2 & E & Hw2 & Hs2 & Hup & Hon).
    assert (HN : sg_N sg1 = sg_N sg) by (unfold sg_N; congruence). rewrite HN in Hup, Hon.
    exists net2, sg2. cbn [mbind outcome_bind]. rewrite E. rewrite <- Hs1.
    split; [done|]. split; [done|]. split; [congruence|]. by split.
Qed.
End partitioner.

Lemma Partitioner_splits_witness :
  ∃ net' sg', Partitioner_round ex_net ex_sg (λ j, Z.of_nat j `mod` 4) = Ret (net', sg') ∧
    on net' "a2" ∧ ¬ on net' "a1".
Proof.
  destruct (Partitioner_splits ex_net ex_sg (λ j, Z.of_nat j `mod` 4) ex_wf)
    as (net' & sg' & E & _ & _ & _ & _ & Hon).
  - intros j. pose proof (Z.mod_pos_bound (Z.of_nat j) 4). lia.
  - exists net', sg'. split; [exact E|].
    rewrite (Hon 0%nat 2%nat "a2"), (Hon 0%nat 1%nat "a1")
      by (reflexivity || by apply (bool_decide_unpack _)).
    by apply (bool_decide_unpack _).
Defined.

(** ** Random strings *)

Definition b64_alphabet : string :=
  "ABCDEFGHIJKLMNOPQRSTUVWXYZabcdefghijklmnopqrstuvwxyz0123456789-_".

Definition b64_char (v : Z) : Ascii.ascii := default Ascii.zero (String.get (Z.to_nat v) b64_alphabet).

Definition b64_pad : Ascii.ascii := Ascii.ascii_of_nat 61.

(** [base64.URLEncoding.EncodeToString] *)
Fixpoint EncodeToString (b : list Z) : list Ascii.ascii :=
  match b with
  | [] => []
  | [x] => [b64_char (Z.shiftr x 2); b64_char (Z.shiftl (Z.land x 3) 4); b64_pad; b64_pad]
  | [x; y] =>
      [b64_char (Z.shiftr x 2); b64_char (Z.lor (Z.shiftl (Z.land x 3) 4) (Z.shiftr y 4));
       b64_char (Z.shiftl (Z.land y 15) 2); b64_pad]
  | x :: y :: z :: b =>
      b64_char (Z.shiftr x 2) :: b64_char (Z.lor (Z.shiftl (Z.land x 3) 4) (Z.shiftr y 4)) ::
      b64_char (Z.lor (Z.shiftl (Z.land y 15) 2) (Z.shiftr z 6)) :: b64_char (Z.land z 63) ::
      EncodeToString b
  end.

(** [Randstring]; [b] are the [2*n] random bytes. The slice is in range. *)
Definition Randstring (n : nat) (b : list Z) : list Ascii.ascii := take n (EncodeToString b).

Lemma length_EncodeToString b : (length b ≤ length (EncodeToString b))%nat.
Proof.
  revert b. fix IH 1. intros [|x [|y [|z b]]]; simpl; [lia..|]. specialize (IH b). lia.
Qed.

Lemma length_Randstring n b : length b = (2 * n)%nat → length (Randstring n b) = n.
Proof.
  intros Hb. unfold Randstring. rewrite length_take. pose proof (length_EncodeToString b). lia.
Qed.

(** ** Shuffling handles *)

Section handles.
Context {A : Type}.

(** [sa[i], sa[j] = sa[j], sa[i]] *)
Definition swap (sa : list A) (i j : nat) : outcome (list A) :=
  x ← index sa i; y ← index sa j; Ret (<[j := x]> (<[i := y]> sa)).

(** The loop of [random_handles], from [i] on; [draws i] is [rand.Intn(i + 1)]. *)
Fixpoint shuffle (draws : nat → nat) (k i : nat) (sa : list A) : outcome (list A) :=
  match k with
  | O => Ret sa
  | S k => sa ← swap sa i (draws i); shuffle draws k (S i) sa
  end.

Definition random_handles (draws : nat → nat) (kvh : list A) : outcome (list A) :=
  shuffle draws (length kvh) 0 kvh.

(** A swap, as a list. *)
Lemma swap_spec sa i j x y :
  sa !! i = Some x → sa !! j = Some y → swap sa i j = Ret (<[j := x]> (<[i := y]> sa)).
Proof. intros Hx Hy. unfold swap. by rewrite (index_Some _ _ _ Hx), (index_Some _ _ _ Hy). Qed.

Lemma swap_ok sa i j :
  (i < length sa)%nat → (j < length sa)%nat →
  ∃ sa', swap sa i j = Ret sa' ∧ sa' ≡ₚ sa ∧ length sa' = length sa ∧
    (∀ l, swap (sa ++ l) i j = Ret (sa' ++ l)) ∧ swap sa' i j = Ret sa.
Proof.
  intros Hi Hj. destruct (lookup_lt_is_Some_2 _ _ Hi) as [x Hx].
  destruct (lookup_lt_is_Some_2 _ _ Hj) as [y Hy]. exists (<[j := x]> (<[i := y]> sa)).
  split_and!.
  - by apply swap_spec.
  - by apply Permutation_insert_swap.
  - by rewrite !length_insert.
  - intros l. rewrite (swap_spec _ _ _ x y) by (rewrite lookup_app_l by done; done).
    by rewrite !insert_app_l by (rewrite ?length_insert; done).
  - destruct (decide (i = j)) as [->|Hne].
    + assert (x = y) as <- by congruence. rewrite !(list_insert_id sa j) by done.
      rewrite (swap_spec _ _ _ x x) by done. by rewrite !(list_insert_id sa j).
    + rewrite (swap_spec _ _ _ y x).
      * rewrite (list_insert_insert_ne _ j i), list_insert_insert_eq by done.
        rewrite (list_insert_insert_ne _ j i), list_insert_insert_eq by done.
        by rewrite (list_insert_id sa j), (list_insert_id sa i).
      * by rewrite list_lookup_insert_ne, list_lookup_insert_eq.
      * by rewrite list_lookup_insert_eq by (by rewrite length_insert).
Qed.

Lemma shuffle_ok draws k i sa :
  (i + k ≤ length sa)%nat → (∀ m, (i ≤ m < i + k)%nat → (draws m < length sa)%nat) →
  ∃ sa', shuffle draws k i sa = Ret sa' ∧ sa' ≡ₚ sa.
Proof.
  revert i sa. induction k as [|k IH]; intros i sa Hl Hd; simpl; [by exists sa|].
  destruct (swap_ok sa i (draws i)) as (s1 & -> & Hp & Hlen & _); [lia|apply Hd; lia|]. simpl.
  destruct (IH (S i) s1) as (s2 & -> & Hp2); [lia|intros; rewrite Hlen; apply Hd; lia|].
  exists s2. split; [done|]. by rewrite Hp2.
Qed.

(** A shuffle of a longer list leaves what it has not reached. *)
Lemma shuffle_app draws k i sa sa' l :
  (i + k ≤ length sa)%nat → (∀ m, (i ≤ m < i + k)%nat → (draws m < length sa)%nat) →
  shuffle draws k i sa = Ret sa' → shuffle draws k i (sa ++ l) = Ret (sa' ++ l).
Proof.
  revert i sa. induction k as [|k IH]; intros i sa Hl Hd E; simpl in *; [by simplify_eq|].
  destruct (swap_ok sa i (draws i)) as (s1 & E1 & Hp & Hlen & Happ & _); [lia|apply Hd; lia|].
  rewrite E1 in E. rewrite Happ. simpl in *.
  apply IH; [lia|intros; rewrite Hlen; apply Hd; lia|done].
Qed.

Lemma shuffle_snoc draws k i sa :
  shuffle draws (S k) i sa = (sa ← shuffle draws k i sa; swap sa (i + k) (draws (i + k)%nat)).
Proof.
  revert i sa. induction k as [|k IH]; intros i sa.
  - simpl. rewrite Nat.add_0_r. by destruct (swap sa i (draws i)).
  - cbn [shuffle] in *. destruct (swap sa i (draws i)); simpl; [|done..].
    rewrite IH. by rewrite Nat.add_succ_r.
Qed.

Lemma shuffle_ext draws draws' k i sa :
  (∀ m, (i ≤ m < i + k)%nat → draws m = draws' m) → shuffle draws k i sa = shuffle draws' k i sa.
Proof.
  revert i sa. induction k as [|k IH]; intros i sa Hd; simpl; [done|]. rewrite Hd by lia.
  destruct (swap sa i (draws' i)); simpl; [|done..]. apply IH. intros. apply Hd. lia.
Qed.

(** [random_handles] permutes the handles, whatever is drawn; and every order can be drawn. *)
Theorem random_handles_permutes (kvh : list A) :
  (∀ draws, (∀ i, (draws i ≤ i)%nat) → ∃ sa, random_handles draws kvh = Ret sa ∧ sa ≡ₚ kvh) ∧
  ∀ sa, sa ≡ₚ kvh → ∃ draws, (∀ i, (draws i ≤ i)%nat) ∧ random_handles draws kvh = Ret sa.
Proof.
  unfold random_handles. split.
  { intros draws Hd. apply shuffle_ok; [lia|]. intros m Hm. specialize (Hd m). lia. }
  induction kvh as [|x kvh IH] using rev_ind; intros sa Hp.
  { exists (λ _, 0%nat). apply Permutation_nil_r in Hp as ->. split; [lia|done]. }
  assert (Hx : x ∈ sa) by (rewrite Hp; set_solver).
  apply list_elem_of_lookup in Hx as [j Hj]. pose proof (Permutation_length Hp) as Hlen.
  rewrite length_app in Hlen. simpl in Hlen. set (n := length kvh) in *.
  pose proof (lookup_lt_Some _ _ _ Hj) as Hjl.
  destruct (swap_ok sa n j) as (t & Et & Hpt & Hlt & _ & Eback); [lia..|].
  assert (Ht : ∃ t', t = t' ++ [x]).
  { destruct t as [|z t' _] using rev_ind; [simpl in Hlt; lia|]. exists t'. f_equal. f_equal.
    rewrite length_app in Hlt. simpl in Hlt. destruct (lookup_lt_is_Some_2 sa n) as [y Hy]; [lia|].
    rewrite (swap_spec _ _ _ y x Hy Hj) in Et. injection Et as Et.
    assert (Hn : (<[j:=y]> (<[n:=x]> sa)) !! n = Some x).
    { destruct (decide (j = n)) as [->|].
      - rewrite list_lookup_insert_eq by (rewrite length_insert; lia). congruence.
      - rewrite list_lookup_insert_ne by done. by rewrite list_lookup_insert_eq by lia. }
    rewrite Et, lookup_app_r in Hn by lia. replace (n - length t')%nat with 0%nat in Hn by lia.
    by injection Hn. }
  destruct Ht as [t' ->]. rewrite Hp in Hpt. apply Permutation_app_inv_r in Hpt.
  destruct (IH t' Hpt) as (draws & Hd & E).
  exists (λ i, if decide (i = n) then j else draws i). split; [intros i; case_decide; [lia|apply Hd]|].
  rewrite length_app. simpl. rewrite Nat.add_1_r, shuffle_snoc. fold n.
  rewrite (shuffle_ext _ draws) by (intros m Hm; by rewrite decide_False by lia).
  rewrite (shuffle_app _ _ _ _ t') by (first [done|lia|intros m Hm; specialize (Hd m); lia]).
  simpl. by rewrite decide_True.
Qed.
End handles.

Lemma MakeConfig_full_mesh_witness :
  ∃ cfg sg x, MakeConfig true ex_names (λ _ i _, [i]) ex_starts 0 = Ret cfg ∧
    Group cfg GRP0 = Some sg ∧ end_name (sg_srvs sg) 1 2 = Some x ∧
    reaches (cf_net cfg) x "server-0-2" 12.
Proof.
  destruct (MakeConfig_full_mesh true ex_names (λ _ i _, [i]) ex_starts 0)
    as (cfg & sg & E & Hg & _ & HN & _ & Hm & _);
    [apply (bool_decide_unpack _); vm_compute; done|done|apply ex_names_ok|by repeat constructor|].
  destruct (Hm 1%nat 2%nat) as (x & p & Hx & Hp & Hr); [rewrite HN; simpl; lia..|].
  exists cfg, sg, x. split_and!; [exact E|done|done|]. injection Hp as <-.
  replace (sg_gid sg) with 0 in Hr; [exact Hr|].
  vm_compute in E. injection E as <-. vm_compute in Hg. by injection Hg as <-.
Defined.
