(* ===== verification/Annotation.v ===== *)
(** * Annotations of test histories ([tester1/annotation.go])

    A test collects point, interval and continuous annotations; the framework keeps which
    servers are connected and crashed and annotates the faults. The global variables
    [annotation] and [finfo] are the record [Globals]; timestamps are arguments. The mutexes
    make each function atomic. Writing the visualization is left out. *)

From stdpp Require Import pretty.
From S2P Require Export Prelude.

Local Open Scope Z_scope.

(** The fields of [porcupine.Annotation] that are set; [End] is 0 for a point. *)
Record PAnnotation := mkPAnnotation {
  pa_Tag : string;
  pa_Start : Z;
  pa_End : Z;
  pa_Description : string;
  pa_Details : string;
  pa_BackgroundColor : string
}.

Record Continuous := mkContinuous {
  ct_start : Z;
  ct_desp : string;
  ct_details : string;
  ct_bgcolor : string
}.

Definition zero_Continuous : Continuous := mkContinuous 0 "" "" "".

Record Annotation := mkAnnotation {
  an_annotations : list PAnnotation;
  an_continuous : gmap string Continuous;
  an_finalized : bool
}.

Record CheckerBegin := mkCheckerBegin { cb_ts : Z; cb_details : string }.

Record FrameworkInfo := mkFrameworkInfo_ {
  fi_nservers : nat;
  fi_connected : list bool;
  fi_crashed : list bool;
  fi_ckbegin : CheckerBegin
}.

(** [g_finfo] is [None] for the nil pointer it is before the first test. *)
Record Globals := mkGlobals { g_annotation : Annotation; g_finfo : option FrameworkInfo }.

Definition COLOR_INFO : string := "#FAFAFA".
Definition COLOR_NEUTRAL : string := "#FFECB3".
Definition COLOR_SUCCESS : string := "#C8E6C9".
Definition COLOR_FAILURE : string := "#FFCDD2".
Definition COLOR_FAULT : string := "#B3E5FC".
Definition COLOR_USER : string := "#FFF176".

Definition TAG_CHECKER : string := "$ Checker".
Definition TAG_PARTITION : string := "$ Failure".
Definition TAG_INFO : string := "$ Test Info".

(** ** The collection *)

Definition mkAnnotation0 : Annotation := mkAnnotation [] ∅ false.

Definition add_annotation (an : Annotation) (a : PAnnotation) : Annotation :=
  mkAnnotation (an_annotations an ++ [a]) (an_continuous an) (an_finalized an).

Definition annotatePointColor (an : Annotation) (t : Z) (tag desp details bgcolor : string)
    : Annotation :=
  add_annotation an (mkPAnnotation tag t 0 desp details bgcolor).

Definition annotateIntervalColor (an : Annotation) (t : Z) (tag : string) (start : Z)
    (desp details bgcolor : string) : Annotation :=
  add_annotation an (mkPAnnotation tag start t desp details bgcolor).

(** A continuous annotation made concrete: it ends at [t]. *)
Definition concretize (tag : string) (cont : Continuous) (t : Z) : PAnnotation :=
  mkPAnnotation tag (ct_start cont) t (ct_desp cont) (ct_details cont) (ct_bgcolor cont).

Definition annotateContinuousColor (an : Annotation) (t : Z) (tag desp details bgcolor : string)
    : Annotation :=
  match an_continuous an !! tag with
  | None =>
      mkAnnotation (an_annotations an)
        (<[tag := mkContinuous t desp details bgcolor]> (an_continuous an)) (an_finalized an)
  | Some cont =>
      let aprev := concretize tag cont t in
      mkAnnotation (an_annotations an ++ [aprev])
        (<[tag := mkContinuous t desp details bgcolor]> (an_continuous an)) (an_finalized an)
  end.

(** The test for an ongoing annotation has an empty body, so the zero value is used. *)
Definition annotateContinuousEnd (an : Annotation) (t : Z) (tag : string) : Annotation :=
  let cont := map_get zero_Continuous (an_continuous an) tag in
  let aprev := concretize tag cont t in
  mkAnnotation (an_annotations an ++ [aprev]) (delete tag (an_continuous an)) (an_finalized an).

(** [order] is the order in which the map is visited. *)
Definition finalize (an : Annotation) (t : Z) (order : list (string * Continuous))
    : Annotation * list PAnnotation :=
  (mkAnnotation (an_annotations an) (an_continuous an) true,
   an_annotations an ++ ((λ p, concretize p.1 p.2 t) <$> order)).

Definition an_clear (an : Annotation) : Annotation := mkAnnotation [] ∅ false.

Definition isFinalized (g : Globals) : bool := an_finalized (g_annotation g).

(** [cleanup]: the annotations to be drawn, if any; [enabled] is [VIS_ENABLE],
    [t] and [t'] the two readings of the clock. *)
Definition an_cleanup (g : Globals) (t t' : Z) (order : list (string * Continuous)) (enabled : string)
    (failed : bool) (end_ : string) : Globals * option (list PAnnotation) :=
  let an := g_annotation g in
  if bool_decide (enabled = "never") || (negb failed && bool_decide (enabled ≠ "always")) ||
     isFinalized g
  then (mkGlobals (an_clear an) (g_finfo g), None)
  else
    let '(an, annotations) := finalize an t order in
    let g := mkGlobals an (g_finfo g) in
    match annotations with
    | [] => (g, None)
    | _ => (g, Some (annotations ++ [mkPAnnotation TAG_INFO t' 0 end_ end_ COLOR_INFO]))
    end.

(** ** The public interface *)

Definition with_annotation (g : Globals) (an : Annotation) : Globals := mkGlobals an (g_finfo g).

Definition with_finfo (g : Globals) (fi : FrameworkInfo) : Globals :=
  mkGlobals (g_annotation g) (Some fi).

(** [finfo.mu.Lock()]. *)
Definition get_finfo (g : Globals) : outcome FrameworkInfo :=
  match g_finfo g with Some fi => Ret fi | None => Panic "nil pointer dereference" end.

(** [t] and [t'] are the two readings of the clock. *)
Definition FinalizeAnnotations (g : Globals) (t t' : Z) (order : list (string * Continuous))
    (end_ : string) : Globals * list PAnnotation :=
  let '(an, annotations) := finalize (g_annotation g) t order in
  (with_annotation g an, annotations ++ [mkPAnnotation TAG_INFO t' 0 end_ end_ COLOR_INFO]).

Definition AnnotatePointColor (g : Globals) (t : Z) (tag desp details bgcolor : string) : Globals :=
  with_annotation g (annotatePointColor (g_annotation g) t tag desp details bgcolor).

Definition AnnotateIntervalColor (g : Globals) (t : Z) (tag : string) (start : Z)
    (desp details bgcolor : string) : Globals :=
  with_annotation g (annotateIntervalColor (g_annotation g) t tag start desp details bgcolor).

Definition AnnotateContinuousColor (g : Globals) (t : Z) (tag desp details bgcolor : string)
    : Globals :=
  with_annotation g (annotateContinuousColor (g_annotation g) t tag desp details bgcolor).

Definition AnnotateContinuousEnd (g : Globals) (t : Z) (tag : string) : Globals :=
  with_annotation g (annotateContinuousEnd (g_annotation g) t tag).

Definition Annotate (g : Globals) (t : Z) (tag desp details : string) : Globals :=
  with_annotation g (annotatePointColor (g_annotation g) t tag desp details COLOR_USER).

Definition AnnotateInterval (g : Globals) (t : Z) (tag : string) (start : Z)
    (desp details : string) : Globals :=
  with_annotation g (annotateIntervalColor (g_annotation g) t tag start desp details COLOR_USER).

Definition AnnotateContinuous (g : Globals) (t : Z) (tag desp details : string) : Globals :=
  with_annotation g (annotateContinuousColor (g_annotation g) t tag desp details COLOR_USER).

Definition AnnotateInfo (g : Globals) (t : Z) (desp details : string) : Globals :=
  AnnotatePointColor g t TAG_INFO desp details COLOR_INFO.

Definition AnnotateInfoInterval (g : Globals) (t start : Z) (desp details : string) : Globals :=
  AnnotateIntervalColor g t TAG_INFO start desp details COLOR_INFO.

Definition mkFrameworkInfo (nservers : nat) : FrameworkInfo :=
  mkFrameworkInfo_ nservers (replicate nservers true) (replicate nservers false)
    (mkCheckerBegin 0 "").

Definition AnnotateTest (g : Globals) (t : Z) (desp : string) (nservers : nat) : Globals :=
  let details := desp +:+ " (" +:+ pretty (Z.of_nat nservers) +:+ " servers)" in
  let g := with_finfo g (mkFrameworkInfo nservers) in
  let g := with_annotation g (an_clear (g_annotation g)) in
  AnnotateInfo g t details details.

Definition AnnotateCheckerBegin (g : Globals) (t : Z) (details : string) : outcome Globals :=
  fi ← get_finfo g;
  Ret (with_finfo g (mkFrameworkInfo_ (fi_nservers fi) (fi_connected fi) (fi_crashed fi)
                       (mkCheckerBegin t details))).

(** The last line resets a local copy of [finfo.ckbegin] only. *)
Definition AnnotateCheckerEnd (g : Globals) (t : Z) (desp details color : string)
    : outcome Globals :=
  fi ← get_finfo g;
  let ckbegin := fi_ckbegin fi in
  if bool_decide (cb_ts ckbegin = 0) then
    Ret (AnnotatePointColor g t TAG_CHECKER desp details color)
  else
    let d := cb_details ckbegin +:+ ": " +:+ details in
    Ret (AnnotateIntervalColor g t TAG_CHECKER (cb_ts ckbegin) desp d color).

Definition AnnotateCheckerSuccess (g : Globals) (t : Z) (desp details : string) : outcome Globals :=
  AnnotateCheckerEnd g t desp details COLOR_SUCCESS.

Definition AnnotateCheckerFailure (g : Globals) (t : Z) (desp details : string) : outcome Globals :=
  AnnotateCheckerEnd g t desp details COLOR_FAILURE.

Definition AnnotateCheckerNeutral (g : Globals) (t : Z) (desp details : string) : outcome Globals :=
  AnnotateCheckerEnd g t desp details COLOR_NEUTRAL.

Definition SetAnnotationFinalized (g : Globals) : Globals :=
  let an := g_annotation g in
  with_annotation g (mkAnnotation (an_annotations an) (an_continuous an) true).

Definition GetAnnotationFinalized (g : Globals) : bool := isFinalized g.

(** ** Faults *)

(** [%v] of a slice of ints, and of one int. *)
Fixpoint join_ints (l : list nat) : string :=
  match l with
  | [] => ""
  | [i] => pretty (Z.of_nat i)
  | i :: l => pretty (Z.of_nat i) +:+ " " +:+ join_ints l
  end.

Definition fmt_ints (l : list nat) : string := "[" +:+ join_ints l +:+ "]".

(** The loop of [annotateFault] from server [id] on: the text, [conn] and [crashes]. *)
Fixpoint fault_loop (id : nat) (connected crashed : list bool) (text : string)
    (conn crashes : list nat) : outcome (string * list nat * list nat) :=
  match connected with
  | [] => Ret (text, conn, crashes)
  | b :: connected =>
      match crashed with
      | [] => Panic "index out of range"
      | true :: crashed => fault_loop (S id) connected crashed text conn (crashes ++ [id])
      | false :: crashed =>
          if b : bool then fault_loop (S id) connected crashed text (conn ++ [id]) crashes
          else fault_loop (S id) connected crashed
                 (text +:+ "[" +:+ pretty (Z.of_nat id) +:+ "] ") conn crashes
      end
  end.

Definition annotateFault (g : Globals) (t : Z) : outcome Globals :=
  fi ← get_finfo g;
  let trues := replicate (fi_nservers fi) true in
  let falses := replicate (fi_nservers fi) false in
  if bool_decide (trues = fi_connected fi) && bool_decide (falses = fi_crashed fi)
  then Ret (AnnotateContinuousEnd g t TAG_PARTITION)
  else
    '(text, conn, crashes) ← fault_loop 0 (fi_connected fi) (fi_crashed fi) "partition = " [] [];
    let text := if bool_decide (0 < length conn)%nat then text +:+ fmt_ints conn else text in
    let text := if bool_decide (0 < length crashes)%nat
                then text +:+ " / crash = " +:+ fmt_ints crashes else text in
    Ret (AnnotateContinuousColor g t TAG_PARTITION text text COLOR_FAULT).

(** [copy(dst, src)] *)
Definition copy_into {A} (dst src : list A) : list A :=
  take (length dst) src ++ drop (length src) dst.

Definition AnnotateConnection (g : Globals) (t : Z) (connection : list bool) : outcome Globals :=
  fi ← get_finfo g;
  if bool_decide (fi_connected fi = connection) then Ret g
  else
    let g := with_finfo g (mkFrameworkInfo_ (fi_nservers fi)
               (copy_into (fi_connected fi) connection) (fi_crashed fi) (fi_ckbegin fi)) in
    annotateFault g t.

Definition AnnotateTwoPartitions (g : Globals) (t : Z) (p1 p2 : list nat) : Globals :=
  let text := "partition = " +:+ fmt_ints p1 +:+ " " +:+ fmt_ints p2 in
  AnnotateContinuousColor g t TAG_PARTITION text text COLOR_FAULT.

Definition AnnotateClearFailure (g : Globals) (t : Z) : outcome Globals :=
  fi ← get_finfo g;
  let g := with_finfo g (mkFrameworkInfo_ (fi_nservers fi)
             ((λ _, true) <$> fi_connected fi) ((λ _, false) <$> fi_crashed fi) (fi_ckbegin fi)) in
  Ret (AnnotateContinuousEnd g t TAG_PARTITION).

(** The loop of [AnnotateShutdown] and [AnnotateRestart]: set [crashed[id] = b]. *)
Fixpoint set_crashed (b : bool) (servers : list nat) (changed : bool) (crashed : list bool)
    : outcome (bool * list bool) :=
  match servers with
  | [] => Ret (changed, crashed)
  | id :: servers =>
      match crashed !! id with
      | None => Panic "index out of range"
      | Some c => set_crashed b servers (changed || bool_decide (c ≠ b)) (<[id := b]> crashed)
      end
  end.

Definition annotate_crash (b : bool) (g : Globals) (t : Z) (servers : list nat) : outcome Globals :=
  fi ← get_finfo g;
  '(changed, crashed) ← set_crashed b servers false (fi_crashed fi);
  let g := with_finfo g (mkFrameworkInfo_ (fi_nservers fi) (fi_connected fi) crashed
             (fi_ckbegin fi)) in
  if negb changed then Ret g else annotateFault g t.

Definition AnnotateShutdown (g : Globals) (t : Z) (servers : list nat) : outcome Globals :=
  annotate_crash true g t servers.

Definition AnnotateRestart (g : Globals) (t : Z) (servers : list nat) : outcome Globals :=
  annotate_crash false g t servers.

Definition AnnotateShutdownAll (g : Globals) (t : Z) : outcome Globals :=
  fi ← get_finfo g; AnnotateShutdown g t (seq 0 (fi_nservers fi)).

Definition AnnotateRestartAll (g : Globals) (t : Z) : outcome Globals :=
  fi ← get_finfo g; AnnotateRestart g t (seq 0 (fi_nservers fi)).

(** ** Sessions *)

Inductive AnCmd :=
  | CPoint (tag desp details color : string)
  | CInterval (tag : string) (start : Z) (desp details color : string)
  | CContinuous (tag desp details color : string)
  | CContinuousEnd (tag : string)
  | CCheckerBegin (details : string)
  | CCheckerEnd (desp details color : string)
  | CConnection (connection : list bool)
  | CTwoPartitions (p1 p2 : list nat)
  | CShutdown (servers : list nat)
  | CRestart (servers : list nat)
  | CShutdownAll
  | CRestartAll
  | CClearFailure.

Definition an_cmd (g : Globals) (t : Z) (cmd : AnCmd) : outcome Globals :=
  match cmd with
  | CPoint tag desp details color => Ret (AnnotatePointColor g t tag desp details color)
  | CInterval tag start desp details color =>
      Ret (AnnotateIntervalColor g t tag start desp details color)
  | CContinuous tag desp details color => Ret (AnnotateContinuousColor g t tag desp details color)
  | CContinuousEnd tag => Ret (AnnotateContinuousEnd g t tag)
  | CCheckerBegin details => AnnotateCheckerBegin g t details
  | CCheckerEnd desp details color => AnnotateCheckerEnd g t desp details color
  | CConnection c => AnnotateConnection g t c
  | CTwoPartitions p1 p2 => Ret (AnnotateTwoPartitions g t p1 p2)
  | CShutdown servers => AnnotateShutdown g t servers
  | CRestart servers => AnnotateRestart g t servers
  | CShutdownAll => AnnotateShutdownAll g t
  | CRestartAll => AnnotateRestartAll g t
  | CClearFailure => AnnotateClearFailure g t
  end.

(** The ongoing fault annotation. *)
Definition ongoing (g : Globals) : option Continuous :=
  an_continuous (g_annotation g) !! TAG_PARTITION.

(** What the tests do: users have tags of their own, servers are in range, and
    [AnnotateClearFailure] is called while a fault is annotated. *)
Definition allowed (n : nat) (g : Globals) (cmd : AnCmd) : Prop :=
  match cmd with
  | CPoint tag _ _ _ | CInterval tag _ _ _ _ | CContinuous tag _ _ _ | CContinuousEnd tag =>
      tag ≠ TAG_PARTITION
  | CConnection c => length c = n
  | CShutdown servers | CRestart servers => ∀ id, id ∈ servers → (id < n)%nat
  | CClearFailure => is_Some (ongoing g)
  | _ => True
  end.

(** A test of [n] servers, up to time [now]. *)
Inductive an_run (n : nat) : Z → Globals → Prop :=
  | an_start g t desp : 0 ≤ t → an_run n t (AnnotateTest g t desp n)
  | an_next now g t cmd g' :
      an_run n now g → now ≤ t → allowed n g cmd → an_cmd g t cmd = Ret g' → an_run n t g'.

(** The intervals of the fault annotations. *)
Definition intervals (l : list PAnnotation) : list (Z * Z) :=
  (λ a, (pa_Start a, pa_End a)) <$> filter (λ a, pa_Tag a = TAG_PARTITION) l.

(** Intervals in order, without overlap, between [lo] and [hi]. *)
Fixpoint tiled (lo : Z) (l : list (Z * Z)) (hi : Z) : Prop :=
  match l with
  | [] => lo ≤ hi
  | (s, e) :: l => lo ≤ s ≤ e ∧ tiled e l hi
  end.

Lemma tiled_mono lo l hi hi' : tiled lo l hi → hi ≤ hi' → tiled lo l hi'.
Proof.
  revert lo. induction l as [|[s e] l IH]; simpl; intros lo Ht Hle; [lia|].
  destruct Ht. split; [done|]. by apply IH.
Qed.

Lemma tiled_snoc lo l s e : tiled lo l s → s ≤ e → tiled lo (l ++ [(s, e)]) e.
Proof.
  revert lo. induction l as [|[s' e'] l IH]; simpl; intros lo Ht Hle; [lia|].
  destruct Ht. split; [done|]. by apply IH.
Qed.

Lemma intervals_app l1 l2 : intervals (l1 ++ l2) = intervals l1 ++ intervals l2.
Proof. unfold intervals. by rewrite filter_app, fmap_app. Qed.

Lemma intervals_other l a : pa_Tag a ≠ TAG_PARTITION → intervals (l ++ [a]) = intervals l.
Proof.
  intros Ha. rewrite intervals_app. unfold intervals at 2. rewrite filter_cons_False by done.
  apply app_nil_r.
Qed.

Lemma intervals_fault l cont t :
  intervals (l ++ [concretize TAG_PARTITION cont t]) = intervals l ++ [(ct_start cont, t)].
Proof. by rewrite intervals_app. Qed.

Abbreviation ivs g := (intervals (an_annotations (g_annotation g))).

(** The fault annotations so far, at time [now]. *)
Definition faults_ok (now : Z) (g : Globals) : Prop :=
  match ongoing g with
  | Some c => tiled 0 (ivs g) (ct_start c) ∧ ct_start c ≤ now
  | None => tiled 0 (ivs g) now
  end.

Lemma faults_ok_mono now t g : faults_ok now g → now ≤ t → faults_ok t g.
Proof.
  unfold faults_ok. destruct (ongoing g); [intros [? ?] ?; split; [done|lia]|].
  apply tiled_mono.
Qed.

Lemma faults_ok_same now g g' :
  faults_ok now g → ongoing g' = ongoing g → ivs g' = ivs g → faults_ok now g'.
Proof. unfold faults_ok. by intros ? -> ->. Qed.

Definition fault_free (fi : FrameworkInfo) : Prop :=
  fi_connected fi = replicate (fi_nservers fi) true ∧
  fi_crashed fi = replicate (fi_nservers fi) false.

Record sized (n : nat) (fi : FrameworkInfo) : Prop := {
  sz_n : fi_nservers fi = n;
  sz_connected : length (fi_connected fi) = n;
  sz_crashed : length (fi_crashed fi) = n
}.

(** A fault is annotated whenever there is one. *)
Definition an_inv (n : nat) (now : Z) (g : Globals) : Prop :=
  faults_ok now g ∧
  ∃ fi, g_finfo g = Some fi ∧ sized n fi ∧ (¬ fault_free fi → is_Some (ongoing g)).

Lemma an_inv_same n now t g g' :
  an_inv n now g → now ≤ t → ongoing g' = ongoing g → ivs g' = ivs g → g_finfo g' = g_finfo g →
  an_inv n t g'.
Proof.
  intros [Hf (fi & Hfi & Hs & Ho)] Hle Eo Ei Efi. split.
  - by eapply faults_ok_same; [eapply faults_ok_mono|..].
  - exists fi. rewrite Efi, Eo. auto.
Qed.

(** Starting the next fault annotation. *)
Lemma fault_start now t g text :
  faults_ok now g → now ≤ t →
  let g' := AnnotateContinuousColor g t TAG_PARTITION text text COLOR_FAULT in
  faults_ok t g' ∧ is_Some (ongoing g') ∧ g_finfo g' = g_finfo g.
Proof.
  intros Hf Hle. unfold AnnotateContinuousColor, annotateContinuousColor.
  change (an_continuous (g_annotation g) !! TAG_PARTITION) with (ongoing g).
  unfold faults_ok in *. destruct (ongoing g) as [c|] eqn:E; unfold ongoing;
    cbn [with_annotation g_annotation an_continuous an_annotations g_finfo];
    rewrite lookup_insert_eq; cbn [ct_start]; (split; [|done]).
  - rewrite intervals_fault. split; [|lia]. destruct Hf. apply tiled_snoc; [done|lia].
  - split; [|lia]. by eapply tiled_mono.
Qed.

(** Ending the ongoing fault annotation. *)
Lemma fault_end now t g :
  faults_ok now g → now ≤ t → is_Some (ongoing g) →
  let g' := AnnotateContinuousEnd g t TAG_PARTITION in
  faults_ok t g' ∧ g_finfo g' = g_finfo g.
Proof.
  intros Hf Hle [c Hc]. unfold AnnotateContinuousEnd, annotateContinuousEnd, map_get.
  unfold faults_ok in *. rewrite Hc in Hf. unfold ongoing in *.
  cbn [with_annotation g_annotation an_continuous an_annotations g_finfo]. rewrite Hc. simpl.
  rewrite lookup_delete_eq, intervals_fault. split; [|done]. destruct Hf.
  apply tiled_snoc; [done|lia].
Qed.

Lemma fault_loop_total id connected crashed text conn crashes :
  length connected = length crashed →
  ∃ r, fault_loop id connected crashed text conn crashes = Ret r.
Proof.
  revert id crashed text conn crashes.
  induction connected as [|b connected IH]; intros id [|c crashed] text conn crashes Hl;
    try done; simpl; [eauto|]. destruct c, b; apply IH; simpl in Hl; lia.
Qed.

Lemma annotateFault_inv n now t g fi :
  faults_ok now g → now ≤ t → g_finfo g = Some fi → sized n fi →
  (fault_free fi → is_Some (ongoing g)) →
  ∃ g', annotateFault g t = Ret g' ∧ an_inv n t g'.
Proof.
  intros Hf Hle Hfi Hs Ho. unfold annotateFault, get_finfo. rewrite Hfi. simpl.
  destruct (bool_decide _ && bool_decide _) eqn:Eff.
  - apply andb_true_iff in Eff as [E1%bool_decide_eq_true E2%bool_decide_eq_true].
    assert (fault_free fi) as Hff by done.
    destruct (fault_end now t g Hf Hle (Ho Hff)) as [Hf' Hfi'].
    eexists. split; [done|]. split; [done|]. exists fi. rewrite Hfi'. naive_solver.
  - destruct Hs as [H1 H2 H3].
    destruct (fault_loop_total 0 (fi_connected fi) (fi_crashed fi) "partition = " [] [])
      as [[[text conn] crashes] ->]; [lia|]. simpl.
    edestruct (fault_start now t g) as (Hf' & Ho' & Hfi'); [done..|].
    eexists. split; [reflexivity|]. split; [exact Hf'|]. exists fi. by rewrite Hfi'.
Qed.

Lemma length_copy_into {A} (dst src : list A) : length (copy_into dst src) = length dst.
Proof. unfold copy_into. rewrite length_app, length_take, length_drop. lia. Qed.

Lemma copy_into_eq {A} (dst src : list A) : length src = length dst → copy_into dst src = src.
Proof.
  intros Hl. unfold copy_into. rewrite take_ge by lia. rewrite drop_ge by lia. apply app_nil_r.
Qed.

Lemma AnnotateConnection_inv n now t g c :
  an_inv n now g → now ≤ t → length c = n →
  ∃ g', AnnotateConnection g t c = Ret g' ∧ an_inv n t g'.
Proof.
  intros Hi Hle Hc. pose proof Hi as [Hf (fi & Hfi & [H1 H2 H3] & Ho)].
  unfold AnnotateConnection, get_finfo. rewrite Hfi. simpl. case_bool_decide as Hsame.
  { exists g. split; [done|]. by eapply an_inv_same. }
  rewrite copy_into_eq by lia. eapply annotateFault_inv; [exact Hf|done|done|by split|].
  intros [Hff _]. simpl in Hff. change (is_Some (ongoing g)). apply Ho. intros [Hff' _].
  congruence.
Qed.

Lemma set_crashed_spec b servers changed crashed :
  (∀ id, id ∈ servers → (id < length crashed)%nat) →
  ∃ changed' crashed', set_crashed b servers changed crashed = Ret (changed', crashed') ∧
    length crashed' = length crashed ∧
    (changed' = false → changed = false ∧ crashed' = crashed) ∧
    (changed' = true → changed = false →
       ∃ id, crashed !! id = Some (negb b) ∧ crashed' !! id = Some b) ∧
    (∀ id, crashed !! id = Some b → crashed' !! id = Some b).
Proof.
  revert changed crashed. induction servers as [|id servers IH]; intros changed crashed Hin; simpl.
  { exists changed, crashed. split_and!; [done..| |done]. intros -> ?. done. }
  destruct (lookup_lt_is_Some_2 crashed id) as [c Hc]; [apply Hin; left|]. rewrite Hc.
  destruct (IH (changed || bool_decide (c ≠ b)) (<[id := b]> crashed))
    as (ch' & cr' & -> & Hl & Hsame & Hch & Hkeep).
  { intros i Hi. rewrite length_insert. apply Hin. by right. }
  rewrite length_insert in Hl. assert (Hlt : (id < length crashed)%nat) by (apply Hin; left).
  assert (Hid : cr' !! id = Some b) by (apply Hkeep; by apply list_lookup_insert_eq).
  exists ch', cr'. split_and!; [done|done| | |].
  - intros H. destruct (Hsame H) as [[-> Hcb%bool_decide_eq_false]%orb_false_iff ->].
    split; [done|]. apply dec_stable in Hcb as ->. by apply list_insert_id.
  - intros H ->. destruct (decide (c = b)) as [->|Hne].
    + rewrite (list_insert_id crashed id b Hc) in Hch.
      apply Hch; [done|]. simpl. by apply bool_decide_eq_false; intros [].
    + assert (Hcn : c = negb b) by (destruct b, c; done).
      exists id. by rewrite <- Hcn.
  - intros i Hi. apply Hkeep. destruct (decide (i = id)) as [->|].
    + by apply list_lookup_insert_eq.
    + by rewrite list_lookup_insert_ne.
Qed.

Lemma annotate_crash_inv b n now t g servers :
  an_inv n now g → now ≤ t → (∀ id, id ∈ servers → (id < n)%nat) →
  ∃ g', annotate_crash b g t servers = Ret g' ∧ an_inv n t g'.
Proof.
  intros Hi Hle Hin. pose proof Hi as [Hf (fi & Hfi & [H1 H2 H3] & Ho)].
  unfold annotate_crash, get_finfo. rewrite Hfi. simpl.
  destruct (set_crashed_spec b servers false (fi_crashed fi))
    as (ch & cr & -> & Hl & Hsame & Hch & _); [by rewrite H3|]. simpl.
  destruct ch; simpl.
  - destruct (Hch eq_refl eq_refl) as (id & Hold & Hnew).
    eapply annotateFault_inv; [exact Hf|done|done|split; simpl; lia|].
    intros [_ Hff]. simpl in Hff. change (is_Some (ongoing g)). apply Ho. intros [_ Hff'].
    rewrite Hff in Hnew. rewrite Hff' in Hold.
    apply lookup_replicate in Hnew as [-> _]. by apply lookup_replicate in Hold as [? _].
  - destruct (Hsame eq_refl) as [_ ->]. eexists. split; [done|].
    assert (Hnew : g_finfo g = Some (mkFrameworkInfo_ (fi_nservers fi) (fi_connected fi)
      (fi_crashed fi) (fi_ckbegin fi))) by (rewrite Hfi; by destruct fi).
    eapply (an_inv_same n now t g); [done..|]. by rewrite Hnew.
Qed.

Lemma continuous_other t g tag desp details color :
  tag ≠ TAG_PARTITION →
  ongoing (AnnotateContinuousColor g t tag desp details color) = ongoing g ∧
  ivs (AnnotateContinuousColor g t tag desp details color) = ivs g.
Proof.
  intros Ht. unfold AnnotateContinuousColor, annotateContinuousColor, ongoing.
  destruct (an_continuous (g_annotation g) !! tag); simpl;
    rewrite lookup_insert_ne by done; [by rewrite intervals_other|done].
Qed.

Lemma continuous_end_other t g tag :
  tag ≠ TAG_PARTITION →
  ongoing (AnnotateContinuousEnd g t tag) = ongoing g ∧
  ivs (AnnotateContinuousEnd g t tag) = ivs g.
Proof.
  intros Ht. unfold AnnotateContinuousEnd, annotateContinuousEnd, ongoing. simpl.
  rewrite lookup_delete_ne by done. by rewrite intervals_other.
Qed.

Lemma point_other t g tag desp details color :
  tag ≠ TAG_PARTITION → ivs (AnnotatePointColor g t tag desp details color) = ivs g.
Proof. intros Ht. unfold AnnotatePointColor, annotatePointColor. simpl. by rewrite intervals_other. Qed.

Lemma interval_other t g tag start desp details color :
  tag ≠ TAG_PARTITION → ivs (AnnotateIntervalColor g t tag start desp details color) = ivs g.
Proof.
  intros Ht. unfold AnnotateIntervalColor, annotateIntervalColor. simpl. by rewrite intervals_other.
Qed.

Lemma AnnotateCheckerEnd_inv n now t g desp details color :
  an_inv n now g → now ≤ t →
  ∃ g', AnnotateCheckerEnd g t desp details color = Ret g' ∧ an_inv n t g'.
Proof.
  intros Hi Hle. pose proof Hi as [Hf (fi & Hfi & Hs & Ho)].
  unfold AnnotateCheckerEnd, get_finfo. rewrite Hfi. simpl.
  case_bool_decide; eexists; (split; [done|]); (eapply an_inv_same; [done..| |done]).
  - by apply point_other.
  - by apply interval_other.
Qed.

Lemma AnnotateClearFailure_inv n now t g :
  an_inv n now g → now ≤ t → is_Some (ongoing g) →
  ∃ g', AnnotateClearFailure g t = Ret g' ∧ an_inv n t g'.
Proof.
  intros Hi Hle Hong. pose proof Hi as [Hf (fi & Hfi & [H1 H2 H3] & Ho)].
  unfold AnnotateClearFailure, get_finfo. rewrite Hfi. simpl. eexists. split; [done|].
  edestruct (fault_end now t) as [Hf' Hfi']; [exact Hf|done|done|].
  split; [exact Hf'|]. eexists. split; [reflexivity|].
  split; [split; simpl; by rewrite ?length_fmap|]. intros Hff. destruct Hff. split; simpl.
  - by rewrite <- H2 in H1; rewrite H1; apply const_fmap.
  - rewrite H1, <- H3. by apply const_fmap.
Qed.

Lemma an_cmd_inv n now t g cmd :
  an_inv n now g → now ≤ t → allowed n g cmd → ∃ g', an_cmd g t cmd = Ret g' ∧ an_inv n t g'.
Proof.
  intros Hi Hle Ha. pose proof Hi as [Hf (fi & Hfi & Hs & Ho)].
  destruct cmd; simpl in Ha |- *.
  - eexists. split; [done|]. eapply an_inv_same; [done..|by apply point_other|done].
  - eexists. split; [done|]. eapply an_inv_same; [done..|by apply interval_other|done].
  - eexists. split; [done|]. by eapply an_inv_same; [done..|apply continuous_other|
      apply continuous_other|].
  - eexists. split; [done|]. by eapply an_inv_same; [done..|apply continuous_end_other|
      apply continuous_end_other|].
  - unfold AnnotateCheckerBegin, get_finfo. rewrite Hfi. simpl. eexists. split; [done|].
    split; [by eapply faults_ok_mono|]. eexists. split; [reflexivity|].
    destruct Hs. by repeat split.
  - by eapply AnnotateCheckerEnd_inv.
  - by eapply AnnotateConnection_inv.
  - eexists. split; [done|]. unfold AnnotateTwoPartitions.
    edestruct (fault_start now t g) as (Hf' & Ho' & Hfi'); [done..|].
    split; [exact Hf'|]. exists fi. by rewrite Hfi'.
  - by eapply annotate_crash_inv.
  - by eapply annotate_crash_inv.
  - unfold AnnotateShutdownAll, get_finfo. rewrite Hfi. simpl. eapply annotate_crash_inv; [done..|].
    intros id. rewrite elem_of_seq, (sz_n _ _ Hs). lia.
  - unfold AnnotateRestartAll, get_finfo. rewrite Hfi. simpl. eapply annotate_crash_inv; [done..|].
    intros id. rewrite elem_of_seq, (sz_n _ _ Hs). lia.
  - by eapply AnnotateClearFailure_inv.
Qed.

Lemma AnnotateTest_inv n t g desp : 0 ≤ t → an_inv n t (AnnotateTest g t desp n).
Proof.
  intros Ht. split; [done|]. eexists. split; [done|].
  split; [split; simpl; by rewrite ?length_replicate|]. intros Hff. by destruct Hff.
Qed.

Lemma an_run_inv n now g : an_run n now g → an_inv n now g.
Proof.
  induction 1 as [g t desp Ht|now g t cmd g' Hr IH Hle Ha Hc]; [by apply AnnotateTest_inv|].
  destruct (an_cmd_inv n now t g cmd IH Hle Ha) as (g2 & E & Hi). congruence.
Qed.

Lemma intervals_none t (l : list (string * Continuous)) :
  (∀ p, p ∈ l → p.1 ≠ TAG_PARTITION) → intervals ((λ p, concretize p.1 p.2 t) <$> l) = [].
Proof.
  induction l as [|p l IH]; intros Hl; [done|].
  change (intervals ([concretize p.1 p.2 t] ++ ((λ p, concretize p.1 p.2 t) <$> l)) = []).
  rewrite intervals_app, IH by (intros; apply Hl; by right). unfold intervals.
  rewrite filter_cons_False; [done|]. simpl. apply Hl. left.
Qed.

(** At most one ongoing annotation is a fault. *)
Lemma intervals_order (m : gmap string Continuous) t order :
  order ≡ₚ map_to_list m →
  (∃ c, m !! TAG_PARTITION = Some c ∧
    intervals ((λ p, concretize p.1 p.2 t) <$> order) = [(ct_start c, t)]) ∨
  (m !! TAG_PARTITION = None ∧ intervals ((λ p, concretize p.1 p.2 t) <$> order) = []).
Proof.
  intros Hord.
  assert (Hin : ∀ tag c, (tag, c) ∈ order ↔ m !! tag = Some c).
  { intros. rewrite Hord. apply elem_of_map_to_list. }
  assert (Hnd : NoDup order.*1) by (rewrite Hord; apply NoDup_fst_map_to_list).
  clear Hord. destruct (m !! TAG_PARTITION) as [c|] eqn:E; [left|right].
  - exists c. split; [done|]. apply Hin in E.
    apply list_elem_of_split in E as (l1 & l2 & ->).
    rewrite fmap_app, fmap_cons in Hnd. simpl in Hnd.
    apply NoDup_app in Hnd as (_ & Hd & [Hn2 _]%NoDup_cons).
    rewrite fmap_app, intervals_app, intervals_none.
    2:{ intros p Hp Ht. apply (Hd TAG_PARTITION); [|left].
        apply list_elem_of_fmap. exists p. by rewrite Ht. }
    change (intervals ([concretize TAG_PARTITION c t] ++ ((λ p, concretize p.1 p.2 t) <$> l2)) =
      [(ct_start c, t)]).
    rewrite intervals_app, intervals_none; [done|]. intros p Hp Ht. apply Hn2.
    apply list_elem_of_fmap. exists p. by rewrite Ht.
  - split; [done|]. apply intervals_none. intros [tag c] Hp Ht. simpl in Ht. subst.
    apply Hin in Hp. congruence.
Qed.

(** ** Properties *)

(** C37: fault_annotations_tile: in a test of [n] servers in which servers are in range, user tags
    differ from the framework's and [AnnotateClearFailure] is only called while a fault is
    annotated, every function returns, and the fault annotations that are finally drawn are
    intervals in order of time that do not overlap, from the start of the clock to the end. *)
Theorem fault_annotations_tile n now g t t' order end_ :
  an_run n now g → now ≤ t → order ≡ₚ map_to_list (an_continuous (g_annotation g)) →
  tiled 0 (intervals (FinalizeAnnotations g t t' order end_).2) t ∧
  ∀ cmd, allowed n g cmd → is_Ret (an_cmd g t cmd).
Proof.
  intros Hr Hle Hord. pose proof (an_run_inv _ _ _ Hr) as Hi. split.
  - simpl. rewrite intervals_app. unfold intervals at 2. simpl. rewrite app_nil_r.
    rewrite intervals_app. destruct Hi as [Hf _]. unfold faults_ok, ongoing in Hf.
    destruct (intervals_order (an_continuous (g_annotation g)) t order Hord) as [[c [Hc ->]]|[Hc ->]];
      rewrite Hc in Hf.
    + destruct Hf. apply tiled_snoc; [done|lia].
    + rewrite app_nil_r. by eapply tiled_mono.
  - intros cmd Ha. destruct (an_cmd_inv n now t g cmd Hi Hle Ha) as (g' & -> & _). by eexists.
Qed.

Record CheckEnd := mkCheckEnd { ce_t : Z; ce_desp : string; ce_details : string; ce_color : string }.

Fixpoint checker_ends (g : Globals) (ends : list CheckEnd) : outcome Globals :=
  match ends with
  | [] => Ret g
  | e :: ends =>
      g ← AnnotateCheckerEnd g (ce_t e) (ce_desp e) (ce_details e) (ce_color e);
      checker_ends g ends
  end.

(** AnnotateCheckerEnd_keeps_begin: the begin timestamp is never reset. After one
    [AnnotateCheckerBegin], every later [AnnotateCheckerEnd] becomes an interval from that same
    begin and repeats its details, although the comment in the code says that the timestamp is
    reset and later checks should be points. *)
Theorem AnnotateCheckerEnd_keeps_begin g t0 details0 g1 ends :
  AnnotateCheckerBegin g t0 details0 = Ret g1 → t0 ≠ 0 →
  ∃ g2, checker_ends g1 ends = Ret g2 ∧
    an_annotations (g_annotation g2) = an_annotations (g_annotation g1) ++
      ((λ e, mkPAnnotation TAG_CHECKER t0 (ce_t e) (ce_desp e)
               (details0 +:+ ": " +:+ ce_details e) (ce_color e)) <$> ends).
Proof.
  intros Hb Ht. assert (Hfi : ∃ fi, g_finfo g1 = Some fi ∧ fi_ckbegin fi = mkCheckerBegin t0 details0).
  { unfold AnnotateCheckerBegin in Hb. bind_inv Hb. eauto. }
  clear Hb. revert g1 Hfi. induction ends as [|e ends IH]; intros g1 (fi & Hfi & Hck); simpl.
  { exists g1. by rewrite app_nil_r. }
  unfold AnnotateCheckerEnd at 1, get_finfo. rewrite Hfi. simpl. rewrite Hck. simpl.
  rewrite bool_decide_eq_false_2 by done. simpl. destruct (IH (AnnotateIntervalColor g1 (ce_t e) TAG_CHECKER t0 (ce_desp e)
    (details0 +:+ ": " +:+ ce_details e) (ce_color e))) as (g2 & E1 & E2); [by exists fi|].
  exists g2. rewrite E1, E2. split; [done|]. simpl. by rewrite <- app_assoc.
Qed.

(** [AnnotateClearFailure] without a fault, as at the start of a test, adds an empty fault
    annotation from the start of the clock: the empty body of the test in
    [annotateContinuousEnd] lets it go on with the zero value. *)
Theorem AnnotateClearFailure_spurious g t0 desp n t :
  ∃ g', AnnotateClearFailure (AnnotateTest g t0 desp n) t = Ret g' ∧
    an_annotations (g_annotation g') =
      an_annotations (g_annotation (AnnotateTest g t0 desp n)) ++
        [mkPAnnotation TAG_PARTITION 0 t "" "" ""].
Proof. eexists. split; [done|]. done. Qed.

(** ** Examples *)

Definition ex_globals : Globals := mkGlobals mkAnnotation0 None.

Definition ex_test : Globals := AnnotateTest ex_globals 5 "example" 3.

Definition ex_faulty : Globals :=
  match AnnotateShutdown ex_test 7 [1%nat] with Ret g => g | _ => ex_test end.

Lemma ex_faulty_run : an_run 3 7 ex_faulty.
Proof.
  eapply (an_next 3 5 ex_test 7 (CShutdown [1%nat])); [by apply an_start|done| |done].
  intros id ->%list_elem_of_singleton. lia.
Qed.

Lemma fault_annotations_tile_witness :
  intervals (FinalizeAnnotations ex_faulty 9 10 (map_to_list (an_continuous (g_annotation ex_faulty)))
    "passed").2 = [(7, 9)] ∧
  is_Ret (an_cmd ex_faulty 9 CClearFailure).
Proof.
  destruct (fault_annotations_tile 3 7 ex_faulty 9 10
    (map_to_list (an_continuous (g_annotation ex_faulty))) "passed" ex_faulty_run) as [_ H];
    [lia|done|]. split; [vm_compute; reflexivity|]. apply H. vm_compute. by eexists.
Defined.

Lemma AnnotateCheckerEnd_keeps_begin_witness :
  ∃ g1 g2, AnnotateCheckerBegin ex_test 6 "check" = Ret g1 ∧
    checker_ends g1 [mkCheckEnd 8 "a" "ok" COLOR_SUCCESS; mkCheckEnd 9 "b" "ok" COLOR_SUCCESS] = Ret g2.
Proof.
  eexists. edestruct (AnnotateCheckerEnd_keeps_begin ex_test 6 "check") as (g2 & H & _);
    [reflexivity|lia|]. exists g2. split; [reflexivity|exact H].
Defined.
