(* ===== verification/RaftTest.v ===== *)
(** * The checks of the Raft tests ([raft1/test.go], [raft1/server.go])

    Every server of a test has a reader of its apply channel that keeps a copy of the
    committed entries and compares them with the copies of all other servers; the tests then
    ask how many servers committed an index, who leads, and which term it is. [Kill] and a new
    server on restart replace a reader by one with an empty copy. *)

From S2P Require Export Raft TesterGroup.

Local Open Scope Z_scope.

(** [rfsrv], without the Raft peer, which is a parameter of the functions that ask it. *)
Record Rfsrv := mkRfsrv {
  rs_applyErr : string;
  rs_lastApplied : Z;
  rs_logs : gmap Z any
}.

Definition newRfsrv0 : Rfsrv := mkRfsrv "" 0 ∅.

(** The fields of [Test] that the checks use. *)
Record RfTest := mkRfTest { tst_srvs : list Rfsrv; tst_maxIndex : Z }.

Definition Logs (rs : Rfsrv) (i : Z) : option any := rs_logs rs !! i.

Definition set_srv (ts : RfTest) (i : nat) (rs : Rfsrv) : RfTest :=
  mkRfTest (<[i := rs]> (tst_srvs ts)) (tst_maxIndex ts).

(** The loop of [checkLogs]: the last server that has another value, if any. *)
Fixpoint conflict (j : nat) (srvs : list Rfsrv) (index : Z) (v : any) (err_msg : option nat)
    : option nat :=
  match srvs with
  | [] => err_msg
  | rs :: srvs =>
      match Logs rs index with
      | Some old =>
          if bool_decide (old ≠ v) then conflict (S j) srvs index v (Some j)
          else conflict (S j) srvs index v err_msg
      | None => conflict (S j) srvs index v err_msg
      end
  end.

(** [checkLogs]; the error message is represented by the server it names. *)
Definition checkLogs (ts : RfTest) (i : nat) (m : ApplyMsg) : outcome (RfTest * option nat * bool) :=
  let v := am_Command m in
  me ← index (tst_srvs ts) i;
  let err_msg := conflict 0 (tst_srvs ts) (am_CommandIndex m) v None in
  let prevok := bool_decide (is_Some (rs_logs me !! (am_CommandIndex m - 1))) in
  let me := mkRfsrv (rs_applyErr me) (rs_lastApplied me) (<[am_CommandIndex m := v]> (rs_logs me)) in
  let maxIndex := if tst_maxIndex ts <? am_CommandIndex m then am_CommandIndex m else tst_maxIndex ts in
  Ret (mkRfTest (<[i := me]> (tst_srvs ts)) maxIndex, err_msg, prevok).

(** One message in the loop of [applier]; [log.Fatalf] ends the program. *)
Definition applier_msg (ts : RfTest) (i : nat) (m : ApplyMsg) : outcome RfTest :=
  if negb (am_CommandValid m) then Ret ts
  else
    '(ts, err_msg, prevok) ← checkLogs ts i m;
    if bool_decide (1 < am_CommandIndex m) && negb prevok then Fatal "apply error"
    else match err_msg with Some _ => Fatal "apply error" | None => Ret ts end.

(** [nCommitted], from the count [count] and the command [cmd] so far. *)
Fixpoint nCommitted_loop (srvs : list Rfsrv) (index : Z) (count : Z) (cmd : any)
    : outcome (Z * any) :=
  match srvs with
  | [] => Ret (count, cmd)
  | rs :: srvs =>
      if bool_decide (rs_applyErr rs ≠ "") then Fatal "apply error"
      else match Logs rs index with
           | Some cmd1 =>
               if bool_decide (0 < count) && bool_decide (cmd ≠ cmd1)
               then Fatal "committed values do not match"
               else nCommitted_loop srvs index (count + 1) cmd1
           | None => nCommitted_loop srvs index count cmd
           end
  end.

Definition nCommitted (ts : RfTest) (index : Z) : outcome (Z * any) :=
  nCommitted_loop (tst_srvs ts) index 0 any_nil.

Definition checkNoAgreement (ts : RfTest) (index : Z) : outcome unit :=
  '(n, _) ← nCommitted ts index;
  if bool_decide (0 < n) then Fatal "committed but no majority" else Ret tt.

(** What a server answers to [IsConnected] and [GetState] when the check asks it: [None] when
    it is not connected. *)
Abbreviation Asked := (option (Z * bool)) (only parsing).

(** The first loop of [checkOneLeader]: the leaders of each term, from server [i] on. *)
Fixpoint collect_leaders (i : nat) (asked : list Asked) (leaders : gmap Z (list nat))
    : gmap Z (list nat) :=
  match asked with
  | [] => leaders
  | Some (term, true) :: asked =>
      collect_leaders (S i) asked (<[term := map_get [] leaders term ++ [i]]> leaders)
  | _ :: asked => collect_leaders (S i) asked leaders
  end.

(** The second loop, in the order in which the map is visited. *)
Fixpoint last_term (order : list (Z * list nat)) (lastTermWithLeader : Z) : outcome Z :=
  match order with
  | [] => Ret lastTermWithLeader
  | (term, leaders) :: order =>
      if bool_decide (1 < length leaders)%nat then Fatal "more than one leader"
      else last_term order
             (if lastTermWithLeader <? term then term else lastTermWithLeader)
  end.

(** One iteration of [checkOneLeader]: the leader found, if any. *)
Definition one_leader_iter (visit : gmap Z (list nat) → list (Z * list nat)) (asked : list Asked)
    : outcome (option nat) :=
  let leaders := collect_leaders 0 asked ∅ in
  lastTermWithLeader ← last_term (visit leaders) (-1);
  if bool_decide (leaders = ∅) then Ret None
  else l ← index (map_get [] leaders lastTermWithLeader) 0; Ret (Some l).

(** [checkOneLeader]; [asks] has what the servers answer in each iteration, at most ten. *)
Fixpoint checkOneLeader_loop (visit : gmap Z (list nat) → list (Z * list nat))
    (asks : list (list Asked)) : outcome nat :=
  match asks with
  | [] => Fatal "expected one leader, got none"
  | asked :: asks =>
      l ← one_leader_iter visit asked;
      match l with Some l => Ret l | None => checkOneLeader_loop visit asks end
  end.

Definition checkOneLeader (visit : gmap Z (list nat) → list (Z * list nat))
    (asks : nat → list Asked) : outcome nat :=
  checkOneLeader_loop visit (asks <$> seq 0 10).

Fixpoint checkTerms_loop (asked : list Asked) (term : Z) : outcome Z :=
  match asked with
  | [] => Ret term
  | None :: asked => checkTerms_loop asked term
  | Some (xterm, _) :: asked =>
      if bool_decide (term = -1) then checkTerms_loop asked xterm
      else if bool_decide (term ≠ xterm) then Fatal "servers disagree on term"
      else checkTerms_loop asked term
  end.

Definition checkTerms (asked : list Asked) : outcome Z := checkTerms_loop asked (-1).

Fixpoint checkNoLeader (asked : list Asked) : outcome unit :=
  match asked with
  | [] => Ret tt
  | Some (_, true) :: _ => Fatal "unexpected leader"
  | _ :: asked => checkNoLeader asked
  end.

(** [makeTest] and [mksrv]: a server whose reader starts anew. *)
Definition makeTest (n : nat) : RfTest := mkRfTest (replicate n newRfsrv0) 0.

Definition mksrv (ts : RfTest) (srv : nat) : outcome RfTest :=
  srvs ← set_index (tst_srvs ts) srv newRfsrv0;
  Ret (mkRfTest srvs (tst_maxIndex ts)).

(** ** Snapshots *)

Definition SnapShotInterval : Z := 10.

(** [ingestSnap]; [decoded] is what the decoder finds in the snapshot, [None] for nil. *)
Definition ingestSnap (rs : Rfsrv) (decoded : option (option (Z * list any))) (index : Z)
    : outcome (Rfsrv * bool) :=
  match decoded with
  | None => Fatal "nil snapshot"
  | Some None => Fatal "snapshot decode error"
  | Some (Some (lastIncludedIndex, xlog)) =>
      if bool_decide (index ≠ -1) && bool_decide (index ≠ lastIncludedIndex) then Ret (rs, false)
      else
        let logs := list_to_map (zip (Z.of_nat <$> seq 0 (length xlog)) xlog) in
        Ret (mkRfsrv (rs_applyErr rs) lastIncludedIndex logs, true)
  end.

(** One message in the loop of [applierSnap], with the snapshot it takes, if any. *)
Definition applierSnap_msg (ts : RfTest) (i : nat) (m : ApplyMsg)
    (decoded : option (option (Z * list any))) : outcome (RfTest * option (Z * list any)) :=
  rs ← index (tst_srvs ts) i;
  if am_SnapshotValid m then
    '(rs, ok) ← ingestSnap rs decoded (am_SnapshotIndex m);
    if ok : bool then Ret (set_srv ts i rs, None) else Fatal "apply error"
  else if am_CommandValid m then
    if bool_decide (am_CommandIndex m ≠ rs_lastApplied rs + 1) then Fatal "apply error"
    else
      '(ts, err_msg, prevok) ← checkLogs ts i m;
      rs ← index (tst_srvs ts) i;
      let rs := mkRfsrv (rs_applyErr rs) (am_CommandIndex m) (rs_logs rs) in
      let snap :=
        if bool_decide ((am_CommandIndex m + 1) `mod` SnapShotInterval = 0)
        then Some (am_CommandIndex m,
                   (λ j, map_get any_nil (rs_logs rs) (Z.of_nat j)) <$>
                     seq 0 (Z.to_nat (am_CommandIndex m + 1)))
        else None in
      if bool_decide (1 < am_CommandIndex m) && negb prevok then Fatal "apply error"
      else match err_msg with
           | Some _ => Fatal "apply error"
           | None => Ret (set_srv ts i rs, snap)
           end
  else Ret (ts, None).

(** ** Agreement *)

(** What happens to the readers: a message on the apply channel of server [i], or a restart. *)
Inductive RtCmd := Deliver (i : nat) (m : ApplyMsg) | Restart (i : nat).

Definition rt_cmd (ts : RfTest) (c : RtCmd) : outcome RfTest :=
  match c with Deliver i m => applier_msg ts i m | Restart i => mksrv ts i end.

Fixpoint rt_run (ts : RfTest) (cs : list RtCmd) : outcome RfTest :=
  match cs with [] => Ret ts | c :: cs => ts ← rt_cmd ts c; rt_run ts cs end.

Lemma conflict_None j srvs index v err :
  conflict j srvs index v err = None →
  err = None ∧ ∀ rs old, rs ∈ srvs → Logs rs index = Some old → old = v.
Proof.
  revert j err. induction srvs as [|rs srvs IH]; intros j err; simpl; [set_solver|].
  destruct (Logs rs index) as [old|] eqn:E.
  - case_bool_decide as Ho; intros H.
    + by destruct (IH _ _ H).
    + destruct (IH _ _ H) as [? Hall]. split; [done|].
      intros rs' old' [->|?]%elem_of_cons Hl; [|by eapply Hall].
      congruence.
  - intros H. destruct (IH _ _ H) as [? Hall]. split; [done|].
    intros rs' old' [->|?]%elem_of_cons Hl; [congruence|by eapply Hall].
Qed.

(** The copies agree, have no holes above index 1, and no reader has seen an error. *)
Record agreed (ts : RfTest) : Prop := {
  ag_same a b k va vb : a ∈ tst_srvs ts → b ∈ tst_srvs ts →
    Logs a k = Some va → Logs b k = Some vb → va = vb;
  ag_dense a k : a ∈ tst_srvs ts → 1 < k → is_Some (Logs a k) → is_Some (Logs a (k - 1));
  ag_err a : a ∈ tst_srvs ts → rs_applyErr a = "";
  ag_max a k : a ∈ tst_srvs ts → 1 ≤ k → is_Some (Logs a k) → k ≤ tst_maxIndex ts
}.

Lemma agreed_init n : agreed (makeTest n).
Proof.
  assert (Hn : ∀ a, a ∈ tst_srvs (makeTest n) → a = newRfsrv0).
  { intros a. by apply elem_of_replicate_inv. }
  split.
  - intros a b k va vb ->%Hn _ Ha. done.
  - intros a k ->%Hn _ [? Ha]. done.
  - by intros a ->%Hn.
  - intros a k ->%Hn _ [? Ha]. done.
Qed.

Lemma elem_of_insert_inv {A} (l : list A) i (x y : A) : x ∈ <[i := y]> l → x = y ∨ x ∈ l.
Proof.
  intros [j Hj]%list_elem_of_lookup. destruct (decide (i = j)) as [<-|Hne].
  - left. apply list_lookup_insert_Some in Hj as [(_ & -> & _)|[? _]]; done.
  - right. rewrite list_lookup_insert_ne in Hj by done. by eapply list_elem_of_lookup_2.
Qed.

Lemma agreed_restart ts i ts' : agreed ts → mksrv ts i = Ret ts' → agreed ts'.
Proof.
  intros [H1 H2 H3 H4] Hr. unfold mksrv, set_index in Hr.
  destruct (tst_srvs ts !! i); simplify_eq/=. split; simpl.
  - intros a b k va vb [->|Ha]%elem_of_insert_inv [->|Hb]%elem_of_insert_inv; try done.
    by eapply H1.
  - intros a k [->|Ha]%elem_of_insert_inv; [intros _ [? ?]; done|by apply H2].
  - intros a [->|Ha]%elem_of_insert_inv; [done|by apply H3].
  - intros a k [->|Ha]%elem_of_insert_inv; [intros _ [? ?]; done|by apply H4].
Qed.

Lemma agreed_deliver ts i m ts' : agreed ts → applier_msg ts i m = Ret ts' → agreed ts'.
Proof.
  intros [H1 H2 H3 H4] Hr. unfold applier_msg, checkLogs in Hr.
  destruct (am_CommandValid m); simpl in Hr; [|by simplify_eq].
  unfold index in Hr. destruct (tst_srvs ts !! i) as [me|] eqn:Eme; simpl in Hr; [|done].
  apply list_elem_of_lookup_2 in Eme as Hme.
  set (k0 := am_CommandIndex m) in *. set (v := am_Command m) in *.
  set (me' := mkRfsrv (rs_applyErr me) (rs_lastApplied me) (<[k0 := v]> (rs_logs me))) in *.
  destruct (bool_decide (1 < k0) && _) eqn:Eord in Hr; [done|].
  destruct (conflict _ _ _ _ _) eqn:Ec; simplify_eq/=.
  apply conflict_None in Ec as [_ Hc].
  assert (Hlog : ∀ k, Logs me' k = if decide (k = k0) then Some v else Logs me k).
  { intros k. unfold Logs, me'. simpl. destruct (decide (k = k0)) as [->|];
      [apply lookup_insert_eq|by rewrite lookup_insert_ne]. }
  assert (Hnew : ∀ a k va, a ∈ tst_srvs ts → Logs a k = Some va →
    ∀ vb, Logs me' k = Some vb → va = vb).
  { intros a k va Ha Hl vb. rewrite Hlog. destruct (decide (k = k0)) as [->|]; intros Hb; simplify_eq.
    - by eapply Hc.
    - by eapply (H1 a me). }
  split; simpl.
  - intros a b k va vb [->|Ha]%elem_of_insert_inv [->|Hb]%elem_of_insert_inv La Lb.
    + congruence.
    + symmetry. by eapply (Hnew b).
    + by eapply (Hnew a).
    + by eapply (H1 a b).
  - intros a k [->|Ha]%elem_of_insert_inv Hk; [|by apply H2]. rewrite !Hlog.
    destruct (decide (k - 1 = k0)); [eauto|]. destruct (decide (k = k0)) as [->|]; intros Hs.
    + rewrite bool_decide_eq_true_2 in Eord by done. simpl in Eord.
      by apply negb_false_iff, bool_decide_eq_true in Eord.
    + by apply H2.
  - intros a [->|Ha]%elem_of_insert_inv; [by apply (H3 me)|by apply H3].
  - intros a k [->|Ha]%elem_of_insert_inv Hk Hs.
    + rewrite Hlog in Hs. destruct (decide (k = k0)) as [->|].
      * destruct (Z.ltb_spec (tst_maxIndex ts) k0); lia.
      * specialize (H4 me k Hme Hk Hs). destruct (Z.ltb_spec (tst_maxIndex ts) k0); lia.
    + specialize (H4 a k Ha Hk Hs). destruct (Z.ltb_spec (tst_maxIndex ts) k0); lia.
Qed.

Lemma agreed_run cs ts ts' : agreed ts → rt_run ts cs = Ret ts' → agreed ts'.
Proof.
  revert ts. induction cs as [|c cs IH]; intros ts Ha Hr; simpl in Hr; [by simplify_eq|].
  destruct (rt_cmd ts c) as [ts1| |] eqn:E; simpl in Hr; try done. eapply IH; [|done].
  destruct c; simpl in E; [by eapply agreed_deliver|by eapply agreed_restart].
Qed.

(** The servers that have committed [index]. *)
Definition committed (srvs : list Rfsrv) (index : Z) : list Rfsrv :=
  filter (λ rs, is_Some (Logs rs index)) srvs.

Lemma nCommitted_loop_agreed srvs index count cmd :
  (∀ a, a ∈ srvs → rs_applyErr a = "") →
  (∀ a b va vb, a ∈ srvs → b ∈ srvs → Logs a index = Some va → Logs b index = Some vb → va = vb) →
  0 ≤ count →
  (0 < count → ∀ a va, a ∈ srvs → Logs a index = Some va → va = cmd) →
  ∃ cmd', nCommitted_loop srvs index count cmd =
      Ret (count + Z.of_nat (length (committed srvs index)), cmd') ∧
    (∀ a va, a ∈ srvs → Logs a index = Some va → va = cmd') ∧
    (committed srvs index = [] → cmd' = cmd).
Proof.
  revert count cmd. induction srvs as [|rs srvs IH]; intros count cmd He Hs Hc Hcmd; simpl.
  { exists cmd. rewrite Z.add_0_r. split_and!; [done|set_solver|done]. }
  rewrite (He rs) by left. rewrite bool_decide_eq_false_2 by naive_solver.
  unfold committed. destruct (Logs rs index) as [v|] eqn:E.
  - rewrite filter_cons_True by (by eexists). simpl.
    assert (Hno : bool_decide (0 < count) && bool_decide (cmd ≠ v) = false).
    { case_bool_decide; [|done]. simpl. apply bool_decide_eq_false. intros Hne. apply Hne.
      symmetry. eapply Hcmd; [done|left|done]. }
    rewrite Hno. destruct (IH (count + 1) v) as (cmd' & -> & Hall & Hnil).
    + intros. apply He. by right.
    + intros. eapply (Hs a b); [by right|by right|done|done].
    + lia.
    + intros _ a va Ha Hl. eapply (Hs a rs); [by right|left|done|done].
    + exists cmd'. split_and!; [f_equal; f_equal; unfold committed; lia| |done].
      intros a va [->|Ha]%elem_of_cons Hl; [|by eapply Hall]. simplify_eq.
      destruct (committed srvs index) as [|b l] eqn:Eb; [by rewrite Hnil|].
      assert (Hb : b ∈ committed srvs index) by (rewrite Eb; left).
      unfold committed in Hb. apply list_elem_of_filter in Hb as [[vb Hvb] Hb].
      rewrite <- (Hall b vb Hb Hvb). eapply (Hs rs b); [left|by right|done|done].
  - rewrite filter_cons_False by (intros [? ?]; congruence).
    destruct (IH count cmd) as (cmd' & -> & Hall & Hnil); [intros; apply He; by right| |done| |].
    + intros. eapply (Hs a b); [by right|by right|done|done].
    + intros Hp a va Ha. apply Hcmd; [done|by right].
    + exists cmd'. split_and!; [done| |done].
      intros a va [->|Ha]%elem_of_cons Hl; [congruence|by eapply Hall].
Qed.

(** ** Leaders *)

(** Server [j] said that it leads in term [t]. *)
Definition leads (asked : list Asked) (t : Z) (j : nat) : Prop := asked !! j = Some (Some (t, true)).

Definition one_per_term (asked : list Asked) : Prop :=
  ∀ t j j', leads asked t j → leads asked t j' → j = j'.

(** The leaders of term [t], from server [i] on. *)
Fixpoint leaders_from (i : nat) (asked : list Asked) (t : Z) : list nat :=
  match asked with
  | [] => []
  | Some (term, true) :: asked =>
      if decide (term = t) then i :: leaders_from (S i) asked t else leaders_from (S i) asked t
  | _ :: asked => leaders_from (S i) asked t
  end.

Lemma collect_leaders_spec asked i leaders t :
  map_get [] (collect_leaders i asked leaders) t = map_get [] leaders t ++ leaders_from i asked t ∧
  (is_Some (collect_leaders i asked leaders !! t) ↔
     is_Some (leaders !! t) ∨ leaders_from i asked t ≠ []).
Proof.
  revert i leaders. induction asked as [|[[term []]|] asked IH]; intros i leaders; simpl.
  - rewrite app_nil_r. split; [done|]. naive_solver.
  - destruct (IH (S i) (<[term := map_get [] leaders term ++ [i]]> leaders)) as [-> ->].
    destruct (decide (term = t)) as [->|Hne].
    + rewrite map_get_insert_eq, lookup_insert_eq, <- app_assoc. split; [done|].
      split; [by right|by left].
    + by rewrite map_get_insert_ne, lookup_insert_ne by done.
  - apply IH.
  - apply IH.
Qed.

Lemma elem_of_leaders_from asked i t j :
  j ∈ leaders_from i asked t ↔ ∃ k, j = (i + k)%nat ∧ leads asked t k.
Proof.
  assert (Hskip : ∀ a asked i, a ≠ Some (t, true) →
    (∃ k, j = (S i + k)%nat ∧ leads asked t k) ↔ ∃ k, j = (i + k)%nat ∧ leads (a :: asked) t k).
  { intros a l i' Ha. split.
    - intros (k & -> & Hk). exists (S k). split; [lia|done].
    - intros ([|k] & -> & Hk); [|exists k; split; [lia|done]].
      unfold leads in Hk. simpl in Hk. congruence. }
  revert i. induction asked as [|a asked IH]; intros i; simpl.
  { split; [set_solver|]. intros (k & _ & Hk). by unfold leads in Hk. }
  destruct a as [[term []]|]; [|by rewrite <- Hskip, IH..].
  destruct (decide (term = t)) as [->|Hne]; [|rewrite <- Hskip by congruence; apply IH].
  rewrite elem_of_cons, IH. split.
  - intros [->|(k & -> & Hk)]; [exists 0%nat|exists (S k)]; (split; [lia|done]).
  - intros ([|k] & -> & Hk); [left; lia|right; exists k; split; [lia|done]].
Qed.

Lemma leaders_from_NoDup asked i t : NoDup (leaders_from i asked t).
Proof.
  revert i. induction asked as [|[[term []]|] asked IH]; intros i; simpl; [constructor| |done..].
  destruct (decide (term = t)); [|done]. constructor; [|done].
  intros (k & ? & _)%elem_of_leaders_from. lia.
Qed.

Lemma last_term_spec (order : list (Z * list nat)) m0 :
  (∀ t l, (t, l) ∈ order → (length l ≤ 1)%nat) →
  ∃ m, last_term order m0 = Ret m ∧ m0 ≤ m ∧ (m = m0 ∨ ∃ l, (m, l) ∈ order) ∧
    ∀ t l, (t, l) ∈ order → t ≤ m.
Proof.
  revert m0. induction order as [|[t l] order IH]; intros m0 Hl; simpl.
  { exists m0. split_and!; [done|lia|by left|set_solver]. }
  rewrite bool_decide_eq_false_2 by (specialize (Hl t l ltac:(left)); lia).
  destruct (IH (if m0 <? t then t else m0)) as (m & -> & Hle & Hin & Hall).
  { intros t' l' H. eapply Hl. by right. }
  exists m. destruct (Z.ltb_spec m0 t) as [Hlt|Hge].
  - split_and!; [done|lia| |].
    + right. destruct Hin as [->|[l' ?]]; [exists l; left|exists l'; by right].
    + intros t' l' [?|H]%elem_of_cons; [simplify_eq; lia|by eapply Hall].
  - split_and!; [done|lia| |].
    + destruct Hin as [->|[l' ?]]; [by left|right; exists l'; by right].
    + intros t' l' [?|H]%elem_of_cons; [simplify_eq; lia|by eapply Hall].
Qed.

Lemma last_term_Fatal (order : list (Z * list nat)) m0 t l :
  (t, l) ∈ order → (1 < length l)%nat → ∃ e, last_term order m0 = Fatal e.
Proof.
  revert m0. induction order as [|[t' l'] order IH]; intros m0 Hin Hl; simpl; [set_solver|].
  case_bool_decide; [eauto|]. apply elem_of_cons in Hin as [?|?]; [simplify_eq; lia|auto].
Qed.

Lemma leaders_from_0 asked t j : j ∈ leaders_from 0 asked t ↔ leads asked t j.
Proof.
  rewrite elem_of_leaders_from. split; [intros (k & -> & ?); done|]. intros Hj. by exists j.
Qed.

(** The map that the first loop builds. *)
Lemma leaders_lookup asked t l :
  collect_leaders 0 asked ∅ !! t = Some l ↔ l = leaders_from 0 asked t ∧ l ≠ [].
Proof.
  destruct (collect_leaders_spec asked 0 ∅ t) as [Hget Hsome].
  rewrite lookup_empty in Hsome. unfold map_get in Hget. rewrite lookup_empty in Hget. simpl in Hget.
  split.
  - intros Hl. rewrite Hl in *. simpl in Hget. subst l. split; [done|].
    destruct (proj1 Hsome) as [[? ?]|?]; [by eexists|done|done].
  - intros [-> Hne]. destruct (proj2 Hsome) as [l Hl]; [by right|]. rewrite Hl in *.
    simpl in Hget. by subst.
Qed.

Lemma one_per_term_short asked :
  one_per_term asked ↔ ∀ t, (length (leaders_from 0 asked t) ≤ 1)%nat.
Proof.
  split.
  - intros Hu t. pose proof (leaders_from_NoDup asked 0 t) as Hnd.
    destruct (leaders_from 0 asked t) as [|x [|y l]] eqn:E; simpl; [lia|lia|]. exfalso.
    apply NoDup_cons in Hnd as [Hnd _]. apply Hnd. rewrite (Hu t x y); [left|..];
      apply leaders_from_0; rewrite E; [left|right; left].
  - intros Hs t j j' Hj%leaders_from_0 Hj'%leaders_from_0. specialize (Hs t).
    destruct (leaders_from 0 asked t) as [|x [|y l]]; simpl in Hs; [|..|lia].
    + by apply not_elem_of_nil in Hj.
    + apply list_elem_of_singleton in Hj, Hj'. congruence.
Qed.

(** What one iteration finds. *)
Lemma one_leader_iter_cases visit asked :
  (∀ m : gmap Z (list nat), visit m ≡ₚ map_to_list m) → (∀ t j, leads asked t j → 0 ≤ t) →
  (one_per_term asked ∧ (∀ t j, ¬ leads asked t j) ∧ one_leader_iter visit asked = Ret None) ∨
  (one_per_term asked ∧ ∃ t l, leads asked t l ∧ (∀ t' j, leads asked t' j → t' ≤ t) ∧
     one_leader_iter visit asked = Ret (Some l)) ∨
  (¬ one_per_term asked ∧ ∃ e, one_leader_iter visit asked = Fatal e).
Proof.
  intros Hv Hpos. unfold one_leader_iter. set (m := collect_leaders 0 asked ∅).
  assert (Hm : ∀ t l, (t, l) ∈ visit m ↔ l = leaders_from 0 asked t ∧ l ≠ []).
  { intros t l. rewrite Hv, elem_of_map_to_list. apply leaders_lookup. }
  pose proof (λ t j, leaders_from_0 asked t j) as Hlead.
  destruct (decide (Forall (λ p : Z * list nat, (length p.2 ≤ 1)%nat) (visit m))) as [Hall|Hno].
  - rewrite Forall_forall in Hall. assert (Huniq : one_per_term asked).
    { apply one_per_term_short. intros t. destruct (leaders_from 0 asked t) eqn:E; [simpl; lia|].
      rewrite <- E. apply (Hall (t, leaders_from 0 asked t)), Hm. by rewrite E. }
    destruct (last_term_spec (visit m) (-1)) as (mx & -> & Hle & Hin & Hmax).
    { intros t l H. by apply (Hall (t, l)). }
    simpl. case_bool_decide as He.
    + left. split_and!; [done| |done]. intros t j Hj. apply Hlead in Hj.
      assert ((t, leaders_from 0 asked t) ∈ visit m) as H.
      { apply Hm. split; [done|]. intros Hn. rewrite Hn in Hj. by apply not_elem_of_nil in Hj. }
      rewrite Hv, He, map_to_list_empty in H. by apply not_elem_of_nil in H.
    + right; left. split; [done|]. destruct Hin as [->|[l Hin]].
      { exfalso. apply map_choose in He as (t & l & Htl).
        assert (Hvt : (t, l) ∈ visit m) by (rewrite Hv; by apply elem_of_map_to_list).
        specialize (Hmax t l Hvt). apply Hm in Hvt as [-> Hne].
        destruct (leaders_from 0 asked t) as [|j ?] eqn:E; [done|].
        assert (Hj : leads asked t j) by (apply Hlead; rewrite E; left).
        apply Hpos in Hj. lia. }
      pose proof Hin as Hin'. apply Hm in Hin' as [-> Hne].
      destruct (leaders_from 0 asked mx) as [|j l] eqn:E; [done|].
      exists mx, j. split_and!; [apply Hlead; rewrite E; left| |].
      * intros t' j' Hj'. apply Hlead in Hj'. eapply (Hmax t'). apply Hm. split; [done|].
        intros Hn. rewrite Hn in Hj'. by apply not_elem_of_nil in Hj'.
      * rewrite Hv, elem_of_map_to_list in Hin. unfold map_get. by rewrite Hin.
  - right; right. apply not_Forall_Exists in Hno; [|intros ?; apply _].
    apply Exists_exists in Hno as ([t l] & Hin & Hlen). simpl in Hlen.
    destruct (last_term_Fatal _ (-1) _ _ Hin ltac:(lia)) as [e ->]. split; [|by exists e].
    intros Huniq. apply Hm in Hin as [-> _]. pose proof (proj1 (one_per_term_short _) Huniq t). lia.
Qed.

(** ** Properties *)

(** C20: applier_agreement: if the test has not stopped, the servers' committed entries agree.
    After any messages and restarts that the readers got through, two servers never hold
    different commands at one index, no server has a hole in its copy, and [nCommitted] returns
    without complaint the number of servers that hold the index and their common command. *)
Theorem applier_agreement n cs ts :
  rt_run (makeTest n) cs = Ret ts →
  (∀ a b k va vb, a ∈ tst_srvs ts → b ∈ tst_srvs ts →
    Logs a k = Some va → Logs b k = Some vb → va = vb) ∧
  (∀ a k j, a ∈ tst_srvs ts → is_Some (Logs a k) → 1 ≤ j ≤ k → is_Some (Logs a j)) ∧
  (∀ k, ∃ cmd, nCommitted ts k = Ret (Z.of_nat (length (committed (tst_srvs ts) k)), cmd) ∧
    ∀ a va, a ∈ tst_srvs ts → Logs a k = Some va → va = cmd).
Proof.
  intros Hr. pose proof (agreed_run _ _ _ (agreed_init n) Hr) as [H1 H2 H3 H4].
  split_and!; [exact H1| |].
  - intros a k j Ha Hk Hj. remember (Z.to_nat (k - j)) as d eqn:Ed.
    revert k Hk Hj Ed. induction d as [|d IH]; intros k Hk Hj Ed.
    + by replace j with k by lia.
    + apply (IH (k - 1)); [|lia..]. apply H2; [done|lia|done].
  - intros k. destruct (nCommitted_loop_agreed (tst_srvs ts) k 0 any_nil)
      as (cmd & E & Hall & _); [done| |lia|lia|eauto].
    intros a b va vb Ha Hb. by apply H1.
Qed.

(** The loop of [checkOneLeader] over the iterations left. *)
Lemma checkOneLeader_loop_spec visit asks :
  (∀ m : gmap Z (list nat), visit m ≡ₚ map_to_list m) →
  (∀ asked t j, asked ∈ asks → leads asked t j → 0 ≤ t) →
  (∀ l, checkOneLeader_loop visit asks = Ret l →
    ∃ k asked t, asks !! k = Some asked ∧ one_per_term asked ∧ leads asked t l ∧
      (∀ t' j, leads asked t' j → t' ≤ t) ∧
      ∀ k' asked' t' j, (k' < k)%nat → asks !! k' = Some asked' → ¬ leads asked' t' j) ∧
  ((∀ asked, asked ∈ asks → one_per_term asked) →
   (∃ asked t j, asked ∈ asks ∧ leads asked t j) →
   ∃ l, checkOneLeader_loop visit asks = Ret l).
Proof.
  intros Hv. induction asks as [|asked asks IH]; intros Hpos; simpl.
  { split; [done|]. intros _ (asked & ? & ? & Hin & _). by apply not_elem_of_nil in Hin. }
  destruct IH as [IH1 IH2]; [intros asked' t j Hin; apply Hpos; by right|].
  destruct (one_leader_iter_cases visit asked Hv) as [(Hu & Hno & ->)|[(Hu & t & l & Hl & Hmax & ->)
    |(Hu & e & ->)]]; [intros t j; apply Hpos; left|..]; simpl.
  - split.
    + intros l Hr. destruct (IH1 l Hr) as (k & asked' & t & Hk & Hu' & Hl & Hmax & Hbefore).
      exists (S k), asked', t. split_and!; [done..|].
      intros [|k'] asked2 t' j Hlt H2; simpl in H2; [by simplify_eq|]. eapply Hbefore; [|done]. lia.
    + intros Hall (asked' & t & j & [->|Hin]%elem_of_cons & Hj); [by apply Hno in Hj|].
      apply IH2; [intros asked2 ?; apply Hall; by right|eauto].
  - split; [|eauto]. intros l' ?. simplify_eq. exists 0%nat, asked, t.
    split_and!; [done..|]. intros k'. lia.
  - split; [done|]. intros Hall. destruct Hu. apply Hall. left.
Qed.

(** C22: checkOneLeader_correct: [checkOneLeader] returns a server that, in the first round in which
    anyone connected says that it leads, leads in the highest such term, and no other server
    claimed any one term; and it does return one when there is such a round and no round has
    two leaders in one term. *)
Theorem checkOneLeader_correct visit asks :
  (∀ m : gmap Z (list nat), visit m ≡ₚ map_to_list m) →
  (∀ k t j, leads (asks k) t j → 0 ≤ t) →
  (∀ l, checkOneLeader visit asks = Ret l →
    ∃ k t, (k < 10)%nat ∧ one_per_term (asks k) ∧ leads (asks k) t l ∧
      (∀ t' j, leads (asks k) t' j → t' ≤ t) ∧
      ∀ k' t' j, (k' < k)%nat → ¬ leads (asks k') t' j) ∧
  ((∀ k, (k < 10)%nat → one_per_term (asks k)) →
   (∃ k t j, (k < 10)%nat ∧ leads (asks k) t j) →
   ∃ l, checkOneLeader visit asks = Ret l).
Proof.
  intros Hv Hpos. unfold checkOneLeader.
  assert (Hin : ∀ asked, asked ∈ asks <$> seq 0 10 ↔ ∃ k, (k < 10)%nat ∧ asked = asks k).
  { intros asked. rewrite list_elem_of_fmap. setoid_rewrite elem_of_seq. naive_solver lia. }
  assert (Hat : ∀ k, (k < 10)%nat → (asks <$> seq 0 10) !! k = Some (asks k)).
  { intros k Hk. by rewrite list_lookup_fmap, lookup_seq_lt. }
  destruct (checkOneLeader_loop_spec visit (asks <$> seq 0 10) Hv) as [H1 H2].
  { intros asked t j (k & _ & ->)%Hin. apply Hpos. }
  split.
  - intros l Hl. destruct (H1 l Hl) as (k & asked & t & Hk & Hu & Hlead & Hmax & Hbefore).
    assert (Hk10 : (k < 10)%nat).
    { apply lookup_lt_Some in Hk. by rewrite length_fmap, length_seq in Hk. }
    rewrite Hat in Hk by done. injection Hk as <-. exists k, t. split_and!; [done..|].
    intros k' t' j Hlt. eapply Hbefore; [done|]. apply Hat. lia.
  - intros Hu (k & t & j & Hk & Hj). apply H2.
    + intros asked (k' & ? & ->)%Hin. by apply Hu.
    + exists (asks k), t, j. split; [|done]. apply Hin. eauto.
Qed.

(** ** Examples *)

Definition ex_msg (i : Z) (v : string) : ApplyMsg := mkApplyMsg true (any_string v) i false [] 0 0.

Lemma applier_agreement_witness :
  ∃ ts cmd, rt_run (makeTest 3) [Deliver 0 (ex_msg 1 "a"); Deliver 1 (ex_msg 1 "a"); Restart 0;
      Deliver 0 (ex_msg 1 "a"); Deliver 0 (ex_msg 2 "b")] = Ret ts ∧
    nCommitted ts 1 = Ret (2, cmd).
Proof.
  eexists. edestruct (applier_agreement 3 [Deliver 0 (ex_msg 1 "a"); Deliver 1 (ex_msg 1 "a");
    Restart 0; Deliver 0 (ex_msg 1 "a"); Deliver 0 (ex_msg 2 "b")]) as (_ & _ & H);
    [vm_compute; reflexivity|].
  destruct (H 1) as (cmd & Hc & _). exists cmd. split; [vm_compute; reflexivity|exact Hc].
Defined.

Definition ex_asks (k : nat) : list Asked :=
  match k with O => [Some (1, false); None; Some (1, false)] | _ => [Some (2, true); None; Some (1, true)] end.

Lemma checkOneLeader_correct_witness : ∃ l, checkOneLeader map_to_list ex_asks = Ret l.
Proof.
  assert (Hl : ∀ k t j, leads (ex_asks k) t j → (t = 2 ∧ j = 0%nat) ∨ (t = 1 ∧ j = 2%nat)).
  { intros [|k] t [|[|[|j]]]; unfold leads; simpl; naive_solver. }
  destruct (checkOneLeader_correct map_to_list ex_asks) as [_ H]; [done| |].
  - intros k t j [[-> _]|[-> _]]%Hl; lia.
  - apply H.
    + intros k _ t j j' H1%Hl H2%Hl. lia.
    + exists 1%nat, 2, 0%nat. split; [lia|done].
Defined.
