(* ===== verification/RaftAgree.v ===== *)
(** * Agreement in the Raft tests ([raft1/test.go], [raft1/server.go])

    [one] submits a command and waits until enough servers have committed it, [wait] waits for
    an index, and a reader of the apply channel that is restarted from its snapshot. The clock
    and the servers are inputs: a round of [one] is what the servers answer to [Start] and
    the states of the readers at the polls of the two seconds that follow. *)

From S2P Require Export RaftTest Persister.

Local Open Scope Z_scope.

(** ** [one] *)

(** What a server answers to [Start] when it is tried: the index and whether it leads;
    [None] when it is not connected or has no Raft peer. *)
Abbreviation Answer := (option (Z * bool)) (only parsing).

Record Round := mkRound { rd_start : nat → Answer; rd_polls : list RfTest }.

(** The loop over all servers; [k] tries are left. Also the last server tried. *)
Fixpoint try_servers (k n starts : nat) (ask : nat → Answer) : nat * Z :=
  match k with
  | O => (starts, -1)
  | S k =>
      let starts := (S starts `mod` n)%nat in
      match ask starts with
      | Some (index1, true) => (starts, index1)
      | _ => try_servers k n starts ask
      end
  end.

(** The polls of two seconds: is the command committed? *)
Fixpoint await_commit (polls : list RfTest) (index : Z) (cmd : any) (expectedServers : Z)
    : outcome bool :=
  match polls with
  | [] => Ret false
  | ts :: polls =>
      '(nd, cmd1) ← nCommitted ts index;
      if bool_decide (0 < nd) && bool_decide (expectedServers ≤ nd) && bool_decide (cmd1 = cmd)
      then Ret true
      else await_commit polls index cmd expectedServers
  end.

(** The rounds that start within ten seconds and before the test is finished, and whether it is
    finished when they are over. *)
Fixpoint one_loop (n : nat) (cmd : any) (expectedServers : Z) (retry : bool) (starts : nat)
    (rounds : list Round) (finished : bool) : outcome Z :=
  match rounds with
  | [] => if finished then Ret (-1) else Fatal "failed to reach agreement"
  | rd :: rounds =>
      let '(starts, index) := try_servers n n starts (rd_start rd) in
      if bool_decide (index ≠ -1) then
        committed ← await_commit (rd_polls rd) index cmd expectedServers;
        if committed : bool then Ret index
        else if retry then one_loop n cmd expectedServers retry starts rounds finished
        else Fatal "failed to reach agreement"
      else one_loop n cmd expectedServers retry starts rounds finished
  end.

Definition one (n : nat) (cmd : any) (expectedServers : Z) (retry : bool) (rounds : list Round)
    (finished : bool) : outcome Z :=
  one_loop n cmd expectedServers retry 0 rounds finished.

(** ** [wait] *)

(** The loop that asks the servers for their terms; [None] is a server whose peer is nil. *)
Fixpoint moved_on (terms : list (option Z)) (startTerm : Z) : outcome bool :=
  match terms with
  | [] => Ret false
  | None :: _ => Panic "nil pointer dereference"
  | Some t :: terms => if bool_decide (startTerm < t) then Ret true else moved_on terms startTerm
  end.

(** At most thirty iterations: the readers and the terms in each; has a server moved on? *)
Fixpoint wait_loop (iters : list (RfTest * list (option Z))) (index n startTerm : Z)
    : outcome bool :=
  match iters with
  | [] => Ret false
  | (ts, terms) :: iters =>
      '(nd, _) ← nCommitted ts index;
      if bool_decide (n ≤ nd) then Ret false
      else if bool_decide (-1 < startTerm) then
        moved ← moved_on terms startTerm;
        if moved : bool then Ret true else wait_loop iters index n startTerm
      else wait_loop iters index n startTerm
  end.

Definition wait (iters : nat → RfTest * list (option Z)) (last : RfTest) (index n startTerm : Z)
    : outcome any :=
  moved ← wait_loop (iters <$> seq 0 30) index n startTerm;
  if moved : bool then Ret (any_int (-1))
  else
    '(nd, cmd) ← nCommitted last index;
    if bool_decide (nd < n) then Fatal "too few servers decided" else Ret cmd.

(** ** Lemmas *)

(** Every committed entry at [index] is [cmd]. *)
Definition all_hold (ts : RfTest) (index : Z) (cmd : any) : Prop :=
  ∀ a va, a ∈ tst_srvs ts → Logs a index = Some va → va = cmd.

Lemma nCommitted_loop_Ret srvs index count cmd n cmd' :
  0 ≤ count → nCommitted_loop srvs index count cmd = Ret (n, cmd') →
  n = count + Z.of_nat (length (committed srvs index)) ∧
  (∀ a va, a ∈ srvs → Logs a index = Some va → va = cmd') ∧
  (0 < count → cmd' = cmd).
Proof.
  revert count cmd. induction srvs as [|rs srvs IH]; intros count cmd Hc Hr; simpl in Hr.
  { simplify_eq. split_and!; [simpl; lia|set_solver|done]. }
  case_bool_decide; [done|]. unfold committed. destruct (Logs rs index) as [v|] eqn:E.
  - rewrite filter_cons_True by (by eexists). destruct (_ && _) eqn:Hno in Hr; [done|].
    apply IH in Hr as (-> & Hall & Hlast); [|lia]. specialize (Hlast ltac:(lia)) as ->.
    unfold committed. simpl. split_and!; [lia| |].
    + intros a va [->|Ha]%elem_of_cons Hl; [congruence|by eapply Hall].
    + intros Hp. rewrite bool_decide_eq_true_2 in Hno by done.
      apply bool_decide_eq_false in Hno. by destruct (decide (cmd = v)).
  - rewrite filter_cons_False by (intros [? ?]; congruence).
    apply IH in Hr as (-> & Hall & Hlast); [|done]. split_and!; [done| |done].
    intros a va [->|Ha]%elem_of_cons Hl; [congruence|by eapply Hall].
Qed.

Lemma nCommitted_Ret ts index n cmd :
  nCommitted ts index = Ret (n, cmd) →
  n = Z.of_nat (length (committed (tst_srvs ts) index)) ∧ all_hold ts index cmd.
Proof. intros H. by apply nCommitted_loop_Ret in H as (-> & ? & _). Qed.

Lemma nCommitted_agreed ts index :
  agreed ts →
  ∃ cmd, nCommitted ts index = Ret (Z.of_nat (length (committed (tst_srvs ts) index)), cmd) ∧
    all_hold ts index cmd.
Proof.
  intros [H1 _ H3 _]. destruct (nCommitted_loop_agreed (tst_srvs ts) index 0 any_nil)
    as (cmd & E & Hall & _); [done| |lia|lia|eauto]. intros a b va vb Ha Hb. by apply H1.
Qed.

(** The servers are tried in a circle, from the one after [starts]. *)
Lemma try_servers_spec k n starts ask s i :
  try_servers k n starts ask = (s, i) →
  (∃ j, (j < k)%nat ∧ s = ((starts + S j) `mod` n)%nat ∧ ask s = Some (i, true)) ∨
  (i = -1 ∧ ∀ j idx, (j < k)%nat → ask ((starts + S j) `mod` n)%nat ≠ Some (idx, true)).
Proof.
  revert starts. induction k as [|k IH]; intros starts Ht; simpl in Ht.
  { simplify_eq. right. split; [done|]. intros; lia. }
  assert (Hnext : ∀ (Hno : ∀ idx, ask (S starts `mod` n)%nat ≠ Some (idx, true)),
    try_servers k n (S starts `mod` n) ask = (s, i) →
    (∃ j, (j < S k)%nat ∧ s = ((starts + S j) `mod` n)%nat ∧ ask s = Some (i, true)) ∨
    (i = -1 ∧ ∀ j idx, (j < S k)%nat → ask ((starts + S j) `mod` n)%nat ≠ Some (idx, true))).
  { intros Hno Hrec. destruct (IH _ Hrec) as [(j & Hj & -> & Ha)|[-> Hall]].
    - left. exists (S j). split_and!; [lia| |done].
      apply (mod_succ_l n starts (S j)).
    - right. split; [done|]. intros [|j] idx Hj.
      + replace (starts + 1)%nat with (S starts) by lia. apply Hno.
      + replace (starts + S (S j))%nat with (S starts + S j)%nat by lia.
        rewrite <- Nat.Div0.add_mod_idemp_l. apply Hall. lia. }
  destruct (ask (S starts `mod` n)%nat) as [[idx []]|] eqn:E.
  - simplify_eq. left. exists 0%nat. split_and!; [lia| |done]. f_equal. lia.
  - by apply Hnext.
  - by apply Hnext.
Qed.

(** All servers are tried before the loop gives up. *)
Lemma try_servers_all n starts ask s i :
  try_servers n n starts ask = (s, i) →
  ((s < n)%nat ∧ ask s = Some (i, true)) ∨
  (i = -1 ∧ ∀ s' idx, (s' < n)%nat → ask s' ≠ Some (idx, true)).
Proof.
  intros Ht. apply try_servers_spec in Ht as [(j & Hj & -> & Ha)|[-> Hall]].
  - left. split; [apply Nat.mod_upper_bound; lia|done].
  - right. split; [done|]. intros s' idx Hs.
    destruct (cyclic_cover n (S starts) s' Hs) as (j & Hj & <-).
    replace (S starts + j)%nat with (starts + S j)%nat by lia. by apply Hall.
Qed.

(** Enough servers have committed [cmd] at [index], and nobody anything else. *)
Definition agreement (ts : RfTest) (index : Z) (cmd : any) (expectedServers : Z) : Prop :=
  (1 ≤ length (committed (tst_srvs ts) index))%nat ∧
  expectedServers ≤ Z.of_nat (length (committed (tst_srvs ts) index)) ∧
  all_hold ts index cmd.

Lemma await_commit_Ret polls index cmd expectedServers :
  await_commit polls index cmd expectedServers = Ret true →
  ∃ ts, ts ∈ polls ∧ agreement ts index cmd expectedServers.
Proof.
  induction polls as [|ts polls IH]; intros Hr; simpl in Hr; [done|].
  destruct (nCommitted ts index) as [[nd cmd1]| |] eqn:E; simpl in Hr; try done.
  apply nCommitted_Ret in E as [-> Hall]. destruct (_ && _) eqn:Hd in Hr.
  - apply andb_true_iff in Hd as [[H1 H2]%andb_true_iff H3].
    apply bool_decide_eq_true in H1, H2, H3. subst. exists ts. split; [left|].
    split_and!; [lia|done|done].
  - destruct (IH Hr) as (ts' & ? & ?). exists ts'. split; [by right|done].
Qed.

Lemma committed_cons_inv srvs index : (1 ≤ length (committed srvs index))%nat →
  ∃ a v, a ∈ srvs ∧ Logs a index = Some v.
Proof.
  unfold committed. intros Hl. destruct (filter _ srvs) as [|a l] eqn:E; [simpl in Hl; lia|].
  assert (Ha : a ∈ filter (λ rs, is_Some (Logs rs index)) srvs) by (rewrite E; left).
  apply list_elem_of_filter in Ha as [[v ?] ?]. eauto.
Qed.

Lemma await_commit_total polls index cmd expectedServers :
  (∀ ts, ts ∈ polls → agreed ts) →
  ∃ b : bool, await_commit polls index cmd expectedServers = Ret b ∧
    ((∃ ts, ts ∈ polls ∧ agreement ts index cmd expectedServers) → b = true).
Proof.
  induction polls as [|ts polls IH]; intros Hag; simpl.
  { exists false. split; [done|]. set_solver. }
  destruct (nCommitted_agreed ts index (Hag ts ltac:(left))) as (cmd1 & -> & Hall). simpl.
  destruct IH as (b & Hb & Htrue); [intros; apply Hag; by right|].
  destruct (_ && _) eqn:Hd; [by exists true|]. exists b. split; [done|].
  intros (ts' & [->|Hin]%elem_of_cons & H1 & H2 & H3); [|apply Htrue; by exists ts'].
  destruct (committed_cons_inv _ _ H1) as (a & v & Ha & Hl).
  rewrite !bool_decide_eq_true_2 in Hd; [done| |lia|lia].
  by rewrite <- (Hall a v Ha Hl), <- (H3 a v Ha Hl).
Qed.

Lemma one_loop_Ret n cmd expectedServers retry starts rounds finished i :
  one_loop n cmd expectedServers retry starts rounds finished = Ret i →
  (i = -1 ∧ finished = true) ∨
  ∃ rd s ts, rd ∈ rounds ∧ (s < n)%nat ∧ rd_start rd s = Some (i, true) ∧
    ts ∈ rd_polls rd ∧ agreement ts i cmd expectedServers.
Proof.
  revert starts. induction rounds as [|rd rounds IH]; intros starts Hr; simpl in Hr.
  { destruct finished; simplify_eq. by left. }
  assert (Hlift : ∀ starts,
    one_loop n cmd expectedServers retry starts rounds finished = Ret i →
    (i = -1 ∧ finished = true) ∨
    ∃ rd0 s ts, rd0 ∈ rd :: rounds ∧ (s < n)%nat ∧ rd_start rd0 s = Some (i, true) ∧
      ts ∈ rd_polls rd0 ∧ agreement ts i cmd expectedServers).
  { intros st H. destruct (IH st H) as [?|(rd' & s & ts & ? & ?)]; [by left|].
    right. exists rd', s, ts. split; [by right|done]. }
  destruct (try_servers n n starts (rd_start rd)) as [s idx] eqn:Et.
  case_bool_decide as Hidx; [|by eapply Hlift].
  destruct (await_commit _ _ _ _) as [[]| |] eqn:Ea; simpl in Hr; [| |done..].
  - simplify_eq. right. apply await_commit_Ret in Ea as (ts & Hin & Hag).
    apply try_servers_all in Et as [[Hs Ha]|[? _]]; [|done].
    exists rd, s, ts. split; [left|done].
  - destruct retry; [by eapply Hlift|done].
Qed.

(** In round [rd] somebody accepts, and whoever accepts sees the command committed. *)
Definition good_round (n : nat) (cmd : any) (expectedServers : Z) (rd : Round) : Prop :=
  (∃ s i, (s < n)%nat ∧ rd_start rd s = Some (i, true)) ∧
  ∀ s i, (s < n)%nat → rd_start rd s = Some (i, true) →
    i ≠ -1 ∧ ∃ ts, ts ∈ rd_polls rd ∧ agreement ts i cmd expectedServers.

(** In round [rd] nobody accepts. *)
Definition idle_round (n : nat) (rd : Round) : Prop :=
  ∀ s i, (s < n)%nat → rd_start rd s ≠ Some (i, true).

Lemma one_loop_total n cmd expectedServers (retry : bool) starts rounds finished k rd :
  (∀ rd ts, rd ∈ rounds → ts ∈ rd_polls rd → agreed ts) →
  rounds !! k = Some rd → good_round n cmd expectedServers rd →
  (if retry then True else ∀ j rd', (j < k)%nat → rounds !! j = Some rd' → idle_round n rd') →
  ∃ i, i ≠ -1 ∧ one_loop n cmd expectedServers retry starts rounds finished = Ret i.
Proof.
  revert starts k. induction rounds as [|rd0 rounds IH]; intros starts k Hag Hk Hgood Hretry; [done|].
  simpl. destruct (try_servers n n starts (rd_start rd0)) as [s idx] eqn:Et.
  apply try_servers_all in Et.
  destruct (await_commit_total (rd_polls rd0) idx cmd expectedServers) as (b & -> & Hb).
  { intros ts. apply Hag. left. }
  assert (Hrest : ∀ k', k = S k' →
    ∃ i, i ≠ -1 ∧ one_loop n cmd expectedServers retry s rounds finished = Ret i).
  { intros k' ->. apply (IH s k'); [|done|done|].
    - intros rd' ts Hin. apply Hag. by right.
    - destruct retry; [done|]. intros j rd' Hj. apply (Hretry (S j)). lia. }
  case_bool_decide as Hidx; simpl.
  - destruct Et as [[Hs Ha]|[? _]]; [|done]. destruct k as [|k].
    + simpl in Hk. simplify_eq. destruct Hgood as [_ Hgood]. destruct (Hgood s idx Hs Ha) as [_ Hts].
      rewrite Hb by done. eauto.
    + destruct b; [eauto|]. destruct retry; [by eapply Hrest|].
      exfalso. by eapply (Hretry 0%nat rd0 ltac:(lia) eq_refl s idx).
  - destruct k as [|k]; [|by eapply Hrest]. simpl in Hk. simplify_eq.
    destruct Hgood as [(s' & i & Hs' & Ha') Hgood]. exfalso.
    destruct Et as [[Hs Ha]|[_ Hno]]; [by destruct (Hgood s _ Hs Ha)|by eapply Hno].
Qed.

(** ** Properties *)

(** C21: one_correct: an index that [one] returns really is an agreement.
    Unless the test was finished (-1), some server accepted the command under the returned index,
    and at a later poll at least the expected number of servers, and at least one, had committed
    it there and nobody had committed anything else. And [one] does return an index when in
    some round a server accepts and every server that accepts then sees its command committed,
    provided the readers agree at every poll and, without [retry], nobody accepted in an
    earlier round. *)
Theorem one_correct n cmd expectedServers (retry : bool) rounds finished :
  (∀ i, one n cmd expectedServers retry rounds finished = Ret i →
    (i = -1 ∧ finished = true) ∨
    ∃ rd s ts, rd ∈ rounds ∧ (s < n)%nat ∧ rd_start rd s = Some (i, true) ∧
      ts ∈ rd_polls rd ∧ agreement ts i cmd expectedServers) ∧
  (∀ k rd, (∀ rd ts, rd ∈ rounds → ts ∈ rd_polls rd → agreed ts) →
    rounds !! k = Some rd → good_round n cmd expectedServers rd →
    (if retry then True else ∀ j rd', (j < k)%nat → rounds !! j = Some rd' → idle_round n rd') →
    ∃ i, i ≠ -1 ∧ one n cmd expectedServers retry rounds finished = Ret i).
Proof.
  split.
  - intros i. apply one_loop_Ret.
  - intros k rd. apply one_loop_total.
Qed.

(** With the [Start] of the Raft peer as it stands no index is ever agreed on. *)
Lemma one_skeleton n cmd expectedServers retry rounds finished :
  (∀ rd s a, rd ∈ rounds → rd_start rd s = Some a → ∃ rf, Start rf cmd = (a.1, -1, a.2)) →
  one n cmd expectedServers retry rounds finished =
    if finished then Ret (-1) else Fatal "failed to reach agreement".
Proof.
  unfold one. generalize 0%nat as starts.
  induction rounds as [|rd rounds IH]; intros starts Hs; simpl; [done|].
  destruct (try_servers n n starts (rd_start rd)) as [s idx] eqn:Et.
  assert (idx = -1) as ->.
  { apply try_servers_all in Et as [[_ Ha]|[-> _]]; [|done].
    destruct (Hs rd s _ ltac:(left) Ha) as [rf Hrf]. unfold Start in Hrf. by simplify_eq. }
  rewrite bool_decide_eq_false_2 by naive_solver. apply IH. intros rd' s' a Hin. apply Hs. by right.
Qed.

Lemma moved_on_Ret terms startTerm b :
  moved_on terms startTerm = Ret b →
  b = true ↔ ∃ s t, terms !! s = Some (Some t) ∧ startTerm < t.
Proof.
  induction terms as [|[t|] terms IH]; simpl; intros Hr; [|case_bool_decide|done].
  - simplify_eq. split; [done|]. by intros (s & t & ? & _).
  - simplify_eq. split; [|done]. intros _. by exists 0%nat, t.
  - rewrite (IH Hr). split; intros (s & t' & Hs & Ht).
    + by exists (S s), t'.
    + destruct s as [|s]; simpl in Hs; [simplify_eq; lia|by exists s, t'].
Qed.

(** Fewer than [n] servers have committed [index]. *)
Definition too_few (ts : RfTest) (index n : Z) : Prop :=
  Z.of_nat (length (committed (tst_srvs ts) index)) < n.

Lemma wait_loop_Ret iters index n startTerm :
  wait_loop iters index n startTerm = Ret true →
  ∃ k ts terms s t, iters !! k = Some (ts, terms) ∧ too_few ts index n ∧
    terms !! s = Some (Some t) ∧ -1 < startTerm < t.
Proof.
  induction iters as [|[ts terms] iters IH]; intros Hr; simpl in Hr; [done|].
  destruct (nCommitted ts index) as [[nd c]| |] eqn:E; simpl in Hr; try done.
  apply nCommitted_Ret in E as [-> _]. case_bool_decide as Hn; [done|].
  assert (Hlift : wait_loop iters index n startTerm = Ret true →
    ∃ k ts' terms' s t, ((ts, terms) :: iters) !! k = Some (ts', terms') ∧ too_few ts' index n ∧
      terms' !! s = Some (Some t) ∧ -1 < startTerm < t).
  { intros H. destruct (IH H) as (k & ? & ? & ? & ? & ? & ?). eexists (S k), _, _, _, _. eauto. }
  case_bool_decide as Hst; [|by apply Hlift].
  destruct (moved_on terms startTerm) as [[]| |] eqn:Em; simpl in Hr; try done; [|by apply Hlift].
  apply moved_on_Ret in Em as [Em _]. destruct (Em eq_refl) as (s & t & Hs & Ht).
  exists 0%nat, ts, terms, s, t. split_and!; [done|unfold too_few; lia|done|lia|lia].
Qed.

Lemma moved_on_none terms startTerm :
  (∀ s o, terms !! s = Some o → ∃ t, o = Some t ∧ t ≤ startTerm) → moved_on terms startTerm = Ret false.
Proof.
  induction terms as [|o terms IH]; intros Ht; simpl; [done|].
  destruct (Ht 0%nat o eq_refl) as (t & -> & Hle).
  rewrite bool_decide_eq_false_2 by lia. apply IH. intros s. apply (Ht (S s)).
Qed.

Lemma wait_loop_quiet iters index n startTerm :
  (∀ ts terms, (ts, terms) ∈ iters → agreed ts ∧
    (-1 < startTerm → ∀ s o, terms !! s = Some o → ∃ t, o = Some t ∧ t ≤ startTerm)) →
  wait_loop iters index n startTerm = Ret false.
Proof.
  induction iters as [|[ts terms] iters IH]; intros Hall; simpl; [done|].
  destruct (Hall ts terms ltac:(left)) as [Hag Hq].
  destruct (nCommitted_agreed ts index Hag) as (c & -> & _). simpl.
  case_bool_decide; [done|]. specialize (IH ltac:(intros; apply Hall; by right)).
  case_bool_decide as Hst; [|done]. by rewrite (moved_on_none terms startTerm (Hq Hst)).
Qed.

(** Wait_correct: what [wait] returns, and when it returns the command.
    The value is the command that at least [n] servers hold at [index] when the loop is over, and
    all that have committed the index hold it; or it is -1, and then in some iteration fewer
    than [n] servers had committed and a server's term was beyond [startTerm], which was not
    negative. If the readers agree throughout, no server is down or moves on, and [n] servers
    commit in the end, then it returns their command. *)
Theorem wait_correct iters last index n startTerm :
  (∀ v, wait iters last index n startTerm = Ret v →
    (v = any_int (-1) ∧ ∃ k s t, (k < 30)%nat ∧ too_few (iters k).1 index n ∧
       (iters k).2 !! s = Some (Some t) ∧ -1 < startTerm < t) ∨
    (¬ too_few last index n ∧ all_hold last index v)) ∧
  ((∀ k, (k < 30)%nat → agreed (iters k).1 ∧
      (-1 < startTerm → ∀ s o, (iters k).2 !! s = Some o → ∃ t, o = Some t ∧ t ≤ startTerm)) →
   agreed last → ¬ too_few last index n →
   ∃ v, wait iters last index n startTerm = Ret v ∧ all_hold last index v).
Proof.
  assert (Hin : ∀ p, p ∈ iters <$> seq 0 30 ↔ ∃ k, (k < 30)%nat ∧ p = iters k).
  { intros p. rewrite list_elem_of_fmap. setoid_rewrite elem_of_seq. naive_solver lia. }
  unfold wait. split.
  - intros v Hr. destruct (wait_loop _ _ _ _) as [[]| |] eqn:E; simpl in Hr; try done.
    + simplify_eq. left. split; [done|].
      apply wait_loop_Ret in E as (k & ts & terms & s & t & Hk & Hfew & Hs & Ht).
      apply list_elem_of_lookup_2, Hin in Hk as (k' & ? & Heq). exists k', s, t.
      by rewrite <- Heq.
    + right. destruct (nCommitted last index) as [[nd c]| |] eqn:En; simpl in Hr; try done.
      apply nCommitted_Ret in En as [-> Hall]. case_bool_decide; simplify_eq. done.
  - intros Hq Hag Hn. rewrite wait_loop_quiet.
    + simpl. destruct (nCommitted_agreed last index Hag) as (c & -> & Hall). simpl.
      rewrite bool_decide_eq_false_2 by done. eauto.
    + intros ts terms (k & Hk & Heq)%Hin. specialize (Hq k Hk). by rewrite <- Heq in Hq.
Qed.

(** A server that was killed has no peer to ask, and asking it panics. *)
Lemma wait_killed_panics iters last index n startTerm c terms :
  nCommitted (iters 0%nat).1 index = Ret (0, c) → 0 < n → -1 < startTerm →
  (iters 0%nat).2 = None :: terms →
  wait iters last index n startTerm = Panic "nil pointer dereference".
Proof.
  intros Hc Hn Hst Ht. unfold wait. change (seq 0 30) with (0%nat :: seq 1 29).
  rewrite fmap_cons. generalize (iters <$> seq 1 29) as rest. intros rest.
  destruct (iters 0%nat) as [ts terms0]. simpl in *. subst terms0. rewrite Hc. simpl.
  rewrite bool_decide_eq_false_2, bool_decide_eq_true_2 by lia. done.
Qed.

(** ** Examples *)

(** Servers 0 and 1 have committed "x" at index 1. *)
Definition ex_committed : RfTest :=
  let rs := mkRfsrv "" 0 {[1 := any_string "x"]} in mkRfTest [rs; rs; newRfsrv0] 1.

Lemma ex_committed_agreed : agreed ex_committed.
Proof.
  apply (agreed_run [Deliver 0 (ex_msg 1 "x"); Deliver 1 (ex_msg 1 "x")] (makeTest 3));
    [apply agreed_init|]. reflexivity.
Qed.

(** In the first round nobody leads; then server 2 accepts, and the second poll succeeds. *)
Definition ex_rounds : list Round :=
  [mkRound (λ s, if decide (s = 0)%nat then Some (1, false) else None) [];
   mkRound (λ s, if decide (s = 2)%nat then Some (1, true) else Some (1, false))
     [makeTest 3; ex_committed]].

Lemma one_correct_witness :
  ∃ i, i ≠ -1 ∧ one 3 (any_string "x") 2 false ex_rounds false = Ret i.
Proof.
  destruct (one_correct 3 (any_string "x") 2 false ex_rounds false) as [_ H].
  eapply (H 1%nat); [|reflexivity| |].
  - intros rd ts [->|[->|[]%not_elem_of_nil]%elem_of_cons]%elem_of_cons; simpl;
      [by intros []%not_elem_of_nil|].
    intros [->|[->|[]%not_elem_of_nil]%elem_of_cons]%elem_of_cons;
      [apply agreed_init|apply ex_committed_agreed].
  - split; [by exists 2%nat, 1; split; [lia|]|]. intros s i Hs. simpl.
    destruct (decide (s = 2)%nat) as [->|]; intros [= <-]. split; [done|].
    exists ex_committed. split; [right; left|]. split_and!; [vm_compute; lia|vm_compute; discriminate|].
    intros a va [->|[->|[->|[]%not_elem_of_nil]%elem_of_cons]%elem_of_cons]%elem_of_cons Hl;
      vm_compute in Hl; by simplify_eq.
  - intros [|j] rd' Hj Hrd; [|lia]. simpl in Hrd. simplify_eq. intros s i Hs. simpl.
    by destruct (decide (s = 0)%nat).
Defined.

Lemma wait_correct_witness :
  ∃ v, wait (λ _, (makeTest 3, [Some 1; Some 1; Some 0])) ex_committed 1 2 1 = Ret v ∧
    all_hold ex_committed 1 v.
Proof.
  destruct (wait_correct (λ _, (makeTest 3, [Some 1; Some 1; Some 0])) ex_committed 1 2 1) as [_ H].
  apply H.
  - intros k _. split; [apply agreed_init|]. intros _ [|[|[|s]]] o Ho; simpl in Ho; simplify_eq;
      eexists; (split; [done|lia]).
  - apply ex_committed_agreed.
  - vm_compute. by intros ?.
Defined.
