(* ===== verification/RaftReader.v ===== *)
(** * Readers with snapshots ([raft1/server.go])

    [applierSnap] takes a snapshot of its copy every tenth command; a server that starts
    again reads the snapshot that its persister holds. A reader that was restarted from the
    snapshot it has just taken is as good as the one it replaces. The encoding of snapshots
    is a parameter. *)

From S2P Require Export RaftTest Persister.

Local Open Scope Z_scope.

Section Readers.

Context (enc : Z * list any → list Z) (dec : list Z → option (Z * list any)).

(** The reader of a new server that finds [snapshot] in its persister. *)
Definition restore_reader (snapshot : list Z) : outcome Rfsrv :=
  if bool_decide (0 < length snapshot)%nat then
    '(rs, ok) ← ingestSnap newRfsrv0 (Some (dec snapshot)) (-1);
    if ok : bool then Ret rs else Fatal "failed to ingest snapshot"
  else Ret newRfsrv0.

(** [newRfsrv]: the heap, the reader and the peer of a server; [snapshot] tells whether the
    test uses snapshots. *)
Definition newRfsrv (h : Heap) (ps : Persister) (snapshot : bool) (peers me rnd now : Z)
    : outcome (Heap * Rfsrv * Raft) :=
  let '(h, r) := ReadRaftState h ps in
  let rf := Make peers me (slice_bytes h (Some r)) rnd now in
  if snapshot then
    let '(h, s) := ReadSnapshot h ps in
    rs ← restore_reader (slice_bytes h (Some s));
    Ret (h, rs, rf)
  else Ret (h, newRfsrv0, rf).

(** [Kill]: the peer is gone, and what the persister holds is written back to it. *)
Definition rfsrv_Kill (h : Heap) (ps : option Persister) : Heap * option Persister * option Raft :=
  match ps with
  | Some ps =>
      let '(h, raftlog) := ReadRaftState h ps in
      let '(h, snapshot) := ReadSnapshot h ps in
      let '(h, ps) := Save h ps (Some raftlog) (Some snapshot) in
      (h, Some ps, None)
  | None => (h, None, None)
  end.

Definition rfsrv_GetState (raft : option Raft) : outcome (Z * bool) :=
  match raft with Some rf => Ret (GetState rf) | None => Panic "nil pointer dereference" end.

Definition rfsrv_Raft (raft : option Raft) : option Raft := raft.

(** What happens to the readers of a test with snapshots: a message for reader [i], or a restart
    of server [i] whose persister holds [snapshot]. *)
Inductive SnCmd := SnDeliver (i : nat) (m : ApplyMsg) | SnRestart (i : nat) (snapshot : list Z).

(** The snapshot in a message, decoded; there is none in a nil slice. *)
Definition decoded (m : ApplyMsg) : option (option (Z * list any)) :=
  match am_Snapshot m with [] => None | b => Some (dec b) end.

(** [mksrv] with snapshots. *)
Definition restarted (ts : RfTest) (i : nat) (snapshot : list Z) : outcome RfTest :=
  rs ← restore_reader snapshot;
  srvs ← set_index (tst_srvs ts) i rs;
  Ret (mkRfTest srvs (tst_maxIndex ts)).

(** One command, with the snapshot that the reader takes, if any. *)
Definition sn_cmd (ts : RfTest) (c : SnCmd) : outcome (RfTest * option (list Z)) :=
  match c with
  | SnDeliver i m =>
      '(ts, snap) ← applierSnap_msg ts i m (decoded m);
      Ret (ts, (enc <$> snap) : option (list Z))
  | SnRestart i snapshot =>
      ts ← restarted ts i snapshot;
      Ret (ts, None)
  end.

Definition sn_run (ts : RfTest) (cs : list SnCmd) : outcome (RfTest * list (option (list Z))) :=
  run_list sn_cmd ts cs.

(** ** Readers that have applied 1 to [rs_lastApplied] *)

Record reader_ok (rs : Rfsrv) : Prop := {
  ro_pos : 0 ≤ rs_lastApplied rs;
  ro_dense j : j ≠ 0 → is_Some (Logs rs j) ↔ 1 ≤ j ≤ rs_lastApplied rs
}.

Definition readers_ok (ts : RfTest) : Prop := ∀ rs, rs ∈ tst_srvs ts → reader_ok rs.

(** A snapshot of the entries 0 to [k]. *)
Definition snap_wf (snap : Z * list any) : Prop :=
  0 ≤ snap.1 ∧ Z.of_nat (length snap.2) = snap.1 + 1.

(** The snapshots that a command brings along decode to such. *)
Definition cmd_wf (c : SnCmd) : Prop :=
  ∀ snap, match c with
          | SnDeliver _ m => dec (am_Snapshot m) = Some snap
          | SnRestart _ b => dec b = Some snap
          end → snap_wf snap.

(** Equal but for an entry 0, which a restored reader has and others do not: it is nil. *)
Record reader_equiv (rs rs' : Rfsrv) : Prop := {
  re_err : rs_applyErr rs = rs_applyErr rs';
  re_last : rs_lastApplied rs = rs_lastApplied rs';
  re_logs j : j ≠ 0 → Logs rs j = Logs rs' j;
  re_zero : map_get any_nil (rs_logs rs) 0 = map_get any_nil (rs_logs rs') 0
}.

Record ts_equiv (ts ts' : RfTest) : Prop := {
  te_srvs : Forall2 reader_equiv (tst_srvs ts) (tst_srvs ts');
  te_max : tst_maxIndex ts = tst_maxIndex ts'
}.

#[export] Instance reader_equiv_refl : Reflexive reader_equiv.
Proof. by split. Qed.

#[export] Instance ts_equiv_refl : Reflexive ts_equiv.
Proof. split; [apply Forall_Forall2_diag, Forall_true; done|done]. Qed.

Lemma newRfsrv0_ok : reader_ok newRfsrv0.
Proof.
  split; [done|]. intros j Hj. unfold Logs. simpl. rewrite lookup_empty.
  split; [by intros [? ?]|lia].
Qed.

Lemma readers_ok_init n : readers_ok (makeTest n).
Proof. intros rs ->%elem_of_replicate_inv. apply newRfsrv0_ok. Qed.

Lemma readers_ok_insert ts i rs m :
  readers_ok ts → reader_ok rs → readers_ok (mkRfTest (<[i := rs]> (tst_srvs ts)) m).
Proof. intros H Hrs a [->|Ha]%elem_of_insert_inv; [done|by apply H]. Qed.

(** The copy that is read from a snapshot. *)
Lemma ingest_logs (xlog : list any) j :
  (list_to_map (zip (Z.of_nat <$> seq 0 (length xlog)) xlog) : gmap Z any) !! j =
    if decide (0 ≤ j) then xlog !! Z.to_nat j else None.
Proof.
  assert (Hgen : ∀ s, (list_to_map (zip (Z.of_nat <$> seq s (length xlog)) xlog) : gmap Z any) !! j =
    if decide (Z.of_nat s ≤ j) then xlog !! Z.to_nat (j - Z.of_nat s) else None).
  { induction xlog as [|x xlog IH]; intros s; simpl.
    - rewrite lookup_empty. by case_decide; rewrite ?lookup_nil.
    - destruct (decide (j = Z.of_nat s)) as [->|Hne].
      + rewrite lookup_insert_eq, decide_True by lia. by rewrite Z.sub_diag.
      + rewrite lookup_insert_ne, IH by done. destruct (decide (Z.of_nat (S s) ≤ j)).
        * rewrite decide_True by lia.
          by replace (Z.to_nat (j - Z.of_nat s)) with (S (Z.to_nat (j - Z.of_nat (S s)))) by lia.
        * by rewrite decide_False by lia. }
  rewrite (Hgen 0%nat). by rewrite Z.sub_0_r.
Qed.

Lemma ingestSnap_ok rs d idx rs' ok :
  (∀ snap, d = Some (Some snap) → snap_wf snap) → reader_ok rs →
  ingestSnap rs d idx = Ret (rs', ok) → reader_ok rs'.
Proof.
  intros Hd Hrs Hr. unfold ingestSnap in Hr. destruct d as [[[k xlog]|]|]; try done.
  destruct (_ && _); simplify_eq; [done|]. destruct (Hd _ eq_refl) as [Hk Hlen]. simpl in *.
  split; simpl; [done|]. intros j Hj. unfold Logs. simpl. rewrite ingest_logs. case_decide.
  - rewrite lookup_lt_is_Some. lia.
  - split; [by intros [? ?]|lia].
Qed.

Lemma restore_reader_ok b rs :
  (∀ snap, dec b = Some snap → snap_wf snap) → restore_reader b = Ret rs → reader_ok rs.
Proof.
  unfold restore_reader. intros Hb Hr. case_bool_decide; [|simplify_eq; apply newRfsrv0_ok].
  apply bind_Ret_inv in Hr as ([rs1 ok] & E & Hok). destruct ok; simplify_eq.
  eapply ingestSnap_ok; [|apply newRfsrv0_ok|done]. intros snap [= Hs]. by apply Hb.
Qed.

(** ** Commands keep the readers dense *)

(** The reader of a command message after [checkLogs]. *)
Definition applied (rs : Rfsrv) (m : ApplyMsg) : Rfsrv :=
  mkRfsrv (rs_applyErr rs) (am_CommandIndex m) (<[am_CommandIndex m := am_Command m]> (rs_logs rs)).

Definition new_max (ts : RfTest) (m : ApplyMsg) : Z :=
  if tst_maxIndex ts <? am_CommandIndex m then am_CommandIndex m else tst_maxIndex ts.

(** The snapshot that a reader takes after command [k], if it is due. *)
Definition snap_due (rs : Rfsrv) (k : Z) : option (Z * list any) :=
  if bool_decide ((k + 1) `mod` SnapShotInterval = 0)
  then Some (k, (λ j, map_get any_nil (rs_logs rs) (Z.of_nat j)) <$> seq 0 (Z.to_nat (k + 1)))
  else None.

(** A command message, in one equation. *)
Lemma applierSnap_command ts i m d rs :
  tst_srvs ts !! i = Some rs → am_SnapshotValid m = false → am_CommandValid m = true →
  applierSnap_msg ts i m d =
    if bool_decide (am_CommandIndex m ≠ rs_lastApplied rs + 1) then Fatal "apply error"
    else if bool_decide (1 < am_CommandIndex m) &&
            negb (bool_decide (is_Some (Logs rs (am_CommandIndex m - 1)))) then Fatal "apply error"
    else match conflict 0 (tst_srvs ts) (am_CommandIndex m) (am_Command m) None with
         | Some _ => Fatal "apply error"
         | None => Ret (mkRfTest (<[i := applied rs m]> (tst_srvs ts)) (new_max ts m),
                        snap_due (applied rs m) (am_CommandIndex m))
         end.
Proof.
  intros Hi Hs Hc. unfold applierSnap_msg, index. rewrite Hi. simpl. rewrite Hs, Hc.
  case_bool_decide; [done|]. unfold checkLogs, index. rewrite Hi. simpl.
  rewrite list_lookup_insert_eq by (by eapply lookup_lt_Some). simpl.
  destruct (_ && _); [done|]. destruct (conflict _ _ _ _ _); [done|].
  unfold set_srv. simpl. rewrite list_insert_insert_eq. done.
Qed.

Lemma applied_ok rs m :
  reader_ok rs → am_CommandIndex m = rs_lastApplied rs + 1 → reader_ok (applied rs m).
Proof.
  intros [Hpos Hd] Hm. split; simpl; [lia|]. intros j Hj. unfold Logs. simpl.
  destruct (decide (j = am_CommandIndex m)) as [->|Hne].
  - rewrite lookup_insert_eq. split; [lia|eauto].
  - rewrite lookup_insert_ne by done. change (rs_logs rs !! j) with (Logs rs j).
    rewrite Hd by done. lia.
Qed.

(** The three kinds of messages. *)
Lemma applierSnap_cases ts i m d ts' snap :
  applierSnap_msg ts i m d = Ret (ts', snap) →
  ∃ rs, tst_srvs ts !! i = Some rs ∧
    ((am_SnapshotValid m = true ∧ snap = None ∧
      ∃ rs', ingestSnap rs d (am_SnapshotIndex m) = Ret (rs', true) ∧ ts' = set_srv ts i rs') ∨
     (am_SnapshotValid m = false ∧ am_CommandValid m = true ∧
      am_CommandIndex m = rs_lastApplied rs + 1 ∧
      ts' = mkRfTest (<[i := applied rs m]> (tst_srvs ts)) (new_max ts m) ∧
      snap = snap_due (applied rs m) (am_CommandIndex m)) ∨
     (ts' = ts ∧ snap = None)).
Proof.
  intros Hr. destruct (tst_srvs ts !! i) as [rs|] eqn:Hi;
    [|unfold applierSnap_msg, index in Hr; by rewrite Hi in Hr].
  exists rs. split; [done|]. destruct (am_SnapshotValid m) eqn:Hs.
  - left. unfold applierSnap_msg, index in Hr. rewrite Hi in Hr. simpl in Hr. rewrite Hs in Hr.
    apply bind_Ret_inv in Hr as ([rs' ok] & E & Hok). destruct ok; simplify_eq. eauto.
  - right. destruct (am_CommandValid m) eqn:Hc.
    + left. rewrite (applierSnap_command _ _ _ _ rs) in Hr by done.
      case_bool_decide; [done|]. destruct (_ && _); [done|]. destruct (conflict _ _ _ _ _); [done|].
      simplify_eq. by split_and!.
    + right. unfold applierSnap_msg, index in Hr. rewrite Hi in Hr. simpl in Hr.
      rewrite Hs, Hc in Hr. by simplify_eq.
Qed.

Lemma sn_cmd_ok ts c ts' o : cmd_wf c → readers_ok ts → sn_cmd ts c = Ret (ts', o) → readers_ok ts'.
Proof.
  intros Hwf Hok Hr. destruct c as [i m|i b]; simpl in Hr;
    apply bind_Ret_inv in Hr as (r & E & Hr); [destruct r as [ts1 snap]|]; simplify_eq.
  - apply applierSnap_cases in E as (rs & Hi & [(_ & _ & rs' & E & ->)|[(_ & _ & Hm & -> & _)|[-> _]]]).
    + apply readers_ok_insert; [done|]. eapply ingestSnap_ok; [| |done].
      * unfold decoded. intros sn. destruct (am_Snapshot m) eqn:Em; intros [= Hs].
        apply Hwf. by rewrite Em.
      * apply Hok. by eapply list_elem_of_lookup_2.
    + apply readers_ok_insert; [done|]. apply applied_ok; [|done].
      apply Hok. by eapply list_elem_of_lookup_2.
    + done.
  - unfold restarted in E. apply bind_Ret_inv in E as (rs & E & Hs).
    unfold set_index in Hs. destruct (tst_srvs ts !! i); simplify_eq/=.
    apply readers_ok_insert; [done|]. exact (restore_reader_ok b rs Hwf E).
Qed.

Lemma sn_run_ok cs ts ts' os :
  Forall cmd_wf cs → readers_ok ts → sn_run ts cs = Ret (ts', os) → readers_ok ts'.
Proof.
  intros Hwf. revert ts os. induction Hwf as [|c cs Hc Hwf IH]; intros ts os Hok Hr;
    unfold sn_run in Hr; simpl in Hr; [by simplify_eq|].
  apply bind_Ret_inv in Hr as ([ts1 o] & E & Hr). apply bind_Ret_inv in Hr as ([ts2 os2] & E2 & Hr).
  injection Hr as -> <-. apply (IH ts1 os2); [by eapply sn_cmd_ok|exact E2].
Qed.

(** ** Equivalent readers behave alike *)

Lemma conflict_equiv srvs srvs' j idx v err :
  idx ≠ 0 → Forall2 reader_equiv srvs srvs' → conflict j srvs idx v err = conflict j srvs' idx v err.
Proof.
  intros Hidx Heq. revert j err. induction Heq as [|rs rs' srvs srvs' [_ _ Hl _] _ IH]; intros j err;
    simpl; [done|]. rewrite (Hl idx Hidx). destruct (Logs rs' idx); [|done]. case_bool_decide; done.
Qed.

Lemma applied_equiv rs rs' m : reader_equiv rs rs' → reader_equiv (applied rs m) (applied rs' m).
Proof.
  intros [He Hl Hlogs H0]. split; simpl; [done|done| |].
  - intros j Hj. unfold Logs. simpl. destruct (decide (j = am_CommandIndex m)) as [->|].
    + by rewrite !lookup_insert_eq.
    + rewrite !lookup_insert_ne by done. by apply Hlogs.
  - destruct (decide (am_CommandIndex m = 0)) as [->|].
    + by rewrite !map_get_insert_eq.
    + by rewrite !map_get_insert_ne by done.
Qed.

(** They take the same snapshots. *)
Lemma snap_due_equiv rs rs' k : reader_equiv rs rs' → snap_due rs k = snap_due rs' k.
Proof.
  intros [_ _ Hlogs H0]. unfold snap_due. case_bool_decide; [|done]. do 2 f_equal.
  apply list_fmap_ext. intros _ j _. destruct j as [|j]; [done|].
  unfold map_get. specialize (Hlogs (Z.of_nat (S j)) ltac:(lia)). unfold Logs in Hlogs. by rewrite Hlogs.
Qed.

Lemma ts_equiv_insert ts ts' i rs rs' mx :
  ts_equiv ts ts' → reader_equiv rs rs' →
  ts_equiv (mkRfTest (<[i := rs]> (tst_srvs ts)) mx) (mkRfTest (<[i := rs']> (tst_srvs ts')) mx).
Proof. intros [Hs _] Hrs. split; [by apply Forall2_insert|done]. Qed.

Definition cmd_rel (p p' : RfTest * option (list Z)) : Prop := ts_equiv p.1 p'.1 ∧ p.2 = p'.2.

Lemma ingest_equiv rs rs' d idx : reader_equiv rs rs' →
  outcome_rel (λ p p', reader_equiv p.1 p'.1 ∧ p.2 = p'.2) (ingestSnap rs d idx) (ingestSnap rs' d idx).
Proof.
  intros Heq. destruct d as [[[k xlog]|]|]; simpl; [|done..].
  destruct (_ && _); simpl; [done|]. split; [|done]. destruct Heq. by split.
Qed.

Lemma command_equiv ts ts' i m d rs rs' :
  readers_ok ts → ts_equiv ts ts' → tst_srvs ts !! i = Some rs → tst_srvs ts' !! i = Some rs' →
  reader_equiv rs rs' → am_SnapshotValid m = false → am_CommandValid m = true →
  outcome_rel (λ p p', ts_equiv p.1 p'.1 ∧ p.2 = p'.2)
    (applierSnap_msg ts i m d) (applierSnap_msg ts' i m d).
Proof.
  intros Hok Heq Hi Hi' Hrs Hs Hc.
  rewrite (applierSnap_command ts i m d rs), (applierSnap_command ts' i m d rs') by done.
  pose proof Hrs as [He Hl Hlogs H0]. rewrite <- Hl.
  assert (Hpos : 0 ≤ rs_lastApplied rs) by (apply Hok; by eapply list_elem_of_lookup_2).
  case_bool_decide as Hm; [done|].
  rewrite <- (conflict_equiv (tst_srvs ts) (tst_srvs ts')); [|lia|apply Heq].
  destruct (bool_decide_reflect (1 < am_CommandIndex m)) as [H1|H1]; simpl.
  - rewrite (Hlogs (am_CommandIndex m - 1)) by lia. destruct (negb _); [done|].
    destruct (conflict _ _ _ _ _); [done|]. simpl.
    unfold new_max. rewrite (te_max _ _ Heq).
    split; [by apply ts_equiv_insert, applied_equiv|by apply snap_due_equiv, applied_equiv].
  - destruct (conflict _ _ _ _ _); [done|]. simpl. unfold new_max. rewrite (te_max _ _ Heq).
    split; [by apply ts_equiv_insert, applied_equiv|by apply snap_due_equiv, applied_equiv].
Qed.

Lemma lookup_none_equiv ts ts' i :
  ts_equiv ts ts' → tst_srvs ts !! i = None → tst_srvs ts' !! i = None.
Proof. intros [Hs%Forall2_length _]. rewrite !lookup_ge_None. lia. Qed.

Lemma applierSnap_equiv ts ts' i m d :
  readers_ok ts → ts_equiv ts ts' →
  outcome_rel (λ p p', ts_equiv p.1 p'.1 ∧ p.2 = p'.2)
    (applierSnap_msg ts i m d) (applierSnap_msg ts' i m d).
Proof.
  intros Hok Heq.
  destruct (tst_srvs ts !! i) as [rs|] eqn:Hi.
  - destruct (Forall2_lookup_l _ _ _ _ _ (te_srvs _ _ Heq) Hi) as (rs' & Hi' & Hrs).
    destruct (am_SnapshotValid m) eqn:Hs; [|destruct (am_CommandValid m) eqn:Hc].
    + unfold applierSnap_msg, index. rewrite Hi, Hi'. simpl. rewrite Hs.
      eapply outcome_rel_bind; [by apply ingest_equiv|]. intros [r []] [r' []] [Hr Hb]; simplify_eq/=.
      * split; [|done]. unfold set_srv. rewrite (te_max _ _ Heq). by apply ts_equiv_insert.
      * done.
    + by eapply command_equiv.
    + unfold applierSnap_msg, index. rewrite Hi, Hi'. simpl. rewrite Hs, Hc. done.
  - unfold applierSnap_msg, index. rewrite Hi.
    by rewrite (lookup_none_equiv _ _ _ Heq Hi).
Qed.

Lemma sn_cmd_equiv ts ts' c :
  readers_ok ts → ts_equiv ts ts' → outcome_rel cmd_rel (sn_cmd ts c) (sn_cmd ts' c).
Proof.
  intros Hok Heq. destruct c as [i m|i b]; simpl.
  - eapply outcome_rel_bind; [by apply applierSnap_equiv|].
    intros [t o] [t' o'] [Ht Ho]; simplify_eq/=. done.
  - apply (outcome_rel_bind ts_equiv); [|done]. unfold restarted.
    destruct (restore_reader b) as [rs| |]; simpl; [|done..].
    unfold set_index. destruct (tst_srvs ts !! i) as [r|] eqn:Hi.
    + destruct (Forall2_lookup_l _ _ _ _ _ (te_srvs _ _ Heq) Hi) as (r' & -> & _). simpl.
      rewrite (te_max _ _ Heq). by apply ts_equiv_insert.
    + by rewrite (lookup_none_equiv _ _ _ Heq Hi).
Qed.

Lemma sn_run_equiv cs ts ts' :
  Forall cmd_wf cs → readers_ok ts → ts_equiv ts ts' →
  outcome_rel (λ p p', ts_equiv p.1 p'.1 ∧ p.2 = p'.2) (sn_run ts cs) (sn_run ts' cs).
Proof.
  intros Hwf. revert ts ts'. induction Hwf as [|c cs Hc Hwf IH]; intros ts ts' Hok Heq; [done|].
  unfold sn_run. simpl. pose proof (sn_cmd_equiv ts ts' c Hok Heq) as Hcmd.
  destruct (sn_cmd ts c) as [[t o]| |] eqn:E, (sn_cmd ts' c) as [[t' o']| |]; simpl in *; try done.
  destruct Hcmd as [Ht Ho]; simplify_eq/=.
  eapply outcome_rel_bind; [apply (IH t t'); [by eapply sn_cmd_ok|done]|].
  intros [u l] [u' l'] [Hu Hl]; simplify_eq/=. done.
Qed.

(** [Kill] leaves the contents of the persister as they are. *)
Lemma clone_spec (h : Heap) s h' x :
  clone h s = (h', x) → (∀ y, y ∈ option_list s → y ∈ dom h) →
  slice_bytes h' (Some x) = slice_bytes h s ∧
  (∀ s', (∀ y, s' = Some y → y ∈ dom h) → slice_bytes h' s' = slice_bytes h s') ∧
  x ∈ dom h' ∧ dom h ⊆ dom h'.
Proof.
  unfold clone. intros [= <- <-] Hs. pose proof (fresh_slice h) as Hf. split_and!.
  - simpl. by rewrite map_get_insert_eq.
  - intros s' Hs'. apply slice_bytes_insert. intros ->. by apply Hf, Hs'.
  - set_solver.
  - set_solver.
Qed.

Lemma rfsrv_Kill_keeps h ps h' ps' raft :
  (∀ x, x ∈ ps_refs ps → x ∈ dom h) → rfsrv_Kill h (Some ps) = (h', ps', raft) →
  raft = None ∧ ∃ ps1, ps' = Some ps1 ∧ ps_value h' ps1 = ps_value h ps.
Proof.
  intros Hrefs Hk. unfold rfsrv_Kill, ReadRaftState, ReadSnapshot, Save in Hk.
  assert (Hr : ∀ y, y ∈ option_list (ps_raftstate ps) → y ∈ dom h).
  { intros y Hy. apply Hrefs. unfold ps_refs. set_solver. }
  assert (Hs : ∀ y, y ∈ option_list (ps_snapshot ps) → y ∈ dom h).
  { intros y Hy. apply Hrefs. unfold ps_refs. set_solver. }
  destruct (clone h (ps_raftstate ps)) as [h1 r] eqn:E1.
  apply clone_spec in E1 as (Hb1 & Hk1 & Hd1 & Hsub1); [|done].
  destruct (clone h1 (ps_snapshot ps)) as [h2 s] eqn:E2.
  apply clone_spec in E2 as (Hb2 & Hk2 & Hd2 & Hsub2); [|set_solver].
  destruct (clone h2 (Some r)) as [h3 r'] eqn:E3.
  apply clone_spec in E3 as (Hb3 & Hk3 & Hd3 & Hsub3); [|set_solver].
  destruct (clone h3 (Some s)) as [h4 s'] eqn:E4.
  apply clone_spec in E4 as (Hb4 & Hk4 & Hd4 & Hsub4); [|set_solver].
  simplify_eq. split; [done|]. eexists. split; [done|]. unfold ps_value. simpl ps_raftstate.
  simpl ps_snapshot. f_equal.
  - rewrite Hk4 by naive_solver. rewrite Hb3, Hk2 by naive_solver. exact Hb1.
  - rewrite Hb4, Hk3 by (intros ? [= <-]; set_solver). rewrite Hb2. apply Hk1.
    intros y Hy. apply Hs. rewrite Hy. set_solver.
Qed.

(** ** The round trip *)

Hypothesis dec_enc : ∀ x, dec (enc x) = Some x.
Hypothesis dec_empty : dec [] = None.

(** The reader restored from a snapshot that has just been taken. *)
Lemma restore_taken rs snap :
  reader_ok rs → rs_applyErr rs = "" → snap_due rs (rs_lastApplied rs) = Some snap →
  ∃ rs', restore_reader (enc snap) = Ret rs' ∧ reader_equiv rs rs'.
Proof.
  intros [Hpos Hd] He Hs. unfold snap_due in Hs. case_bool_decide; [|done]. injection Hs as <-.
  unfold restore_reader. rewrite bool_decide_eq_true_2.
  2: { destruct (enc _) as [|] eqn:E; [|simpl; lia]. rewrite <- E, dec_enc in dec_empty. done. }
  rewrite dec_enc. simpl. eexists. split; [done|]. split; simpl; [done|done| |].
  - intros j Hj. unfold Logs at 2. simpl. rewrite ingest_logs. case_decide as H0.
    + destruct (decide (j ≤ rs_lastApplied rs)) as [Hle|Hgt].
      * rewrite list_lookup_fmap, lookup_seq_lt by lia. simpl. rewrite Z2Nat.id by lia.
        destruct (proj2 (Hd j Hj)) as [v Hv]; [lia|]. unfold map_get. unfold Logs in *. by rewrite Hv.
      * rewrite lookup_ge_None_2 by (rewrite length_fmap, length_seq; lia).
        apply eq_None_not_Some. rewrite Hd by done. lia.
    + apply eq_None_not_Some. rewrite Hd by done. lia.
  - unfold map_get at 2. rewrite ingest_logs, decide_True by lia.
    by rewrite list_lookup_fmap, lookup_seq_lt by lia.
Qed.

Lemma errors_cmd ts c ts' o :
  (∀ rs, rs ∈ tst_srvs ts → rs_applyErr rs = "") → sn_cmd ts c = Ret (ts', o) →
  ∀ rs, rs ∈ tst_srvs ts' → rs_applyErr rs = "".
Proof.
  intros Herr Hr. destruct c as [i m|i b]; simpl in Hr;
    apply bind_Ret_inv in Hr as (r & E & Hr); [destruct r as [ts1 snap]|]; simplify_eq.
  - apply applierSnap_cases in E as (rs & Hi & [(_ & _ & rs' & E & ->)|[(_ & _ & Hm & -> & _)|[-> _]]]);
      [| |done]; apply list_elem_of_lookup_2, Herr in Hi; intros a [->|Ha]%elem_of_insert_inv; auto.
    unfold ingestSnap in E. destruct (decoded m) as [[[? ?]|]|]; try done.
    destruct (_ && _); by simplify_eq.
  - unfold restarted in E. apply bind_Ret_inv in E as (rs & E & Hs).
    unfold set_index in Hs. destruct (tst_srvs ts !! i); simplify_eq/=.
    intros a [->|Ha]%elem_of_insert_inv; [|auto]. unfold restore_reader in E.
    case_bool_decide; [|by simplify_eq]. destruct (dec b) as [[? ?]|]; by simplify_eq/=.
Qed.

Lemma errors_run cs ts ts' os :
  (∀ rs, rs ∈ tst_srvs ts → rs_applyErr rs = "") → sn_run ts cs = Ret (ts', os) →
  ∀ rs, rs ∈ tst_srvs ts' → rs_applyErr rs = "".
Proof.
  revert ts os. induction cs as [|c cs IH]; intros ts os Herr Hr; [unfold sn_run in Hr; by simplify_eq/=|].
  unfold sn_run in Hr. simpl in Hr.
  apply bind_Ret_inv in Hr as ([ts1 o] & E & Hr). apply bind_Ret_inv in Hr as ([ts2 os2] & E2 & Hr).
  injection Hr as -> <-. eapply (IH ts1 os2); [by eapply errors_cmd|exact E2].
Qed.

(** C23: restart_from_snapshot: the snapshots of the readers make a round trip.
    After any run of messages and restarts that the readers got through, let a reader take a
    snapshot. If its server is then restarted from that snapshot, the new reader takes it, and
    from there on the test behaves as if the server had not been restarted: the same
    commands go through or stop the test with the same complaint, the copies of all readers
    agree at every index but 0, and the same snapshots are taken. *)
Theorem restart_from_snapshot n cs ts os i m ts1 b :
  Forall cmd_wf cs → sn_run (makeTest n) cs = Ret (ts, os) →
  sn_cmd ts (SnDeliver i m) = Ret (ts1, Some b) →
  ∃ ts2, sn_cmd ts1 (SnRestart i b) = Ret (ts2, None) ∧
    ∀ ms, Forall cmd_wf ms →
      outcome_rel (λ p p', ts_equiv p.1 p'.1 ∧ p.2 = p'.2) (sn_run ts1 ms) (sn_run ts2 ms).
Proof.
  intros Hwf Hrun Hm. pose proof (sn_run_ok _ _ _ _ Hwf (readers_ok_init n) Hrun) as Hok.
  assert (Herr : ∀ rs, rs ∈ tst_srvs ts → rs_applyErr rs = "").
  { eapply errors_run; [|done]. by intros rs ->%elem_of_replicate_inv. }
  pose proof Hm as Hm'. simpl in Hm. apply bind_Ret_inv in Hm as ([t sn] & E & Hm).
  simplify_eq. destruct sn as [sn|]; simplify_eq/=.
  apply applierSnap_cases in E as (rs & Hi & [(_ & ? & _)|[(Hs & Hc & Hidx & -> & Hsnap)|[_ ?]]]);
    [done| |done].
  pose proof Hi as Hin. apply list_elem_of_lookup_2 in Hin.
  destruct (restore_taken (applied rs m) sn) as (rs' & Hrs' & Heq);
    [apply applied_ok; [by apply Hok|done]|exact (Herr rs Hin)|symmetry; exact Hsnap|].
  set (ts1 := mkRfTest _ _). exists (mkRfTest (<[i := rs']> (tst_srvs ts1)) (tst_maxIndex ts1)).
  split.
  - simpl. unfold restarted. rewrite Hrs'. simpl. unfold set_index. simpl.
    by rewrite list_lookup_insert_eq by (by eapply lookup_lt_Some).
  - intros ms Hms. apply sn_run_equiv; [done| |].
    + apply readers_ok_insert; [done|]. apply applied_ok; [by apply Hok|done].
    + split; [|done]. simpl. rewrite list_insert_insert_eq. apply Forall2_insert; [|done].
      apply (te_srvs ts ts). reflexivity.
Qed.

End Readers.

(** ** Examples *)

#[export] Instance any_countable : Countable any.
Proof.
  refine (inj_countable'
    (λ a, match a with any_nil => None | any_int z => Some (inl z) | any_string s => Some (inr s) end)
    (λ o, match o with None => any_nil | Some (inl z) => any_int z | Some (inr s) => any_string s end) _).
  by intros [].
Defined.

Definition ex_enc (x : Z * list any) : list Z := bytes_enc x.
Definition ex_dec (b : list Z) : option (Z * list any) := bytes_dec b.

Definition ex_deliveries (k : nat) : list SnCmd :=
  (λ j, SnDeliver 0 (ex_msg (Z.of_nat j) "v")) <$> seq 1 k.

Lemma restart_from_snapshot_witness :
  ∃ ts os ts1 b ts2, sn_run ex_enc ex_dec (makeTest 2) (ex_deliveries 8) = Ret (ts, os) ∧
    sn_cmd ex_enc ex_dec ts (SnDeliver 0 (ex_msg 9 "w")) = Ret (ts1, Some b) ∧
    sn_cmd ex_enc ex_dec ts1 (SnRestart 0 b) = Ret (ts2, None).
Proof.
  destruct (sn_run ex_enc ex_dec (makeTest 2) (ex_deliveries 8)) as [[ts os]| |] eqn:E;
    [|exfalso; vm_compute in E; discriminate E..].
  destruct (sn_cmd ex_enc ex_dec ts (SnDeliver 0 (ex_msg 9 "w"))) as [[ts1 [b|]]| |] eqn:E1;
    [|exfalso; vm_compute in E; injection E as <- <-; vm_compute in E1; discriminate E1..].
  destruct (restart_from_snapshot ex_enc ex_dec (λ x, bytes_dec_enc x) eq_refl 2 (ex_deliveries 8)
    ts os 0 (ex_msg 9 "w") ts1 b) as (ts2 & H & _); [|exact E|exact E1|].
  - apply Forall_forall. intros c Hc. apply list_elem_of_fmap in Hc as (j & -> & _). by intros snap.
  - exists ts, os, ts1, b, ts2. auto.
Defined.
