(* ===== verification/Rsm.v ===== *)
(** * The replicated state machine and its test server ([kvraft1/rsm])

    [rsm.go] is a skeleton: [MakeRSM] starts a Raft peer and [Submit] gives up. [server.go] is
    the server that the tests replicate, a counter; [test.go] submits operations to whoever
    leads and looks at the counters. What the servers answer while a test function runs is an
    input of the model. *)

From S2P Require Export Rpc Raft TesterGroup.

Local Open Scope Z_scope.

(** ** [rsm.go] *)

(** What a server that wants to be replicated implements. *)
Class StateMachine (St Req Rep : Type) := {
  sm_DoOp : St → Req → outcome (St * Rep);
  sm_Snapshot : St → list Z;
  sm_Restore : St → list Z → outcome St
}.

(** What replication relies on: a restored state behaves like the one in the snapshot. [sm_eq]
    compares the replicated parts of two states. *)
Class StateMachineLaws (St Req Rep : Type) `{StateMachine St Req Rep} (sm_eq : relation St) := {
  restore_snapshot s s0 : ∃ s', sm_Restore s0 (sm_Snapshot s) = Ret s' ∧ sm_eq s s';
  DoOp_respects s s' r : sm_eq s s' →
    outcome_rel (λ p p', sm_eq p.1 p'.1 ∧ p.2 = p'.2) (sm_DoOp s r) (sm_DoOp s' r)
}.

(** [RSM]; the state machine itself is kept by its owner. *)
Record RSM := mkRSM { rsm_me : Z; rsm_rf : Raft; rsm_maxraftstate : Z }.

(** [MakeRSM]; [peers], [persisted], [rnd] and [now] are what [raft.Make] gets or reads. *)
Definition MakeRSM (peers me : Z) (persisted : list Z) (maxraftstate rnd now : Z) : RSM :=
  mkRSM me (Make peers me persisted rnd now) maxraftstate.

Definition RSM_Raft (rsm : RSM) : Raft := rsm_rf rsm.

Definition Submit {Req Rep} (rsm : RSM) (req : Req) : Err * option Rep := (ErrWrongLeader, None).

(** ** [server.go] *)

(** The requests of the tests, and any other value that might reach [DoOp]. *)
Inductive Req := Inc | Null | Dec | OtherReq (a : any).
Inductive Rep := IncRep (N : Z) | NullRep.

Record rsmSrv := mkRsmSrv { rv_me : Z; rv_rsm : option RSM; rv_counter : Z }.

Definition makeRsmSrv (peers srv : Z) (persisted : list Z) (maxraftstate rnd now : Z) : rsmSrv :=
  mkRsmSrv srv (Some (MakeRSM peers srv persisted maxraftstate rnd now)) 0.

Definition set_counter (rs : rsmSrv) (n : Z) : rsmSrv := mkRsmSrv (rv_me rs) (rv_rsm rs) n.

(** The locked increment of [DoOp]. *)
Definition inc_counter (rs : rsmSrv) : rsmSrv := set_counter rs (i64_wrap (rv_counter rs + 1)).

(** [DoOp]. The reply to Inc is built from the counter after the lock is released: [between] is
    what other goroutines do to the server in between. *)
Definition rsmSrv_DoOp (between : rsmSrv → rsmSrv) (rs : rsmSrv) (req : Req)
    : outcome (rsmSrv * Rep) :=
  match req with
  | Inc =>
      let rs := between (inc_counter rs) in
      Ret (rs, IncRep (rv_counter rs))
  | Null => Ret (rs, NullRep)
  | Dec | OtherReq _ => Fatal "DoOp should execute only Inc"
  end.

Definition rsmSrv_Kill (rs : rsmSrv) : rsmSrv := mkRsmSrv (rv_me rs) None (rv_counter rs).

Definition rsmSrv_rf (rs : rsmSrv) : outcome Raft :=
  match rv_rsm rs with
  | Some rsm => Ret (RSM_Raft rsm)
  | None => Panic "nil pointer dereference"
  end.

Section Snapshots.

(** How [labgob] writes and reads an int. *)
Context (enc : Z → list Z) (dec : list Z → option Z).

Definition rsmSrv_Snapshot (rs : rsmSrv) : list Z := enc (rv_counter rs).

Definition rsmSrv_Restore (rs : rsmSrv) (data : list Z) : outcome rsmSrv :=
  match dec data with
  | Some n => Ret (set_counter rs n)
  | None => Fatal "couldn't decode counter"
  end.

(** The replicas call [DoOp] one operation after the other. *)
#[export] Instance rsmSrv_machine : StateMachine rsmSrv Req Rep := {|
  sm_DoOp := rsmSrv_DoOp id;
  sm_Snapshot := rsmSrv_Snapshot;
  sm_Restore := rsmSrv_Restore
|}.

End Snapshots.

(** ** [test.go] *)

Definition NSRV : nat := 3.

(** A nil partition contains every server. *)
Fixpoint in_list (s : nat) (p : list nat) : bool :=
  match p with [] => false | i :: p => if bool_decide (s = i) then true else in_list s p end.

Definition inPartition (s : nat) (p : option (list nat)) : bool :=
  match p with None => true | Some p => in_list s p end.

(** What a server answers when [onePartition] tries it: whether it is connected, whether it has
    an RSM, and what [Submit] returns. *)
Record SrvAnswer := mkSrvAnswer { sa_connected : bool; sa_rsm : bool; sa_submit : Err * option Rep }.

(** A round of [onePartition] over all servers, from server [i]; [k] tries are left. *)
Fixpoint try_submit (k : nat) (answers : list SrvAnswer) (p : option (list nat)) (i : nat)
    : outcome (option (nat * option Rep)) :=
  match k with
  | O => Ret None
  | S k =>
      a ← index answers i;
      if sa_connected a && (sa_rsm a && inPartition i p) && bool_decide ((sa_submit a).1 = OK)
      then Ret (Some (i, (sa_submit a).2))
      else try_submit k answers p (S i `mod` length answers)%nat
  end.

(** [onePartition], over the rounds that start within ten seconds; each has the leader read from
    [ts.leader] and the answers of the servers. The reply, and the new [ts.leader] if set. *)
Fixpoint onePartition (rounds : list (nat * list SrvAnswer)) (p : option (list nat))
    : outcome (option Rep * option nat) :=
  match rounds with
  | [] => Ret (None, None)
  | (leader, answers) :: rounds =>
      r ← try_submit (length answers) answers p leader;
      match r with
      | Some (i, rep) => Ret (rep, Some i)
      | None => onePartition rounds p
      end
  end.

(** [oneInc] and [oneNull]; a type assertion on a reply of the other type panics. *)
Definition oneInc (rounds : list (nat * list SrvAnswer)) : outcome (option Z) :=
  '(rep, _) ← onePartition rounds None;
  match rep with
  | None => Ret None
  | Some (IncRep n) => Ret (Some n)
  | Some NullRep => Panic "interface conversion"
  end.

Definition oneNull (rounds : list (nat * list SrvAnswer)) : outcome (option unit) :=
  '(rep, _) ← onePartition rounds None;
  match rep with
  | None => Ret None
  | Some NullRep => Ret (Some tt)
  | Some (IncRep _) => Panic "interface conversion"
  end.

Fixpoint countValue (srvs : list rsmSrv) (v : Z) : nat :=
  match srvs with
  | [] => 0
  | s :: srvs => if bool_decide (rv_counter s = v) then S (countValue srvs v) else countValue srvs v
  end.

(** [checkCounter] over the servers at each of at most thirty polls. *)
Fixpoint checkCounter_loop (polls : list (list rsmSrv)) (v : Z) (nsrv : nat) : outcome unit :=
  match polls with
  | [] => Fatal "checkCounter"
  | srvs :: polls =>
      if bool_decide (nsrv ≤ countValue srvs v)%nat then Ret tt else checkCounter_loop polls v nsrv
  end.

Definition checkCounter (polls : nat → list rsmSrv) (v : Z) (nsrv : nat) : outcome unit :=
  checkCounter_loop (polls <$> seq 0 30) v nsrv.

(** The services of a server that [Leader] can tell apart. *)
Inductive IService := SvcRaft (rf : Raft) | SvcOther.

Fixpoint leads_any (ss : list IService) : bool :=
  match ss with
  | [] => false
  | SvcRaft rf :: ss => if (GetState rf).2 then true else leads_any ss
  | SvcOther :: ss => leads_any ss
  end.

Fixpoint Leader_loop (i : nat) (svcs : list (list IService)) : bool * nat :=
  match svcs with
  | [] => (false, 0%nat)
  | ss :: svcs => if leads_any ss then (true, i) else Leader_loop (S i) svcs
  end.

(** [Leader], of the group found for [gid]. *)
Definition RsmLeader (sg : ServerGrp (Svc := IService)) : bool * nat := Leader_loop 0 (Services sg).

(** [mksrv]: the new server takes its place, and its Raft peer is the only service. *)
Definition rsm_mksrv (srvs : list rsmSrv) (srv : nat) (s : rsmSrv) : outcome (list rsmSrv * list IService) :=
  srvs ← set_index srvs srv s;
  rf ← rsmSrv_rf s;
  Ret (srvs, [SvcRaft rf]).

(** [disconnectLeader] and [connect]. *)
Definition disconnectLeader (net : Network) (sg : ServerGrp (Svc := IService)) (leader : nat)
    : outcome (Network * ServerGrp * nat) :=
  '(net, sg) ← DisconnectAll net sg leader;
  Ret (net, sg, leader).

Definition rsm_connect (net : Network) (sg : ServerGrp (Svc := IService)) (i : nat)
    : outcome (Network * ServerGrp) := ConnectOne net sg i.

(** ** The counter *)

Fixpoint incs (ops : list Req) : Z :=
  match ops with [] => 0 | Inc :: ops => 1 + incs ops | _ :: ops => incs ops end.

Definition allowed_op (r : Req) : bool := match r with Inc | Null => true | _ => false end.

Lemma i64_wrap_add a b : i64_wrap (i64_wrap a + b) = i64_wrap (a + b).
Proof.
  unfold i64_wrap. f_equal.
  replace ((a + 2 ^ 63) `mod` 2 ^ 64 - 2 ^ 63 + b + 2 ^ 63) with ((a + 2 ^ 63) `mod` 2 ^ 64 + b) by lia.
  rewrite Z.add_mod_idemp_l by lia. f_equal. lia.
Qed.

Lemma i64_wrap_wrap a : i64_wrap (i64_wrap a) = i64_wrap a.
Proof. rewrite <- (Z.add_0_r (i64_wrap a)) at 1. by rewrite i64_wrap_add, Z.add_0_r. Qed.

Lemma set_counter_id rs : set_counter rs (rv_counter rs) = rs.
Proof. by destruct rs. Qed.

(** The server after the operations [ops], which are Inc or Null, and its replies. *)
Lemma run_ops ops rs :
  i64_wrap (rv_counter rs) = rv_counter rs → forallb allowed_op ops = true →
  ∃ reps, run_list (rsmSrv_DoOp id) rs ops =
      Ret (set_counter rs (i64_wrap (rv_counter rs + incs ops)), reps) ∧
    length reps = length ops ∧
    ∀ k, (ops !! k = Some Inc →
        reps !! k = Some (IncRep (i64_wrap (rv_counter rs + incs (take (S k) ops))))) ∧
      (ops !! k = Some Null → reps !! k = Some NullRep).
Proof.
  revert rs. induction ops as [|r ops IH]; intros rs Hrs Hall.
  { exists []. simpl. by rewrite Z.add_0_r, Hrs, set_counter_id. }
  simpl in Hall. apply andb_true_iff in Hall as [Hr Hall].
  destruct r; try done; clear Hr.
  - destruct (IH (inc_counter rs)) as (reps & Hrun & Hlen & Hreps); [|done|].
    { apply i64_wrap_wrap. }
    simpl. rewrite Hrun. simpl. eexists (_ :: reps). split_and!.
    + do 2 f_equal. unfold set_counter. simpl. rewrite i64_wrap_add. do 2 f_equal. lia.
    + simpl. by rewrite Hlen.
    + intros [|k]; simpl.
      * done.
      * destruct (Hreps k) as [H1 H2]. split; [|done]. intros Hk. rewrite (H1 Hk). simpl.
        rewrite i64_wrap_add. do 3 f_equal. lia.
  - destruct (IH rs Hrs Hall) as (reps & Hrun & Hlen & Hreps).
    simpl. rewrite Hrun. simpl. eexists (_ :: reps). split_and!; [done|simpl; by rewrite Hlen|].
    intros [|k]; simpl; [done|apply Hreps].
Qed.

(** Any other request ends the program. *)
Lemma run_ops_fatal ops rs :
  forallb allowed_op ops = false → run_list (rsmSrv_DoOp id) rs ops = Fatal "DoOp should execute only Inc".
Proof.
  revert rs. induction ops as [|r ops IH]; intros rs Hall; [done|]. simpl in Hall.
  destruct r; simpl; try done; by rewrite IH.
Qed.

(** Two clients that increment at the same time may get the same reply. *)
Lemma DoOp_same_reply rs :
  ∃ rs' reply, rsmSrv_DoOp inc_counter rs Inc = Ret (rs', reply) ∧
    reply = IncRep (rv_counter rs') ∧ rs' = inc_counter (inc_counter rs).
Proof. by eexists _, _. Qed.

(** ** Snapshots *)

Section Laws.

Context {St Rq Rp : Type} (sm_eq : relation St) `{StateMachineLaws St Rq Rp sm_eq}.

(** Equal replicated states stay equal, and give equal replies. *)
Lemma run_respects ops s s' :
  sm_eq s s' →
  outcome_rel (λ p p', sm_eq p.1 p'.1 ∧ p.2 = p'.2) (run_list sm_DoOp s ops) (run_list sm_DoOp s' ops).
Proof.
  revert s s'. induction ops as [|r ops IH]; intros s s' Hs; [done|]. simpl.
  eapply outcome_rel_bind; [by apply DoOp_respects|]. intros [t rep] [t' rep'] [Ht Hr]; simplify_eq/=.
  eapply outcome_rel_bind; [by apply IH|]. intros [u reps] [u' reps'] [Hu Hl]; simplify_eq/=. done.
Qed.

(** Any server that restores the snapshot taken after a prefix of the log, and then applies the
    rest, is as good as one that has applied the whole log. *)
Lemma replay_spec s ops1 ops2 s1 reps1 s0 :
  run_list sm_DoOp s ops1 = Ret (s1, reps1) →
  ∃ s2, sm_Restore s0 (sm_Snapshot s1) = Ret s2 ∧
    outcome_rel (λ p p', sm_eq p.1 p'.1 ∧ p.2 = reps1 ++ p'.2)
      (run_list sm_DoOp s (ops1 ++ ops2)) (run_list sm_DoOp s2 ops2).
Proof.
  intros Hrun. destruct (restore_snapshot s1 s0) as (s2 & Hs2 & Heq). exists s2. split; [done|].
  rewrite run_list_app, Hrun. simpl.
  pose proof (run_respects ops2 s1 s2 Heq) as Hrel.
  destruct (run_list sm_DoOp s1 ops2) as [[t reps]| |], (run_list sm_DoOp s2 ops2) as [[t' reps']| |];
    simpl in *; try done. destruct Hrel as [? ->]. done.
Qed.

End Laws.

(** ** [onePartition] *)

(** Server [s] can be asked, and accepts the request with reply [rep]. *)
Definition accepts (answers : list SrvAnswer) (p : option (list nat)) (s : nat) (rep : option Rep)
    : Prop :=
  ∃ a, answers !! s = Some a ∧ sa_connected a = true ∧ sa_rsm a = true ∧
    inPartition s p = true ∧ sa_submit a = (OK, rep).

Lemma inPartition_spec s p :
  inPartition s p = true ↔ match p with None => True | Some l => s ∈ l end.
Proof.
  destruct p as [l|]; simpl; [|done]. induction l as [|i l IH]; simpl; [set_solver|].
  rewrite elem_of_cons. case_bool_decide; naive_solver.
Qed.

(** The servers are tried in a circle from [i]; the first that accepts ends the round. *)
Lemma try_submit_spec k answers p i :
  (i < length answers)%nat →
  ∃ r, try_submit k answers p i = Ret r ∧
    match r with
    | Some (s, rep) => ∃ j, (j < k)%nat ∧ s = ((i + j) `mod` length answers)%nat ∧
        accepts answers p s rep ∧
        ∀ j' rep', (j' < j)%nat → ¬ accepts answers p ((i + j') `mod` length answers)%nat rep'
    | None => ∀ j rep, (j < k)%nat → ¬ accepts answers p ((i + j) `mod` length answers)%nat rep
    end.
Proof.
  revert i. induction k as [|k IH]; intros i Hi; simpl.
  { exists None. split; [done|]. intros; lia. }
  destruct (lookup_lt_is_Some_2 answers i Hi) as [a Ha].
  assert (Hmod : ((i + 0) `mod` length answers)%nat = i) by (rewrite Nat.add_0_r; by apply Nat.mod_small).
  unfold index. rewrite Ha. simpl. destruct (_ && _) eqn:E.
  - apply andb_true_iff in E as [[Hc [Hr Hp]%andb_true_iff]%andb_true_iff Hs].
    apply bool_decide_eq_true in Hs. eexists. split; [done|]. simpl. exists 0%nat.
    split_and!; [lia|by rewrite Hmod| |intros; lia].
    exists a. split_and!; [done..|]. destruct (sa_submit a). simpl in *. by subst.
  - assert (Hno : ∀ rep, ¬ accepts answers p i rep).
    { intros rep (a' & Ha' & Hc & Hr & Hp & Hs). simplify_eq.
      by rewrite Hc, Hr, Hp, Hs in E. }
    destruct (IH (S i `mod` length answers)%nat) as (r & -> & Hr); [apply Nat.mod_upper_bound; lia|].
    exists r. split; [done|]. destruct r as [[s rep]|].
    + destruct Hr as (j & Hj & -> & Hacc & Hbefore). rewrite mod_succ_l in *.
      exists (S j). split_and!; [lia|done|done|]. intros [|j'] rep' Hj'; [by rewrite Hmod|].
      specialize (Hbefore j' rep' ltac:(lia)). by rewrite mod_succ_l in Hbefore.
    + intros [|j] rep Hj; [by rewrite Hmod|].
      specialize (Hr j rep ltac:(lia)). by rewrite mod_succ_l in Hr.
Qed.

(** ** Properties *)

(** RsmSrv_snapshot_replay: a snapshot stands for the operations before it.
    Any server that restores the snapshot taken after the operations [ops1], and then executes
    [ops2], ends with the counter, and gives the replies to [ops2], of the server that executes
    all of them; and it stops at a request that is not allowed exactly when that one does. *)
Theorem rsmSrv_snapshot_replay (enc : Z → list Z) (dec : list Z → option Z) rs ops1 ops2 rs1 reps1 rs0 :
  (∀ n, dec (enc n) = Some n) → run_list (rsmSrv_DoOp id) rs ops1 = Ret (rs1, reps1) →
  ∃ rs2, rsmSrv_Restore dec rs0 (rsmSrv_Snapshot enc rs1) = Ret rs2 ∧
    outcome_rel (λ p p', rv_counter p.1 = rv_counter p'.1 ∧ p.2 = reps1 ++ p'.2)
      (run_list (rsmSrv_DoOp id) rs (ops1 ++ ops2)) (run_list (rsmSrv_DoOp id) rs2 ops2).
Proof.
  intros Hde. pose (H := rsmSrv_machine enc dec).
  assert (Hlaws : StateMachineLaws rsmSrv Req Rep (λ s s', rv_counter s = rv_counter s')).
  { split.
    - intros s s0. simpl. unfold rsmSrv_Restore, rsmSrv_Snapshot. rewrite Hde. eauto.
    - intros s s' [] Hs; simpl; rewrite ?Hs; done. }
  exact (replay_spec (λ s s', rv_counter s = rv_counter s') rs ops1 ops2 rs1 reps1 rs0).
Qed.

(** RsmSrv_counts: the replicated server counts.
    Executing operations one after the other adds the number of Incs among them to the counter,
    modulo the wrap-around of int; the reply to an Inc is the number of Incs so far, itself
    included. Any request that is neither Inc nor Null ends the program. *)
Theorem rsmSrv_counts rs ops :
  i64_wrap (rv_counter rs) = rv_counter rs →
  if forallb allowed_op ops then
    ∃ rs' reps, run_list (rsmSrv_DoOp id) rs ops = Ret (rs', reps) ∧
      rv_counter rs' = i64_wrap (rv_counter rs + incs ops) ∧ length reps = length ops ∧
      ∀ k, (ops !! k = Some Inc →
          reps !! k = Some (IncRep (i64_wrap (rv_counter rs + incs (take (S k) ops))))) ∧
        (ops !! k = Some Null → reps !! k = Some NullRep)
  else ∃ e, run_list (rsmSrv_DoOp id) rs ops = Fatal e.
Proof.
  intros Hrs. destruct (forallb allowed_op ops) eqn:Hall.
  - destruct (run_ops ops rs Hrs Hall) as (reps & -> & Hlen & Hreps).
    eexists _, reps. split_and!; [done|done|done|exact Hreps].
  - rewrite run_ops_fatal by done. eauto.
Qed.

(** OnePartition_correct: who executes a request of the tests.
    [onePartition] always returns. If it returns a reply and a new leader, that leader was
    connected, had an RSM, was in the given partition and accepted the request with
    that reply; no server asked before it did, in its round or in an earlier one, where servers
    are asked in a circle from the leader remembered. It returns nil only if no server of
    the partition accepted in any round. *)
Theorem onePartition_correct rounds p :
  (∀ leader answers, (leader, answers) ∈ rounds → (leader < length answers)%nat) →
  ∃ res, onePartition rounds p = Ret res ∧
    ((res = (None, None) ∧
      ∀ leader answers s rep, (leader, answers) ∈ rounds → ¬ accepts answers p s rep) ∨
     ∃ k leader answers j rep, rounds !! k = Some (leader, answers) ∧
       let s := ((leader + j) `mod` length answers)%nat in
       res = (rep, Some s) ∧ accepts answers p s rep ∧
       (∀ j' rep', (j' < j)%nat → ¬ accepts answers p ((leader + j') `mod` length answers)%nat rep') ∧
       ∀ k' leader' answers' s' rep', (k' < k)%nat → rounds !! k' = Some (leader', answers') →
         ¬ accepts answers' p s' rep').
Proof.
  induction rounds as [|[leader answers] rounds IH]; intros Hlead; simpl.
  { eexists. split; [done|]. left. split; [done|]. set_solver. }
  destruct (try_submit_spec (length answers) answers p leader) as (r & -> & Hr); [apply Hlead; left|].
  simpl. destruct r as [[s rep]|].
  - destruct Hr as (j & Hj & -> & Hacc & Hbefore). eexists. split; [done|]. right.
    exists 0%nat, leader, answers, j, rep. split_and!; [done..|]. intros; lia.
  - assert (Hno : ∀ s rep, ¬ accepts answers p s rep).
    { intros s rep Hacc. pose proof Hacc as (a & Ha & _). apply lookup_lt_Some in Ha.
      destruct (cyclic_cover (length answers) leader s Ha) as (j & Hj & <-). by eapply Hr. }
    destruct IH as (res & -> & Hres); [intros; apply Hlead; by right|]. exists res. split; [done|].
    destruct Hres as [[-> Hnone]|(k & leader' & answers' & j & rep & Hk & -> & Hacc & Hbefore & Hfirst)].
    + left. split; [done|]. intros l a s rep [[= -> ->]|Hin]%elem_of_cons; [apply Hno|by eapply Hnone].
    + right. exists (S k), leader', answers', j, rep. split_and!; [done..|].
      intros [|k'] l a s rep' Hk' Hl; simpl in Hl; [simplify_eq; apply Hno|].
      eapply Hfirst; [|done]. lia.
Qed.

(** With [Submit] as it stands every request is given up. *)
Lemma onePartition_skeleton {rsm : RSM} {req : Req} rounds p :
  (∀ leader answers, (leader, answers) ∈ rounds → (leader < length answers)%nat ∧
     ∀ a, a ∈ answers → sa_submit a = Submit rsm req) →
  onePartition rounds p = Ret (None, None).
Proof.
  induction rounds as [|[leader answers] rounds IH]; intros Hall; simpl; [done|].
  destruct (Hall leader answers ltac:(left)) as [Hlt Hsub].
  destruct (try_submit_spec (length answers) answers p leader Hlt) as ([[s rep]|] & -> & Hr); simpl.
  - destruct Hr as (j & _ & _ & (a & Ha & _ & _ & _ & Hok) & _).
    rewrite (Hsub a) in Hok by (by eapply list_elem_of_lookup_2). done.
  - apply IH. intros l a Hin. apply Hall. by right.
Qed.

(** ** The counters of the servers *)

Lemma countValue_filter srvs v :
  countValue srvs v = length (filter (λ s, rv_counter s = v) srvs).
Proof.
  induction srvs as [|s srvs IH]; simpl; [done|]. case_bool_decide.
  - rewrite filter_cons_True by done. simpl. by rewrite IH.
  - by rewrite filter_cons_False.
Qed.

Lemma checkCounter_loop_iff polls v nsrv :
  checkCounter_loop polls v nsrv = Ret tt ↔ ∃ srvs, srvs ∈ polls ∧ (nsrv ≤ countValue srvs v)%nat.
Proof.
  induction polls as [|srvs polls IH]; simpl; [set_solver|]. case_bool_decide as Hn.
  - split; [|done]. intros _. exists srvs. split; [left|done].
  - rewrite IH. split; intros (srvs' & Hin & Hle); exists srvs'; [by split; [right|]|].
    apply elem_of_cons in Hin as [->|]; done.
Qed.

(** CheckCounter_correct: [checkCounter] waits until enough replicas have applied [v] Incs.
    Suppose that at every poll each server has executed a prefix of one log of Incs and Nulls,
    starting from zero. Then [checkCounter] succeeds exactly when at one of its thirty
    polls at least [nsrv] servers have executed a prefix with [v] Incs. *)
Theorem checkCounter_correct (log : list Req) (prefix : nat → list nat) polls v nsrv :
  forallb allowed_op log = true → Z.of_nat (length log) < 2 ^ 63 →
  (∀ k, Forall2 (λ s n, ∃ rs0 reps, rv_counter rs0 = 0 ∧
     run_list (rsmSrv_DoOp id) rs0 (take n log) = Ret (s, reps)) (polls k) (prefix k)) →
  checkCounter polls v nsrv = Ret tt ↔
  ∃ k, (k < 30)%nat ∧ (nsrv ≤ length (filter (λ n, incs (take n log) = v) (prefix k)))%nat.
Proof.
  intros Hlog Hlen Hpolls.
  assert (Hincs : ∀ l, 0 ≤ incs l ≤ Z.of_nat (length l)).
  { induction l as [|[] l IH]; simpl; lia. }
  assert (Hcount : ∀ k, countValue (polls k) v = length (filter (λ n, incs (take n log) = v) (prefix k))).
  { intros k. rewrite countValue_filter. induction (Hpolls k) as [|s n ss ns Hsn _ IH]; [done|].
    destruct Hsn as (rs0 & reps & H0 & Hrun).
    assert (Hc : rv_counter s = incs (take n log)).
    { destruct (run_ops (take n log) rs0) as (reps' & Hrun' & _); [by rewrite H0| |].
      - rewrite <- (take_drop n log), forallb_app in Hlog. by apply andb_true_iff in Hlog as [? _].
      - rewrite Hrun' in Hrun. simplify_eq. simpl. rewrite H0. apply i64_wrap_small.
        specialize (Hincs (take n log)). rewrite length_take in Hincs. lia. }
    destruct (decide (rv_counter s = v)).
    - rewrite !filter_cons_True by congruence. simpl. by rewrite IH.
    - rewrite !filter_cons_False by congruence. done. }
  unfold checkCounter. rewrite checkCounter_loop_iff. split.
  - intros (srvs & Hin & Hle). apply list_elem_of_fmap in Hin as (k & -> & Hk).
    apply elem_of_seq in Hk. exists k. rewrite <- Hcount. split; [lia|done].
  - intros (k & Hk & Hle). exists (polls k). rewrite Hcount. split; [|done].
    apply list_elem_of_fmap. exists k. split; [done|]. apply elem_of_seq. lia.
Qed.

(** [Leader] finds the first server with a Raft peer that says that it leads. *)
Lemma Leader_loop_spec svcs i :
  match Leader_loop i svcs with
  | (true, k) => ∃ j ss, k = (i + j)%nat ∧ svcs !! j = Some ss ∧ leads_any ss = true ∧
      ∀ j' ss', (j' < j)%nat → svcs !! j' = Some ss' → leads_any ss' = false
  | (false, _) => ∀ ss, ss ∈ svcs → leads_any ss = false
  end.
Proof.
  revert i. induction svcs as [|ss svcs IH]; intros i; simpl; [set_solver|].
  destruct (leads_any ss) eqn:E.
  - exists 0%nat, ss. split_and!; [lia|done|done|intros; lia].
  - specialize (IH (S i)). destruct (Leader_loop (S i) svcs) as [[] k].
    + destruct IH as (j & ss' & -> & Hj & Hl & Hb). exists (S j), ss'.
      split_and!; [lia|done|done|]. intros [|j'] ss2 Hlt H2; simpl in H2; [by simplify_eq|].
      eapply Hb; [|done]. lia.
    + intros ss' [->|Hin]%elem_of_cons; [done|by apply IH].
Qed.

(** ** Examples *)

Definition ex_rsm : rsmSrv := makeRsmSrv 3 0 [] (-1) 0 0.

Lemma rsmSrv_snapshot_replay_witness :
  ∃ rs1 reps1 rs2, run_list (rsmSrv_DoOp id) ex_rsm [Inc; Null; Inc] = Ret (rs1, reps1) ∧
    rsmSrv_Restore bytes_dec (makeRsmSrv 3 1 [] (-1) 7 9) (rsmSrv_Snapshot bytes_enc rs1) = Ret rs2.
Proof.
  eexists _, _.
  destruct (rsmSrv_snapshot_replay bytes_enc bytes_dec ex_rsm [Inc; Null; Inc] [Inc]
    (set_counter ex_rsm 2) [IncRep 1; NullRep; IncRep 2] (makeRsmSrv 3 1 [] (-1) 7 9))
    as (rs2 & Hrs2 & _); [exact (λ n, bytes_dec_enc n)|reflexivity|].
  exists rs2. split; [reflexivity|exact Hrs2].
Defined.

Lemma rsmSrv_counts_witness :
  ∃ rs' reps, run_list (rsmSrv_DoOp id) ex_rsm [Inc; Null; Inc] = Ret (rs', reps) ∧
    rv_counter rs' = 2.
Proof.
  destruct (rsmSrv_counts ex_rsm [Inc; Null; Inc] eq_refl) as (rs' & reps & H1 & H2 & _).
  exists rs', reps. split; [exact H1|exact H2].
Defined.

(** Server 1 leads; server 0, asked first, refuses. *)
Definition ex_answers : list SrvAnswer :=
  [mkSrvAnswer true true (ErrWrongLeader, None); mkSrvAnswer true true (OK, Some (IncRep 5))].

Lemma onePartition_correct_witness :
  ∃ res, onePartition [(0%nat, ex_answers)] (Some [0; 1]%nat) = Ret res ∧ res.2 = Some 1%nat.
Proof.
  destruct (onePartition_correct [(0%nat, ex_answers)] (Some [0; 1]%nat)) as (res & Hres & _).
  - intros leader answers Hin. apply list_elem_of_singleton in Hin. injection Hin as -> ->. simpl. lia.
  - exists res. split; [exact Hres|]. vm_compute in Hres. by injection Hres as <-.
Defined.

Lemma checkCounter_correct_witness :
  checkCounter (λ _, [set_counter ex_rsm 1; ex_rsm]) 1 1 = Ret tt.
Proof.
  apply (checkCounter_correct [Inc] (λ _, [1; 0]%nat)); [reflexivity|simpl; lia| |].
  - intros _. constructor; [|constructor; [|constructor]]; exists ex_rsm; eexists; split; reflexivity.
  - exists 0%nat. split; [lia|]. vm_compute. lia.
Defined.
