(* ===== verification/ShardTest.v ===== *)
(** * The tests of the sharded service ([shardkv1/test.go], [shardkv1/shardctrler])

    The tests grow and shrink the set of server groups: they start a group, have the
    controller change to a configuration that includes it, and look whether it did. The
    controller is a skeleton, so the test's side is verified against the interface that
    the controller is documented to have; against the skeleton it panics. *)

From stdpp Require Import pretty.
From S2P Require Export ShardCfg TesterConfig Rsm KvTest.

Local Open Scope Z_scope.

(** ** The controller ([shardctrler.go]) *)

(** What the test calls. [St] is what controllers share; [Query] may return nil. *)
Class ShardCtrler (St : Type) := {
  InitController : St → St;
  InitConfig : St → ShardConfig → St;
  ChangeConfigTo : St → ShardConfig → St;
  Query : St → St * option ShardConfig
}.

(** The code behind these methods is still to be written: only their comments say what they do.
    The classes that follow state those comments; they are hypotheses of the theorems that use
    them, and no translation of the code. [Query] returns the current configuration, ... *)
Class ShardCtrlerQuery (St : Type) `{ShardCtrler St} (current : St → option ShardConfig) := {
  query_current s : (Query s).2 = current s;
  current_query s : current (Query s).1 = current s
}.

(** ... [InitController] has nothing to do in part A, ... *)
Class ShardCtrlerReads (St : Type) `{ShardCtrler St} (current : St → option ShardConfig) := {
  #[global] ctrler_query :: ShardCtrlerQuery St current;
  current_init s : current (InitController s) = current s
}.

(** ... and with one controller at work, a call of [ChangeConfigTo] that has returned has made the
    configuration the current one. *)
Class ShardCtrlerLaws (St : Type) `{ShardCtrler St} (current : St → option ShardConfig) := {
  #[global] ctrler_reads :: ShardCtrlerReads St current;
  current_change s new : current (ChangeConfigTo s new) = Some new
}.

(** The controller of the repository: [Query] returns nil and the others do nothing. *)
Inductive SkeletonCtrler := mkSkeletonCtrler.

#[export] Instance skeleton_ctrler : ShardCtrler SkeletonCtrler := {|
  InitController := λ s, s;
  InitConfig := λ s _, s;
  ChangeConfigTo := λ s _, s;
  Query := λ s, (s, None)
|}.

(** A controller that keeps the configuration in a variable fulfils the contract. *)
#[export] Instance stored_ctrler : ShardCtrler (option ShardConfig) := {|
  InitController := λ s, s;
  InitConfig := λ _ cfg, Some cfg;
  ChangeConfigTo := λ _ new, Some new;
  Query := λ s, (s, s)
|}.

#[export] Instance stored_laws : ShardCtrlerLaws (option ShardConfig) id.
Proof. by repeat split. Qed.

(** ** The tests ([test.go]) *)

Definition ShNSRV : nat := 3.

(** The random names for the ends of a new group, and its servers of the network. *)
Record GroupDraw := mkGroupDraw { gd_names : list (list string); gd_starts : list (list string * nat) }.

(** The part of [Test] that changes. *)
Record ShTest := mkShTest { sh_cfg : Config (Svc := IService); sh_ngid : Z }.

(** [MakeTestMaxRaft]: one key/value server for the controller, whose services are [kvs]. *)
Definition MakeTestMaxRaft (reliable : bool) (d : GroupDraw)
    (kvs : Z → nat → option Persister → list IService) (now : Z) : outcome ShTest :=
  cfg ← MakeConfig reliable (gd_names d) kvs (gd_starts d) now;
  Ret (mkShTest (Begin cfg now) (Gid1 + 1)).

Definition newGid (ts : ShTest) : ShTest * Z :=
  (mkShTest (sh_cfg ts) (i64_wrap (sh_ngid ts + 1)), sh_ngid ts).

Fixpoint groups (ts : ShTest) (n : nat) : ShTest * list Z :=
  match n with
  | O => (ts, [])
  | S n => let '(ts, gid) := newGid ts in let '(ts, gids) := groups ts n in (ts, gid :: gids)
  end.

Section Controller.

Context {St : Type} `{ShardCtrler St}.

(** The order in which a map of groups is visited, and the services of the servers of a group. *)
Context (visit : gmap Z (list string) → list (Z * list string)).
Context (mks : Z → nat → option Persister → list IService).

Abbreviation Cfg := (Config (Svc := IService)).

(** The configuration that [Query] returns, where the code uses it: nil panics. *)
Definition query_config (s : St) : outcome (St * ShardConfig) :=
  match Query s with
  | (s, Some cfg) => Ret (s, cfg)
  | (_, None) => Panic "nil pointer dereference"
  end.

Definition checkMember (s : St) (gid : Z) : outcome (St * bool) :=
  '(s, cfg) ← query_config s;
  Ret (s, IsMember cfg gid).

(** [join] up to [ChangeConfigTo]: the configuration to change to. *)
Definition join_new (s : St) (gid : Z) (srvs : list string) : outcome (St * ShardConfig) :=
  '(s, cfg) ← query_config s;
  let newcfg := Copy (visit (Groups cfg)) cfg in
  '(newcfg, ok) ← JoinBalance newcfg [(gid, srvs)];
  if ok : bool then Ret (s, newcfg) else Fatal "join: group is already present".

Definition join (s : St) (gid : Z) (srvs : list string) : outcome St :=
  '(s, newcfg) ← join_new s gid srvs;
  Ret (ChangeConfigTo s newcfg).

Definition start_group (cfg : Cfg) (gid : Z) (d : GroupDraw) : outcome Cfg :=
  MakeGroupStart cfg gid (gd_names d) mks (gd_starts d).

(** [joinGroups]; each group comes with its random names. *)
Fixpoint joinGroups (cfg : Cfg) (s : St) (gids : list (Z * GroupDraw)) : outcome (Cfg * St * bool) :=
  match gids with
  | [] => Ret (cfg, s, true)
  | (gid, d) :: gids =>
      cfg ← start_group cfg gid d;
      sg ← the_group cfg gid;
      s ← join s gid (SrvNames sg);
      '(s, ok) ← checkMember s gid;
      if ok : bool then joinGroups cfg s gids else Ret (cfg, s, false)
  end.

Definition leave_new (s : St) (gid : Z) : outcome (St * ShardConfig) :=
  '(s, cfg) ← query_config s;
  let newcfg := Copy (visit (Groups cfg)) cfg in
  '(newcfg, ok) ← LeaveBalance newcfg [gid];
  if ok : bool then Ret (s, newcfg) else Fatal "leave: group is already not present".

Definition leave (s : St) (gid : Z) : outcome St :=
  '(s, newcfg) ← leave_new s gid;
  Ret (ChangeConfigTo s newcfg).

Fixpoint leaveGroups (cfg : Cfg) (s : St) (gids : list Z) : outcome (Cfg * St * bool) :=
  match gids with
  | [] => Ret (cfg, s, true)
  | gid :: gids =>
      s ← leave s gid;
      '(s, ok) ← checkMember s gid;
      if ok : bool then Ret (cfg, s, false)
      else
        cfg ← ExitGroup cfg gid;
        leaveGroups cfg s gids
  end.

(** [setupKVService]: the first group owns all shards. *)
Definition setupKVService (cfg : Cfg) (s : St) (d : GroupDraw) : outcome (Cfg * St * Z) :=
  let scfg := MakeShardConfig in
  cfg ← start_group cfg Gid1 d;
  sg ← the_group cfg Gid1;
  '(scfg, _) ← JoinBalance scfg [(Gid1, SrvNames sg)];
  Ret (cfg, InitConfig s scfg, Gid1).

(** One turn of a controller of [concurCtrler], from its new group id on. *)
Definition concur_turn (cfg : Cfg) (s : St) (ngid : Z) (d : GroupDraw) : outcome (Cfg * St) :=
  let s := InitController s in
  '(cfg, s, _) ← joinGroups cfg s [(ngid, d)];
  '(s, ok) ← checkMember s ngid;
  if ok : bool then
    '(cfg, s, _) ← leaveGroups cfg s [ngid];
    Ret (cfg, s)
  else Ret (cfg, s).

(** What the other goroutine of [partitionCtrler] was doing when it was cut off. *)
Inductive CtrlState := CtrlNone | JOIN | LEAVE.

(** The end of [partitionCtrler]: has the new controller finished what the old one had begun with
    group [ngid], after configuration [num]? *)
Definition recover (cfg : Cfg) (s : St) (state : CtrlState) (ngid num : Z) : outcome (Cfg * St) :=
  let s := InitController s in
  '(s, scfg) ← query_config s;
  if bool_decide (Num scfg ≤ num) then Fatal "didn't recover"
  else
    let present := IsMember scfg ngid in
    match state, present with
    | JOIN, false | LEAVE, true => Fatal "didn't recover correctly"
    | JOIN, true => '(cfg, s, _) ← leaveGroups cfg s [ngid]; Ret (cfg, s)
    | _, _ => Ret (cfg, s)
    end.

End Controller.

(** [disconnectClntFromLeader] *)
Definition disconnectClntFromLeader (w : World) (sg : ServerGrp (Svc := IService))
    : outcome (World * ServerGrp (Svc := IService) * nat) :=
  match RsmLeader sg with
  | (false, _) => Fatal "Leader failed"
  | (true, l) => '(w, sg) ← ShutdownServer w sg l; Ret (w, sg, l)
  end.

(** The loop of [checkShutdownSharding]: the Gets that complete, with the key's number and the
    value, until none does for two seconds. The number of completions. *)
Fixpoint completions (evs : list (nat * string)) (va : list string) (ndone : nat) : outcome nat :=
  match evs with
  | [] => Ret ndone
  | (i, v) :: evs =>
      expected ← index va i;
      if bool_decide (v ≠ expected) then Fatal "Get: wrong value" else completions evs va (S ndone)
  end.

(** [checkShutdownSharding] of the group [down], without what other clients do meanwhile. *)
Definition checkShutdownSharding (w : World) (sg : ServerGrp (Svc := IService)) (n : nat)
    (va : list string) (evs : list (nat * string)) (starts : list (list string * nat))
    : outcome (World * ServerGrp (Svc := IService)) :=
  '(w, sg) ← sg_Shutdown w sg;
  ndone ← completions evs va 0;
  if bool_decide (n ≤ ndone)%nat then Fatal "expected fewer completions"
  else
    '(net, sg) ← StartServers (w_net w) sg starts;
    Ret (with_net w net, sg).

(** The Gets at the end of [partitionCtrler] and [concurCtrler]. *)
Fixpoint check_gets (replies : list GetReply) (va : list string) : outcome unit :=
  match replies, va with
  | r :: replies, v :: va => _ ← CheckGet r v 1; check_gets replies va
  | _, _ => Ret tt
  end.

(** ** Reading the configuration *)

(** The names of the servers of group [g]. *)
Definition group_names (g : Z) : list string := ServerName g <$> seq 0 ShNSRV.

Lemma group_names_disjoint g h : g ≠ h → disjoint_servers (group_names g) (group_names h).
Proof.
  intros Hne x Hg Hh. unfold group_names in Hg, Hh.
  apply list_elem_of_fmap in Hg as (i & -> & _), Hh as (j & E & _).
  by apply ServerName_inj2 in E as [-> _].
Qed.

Lemma joinable_one c gid :
  Groups c !! gid = None → (∀ g srvs, Groups c !! g = Some srvs → srvs = group_names g) →
  joinable c [(gid, group_names gid)].
Proof.
  intros Hg Hn. split.
  - done.
  - apply NoDup_singleton.
  - by intros g ->%list_elem_of_singleton.
  - intros g1 s2 g2 s3 Hin H3. apply list_elem_of_singleton in Hin. simplify_eq.
    rewrite (Hn _ _ H3). apply group_names_disjoint. congruence.
  - intros g1 s2 g2 s3 H1 H2. apply list_elem_of_singleton in H1, H2. by simplify_eq.
Qed.

Section Reads.

Context {St : Type} (current : St → option ShardConfig) `{ShardCtrlerQuery St current}.

Lemma query_config_spec s c :
  current s = Some c → ∃ s', query_config s = Ret (s', c) ∧ current s' = Some c.
Proof.
  intros Hc. unfold query_config. pose proof (query_current s) as Hq.
  pose proof (current_query s) as Hs. destruct (Query s) as [s' o]. simpl in *.
  rewrite Hc in *. subst o. eauto.
Qed.

Lemma checkMember_spec s c gid :
  current s = Some c → ∃ s', checkMember s gid = Ret (s', IsMember c gid) ∧ current s' = Some c.
Proof.
  intros Hc. destruct (query_config_spec s c Hc) as (s' & E & Hc'). exists s'.
  unfold checkMember. by rewrite E.
Qed.

Context (visit : gmap Z (list string) → list (Z * list string)).
Context (visit_all : ∀ m, visit m ≡ₚ map_to_list m).

(** The configurations that [join] and [leave] change to. *)
Lemma join_new_spec s gid c :
  current s = Some c → valid_config c → Groups c !! gid = None →
  (∀ g srvs, Groups c !! g = Some srvs → srvs = group_names g) →
  ∃ s' c', join_new visit s gid (group_names gid) = Ret (s', c') ∧ current s' = Some c ∧ valid_config c' ∧
    Groups c' = <[gid := group_names gid]> (Groups c) ∧ Num c' = i64_wrap (Num c + 1).
Proof.
  intros Hc Hv Hg Hn. destruct (query_config_spec s c Hc) as (s1 & E & Hc1).
  pose proof (joinable_one c gid Hg Hn) as Hj.
  destruct (JoinBalance_spec c _ Hv Hj) as (c' & Hjb & Hnum & Hgs & Hv' & _).
  exists s1, c'. unfold join_new. rewrite E. simpl.
  rewrite Copy_spec by apply visit_all. rewrite Hjb. simpl. split_and!; [done|done|done| |done].
  rewrite Hgs. simpl. by rewrite insert_empty, <- insert_union_singleton_l.
Qed.

Lemma leave_new_spec s gid c :
  current s = Some c → valid_config c → is_Some (Groups c !! gid) →
  ∃ s' c', leave_new visit s gid = Ret (s', c') ∧ current s' = Some c ∧ valid_config c' ∧
    Groups c' = delete gid (Groups c) ∧ Num c' = i64_wrap (Num c + 1).
Proof.
  intros Hc Hv [srvs Hg]. destruct (query_config_spec s c Hc) as (s0 & E & Hc0).
  destruct (LeaveBalance_spec c [gid] Hv) as (c1 & El & Hn1 & Hg1 & Hv1 & _);
    [done|apply NoDup_singleton|intros g ->%list_elem_of_singleton; eauto|].
  exists s0, c1. split_and!; [|done|done| |done].
  - unfold leave_new. rewrite E. simpl. rewrite Copy_spec by apply visit_all. by rewrite El.
  - apply map_eq. intros g. rewrite Hg1. destruct (decide (g = gid)) as [->|Hne].
    + rewrite decide_True by left. by rewrite lookup_delete_eq.
    + rewrite lookup_delete_ne by done. by rewrite decide_False by by intros ?%list_elem_of_singleton.
Qed.

End Reads.

(** ** The invariant *)

Section Contract.

Context {St : Type} (current : St → option ShardConfig) `{ShardCtrlerLaws St current}.
Context (visit : gmap Z (list string) → list (Z * list string)).
Context (visit_all : ∀ m, visit m ≡ₚ map_to_list m).
Context (mks : Z → nat → option Persister → list IService).

Abbreviation Cfg := (Config (Svc := IService)).

(** The current configuration [c] is valid, and every group in it runs. *)
Record ctrl_ok (cfg : Cfg) (s : St) (c : ShardConfig) : Prop := {
  co_current : current s = Some c;
  co_valid : valid_config c;
  co_groups g srvs : Groups c !! g = Some srvs →
    srvs = group_names g ∧ ∃ sg, Group cfg g = Some sg ∧ wf sg ∧ SrvNames sg = srvs
}.

(** All the names that a group is started with. *)
Definition draw_names (d : GroupDraw) : list string := mjoin (gd_names d) ++ mjoin (gd_starts d).*1.

(** Names for three servers with three ends each, and again for when they start. *)
Definition draw_shape (d : GroupDraw) : Prop :=
  length (gd_names d) = ShNSRV ∧ length (gd_starts d) = ShNSRV ∧
  Forall (λ ns, length ns = ShNSRV) (gd_names d) ∧
  Forall (λ st : list string * nat, length st.1 = ShNSRV) (gd_starts d).

(** The random names are distinct and not in use. *)
Definition draws_ok (used : gset string) (ds : list GroupDraw) : Prop :=
  Forall draw_shape ds ∧ NoDup (mjoin (draw_names <$> ds)) ∧
  ∀ x, x ∈ mjoin (draw_names <$> ds) → x ∉ used.

(** Starting a group: it runs, and the other groups are as before. *)
Lemma start_group_spec cfg gid d ds :
  draws_ok (rn_ends (cf_net cfg)) (d :: ds) →
  ∃ cfg' sg, start_group mks cfg gid d = Ret cfg' ∧ Group cfg' gid = Some sg ∧ wf sg ∧
    SrvNames sg = group_names gid ∧ (∀ g, g ≠ gid → Group cfg' g = Group cfg g) ∧
    draws_ok (rn_ends (cf_net cfg')) ds.
Proof.
  intros (Hsh & Hnd & Hf). apply Forall_cons in Hsh as [(Hn & Hs & Hns & Hst) Hsh].
  simpl in Hnd, Hf. apply NoDup_app in Hnd as (Hnd & Hdis & Hnds).
  destruct (MakeGroupStart_spec cfg gid (gd_names d) mks (gd_starts d))
    as (net & sg & E & Hw & _ & _ & _ & _ & _ & Hnames & He); [done|by rewrite Hs, Hn|
    by rewrite Hn|by rewrite Hn|intros x Hx; apply Hf, elem_of_app; by left|].
  exists (with_groups cfg net (<[gid:=sg]> (cf_groups cfg))), sg. split_and!; [done| |done| | |].
  - unfold Group, lookupGroup. simpl. apply lookup_insert_eq.
  - by rewrite Hnames, Hn.
  - intros g Hg. unfold Group, lookupGroup. simpl. by rewrite lookup_insert_ne.
  - split_and!; [done|done|]. intros x Hx. simpl. rewrite He.
    assert (x ∉ rn_ends (cf_net cfg)) by (apply Hf, elem_of_app; by right).
    intros [Hin%elem_of_list_to_set|?]%elem_of_union; [|done]. by apply (Hdis x).
Qed.

Lemma join_spec s gid c :
  current s = Some c → valid_config c → Groups c !! gid = None →
  (∀ g srvs, Groups c !! g = Some srvs → srvs = group_names g) →
  ∃ s' c', join visit s gid (group_names gid) = Ret s' ∧ current s' = Some c' ∧ valid_config c' ∧
    Groups c' = <[gid := group_names gid]> (Groups c) ∧ Num c' = i64_wrap (Num c + 1).
Proof.
  intros Hc Hv Hg Hn.
  destruct (join_new_spec current visit visit_all s gid c Hc Hv Hg Hn) as (s' & c' & E & _ & Hc').
  exists (ChangeConfigTo s' c'), c'. unfold join. rewrite E. split; [done|]. split; [apply current_change|done].
Qed.

(** One group joins. *)
Lemma join_group_spec cfg s c gid d ds :
  ctrl_ok cfg s c → Groups c !! gid = None → draws_ok (rn_ends (cf_net cfg)) (d :: ds) →
  ∃ cfg1 sg s1 c1, start_group mks cfg gid d = Ret cfg1 ∧ the_group cfg1 gid = Ret sg ∧
    join visit s gid (SrvNames sg) = Ret s1 ∧ ctrl_ok cfg1 s1 c1 ∧
    Groups c1 = <[gid := group_names gid]> (Groups c) ∧ Num c1 = i64_wrap (Num c + 1) ∧
    (∀ g, g ≠ gid → Group cfg1 g = Group cfg g) ∧ draws_ok (rn_ends (cf_net cfg1)) ds.
Proof.
  intros [Hc Hv Hgs] Hg Hd.
  destruct (start_group_spec cfg gid d ds Hd) as (cfg1 & sg & E & Hsg & Hw & Hnames & Hoth & Hd').
  destruct (join_spec s gid c Hc Hv Hg) as (s1 & c1 & Hj & Hc1 & Hv1 & Hg1 & Hn1);
    [intros g srvs Hs; by apply Hgs in Hs as [-> _]|].
  exists cfg1, sg, s1, c1. split_and!; [done|unfold the_group; by rewrite Hsg|by rewrite Hnames| |done..].
  split; [done|done|]. intros g srvs Hs. rewrite Hg1 in Hs.
  apply lookup_insert_Some in Hs as [[<- <-]|[Hne Hs]].
  - split; [done|]. eauto.
  - rewrite Hoth by done. by apply Hgs.
Qed.

Lemma joinGroups_spec gids cfg s c :
  ctrl_ok cfg s c → NoDup gids.*1 → (∀ g, g ∈ gids.*1 → Groups c !! g = None) →
  (size (Groups c) + length gids ≤ 12)%nat → draws_ok (rn_ends (cf_net cfg)) gids.*2 →
  ∃ cfg' s' c', joinGroups visit mks cfg s gids = Ret (cfg', s', true) ∧ ctrl_ok cfg' s' c' ∧
    (size (Groups c') ≤ 12)%nat ∧
    (∀ g, Groups c' !! g = if decide (g ∈ gids.*1) then Some (group_names g) else Groups c !! g) ∧
    (∀ g, g ∉ gids.*1 → Group cfg' g = Group cfg g).
Proof.
  revert cfg s c. induction gids as [|[gid d] gids IH]; intros cfg s c Hok Hnd Hnew Hsize Hd.
  { simpl in Hsize. exists cfg, s, c. split_and!; [done|done|lia| |done].
    intros g. by rewrite decide_False by set_solver. }
  simpl in Hnd, Hnew, Hsize. apply NoDup_cons in Hnd as [Hgid Hnd].
  assert (Hfresh : Groups c !! gid = None) by (apply Hnew; left).
  destruct (join_group_spec cfg s c gid d gids.*2 Hok Hfresh Hd)
    as (cfg1 & sg & s1 & c1 & E1 & E2 & E3 & Hok1 & Hg1 & _ & Hoth & Hd1).
  assert (Hs1 : size (Groups c1) = S (size (Groups c))) by (rewrite Hg1; by apply map_size_insert_None).
  destruct (checkMember_spec current s1 c1 gid (co_current _ _ _ Hok1)) as (s2 & E4 & Hc2).
  rewrite (IsMember_group c1 gid) in E4; [|apply Hok1|lia|rewrite Hg1, lookup_insert_eq; eauto].
  assert (Hok2 : ctrl_ok cfg1 s2 c1) by (destruct Hok1; by split).
  destruct (IH cfg1 s2 c1 Hok2 Hnd) as (cfg' & s' & c' & E5 & Hok' & Hsz & Hg' & Hoth'); [| |done|].
  { intros g Hin. rewrite Hg1, lookup_insert_ne by (by intros ->). apply Hnew. by right. }
  { lia. }
  exists cfg', s', c'. cbn [joinGroups]. rewrite E1. simpl. rewrite E2. simpl. rewrite E3. simpl.
  rewrite E4. simpl. split_and!; [done|done|done| |].
  - intros g. rewrite Hg', Hg1. destruct (decide (g = gid)) as [->|Hne].
    + rewrite decide_False, lookup_insert_eq, decide_True by (done || by left). done.
    + rewrite lookup_insert_ne by done. by rewrite (decide_ext _ (g ∈ gid :: gids.*1)) by set_solver.
  - intros g [Hne Hin]%not_elem_of_cons. rewrite Hoth' by done. by apply Hoth.
Qed.

(** With at most twelve groups, every group has a shard. *)
Lemma group_has_shard c g :
  valid_config c → (size (Groups c) ≤ 12)%nat → is_Some (Groups c !! g) → g ∈ Shards c.
Proof.
  intros Hv Hs Hg. pose proof (IsMember_group c g Hv Hs Hg) as Hm. unfold IsMember in Hm.
  apply existsb_exists in Hm as (h & Hin%list_elem_of_In & ->%Z.eqb_eq). done.
Qed.

(** A group without a place in the configuration is not a member. *)
Lemma IsMember_none c g :
  valid_config c → Groups c !! g = None → g ≠ 0 → IsMember c g = false.
Proof.
  intros Hv Hg Hz. apply not_true_iff_false. unfold IsMember. rewrite existsb_exists.
  intros (h & Hin%list_elem_of_In & E%Z.eqb_eq). rewrite E in Hin.
  destruct (decide (Groups c = ∅)) as [He|Hne]; [by apply Hz, (vc_none _ Hv)|].
  destruct (vc_assigned _ Hv Hne g Hin) as [? Hs]. congruence.
Qed.

Lemma leave_spec s gid c :
  current s = Some c → valid_config c → is_Some (Groups c !! gid) →
  ∃ s' c', leave visit s gid = Ret s' ∧ current s' = Some c' ∧ valid_config c' ∧
    Groups c' = delete gid (Groups c) ∧ Num c' = i64_wrap (Num c + 1).
Proof.
  intros Hc Hv Hg. destruct (leave_new_spec current visit visit_all s gid c Hc Hv Hg) as (s' & c' & E & _ & Hc').
  exists (ChangeConfigTo s' c'), c'. unfold leave. rewrite E. split; [done|]. split; [apply current_change|done].
Qed.

(** One group leaves. *)
Lemma leave_group_spec cfg s c gid :
  ctrl_ok cfg s c → is_Some (Groups c !! gid) → gid ≠ 0 →
  ∃ s1 s2 c1 cfg1, leave visit s gid = Ret s1 ∧ checkMember s1 gid = Ret (s2, false) ∧
    ExitGroup cfg gid = Ret cfg1 ∧ ctrl_ok cfg1 s2 c1 ∧
    (∀ g, Groups c1 !! g = if decide (g = gid) then None else Groups c !! g) ∧
    Num c1 = i64_wrap (Num c + 1) ∧ Group cfg1 gid = None ∧
    (∀ g, g ≠ gid → Group cfg1 g = Group cfg g).
Proof.
  intros [Hc Hv Hgs] Hg Hz. destruct (leave_spec s gid c Hc Hv Hg) as (s1 & c1 & El & Hc1 & Hv1 & Hg1 & Hn1).
  destruct (checkMember_spec current s1 c1 gid Hc1) as (s2 & E2 & Hc2).
  rewrite IsMember_none in E2 by (done || by rewrite Hg1, lookup_delete_eq).
  destruct Hg as [srvs Hg]. destruct (Hgs gid srvs Hg) as (_ & sg & Hsg & Hw & _).
  destruct (ExitGroup_correct cfg gid sg Hsg Hw) as (cfg1 & Ex & Hgone & Hoth & _).
  assert (Hg1' : ∀ g, Groups c1 !! g = if decide (g = gid) then None else Groups c !! g).
  { intros g. rewrite Hg1. case_decide as Hne; [subst; apply lookup_delete_eq|by apply lookup_delete_ne]. }
  exists s1, s2, c1, cfg1. split_and!; [done|done|done| |done..].
  split; [done|done|]. intros g srvs' Hs. rewrite Hg1' in Hs. case_decide as Hne; [done|].
  rewrite Hoth by done. by apply Hgs.
Qed.

Lemma leaveGroups_spec gids cfg s c :
  ctrl_ok cfg s c → NoDup gids → (∀ g, g ∈ gids → is_Some (Groups c !! g)) → 0 ∉ gids →
  ∃ cfg' s' c', leaveGroups visit cfg s gids = Ret (cfg', s', true) ∧ ctrl_ok cfg' s' c' ∧
    (∀ g, Groups c' !! g = if decide (g ∈ gids) then None else Groups c !! g) ∧
    (∀ g, Group cfg' g = if decide (g ∈ gids) then None else Group cfg g).
Proof.
  revert cfg s c. induction gids as [|gid gids IH]; intros cfg s c Hok Hnd Hin Hz.
  { exists cfg, s, c. by split_and!. }
  apply NoDup_cons in Hnd as [Hgid Hnd]. apply not_elem_of_cons in Hz as [Hne0 Hz].
  destruct (leave_group_spec cfg s c gid Hok) as (s1 & s2 & c1 & cfg1 & E1 & E2 & E3 & Hok1 & Hg1 & _ & Hgone & Hoth);
    [apply Hin; left|done|].
  destruct (IH cfg1 s2 c1 Hok1 Hnd) as (cfg' & s' & c' & E4 & Hok' & Hg' & Hgr'); [|done|].
  { intros g Hg. rewrite Hg1, decide_False by (by intros ->). apply Hin. by right. }
  exists cfg', s', c'. cbn [leaveGroups]. rewrite E1. simpl. rewrite E2. simpl. rewrite E3. simpl.
  split_and!; [done|done| |].
  - intros g. rewrite Hg', Hg1. repeat case_decide; set_solver.
  - intros g. rewrite Hgr'. destruct (decide (g = gid)) as [->|Hne].
    + rewrite decide_False, Hgone, decide_True by (done || by left). done.
    + rewrite Hoth by done. by rewrite (decide_ext _ (g ∈ gid :: gids)) by set_solver.
Qed.

(** ** Properties *)

(** The skeleton cannot be asked: [joinGroups] panics after it has started the first group. *)
Lemma skeleton_joinGroups cfg gid d gids :
  draws_ok (rn_ends (cf_net cfg)) (d :: gids.*2) →
  joinGroups visit mks cfg mkSkeletonCtrler ((gid, d) :: gids) = Panic "nil pointer dereference".
Proof.
  intros Hd. destruct (start_group_spec cfg gid d gids.*2 Hd) as (cfg1 & sg & E & Hsg & _).
  cbn [joinGroups]. rewrite E. simpl. unfold the_group. by rewrite Hsg.
Qed.

(** C26: join_leave_restores: groups that join and leave again leave no trace, with any controller
    that keeps the contract of its comments: [Query] returns the current configuration,
    [InitController] leaves it, and a [ChangeConfigTo] that has returned has installed its
    configuration. With at most twelve groups in all, [joinGroups] of new groups then succeeds:
    each is started, is in the configuration with its three servers, and has a shard; the
    others stay. When they then leave, [leaveGroups] succeeds, the configuration is valid and has
    the groups it had before, the groups that left are gone and the others run as before. The
    controller of the repository is an empty skeleton that does not keep the contract: with it
    [joinGroups] panics on the nil configuration. *)
Theorem join_leave_restores gids cfg s c :
  ctrl_ok cfg s c → NoDup gids.*1 → 0 ∉ gids.*1 → (∀ g, g ∈ gids.*1 → Groups c !! g = None) →
  (size (Groups c) + length gids ≤ 12)%nat → draws_ok (rn_ends (cf_net cfg)) gids.*2 →
  (∃ cfg1 s1 c1, joinGroups visit mks cfg s gids = Ret (cfg1, s1, true) ∧ ctrl_ok cfg1 s1 c1 ∧
    valid_config c1 ∧ (∀ g, is_Some (Groups c1 !! g) → g ∈ Shards c1) ∧
    (∀ g, g ∈ gids.*1 → Groups c1 !! g = Some (group_names g)) ∧
    (∀ g, g ∉ gids.*1 → Groups c1 !! g = Groups c !! g) ∧
    ∃ cfg2 s2 c2, leaveGroups visit cfg1 s1 gids.*1 = Ret (cfg2, s2, true) ∧ ctrl_ok cfg2 s2 c2 ∧
      valid_config c2 ∧ (∀ g, is_Some (Groups c2 !! g) → g ∈ Shards c2) ∧
      Groups c2 = Groups c ∧ ∀ g, Group cfg2 g = if decide (g ∈ gids.*1) then None else Group cfg g) ∧
  (gids ≠ [] → joinGroups visit mks cfg mkSkeletonCtrler gids = Panic "nil pointer dereference").
Proof.
  intros Hok Hnd Hz Hnew Hsize Hd.
  split; [|destruct gids as [|[g d] gids]; intros ?; [done|by apply skeleton_joinGroups]].
  destruct (joinGroups_spec gids cfg s c Hok Hnd Hnew Hsize Hd) as (cfg1 & s1 & c1 & E1 & Hok1 & Hs1 & Hg1 & Hgr1).
  destruct (leaveGroups_spec gids.*1 cfg1 s1 c1 Hok1 Hnd) as (cfg2 & s2 & c2 & E2 & Hok2 & Hg2 & Hgr2);
    [intros g Hg; rewrite Hg1, decide_True by done; eauto|done|].
  assert (Hgs : Groups c2 = Groups c).
  { apply map_eq. intros g. rewrite Hg2, Hg1. case_decide as Hg; [|done]. symmetry. by apply Hnew. }
  exists cfg1, s1, c1. split_and!; [done|done|apply Hok1| | | |].
  - intros g. apply group_has_shard; [apply Hok1|lia].
  - intros g Hg. by rewrite Hg1, decide_True.
  - intros g Hg. by rewrite Hg1, decide_False.
  - exists cfg2, s2, c2. split_and!; [done|done|apply Hok2| |done|].
    + intros g. apply group_has_shard; [apply Hok2|]. rewrite Hgs. lia.
    + intros g. rewrite Hgr2. case_decide; [done|]. by apply Hgr1.
Qed.

(** ** More than twelve groups *)

Lemma full_config_NoDup c : valid_config c → size (Groups c) = 12%nat → NoDup (Shards c).
Proof.
  intros Hv Hs. assert (Hsub : elements (dom (Groups c)) ⊆+ Shards c).
  { apply NoDup_submseteq; [apply NoDup_elements|]. intros g Hg%elem_of_elements%elem_of_dom.
    pose proof (IsMember_group c g Hv ltac:(lia) Hg) as Hm. unfold IsMember in Hm.
    apply existsb_exists in Hm as (h & Hin%list_elem_of_In & ->%Z.eqb_eq). done. }
  assert (Hp : elements (dom (Groups c)) ≡ₚ Shards c).
  { apply submseteq_length_Permutation; [done|]. pose proof (vc_len _ Hv) as Hl. unfold len12 in Hl.
    change (length (elements (dom (Groups c)))) with (size (dom (Groups c))). rewrite size_dom. lia. }
  rewrite <- Hp. apply NoDup_elements.
Qed.

(** A group that joins twelve others gets no shard. *)
Lemma joined_full_valid c gid srvs :
  valid_config c → size (Groups c) = 12%nat → joinable c [(gid, srvs)] →
  valid_config (joined c [(gid, srvs)]).
Proof.
  intros Hv Hs Hj. assert (Hne : Groups c ≠ ∅) by (intros He; by rewrite He, map_size_empty in Hs).
  pose proof (λ g, joined_lookup c _ g Hj) as Hl. split.
  - apply Hv.
  - intros He. assert (Hg : is_Some (Groups (joined c [(gid, srvs)]) !! gid)) by (apply Hl; right; left).
    rewrite He, lookup_empty in Hg. by destruct Hg.
  - intros _ g Hg. apply Hl. left. by apply (vc_assigned _ Hv Hne).
  - intros g h _ _. simpl. pose proof (full_config_NoDup c Hv Hs) as Hnd.
    pose proof (occ_bounds h (Shards c)). destruct (decide (g ∈ Shards c)) as [Hin|Hno].
    + rewrite (NoDup_occ g) by done. lia.
    + rewrite occ_pos in Hno. lia.
Qed.

Lemma JoinBalance_full c gid srvs :
  valid_config c → size (Groups c) = 12%nat → joinable c [(gid, srvs)] →
  JoinBalance c [(gid, srvs)] = Ret (joined c [(gid, srvs)], true).
Proof.
  intros Hv Hs Hj. unfold JoinBalance. rewrite Join_ok by done. simpl.
  by rewrite Rebalance_id by by apply joined_full_valid.
Qed.

Lemma joined_full_member c gid :
  valid_config c → size (Groups c) = 12%nat → Groups c !! gid = None →
  IsMember (joined c [(gid, group_names gid)]) gid = false.
Proof.
  intros Hv Hsize Hg. apply not_true_iff_false. unfold IsMember. rewrite existsb_exists.
  intros (g & Hin%list_elem_of_In & ->%Z.eqb_eq). simpl in Hin.
  assert (Hne : Groups c ≠ ∅) by (intros He; by rewrite He, map_size_empty in Hsize).
  destruct (vc_assigned _ Hv Hne gid Hin) as [? Hs]. by rewrite Hg in Hs.
Qed.

(** ** A controller of [concurCtrler], alone *)

Lemma concur_turn_spec cfg s c ngid d :
  ctrl_ok cfg s c → ngid ≠ 0 → Groups c !! ngid = None → (size (Groups c) ≤ 11)%nat →
  draws_ok (rn_ends (cf_net cfg)) [d] →
  ∃ cfg' s' c', concur_turn visit mks cfg s ngid d = Ret (cfg', s') ∧ ctrl_ok cfg' s' c' ∧
    Groups c' = Groups c.
Proof.
  intros Hok Hne Hg Hsize Hd. unfold concur_turn.
  assert (Hok0 : ctrl_ok cfg (InitController s) c) by (destruct Hok; split; [by rewrite current_init|done..]).
  destruct (join_group_spec cfg (InitController s) c ngid d [] Hok0 Hg Hd)
    as (cfg1 & sg & s1 & c1 & E1 & E2 & E3 & Hok1 & Hg1 & _ & _ & _).
  assert (Hm : IsMember c1 ngid = true).
  { apply IsMember_group; [apply Hok1| |rewrite Hg1, lookup_insert_eq; eauto].
    rewrite Hg1, map_size_insert_None by done. lia. }
  destruct (checkMember_spec current s1 c1 ngid (co_current _ _ _ Hok1)) as (s2 & E4 & Hc2).
  destruct (checkMember_spec current s2 c1 ngid Hc2) as (s3 & E5 & Hc3). rewrite Hm in E4, E5.
  assert (Hok3 : ctrl_ok cfg1 s3 c1) by (destruct Hok1; by split).
  destruct (leave_group_spec cfg1 s3 c1 ngid Hok3) as (s4 & s5 & c2 & cfg2 & E6 & E7 & E8 & Hok2 & Hg2 & _);
    [rewrite Hg1, lookup_insert_eq; eauto|done|].
  cbn [joinGroups leaveGroups]. rewrite E1. simpl. rewrite E2. simpl. rewrite E3. simpl. rewrite E4. simpl.
  rewrite E5. simpl. rewrite E6. simpl. rewrite E7. simpl. rewrite E8. simpl.
  eexists _, _, c2. split_and!; [done|done|]. apply map_eq. intros g. rewrite Hg2, Hg1.
  case_decide as Hgn; [by subst|]. by rewrite lookup_insert_ne.
Qed.

End Contract.

Section AnyController.

Context {St : Type} `{ShardCtrler St}.
Context (visit : gmap Z (list string) → list (Z * list string)).
Context (visit_all : ∀ m, visit m ≡ₚ map_to_list m).
Context (mks : Z → nat → option Persister → list IService).

(** C27: setup_ok: the service that the tests set up, whatever the controller does, also with the
    skeleton of the repository: the first group runs with its three servers and no other group
    has changed, and [InitConfig] is called, once, with a configuration that is valid, has number
    1 and the first group with its servers as the only group, and gives it all shards. *)
Theorem setup_ok cfg (s : St) d :
  draws_ok (rn_ends (cf_net cfg)) [d] →
  ∃ cfg' scfg sg, setupKVService mks cfg s d = Ret (cfg', InitConfig s scfg, Gid1) ∧
    Group cfg' Gid1 = Some sg ∧ wf sg ∧ SrvNames sg = group_names Gid1 ∧
    (∀ g, g ≠ Gid1 → Group cfg' g = Group cfg g) ∧
    valid_config scfg ∧ Num scfg = 1 ∧ Groups scfg = {[Gid1 := SrvNames sg]} ∧
    Shards scfg = replicate 12 Gid1.
Proof.
  intros Hd. destruct (start_group_spec mks cfg Gid1 d [] Hd) as (cfg1 & sg & E & Hsg & Hw & Hnames & Hoth & _).
  destruct (JoinBalance_spec MakeShardConfig [(Gid1, group_names Gid1)] MakeShardConfig_valid)
    as (c & Hjb & Hnum & Hgs & Hv & _).
  { split; [done|apply NoDup_singleton|done|done|].
    intros g1 s1 g2 s2 H1%list_elem_of_singleton H2%list_elem_of_singleton. by simplify_eq. }
  assert (Hgs' : Groups c = {[Gid1 := group_names Gid1]}) by (rewrite Hgs; by vm_compute).
  exists cfg1, c, sg. unfold setupKVService. rewrite E. simpl.
  unfold the_group. rewrite Hsg. simpl. rewrite Hnames, Hjb. simpl.
  split_and!; [done..|by rewrite Hnum|done|].
  change (Shards c = replicate 12 Gid1). symmetry. apply replicate_as_elem_of. split; [apply (vc_len _ Hv)|]. intros g Hg.
  destruct (vc_assigned _ Hv ltac:(by rewrite Hgs') g Hg) as [? Hs].
  rewrite Hgs' in Hs. by apply lookup_singleton_Some in Hs as [<- _].
Qed.

(** C28: thirteenth_group: membership is told by shards, so a thirteenth group cannot join. Let
    [Query] answer with a valid configuration of twelve groups, which share the twelve shards,
    and let it answer with the configuration of the last [ChangeConfigTo] once that has
    returned: this is all that is asked of the controller. Then a group that joins is started
    and becomes part of the configuration, which stays valid, but it gets no shard:
    [checkMember] does not see it, and [joinGroups] reports failure. (With the skeleton of the
    repository, whose [Query] returns nil, [joinGroups] panics.) *)
Theorem thirteenth_group cfg (s s1 : St) c gid d :
  Query s = (s1, Some c) → (∀ new, (Query (ChangeConfigTo s1 new)).2 = Some new) →
  valid_config c → (∀ g srvs, Groups c !! g = Some srvs → srvs = group_names g) →
  size (Groups c) = 12%nat → Groups c !! gid = None →
  draws_ok (rn_ends (cf_net cfg)) [d] →
  (∃ cfg' c', joinGroups visit mks cfg s [(gid, d)] =
      Ret (cfg', (Query (ChangeConfigTo s1 c')).1, false) ∧
    valid_config c' ∧ Groups c' = <[gid := group_names gid]> (Groups c) ∧
    Shards c' = Shards c ∧ (gid ∉ Shards c') ∧ is_Some (Group cfg' gid)) ∧
  joinGroups visit mks cfg mkSkeletonCtrler [(gid, d)] = Panic "nil pointer dereference".
Proof.
  intros Hq Hch Hv Hgs Hsize Hg Hd. split; [|by apply skeleton_joinGroups].
  destruct (start_group_spec mks cfg gid d [] Hd) as (cfg1 & sg & E & Hsg & _ & Hnames & _ & _).
  pose proof (joinable_one c gid Hg Hgs) as Hj.
  set (c1 := joined c [(gid, group_names gid)]). specialize (Hch c1).
  exists cfg1, c1. cbn [joinGroups]. rewrite E. simpl.
  unfold the_group. rewrite Hsg. simpl. rewrite Hnames.
  unfold join, join_new, checkMember, query_config. rewrite Hq. simpl.
  rewrite Copy_spec by apply visit_all. rewrite JoinBalance_full by done. simpl. fold c1.
  destruct (Query (ChangeConfigTo s1 c1)) as [s2 o]. simpl in *. subst o. simpl.
  unfold c1. rewrite joined_full_member by done. fold c1.
  split_and!; [done|by apply joined_full_valid| |done| |by exists sg].
  - unfold c1. simpl. by rewrite insert_empty, <- insert_union_singleton_l.
  - intros Hin. simpl in Hin. assert (Hne : Groups c ≠ ∅) by (intros He; by rewrite He, map_size_empty in Hsize).
    destruct (vc_assigned _ Hv Hne gid Hin) as [? Hs]. by rewrite Hg in Hs.
Qed.

End AnyController.

(** With the controller as it stands, joining and leaving panic. *)
Lemma skeleton_panics visit gid srvs :
  join visit mkSkeletonCtrler gid srvs = Panic "nil pointer dereference" ∧
  leave visit mkSkeletonCtrler gid = Panic "nil pointer dereference" ∧
  checkMember mkSkeletonCtrler gid = Panic "nil pointer dereference".
Proof. done. Qed.

(** ** The other helpers *)

(** The group ids that a test draws are new and distinct. *)
Lemma groups_spec n ts :
  0 < sh_ngid ts → sh_ngid ts + Z.of_nat n < 2 ^ 63 →
  groups ts n = (mkShTest (sh_cfg ts) (sh_ngid ts + Z.of_nat n),
                 (λ i, sh_ngid ts + Z.of_nat i) <$> seq 0 n).
Proof.
  revert ts. induction n as [|n IH]; intros [cfg g] Hg Hn; simpl in *; [by rewrite Z.add_0_r|].
  rewrite i64_wrap_small by lia. rewrite IH by (simpl; lia). simpl. rewrite Z.add_0_r.
  f_equal; [f_equal; lia|]. f_equal. rewrite <- (fmap_S_seq 0 n), <- list_fmap_compose.
  apply list_fmap_ext. intros _ i _. simpl. lia.
Qed.

Lemma completions_spec evs va k m :
  completions evs va k = Ret m ↔
    m = (k + length evs)%nat ∧ ∀ i v, (i, v) ∈ evs → va !! i = Some v.
Proof.
  revert k. induction evs as [|[i v] evs IH]; intros k; simpl.
  { split; [intros [= <-]; split; [lia|set_solver]|]. intros [-> _]. f_equal. lia. }
  unfold index. destruct (va !! i) as [x|] eqn:Ei; simpl.
  - case_bool_decide as Hv.
    + split; [done|]. intros [_ Hall]. specialize (Hall i v ltac:(left)). congruence.
    + rewrite IH. split; intros [-> Hall]; (split; [lia|]).
      * intros i' v' [?|?]%elem_of_cons; [|by apply Hall]. simplify_eq. rewrite Ei. f_equal.
      * intros i' v' ?. apply Hall. by right.
  - split; [done|]. intros [_ Hall]. specialize (Hall i v ltac:(left)). congruence.
Qed.

(** ** Examples *)

(** Nine names, and nine more for when the servers start, from a prefix. *)
Definition ex_draw (p : string) : GroupDraw :=
  let nine q := (λ i, (λ j, p +:+ q +:+ pretty (Z.of_nat i) +:+ "." +:+ pretty (Z.of_nat j)) <$> seq 0 3) <$> seq 0 3 in
  mkGroupDraw (nine "a") (zip (nine "b") [1%nat; 2%nat; 3%nat]).

Definition ex_config : Config (Svc := IService) := mkConfig makeClnts newGroups MakeNetwork [] false 0 0 0 0.

Definition ex_services : Z → nat → option Persister → list IService := λ _ _ _, [SvcOther].

Lemma ex_draws_ok : draws_ok (rn_ends (cf_net ex_config)) [ex_draw "x"; ex_draw "y"].
Proof.
  split_and!.
  - repeat constructor.
  - apply (bool_decide_unpack _). by vm_compute.
  - intros x _. set_solver.
Qed.

Lemma ex_draw_ok : draws_ok (rn_ends (cf_net ex_config)) [ex_draw "x"].
Proof.
  split_and!.
  - repeat constructor.
  - apply (bool_decide_unpack _). by vm_compute.
  - intros x _. set_solver.
Qed.

Lemma setup_ok_witness :
  ∃ cfg' scfg, setupKVService ex_services ex_config mkSkeletonCtrler (ex_draw "x") =
      Ret (cfg', InitConfig mkSkeletonCtrler scfg, Gid1) ∧
    valid_config scfg ∧ Num scfg = 1 ∧ is_Some (Group cfg' Gid1).
Proof.
  destruct (setup_ok ex_services ex_config mkSkeletonCtrler (ex_draw "x") ex_draw_ok)
    as (cfg' & scfg & sg & E & Hg & _ & _ & _ & Hv & Hn & _).
  exists cfg', scfg. split; [exact E|]. split; [exact Hv|]. split; [exact Hn|]. exists sg. exact Hg.
Defined.

Lemma join_leave_restores_witness :
  ∃ cfg1 s1 cfg2 s2,
    joinGroups map_to_list ex_services ex_config (Some MakeShardConfig) [(5, ex_draw "x"); (7, ex_draw "y")]
      = Ret (cfg1, s1, true) ∧
    leaveGroups map_to_list cfg1 s1 [5; 7] = Ret (cfg2, s2, true) ∧
    joinGroups map_to_list ex_services ex_config mkSkeletonCtrler [(5, ex_draw "x"); (7, ex_draw "y")]
      = Panic "nil pointer dereference".
Proof.
  destruct (join_leave_restores id map_to_list (λ m, reflexivity _) ex_services
    [(5, ex_draw "x"); (7, ex_draw "y")] ex_config (Some MakeShardConfig) MakeShardConfig)
    as [(cfg1 & s1 & c1 & E1 & _ & _ & _ & _ & _ & cfg2 & s2 & c2 & E2 & _) Hp].
  - split; [reflexivity|apply MakeShardConfig_valid|]. intros g srvs Hg. discriminate Hg.
  - apply (bool_decide_unpack _). vm_compute. exact I.
  - apply (bool_decide_unpack _). vm_compute. exact I.
  - intros g _. reflexivity.
  - vm_compute. lia.
  - apply ex_draws_ok.
  - exists cfg1, s1, cfg2, s2. split; [exact E1|]. split; [exact E2|]. apply Hp. discriminate.
Defined.

(** Twelve groups. *)
Definition ex_twelve : gmap Z (list string) :=
  list_to_map ((λ i, (Z.of_nat (S i), group_names (Z.of_nat (S i)))) <$> seq 0 12).

Lemma ex_twelve_names g srvs : ex_twelve !! g = Some srvs → srvs = group_names g.
Proof.
  intros Hg. apply elem_of_list_to_map_2 in Hg.
  apply list_elem_of_fmap in Hg as (i & [= -> ->] & _). done.
Qed.

Lemma thirteenth_group_witness :
  ∃ c cfg' c', valid_config c ∧
    joinGroups map_to_list ex_services ex_config (Some c) [(20, ex_draw "x")] = Ret (cfg', Some c', false) ∧
    valid_config c' ∧ is_Some (Groups c' !! 20).
Proof.
  destruct (Rebalance_total (mkShardConfig 0 (replicate 12 0) ex_twelve) eq_refl)
    as (c & _ & _ & Hg & Hv). simpl in Hg.
  destruct (thirteenth_group map_to_list (λ m, reflexivity _) ex_services ex_config (Some c) (Some c) c 20 (ex_draw "x"))
    as [(cfg' & c' & E & Hv' & Hg' & _) _].
  - reflexivity.
  - reflexivity.
  - exact Hv.
  - intros g srvs. rewrite Hg. apply ex_twelve_names.
  - rewrite Hg. vm_compute. reflexivity.
  - rewrite Hg. vm_compute. reflexivity.
  - apply ex_draw_ok.
  - exists c, cfg', c'. split; [exact Hv|]. split; [exact E|]. split; [exact Hv'|].
    rewrite Hg', lookup_insert_eq. eexists. reflexivity.
Defined.
