(* ===== verification/KvSetup.v ===== *)
(** * Setting up key/value tests ([kvsrv1/test.go], [kvraft1], [shardkv1/shardgrp], [kvtest1/kvtest.go])

    Clerks are made on top of clients of the tester, and a test runs a number of clients at the
    same time. The replicated key/value server, its clerk and those of the shard groups are
    skeletons, translated as they stand. *)

From S2P Require Export TesterConfig Rsm KvTest Porcupine.

Local Open Scope Z_scope.

(** ** The skeletons *)

(** [KVServer] of [kvraft1/server.go]. *)
Record RaftKV := mkRaftKV { rk_me : Z; rk_dead : Z; rk_rsm : RSM }.

Definition RaftKV_DoOp (kv : RaftKV) (req : any) : outcome (RaftKV * any) := Ret (kv, any_nil).
Definition RaftKV_Snapshot (kv : RaftKV) : list Z := [].
Definition RaftKV_Restore (kv : RaftKV) (data : list Z) : outcome RaftKV := Ret kv.

#[export] Instance RaftKV_machine : StateMachine RaftKV any any := {|
  sm_DoOp := RaftKV_DoOp;
  sm_Snapshot := RaftKV_Snapshot;
  sm_Restore := RaftKV_Restore
|}.

(** The handlers leave the reply as it is. *)
Definition RaftKV_Get (kv : RaftKV) (args : GetArgs) (reply : GetReply) : RaftKV * GetReply := (kv, reply).
Definition RaftKV_Put (kv : RaftKV) (args : PutArgs) (reply : PutReply) : RaftKV * PutReply := (kv, reply).

Definition RaftKV_Kill (kv : RaftKV) : RaftKV := mkRaftKV (rk_me kv) 1 (rk_rsm kv).
Definition RaftKV_killed (kv : RaftKV) : bool := bool_decide (rk_dead kv = 1).

(** [StartKVServer]: the server and its services, itself and the Raft peer. *)
Definition StartRaftKV (peers me : Z) (persisted : list Z) (maxraftstate rnd now : Z)
    : RaftKV * list IService :=
  let kv := mkRaftKV me 0 (MakeRSM peers me persisted maxraftstate rnd now) in
  (kv, [SvcOther; SvcRaft (RSM_Raft (rk_rsm kv))]).

(** The clerk of [kvraft1/client.go]; a client is given by its pointer. *)
Record RaftClerk := mkRaftClerk { rc_clnt : nat; rc_servers : list string }.

Definition MakeRaftClerk (clnt : nat) (servers : list string) : RaftClerk := mkRaftClerk clnt servers.
Definition RaftClerk_Get (ck : RaftClerk) (key : string) : string * Tversion * Err := ("", 0, "").
Definition RaftClerk_Put (ck : RaftClerk) (key value : string) (version : Tversion) : Err := "".

(** [KVServer] of [shardkv1/shardgrp/server.go], with the arguments of its RPCs. *)
Record ShardKV := mkShardKV { sk_me : Z; sk_dead : Z; sk_rsm : RSM; sk_gid : Z }.

Record FreezeShardArgs := mkFreezeShardArgs { fs_Shard : Z; fs_Num : Z }.
Record FreezeShardReply := mkFreezeShardReply { fr_State : list Z; fr_Num : Z; fr_Err : Err }.
Record InstallShardArgs := mkInstallShardArgs { is_Shard : Z; is_State : list Z; is_Num : Z }.
Record InstallShardReply := mkInstallShardReply { ir_Err : Err }.
Record DeleteShardArgs := mkDeleteShardArgs { ds_Shard : Z; ds_Num : Z }.
Record DeleteShardReply := mkDeleteShardReply { dr_Err : Err }.

Definition ShardKV_DoOp (kv : ShardKV) (req : any) : outcome (ShardKV * any) := Ret (kv, any_nil).
Definition ShardKV_Snapshot (kv : ShardKV) : list Z := [].
Definition ShardKV_Restore (kv : ShardKV) (data : list Z) : outcome ShardKV := Ret kv.

#[export] Instance ShardKV_machine : StateMachine ShardKV any any := {|
  sm_DoOp := ShardKV_DoOp;
  sm_Snapshot := ShardKV_Snapshot;
  sm_Restore := ShardKV_Restore
|}.

Definition ShardKV_Get (kv : ShardKV) (args : GetArgs) (reply : GetReply) : ShardKV * GetReply := (kv, reply).
Definition ShardKV_Put (kv : ShardKV) (args : PutArgs) (reply : PutReply) : ShardKV * PutReply := (kv, reply).
Definition ShardKV_FreezeShard (kv : ShardKV) (args : FreezeShardArgs) (reply : FreezeShardReply)
    : ShardKV * FreezeShardReply := (kv, reply).
Definition ShardKV_InstallShard (kv : ShardKV) (args : InstallShardArgs) (reply : InstallShardReply)
    : ShardKV * InstallShardReply := (kv, reply).
Definition ShardKV_DeleteShard (kv : ShardKV) (args : DeleteShardArgs) (reply : DeleteShardReply)
    : ShardKV * DeleteShardReply := (kv, reply).
Definition ShardKV_Kill (kv : ShardKV) : ShardKV := mkShardKV (sk_me kv) 1 (sk_rsm kv) (sk_gid kv).
Definition ShardKV_killed (kv : ShardKV) : bool := bool_decide (sk_dead kv = 1).

Definition StartServerShardGrp (peers gid me : Z) (persisted : list Z) (maxraftstate rnd now : Z)
    : ShardKV * list IService :=
  let kv := mkShardKV me 0 (MakeRSM peers me persisted maxraftstate rnd now) gid in
  (kv, [SvcOther; SvcRaft (RSM_Raft (sk_rsm kv))]).

(** The clerk of a shard group, and the clerk of the sharded service. *)
Record ShardGrpClerk := mkShardGrpClerk { sg_clnt : nat; sg_clerk_servers : list string }.

Definition MakeShardGrpClerk (clnt : nat) (servers : list string) : ShardGrpClerk :=
  mkShardGrpClerk clnt servers.
Definition ShardGrpClerk_Get (ck : ShardGrpClerk) (key : string) : string * Tversion * Err := ("", 0, "").
Definition ShardGrpClerk_Put (ck : ShardGrpClerk) (key value : string) (version : Tversion) : Err := "".
Definition ShardGrpClerk_FreezeShard (ck : ShardGrpClerk) (s num : Z) : list Z * Err := ([], "").
Definition ShardGrpClerk_InstallShard (ck : ShardGrpClerk) (s : Z) (state : list Z) (num : Z) : Err := "".
Definition ShardGrpClerk_DeleteShard (ck : ShardGrpClerk) (s num : Z) : Err := "".

(** The controller's own clerk is that of the key/value server of group 0. *)
Record SrvClerk := mkSrvClerk { sc_clnt : nat; sc_server : string }.

Definition MakeSrvClerk (clnt : nat) (server : string) : SrvClerk := mkSrvClerk clnt server.

Record ShardCtrlerClerk := mkShardCtrlerClerk { cc_clnt : nat; cc_clerk : SrvClerk; cc_killed : Z }.

Definition MakeShardCtrler (clnt : nat) : ShardCtrlerClerk :=
  mkShardCtrlerClerk clnt (MakeSrvClerk clnt (ServerName GRP0 0)) 0.

Record ShardClerk := mkShardClerk { hc_clnt : nat; hc_sck : ShardCtrlerClerk }.

Definition MakeShardClerk (clnt : nat) (sck : ShardCtrlerClerk) : ShardClerk := mkShardClerk clnt sck.
Definition ShardClerk_Get (ck : ShardClerk) (key : string) : string * Tversion * Err := ("", 0, "").
Definition ShardClerk_Put (ck : ShardClerk) (key value : string) (version : Tversion) : Err := "".

(** ** Clerks of the tests *)

Record TestClerk (C : Type) := mkTestClerk { tk_clerk : C; tk_clnt : nat }.
Arguments mkTestClerk {_} _ _.
Arguments tk_clerk {_} _.
Arguments tk_clnt {_} _.

Section Clerks.

Context {Svc : Type}.

Abbreviation Cfg := (Config (Svc := Svc)).

Definition with_clnts (cfg : Cfg) (clnts : Clnts) : Cfg :=
  mkConfig clnts (cf_groups cfg) (cf_net cfg) (cf_killed cfg) (cf_failed cfg) (cf_start cfg)
    (cf_t0 cfg) (cf_rpcs0 cfg) (cf_ops cfg).

(** [kvtest.Test] *)
Record KTest := mkKTest { kt_cfg : Cfg; kt_oplog : OpLog; kt_randomkeys : bool }.

Definition kvtest_MakeTest (cfg : Cfg) (randomkeys : bool) : KTest := mkKTest cfg [] randomkeys.

Definition kvtest_Cleanup (ts : KTest) (orders : list (list (string * string)))
    (gorder : list (ServerGrp (Svc := Svc))) (now now' : Z) : outcome KTest :=
  _ ← End_ (kt_cfg ts) now;
  cfg ← Config_Cleanup (kt_cfg ts) orders gorder now';
  Ret (mkKTest cfg (kt_oplog ts) (kt_randomkeys ts)).

(** [ConnectClnts]: the clients, with the orders of their ends. *)
Fixpoint ConnectClnts (net : Network) (clnts : list (Clnt * list (string * string)))
    : Network * list Clnt :=
  match clnts with
  | [] => (net, [])
  | (c, order) :: clnts =>
      let '(net, c) := Clnt_ConnectAll net c order in
      let '(net, cs) := ConnectClnts net clnts in (net, c :: cs)
  end.

(** [MakeClerk] of the three services; [ptr] is the new client. *)
Definition kvsrv_MakeClerk (cfg : Cfg) (ptr : nat) : outcome (Cfg * TestClerk SrvClerk) :=
  clnts ← MakeClient (cf_clnts cfg) ptr;
  Ret (with_clnts cfg clnts, mkTestClerk (MakeSrvClerk ptr (ServerName GRP0 0)) ptr).

Definition kvraft_MakeClerk (cfg : Cfg) (ptr : nat) : outcome (Cfg * TestClerk RaftClerk) :=
  clnts ← MakeClient (cf_clnts cfg) ptr;
  sg ← the_group cfg GRP0;
  Ret (with_clnts cfg clnts, mkTestClerk (MakeRaftClerk ptr (SrvNames sg)) ptr).

Definition kvraft_MakeClerkTo (cfg : Cfg) (to : list nat) (ptr : nat)
    : outcome (Cfg * TestClerk RaftClerk) :=
  sg ← the_group cfg GRP0;
  ns ← SrvNamesTo sg to;
  clnts ← MakeClientTo (cf_clnts cfg) (Some ns) ptr;
  Ret (with_clnts cfg clnts, mkTestClerk (MakeRaftClerk ptr (SrvNames sg)) ptr).

(** [ptr'] is the client of the controller's clerk. *)
Definition shardkv_MakeClerk (cfg : Cfg) (ptr ptr' : nat) : outcome (Cfg * TestClerk ShardClerk) :=
  clnts ← MakeClient (cf_clnts cfg) ptr;
  clnts ← MakeClient clnts ptr';
  Ret (with_clnts cfg clnts, mkTestClerk (MakeShardClerk ptr (MakeShardCtrler ptr')) ptr).

Definition DeleteClerk {C} (cfg : Cfg) (tck : TestClerk C) (order : list (string * string))
    : outcome Cfg :=
  '(net, clnts) ← DeleteClient (cf_net cfg) (cf_clnts cfg) (tk_clnt tck) order;
  Ret (with_cnet (with_clnts cfg clnts) net).

(** [MakeTestKV]: one server. *)
Definition MakeTestKV (reliable : bool) (names : list (list string))
    (kvs : Z → nat → option Persister → list Svc) (starts : list (list string * nat)) (now : Z)
    : outcome KTest :=
  cfg ← MakeConfig reliable names kvs starts now;
  Ret (kvtest_MakeTest cfg false).

(** [kvraft1/test.go]: the title of a test, and the test. *)
Definition makeTitle (part : string) (nclients : Z) (crash partitions : bool) (maxraftstate : Z)
    (randomkeys : bool) : string :=
  let title := "Test: " in
  let title := if crash then title +:+ "restarts, " else title in
  let title := if partitions then title +:+ "partitions, " else title in
  let title := if bool_decide (maxraftstate ≠ -1) then title +:+ "snapshots, " else title in
  let title := if randomkeys then title +:+ "random keys, " else title in
  let title := if bool_decide (1 < nclients) then title +:+ "many clients" else title +:+ "one client" in
  title +:+ " (" +:+ part +:+ ")".

Definition kvraft_MakeTest (reliable randomkeys : bool) (names : list (list string))
    (kvs : Z → nat → option Persister → list Svc) (starts : list (list string * nat)) (now now' : Z)
    : outcome KTest :=
  cfg ← MakeConfig reliable names kvs starts now;
  let ts := kvtest_MakeTest cfg randomkeys in
  Ret (mkKTest (Begin (kt_cfg ts) now') (kt_oplog ts) (kt_randomkeys ts)).

End Clerks.

(** ** What a clerk can reach *)

(** Anything but connecting and disconnecting. *)
Definition only_calls (ops : list ClntOp) : Prop :=
  Forall (λ op, match op with OpEnd _ | OpOther => True | _ => False end) ops.

Lemma view_only_calls ops srvs v :
  only_calls ops → v_srvs v = srvs → (∀ s b, v_on v !! s = Some b → b = allowed srvs s) →
  v_srvs (foldl view_op v ops) = srvs ∧
  ∀ s b, v_on (foldl view_op v ops) !! s = Some b → b = allowed srvs s.
Proof.
  intros Hops. revert v. induction Hops as [|op ops Hop _ IH]; intros v Hs Hon; [done|]. simpl.
  apply IH; destruct op as [s| | | | |]; try done; simpl; destruct (v_on v !! s) eqn:E; try done.
  simpl. intros s' b. destruct (decide (s' = s)) as [->|Hne].
  - rewrite lookup_insert_eq. intros [= <-]. by rewrite Hs.
  - rewrite lookup_insert_ne by done. apply Hon.
Qed.

Lemma SrvNamesTo_spec {Svc} (sg : ServerGrp (Svc := Svc)) to :
  (∀ i, i ∈ to → (i < length (SrvNames sg))%nat) →
  ∃ ns, SrvNamesTo sg to = Ret ns ∧ ∀ s, s ∈ ns ↔ ∃ i, i ∈ to ∧ SrvNames sg !! i = Some s.
Proof.
  induction to as [|i to IH]; intros Hto; simpl; [exists []; split; [done|set_solver]|].
  destruct (lookup_lt_is_Some_2 (sg_servernames sg) i) as [n Hn]; [apply Hto; left|].
  destruct IH as (ns & -> & Hns); [intros; apply Hto; by right|].
  unfold index. rewrite Hn. simpl. exists (n :: ns). split; [done|]. intros s.
  rewrite elem_of_cons, Hns. unfold SrvNames. setoid_rewrite elem_of_cons. naive_solver.
Qed.

(** MakeClerkTo_reaches: a clerk that is made for some servers reaches exactly those.
    [MakeClerkTo] succeeds for any servers of the group; the clerk knows the names of all of
    them. However the clerk then calls servers, and whatever else happens to the network, the
    client's end to server [i] is enabled exactly when [i] was asked for, as long as nobody
    connects or disconnects the client. *)
Theorem MakeClerkTo_reaches {Svc} (cfg : Config (Svc := Svc)) sg to ptr :
  Group cfg GRP0 = Some sg → NoDup (SrvNames sg) → is_Some (clnts_clerks (cf_clnts cfg)) →
  (∀ i, i ∈ to → (i < length (SrvNames sg))%nat) →
  ∃ cfg' tck c, kvraft_MakeClerkTo cfg to ptr = Ret (cfg', tck) ∧
    rc_servers (tk_clerk tck) = SrvNames sg ∧ clnts_heap (cf_clnts cfg') !! ptr = Some c ∧
    ∀ net ops net' c', clnt_run (net, c) ops (net', c') → only_calls ops →
      ∀ i s x, SrvNames sg !! i = Some s → clnt_ends c' !! s = Some x →
        enabled net' x = true ↔ i ∈ to.
Proof.
  intros Hsg Hnd [clerks Hclerks] Hto. destruct (SrvNamesTo_spec sg to Hto) as (ns & Hns & Hin).
  unfold kvraft_MakeClerkTo, the_group. rewrite Hsg. simpl. rewrite Hns. simpl.
  unfold MakeClientTo. rewrite Hclerks. simpl. eexists _, _, (makeClntTo (Some ns)).
  split; [done|]. split; [done|]. split; [apply lookup_insert_eq|].
  intros net ops net' c' Hrun Hops i s x Hi Hx.
  destruct (sees_run _ _ _ (mkView (Some ns) ∅) Hrun) as [_ H2 _].
  { by split; simpl; [|intros s'; rewrite !lookup_empty|intros s' y; rewrite lookup_empty]. }
  specialize (H2 s). simpl in H2. rewrite Hx in H2. simpl in H2.
  destruct (view_only_calls ops (Some ns) (mkView (Some ns) ∅) Hops eq_refl) as [_ Hon]; [done|].
  rewrite (Hon s _ H2). simpl. rewrite bool_decide_eq_true, Hin. split.
  - intros (j & Hj & Hsj). by rewrite (NoDup_lookup _ _ _ _ Hnd Hi Hsj).
  - intros Hi'. by exists i.
Qed.

(** ** Clients at work *)

Section Spawn.

(** [res c v]: client [c] may return the result [v] when it is told to stop. *)
Context {V : Type} (res : nat → V → Prop).

(** A client of [runClient]: at work until it is told to stop, then about to send its result, to
    delete its clerk, and gone. *)
Inductive ClntPC := Working | Sending (v : V) | Deleting (v : V) | Gone (v : V).

(** [SpawnClientsAndWait] after all clients are started: [i] of them told to stop; results
    received; returned. *)
Inductive MainPC := Stopping (i : nat) | Receiving (rs : list V) | Returned (rs : list V).

Record Spawned := mkSpawned { sp_main : MainPC; sp_clnts : list ClntPC }.

Definition spawn (n : nat) : Spawned := mkSpawned (Stopping 0) (replicate n Working).

(** One communication, or the end of a client. The channel [done] is shared, so any client may
    take the signal. *)
Inductive spawn_step : Spawned → Spawned → Prop :=
  | sp_signal i cs c v :
      (i < length cs)%nat → cs !! c = Some Working → res c v →
      spawn_step (mkSpawned (Stopping i) cs) (mkSpawned (Stopping (S i)) (<[c := Sending v]> cs))
  | sp_all_signalled i cs :
      i = length cs →
      spawn_step (mkSpawned (Stopping i) cs) (mkSpawned (Receiving []) cs)
  | sp_receive rs cs v :
      cs !! length rs = Some (Sending v) →
      spawn_step (mkSpawned (Receiving rs) cs)
        (mkSpawned (Receiving (rs ++ [v])) (<[length rs := Deleting v]> cs))
  | sp_return rs cs :
      length rs = length cs →
      spawn_step (mkSpawned (Receiving rs) cs) (mkSpawned (Returned rs) cs)
  | sp_delete m cs c v :
      cs !! c = Some (Deleting v) →
      spawn_step (mkSpawned m cs) (mkSpawned m (<[c := Gone v]> cs)).

Definition is_working (p : ClntPC) : Prop := match p with Working => True | _ => False end.

#[export] Instance is_working_dec p : Decision (is_working p).
Proof. destruct p; apply _. Defined.

Definition is_deleting (p : ClntPC) : Prop := match p with Deleting _ => True | _ => False end.

#[export] Instance is_deleting_dec p : Decision (is_deleting p).
Proof. destruct p; apply _. Defined.

(** The result of a client that has stopped is one that it may return. *)
Definition result_ok (c : nat) (p : ClntPC) : Prop :=
  match p with Working => True | Sending v | Deleting v | Gone v => res c v end.

Definition done_with (v : V) (p : ClntPC) : Prop := p = Deleting v ∨ p = Gone v.

Record spawn_inv (n : nat) (s : Spawned) : Prop := {
  si_length : length (sp_clnts s) = n;
  si_result c p : sp_clnts s !! c = Some p → result_ok c p;
  si_main : match sp_main s with
            | Stopping i => (length (filter is_working (sp_clnts s)) + i = n)%nat ∧
                ∀ c p, sp_clnts s !! c = Some p → p = Working ∨ ∃ v, p = Sending v
            | Receiving rs | Returned rs =>
                (length rs ≤ n)%nat ∧
                (∀ c p v, sp_clnts s !! c = Some p → rs !! c = Some v → done_with v p) ∧
                (∀ c p, sp_clnts s !! c = Some p → (length rs ≤ c)%nat → ∃ v, p = Sending v) ∧
                match sp_main s with Returned _ => length rs = n | _ => True end
            end
}.

(** How much is left to do. *)
Definition clnt_left (p : ClntPC) : nat :=
  match p with Working => 3 | Sending _ => 2 | Deleting _ => 1 | Gone _ => 0 end.

Definition spawn_left (s : Spawned) : nat :=
  sum_list (clnt_left <$> sp_clnts s) +
  match sp_main s with Stopping _ => 2 | Receiving _ => 1 | Returned _ => 0 end.

Lemma sum_left_insert cs c p q :
  cs !! c = Some p →
  (sum_list (clnt_left <$> <[c := q]> cs) + clnt_left p = sum_list (clnt_left <$> cs) + clnt_left q)%nat.
Proof.
  revert c. induction cs as [|r cs IH]; intros [|c] Hc; csimpl in *; simplify_eq; [lia|].
  specialize (IH c Hc). lia.
Qed.

Lemma working_insert cs c q :
  cs !! c = Some Working → ¬ is_working q →
  S (length (filter is_working (<[c := q]> cs))) = length (filter is_working cs).
Proof.
  revert c. induction cs as [|r cs IH]; intros [|c] Hc Hq; simpl in *; simplify_eq.
  - by rewrite filter_cons_False, filter_cons_True by done.
  - destruct (decide (is_working r)).
    + rewrite !filter_cons_True by done. simpl. f_equal. by apply IH.
    + rewrite !filter_cons_False by done. by apply IH.
Qed.

Lemma spawn_step_left s s' : spawn_step s s' → (spawn_left s' < spawn_left s)%nat.
Proof.
  unfold spawn_left. destruct 1; simpl; [| | | |];
    try match goal with Hc : ?cs !! ?c = Some ?p |- context [<[?c := ?q]> ?cs] =>
      pose proof (sum_left_insert cs c p q Hc) as Hsum; simpl in Hsum end; lia.
Qed.

Lemma spawn_inv_init n : spawn_inv n (spawn n).
Proof.
  split; simpl.
  - apply length_replicate.
  - intros c p [-> _]%lookup_replicate. done.
  - split; [|intros c p [-> _]%lookup_replicate; by left].
    rewrite filter_id, length_replicate; [lia|]. by intros p ->%elem_of_replicate_inv.
Qed.

Lemma insert_lookup_cases (cs : list ClntPC) c q c' p :
  <[c := q]> cs !! c' = Some p → (c' = c ∧ p = q) ∨ (c' ≠ c ∧ cs !! c' = Some p).
Proof. rewrite list_lookup_insert_Some. naive_solver. Qed.

Lemma spawn_inv_receive n rs cs v :
  spawn_inv n (mkSpawned (Receiving rs) cs) → cs !! length rs = Some (Sending v) →
  spawn_inv n (mkSpawned (Receiving (rs ++ [v])) (<[length rs := Deleting v]> cs)).
Proof.
  intros [Hl Hr (Hle & Hdone & Hsend & _)] Hv. simpl in *. split; simpl.
  - by rewrite length_insert.
  - intros c p [[-> ->]|[_ Hc]]%insert_lookup_cases; [by apply (Hr _ _ Hv)|by apply Hr].
  - rewrite length_app. simpl. apply lookup_lt_Some in Hv as Hlt. split_and!; [lia| | |done].
    + intros c p w [[-> ->]|[Hne Hc]]%insert_lookup_cases Hw.
      * rewrite lookup_app_r, Nat.sub_diag in Hw by lia. simplify_eq/=. by left.
      * apply lookup_app_Some in Hw as [Hw|[Hge Hw]]; [by eapply Hdone|].
        apply list_lookup_singleton_Some in Hw as [? _]. lia.
    + intros c p [[-> ->]|[_ Hc]]%insert_lookup_cases Hge; [lia|]. apply (Hsend c p Hc). lia.
Qed.

Lemma spawn_inv_delete n m cs c v :
  spawn_inv n (mkSpawned m cs) → cs !! c = Some (Deleting v) →
  spawn_inv n (mkSpawned m (<[c := Gone v]> cs)).
Proof.
  intros [Hl Hr Hm] Hc. simpl in *.
  assert (Hrest : ∀ rs, ((length rs ≤ n)%nat ∧
    (∀ c p w, cs !! c = Some p → rs !! c = Some w → done_with w p) ∧
    (∀ c p, cs !! c = Some p → (length rs ≤ c)%nat → ∃ w, p = Sending w)) →
    (∀ c' p w, <[c := Gone v]> cs !! c' = Some p → rs !! c' = Some w → done_with w p) ∧
    (∀ c' p, <[c := Gone v]> cs !! c' = Some p → (length rs ≤ c')%nat → ∃ w, p = Sending w)).
  { intros rs (_ & Hd & Hs). split.
    - intros c' p w [[-> ->]|[_ Hc']]%insert_lookup_cases Hw; [|by eapply Hd].
      destruct (Hd _ _ _ Hc Hw) as [?|?]; simplify_eq. by right.
    - intros c' p [[-> ->]|[_ Hc']]%insert_lookup_cases Hge; [|by eapply Hs].
      by destruct (Hs _ _ Hc Hge). }
  split; simpl.
  - by rewrite length_insert.
  - intros c' p [[-> ->]|[_ Hc']]%insert_lookup_cases; [by apply (Hr _ _ Hc)|by apply Hr].
  - destruct m as [i|rs|rs].
    + destruct Hm as [_ Hp]. by destruct (Hp _ _ Hc) as [?|[? ?]].
    + destruct Hm as (H1 & H2 & H3 & H4). destruct (Hrest rs) as [? ?]; [done|]. done.
    + destruct Hm as (H1 & H2 & H3 & H4). destruct (Hrest rs) as [? ?]; [done|]. done.
Qed.

Lemma no_working cs : length (filter is_working cs) = 0%nat → ∀ c, cs !! c ≠ Some Working.
Proof.
  intros Hf c Hc. apply list_elem_of_lookup_2 in Hc.
  assert (Hin : Working ∈ filter is_working cs) by (by apply list_elem_of_filter).
  apply length_zero_iff_nil in Hf. rewrite Hf in Hin. by apply not_elem_of_nil in Hin.
Qed.

Lemma spawn_inv_step n s s' : spawn_step s s' → spawn_inv n s → spawn_inv n s'.
Proof.
  destruct 1 as [i cs c v Hi Hc Hv|i cs ->|rs cs v Hc|rs cs Hlen|m cs c v Hc]; intros Hinv.
  - destruct Hinv as [Hl Hr [Hcount Hp]]. simpl in *. split; simpl.
    + by rewrite length_insert.
    + intros c' p [[-> ->]|[_ Hc']]%insert_lookup_cases; [done|by apply Hr].
    + split.
      * assert (Hw := working_insert cs c (Sending v) Hc (λ f, f)). lia.
      * intros c' p [[-> ->]|[_ Hc']]%insert_lookup_cases; [right; eauto|by eapply Hp].
  - destruct Hinv as [Hl Hr [Hcount Hp]]. simpl in *. split; simpl; [done|done|].
    split_and!; [lia|done| |done]. intros c p Hc _.
    destruct (Hp c p Hc) as [->|?]; [|done]. exfalso. eapply (no_working cs); [lia|done].
  - by apply spawn_inv_receive.
  - destruct Hinv as [Hl Hr (H1 & H2 & H3 & _)]. simpl in *. split; simpl; [done|done|].
    split_and!; [done|done|done|lia].
  - by apply spawn_inv_delete.
Qed.

(** At the end, some client still has to delete its clerk, or all are gone. *)
Lemma returned_cases n rs cs :
  length cs = n → (∀ c p, cs !! c = Some p → result_ok c p) →
  (length rs ≤ n)%nat ∧ (∀ c p v, cs !! c = Some p → rs !! c = Some v → done_with v p) ∧
    (∀ c p, cs !! c = Some p → (length rs ≤ c)%nat → ∃ v, p = Sending v) ∧ length rs = n →
  (∃ s', spawn_step (mkSpawned (Returned rs) cs) s') ∨
  ∃ rs', mkSpawned (Returned rs) cs = mkSpawned (Returned rs') (Gone <$> rs') ∧ length rs' = n ∧
    ∀ c v, rs' !! c = Some v → res c v.
Proof.
  intros Hl Hr (_ & Hdone & _ & Hn).
  destruct (decide (Exists is_deleting cs)) as [(p & [c Hc]%list_elem_of_lookup & Hp)%Exists_exists|Hno].
  { left. destruct p; try done. eexists. by apply sp_delete. }
  assert (Hgone : ∀ c v, rs !! c = Some v → cs !! c = Some (Gone v)).
  { intros c v Hv. destruct (lookup_lt_is_Some_2 cs c) as [p Hp].
    { apply lookup_lt_Some in Hv. lia. }
    destruct (Hdone _ _ _ Hp Hv) as [->| ->]; [|done]. exfalso. apply Hno, Exists_exists.
    exists (Deleting v). split; [by eapply list_elem_of_lookup_2|done]. }
  right. exists rs. split_and!; [|done|].
  - f_equal. apply list_eq. intros c. rewrite list_lookup_fmap. destruct (rs !! c) as [v|] eqn:E; simpl.
    + by apply Hgone.
    + apply lookup_ge_None. apply lookup_ge_None in E. lia.
  - intros c v Hv. apply (Hr c (Gone v)). by apply Hgone.
Qed.

(** C32: spawnClientsAndWait_correct: spawning clients and waiting for them ends, with their results.
    If every client stops when it is told to, then no run is longer than three steps per client
    and two of the main goroutine; no run is stuck before the end; and at the end the result
    of every client is at its own index, and every client has deleted its clerk. *)
Theorem SpawnClientsAndWait_correct n :
  (∀ c, (c < n)%nat → ∃ v, res c v) →
  (∀ k s, nsteps spawn_step k (spawn n) s → (k ≤ 3 * n + 2)%nat) ∧
  ∀ s, rtc spawn_step (spawn n) s →
    (∃ s', spawn_step s s') ∨
    ∃ rs, s = mkSpawned (Returned rs) (Gone <$> rs) ∧ length rs = n ∧
      ∀ c v, rs !! c = Some v → res c v.
Proof.
  intros Hres. split.
  - intros k s Hk. assert (Hle : ∀ a b, nsteps spawn_step k a b → (k + spawn_left b ≤ spawn_left a)%nat).
    { clear. induction k as [|k IH]; intros a b Hab; inversion Hab as [|? ? c ? Hac Hcb]; subst; [lia|].
      apply spawn_step_left in Hac. specialize (IH _ _ Hcb). lia. }
    specialize (Hle _ _ Hk). assert (H0 : spawn_left (spawn n) = (3 * n + 2)%nat).
    { unfold spawn_left, spawn. simpl. f_equal. clear. induction n as [|n IH]; csimpl; [done|]. lia. }
    lia.
  - intros s Hs. assert (Hinv : spawn_inv n s).
    { eapply (rtc_invariant spawn_step (spawn_inv n)); [apply spawn_inv_init| |done].
      intros a b Ha Hab. by eapply spawn_inv_step. }
    destruct s as [[i|rs|rs] cs], Hinv as [Hl Hr Hm]; simpl in *.
    + left. destruct Hm as [Hcount _]. destruct (decide (i = length cs)) as [->|Hne].
      * eexists. by apply sp_all_signalled.
      * destruct (filter is_working cs) as [|p l] eqn:E; [simpl in Hcount; lia|].
        assert (Hp : p ∈ filter is_working cs) by (rewrite E; left).
        apply list_elem_of_filter in Hp as [Hw [c Hc]%list_elem_of_lookup].
        destruct p; try done. apply lookup_lt_Some in Hc as Hlt.
        destruct (Hres c) as [v Hv]; [lia|]. eexists. eapply sp_signal; [|done|done]. simpl in Hcount. lia.
    + left. destruct Hm as (Hle & _ & Hsend & _). destruct (decide (length rs = length cs)) as [He|Hne].
      * eexists. by apply sp_return.
      * destruct (lookup_lt_is_Some_2 cs (length rs)) as [p Hp]; [lia|].
        destruct (Hsend _ _ Hp) as [v ->]; [lia|]. eexists. by apply sp_receive.
    + by eapply returned_cases.
Qed.

End Spawn.

(** ** Examples *)

Definition ex_res (c v : nat) : Prop := v = (10 * c)%nat.

Lemma SpawnClientsAndWait_correct_witness :
  (∃ s, rtc (spawn_step ex_res) (spawn 2) s ∧ sp_main s = Stopping 1) ∧
  ∀ k s, nsteps (spawn_step ex_res) k (spawn 2) s → (k ≤ 8)%nat.
Proof.
  split.
  { exists (mkSpawned (Stopping 1) [Sending 0%nat; Working]). split; [|reflexivity]. apply rtc_once.
    apply (sp_signal _ 0 [Working; Working] 0 0%nat); [simpl; lia|reflexivity..]. }
  destruct (SpawnClientsAndWait_correct ex_res 2) as [H _].
  - intros c _. exists (10 * c)%nat. reflexivity.
  - exact H.
Defined.

Definition ex_sg : ServerGrp (Svc := nat) :=
  mkServerGrp [] (ServerName GRP0 <$> seq 0 3) GRP0 [] (λ _ _ _, []).

Definition ex_cfg : Config (Svc := nat) := mkConfig makeClnts {[GRP0 := ex_sg]} MakeNetwork [] false 0 0 0 0.

Lemma MakeClerkTo_reaches_witness :
  ∃ cfg' tck, kvraft_MakeClerkTo ex_cfg [0; 2]%nat 7 = Ret (cfg', tck) ∧
    rc_servers (tk_clerk tck) = SrvNames ex_sg.
Proof.
  destruct (MakeClerkTo_reaches ex_cfg ex_sg [0; 2]%nat 7) as (cfg' & tck & c & E & Hs & _).
  - reflexivity.
  - apply (bool_decide_unpack _). vm_compute. exact I.
  - eexists. reflexivity.
  - apply Forall_forall. repeat constructor.
  - exists cfg', tck. split; [exact E|exact Hs].
Defined.
