(* ===== verification/CtrlTest.v ===== *)
(** * Recovering a controller ([partitionCtrler] of [shardkv1/test.go])

    A goroutine has a controller join and leave groups for ever. The test shuts down one group,
    cuts the controller off, restarts the group, and starts a second controller, which must
    find the work of the first one finished. The goroutine and the test are steps of one
    relation, and a change of the configuration is a sequence of actions between which the
    controller can be cut off. The controller's code is still to be written, so the test is
    verified against what the comments in [shardctrler.go] and over [partitionCtrler] ask of it
    ([RecoveringCtrler] below). *)

From S2P Require Export KvSetup ShardTest.

Local Open Scope Z_scope.

(** ** Controllers that can be cut off *)

(** One action of [ChangeConfigTo s new], a Put or a message to a group, or [None] when it
    returns. *)
Class CtrlerActions (St : Type) := {
  change_action : St → ShardConfig → option St
}.

(** What the comments ask, where [unfinished] is the configuration of a change that has been begun
    and not finished. The actions of a change begin it, and finish it before [ChangeConfigTo]
    returns; a call that is not cut off is all its actions; and [InitController] of the next
    controller finishes what was begun. Nothing is said of a change of which no action has been
    made. *)
Class RecoveringCtrler (St : Type) `{ShardCtrler St} `{CtrlerActions St}
    (current unfinished : St → option ShardConfig) := {
  #[global] recovering_query :: ShardCtrlerQuery St current;
  unfinished_query s : unfinished (Query s).1 = unfinished s;
  recover_init s :
    unfinished (InitController s) = None ∧
    current (InitController s) = match unfinished s with Some new => Some new | None => current s end;
  change_action_ok s new :
    unfinished s = None ∨ unfinished s = Some new →
    match change_action s new with
    | None => unfinished s = None ∧ current s = Some new
    | Some s' => (unfinished s' = Some new ∧ current s' = current s) ∨
                 (unfinished s' = None ∧ current s' = Some new)
    end;
  change_actions s new :
    rtc (λ a b, change_action a new = Some b) s (ChangeConfigTo s new) ∧
    change_action (ChangeConfigTo s new) new = None
}.

(** Such a controller: it stores the next configuration before it does the work, and makes it the
    current one afterwards. *)
Definition TwoStep : Type := option ShardConfig * option ShardConfig.

#[export] Instance two_step_ctrler : ShardCtrler TwoStep := {|
  InitController := λ s, match s with (_, Some new) => (Some new, None) | _ => s end;
  InitConfig := λ _ cfg, (Some cfg, None);
  ChangeConfigTo := λ _ new, (Some new, None);
  Query := λ s, (s, s.1)
|}.

#[export] Instance two_step_actions : CtrlerActions TwoStep := {|
  change_action := λ s new,
    match s with
    | (cur, None) => if bool_decide (cur = Some new) then None else Some (cur, Some new)
    | (_, Some _) => Some (Some new, None)
    end
|}.

#[export] Instance two_step_recovering : RecoveringCtrler TwoStep fst snd.
Proof.
  split; [by split|done|by intros [? []]|..].
  - intros [cur [nx|]] new Hu; simpl in *; [by right|].
    case_bool_decide; simpl; [done|by left].
  - intros [cur nx] new. simpl. rewrite bool_decide_eq_true_2 by done. split; [|done].
    destruct nx as [nx|]; [by apply rtc_once|].
    destruct (decide (cur = Some new)) as [->|Hne]; [done|].
    eapply rtc_l; [rewrite bool_decide_eq_false_2 by done; done|by apply rtc_once].
Qed.

(** ** The goroutine and the test *)

(** The goroutine: before which statement it is. *)
Inductive GorPC :=
  | GNewGid          (* [ngid = ts.newGid()] *)
  | GSetJoin         (* [state = JOIN] *)
  | GStart           (* [joinGroups]: [MakeGroupStart] *)
  | GJoin            (* [joinGroups]: [join], up to [ChangeConfigTo] *)
  | GJoinTo (new : ShardConfig)  (* in [ChangeConfigTo] *)
  | GJoined          (* [joinGroups]: [checkMember] *)
  | GCheck           (* [checkMember] *)
  | GSetLeave        (* [state = LEAVE] *)
  | GLeave           (* [leaveGroups]: [leave], up to [ChangeConfigTo] *)
  | GLeaveTo (new : ShardConfig)  (* in [ChangeConfigTo] *)
  | GLeft            (* [leaveGroups]: [checkMember] *)
  | GExit            (* [leaveGroups]: [ExitGroup] *)
  | GDone.           (* returned: deposed *)

(** The statements that call the controller; they block once its client is cut off. *)
Definition calls_ctrler (g : GorPC) : bool :=
  match g with
  | GJoin | GJoinTo _ | GJoined | GCheck | GLeave | GLeaveTo _ | GLeft => true
  | _ => false
  end.

Inductive TestPC :=
  | MShutdown        (* [ts.Group(gid).Shutdown()] *)
  | MDisconnect      (* [clnt.DisconnectAll()] *)
  | MStart           (* [ts.Group(gid).StartServers()] *)
  | MRecover         (* from the second controller to [leaveGroups] *)
  | MReconnect       (* [clnt.ConnectAll()] *)
  | MGets            (* the Gets *)
  | MDelete          (* [DeleteClient] twice *)
  | MEnd.

Definition connected_to_clnt (m : TestPC) : bool :=
  match m with MShutdown | MDisconnect => true | _ => false end.

(** What the machine provides to the test: pointers, orders of ends, names for the servers that
    start, and the replies of the Gets. *)
Record MainDraw := mkMainDraw {
  md_ptr0 : nat;
  md_orders : list (string * string) * list (string * string);
  md_starts : list (list string * nat);
  md_replies : list GetReply
}.

Section PartitionCtrler.

Context {St : Type} `{ShardCtrler St} `{CtrlerActions St}.
Context (visit : gmap Z (list string) → list (Z * list string)).
Context (mks : Z → nat → option Persister → list IService).
(** [ts.partition], the group that is shut down, the client of the first controller, [va]. *)
Context (partition : bool) (gid : Z) (clnt : nat) (va : list string).

Abbreviation Cfg := (Config (Svc := IService)).

Definition makeShardCtrlerClnt (cfg : Cfg) (ptr : nat) : outcome (Cfg * ShardCtrlerClerk) :=
  clnts ← MakeClient (cf_clnts cfg) ptr;
  Ret (with_clnts cfg clnts, MakeShardCtrler ptr).

Definition makeShardCtrler (cfg : Cfg) (ptr : nat) : outcome (Cfg * ShardCtrlerClerk) :=
  makeShardCtrlerClnt cfg ptr.

(** A clerk of the controller's key/value server. *)
Definition makeKVClerk (cfg : Cfg) (ptr : nat) : outcome (Cfg * SrvClerk) :=
  clnts ← MakeClient (cf_clnts cfg) ptr;
  Ret (with_clnts cfg clnts, MakeSrvClerk ptr (ServerName GRP0 0)).

Definition shardkv_DeleteClerk {C} (cfg : Cfg) (tck : TestClerk C) (order : list (string * string))
    : outcome Cfg := DeleteClerk cfg tck order.

(** The state that the two goroutines share, and where each of them is. *)
Record PCtrl := mkPCtrl {
  pt_test : ShTest;
  pt_st : St;
  pt_num : Z;
  pt_state : CtrlState;
  pt_ngid : Z;
  pt_gor : GorPC;
  pt_main : TestPC;
  pt_clnt0 : nat
}.

Definition pt_cfg (p : PCtrl) : Cfg := sh_cfg (pt_test p).

Definition with_cfg (ts : ShTest) (cfg : Cfg) : ShTest := mkShTest cfg (sh_ngid ts).

(** Up to the [go] statement. *)
Definition partitionCtrler_begin (ts : ShTest) (s : St) : outcome PCtrl :=
  '(tcfg, _) ← makeShardCtrlerClnt (sh_cfg ts) clnt;
  let s := InitController s in
  '(s, cfg) ← query_config s;
  Ret (mkPCtrl (with_cfg ts tcfg) s (Num cfg) CtrlNone 0 GNewGid MShutdown clnt).

(** One action of [ChangeConfigTo], at [here], or its return. *)
Definition change_step (s : St) (new : ShardConfig) (here next : GorPC) : St * GorPC :=
  match change_action s new with
  | Some s => (s, here)
  | None => (s, next)
  end.

(** One statement of the goroutine, or one action of the controller; [d] has the names for a new
    group. *)
Definition gor_step (d : GroupDraw) (p : PCtrl) : outcome PCtrl :=
  let '(mkPCtrl ts s num state ngid g m clnt0) := p in
  match g with
  | GNewGid =>
      let '(ts, ngid) := newGid ts in Ret (mkPCtrl ts s num state ngid GSetJoin m clnt0)
  | GSetJoin => Ret (mkPCtrl ts s num JOIN ngid GStart m clnt0)
  | GStart =>
      cfg ← start_group mks (sh_cfg ts) ngid d;
      Ret (mkPCtrl (with_cfg ts cfg) s num state ngid GJoin m clnt0)
  | GJoin =>
      sg ← the_group (sh_cfg ts) ngid;
      '(s, new) ← join_new visit s ngid (SrvNames sg);
      Ret (mkPCtrl ts s num state ngid (GJoinTo new) m clnt0)
  | GJoinTo new =>
      let '(s, g) := change_step s new g GJoined in
      Ret (mkPCtrl ts s num state ngid g m clnt0)
  | GJoined =>
      '(s, _) ← checkMember s ngid;
      Ret (mkPCtrl ts s num state ngid GCheck m clnt0)
  | GCheck =>
      '(s, ok) ← checkMember s ngid;
      Ret (mkPCtrl ts s num state ngid (if ok : bool then GSetLeave else GDone) m clnt0)
  | GSetLeave => Ret (mkPCtrl ts s num LEAVE ngid GLeave m clnt0)
  | GLeave =>
      '(s, new) ← leave_new visit s ngid;
      Ret (mkPCtrl ts s num state ngid (GLeaveTo new) m clnt0)
  | GLeaveTo new =>
      let '(s, g) := change_step s new g GLeft in
      Ret (mkPCtrl ts s num state ngid g m clnt0)
  | GLeft =>
      '(s, ok) ← checkMember s ngid;
      Ret (mkPCtrl ts s num state ngid (if ok : bool then GNewGid else GExit) m clnt0)
  | GExit =>
      cfg ← ExitGroup (sh_cfg ts) ngid;
      Ret (mkPCtrl (with_cfg ts cfg) s num state ngid GNewGid m clnt0)
  | GDone => Panic "returned"
  end.

Definition set_group (cfg : Cfg) (g : Z) (w : World) (sg : ServerGrp (Svc := IService)) : Cfg :=
  mkConfig (cf_clnts cfg) (<[g := sg]> (cf_groups cfg)) (w_net w) (w_killed w) (cf_failed cfg)
    (cf_start cfg) (cf_t0 cfg) (cf_rpcs0 cfg) (cf_ops cfg).

(** An operation on the ends of a client. *)
Definition on_client (cfg : Cfg) (ptr : nat) (f : Network → Clnt → Network * Clnt) : outcome Cfg :=
  match clnts_heap (cf_clnts cfg) !! ptr with
  | None => Panic "nil pointer dereference"
  | Some c =>
      let '(net, c) := f (cf_net cfg) c in
      let clnts := mkClnts (clnts_clerks (cf_clnts cfg)) (<[ptr := c]> (clnts_heap (cf_clnts cfg))) in
      Ret (with_cnet (with_clnts cfg clnts) net)
  end.

(** One statement of the test, without the sleeping. *)
Definition main_step (d : MainDraw) (p : PCtrl) : outcome PCtrl :=
  let '(mkPCtrl ts s num state ngid g m clnt0) := p in
  let cfg := sh_cfg ts in
  match m with
  | MShutdown =>
      sg ← the_group cfg gid;
      '(w, sg) ← sg_Shutdown (mkWorld (cf_net cfg) (cf_killed cfg)) sg;
      Ret (mkPCtrl (with_cfg ts (set_group cfg gid w sg)) s num state ngid g MDisconnect clnt0)
  | MDisconnect =>
      cfg ← on_client cfg clnt (λ net c, Clnt_DisconnectAll net c (md_orders d).1);
      Ret (mkPCtrl (with_cfg ts cfg) s num state ngid g MStart clnt0)
  | MStart =>
      sg ← the_group cfg gid;
      '(net, sg) ← StartServers (cf_net cfg) sg (md_starts d);
      Ret (mkPCtrl (with_cfg ts (set_group cfg gid (mkWorld net (cf_killed cfg)) sg)) s num state ngid
             g MRecover clnt0)
  | MRecover =>
      '(cfg, _) ← makeShardCtrlerClnt cfg (md_ptr0 d);
      '(cfg, s) ← recover visit cfg s state ngid num;
      Ret (mkPCtrl (with_cfg ts cfg) s num state ngid g MReconnect (md_ptr0 d))
  | MReconnect =>
      cfg ← (if partition then on_client cfg clnt (λ net c, Clnt_ConnectAll net c (md_orders d).1)
             else Ret cfg);
      Ret (mkPCtrl (with_cfg ts cfg) s num state ngid g MGets clnt0)
  | MGets =>
      _ ← check_gets (md_replies d) va;
      Ret (mkPCtrl ts s num state ngid g MDelete clnt0)
  | MDelete =>
      '(net, clnts) ← DeleteClient (cf_net cfg) (cf_clnts cfg) clnt (md_orders d).1;
      '(net, clnts) ← DeleteClient net clnts clnt0 (md_orders d).2;
      Ret (mkPCtrl (with_cfg ts (with_cnet (with_clnts cfg clnts) net)) s num state ngid g MEnd clnt0)
  | MEnd => Panic "returned"
  end.

(** Either goroutine moves. The names of a new group are fresh; a controller that is cut off does
    not move. What a superseded controller does when it is connected again is not part of the
    contract, so there it does not move either. *)
Inductive partition_step (p : PCtrl) : PCtrl → Prop :=
  | pstep_gor d p' :
      (calls_ctrler (pt_gor p) = true → connected_to_clnt (pt_main p) = true) →
      (pt_gor p = GStart → draws_ok (rn_ends (cf_net (pt_cfg p))) [d]) → gor_step d p = Ret p' → partition_step p p'
  | pstep_main d p' : main_step d p = Ret p' → partition_step p p'.

End PartitionCtrler.

(** ** What the test accepts *)

Section Recovery.

Context {St : Type} (current unfinished : St → option ShardConfig) `{RecoveringCtrler St current unfinished}.
Context (visit : gmap Z (list string) → list (Z * list string)).
Context (visit_all : ∀ m, visit m ≡ₚ map_to_list m).
Context (mks : Z → nat → option Persister → list IService).
Context (partition : bool) (gid : Z) (clnt : nat) (va : list string).

(** Before the goroutine starts: the configuration, and the next group id. *)
Context (c0 : ShardConfig) (n0 : Z).

Abbreviation Cfg := (Config (Svc := IService)).

Record start_ok : Prop := {
  so_valid : valid_config c0;
  so_size : (size (Groups c0) ≤ 11)%nat;
  so_gid : is_Some (Groups c0 !! gid);
  so_ids g : is_Some (Groups c0 !! g) → g < n0;
  so_names g srvs : Groups c0 !! g = Some srvs → srvs = group_names g;
  so_n0 : 0 < n0 < 2 ^ 60;
  so_num : 0 ≤ Num c0 < 2 ^ 60
}.

Definition runs (cfg : Cfg) (g : Z) : Prop :=
  ∃ sg, Group cfg g = Some sg ∧ wf sg ∧ SrvNames sg = group_names g.

(** What the goroutine has written to [state] and [ngid], with [n] the next id. *)
Definition vars_ok (g : GorPC) (state : CtrlState) (ngid n : Z) : Prop :=
  match g with
  | GNewGid => (state = CtrlNone ∧ n = n0) ∨ (state = LEAVE ∧ n0 ≤ ngid ∧ ngid + 1 = n)
  | GSetJoin => n0 ≤ ngid ∧ ngid + 1 = n ∧ (if bool_decide (ngid = n0) then state = CtrlNone else state = LEAVE)
  | GStart | GJoin | GJoinTo _ | GJoined | GCheck | GSetLeave => n0 ≤ ngid ∧ ngid + 1 = n ∧ state = JOIN
  | GLeave | GLeaveTo _ | GLeft | GExit => n0 ≤ ngid ∧ ngid + 1 = n ∧ state = LEAVE
  | GDone => False
  end.

(** A configuration after [changes] changes, with group [ngid] or without. *)
Record stage (c : ShardConfig) (inside : bool) (ngid changes : Z) : Prop := {
  sg_valid : valid_config c;
  sg_groups : Groups c = if inside then <[ngid := group_names ngid]> (Groups c0) else Groups c0;
  sg_num : Num c = Num c0 + changes
}.

(** The change from [old] to [new] has not been begun, is under way, or has been finished. *)
Definition change_at (s : St) (old new : ShardConfig) : Prop :=
  (unfinished s = None ∨ unfinished s = Some new) ∧ (current s = Some old ∨ current s = Some new).

(** The configuration and what is under way, at each statement; a new group id is two changes. *)
Definition ctrl_at (g : GorPC) (s : St) (ngid n : Z) : Prop :=
  let rest b k := unfinished s = None ∧ ∃ c, current s = Some c ∧ stage c b ngid k in
  match g with
  | GNewGid => rest false (2 * (n - n0))
  | GSetJoin | GStart | GJoin => rest false (2 * (n - 1 - n0))
  | GJoinTo new => ∃ c, stage c false ngid (2 * (n - 1 - n0)) ∧ stage new true ngid (2 * (n - 1 - n0) + 1) ∧
                     change_at s c new
  | GJoined | GCheck | GSetLeave | GLeave => rest true (2 * (n - 1 - n0) + 1)
  | GLeaveTo new => ∃ c, stage c true ngid (2 * (n - 1 - n0) + 1) ∧ stage new false ngid (2 * (n - n0)) ∧
                      change_at s c new
  | GLeft | GExit | GDone => rest false (2 * (n - n0))
  end.

(** After [k] steps, before the recovery. *)
Record pt_inv (k : nat) (p : PCtrl (St := St)) : Prop := {
  pi_ctrl : ctrl_at (pt_gor p) (pt_st p) (pt_ngid p) (sh_ngid (pt_test p));
  pi_num0 : pt_num p = Num c0;
  pi_next : n0 ≤ sh_ngid (pt_test p) ≤ n0 + Z.of_nat k;
  pi_vars : vars_ok (pt_gor p) (pt_state p) (pt_ngid p) (sh_ngid (pt_test p));
  pi_runs : match pt_gor p with GNewGid | GSetJoin | GStart => True | _ => runs (pt_cfg p) (pt_ngid p) end
}.

Definition pt_ok (k : nat) (p : PCtrl (St := St)) : Prop :=
  match pt_main p with
  | MShutdown | MDisconnect | MStart | MRecover => pt_inv k p
  | _ => True
  end.

Context (Hstart : start_ok).

Lemma new_group_fresh g : n0 ≤ g → Groups c0 !! g = None.
Proof.
  intros Hg. destruct (Groups c0 !! g) as [srvs|] eqn:E; [|done].
  apply mk_is_Some, (so_ids Hstart) in E. lia.
Qed.

Lemma stage_member c ngid k :
  stage c true ngid k → n0 ≤ ngid → IsMember c ngid = true.
Proof.
  intros [Hv Hg _] Hn. pose proof (so_size Hstart). apply IsMember_group; [done| |].
  - rewrite Hg, map_size_insert_None by by apply new_group_fresh. lia.
  - rewrite Hg, lookup_insert_eq. eauto.
Qed.

Lemma stage_not_member c ngid k :
  stage c false ngid k → n0 ≤ ngid → IsMember c ngid = false.
Proof.
  intros [Hv Hg _] Hn. pose proof (so_n0 Hstart).
  apply IsMember_none; [done|rewrite Hg; by apply new_group_fresh|lia].
Qed.

Lemma stage_eq c b ngid k k' : stage c b ngid k → k = k' → stage c b ngid k'.
Proof. by intros ? <-. Qed.

(** Asking begins nothing. *)
Lemma query_unfinished s s' c : query_config s = Ret (s', c) → unfinished s' = unfinished s.
Proof.
  unfold query_config. pose proof (unfinished_query s) as Hq.
  destruct (Query s) as [s1 [q|]]; simpl in *; intros; by simplify_eq.
Qed.

Lemma checkMember_unfinished s s' g b : checkMember s g = Ret (s', b) → unfinished s' = unfinished s.
Proof. unfold checkMember. intros E. bind_inv E. simplify_eq. by eapply query_unfinished. Qed.

Lemma join_new_unfinished s s' g srvs c :
  join_new visit s g srvs = Ret (s', c) → unfinished s' = unfinished s.
Proof.
  unfold join_new. intros E. bind_inv E. bind_inv E. case_match; simplify_eq. by eapply query_unfinished.
Qed.

Lemma leave_new_unfinished s s' g c : leave_new visit s g = Ret (s', c) → unfinished s' = unfinished s.
Proof.
  unfold leave_new. intros E. bind_inv E. bind_inv E. case_match; simplify_eq. by eapply query_unfinished.
Qed.

(** The change that [join] computes, and the one that [leave] computes. *)
Lemma stage_join s c ngid k :
  current s = Some c → stage c false ngid k → n0 ≤ ngid → 0 ≤ k < 2 ^ 61 →
  ∃ s' new, join_new visit s ngid (group_names ngid) = Ret (s', new) ∧
    unfinished s' = unfinished s ∧ current s' = Some c ∧ stage new true ngid (k + 1).
Proof.
  intros Hc [Hv Hg Hn] Hni Hk. destruct (so_num Hstart) as [Hq0 Hq1].
  destruct (join_new_spec current visit visit_all s ngid c Hc Hv) as (s' & new & E & Hc' & Hv' & Hg' & Hn');
    [rewrite Hg; by apply new_group_fresh|rewrite Hg; apply Hstart|].
  rewrite i64_wrap_small in Hn' by lia.
  exists s', new. split_and!; [done|by eapply join_new_unfinished|done|].
  split; [done|by rewrite Hg', Hg|lia].
Qed.

Lemma stage_leave s c ngid k :
  current s = Some c → stage c true ngid k → n0 ≤ ngid → 0 ≤ k < 2 ^ 61 →
  ∃ s' new, leave_new visit s ngid = Ret (s', new) ∧
    unfinished s' = unfinished s ∧ current s' = Some c ∧ stage new false ngid (k + 1).
Proof.
  intros Hc [Hv Hg Hn] Hni Hk. destruct (so_num Hstart) as [Hq0 Hq1].
  destruct (leave_new_spec current visit visit_all s ngid c Hc Hv) as (s' & new & E & Hc' & Hv' & Hg' & Hn');
    [rewrite Hg, lookup_insert_eq; eauto|].
  rewrite i64_wrap_small in Hn' by lia.
  exists s', new. split_and!; [done|by eapply leave_new_unfinished|done|]. split; [done| |lia].
  by rewrite Hg', Hg, delete_insert_id by by apply new_group_fresh.
Qed.

(** One more action of a change. *)
Lemma change_at_action s c new :
  change_at s c new →
  match change_action s new with
  | Some s' => change_at s' c new
  | None => unfinished s = None ∧ current s = Some new
  end.
Proof.
  intros [Hu Hc]. pose proof (change_action_ok s new Hu) as Ha.
  destruct (change_action s new) as [s'|]; [|done].
  destruct Ha as [[? Ec]|[? Ec]]; split; rewrite ?Ec; auto.
Qed.

(** A change that is not cut off. *)
Lemma change_finishes s new :
  unfinished s = None → unfinished (ChangeConfigTo s new) = None ∧ current (ChangeConfigTo s new) = Some new.
Proof.
  intros Hu. destruct (change_actions s new) as [Hr Hend].
  assert (Hu' : unfinished (ChangeConfigTo s new) = None ∨ unfinished (ChangeConfigTo s new) = Some new).
  { apply (rtc_invariant (λ a b, change_action a new = Some b)
      (λ x, unfinished x = None ∨ unfinished x = Some new) s); [by left| |done].
    intros x y Hx Hxy. pose proof (change_action_ok x new Hx) as Ha. rewrite Hxy in Ha.
    destruct Ha as [[? _]|[? _]]; auto. }
  pose proof (change_action_ok _ _ Hu') as Ha. by rewrite Hend in Ha.
Qed.

Ltac pt_build := split; simpl in *; try done; try lia.

Lemma gor_local_inv k p d p' :
  calls_ctrler (pt_gor p) = false → pt_inv k p → Z.of_nat k < 2 ^ 58 →
  (pt_gor p = GStart → draws_ok (rn_ends (cf_net (pt_cfg p))) [d]) →
  gor_step visit mks d p = Ret p' → pt_inv (S k) p' ∧ pt_main p' = pt_main p.
Proof.
  intros Hl [Hc Hn0 Hnx Hvars Hr] Hk Hd Hs. destruct (so_n0 Hstart) as [Hp0 Hp1].
  destruct p as [[cfg n] s num state ngid g m clnt0]. unfold pt_cfg in *.
  destruct g; simpl in *; try discriminate.
  - rewrite i64_wrap_small in Hs by lia. simplify_eq. split; [|done]. pt_build.
    + destruct Hc as (Hu & c & Hc & [Hv Hg Hnum]). split; [done|]. exists c. split; [done|].
      split; [done|done|]. rewrite Hnum. lia.
    + split_and!; [destruct Hvars as [[? ?]|(? & ? & ?)]; lia|lia|].
      destruct Hvars as [[-> ->]|(-> & ? & ?)]; [by rewrite bool_decide_eq_true_2|].
      rewrite bool_decide_eq_false_2 by lia. done.
  - simplify_eq. split; [|done]. pt_build. by destruct Hvars as (? & ? & _).
  - destruct (start_group_spec mks cfg ngid d [] (Hd eq_refl)) as (cfg1 & sg & E & Hsg & Hw & Hnm & _).
    rewrite E in Hs. simplify_eq/=. split; [|done]. pt_build. by exists sg.
  - simplify_eq. split; [|done]. pt_build. by destruct Hvars as (? & ? & _).
  - destruct Hr as (sg & Hsg & Hw & _).
    destruct (ExitGroup_correct cfg ngid sg Hsg Hw) as (cfg1 & E & _). rewrite E in Hs. simplify_eq/=.
    split; [|done]. pt_build. right. by destruct Hvars as (? & ? & ?).
Qed.

Lemma gor_ctrler_inv k p d p' :
  calls_ctrler (pt_gor p) = true → pt_inv k p → Z.of_nat k < 2 ^ 58 →
  gor_step visit mks d p = Ret p' → pt_inv (S k) p' ∧ pt_main p' = pt_main p.
Proof.
  intros Hl [Hc Hn0 Hnx Hvars Hr] Hk Hs. destruct (so_n0 Hstart) as [Hp0 Hp1].
  destruct p as [[cfg n] s num state ngid g m clnt0]. unfold pt_cfg in *.
  destruct g as [| | | |new| | | | |new| | |]; simpl in *; try discriminate; destruct Hvars as (Hv1 & Hv2 & ->).
  - destruct Hc as (Hu & c & Hc & Hsg). destruct Hr as (sg & Hgr & Hw & Hnm).
    unfold the_group in Hs. rewrite Hgr in Hs. simpl in Hs. rewrite Hnm in Hs.
    destruct (stage_join s c ngid _ Hc Hsg Hv1) as (s' & new & E & Hu' & Hc' & Hnew); [lia|].
    rewrite E in Hs. simplify_eq/=. split; [|done]. pt_build; [|by exists sg].
    exists c. split_and!; [done|done|]. split; [left; congruence|by left].
  - destruct Hc as (c & Hold & Hnew & Hat). pose proof (change_at_action s c new Hat) as Ha.
    unfold change_step in Hs. destruct (change_action s new) as [s'|]; simplify_eq/=; (split; [|done]); pt_build.
    + by exists c.
    + destruct Ha. split; [done|]. by exists new.
  - destruct Hc as (Hu & c & Hc & Hsg). destruct (checkMember_spec current s c ngid Hc) as (s' & E & Hc').
    pose proof (checkMember_unfinished _ _ _ _ E) as Hu'.
    rewrite E in Hs. simplify_eq/=. split; [|done]. pt_build. split; [congruence|by exists c].
  - destruct Hc as (Hu & c & Hc & Hsg). destruct (checkMember_spec current s c ngid Hc) as (s' & E & Hc').
    pose proof (checkMember_unfinished _ _ _ _ E) as Hu'.
    rewrite (stage_member c ngid _ Hsg Hv1) in E. rewrite E in Hs. simplify_eq/=.
    split; [|done]. pt_build. split; [congruence|by exists c].
  - destruct Hc as (Hu & c & Hc & Hsg).
    destruct (stage_leave s c ngid _ Hc Hsg Hv1) as (s' & new & E & Hu' & Hc' & Hnew); [lia|].
    rewrite E in Hs. simplify_eq/=. split; [|done]. pt_build. exists c. split_and!; [done| |].
    + eapply stage_eq; [exact Hnew|lia].
    + split; [left; congruence|by left].
  - destruct Hc as (c & Hold & Hnew & Hat). pose proof (change_at_action s c new Hat) as Ha.
    unfold change_step in Hs. destruct (change_action s new) as [s'|]; simplify_eq/=; (split; [|done]); pt_build.
    + by exists c.
    + destruct Ha. split; [done|]. by exists new.
  - destruct Hc as (Hu & c & Hc & Hsg). destruct (checkMember_spec current s c ngid Hc) as (s' & E & Hc').
    pose proof (checkMember_unfinished _ _ _ _ E) as Hu'.
    rewrite (stage_not_member c ngid _ Hsg Hv1) in E.
    rewrite E in Hs. simplify_eq/=. split; [|done]. pt_build. split; [congruence|by exists c].
Qed.

Lemma set_group_runs cfg w sg g : g ≠ gid → runs cfg g → runs (set_group cfg gid w sg) g.
Proof.
  intros Hne (sg' & Hg & ?). exists sg'. split; [|done]. unfold Group, lookupGroup in *. simpl.
  by rewrite lookup_insert_ne.
Qed.

Lemma on_client_groups cfg ptr f cfg' :
  on_client cfg ptr f = Ret cfg' → cf_groups cfg' = cf_groups cfg.
Proof.
  unfold on_client. intros Hc. destruct (clnts_heap _ !! _) as [cl|]; [|done].
  destruct (f _ _). by simplify_eq/=.
Qed.

(** The statements of the test before the recovery change neither the configuration nor the
    groups that the goroutine works on. *)
Lemma main_step_inv k p d p' :
  pt_inv k p → match pt_main p with MShutdown | MDisconnect | MStart => True | _ => False end →
  main_step visit partition gid clnt va d p = Ret p' → pt_inv (S k) p' ∧ pt_gor p' = pt_gor p.
Proof.
  intros [Hc Hn0 Hnx Hvars Hr] Hm' Hs.
  destruct p as [[cfg n] s num state ngid g m clnt0]. unfold pt_cfg in *. simpl in *.
  assert (Hne : match g with GNewGid | GSetJoin | GStart => True | _ => ngid ≠ gid end).
  { pose proof (so_ids Hstart gid (so_gid Hstart)). destruct g; simpl in *; try done; naive_solver lia. }
  destruct m; try done.
  - bind_inv Hs. bind_inv Hs. split; [|done]. pt_build. destruct g; try done; by apply set_group_runs.
  - bind_inv Hs. apply on_client_groups in Hbind. split; [|done]. pt_build.
    unfold runs, Group, pt_cfg in *. simpl. by rewrite Hbind.
  - bind_inv Hs. bind_inv Hs. split; [|done]. pt_build. destruct g; try done; by apply set_group_runs.
Qed.

Lemma gor_step_main d (p p' : PCtrl (St := St)) :
  gor_step visit mks d p = Ret p' → pt_main p' = pt_main p.
Proof.
  destruct p as [ts s num state ngid g m clnt0]. intros Hs.
  destruct g; simpl in Hs; try discriminate; repeat bind_inv Hs; try (by simplify_eq/=);
    unfold change_step in Hs; case_match; by simplify_eq/=.
Qed.

Definition after (m : TestPC) : TestPC :=
  match m with
  | MShutdown => MDisconnect | MDisconnect => MStart | MStart => MRecover | MRecover => MReconnect
  | MReconnect => MGets | MGets => MDelete | MDelete | MEnd => MEnd
  end.

Lemma main_step_main d (p p' : PCtrl (St := St)) :
  main_step visit partition gid clnt va d p = Ret p' → pt_main p' = after (pt_main p).
Proof.
  destruct p as [ts s num state ngid g m clnt0]. intros Hs.
  destruct m; simpl in Hs; try discriminate; repeat bind_inv Hs; simplify_eq/=; done.
Qed.

Lemma pt_ok_step k p p' :
  Z.of_nat k < 2 ^ 58 → pt_ok k p → partition_step visit mks partition gid clnt va p p' → pt_ok (S k) p'.
Proof.
  intros Hk Hok Hs. unfold pt_ok in *. destruct Hs as [d p' Hcut Hd Hs|d p' Hs].
  - destruct (pt_main p) eqn:Em.
    5-8: by rewrite (gor_step_main _ _ _ Hs), Em.
    all: destruct (calls_ctrler (pt_gor p)) eqn:Ec;
      [destruct (gor_ctrler_inv k p d p' Ec Hok Hk Hs) as (Hi' & ->)
      |destruct (gor_local_inv k p d p' Ec Hok Hk Hd Hs) as [Hi' ->]]; by rewrite Em.
  - rewrite (main_step_main _ _ _ Hs). destruct (pt_main p) eqn:Em; try done.
    all: pose proof (main_step_inv k p d p' Hok) as Hm; rewrite Em in Hm;
      by destruct (Hm I Hs) as [Hi' _].
Qed.

(** The recovery, by what the second controller finds after [InitController]. *)
Lemma recover_refused cfg s c state ngid num :
  current (InitController s) = Some c →
  Num c ≤ num ∨ (state = JOIN ∧ IsMember c ngid = false) ∨ (state = LEAVE ∧ IsMember c ngid = true) →
  ∃ msg, recover visit cfg s state ngid num = Fatal msg.
Proof.
  intros Hc Hcase. unfold recover.
  destruct (query_config_spec current _ c Hc) as (s' & -> & _). simpl.
  case_bool_decide; [eauto|]. destruct Hcase as [?|[[-> ->]|[-> ->]]]; [done|eauto..].
Qed.

Lemma recover_left cfg s c ngid num k :
  current (InitController s) = Some c → num < Num c → stage c false ngid k → n0 ≤ ngid →
  ∃ s', recover visit cfg s LEAVE ngid num = Ret (cfg, s') ∧ current s' = Some c ∧
    unfinished s' = None.
Proof.
  intros Hc Hn Hsg Hni. pose proof (recover_init s) as [Hu _]. unfold recover.
  destruct (query_config_spec current _ c Hc) as (s' & E & Hc').
  pose proof (query_unfinished _ _ _ E) as Hu'. rewrite E. simpl.
  rewrite bool_decide_eq_false_2 by lia. rewrite (stage_not_member c ngid k) by done.
  exists s'. split_and!; [done|done|congruence].
Qed.

Lemma recover_joined cfg cfg0 s c ngid num k :
  current (InitController s) = Some c → num < Num c → stage c true ngid k → n0 ≤ ngid →
  0 ≤ k < 2 ^ 61 → runs cfg0 ngid → cf_groups cfg = cf_groups cfg0 →
  ∃ cfg' s' c', recover visit cfg s JOIN ngid num = Ret (cfg', s') ∧ current s' = Some c' ∧
    unfinished s' = None ∧ stage c' false ngid (k + 1).
Proof.
  intros Hc Hn Hsg Hni Hk (sg & Hgr & Hw & _) Hcf. pose proof (recover_init s) as [Hu _].
  unfold recover. destruct (query_config_spec current _ c Hc) as (s1 & E1 & Hc1).
  pose proof (query_unfinished _ _ _ E1) as Hu1. rewrite E1. simpl.
  rewrite bool_decide_eq_false_2 by lia. rewrite (stage_member c ngid k) by done. simpl.
  destruct (stage_leave s1 c ngid k Hc1 Hsg Hni Hk) as (s2 & new & E2 & Hu2 & _ & Hnew).
  unfold leave. rewrite E2. simpl.
  destruct (change_finishes s2 new) as [Hu3 Hc3]; [congruence|].
  destruct (checkMember_spec current _ new ngid Hc3) as (s3 & E3 & Hc4).
  pose proof (checkMember_unfinished _ _ _ _ E3) as Hu4. rewrite E3.
  rewrite (stage_not_member new ngid (k + 1)) by done. simpl.
  destruct (ExitGroup_correct cfg ngid sg) as (cfg' & -> & _); [by unfold Group; rewrite Hcf|done|].
  simpl. exists cfg', s3, new. split_and!; [done|done|congruence|done].
Qed.

(** The change that the goroutine has announced last has been begun, and there is one. *)
Definition begun (p : PCtrl (St := St)) : Prop :=
  match pt_gor p, pt_state p with
  | GNewGid, CtrlNone | GSetJoin, CtrlNone => False
  | (GStart | GJoin | GLeave | GDone), _ => False
  | (GJoinTo new | GLeaveTo new), _ =>
      unfinished (pt_st p) = Some new ∨ current (pt_st p) = Some new
  | _, _ => True
  end.

(** The test has gone on, and the original groups are left. *)
Definition recovered (cfg' : Cfg) (s' : St) : Prop :=
  unfinished s' = None ∧
  ∃ c', current s' = Some c' ∧ valid_config c' ∧ Groups c' = Groups c0 ∧ Num c0 < Num c'.

Lemma init_rest s c : unfinished s = None → current s = Some c → current (InitController s) = Some c.
Proof. intros Hu Hc. destruct (recover_init s) as [_ ->]. by rewrite Hu. Qed.

(** What the recovery finds of a change that was cut off. *)
Lemma init_begun s old new :
  change_at s old new → unfinished s = Some new ∨ current s = Some new →
  current (InitController s) = Some new.
Proof.
  intros [Hu Hc] Hb. destruct (recover_init s) as [_ ->].
  destruct Hu as [Hu|Hu]; rewrite Hu in *; [|done]. by destruct Hb.
Qed.

Lemma init_not_begun s old new :
  change_at s old new → ¬ (unfinished s = Some new ∨ current s = Some new) →
  current (InitController s) = Some old.
Proof.
  intros [Hu Hc] Hb. destruct (recover_init s) as [_ ->].
  destruct Hu as [Hu|Hu]; [rewrite Hu|tauto]. destruct Hc; [done|tauto].
Qed.

Lemma recover_inside cfg cfg0 s c ngid k :
  current (InitController s) = Some c → stage c true ngid k → n0 ≤ ngid → 1 ≤ k < 2 ^ 61 →
  runs cfg0 ngid → cf_groups cfg = cf_groups cfg0 →
  ∃ cfg' s', recover visit cfg s JOIN ngid (Num c0) = Ret (cfg', s') ∧ recovered cfg' s'.
Proof.
  intros Hc Hsg Hni Hk Hr Hcf. pose proof (sg_num _ _ _ _ Hsg) as Hn.
  destruct (recover_joined cfg cfg0 s c ngid (Num c0) k)
    as (cfg' & s' & c' & E & Hc' & Hu' & [Hv' Hg' Hn']); [done|lia|done|done|lia|done|done|].
  exists cfg', s'. split; [done|]. split; [done|]. exists c'. split_and!; [done..|lia].
Qed.

Lemma recover_outside cfg s c ngid k :
  current (InitController s) = Some c → stage c false ngid k → n0 ≤ ngid → 1 ≤ k →
  ∃ cfg' s', recover visit cfg s LEAVE ngid (Num c0) = Ret (cfg', s') ∧ recovered cfg' s'.
Proof.
  intros Hc Hsg Hni Hk. pose proof (sg_num _ _ _ _ Hsg) as Hn.
  destruct (recover_left cfg s c ngid (Num c0) k) as (s' & E & Hc' & Hu'); [done|lia|done|done|].
  exists cfg, s'. split; [done|]. split; [done|]. destruct Hsg. exists c. split_and!; [done..|lia].
Qed.

(** Whether the recovery is accepted. *)
Lemma recover_begun k p cfg :
  pt_inv k p → Z.of_nat k < 2 ^ 58 → cf_groups cfg = cf_groups (pt_cfg p) → begun p →
  ∃ cfg' s', recover visit cfg (pt_st p) (pt_state p) (pt_ngid p) (pt_num p) = Ret (cfg', s') ∧
    recovered cfg' s'.
Proof.
  intros [Hc Hn0 Hnx Hvars Hr] Hk Hcf Hb. rewrite Hn0. destruct (so_n0 Hstart) as [Hp0 Hp1].
  destruct p as [[cfg0 n] s num state ngid g m clnt0]. unfold pt_cfg, begun in *. simpl in *.
  destruct g as [| | | |new| | | | |new| | |]; simpl in *; try done.
  - destruct Hc as (Hu & c & Hc & Hsg). destruct Hvars as [[-> ?]|(-> & ? & ?)]; [done|].
    eapply recover_outside; [by apply init_rest|done|lia|lia].
  - destruct Hc as (Hu & c & Hc & Hsg). destruct Hvars as (Hv1 & Hv2 & Hst).
    case_bool_decide; subst state; [done|]. eapply recover_outside; [by apply init_rest|done|lia|lia].
  - destruct Hc as (c & Hold & Hnew & Hat). destruct Hvars as (? & ? & ->).
    apply (recover_inside _ cfg0 s new _ _ (init_begun _ _ _ Hat Hb) Hnew); try done; lia.
  - destruct Hc as (Hu & c & Hc & Hsg). destruct Hvars as (? & ? & ->).
    apply (recover_inside _ cfg0 s c _ _ (init_rest _ _ Hu Hc) Hsg); try done; lia.
  - destruct Hc as (Hu & c & Hc & Hsg). destruct Hvars as (? & ? & ->).
    apply (recover_inside _ cfg0 s c _ _ (init_rest _ _ Hu Hc) Hsg); try done; lia.
  - destruct Hc as (Hu & c & Hc & Hsg). destruct Hvars as (? & ? & ->).
    apply (recover_inside _ cfg0 s c _ _ (init_rest _ _ Hu Hc) Hsg); try done; lia.
  - destruct Hc as (c & Hold & Hnew & Hat). destruct Hvars as (? & ? & ->).
    eapply recover_outside; [by eapply init_begun|done|lia|lia].
  - destruct Hc as (Hu & c & Hc & Hsg). destruct Hvars as (? & ? & ->).
    eapply recover_outside; [by apply init_rest|done|lia|lia].
  - destruct Hc as (Hu & c & Hc & Hsg). destruct Hvars as (? & ? & ->).
    eapply recover_outside; [by apply init_rest|done|lia|lia].
Qed.

Lemma recover_not_begun k p cfg :
  pt_inv k p → ¬ begun p →
  ∃ msg, recover visit cfg (pt_st p) (pt_state p) (pt_ngid p) (pt_num p) = Fatal msg.
Proof.
  intros [Hc Hn0 Hnx Hvars Hr] Hb. destruct (so_n0 Hstart) as [Hp0 Hp1].
  destruct p as [[cfg0 n] s num state ngid g m clnt0]. unfold pt_cfg, begun in *. simpl in *.
  destruct g as [| | | |new| | | | |new| | |]; simpl in *; try tauto.
  - destruct Hc as (Hu & c & Hc & [_ _ Hnum]). destruct Hvars as [[-> ?]|(-> & ? & ?)]; [|tauto].
    eapply recover_refused; [by apply init_rest|left; lia].
  - destruct Hc as (Hu & c & Hc & [_ _ Hnum]). destruct Hvars as (Hv1 & Hv2 & Hst).
    case_bool_decide; subst state; [|tauto]. eapply recover_refused; [by apply init_rest|left; lia].
  - destruct Hc as (Hu & c & Hc & Hsg). destruct Hvars as (? & ? & ->).
    eapply recover_refused; [by apply init_rest|]. right; left. split; [done|by eapply stage_not_member].
  - destruct Hc as (Hu & c & Hc & Hsg). destruct Hvars as (? & ? & ->).
    eapply recover_refused; [by apply init_rest|]. right; left. split; [done|by eapply stage_not_member].
  - destruct Hc as (c & Hold & Hnew & Hat). destruct Hvars as (? & ? & ->).
    eapply recover_refused; [by eapply init_not_begun|]. right; left. split; [done|by eapply stage_not_member].
  - destruct Hc as (Hu & c & Hc & Hsg). destruct Hvars as (? & ? & ->).
    eapply recover_refused; [by apply init_rest|]. right; right. split; [done|by eapply stage_member].
  - destruct Hc as (c & Hold & Hnew & Hat). destruct Hvars as (? & ? & ->).
    eapply recover_refused; [by eapply init_not_begun|]. right; right. split; [done|by eapply stage_member].
Qed.

Lemma begin_ok ts s0 p0 :
  unfinished s0 = None → current s0 = Some c0 → sh_ngid ts = n0 →
  partitionCtrler_begin clnt ts s0 = Ret p0 → pt_ok 0 p0.
Proof.
  intros Hu Hc Hn Hb. unfold partitionCtrler_begin, makeShardCtrlerClnt in Hb. bind_inv Hb.
  pose proof (recover_init s0) as [Hu0 _]. apply init_rest in Hc; [|done].
  destruct (query_config_spec current _ c0 Hc) as (s1 & E & Hc1).
  pose proof (query_unfinished _ _ _ E) as Hu1.
  rewrite E in Hb. simplify_eq/=. pose proof (so_valid Hstart).
  split; simpl; try done; try lia; [|by left].
  split; [congruence|]. exists c0. split; [done|]. split; [done|done|lia].
Qed.


End Recovery.

(** ** Examples *)

Section Run.

Context (visit : gmap Z (list string) → list (Z * list string)).
Context (mks : Z → nat → option Persister → list IService).
Context (partition : bool) (gid : Z) (clnt : nat) (va : list string).

Abbreviation EP := (PCtrl (St := TwoStep)).

Definition fresh_draw (used : gset string) (d : GroupDraw) : bool :=
  bool_decide (draw_shape d) && bool_decide (NoDup (draw_names d ++ [])) &&
  forallb (λ x, bool_decide (x ∉ used)) (draw_names d ++ []).

Lemma fresh_draw_ok used d : fresh_draw used d = true → draws_ok used [d].
Proof.
  unfold fresh_draw. rewrite !andb_true_iff, forallb_forall. intros [[Hs%bool_decide_eq_true Hn%bool_decide_eq_true] Hf].
  split_and!; [by apply Forall_singleton|exact Hn|].
  intros x Hx. apply (bool_decide_eq_true (x ∉ used)), Hf. by apply list_elem_of_In.
Qed.

Definition starts_group (g : GorPC) : bool := match g with GStart => true | _ => false end.

(** The goroutine moves with [inl], the test with [inr]. *)
Definition run_choice (ch : GroupDraw + MainDraw) (p : EP) : outcome EP :=
  match ch with
  | inl d =>
      if implb (calls_ctrler (pt_gor p)) (connected_to_clnt (pt_main p)) &&
         implb (starts_group (pt_gor p)) (fresh_draw (rn_ends (cf_net (pt_cfg p))) d)
      then gor_step visit mks d p else Panic "not enabled"
  | inr d => main_step visit partition gid clnt va d p
  end.

Fixpoint run_choices (chs : list (GroupDraw + MainDraw)) (p : EP) : outcome EP :=
  match chs with [] => Ret p | ch :: chs => p ← run_choice ch p; run_choices chs p end.

Lemma run_choices_steps chs p p' :
  run_choices chs p = Ret p' →
  nsteps (partition_step visit mks partition gid clnt va) (length chs) p p'.
Proof.
  revert p. induction chs as [|ch chs IH]; intros p Hr; simpl in *; [simplify_eq; constructor|].
  apply bind_Ret_inv in Hr as (p1 & E & Hr). apply nsteps_l with p1; [|by apply IH].
  destruct ch as [d|d]; simpl in E; [|by eapply pstep_main].
  destruct (implb _ _ && _) eqn:Eb; [|done]. apply andb_true_iff in Eb as [Ei Ef].
  eapply pstep_gor; [|intros Hg; rewrite Hg in Ef; apply fresh_draw_ok, Ef|done].
  intros Hc. rewrite Hc in Ei. exact Ei.
Qed.

End Run.

Definition ex_c0 : ShardConfig := mkShardConfig 1 (replicate 12 1) {[1 := group_names 1]}.

Definition ex_started : outcome (Config (Svc := IService)) := start_group ex_services ex_config 1 (ex_draw "x").

Definition ex_begin : outcome (PCtrl (St := TwoStep)) :=
  cfg ← ex_started; partitionCtrler_begin 5 (mkShTest cfg 2) (Some ex_c0, None).

(** The goroutine joins a group and is cut off after the first action of the change; the test goes
    on to the recovery. *)
Definition ex_choices : list (GroupDraw + MainDraw) :=
  replicate 5 (inl (ex_draw "y")) ++ replicate 3 (inr (mkMainDraw 7 ([], []) (gd_starts (ex_draw "z")) [])).

Definition ex_run : outcome (PCtrl (St := TwoStep)) :=
  p ← ex_begin; run_choices map_to_list ex_services true 1 5 [] ex_choices p.

(** Cut off in the middle: the next configuration is stored and not yet the current one. *)
Definition cut_off (p : PCtrl (St := TwoStep)) : bool :=
  match pt_main p, pt_gor p, pt_st p with
  | MRecover, GJoinTo new, (Some cur, Some nx) =>
      bool_decide (nx = new) && bool_decide (cur = ex_c0)
  | _, _, _ => false
  end.

Lemma ex_run_ok :
  match ex_run with
  | Ret p => cut_off p && bool_decide (is_Some (clnts_clerks (cf_clnts (pt_cfg p))))
  | _ => false
  end = true.
Proof. vm_compute. reflexivity. Qed.

Lemma cut_off_begun p : cut_off p = true → pt_main p = MRecover ∧ begun fst snd p.
Proof.
  destruct p as [ts [[cur|] [nx|]] num state ngid g m clnt0]; unfold cut_off, begun; simpl;
    destruct m; try done; destruct g; try done.
  intros [->%bool_decide_eq_true _]%andb_true_iff. split; [done|by left].
Qed.

Lemma ex_c0_groups g srvs : Groups ex_c0 !! g = Some srvs → g = 1 ∧ srvs = group_names 1.
Proof. unfold ex_c0. simpl. intros [<- <-]%lookup_singleton_Some. done. Qed.

Lemma ex_c0_start : start_ok 1 ex_c0 2.
Proof.
  split; try done; try lia; [|by apply (bool_decide_unpack _); vm_compute|..].
  - split; [done|done| |].
    + intros _ g Hin. apply (elem_of_replicate_inv g 12) in Hin as ->. by exists (group_names 1).
    + intros g h [srvs [-> _]%ex_c0_groups] [srvs' [-> _]%ex_c0_groups]. lia.
  - intros g [srvs [-> _]%ex_c0_groups]. lia.
  - intros g srvs [-> ->]%ex_c0_groups. done.
Qed.

