(* ===== verification/ConcurTest.v ===== *)
(** * Competing controllers ([concurCtrler] of [shardkv1/test.go])

    Several goroutines, each with a new controller in every turn, join and leave groups at the
    same time, until the test tells them to stop. A change that one controller has computed may
    be out of date when it asks for it; the contract here is that such a change has no effect.
    Then, however the goroutines interleave, no statement of theirs fails, the configuration
    stays valid and keeps the groups it had, and the test stops all of them. *)

From S2P Require Export CtrlTest.

Local Open Scope Z_scope.

(** A change takes effect only on the configuration that precedes it. *)
Class CompetingCtrlerLaws (St : Type) `{ShardCtrler St} (current : St → option ShardConfig) := {
  #[global] competing_reads :: ShardCtrlerReads St current;
  competing_change s new cfg : current s = Some cfg →
    current (ChangeConfigTo s new) = Some (if Num new =? Num cfg + 1 then new else cfg)
}.

(** Such a controller: a variable that is compared before it is set. *)
Record CasCtrler := mkCasCtrler { cas_config : option ShardConfig }.

#[export] Instance cas_ctrler : ShardCtrler CasCtrler := {|
  InitController := λ s, s;
  InitConfig := λ _ cfg, mkCasCtrler (Some cfg);
  ChangeConfigTo := λ s new,
    match cas_config s with
    | Some cfg => if Num new =? Num cfg + 1 then mkCasCtrler (Some new) else s
    | None => s
    end;
  Query := λ s, (s, cas_config s)
|}.

#[export] Instance cas_laws : CompetingCtrlerLaws CasCtrler cas_config.
Proof.
  split; [by split|]. intros s new cfg Hc. simpl. rewrite Hc. by destruct (_ =? _).
Qed.

(** ** The goroutines *)

(** Before which statement of the turn a goroutine is; the configuration to change to is one that
    [join] or [leave] has computed. *)
Inductive CPC :=
  | CSelect                       (* [select] *)
  | CMake                         (* [makeShardCtrler] *)
  | CInit                         (* [InitController] *)
  | CStart                        (* [joinGroups]: [MakeGroupStart] *)
  | CJoin                         (* [joinGroups]: [join] *)
  | CJoinChange (new : ShardConfig)
  | CJoined                       (* [joinGroups]: [checkMember] *)
  | CCheck                        (* [checkMember] *)
  | CLeave                        (* [leaveGroups]: [leave] *)
  | CLeaveChange (new : ShardConfig)
  | CLeft                         (* [leaveGroups]: [checkMember] *)
  | CExit                         (* [leaveGroups]: [ExitGroup] *)
  | CReturned.

Record CGor := mkCGor { cg_pc : CPC; cg_ngid : Z }.

(** The test sleeps; goes on to its send number [k]; waits at that send; has read the keys. *)
Inductive CMain := CSleep | CSend (k : nat) | CWait (k : nat) | CDone.

(** What the goroutines share, the goroutines, and the test. *)
Record Conc (St : Type) := mkConc {
  cc_test : ShTest;
  cc_st : St;
  cc_gors : list CGor;
  cc_main : CMain
}.
Arguments mkConc {_} _ _ _ _.
Arguments cc_test {_} _.
Arguments cc_st {_} _.
Arguments cc_gors {_} _.
Arguments cc_main {_} _.

Section ConcurCtrler.

Context {St : Type} `{ShardCtrler St}.
Context (visit : gmap Z (list string) → list (Z * list string)).
Context (mks : Z → nat → option Persister → list IService).

(** One statement of a goroutine, at [CSelect] the branch [default]; [ptr] is a new client, [d] the
    names of a new group. *)
Definition gor_turn (ptr : nat) (d : GroupDraw) (ts : ShTest) (s : St) (g : CGor)
    : outcome (ShTest * St * CGor) :=
  let ngid := cg_ngid g in
  let at_ pc := mkCGor pc ngid in
  match cg_pc g with
  | CSelect => let '(ts, ngid) := newGid ts in Ret (ts, s, mkCGor CMake ngid)
  | CMake =>
      '(cfg, _) ← makeShardCtrler (sh_cfg ts) ptr;
      Ret (with_cfg ts cfg, s, at_ CInit)
  | CInit => Ret (ts, InitController s, at_ CStart)
  | CStart =>
      cfg ← start_group mks (sh_cfg ts) ngid d;
      Ret (with_cfg ts cfg, s, at_ CJoin)
  | CJoin =>
      sg ← the_group (sh_cfg ts) ngid;
      '(s, new) ← join_new visit s ngid (SrvNames sg);
      Ret (ts, s, at_ (CJoinChange new))
  | CJoinChange new => Ret (ts, ChangeConfigTo s new, at_ CJoined)
  | CJoined => '(s, _) ← checkMember s ngid; Ret (ts, s, at_ CCheck)
  | CCheck => '(s, ok) ← checkMember s ngid; Ret (ts, s, at_ (if ok : bool then CLeave else CSelect))
  | CLeave => '(s, new) ← leave_new visit s ngid; Ret (ts, s, at_ (CLeaveChange new))
  | CLeaveChange new => Ret (ts, ChangeConfigTo s new, at_ CLeft)
  | CLeft => '(s, ok) ← checkMember s ngid; Ret (ts, s, at_ (if ok : bool then CSelect else CExit))
  | CExit => cfg ← ExitGroup (sh_cfg ts) ngid; Ret (with_cfg ts cfg, s, at_ CSelect)
  | CReturned => Panic "returned"
  end.

(** [go f(ch, i)] for [n] goroutines; the test sleeps. *)
Definition concurCtrler_begin (n : nat) (ts : ShTest) (s : St) : Conc St :=
  mkConc ts s (replicate n (mkCGor CSelect 0)) CSleep.

Definition is_start (pc : CPC) : bool := match pc with CStart => true | _ => false end.
Definition is_select (pc : CPC) : bool := match pc with CSelect => true | _ => false end.

Definition main_waiting (m : CMain) : bool := match m with CWait _ => true | _ => false end.

Definition set_main (c : Conc St) (m : CMain) : Conc St := mkConc (cc_test c) (cc_st c) (cc_gors c) m.

(** A goroutine moves, at [select] only if the test does not wait at a send; or the test wakes up,
    comes to a send, meets a goroutine there, or reads the keys. *)
Inductive conc_step (c : Conc St) : Conc St → Prop :=
  | cstep_gor i g ptr d ts s g' :
      cc_gors c !! i = Some g → (is_select (cg_pc g) = true → main_waiting (cc_main c) = false) →
      (is_start (cg_pc g) = true → draws_ok (rn_ends (cf_net (sh_cfg (cc_test c)))) [d]) →
      gor_turn ptr d (cc_test c) (cc_st c) g = Ret (ts, s, g') →
      conc_step c (mkConc ts s (<[i := g']> (cc_gors c)) (cc_main c))
  | cstep_wake : cc_main c = CSleep → conc_step c (set_main c (CSend 0))
  | cstep_send k : cc_main c = CSend k → (k < length (cc_gors c))%nat → conc_step c (set_main c (CWait k))
  | cstep_stop i ngid k :
      cc_main c = CWait k → cc_gors c !! i = Some (mkCGor CSelect ngid) →
      conc_step c (mkConc (cc_test c) (cc_st c) (<[i := mkCGor CReturned ngid]> (cc_gors c)) (CSend (S k)))
  | cstep_gets k replies va :
      cc_main c = CSend k → (length (cc_gors c) ≤ k)%nat → check_gets replies va = Ret tt →
      conc_step c (set_main c CDone).

End ConcurCtrler.

(** ** Stopping *)

(** The statements until a goroutine is stopped. *)
Definition statements_left (g : CGor) : nat :=
  match cg_pc g with
  | CReturned => 0 | CSelect => 1 | CExit => 2 | CLeft => 3 | CLeaveChange _ => 4 | CLeave => 5
  | CCheck => 6 | CJoined => 7 | CJoinChange _ => 8 | CJoin => 9 | CStart => 10 | CInit => 11 | CMake => 12
  end.

Definition returned (g : CGor) : nat := match cg_pc g with CReturned => 1 | _ => 0 end.

Definition total (f : CGor → nat) (gs : list CGor) : nat := sum_list (f <$> gs).

Lemma total_at_insert f gs i g g' :
  gs !! i = Some g → (total f (<[i := g']> gs) + f g = total f gs + f g')%nat.
Proof.
  unfold total. revert i. induction gs as [|h gs IH]; intros [|i] Hi; csimpl in *; simplify_eq; [lia|].
  specialize (IH i Hi). lia.
Qed.

Lemma total_at_most f gs b : (∀ g, f g ≤ b)%nat → (total f gs ≤ b * length gs)%nat.
Proof. intros Hf. unfold total. induction gs as [|g gs IH]; csimpl; [lia|]. specialize (Hf g). lia. Qed.

Section Stop.

Context {St : Type} `{ShardCtrler St}.
Context (visit : gmap Z (list string) → list (Z * list string)).
Context (mks : Z → nat → option Persister → list IService).

Lemma gor_turn_left ptr d ts s g ts' s' g' :
  gor_turn visit mks ptr d ts s g = Ret (ts', s', g') → is_select (cg_pc g) = false →
  (statements_left g' < statements_left g)%nat ∧ returned g' = returned g.
Proof.
  destruct g as [pc ngid]. unfold gor_turn. intros Hs Hsel.
  destruct pc; simpl in *; try discriminate; repeat bind_inv Hs; simplify_eq/=;
    unfold statements_left; simpl; try (split; [lia|done]);
    match goal with b : bool |- _ => destruct b; simpl; split; [lia|done|lia|done] end.
Qed.

Lemma wait_step c c' k :
  cc_main c = CWait k → conc_step visit mks c c' →
  (cc_main c' = CWait k ∧
   (total statements_left (cc_gors c') < total statements_left (cc_gors c))%nat ∧
   length (cc_gors c') = length (cc_gors c)) ∨
  cc_main c' = CSend (S k).
Proof.
  intros Hm Hs. destruct Hs as [i g ptr d ts s g' Hi Hsel Hst Ht|E|k' E Hk|i ngid k' E Hi|k' replies va E Hk Hg];
    rewrite Hm in *; simplify_eq; [|by right].
  left. simpl. rewrite length_insert. split; [done|]. split; [|done].
  destruct (is_select (cg_pc g)) eqn:Es; [by specialize (Hsel eq_refl)|].
  destruct (gor_turn_left _ _ _ _ _ _ _ _ Ht Es) as [Hl _].
  pose proof (total_at_insert statements_left (cc_gors c) i g g' Hi). lia.
Qed.

End Stop.

(** ** Safety *)

Section Safety.

Context {St : Type} (current : St → option ShardConfig) `{CompetingCtrlerLaws St current}.
Context (visit : gmap Z (list string) → list (Z * list string)).
Context (visit_all : ∀ m, visit m ≡ₚ map_to_list m).
Context (mks : Z → nat → option Persister → list IService).

Abbreviation Cfg := (Config (Svc := IService)).

(** [new] was computed from the current configuration, whose groups should become [gs], or from an
    older one. *)
Definition change_ok (cur new : ShardConfig) (gs : gmap Z (list string)) : Prop :=
  Num new ≤ Num cur + 1 ∧ (Num new = Num cur + 1 → valid_config new ∧ Groups new = gs).

(** A goroutine, with the current configuration [cur] and [n] the next group id. *)
Definition gor_ok (n0 : Z) (cur : ShardConfig) (cfg : Cfg) (n : Z) (g : CGor) : Prop :=
  let ngid := cg_ngid g in
  match cg_pc g with
  | CSelect | CReturned => True
  | pc =>
      n0 ≤ ngid < n ∧
      match pc with
      | CMake | CInit | CStart => Groups cur !! ngid = None
      | CJoin => Groups cur !! ngid = None ∧ runs cfg ngid
      | CJoinChange new =>
          Groups cur !! ngid = None ∧ runs cfg ngid ∧
          change_ok cur new (<[ngid := group_names ngid]> (Groups cur))
      | CLeave => is_Some (Groups cur !! ngid) ∧ runs cfg ngid
      | CLeaveChange new =>
          is_Some (Groups cur !! ngid) ∧ runs cfg ngid ∧ change_ok cur new (delete ngid (Groups cur))
      | _ => runs cfg ngid
      end
  end.

(** The groups of a configuration have their servers' names and ids that have been given out. *)
Record groups_ok (cur : ShardConfig) (n : Z) : Prop := {
  go_valid : valid_config cur;
  go_names g srvs : Groups cur !! g = Some srvs → srvs = group_names g;
  go_ids g : is_Some (Groups cur !! g) → g < n
}.

(** What one statement of a goroutine does to the others' view: only its own group changes, and
    the configuration stays or gets the next number. *)
Record turn_frame (g : CGor) (cur cur' : ShardConfig) (cfg cfg' : Cfg) (n n' : Z) : Prop := {
  tf_groups x : x ≠ cg_ngid g → Groups cur' !! x = Groups cur !! x;
  tf_num : cur' = cur ∨ Num cur' = Num cur + 1;
  tf_runs x : x ≠ cg_ngid g → runs cfg x → runs cfg' x;
  tf_next : n ≤ n' ≤ n + 1;
  tf_clients : is_Some (clnts_clerks (cf_clnts cfg)) → is_Some (clnts_clerks (cf_clnts cfg'))
}.

Lemma turn_frame_refl g cur cfg n : turn_frame g cur cur cfg cfg n n.
Proof. split; try done; [by left|lia]. Qed.

(** Another goroutine is not disturbed. *)
Lemma gor_ok_frame n0 g h cur cur' cfg cfg' n n' :
  turn_frame g cur cur' cfg cfg' n n' → cg_ngid h ≠ cg_ngid g →
  gor_ok n0 cur cfg n h → gor_ok n0 cur' cfg' n' h.
Proof.
  intros [Hg Hn Hr Hnx _] Hne. unfold gor_ok, change_ok. specialize (Hg _ Hne). specialize (Hr _ Hne).
  destruct (cg_pc h); try done; rewrite ?Hg; intros [Hb Hok]; (split; [lia|]); try tauto.
  - destruct Hok as (H1 & H2 & H3 & H4). split_and!; [done|auto|destruct Hn as [->|?]; lia|].
    destruct Hn as [->|Hn]; [done|lia].
  - destruct Hok as (H1 & H2 & H3 & H4). split_and!; [done|auto|destruct Hn as [->|?]; lia|].
    destruct Hn as [->|Hn]; [done|lia].
Qed.

Lemma change_now cur new gs : Num new = Num cur + 1 → valid_config new → Groups new = gs → change_ok cur new gs.
Proof. intros H1 H2 H3. split; [lia|done]. Qed.

(** A change that a goroutine asks for. *)
Lemma change_spec s cur new gs x (v : option (list string)) :
  current s = Some cur → valid_config cur → change_ok cur new gs → gs = partial_alter (λ _, v) x (Groups cur) →
  ∃ cur', current (ChangeConfigTo s new) = Some cur' ∧ valid_config cur' ∧
    (cur' = cur ∨ (Num cur' = Num cur + 1 ∧ Groups cur' = gs)) ∧
    ∀ y, y ≠ x → Groups cur' !! y = Groups cur !! y.
Proof.
  intros Hc Hv [_ Hn] ->. rewrite (competing_change s new cur Hc). eexists. split; [done|].
  destruct (Z.eqb_spec (Num new) (Num cur + 1)) as [E|E].
  - destruct (Hn E) as [Hv' Hg]. split_and!; [done|by right|]. intros y Hy. rewrite Hg.
    by apply lookup_partial_alter_ne.
  - split_and!; [done|by left|done].
Qed.

Lemma start_group_clnts cfg g d cfg' : start_group mks cfg g d = Ret cfg' → cf_clnts cfg' = cf_clnts cfg.
Proof. unfold start_group, MakeGroupStart. intros Hs. repeat bind_inv Hs. by simplify_eq/=. Qed.

Lemma ExitGroup_clnts (cfg cfg' : Cfg) g : ExitGroup cfg g = Ret cfg' → cf_clnts cfg' = cf_clnts cfg.
Proof. unfold ExitGroup. intros Hs. repeat bind_inv Hs. by simplify_eq/=. Qed.

(** The result of a statement of [g] that does not fail. *)
Definition turn_ok (n0 : Z) (ptr : nat) (d : GroupDraw) (ts : ShTest) (s : St) (g : CGor)
    (cur : ShardConfig) : Prop :=
  ∃ ts' s' g' cur', gor_turn visit mks ptr d ts s g = Ret (ts', s', g') ∧
    current s' = Some cur' ∧ groups_ok cur' (sh_ngid ts') ∧
    gor_ok n0 cur' (sh_cfg ts') (sh_ngid ts') g' ∧
    turn_frame g' cur cur' (sh_cfg ts) (sh_cfg ts') (sh_ngid ts) (sh_ngid ts') ∧ returned g' = 0%nat ∧
    cg_ngid g' = (if is_select (cg_pc g) then sh_ngid ts else cg_ngid g).

(** A statement that only reads. *)
Lemma turn_reads n0 ptr d ts s g cur s' pc' :
  gor_turn visit mks ptr d ts s g = Ret (ts, s', mkCGor pc' (cg_ngid g)) → current s' = Some cur →
  groups_ok cur (sh_ngid ts) → gor_ok n0 cur (sh_cfg ts) (sh_ngid ts) (mkCGor pc' (cg_ngid g)) →
  pc' ≠ CReturned → is_select (cg_pc g) = false → turn_ok n0 ptr d ts s g cur.
Proof.
  intros E Hc Hg Ho Hr Hsel. exists ts, s', (mkCGor pc' (cg_ngid g)), cur.
  split_and!; [done..|apply turn_frame_refl|by destruct pc'|by rewrite Hsel].
Qed.

(** A statement that asks for a change of its own group [x]. *)
Lemma turn_changes n0 ptr d ts s g cur new v pc' :
  gor_turn visit mks ptr d ts s g = Ret (ts, ChangeConfigTo s new, mkCGor pc' (cg_ngid g)) →
  current s = Some cur → groups_ok cur (sh_ngid ts) → cg_ngid g < sh_ngid ts →
  (∀ srvs, v = Some srvs → srvs = group_names (cg_ngid g)) →
  change_ok cur new (partial_alter (λ _, v) (cg_ngid g) (Groups cur)) →
  (∀ cur', gor_ok n0 cur' (sh_cfg ts) (sh_ngid ts) (mkCGor pc' (cg_ngid g))) → pc' ≠ CReturned →
  is_select (cg_pc g) = false → turn_ok n0 ptr d ts s g cur.
Proof.
  intros E Hc [Hv Hnm Hid] Hlt Hvn Hch Ho Hr Hsel.
  destruct (change_spec s cur new _ _ v Hc Hv Hch eq_refl) as (cur' & Hc' & Hv' & Hcase & Hoth).
  exists ts, (ChangeConfigTo s new), (mkCGor pc' (cg_ngid g)), cur'.
  assert (Hown : ∀ srvs, Groups cur' !! cg_ngid g = Some srvs → srvs = group_names (cg_ngid g)).
  { intros srvs Hs. destruct Hcase as [->|[_ Hg]]; [by apply Hnm|]. rewrite Hg, lookup_partial_alter_eq in Hs.
    by apply Hvn. }
  split_and!; [done|done| |by apply Ho| |by destruct pc'|by rewrite Hsel].
  - split; [done| |].
    + intros x srvs Hs. destruct (decide (x = cg_ngid g)) as [->|Hne]; [by apply Hown|].
      rewrite Hoth in Hs by done. by apply Hnm.
    + intros x Hs. destruct (decide (x = cg_ngid g)) as [->|Hne]; [done|].
      rewrite Hoth in Hs by done. by apply Hid.
  - split; try done; [|lia]. destruct Hcase as [?|[? _]]; [by left|by right].
Qed.

(** What every statement may rely on. *)
Record turn_pre (n0 : Z) (d : GroupDraw) (ts : ShTest) (s : St) (g : CGor) (cur : ShardConfig) : Prop := {
  tp_current : current s = Some cur;
  tp_groups : groups_ok cur (sh_ngid ts);
  tp_clients : is_Some (clnts_clerks (cf_clnts (sh_cfg ts)));
  tp_gor : gor_ok n0 cur (sh_cfg ts) (sh_ngid ts) g;
  tp_ids : 0 < n0 ≤ sh_ngid ts;
  tp_ids60 : sh_ngid ts < 2 ^ 60;
  tp_num : 0 ≤ Num cur < 2 ^ 60;
  tp_draw : is_start (cg_pc g) = true → draws_ok (rn_ends (cf_net (sh_cfg ts))) [d]
}.

(** The statements that do not call the controller. *)
Lemma local_turn_ok n0 ptr d ts s g cur :
  turn_pre n0 d ts s g cur →
  match cg_pc g with CSelect | CMake | CStart | CExit => True | _ => False end →
  turn_ok n0 ptr d ts s g cur.
Proof.
  intros [Hc [Hv Hnm Hid] Hcl Ho Hn Hn60 _ Hd] Hpc.
  destruct ts as [cfg n], g as [pc ngid]. unfold gor_ok in Ho. simpl in *. destruct pc; simpl in *; try done.
  - exists (mkShTest cfg (n + 1)), s, (mkCGor CMake n), cur. unfold gor_turn. simpl.
    rewrite i64_wrap_small by lia. split_and!; [done..| | | |done|done].
    + split; [done|done|]. intros x Hx. specialize (Hid x Hx). lia.
    + split; simpl; [lia|]. apply eq_None_not_Some. intros Hx%Hid. lia.
    + split; simpl; try done; [by left|lia].
  - destruct Hcl as [clerks Hcl]. eexists _, s, (mkCGor CInit ngid), cur. unfold gor_turn. simpl.
    unfold makeShardCtrler, makeShardCtrlerClnt, MakeClient, MakeClientTo. rewrite Hcl. simpl.
    split_and!; [done|done|done|done| |done|done].
    split; simpl; try done; [by left|lia].
  - destruct (start_group_spec mks cfg ngid d [] (Hd eq_refl)) as (cfg1 & sg & E & Hsg & Hw & Hnames & Hoth & _).
    exists (mkShTest cfg1 n), s, (mkCGor CJoin ngid), cur. unfold gor_turn. simpl. rewrite E. simpl.
    split_and!; [done|done|done| | |done|done].
    + destruct Ho as [Hr Hg]. split; [done|]. split; [done|]. by exists sg.
    + split; simpl; try done; [by left| |lia|by rewrite (start_group_clnts _ _ _ _ E)].
      intros x Hx (sg' & Hs & ?). exists sg'. by rewrite Hoth.
  - destruct Ho as [Hr (sg & Hsg & Hw & _)].
    destruct (ExitGroup_correct cfg ngid sg Hsg Hw) as (cfg1 & E & _ & Hoth & _).
    exists (mkShTest cfg1 n), s, (mkCGor CSelect ngid), cur. unfold gor_turn. simpl. rewrite E. simpl.
    split_and!; [done|done|done|done| |done|done].
    split; simpl; try done; [by left| |lia|by rewrite (ExitGroup_clnts _ _ _ E)].
    intros x Hx (sg' & Hs & ?). exists sg'. by rewrite Hoth.
Qed.

(** The statements that call it. *)
Lemma ctrler_turn_ok n0 ptr d ts s g cur :
  turn_pre n0 d ts s g cur →
  match cg_pc g with CSelect | CMake | CStart | CExit | CReturned => False | _ => True end →
  turn_ok n0 ptr d ts s g cur.
Proof.
  intros [Hc Hok Hcl Ho Hn Hn60 Hnum _] Hpc. pose proof Hok as [Hv Hnm Hid].
  destruct ts as [cfg n], g as [pc ngid]. unfold gor_ok in Ho. simpl in *.
  destruct pc; simpl in *; try done; destruct Ho as [Hr Ho].
  - eapply (turn_reads _ _ _ _ _ _ _ _ CStart); [done|by rewrite current_init|done..].
  - destruct Ho as [Hg (sg & Hsg & Hw & Hnames)].
    destruct (join_new_spec current visit visit_all s ngid cur Hc Hv Hg Hnm) as (s' & new & E & Hc' & Hv' & Hg' & Hn').
    rewrite i64_wrap_small in Hn' by lia.
    eapply (turn_reads _ _ _ _ _ _ _ s' (CJoinChange new)); [|done|done| |done..].
    + unfold gor_turn, the_group. simpl. rewrite Hsg. simpl. rewrite Hnames, E. done.
    + split; [done|]. split; [done|]. split; [by exists sg|]. by apply change_now.
  - destruct Ho as (Hg & Hruns & Hch).
    eapply (turn_changes _ _ _ _ _ _ _ new (Some (group_names ngid)) CJoined); try done.
    + simpl. lia.
    + by intros srvs [= <-].
  - destruct (checkMember_spec current s cur ngid Hc) as (s' & E & Hc').
    eapply (turn_reads _ _ _ _ _ _ _ s' CCheck); [|done..].
    unfold gor_turn. simpl. by rewrite E.
  - destruct (checkMember_spec current s cur ngid Hc) as (s' & E & Hc').
    destruct (IsMember cur ngid) eqn:Em.
    + eapply (turn_reads _ _ _ _ _ _ _ s' CLeave); [unfold gor_turn; simpl; by rewrite E|done|done| |done..].
      split; [done|]. split; [|done]. destruct (Groups cur !! ngid) as [srvs|] eqn:Hg; [by eexists|].
      rewrite IsMember_none in Em by (done || lia). done.
    + eapply (turn_reads _ _ _ _ _ _ _ s' CSelect); [unfold gor_turn; simpl; by rewrite E|done..].
  - destruct Ho as [Hg Hruns].
    destruct (leave_new_spec current visit visit_all s ngid cur Hc Hv Hg) as (s' & new & E & Hc' & Hv' & Hg' & Hn').
    rewrite i64_wrap_small in Hn' by lia.
    eapply (turn_reads _ _ _ _ _ _ _ s' (CLeaveChange new)); [|done|done| |done..].
    + unfold gor_turn. simpl. by rewrite E.
    + split; [done|]. split; [done|]. split; [done|]. by apply change_now.
  - destruct Ho as (Hg & Hruns & Hch).
    eapply (turn_changes _ _ _ _ _ _ _ new None CLeft); try done. simpl. lia.
  - destruct (checkMember_spec current s cur ngid Hc) as (s' & E & Hc').
    destruct (IsMember cur ngid) eqn:Em.
    + eapply (turn_reads _ _ _ _ _ _ _ s' CSelect); [unfold gor_turn; simpl; by rewrite E|done..].
    + eapply (turn_reads _ _ _ _ _ _ _ s' CExit); [unfold gor_turn; simpl; by rewrite E|done..].
Qed.

Lemma gor_turn_ok n0 ptr d ts s g cur :
  turn_pre n0 d ts s g cur → cg_pc g ≠ CReturned → turn_ok n0 ptr d ts s g cur.
Proof.
  intros Hp Hr. destruct (cg_pc g) eqn:E; try done;
    first [apply local_turn_ok; [done|by rewrite E]|apply ctrler_turn_ok; [done|by rewrite E]].
Qed.

(** ** All goroutines *)

Context (c0 : ShardConfig) (n0 : Z).

Definition active (g : CGor) : bool := match cg_pc g with CSelect | CReturned => false | _ => true end.

(** How many goroutines the test has stopped. *)
Definition stopped (m : CMain) (len : nat) : nat :=
  match m with CSleep => 0 | CSend j | CWait j => j | CDone => len end.

Record conc_inv (len k : nat) (c : Conc St) : Prop := {
  ci_config : ∃ cur, current (cc_st c) = Some cur ∧ groups_ok cur (sh_ngid (cc_test c)) ∧
    0 ≤ Num cur ≤ Num c0 + Z.of_nat k ∧
    (∀ g, is_Some (Groups c0 !! g) → Groups cur !! g = Groups c0 !! g) ∧
    ∀ i g, cc_gors c !! i = Some g → gor_ok n0 cur (sh_cfg (cc_test c)) (sh_ngid (cc_test c)) g;
  ci_clients : is_Some (clnts_clerks (cf_clnts (sh_cfg (cc_test c))));
  ci_next : n0 ≤ sh_ngid (cc_test c) ≤ n0 + Z.of_nat k;
  ci_distinct i j g h : cc_gors c !! i = Some g → cc_gors c !! j = Some h → i ≠ j →
    active g = true → active h = true → cg_ngid g ≠ cg_ngid h;
  ci_length : length (cc_gors c) = len;
  ci_stopped : total returned (cc_gors c) = stopped (cc_main c) len;
  ci_waiting j : cc_main c = CWait j → (j < len)%nat
}.

Record concur_start (ts : ShTest) (s : St) : Prop := {
  cn_current : current s = Some c0;
  cn_groups : groups_ok c0 n0;
  cn_clients : is_Some (clnts_clerks (cf_clnts (sh_cfg ts)));
  cn_next : sh_ngid ts = n0;
  cn_n0 : 0 < n0 < 2 ^ 58;
  cn_num : 0 ≤ Num c0 < 2 ^ 58
}.

Lemma conc_inv_begin len ts s : concur_start ts s → conc_inv len 0 (concurCtrler_begin len ts s).
Proof.
  intros [Hc Hg Hcl Hn Hn0 Hnum]. split; simpl; rewrite ?Hn.
  - exists c0. split_and!; try done; [lia|lia|]. intros i g [-> _]%lookup_replicate. done.
  - done.
  - lia.
  - intros i j g h [-> _]%lookup_replicate _ _ Ha. done.
  - by rewrite length_replicate.
  - unfold total. by induction len as [|len IH].
  - done.
Qed.

(** The statement that goroutine [i] is at does not fail. *)
Lemma conc_inv_turn len k c i g ptr d cur :
  conc_inv len k c → Z.of_nat k < 2 ^ 58 → 0 < n0 < 2 ^ 58 → 0 ≤ Num c0 < 2 ^ 58 →
  cc_gors c !! i = Some g → cg_pc g ≠ CReturned →
  (is_start (cg_pc g) = true → draws_ok (rn_ends (cf_net (sh_cfg (cc_test c)))) [d]) →
  current (cc_st c) = Some cur → turn_ok n0 ptr d (cc_test c) (cc_st c) g cur.
Proof.
  intros [(cur' & Hc' & Hg & Hnum & _ & Hgor) Hcl Hnx _ _ _ _] Hk Hn0 Hnum0 Hi Hr Hd Hc.
  rewrite Hc in Hc'. simplify_eq. apply gor_turn_ok; [|done]. split; try done; [by eapply Hgor|lia..].
Qed.

Lemma not_active_gor cur cfg n g : active g = false → gor_ok n0 cur cfg n g.
Proof. unfold active, gor_ok. by destruct (cg_pc g). Qed.

Lemma active_bounds cur cfg n g : active g = true → gor_ok n0 cur cfg n g → n0 ≤ cg_ngid g < n.
Proof. unfold active, gor_ok. destruct (cg_pc g); try done; tauto. Qed.

Lemma active_select g : cg_pc g ≠ CReturned → is_select (cg_pc g) = false → active g = true.
Proof. unfold active. by destruct (cg_pc g). Qed.

(** The group of a goroutine that has moved is its own or a new one. *)
Lemma moved_apart len k c i j g g' h cur :
  conc_inv len k c → cc_gors c !! i = Some g → cc_gors c !! j = Some h → i ≠ j →
  cg_pc g ≠ CReturned →
  gor_ok n0 cur (sh_cfg (cc_test c)) (sh_ngid (cc_test c)) h → active h = true →
  cg_ngid g' = (if is_select (cg_pc g) then sh_ngid (cc_test c) else cg_ngid g) →
  cg_ngid h ≠ cg_ngid g'.
Proof.
  intros Hinv Hi Hj Hij Hr Hh Ha ->. destruct (is_select (cg_pc g)) eqn:Es.
  - pose proof (active_bounds _ _ _ _ Ha Hh). lia.
  - apply (ci_distinct _ _ _ Hinv j i h g); try done. by apply active_select.
Qed.

Lemma conc_inv_gor len k c i g ptr d ts' s' g' :
  conc_inv len k c → Z.of_nat k < 2 ^ 58 → 0 < n0 < 2 ^ 58 → 0 ≤ Num c0 < 2 ^ 58 →
  (∀ x, is_Some (Groups c0 !! x) → x < n0) →
  cc_gors c !! i = Some g →
  (is_start (cg_pc g) = true → draws_ok (rn_ends (cf_net (sh_cfg (cc_test c)))) [d]) →
  gor_turn visit mks ptr d (cc_test c) (cc_st c) g = Ret (ts', s', g') →
  conc_inv len (S k) (mkConc ts' s' (<[i := g']> (cc_gors c)) (cc_main c)).
Proof.
  intros Hinv Hk Hn0 Hnum0 Hids Hi Hd Ht.
  assert (Hr : cg_pc g ≠ CReturned) by (intros E; unfold gor_turn in Ht; by rewrite E in Ht).
  pose proof Hinv as [(cur & Hc & Hg & Hnum & Hkept & Hgor) Hcl Hnx Hdis Hlen Hst Hw].
  destruct (conc_inv_turn len k c i g ptr d cur) as (ts1 & s1 & g1 & cur' & E & Hc' & Hg' & Hok' & Hfr & Hret & Hid);
    try done. rewrite Ht in E. injection E as <- <- <-.
  assert (Hown : n0 ≤ cg_ngid g').
  { rewrite Hid. destruct (is_select (cg_pc g)) eqn:Es; [lia|].
    pose proof (active_bounds _ _ _ _ (active_select _ Hr Es) (Hgor i g Hi)). lia. }
  assert (Hothers : ∀ j h, i ≠ j → cc_gors c !! j = Some h → active h = true → cg_ngid h ≠ cg_ngid g').
  { intros j h Hij Hj Ha. apply (moved_apart len k c i j g g' h cur); eauto. }
  pose proof (tf_next _ _ _ _ _ _ _ Hfr) as Hn'.
  split; simpl.
  - exists cur'. split; [done|]. split; [done|]. split; [|split].
    + destruct (tf_num _ _ _ _ _ _ _ Hfr) as [-> | ->]; lia.
    + intros x Hx. rewrite (tf_groups _ _ _ _ _ _ _ Hfr); [by apply Hkept|]. specialize (Hids x Hx). lia.
    + intros j h [(<- & <- & _)|[Hij Hj]]%list_lookup_insert_Some; [done|].
      destruct (active h) eqn:Ha; [|by apply not_active_gor].
      eapply gor_ok_frame; [done|by eapply Hothers|by eapply Hgor].
  - by apply (tf_clients _ _ _ _ _ _ _ Hfr).
  - lia.
  - intros a b x y Ha Hb Hab Hx Hy.
    apply list_lookup_insert_Some in Ha as [(<- & <- & _)|[Hia Ha]], Hb as [(<- & <- & _)|[Hib Hb]]; try done.
    + intros Hxy. by apply (Hothers b y).
    + by apply (Hothers a x).
    + by apply (Hdis a b).
  - by rewrite length_insert.
  - pose proof (total_at_insert returned (cc_gors c) i g g' Hi) as Htot. rewrite Hret in Htot.
    assert (returned g = 0%nat) by (unfold returned; by destruct (cg_pc g)). lia.
  - done.
Qed.

(** The test's own steps. *)
Lemma conc_inv_main len k c m :
  conc_inv len k c → stopped m len = stopped (cc_main c) len → (∀ j, m = CWait j → (j < len)%nat) →
  conc_inv len (S k) (set_main c m).
Proof.
  intros [(cur & Hc & Hg & Hnum & Hkept & Hgor) Hcl Hnx Hdis Hlen Hst Hw] Hm Hw'.
  split; simpl; [|done|lia|done|done|congruence|done].
  exists cur. split_and!; try done; lia.
Qed.

Lemma conc_inv_stop len k c i ngid j :
  conc_inv len k c → cc_main c = CWait j → cc_gors c !! i = Some (mkCGor CSelect ngid) →
  conc_inv len (S k)
    (mkConc (cc_test c) (cc_st c) (<[i := mkCGor CReturned ngid]> (cc_gors c)) (CSend (S j))).
Proof.
  intros [(cur & Hc & Hg & Hnum & Hkept & Hgor) Hcl Hnx Hdis Hlen Hst Hw] Hm Hi.
  split; simpl; [|done|lia| |by rewrite length_insert| |done].
  - exists cur. split_and!; try done; [lia..|].
    intros x g [(<- & <- & _)|[_ Hx]]%list_lookup_insert_Some; [done|by eapply Hgor].
  - intros a b x y Ha Hb Hab Hx Hy.
    apply list_lookup_insert_Some in Ha as [(<- & <- & _)|[_ Ha]], Hb as [(<- & <- & _)|[_ Hb]]; try done.
    by apply (Hdis a b).
  - pose proof (total_at_insert returned (cc_gors c) i _ (mkCGor CReturned ngid) Hi) as Ht.
    rewrite Hst, Hm in Ht. simpl in Ht. change (returned _) with 0%nat in Ht at 1.
    change (returned (mkCGor CReturned ngid)) with 1%nat in Ht. lia.
Qed.

Lemma returned_le g : (returned g ≤ 1)%nat.
Proof. unfold returned. destruct (cg_pc g); lia. Qed.

Lemma conc_inv_step len k c c' :
  conc_inv len k c → Z.of_nat k < 2 ^ 58 → 0 < n0 < 2 ^ 58 → 0 ≤ Num c0 < 2 ^ 58 →
  (∀ x, is_Some (Groups c0 !! x) → x < n0) → conc_step visit mks c c' → conc_inv len (S k) c'.
Proof.
  intros Hinv Hk Hn0 Hnum Hids Hs. pose proof (ci_length _ _ _ Hinv) as Hlen.
  destruct Hs as [i g ptr d ts s g' Hi _ Hd Ht|E|j E Hj|i ngid j E Hi|j replies va E Hj _].
  - by eapply conc_inv_gor.
  - apply conc_inv_main; [done|by rewrite E|done].
  - apply conc_inv_main; [done|by rewrite E|]. intros j' [= <-]. lia.
  - by apply conc_inv_stop.
  - apply conc_inv_main; [done| |done]. rewrite E. simpl.
    pose proof (ci_stopped _ _ _ Hinv) as Hst. rewrite E in Hst. simpl in Hst.
    pose proof (total_at_most returned (cc_gors c) 1 returned_le). lia.
Qed.

(** Counting those that have returned. *)
Lemma some_left gs : (total returned gs < length gs)%nat → ∃ i g, gs !! i = Some g ∧ cg_pc g ≠ CReturned.
Proof.
  unfold total. induction gs as [|g gs IH]; csimpl; [lia|]. intros Hl.
  destruct (decide (returned g = 0%nat)) as [E|E].
  - exists 0%nat, g. split; [done|]. intros Hr. unfold returned in E. by rewrite Hr in E.
  - pose proof (returned_le g). destruct IH as (i & h & Hi & Hh); [lia|]. by exists (S i), h.
Qed.

Lemma none_left gs i g : total returned gs = length gs → gs !! i = Some g → cg_pc g = CReturned.
Proof.
  unfold total. revert i. induction gs as [|h gs IH]; intros i Ht Hi; [done|]. csimpl in *.
  pose proof (returned_le h). pose proof (total_at_most returned gs 1 returned_le) as Hb. unfold total in Hb.
  destruct i as [|i]; simpl in Hi; [|apply (IH i); [lia|done]].
  simplify_eq. assert (Hr : returned g = 1%nat) by lia. unfold returned in Hr. by destruct (cg_pc g).
Qed.

Lemma wait_bound j m c c' :
  cc_main c = CWait j → nsteps (λ a b, conc_step visit mks a b ∧ cc_main b = CWait j) m c c' →
  (m + total statements_left (cc_gors c') ≤ total statements_left (cc_gors c))%nat.
Proof.
  intros Hm Hs. induction Hs as [c|m c c1 c' [Hs Hm1] _ IH]; [lia|]. specialize (IH Hm1).
  destruct (wait_step visit mks c c1 j Hm Hs) as [(_ & Hl & _)|E]; [lia|congruence].
Qed.

(** C25: concurCtrler_safe: the concurrent test accepts controllers that refuse outdated changes.
    However the goroutines and the test interleave, at any point: the configuration is valid and
    has the groups it had at first; no statement of a goroutine fails, that is no join finds its
    group present, no leave finds it absent, no pointer is nil; while the test waits to stop a
    goroutine, one is left to be stopped, and all of them together execute at most twelve
    statements each before one must be; and when the test ends all of them have returned. *)
Theorem concurCtrler_safe len k ts s c :
  concur_start ts s → nsteps (conc_step visit mks) k (concurCtrler_begin len ts s) c → Z.of_nat k < 2 ^ 58 →
  (∃ cur, current (cc_st c) = Some cur ∧ valid_config cur ∧
     ∀ g, is_Some (Groups c0 !! g) → Groups cur !! g = Groups c0 !! g) ∧
  (∀ i g ptr d, cc_gors c !! i = Some g → cg_pc g ≠ CReturned →
     (is_start (cg_pc g) = true → draws_ok (rn_ends (cf_net (sh_cfg (cc_test c)))) [d]) →
     is_Ret (gor_turn visit mks ptr d (cc_test c) (cc_st c) g)) ∧
  (∀ j, cc_main c = CWait j → (∃ i g, cc_gors c !! i = Some g ∧ cg_pc g ≠ CReturned) ∧
     ∀ m c', nsteps (λ a b, conc_step visit mks a b ∧ cc_main b = CWait j) m c c' → (m ≤ 12 * len)%nat) ∧
  (cc_main c = CDone → ∀ i g, cc_gors c !! i = Some g → cg_pc g = CReturned).
Proof.
  intros Hst Hs Hk. pose proof Hst as [Hc0 Hg0 _ _ Hn0 Hnum].
  assert (Hinv : conc_inv len k c).
  { eapply (nsteps_invariant _ (conc_inv len)); [by apply conc_inv_begin| |exact Hs].
    intros m x y Hm Hx Hxy. eapply conc_inv_step; eauto; [lia|apply Hg0]. }
  pose proof Hinv as [(cur & Hc & Hg & _ & Hkept & _) _ _ _ Hlen Hstop Hw]. split_and!.
  - exists cur. split_and!; [done|apply Hg|done].
  - intros i g ptr d Hi Hr Hd.
    destruct (conc_inv_turn len k c i g ptr d cur) as (ts' & s' & g' & _ & E & _); try done. by eexists.
  - intros j Hj. split.
    + apply some_left. rewrite Hstop, Hj, Hlen. simpl. by apply Hw.
    + intros m c' Hm. pose proof (wait_bound j m c c' Hj Hm).
      assert (total statements_left (cc_gors c) ≤ 12 * length (cc_gors c))%nat; [|lia].
      apply total_at_most. intros g. unfold statements_left. destruct (cg_pc g); lia.
  - intros Hd i g. apply none_left. by rewrite Hstop, Hd, Hlen.
Qed.

End Safety.

(** ** Examples *)

Section Run.

Context {St : Type} `{ShardCtrler St}.

(** A schedule: goroutine [i] moves, with a new client and names for a new group. *)
Definition run_turn (ch : nat * GroupDraw) (c : Conc St) : outcome (Conc St) :=
  match cc_gors c !! ch.1 with
  | None => Panic "no goroutine"
  | Some g =>
      if implb (is_select (cg_pc g)) (negb (main_waiting (cc_main c))) &&
         implb (is_start (cg_pc g)) (fresh_draw (rn_ends (cf_net (sh_cfg (cc_test c)))) ch.2)
      then
        '(ts, s, g) ← gor_turn map_to_list ex_services 7 ch.2 (cc_test c) (cc_st c) g;
        Ret (mkConc ts s (<[ch.1 := g]> (cc_gors c)) (cc_main c))
      else Panic "not enabled"
  end.

Fixpoint run_turns (chs : list (nat * GroupDraw)) (c : Conc St) : outcome (Conc St) :=
  match chs with [] => Ret c | ch :: chs => c ← run_turn ch c; run_turns chs c end.

Lemma run_turns_steps chs c c' :
  run_turns chs c = Ret c' → nsteps (conc_step map_to_list ex_services) (length chs) c c'.
Proof.
  revert c. induction chs as [|[i d] chs IH]; intros c Hr; simpl in *; [simplify_eq; constructor|].
  apply bind_Ret_inv in Hr as (c1 & E & Hr). apply nsteps_l with c1; [|by apply IH].
  unfold run_turn in E. simpl in E. destruct (cc_gors c !! i) as [g|] eqn:Hi; [|done].
  destruct (implb _ _ && implb _ _) eqn:Eb; [|done]. apply andb_true_iff in Eb as [Es Ef].
  apply bind_Ret_inv in E as ([[ts s] g'] & E & Hc). simplify_eq.
  eapply cstep_gor; [exact Hi| | |exact E].
  - intros Hsel. rewrite Hsel in Es. by apply negb_true_iff.
  - intros Hst. rewrite Hst in Ef. apply fresh_draw_ok, Ef.
Qed.

End Run.

(** Two goroutines: the first joins its group between the moment at which the second computes its
    change and the moment at which it asks for it. *)
Definition ex_race : list (nat * GroupDraw) :=
  replicate 4 (1%nat, ex_draw "z") ++ [(1%nat, ex_draw "z")] ++ replicate 8 (0%nat, ex_draw "y") ++
  [(1%nat, ex_draw "z")].

Definition ex_conc {St} `{ShardCtrler St} (s : St) : outcome (Conc St) :=
  cfg ← ex_started; run_turns ex_race (concurCtrler_begin 2 (mkShTest cfg 2) s).

Definition verdict {A} (o : outcome A) : string :=
  match o with Ret _ => "ok" | Panic msg => msg | Fatal msg => msg end.

(** What the first goroutine does next. *)
Definition next_verdict {St} `{ShardCtrler St} (o : outcome (Conc St)) : string :=
  match o with
  | Ret c =>
      match cc_gors c !! 0%nat with
      | Some g => verdict (gor_turn map_to_list ex_services 7 (ex_draw "w") (cc_test c) (cc_st c) g)
      | None => "no goroutine"
      end
  | o => verdict o
  end.

(** The contract for one controller is not enough for the concurrent test: with a variable that is
    set whatever it holds, the first goroutine's group is lost and its [leave] ends the test;
    with one that is compared first it goes on. *)
Theorem outdated_change_fails :
  next_verdict (ex_conc (Some ex_c0)) = "leave: group is already not present" ∧
  next_verdict (ex_conc (mkCasCtrler (Some ex_c0))) = "ok".
Proof. split; vm_compute; reflexivity. Qed.

Lemma ex_concur_start cfg :
  ex_started = Ret cfg →
  concur_start cas_config ex_c0 2 (mkShTest cfg 2) (mkCasCtrler (Some ex_c0)).
Proof.
  intros E%start_group_clnts. split; try done; try lia.
  - split; [apply ex_c0_start|by intros g srvs [-> ->]%ex_c0_groups|].
    intros g [srvs [-> _]%ex_c0_groups]. lia.
  - simpl. rewrite E. by eexists.
Qed.

Lemma ex_race_ok :
  match ex_conc (mkCasCtrler (Some ex_c0)) with
  | Ret c => match cc_gors c !! 0%nat with Some (mkCGor CLeave _) => true | _ => false end
  | _ => false
  end = true.
Proof. vm_compute. reflexivity. Qed.

Lemma concurCtrler_safe_witness :
  ∃ cfg c g, ex_started = Ret cfg ∧
    nsteps (conc_step map_to_list ex_services) 14
      (concurCtrler_begin 2 (mkShTest cfg 2) (mkCasCtrler (Some ex_c0))) c ∧
    cc_gors c !! 0%nat = Some g ∧
    is_Ret (gor_turn map_to_list ex_services 7 (ex_draw "w") (cc_test c) (cc_st c) g).
Proof.
  pose proof ex_race_ok as Hv. unfold ex_conc in Hv.
  destruct ex_started as [cfg| |] eqn:Es; [|discriminate Hv|discriminate Hv].
  cbn [mbind outcome_bind] in Hv.
  destruct (run_turns ex_race (concurCtrler_begin 2 (mkShTest cfg 2) (mkCasCtrler (Some ex_c0))))
    as [c| |] eqn:Er; [|discriminate Hv|discriminate Hv].
  destruct (cc_gors c !! 0%nat) as [[pc ngid]|] eqn:Hg; [|discriminate Hv].
  destruct pc; try discriminate Hv.
  pose proof (run_turns_steps ex_race _ c Er) as Hs.
  pose proof (concurCtrler_safe cas_config map_to_list (λ m, reflexivity _) ex_services ex_c0 2 2 14
    _ _ c (ex_concur_start cfg Es) Hs ltac:(lia)) as (_ & Hsafe & _).
  exists cfg, c, (mkCGor CLeave ngid). split; [reflexivity|]. split; [exact Hs|]. split; [exact Hg|].
  apply (Hsafe 0%nat _ 7%nat (ex_draw "w") Hg); [discriminate|intros Hst; discriminate Hst].
Defined.
