(* ===== verification/Harness.v ===== *)
(** * Making and cleaning up the tests of Raft and of the replicated state machine
      ([raft1/test.go], [kvraft1/rsm/test.go], [tester1/config.go])

    The tests of [raft1] and [kvraft1/rsm] on top of a configuration of the tester; what happens
    at their end; clerks behind the interface [IClerkMaker] of [kvtest1/kvtest.go]; and [Fatalf]. *)

From S2P Require Export RaftReader Rsm KvSetup.

Local Open Scope Z_scope.

(** ** [raft1/test.go] *)

Section raft.
Context {Svc : Type}.

(** [Test], with its configuration; [rt_finished] is an [int32] that is 0 or 1. *)
Record RaftTestEnv := mkRaftTestEnv {
  rt_cfg : Config (Svc := Svc);
  rt_n : nat;
  rt_snapshot : bool;
  rt_finished : Z
}.

Definition raft_makeTest (n : nat) (reliable snapshot : bool) (names : list (list string))
    (mks : Z → nat → option Persister → list Svc) (starts : list (list string * nat)) (now : Z)
    : outcome RaftTestEnv :=
  cfg ← MakeConfig reliable names mks starts now;
  let cfg := SetLongDelays cfg true in
  Ret (mkRaftTestEnv cfg n snapshot 0).

(** [ts.g] *)
Definition rt_g (ts : RaftTestEnv) : option (ServerGrp (Svc := Svc)) := Group (rt_cfg ts) GRP0.

(** [End], [Config.Cleanup] and [CheckTimeout], each with its own reading of the clock. *)
Definition end_and_cleanup (cfg : Config (Svc := Svc)) (orders : list (list (string * string)))
    (gorder : list (ServerGrp (Svc := Svc))) (now now' now'' : Z) : outcome Config :=
  _ ← End_ cfg now;
  cfg ← Config_Cleanup cfg orders gorder now';
  _ ← CheckTimeout cfg now'';
  Ret cfg.

Definition raft_cleanup (ts : RaftTestEnv) (orders : list (list (string * string)))
    (gorder : list (ServerGrp (Svc := Svc))) (now now' now'' : Z) : outcome RaftTestEnv :=
  cfg ← end_and_cleanup (rt_cfg ts) orders gorder now now' now'';
  Ret (mkRaftTestEnv cfg (rt_n ts) (rt_snapshot ts) 1).

Definition checkFinished (ts : RaftTestEnv) : bool := negb (rt_finished ts =? 0).

(** ** [kvraft1/rsm/test.go] *)

Record RsmTest := mkRsmTest { rst_cfg : Config (Svc := Svc); rst_maxraftstate : Z; rst_srvs : list (option rsmSrv) }.

(** [srvs] is what the calls of [mksrv] have put there. *)
Definition rsm_makeTest (maxraftstate : Z) (names : list (list string))
    (mks : Z → nat → option Persister → list Svc) (starts : list (list string * nat)) (now : Z)
    (srvs : list (option rsmSrv)) : outcome RsmTest :=
  cfg ← MakeConfig true names mks starts now;
  Ret (mkRsmTest cfg maxraftstate srvs).

Definition rsm_cleanup (ts : RsmTest) (orders : list (list (string * string)))
    (gorder : list (ServerGrp (Svc := Svc))) (now now' now'' : Z) : outcome RsmTest :=
  cfg ← end_and_cleanup (rst_cfg ts) orders gorder now now' now'';
  Ret (mkRsmTest cfg (rst_maxraftstate ts) (rst_srvs ts)).

(** ** Properties *)

(** The network of a new Raft test: long delays, and one group of servers that reach each other. *)
Theorem raft_makeTest_spec n reliable snapshot names mks starts now :
  length names = n →
  NoDup (mjoin names ++ mjoin starts.*1) → length starts = length names →
  Forall (λ ns, length ns = length names) names →
  Forall (λ st : list string * nat, length st.1 = length names) starts →
  ∃ ts sg, raft_makeTest n reliable snapshot names mks starts now = Ret ts ∧ rt_g ts = Some sg ∧
    wf sg ∧ sg_N sg = rt_n ts ∧ full_mesh (cf_net (rt_cfg ts)) sg starts.*2 ∧
    rn_longDelays (cf_net (rt_cfg ts)) = true ∧ Config_IsReliable (rt_cfg ts) = reliable ∧
    checkFinished ts = false.
Proof.
  intros Hn Hnd Hl Hns Hst. unfold raft_makeTest, MakeConfig.
  edestruct (MakeGroupStart_spec (mkConfig makeClnts newGroups MakeNetwork [] false 0 0 0 0) GRP0 names mks starts)
    as (net & sg & -> & Hw & _ & HN & _ & _ & Hm & _); [done..|set_solver|].
  simpl. eexists _, sg. split; [done|]. split_and!; [|done|by rewrite HN|done..].
  unfold rt_g, Group, lookupGroup. simpl. by rewrite lookup_insert_eq.
Qed.

(** A test that ends within two minutes is cleaned up, provided it has not been before: every
    service of every group is killed, no client is left, and the network is done. *)
Lemma raft_cleanup_spec ts orders gorder now now' now'' net' sg :
  let late t := 120 * 1000000000 < t - cf_start (rt_cfg ts) in
  ¬ late now → ¬ late now' → ¬ late now'' → rt_g ts = Some sg →
  remove_each (cf_net (rt_cfg ts)) orders = Ret net' →
  rn_done (w_net (Groups_cleanup (mkWorld net' (cf_killed (rt_cfg ts))) gorder)) = false →
  ∃ ts', raft_cleanup ts orders gorder now now' now'' = Ret ts' ∧ checkFinished ts' = true ∧
    clnts_clerks (cf_clnts (rt_cfg ts')) = None ∧ rn_done (cf_net (rt_cfg ts')) = true ∧
    cf_killed (rt_cfg ts') = w_killed (Groups_cleanup (mkWorld net' (cf_killed (rt_cfg ts))) gorder).
Proof.
  intros late H1 H2 H3 Hg Hr Hd.
  assert (Hct : ∀ t, ¬ late t → CheckTimeout (rt_cfg ts) t = Ret tt).
  { intros t Ht. unfold CheckTimeout. by rewrite (bool_decide_eq_false_2 _ Ht), andb_false_r. }
  assert (He : is_Ret (End_ (rt_cfg ts) now)).
  { unfold End_. rewrite Hct by done. simpl. destruct (cf_failed _); [by eexists|].
    unfold the_group. unfold rt_g in Hg. rewrite Hg. by eexists. }
  destruct He as [st He]. unfold raft_cleanup, end_and_cleanup, Config_Cleanup, Clnts_cleanup.
  rewrite He. simpl. rewrite Hr. simpl. unfold Cleanup. rewrite Hd. simpl.
  rewrite Hct by done. simpl. unfold CheckTimeout in *. simpl.
  rewrite Hct by done. simpl. eexists. by split_and!.
Qed.

End raft.

(** ** Clerks ([kvtest1/kvtest.go]) *)

(** [IClerkMaker]: the pointers of the new clients, and the ends of the one that is deleted. *)
Class IClerkMaker (C : Type) {Svc : Type} := {
  mck_MakeClerk : Config (Svc := Svc) → list nat → outcome (Config (Svc := Svc) * TestClerk C);
  mck_DeleteClerk : Config (Svc := Svc) → TestClerk C → list (string * string) →
    outcome (Config (Svc := Svc))
}.

Section clerks.
Context {Svc : Type}.
Abbreviation Cfg := (Config (Svc := Svc)).

(** The first pointer of a list of new ones. *)
Definition ptr_at (ptrs : list nat) (i : nat) : nat := default 0%nat (ptrs !! i).

#[export] Instance kvsrv_maker : IClerkMaker SrvClerk := {|
  mck_MakeClerk := λ (cfg : Cfg) ptrs, kvsrv_MakeClerk cfg (ptr_at ptrs 0);
  mck_DeleteClerk := DeleteClerk
|}.

#[export] Instance kvraft_maker : IClerkMaker RaftClerk := {|
  mck_MakeClerk := λ (cfg : Cfg) ptrs, kvraft_MakeClerk cfg (ptr_at ptrs 0);
  mck_DeleteClerk := DeleteClerk
|}.

#[export] Instance shardkv_maker : IClerkMaker ShardClerk := {|
  mck_MakeClerk := λ (cfg : Cfg) ptrs, shardkv_MakeClerk cfg (ptr_at ptrs 0) (ptr_at ptrs 1);
  mck_DeleteClerk := DeleteClerk
|}.

(** [Test.MakeClerk] *)
Definition kvtest_MakeClerk {C} `{!IClerkMaker C (Svc := Svc)} (ts : KTest (Svc := Svc)) (ptrs : list nat)
    : outcome (KTest * TestClerk C) :=
  '(cfg, ck) ← mck_MakeClerk (kt_cfg ts) ptrs;
  Ret (mkKTest cfg (kt_oplog ts) (kt_randomkeys ts), ck).

(** The clients that the tester knows. *)
Definition clients (cfg : Cfg) : option (gset nat) := clnts_clerks (cf_clnts cfg).

Lemma DeleteClerk_clients {C} (cfg : Cfg) (ck : TestClerk C) known :
  clients cfg = Some known → tk_clnt ck ∈ known →
  ∃ cfg', DeleteClerk cfg ck [] = Ret cfg' ∧ clients cfg' = Some (known ∖ {[tk_clnt ck]}).
Proof.
  unfold clients, DeleteClerk, DeleteClient. intros -> Hin.
  rewrite bool_decide_eq_true_2 by done. simpl. eauto.
Qed.

(** A clerk that is made and deleted leaves the clients as they were. *)
Lemma kvsrv_make_delete (cfg : Cfg) p ptrs known :
  clients cfg = Some known → p ∉ known →
  ∃ cfg1 ck cfg2, mck_MakeClerk cfg (p :: ptrs) = Ret (cfg1, ck : TestClerk SrvClerk) ∧
    mck_DeleteClerk cfg1 ck [] = Ret cfg2 ∧ clients cfg2 = Some known.
Proof.
  intros Hk Hp. unfold clients in Hk. simpl. unfold kvsrv_MakeClerk, MakeClient, MakeClientTo. rewrite Hk. simpl.
  match goal with |- ∃ cfg1 ck cfg2, Ret (?cfg', ?ck') = _ ∧ _ =>
    destruct (DeleteClerk_clients cfg' ck' ({[p]} ∪ known)) as (cfg2 & E & Hc); [done|simpl; set_solver|];
    exists cfg', ck', cfg2 end.
  split_and!; [done|exact E|]. rewrite Hc. simpl. f_equal. set_solver.
Qed.

(** A clerk of the sharded service has a second client, that of its controller, which stays behind
    when the clerk is deleted. *)
Theorem shardkv_client_stays (cfg : Cfg) p p' known :
  clients cfg = Some known → p ∉ known → p' ∉ known → p ≠ p' →
  ∃ cfg1 ck cfg2, mck_MakeClerk cfg [p; p'] = Ret (cfg1, ck : TestClerk ShardClerk) ∧
    mck_DeleteClerk cfg1 ck [] = Ret cfg2 ∧ clients cfg2 = Some ({[p']} ∪ known).
Proof.
  intros Hk Hp Hp' Hne. unfold clients in Hk. simpl.
  unfold shardkv_MakeClerk, MakeClient, MakeClientTo. rewrite Hk. simpl.
  match goal with |- ∃ cfg1 ck cfg2, Ret (?cfg', ?ck') = _ ∧ _ =>
    destruct (DeleteClerk_clients cfg' ck' ({[p']} ∪ ({[p]} ∪ known))) as (cfg2 & E & Hc); [done|simpl; set_solver|];
    exists cfg', ck', cfg2 end.
  split_and!; [done|exact E|]. rewrite Hc. simpl. f_equal. set_solver.
Qed.

End clerks.

(** [SpreadPuts]: the values are [Randstring]s of twenty characters; [draws] are their random bytes. *)
Definition SpreadPuts (srv : KVServer) (draws : list (list Z)) (scripts : list (list NetEvent))
    : outcome (KVServer * list string) :=
  SpreadPutsSize srv (String.string_of_list_ascii <$> (Randstring 20 <$> draws)) scripts.

(** ** [Config.Fatalf] *)

(** A frame of the stack. *)
Record Frame := mkFrame { fr_File : string; fr_Line : Z }.

Fixpoint contains (s sub : string) : bool :=
  String.prefix sub s || match s with String _ s => contains s sub | EmptyString => false end.

(** The frames printed, of those that [runtime.Callers] finds, at most [maxStackLen]; then the test
    fails. *)
Definition Fatalf (frames : list Frame) : list Frame * outcome unit :=
  match take 50 frames with
  | [] => ([], Panic "testing: zero callers found")
  | frames => (filter (λ f, contains (fr_File f) "test.go" = true) frames, Fatal "FailNow")
  end.
