(* ===== verification/KvNet.v ===== *)
(** * The clerk over the simulated network ([kvsrv1/client.go] on [labrpc/labrpc.go])

    Clerk.v runs the loops of [Clerk.Get] and [Clerk.Put] over a script of network events.
    Here the same loops run over [ClientEnd.Call] itself: each try is a call through a network
    that other goroutines change while it is under way, dispatched by the laboratory's server to
    the handlers of [KVServer]. The scripts of Clerk.v are an abstraction of these runs, so what
    is proved about them holds of the whole stack. *)

From S2P Require Export Clerk Labrpc.

Local Open Scope Z_scope.

(** ** The values that travel, and the handlers that [reflect] finds *)

Inductive RpcVal :=
  | VGetArgs (a : GetArgs)
  | VGetReply (r : GetReply)
  | VPutArgs (a : PutArgs)
  | VPutReply (r : PutReply).

Inductive RpcType := TGetArgs | TGetReply | TPutArgs | TPutReply.

Definition type_of (v : RpcVal) : RpcType :=
  match v with
  | VGetArgs _ => TGetArgs
  | VGetReply _ => TGetReply
  | VPutArgs _ => TPutArgs
  | VPutReply _ => TPutReply
  end.

Definition zero_of (t : RpcType) : RpcVal :=
  match t with
  | TGetArgs => VGetArgs (mkGetArgs "")
  | TGetReply => VGetReply zero_GetReply
  | TPutArgs => VPutArgs (mkPutArgs "" "" 0)
  | TPutReply => VPutReply zero_PutReply
  end.

Definition wrong_type {A} : outcome A := Panic "reflect: Call using wrong type".

(** [function.Call([receiver, args, reply])] on the two handlers. *)
Definition Get_func (kv : KVServer) (args reply : RpcVal) : outcome (KVServer * RpcVal) :=
  match args, reply with
  | VGetArgs a, VGetReply r => Ret (kv, VGetReply (KVServer_Get kv a r))
  | _, _ => wrong_type
  end.

Definition Put_func (kv : KVServer) (args reply : RpcVal) : outcome (KVServer * RpcVal) :=
  match args, reply with
  | VPutArgs a, VPutReply r => '(kv, r) ← KVServer_Put kv a r; Ret (kv, VPutReply r)
  | _, _ => wrong_type
  end.

Definition no_func (kv : KVServer) (args reply : RpcVal) : outcome (KVServer * RpcVal) :=
  wrong_type.

(** The exported methods of [*KVServer] as [reflect] lists them. The helpers that do not look
    like handlers are never called through it. *)
Definition kv_methods : list (Method RpcVal RpcType KVServer) :=
  [mkMethod "AddRecord" true 4 false 0 TPutReply no_func;
   mkMethod "Get" true 3 true 0 TGetReply Get_func;
   mkMethod "Kill" true 1 false 0 TPutReply no_func;
   mkMethod "Put" true 3 true 0 TPutReply Put_func;
   mkMethod "UpdateRecord" true 3 false 1 TPutReply no_func].

Definition kv_service : Service RpcVal RpcType KVServer := MakeService "KVServer" kv_methods.

Definition kv_lab : Server RpcVal RpcType KVServer := AddService MakeServer kv_service.

(** Of the five methods, [MakeService] registers the two handlers. *)
Example kv_service_handlers :
  map_to_list (m_NumIn <$> svc_methods kv_service) = [("Get", 3); ("Put", 3)] ∨
  map_to_list (m_NumIn <$> svc_methods kv_service) = [("Put", 3); ("Get", 3)].
Proof. vm_compute. auto. Qed.

Section net.
Context (encode : RpcVal → bytes * bool) (decode : bytes → RpcVal → RpcVal * bool).

(** The end that [Clnt.makeEnd] has made for the server. *)
Context (endname : string).

Definition svc_meth (req : Request) : string :=
  match req with ReqGet _ => "KVServer.Get" | ReqPut _ => "KVServer.Put" end.

Definition req_val (req : Request) : RpcVal :=
  match req with ReqGet a => VGetArgs a | ReqPut a => VPutArgs a end.

Definition rep_val (rep : Reply) : RpcVal :=
  match rep with RepGet r => VGetReply r | RepPut r => VPutReply r end.

(** The reply that the clerk allocates. *)
Definition zero_rep (req : Request) : RpcVal :=
  match req with ReqGet _ => VGetReply zero_GetReply | ReqPut _ => VPutReply zero_PutReply end.

Definition rpc_of (from : string) (req : Request) : reqMsg :=
  mkReqMsg from (svc_meth req) (type_of (req_val req)) (encode (req_val req)).1.

(** The server with its dispatcher, the handlers of this clerk's calls that have started and
    not run yet, and the loop: [requestCount], [reply], [ok]. *)
Record NetRun := mkNetRun {
  nr_kv : KVServer;
  nr_lab : Server RpcVal RpcType KVServer;
  nr_pending : nat;
  nr_count : Z;
  nr_reply : RpcVal;
  nr_ok : bool
}.

Definition net_init (req : Request) (kv : KVServer) : NetRun :=
  mkNetRun kv kv_lab 0 0 (zero_rep req) false.

(** What happens next: another client's request is dispatched; the clerk makes a call; a
    handler of an earlier call that the network gave up runs. In a call, [nets] is the network
    at each read, and [late] tells whether its handler is still to run when the call fails. *)
Inductive Move :=
  | MOther (from : string) (req : Request)
  | MCall (nets : nat → Network) (d : Draws) (polls : nat) (late : bool)
  | MLate.

(** [ok = ck.clnt.Call(ck.server, "KVServer.Put", &args, &reply); requestCount++]. There is one
    server in the network, so all pointers lead to [nr_lab]. *)
Definition clerk_call (req : Request) (st : NetRun) (nets : nat → Network) (d : Draws)
    (polls : nat) (late : bool) : outcome NetRun :=
  '(ok, reply, ores) ← ClientEnd_Call encode decode zero_of nets (λ _, nr_lab st) d polls
    (nr_kv st) endname (svc_meth req) (type_of (req_val req)) (req_val req) (nr_reply st);
  let count := i64_wrap (nr_count st + 1) in
  Ret match ores ≫= cr_exec with
  | Some (lab, kv) =>
      if negb ok && late
      then mkNetRun (nr_kv st) (nr_lab st) (S (nr_pending st)) count reply ok
      else mkNetRun kv lab (nr_pending st) count reply ok
  | None => mkNetRun (nr_kv st) (nr_lab st) (nr_pending st) count reply ok
  end.

(** A request that is dispatched without the clerk waiting for its reply. *)
Definition run_handler (st : NetRun) (msg : reqMsg) (pending : nat) : outcome NetRun :=
  '(lab, kv, _) ← Server_dispatch encode decode zero_of (nr_lab st) msg (nr_kv st);
  Ret (mkNetRun kv lab pending (nr_count st) (nr_reply st) (nr_ok st)).

(** [for ok == false { … }]: once the loop has ended only the others go on. *)
Definition net_step (req : Request) (st : NetRun) (m : Move) : outcome NetRun :=
  match m with
  | MOther from other => run_handler st (rpc_of from other) (nr_pending st)
  | MCall nets d polls late => if nr_ok st then Ret st else clerk_call req st nets d polls late
  | MLate =>
      match nr_pending st with
      | O => Ret st
      | S n => run_handler st (rpc_of endname req) n
      end
  end.

Fixpoint net_run (req : Request) (st : NetRun) (ms : list Move) : outcome NetRun :=
  match ms with
  | [] => Ret st
  | m :: ms => st ← net_step req st m; net_run req st ms
  end.

(** What follows the loops. *)
Definition Put_result (st : NetRun) : option Err :=
  match nr_ok st, nr_reply st with
  | true, VPutReply r => Some (Clerk_Put_err (PutReply_Err r) (nr_count st))
  | _, _ => None
  end.

Definition Get_result (st : NetRun) : option (string * Tversion * Err) :=
  match nr_ok st, nr_reply st with
  | true, VGetReply r => Some (GetReply_Value r, GetReply_Version r, GetReply_Err r)
  | _, _ => None
  end.
End net.

(** ** Simulation by the scripts of Clerk.v *)

Lemma put_events_app args evs evs' st :
  Clerk_Put_events args st (evs ++ evs') =
    (st' ← Clerk_Put_events args st evs; Clerk_Put_events args st' evs').
Proof.
  revert st. induction evs as [|ev evs IH]; intros st; simpl; [done|].
  destruct (Clerk_Put_event args st ev); simpl; [apply IH|done|done].
Qed.

Section simulation.
Context (encode : RpcVal → bytes * bool) (decode : bytes → RpcVal → RpcVal * bool) (endname : string).

(** labgob encodes these values, and decodes what it encodes into a fresh value of the same type. *)
Context (encode_ok : ∀ v, (encode v).2 = true).
Context (decode_encode : ∀ v, decode (encode v).1 (zero_of (type_of v)) = (v, true)).

Abbreviation nstep := (net_step encode decode endname).
Abbreviation nrun := (net_run encode decode endname).

Definition move_ok (m : Move) : Prop :=
  match m with MCall _ d _ _ => draws_ok d | _ => True end.

Lemma zero_rep_type req kv kv' rep :
  KVServer_handle kv req = Ret (kv', rep) → zero_rep req = zero_of (type_of (rep_val rep)).
Proof. destruct req; simpl; intros Hh; [by simplify_eq/=|]. bind_inv Hh. by simplify_eq/=. Qed.

Lemma kv_lab_service : rs_services kv_lab !! "KVServer" = Some kv_service.
Proof. done. Qed.

Lemma kv_service_Get :
  svc_methods kv_service !! "Get" = Some (mkMethod "Get" true 3 true 0 TGetReply Get_func).
Proof. done. Qed.

Lemma kv_service_Put :
  svc_methods kv_service !! "Put" = Some (mkMethod "Put" true 3 true 0 TPutReply Put_func).
Proof. done. Qed.

(** The way through the dispatcher: a request is handled by the server, and counted. *)
Lemma dispatch_handle from req lab kv :
  rs_services lab = rs_services kv_lab →
  ∃ kv' rep, KVServer_handle kv req = Ret (kv', rep) ∧
    Server_dispatch encode decode zero_of lab (rpc_of encode from req) kv =
      Ret (mkServer (rs_services lab) (i64_wrap (rs_count lab + 1)), kv',
           mkReplyMsg true (encode (rep_val rep)).1).
Proof.
  intros Hl. destruct (handle_total kv req) as (kv' & rep & Hh). exists kv', rep. split; [done|].
  unfold Server_dispatch. rewrite Hl.
  destruct req as [a|a]; cbn [rpc_of svc_meth req_svcMeth].
  - change (split_last_dot "KVServer.Get") with (Some ("KVServer", "Get")). cbv beta iota.
    cbn [rs_services]. rewrite kv_lab_service. unfold Service_dispatch. rewrite kv_service_Get.
    cbn [rpc_of req_args req_argsType req_val].
    rewrite decode_encode. simpl in *. simplify_eq/=. by destruct (encode _).
  - change (split_last_dot "KVServer.Put") with (Some ("KVServer", "Put")). cbv beta iota.
    cbn [rs_services]. rewrite kv_lab_service. unfold Service_dispatch. rewrite kv_service_Put.
    cbn [rpc_of req_args req_argsType req_val].
    rewrite decode_encode. simpl in Hh. bind_inv Hh. simpl. rewrite Hbind. simpl. simplify_eq/=.
    by destruct (encode _).
Qed.

(** A handler that runs apart from the clerk's loop. *)
Lemma run_handler_spec st from req n :
  rs_services (nr_lab st) = rs_services kv_lab →
  ∃ lab kv' rep, run_handler encode decode st (rpc_of encode from req) n =
      Ret (mkNetRun kv' lab n (nr_count st) (nr_reply st) (nr_ok st)) ∧
    rs_services lab = rs_services kv_lab ∧ KVServer_handle (nr_kv st) req = Ret (kv', rep).
Proof.
  intros Hl. destruct (dispatch_handle from req (nr_lab st) (nr_kv st) Hl) as (kv' & rep & Hh & Hd).
  unfold run_handler. rewrite Hd. simpl. eauto 10.
Qed.

(** What one try comes to: no handler ran; its handler ran and the reply arrived; or its handler
    ran, or is still to run, and the call failed. *)
Lemma clerk_call_cases req st nets d polls late :
  rs_services (nr_lab st) = rs_services kv_lab → nr_reply st = zero_rep req → draws_ok d →
  ∃ st', clerk_call encode decode endname req st nets d polls late = Ret st' ∧
    rs_services (nr_lab st') = rs_services kv_lab ∧ nr_count st' = i64_wrap (nr_count st + 1) ∧
    ((nr_ok st' = false ∧ nr_reply st' = nr_reply st ∧ nr_kv st' = nr_kv st ∧
        (nr_pending st' ≤ S (nr_pending st))%nat) ∨
     ∃ rep, KVServer_handle (nr_kv st) req = Ret (nr_kv st', rep) ∧
       nr_pending st' = nr_pending st ∧
       ((nr_ok st' = false ∧ nr_reply st' = nr_reply st) ∨
        (nr_ok st' = true ∧ nr_reply st' = rep_val rep))).
Proof.
  intros Hl Hrep Hd.
  destruct (dispatch_handle endname req (nr_lab st) (nr_kv st) Hl) as (kv' & rep & Hh & Hdis).
  assert (Hdec : decode (encode (rep_val rep)).1 (nr_reply st) = (rep_val rep, true)).
  { rewrite Hrep, (zero_rep_type _ _ _ _ Hh). apply decode_encode. }
  unfold clerk_call.
  destruct (Call_total encode decode zero_of nets (λ _, nr_lab st) d polls (nr_kv st) endname
    (svc_meth req) (type_of (req_val req)) (req_val req) (nr_reply st) (encode_ok _))
    as [[[ok reply] ores] Hc]; [|rewrite Hc].
  { intros sn sv _. unfold rpc_of in Hdis. rewrite Hdis. eexists _, _, _, _. split; [done|exact Hdec]. }
  destruct (Call_cases _ _ _ _ _ _ _ _ _ _ _ _ _ _ _ _ Hd Hc)
    as [_ [(-> & -> & Hno)|(sn & sv & rs' & st' & rep' & Hr & Hdis' & Hex & Hcase)]];
    cbn [mbind outcome_bind].
  - rewrite Hno. eexists. split; [done|]. split_and!; [done..|].
    left. simpl. split_and!; [done..|lia].
  - unfold rpc_of in Hdis. rewrite Hdis in Hdis'. simplify_eq/=. rewrite Hex.
    destruct Hcase as [[-> ->]|[-> Hdr]]; [destruct late|]; simpl; (eexists; split; [done|]);
      simpl; (split_and!; [done..|]).
    + left. auto.
    + right. eauto 10.
    + right. exists rep. rewrite Hdec in Hdr. simplify_eq. auto.
Qed.

(** Related states: the same server and count; every pending handler is in flight in the
    script; the results agree. *)
Record put_sim (st : NetRun) (run : PutRun) : Prop := {
  ps_srv : run_srv run = nr_kv st;
  ps_lab : rs_services (nr_lab st) = rs_services kv_lab;
  ps_count : run_count run = nr_count st;
  ps_pending : (nr_pending st ≤ run_inflight run)%nat;
  ps_result : run_result run = Put_result st;
  ps_reply : if nr_ok st then ∃ r, nr_reply st = VPutReply r
             else nr_reply st = VPutReply zero_PutReply
}.

(** One execution of the Put, in the net and in the script. *)
Lemma handle_exec_put args run kv' rep :
  KVServer_handle (run_srv run) (ReqPut args) = Ret (kv', rep) →
  ∃ r n, rep = RepPut r ∧
    exec_put args run =
      Ret (mkPutRun kv' (run_inflight run) (run_count run) n (run_result run), r).
Proof.
  simpl. intros Hh. bind_inv Hh. simplify_eq. unfold exec_put. rewrite Hbind. simpl. eauto.
Qed.

(** One try is a call that is lost, one that is lost and executed, or one that returns. *)
Lemma put_sim_call args st run nets d polls late :
  put_sim st run → draws_ok d → nr_ok st = false →
  ∃ st' evs run', clerk_call encode decode endname (ReqPut args) st nets d polls late = Ret st' ∧
    Clerk_Put_events args run evs = Ret run' ∧ (length evs ≤ 2)%nat ∧ (tries evs ≤ 1)%nat ∧ put_sim st' run'.
Proof.
  intros Hs Hd Hok. destruct Hs as [Es El Ec Ep Er Hrep]. rewrite Hok in Hrep.
  unfold Put_result in Er. rewrite Hok in Er. destruct run as [srv infl cnt app res]. simpl in *. subst.
  destruct (clerk_call_cases (ReqPut args) st nets d polls late El Hrep Hd)
    as (st' & Hc & Hl' & Hcnt & [(Ho & Hr & Hkv & Hp)|(rep & Hh & Hp & Hcase)]); exists st'.
  - exists [EvLost]. eexists. split_and!; [done|reflexivity|simpl; lia|simpl; lia|].
    split; simpl; [done..|lia|by unfold Put_result; rewrite Ho|by rewrite Ho, Hr].
  - destruct Hcase as [[Ho Hr]|[Ho Hr]].
    + destruct (handle_exec_put args (mkPutRun (nr_kv st) infl (i64_wrap (nr_count st + 1)) app None) _ _ Hh)
        as (r & n & -> & He).
      exists [EvLost; EvLate]. eexists. split_and!; [done|simpl; rewrite He; reflexivity|done|simpl; lia|].
      split; simpl; [done..|lia|by unfold Put_result; rewrite Ho|by rewrite Ho, Hr].
    + destruct (handle_exec_put args (mkPutRun (nr_kv st) infl (nr_count st) app None) _ _ Hh)
        as (r & n & -> & He).
      exists [EvReply]. eexists. split_and!; [done|simpl; rewrite He; reflexivity|simpl; lia|simpl; lia|].
      split; simpl; [done..|lia| |rewrite Ho, Hr; simpl; eauto].
      unfold Put_result. by rewrite Ho, Hr, Hcnt.
Qed.

Lemma put_sim_step args st run m :
  put_sim st run → move_ok m →
  ∃ st' evs run', nstep (ReqPut args) st m = Ret st' ∧
    Clerk_Put_events args run evs = Ret run' ∧ (length evs ≤ 2)%nat ∧ (tries evs ≤ 1)%nat ∧ put_sim st' run'.
Proof.
  intros Hs Hm. destruct m as [from other|nets d polls late|]; cbn [net_step].
  - destruct Hs as [Es El Ec Ep Er Hrep].
    destruct (run_handler_spec st from other (nr_pending st) El) as (lab & kv' & rep & -> & Hl & Hh).
    eexists _, [EvOther other], _. split_and!; [done|simpl; rewrite Es, Hh; reflexivity|simpl; lia|simpl; lia|].
    by split.
  - destruct (nr_ok st) eqn:Hok; [|by apply put_sim_call].
    exists st, [], run. split_and!; [done..|simpl; lia|simpl; lia|done].
  - destruct (nr_pending st) as [|n] eqn:Hn.
    { exists st, [], run. split_and!; [done..|simpl; lia|simpl; lia|done]. }
    destruct Hs as [Es El Ec Ep Er Hrep].
    destruct (run_handler_spec st endname (ReqPut args) n El) as (lab & kv' & rep & -> & Hl & Hh).
    destruct run as [srv [|infl] cnt app res]; simpl in *; [lia|]. subst.
    destruct (handle_exec_put args (mkPutRun (nr_kv st) infl (nr_count st) app (Put_result st)) _ _ Hh)
      as (r & k & -> & He).
    eexists _, [EvLate], _. split_and!; [done|simpl; rewrite He; reflexivity|simpl; lia|simpl; lia|].
    split; simpl; try done. lia.
Qed.

Lemma put_sim_run args ms st run :
  put_sim st run → Forall move_ok ms →
  ∃ st' evs run', nrun (ReqPut args) st ms = Ret st' ∧
    Clerk_Put_events args run evs = Ret run' ∧ (length evs ≤ 2 * length ms)%nat ∧ (tries evs ≤ length ms)%nat ∧ put_sim st' run'.
Proof.
  intros Hs Hms. revert st run Hs. induction Hms as [|m ms Hm Hms IH]; intros st run Hs; simpl.
  { exists st, [], run. by split_and!. }
  destruct (put_sim_step args st run m Hs Hm) as (st1 & evs1 & run1 & -> & H1 & Hl1 & Ht1 & Hs1). simpl.
  destruct (IH _ _ Hs1) as (st2 & evs2 & run2 & -> & H2 & Hl2 & Ht2 & Hs2).
  exists st2, (evs1 ++ evs2), run2. rewrite put_events_app, H1, length_app, tries_app. simpl.
  split_and!; [done..|lia|lia|done].
Qed.

(** ** Get *)

(** Before it has returned, the script has followed the server; afterwards it keeps the result. *)
Definition get_sim (key : string) (srv : KVServer) (st : NetRun) (evs : list NetEvent) : Prop :=
  rs_services (nr_lab st) = rs_services kv_lab ∧
  if nr_ok st then ∃ kv', Clerk_Get srv key evs = Ret (kv', Get_result st)
  else nr_reply st = VGetReply zero_GetReply ∧
       ∀ evs', Clerk_Get srv key (evs ++ evs') = Clerk_Get (nr_kv st) key evs'.

Lemma get_sim_step key srv st evs m :
  get_sim key srv st evs → move_ok m →
  ∃ st' evs', nstep (ReqGet (mkGetArgs key)) st m = Ret st' ∧
    (length evs' ≤ 1)%nat ∧ get_sim key srv st' (evs ++ evs').
Proof.
  intros [El Hs] Hm. destruct m as [from other|nets d polls late|]; cbn [net_step].
  - destruct (run_handler_spec st from other (nr_pending st) El) as (lab & kv' & rep & -> & Hl & Hh).
    destruct (nr_ok st) eqn:Hok; [|destruct Hs as [Hrep Hs]]; eexists.
    + exists []. split_and!; [done|simpl; lia|]. rewrite app_nil_r. split; [done|].
      simpl. unfold Get_result in *. by rewrite Hok in Hs.
    + exists [EvOther other]. split_and!; [done|simpl; lia|]. split; [done|]. simpl. split; [done|].
      intros evs'. rewrite <- (assoc app), Hs. simpl. by rewrite Hh.
  - destruct (nr_ok st) eqn:Hok.
    { exists st, []. rewrite app_nil_r. split_and!; [done|simpl; lia|]. split; [done|]. by rewrite Hok. }
    destruct Hs as [Hrep Hs].
    destruct (clerk_call_cases (ReqGet (mkGetArgs key)) st nets d polls late El Hrep Hm)
      as (st' & -> & Hl' & _ & [(Ho & Hr & Hkv & _)|(rep & Hh & _ & [[Ho Hr]|[Ho Hr]])]); exists st'.
    + exists []. rewrite app_nil_r. split_and!; [done|simpl; lia|]. split; [done|].
      rewrite Ho, Hr, Hkv. done.
    + exists []. simpl in Hh. rewrite app_nil_r. split_and!; [done|simpl; lia|]. split; [done|].
      injection Hh as Hkv _. by rewrite Ho, Hr, <- Hkv.
    + exists [EvReply]. simpl in Hh. split_and!; [done|simpl; lia|]. split; [done|].
      injection Hh as _ <-. rewrite Ho, Hs. simpl. exists (nr_kv st). f_equal. f_equal.
      unfold Get_result. by rewrite Ho, Hr.
  - destruct (nr_pending st) as [|n] eqn:Hn.
    { exists st, []. rewrite app_nil_r. split_and!; [done|simpl; lia|]. by split. }
    destruct (run_handler_spec st endname (ReqGet (mkGetArgs key)) n El) as (lab & kv' & rep & -> & Hl & Hh).
    simpl in Hh. simplify_eq. eexists _, []. rewrite app_nil_r. split_and!; [done|simpl; lia|].
    by split.
Qed.

Lemma get_sim_run key srv st evs ms :
  get_sim key srv st evs → Forall move_ok ms →
  ∃ st' evs', nrun (ReqGet (mkGetArgs key)) st ms = Ret st' ∧
    (length evs' ≤ length ms)%nat ∧ get_sim key srv st' (evs ++ evs').
Proof.
  intros Hs Hms. revert st evs Hs. induction Hms as [|m ms Hm Hms IH]; intros st evs Hs; simpl.
  { exists st, []. rewrite app_nil_r. by split_and!. }
  destruct (get_sim_step key srv st evs m Hs Hm) as (st1 & evs1 & -> & Hl1 & Hs1). simpl.
  destruct (IH _ _ Hs1) as (st2 & evs2 & -> & Hl2 & Hs2).
  exists st2, (evs1 ++ evs2). rewrite length_app, (assoc app). split_and!; [done|lia|done].
Qed.

(** ** A network that works *)

(** The end reaches the server whenever the network is read, and nothing is dropped. *)
Definition healed (nets : nat → Network) (servername : string) (server : nat) : Prop :=
  ∀ k, reaches (nets k) endname servername server ∧ rn_reliable (nets k) = true ∧
    rn_done (nets k) = false.

(** The call returns true: the reply cannot get lost. *)
Lemma healed_call req st nets d polls servername server :
  rs_services (nr_lab st) = rs_services kv_lab → nr_reply st = zero_rep req →
  healed nets servername server →
  ∃ v ores, ClientEnd_Call encode decode zero_of nets (λ _, nr_lab st) d polls (nr_kv st) endname
    (svc_meth req) (type_of (req_val req)) (req_val req) (nr_reply st) = Ret (true, v, ores).
Proof.
  intros El Hrep Hn. destruct (handle_total (nr_kv st) req) as (kv' & rep & Hh).
  assert (Hdec : decode (encode (rep_val rep)).1 (nr_reply st) = (rep_val rep, true)).
  { rewrite Hrep, (zero_rep_type _ _ _ _ Hh). apply decode_encode. }
  assert (Hm : ∃ mname method, split_last_dot (svc_meth req) = Some ("KVServer", mname) ∧
    svc_methods kv_service !! mname = Some method ∧
    m_Func method (nr_kv st) (req_val req) (zero_of (m_replyType method)) = Ret (kv', rep_val rep)).
  { destruct req as [a|a]; simpl in Hh.
    - exists "Get". eexists. split_and!; [done|exact kv_service_Get|]. simpl. by simplify_eq/=.
    - exists "Put". eexists. split_and!; [done|exact kv_service_Put|]. bind_inv Hh. simpl.
      rewrite Hbind. simpl. by simplify_eq/=. }
  destruct Hm as (mname & method & Hsplit & Hmeth & Hf).
  destruct (Call_reliable encode decode zero_of nets (λ _, nr_lab st) d polls (nr_kv st) kv' endname
    servername server (svc_meth req) "KVServer" mname kv_service method (type_of (req_val req))
    (req_val req) (nr_reply st) (rep_val rep)) as (res & Hc & _); try done; [by rewrite El|].
  eauto.
Qed.

(** One try is then enough, and its reply is the handler's. *)
Lemma clerk_call_healed req st nets d polls late servername server :
  rs_services (nr_lab st) = rs_services kv_lab → nr_reply st = zero_rep req → draws_ok d →
  healed nets servername server →
  ∃ st' rep, clerk_call encode decode endname req st nets d polls late = Ret st' ∧
    KVServer_handle (nr_kv st) req = Ret (nr_kv st', rep) ∧
    nr_ok st' = true ∧ nr_reply st' = rep_val rep ∧ nr_count st' = i64_wrap (nr_count st + 1) ∧
    nr_pending st' = nr_pending st.
Proof.
  intros El Hrep Hd Hn.
  destruct (dispatch_handle endname req (nr_lab st) (nr_kv st) El) as (kv' & rep & Hh & Hdis).
  destruct (clerk_call_cases req st nets d polls late El Hrep Hd) as (st' & Hc & _ & Hcnt & Hcase).
  assert (Hok : nr_ok st' = true).
  { edestruct (healed_call req st nets d polls) as (v & ores & Hv); [done..|].
    unfold clerk_call in Hc. rewrite Hv in Hc. simpl in Hc. by repeat case_match; simplify_eq/=. }
  destruct Hcase as [(Ho' & _)|(rep' & Hh' & Hp & [[Ho' _]|[_ Hr]])]; [congruence..|].
  exists st', rep'. by split_and!.
Qed.

(** Until the loop ends the reply is as it was allocated. *)
Definition net_inv (req : Request) (st : NetRun) : Prop :=
  rs_services (nr_lab st) = rs_services kv_lab ∧ (nr_ok st = false → nr_reply st = zero_rep req).

Lemma net_step_inv req st m :
  net_inv req st → move_ok m → ∃ st', nstep req st m = Ret st' ∧ net_inv req st'.
Proof.
  intros [El Hr] Hm. destruct m as [from other|nets d polls late|]; cbn [net_step].
  - destruct (run_handler_spec st from other (nr_pending st) El) as (lab & kv' & rep & -> & Hl & Hh).
    eexists. by split; [|split].
  - destruct (nr_ok st) eqn:Hok; [exists st; split; [done|]; split; [done|congruence]|].
    destruct (clerk_call_cases req st nets d polls late El (Hr eq_refl) Hm)
      as (st' & -> & Hl & _ & Hcase). exists st'. split; [done|]. split; [done|].
    destruct Hcase as [(Ho & -> & _)|(rep & _ & _ & [[Ho ->]|[Ho _]])]; [auto..|congruence].
  - destruct (nr_pending st) as [|n]; [exists st; by split|].
    destruct (run_handler_spec st endname req n El) as (lab & kv' & rep & -> & Hl & Hh).
    eexists. by split; [|split].
Qed.

Lemma net_run_inv req st ms :
  net_inv req st → Forall move_ok ms → ∃ st', nrun req st ms = Ret st' ∧ net_inv req st'.
Proof.
  intros Hi Hms. revert st Hi. induction Hms as [|m ms Hm Hms IH]; intros st Hi; simpl; [eauto|].
  destruct (net_step_inv req st m Hi Hm) as (st1 & -> & Hi1). simpl. by apply IH.
Qed.

Lemma net_run_snoc req st ms m :
  nrun req st (ms ++ [m]) = (st ← nrun req st ms; nstep req st m).
Proof.
  revert st. induction ms as [|m' ms IH]; intros st; simpl.
  - by destruct (nstep req st m).
  - destruct (nstep req st m'); simpl; [apply IH|done|done].
Qed.

(** C2: the retrying Put over the simulated network refines the script of Clerk.v. Let the
    network drop, delay and duplicate as its random draws say, change while calls are under
    way, and let other clients' requests be served in between. Then the loop of [Clerk.Put]
    over [ClientEnd.Call], through encoding, dispatch and decoding, never fails, and there is
    a script of events on which [Clerk_Put] leaves the same server, has made the same number
    of tries and has the same result. In particular the Put takes effect at most once, [OK]
    means that it has and [ErrVersion] that it has not. *)
Theorem Clerk_Put_net_refines srv key value version ms :
  Forall move_ok ms → 0 ≤ kver srv key → kver srv key + 2 * Z.of_nat (length ms) < 2 ^ 64 →
  let req := ReqPut (mkPutArgs key value version) in
  ∃ st evs run, nrun req (net_init req srv) ms = Ret st ∧
    Clerk_Put srv key value version evs = Ret run ∧
    run_srv run = nr_kv st ∧ run_count run = nr_count st ∧ run_result run = Put_result st ∧
    (nr_pending st ≤ run_inflight run)%nat ∧
    (run_applied run ≤ 1)%nat ∧
    (Put_result st = Some OK → run_applied run = 1%nat) ∧
    (Put_result st = Some ErrVersion → run_applied run = 0%nat).
Proof.
  intros Hms H0 Hb req.
  destruct (put_sim_run (mkPutArgs key value version) ms (net_init req srv)
    (mkPutRun srv 0 0 0 None)) as (st & evs & run & Hr & Hc & Hl & Ht & [Es El Ec Ep Er Hrep]);
    [by split|done|].
  destruct (events_inv (mkPutArgs key value version) evs (mkPutRun srv 0 0 0 None))
    as (run' & E & [_ H1 _ _ Hres]); [by split; unfold result_inv; simpl; try lia|simpl; lia|simpl; lia|].
  assert (run' = run) as -> by congruence. exists st, evs, run.
  unfold result_inv in Hres. rewrite Er in Hres.
  split_and!; [done..| |]; intros E'; rewrite E' in Hres;
    destruct Hres as [[??]|[(?&?&?&?)|[[??]|[??]]]]; done.
Qed.

(** Get over the simulated network refines its script: the reply is one that the server would
    have given to a single call made at some moment of the run. *)
Theorem Clerk_Get_net_refines srv key ms :
  Forall move_ok ms →
  let req := ReqGet (mkGetArgs key) in
  ∃ st evs kv', nrun req (net_init req srv) ms = Ret st ∧
    Clerk_Get srv key evs = Ret (kv', Get_result st) ∧ (length evs ≤ length ms)%nat ∧
    (nr_ok st = false → kv' = nr_kv st).
Proof.
  intros Hms req.
  destruct (get_sim_run key srv (net_init req srv) [] ms) as (st & evs & Hr & Hl & El & Hs); [by split|done|].
  simpl in Hs. destruct (nr_ok st) eqn:Hok.
  - destruct Hs as [kv' Hs]. exists st, evs, kv'. split_and!; [done..|]. by rewrite Hok.
  - destruct Hs as [_ Hs]. exists st, evs, (nr_kv st). specialize (Hs []). rewrite app_nil_r in Hs.
    rewrite Hs. unfold Get_result. rewrite Hok. by split_and!.
Qed.

(** C3: both loops end as soon as the network works. Whatever has happened before, if the end
    reaches the server at every read during one try and the network is reliable and not shut
    down, then after that try the loop has ended: either it had before, or with the server's
    reply to this try, whose handler has run once and is not left over. *)
Theorem Clerk_net_returns req srv ms nets d polls late servername server :
  Forall move_ok ms → draws_ok d → healed nets servername server →
  ∃ st st', nrun req (net_init req srv) ms = Ret st ∧
    nrun req (net_init req srv) (ms ++ [MCall nets d polls late]) = Ret st' ∧
    nr_ok st' = true ∧ nr_pending st' = nr_pending st ∧
    (nr_ok st = true → st' = st) ∧
    (nr_ok st = false → nr_count st' = i64_wrap (nr_count st + 1) ∧
       ∃ rep, KVServer_handle (nr_kv st) req = Ret (nr_kv st', rep) ∧ nr_reply st' = rep_val rep).
Proof.
  intros Hms Hd Hn.
  destruct (net_run_inv req (net_init req srv) ms) as (st & Hr & El & Hrep); [by split|done|].
  rewrite net_run_snoc, Hr. cbn [mbind outcome_bind net_step].
  destruct (nr_ok st) eqn:Hok; [exists st, st; rewrite Hok; by split_and!|].
  destruct (clerk_call_healed req st nets d polls late servername server El (Hrep eq_refl) Hd Hn)
    as (st' & rep & Hc & Hh & Ho & Hr' & Hcnt & Hp).
  exists st, st'. rewrite Hok. split_and!; [done..|]. intros _. eauto.
Qed.
End simulation.

(** ** Examples *)

#[export] Instance RpcVal_eq_dec : EqDecision RpcVal.
Proof. solve_decision. Defined.

(** An encoding to show that the theorems can be used. *)
Definition val_code (v : RpcVal) : (string + string * Z * string) + (string * string * Z + string) :=
  match v with
  | VGetArgs a => inl (inl (GetArgs_Key a))
  | VGetReply r => inl (inr (GetReply_Value r, GetReply_Version r, GetReply_Err r))
  | VPutArgs a => inr (inl (PutArgs_Key a, PutArgs_Value a, PutArgs_Version a))
  | VPutReply r => inr (inr (PutReply_Err r))
  end.

Definition code_val (c : (string + string * Z * string) + (string * string * Z + string)) : RpcVal :=
  match c with
  | inl (inl k) => VGetArgs (mkGetArgs k)
  | inl (inr (v, n, e)) => VGetReply (mkGetReply v n e)
  | inr (inl (k, v, n)) => VPutArgs (mkPutArgs k v n)
  | inr (inr e) => VPutReply (mkPutReply e)
  end.

#[export] Instance RpcVal_countable : Countable RpcVal.
Proof. refine (inj_countable' val_code code_val _). by intros [[]|[]|[]|[]]. Defined.

Definition ex_enc (v : RpcVal) : list Z * bool := (bytes_enc v, true).
Definition ex_dec (b : list Z) (old : RpcVal) : RpcVal * bool :=
  match bytes_dec b with Some v => (v, true) | None => (old, false) end.

Lemma ex_dec_enc v : ex_dec (ex_enc v).1 (zero_of (type_of v)) = (v, true).
Proof. unfold ex_dec, ex_enc. cbn [fst]. by rewrite bytes_dec_enc. Qed.

(** The draws of a try whose request is dropped, and of one whose reply is. *)
Definition ex_no_request : Draws := mkDraws 0 0 500 0 0 0 0.
Definition ex_no_reply : Draws := mkDraws 0 500 0 0 0 0 0.

(** The reply of the first try is lost, another client puts, and the retry is answered. *)
Definition ex_moves : list Move :=
  [MCall (λ _, Reliable add_rn false) ex_no_reply 3 false;
   MOther "other" (ReqPut (mkPutArgs "k" "theirs" 1));
   MCall (λ _, add_rn) ex_no_reply 0 false].

Lemma ex_draws : draws_ok ex_no_request ∧ draws_ok ex_no_reply.
Proof. split; split; simpl; lia. Qed.

(** To evaluate a part of the state after a run. *)
Lemma run_projection {A B} (o : outcome A) (a : A) (f : A → B) (Ho : o = Ret a) (b : B) :
  f <$> o = Ret b → f a = b.
Proof. rewrite Ho. intros H. by injection H. Qed.

Example Clerk_Put_net_refines_witness :
  ∃ st evs run, net_run ex_enc ex_dec "end" (ReqPut (mkPutArgs "k" "mine" 0))
      (net_init (ReqPut (mkPutArgs "k" "mine" 0)) MakeKVServer) ex_moves = Ret st ∧
    Clerk_Put MakeKVServer "k" "mine" 0 evs = Ret run ∧
    run_result run = Put_result st ∧ (run_applied run ≤ 1)%nat ∧ Put_result st = Some ErrMaybe.
Proof.
  destruct (Clerk_Put_net_refines ex_enc ex_dec "end" (λ _, eq_refl) ex_dec_enc MakeKVServer "k" "mine" 0
    ex_moves) as (st & evs & run & Hr & Hc & _ & _ & Hres & _ & H1 & _).
  - repeat constructor; simpl; lia.
  - vm_compute. discriminate.
  - vm_compute. reflexivity.
  - exists st, evs, run. split; [exact Hr|]. split; [exact Hc|]. split; [exact Hres|]. split; [exact H1|].
    apply (run_projection _ _ _ Hr). vm_compute. reflexivity.
Defined.

Example Clerk_net_returns_witness :
  ∃ st', net_run ex_enc ex_dec "end" (ReqGet (mkGetArgs "k"))
      (net_init (ReqGet (mkGetArgs "k")) (mkKVServer {["k" := mkEntry "v" 3]}))
      [MCall (λ _, Reliable add_rn false) ex_no_request 0 false;
       MCall (λ _, add_rn) ex_no_request 2 true] = Ret st' ∧
    nr_ok st' = true ∧ Get_result st' = Some ("v", 3, OK).
Proof.
  destruct (Clerk_net_returns ex_enc ex_dec "end" (λ _, eq_refl) ex_dec_enc (ReqGet (mkGetArgs "k"))
    (mkKVServer {["k" := mkEntry "v" 3]}) [MCall (λ _, Reliable add_rn false) ex_no_request 0 false]
    (λ _, add_rn) ex_no_request 2 true "srv" 0) as (st & st' & _ & Hr & Ho & _).
  - repeat constructor; simpl; lia.
  - split; simpl; lia.
  - intros k. vm_compute. auto.
  - exists st'. split; [exact Hr|]. split; [exact Ho|].
    apply (run_projection _ _ _ Hr). vm_compute. reflexivity.
Defined.
