(* ===== verification/MrTiming.v ===== *)
(** * The timing applications ([mrapps/mtiming.go], [mrapps/rtiming.go])

    Their [nparallel] counts the workers that are in the same phase: each leaves a file with its
    process id in its name, reads the directory, and counts the names whose process is alive.
    Here are the names (printing and scanning process ids), the loop over the directory, the
    processes as a step relation, and the Map and Reduce functions. *)

From stdpp Require Import pretty.
From S2P Require Export Strconv MrApps.

Local Open Scope Z_scope.

(** ** [fmt.Sprintf] and [fmt.Sscanf] *)

(** What remains of [s] after the prefix [p]. *)
Fixpoint strip_prefix (p s : string) : option string :=
  match p, s with
  | EmptyString, _ => Some s
  | String a p, String b s => if decide (a = b) then strip_prefix p s else None
  | String _ _, EmptyString => None
  end.

(** The white space that [SkipSpace] passes over; at a line feed it fails. *)
Fixpoint skip_space (s : string) : option string :=
  match s with
  | String c s' =>
      if bool_decide (c = Ascii.ascii_of_nat 10) then None
      else if Ascii.is_space c then skip_space s' else Some s
  | EmptyString => Some s
  end.

(** The digits at the front of [s], added to [acc]; the rest is left unread. The flag tells
    whether there has been a digit. *)
Fixpoint scan_digits (acc : Z) (some : bool) (s : string) : option Z :=
  match s with
  | String c s' =>
      match Ascii.is_nat c with
      | Some d => scan_digits (10 * acc + Z.of_nat d) true s'
      | None => if some then Some acc else None
      end
  | EmptyString => if some then Some acc else None
  end.

(** The verb [%d] into an [int]. *)
Definition scan_int (s : string) : option Z :=
  s ← skip_space s;
  let '(sign, s) :=
    match s with
    | String c s' =>
        if bool_decide (c = Ascii.ascii_of_nat 45) then (-1, s')
        else if bool_decide (c = Ascii.ascii_of_nat 43) then (1, s') else (1, s)
    | EmptyString => (1, s)
    end in
  n ← scan_digits 0 false s;
  if bool_decide (- 2 ^ 63 ≤ sign * n < 2 ^ 63) then Some (sign * n) else None.

Definition phase_prefix (phase : string) : string := "mr-worker-" +:+ phase +:+ "-".

(** [myfilename] *)
Definition worker_file (phase : string) (pid : Z) : string := phase_prefix phase +:+ pretty pid.

(** [fmt.Sscanf(name, "mr-worker-<phase>-%d", &xpid)], for a phase without spaces and [%] and an
    ASCII name: [Some xpid] stands for [n == 1 && err == nil]. *)
Definition scan_pid (phase name : string) : option Z :=
  s ← strip_prefix (phase_prefix phase) name; scan_int s.

(** ** [nparallel] *)

Definition max_names : Z := 1000000.

(** [dd.Readdirnames(1000000)]: at most a million names, in the order of the directory, which is
    [all], the names at the moment of the call. (The system may read a large directory in
    several pieces; that is not modelled.) *)
Definition Readdirnames (all : list string) : list string := take (Z.to_nat max_names) all.

(** One turn of the loop; [alive] says whether [syscall.Kill(xpid, 0)] succeeds. *)
Definition count_name (phase : string) (alive : Z → bool) (name : string) (ret : Z) : Z :=
  match scan_pid phase name with
  | Some xpid => if alive xpid then ret + 1 else ret
  | None => ret
  end.

(** ** The applications *)

(** [mtiming.Map]; [ts] is the clock as printed by [%.1f], [n] the result of [nparallel]. *)
Definition mtiming_Map (pid : Z) (ts : string) (n : Z) : Mapf := λ filename contents,
  [mkKeyValue ("times-" +:+ pretty pid) ts; mkKeyValue ("parallel-" +:+ pretty pid) (Itoa n)].

Definition mtiming_Reduce : Reducef := λ key values,
  String.concat " " (merge_sort String.le values).

Definition rtiming_Map : Mapf := λ filename contents,
  (λ k, mkKeyValue k "1") <$> ["a"; "b"; "c"; "d"; "e"; "f"; "g"; "h"; "i"; "j"].

(** [n] is the result of [nparallel("reduce")]. *)
Definition rtiming_Reduce (n : Z) : Reducef := λ key values, Itoa n.

(** ** Names and process ids *)

Lemma strip_prefix_app p s : strip_prefix p (p +:+ s) = Some s.
Proof. induction p as [|a p IH]; [done|].
  change (String a p +:+ s) with (String a (p +:+ s)). simpl. by rewrite decide_True. Qed.

Lemma strip_prefix_Some p s r : strip_prefix p s = Some r → s = p +:+ r.
Proof.
  revert s. induction p as [|a p IH]; intros s; simpl.
  - intros [= ->]. reflexivity.
  - destruct s as [|b s]; [done|]. case_decide; [|done]. intros ->%IH. subst. reflexivity.
Qed.

(** Scanning what is printed. *)
Lemma scan_digits_pretty_go (x : N) s :
  (0 < x)%N → scan_digits 0 false (pretty_N_go x s) = scan_digits (Z.of_N x) true s.
Proof.
  intros Hx. destruct (pretty_go_digit x s Hx) as (c & d & s' & E & Hd).
  rewrite <- (digits_pretty_go (Z.of_N x) (λ acc, scan_digits acc true) x s); [|..|done|done].
  - rewrite E. simpl. by rewrite Hd.
  - intros acc c' d' s'' Hc _. simpl. by rewrite Hc.
Qed.

(** A positive number as it is printed. *)
Lemma pretty_pos_spec p :
  ∃ c d s, pretty (Z.pos p) = String c s ∧ Ascii.is_nat c = Some d ∧
    scan_digits 0 false (String c s) = Some (Z.pos p).
Proof.
  destruct (pretty_go_digit (N.pos p) "") as (c & d & s & Hp & Hd); [done|].
  exists c, d, s. split; [exact Hp|]. split; [done|].
  rewrite <- Hp, scan_digits_pretty_go by done. done.
Qed.

(** Every [int] is read back as it was printed. *)
Lemma scan_int_pretty z : - 2 ^ 63 ≤ z < 2 ^ 63 → scan_int (pretty z) = Some z.
Proof.
  intros Hz. destruct z as [|p|p]; [done|..].
  - destruct (pretty_pos_spec p) as (c & d & s & -> & Hd & Hs).
    destruct (digit_plain c d Hd) as (? & ? & ? & Hsp). unfold scan_int. cbn [skip_space].
    rewrite bool_decide_eq_false_2, Hsp by done. cbn [mbind option_bind].
    rewrite !bool_decide_eq_false_2 by done. rewrite Hs. simpl. rewrite bool_decide_eq_true_2; [done|lia].
  - destruct (pretty_pos_spec p) as (c & d & s & Hp & Hd & Hs).
    change (pretty (Z.neg p)) with (String (Ascii.ascii_of_nat 45) (pretty (Z.pos p))). rewrite Hp.
    unfold scan_int. cbn [skip_space]. rewrite bool_decide_eq_false_2 by done.
    change (Ascii.is_space (Ascii.ascii_of_nat 45)) with false. cbn [mbind option_bind].
    rewrite bool_decide_eq_true_2 by done. rewrite Hs. simpl.
    by rewrite bool_decide_eq_true_2 by lia.
Qed.

Lemma scan_worker_file phase pid :
  - 2 ^ 63 ≤ pid < 2 ^ 63 → scan_pid phase (worker_file phase pid) = Some pid.
Proof.
  intros Hp. unfold scan_pid, worker_file. rewrite strip_prefix_app. by apply scan_int_pretty.
Qed.

Lemma worker_file_inj phase p q : worker_file phase p = worker_file phase q → p = q.
Proof. unfold worker_file. intros E%(inj (String.append _)). by apply (inj pretty) in E. Qed.

#[local] Arguments count_name : simpl never.
#[local] Arguments worker_file : simpl never.

(** ** The processes *)

Section machine.
(** The phase, and whether [kill(x, 0)] succeeds for [x <= 0], which names a group of processes. *)
Context (phase : string) (group_alive : Z → bool).

(** Where a process is in [nparallel]. [seen] is a ghost: the processes that were between their
    [WriteFile] and their [Remove] when the directory was read. A call that has returned leaves
    its result. *)
Inductive NPC :=
  | NIdle (result : option Z)
  | NWritten
  | NScanning (seen : gset Z) (todo : list string) (ret : Z)
  | NSleeping (seen : gset Z) (ret : Z).

(** The files of the directory and the live processes. *)
Record Machine := mkMachine { m_dir : gset string; m_procs : gmap Z NPC }.

Definition is_active (pc : NPC) : bool := match pc with NIdle _ => false | _ => true end.

Definition active_pids (m : Machine) : gset Z := dom (filter (λ e, is_active e.2 = true) (m_procs m)).

Definition alive (m : Machine) (xpid : Z) : bool :=
  if 0 <? xpid then bool_decide (is_Some (m_procs m !! xpid)) else group_alive xpid.

Definition set_npc (m : Machine) (p : Z) (pc : NPC) : Machine :=
  mkMachine (m_dir m) (<[p := pc]> (m_procs m)).

(** The steps of the processes: a new one, and those of [nparallel] in order. *)
Inductive np_step : Machine → Machine → Prop :=
  | np_start m p :
      0 < p < 2 ^ 31 → m_procs m !! p = None → np_step m (set_npc m p (NIdle None))
  | np_write m p r :
      m_procs m !! p = Some (NIdle r) →
      np_step m (mkMachine ({[worker_file phase p]} ∪ m_dir m) (<[p := NWritten]> (m_procs m)))
  | np_read m p all :
      m_procs m !! p = Some NWritten → all ≡ₚ elements (m_dir m) →
      np_step m (set_npc m p (NScanning (active_pids m) (Readdirnames all) 0))
  | np_check m p seen name todo ret :
      m_procs m !! p = Some (NScanning seen (name :: todo) ret) →
      np_step m (set_npc m p (NScanning seen todo (count_name phase (alive m) name ret)))
  | np_sleep m p seen ret :
      m_procs m !! p = Some (NScanning seen [] ret) → np_step m (set_npc m p (NSleeping seen ret))
  | np_remove m p seen ret :
      m_procs m !! p = Some (NSleeping seen ret) → worker_file phase p ∈ m_dir m →
      np_step m (mkMachine (m_dir m ∖ {[worker_file phase p]}) (<[p := NIdle (Some ret)]> (m_procs m))).

(** A process ends, perhaps killed in the middle; its file stays. *)
Inductive np_end : Machine → Machine → Prop :=
  | np_end_intro m p : np_end m (mkMachine (m_dir m) (delete p (m_procs m))).

(** [os.Remove] fails, and the process panics, when its file is gone. *)
Definition np_panics (m : Machine) : Prop :=
  ∃ p seen ret, m_procs m !! p = Some (NSleeping seen ret) ∧ worker_file phase p ∉ m_dir m.

(** The directory can be read with one call. *)
Definition room (m : Machine) : Prop := Z.of_nat (size (m_dir m)) ≤ max_names.

(** ** Whatever dies: no panic, and everyone counts itself *)

Definition pc_live (m : Machine) (p : Z) (pc : NPC) : Prop :=
  0 < p < 2 ^ 31 ∧ (is_active pc = true → worker_file phase p ∈ m_dir m) ∧
  match pc with
  | NScanning _ todo ret => 0 ≤ ret ∧ (1 ≤ ret ∨ worker_file phase p ∈ todo)
  | NSleeping _ ret | NIdle (Some ret) => 1 ≤ ret
  | _ => True
  end.

Definition live_inv (m : Machine) : Prop := ∀ p pc, m_procs m !! p = Some pc → pc_live m p pc.

(** The other processes keep what they have when a step keeps their files. *)
Lemma live_inv_set m dir p pc :
  live_inv m → pc_live (mkMachine dir (<[p := pc]> (m_procs m))) p pc →
  (∀ q, q ≠ p → worker_file phase q ∈ m_dir m → worker_file phase q ∈ dir) →
  live_inv (mkMachine dir (<[p := pc]> (m_procs m))).
Proof.
  intros Hi Hp Hd q pc' Hq. simpl in Hq. apply lookup_insert_Some in Hq as [[<- <-]|[Hne Hq]]; [done|].
  destruct (Hi _ _ Hq) as (H1 & H2 & H3). split; [done|]. split; [|done].
  intros Ha. simpl. apply Hd; auto.
Qed.

Lemma scan_own_file p : 0 < p < 2 ^ 31 → scan_pid phase (worker_file phase p) = Some p.
Proof. intros Hp. apply scan_worker_file. lia. Qed.

Lemma count_name_bounds f name ret : ret ≤ count_name phase f name ret ≤ ret + 1.
Proof. unfold count_name. repeat case_match; lia. Qed.

Lemma count_own m p pc ret :
  0 < p < 2 ^ 31 → m_procs m !! p = Some pc →
  count_name phase (alive m) (worker_file phase p) ret = ret + 1.
Proof.
  intros Hp Hm. unfold count_name. rewrite scan_own_file by done. unfold alive.
  rewrite (proj2 (Z.ltb_lt 0 p)) by lia. by rewrite bool_decide_eq_true_2 by (by rewrite Hm).
Qed.

Lemma Readdirnames_all m all :
  room m → all ≡ₚ elements (m_dir m) → Readdirnames all = all.
Proof.
  intros Hr Ha. unfold Readdirnames. apply take_ge. rewrite Ha. unfold room, size, set_size in Hr. simpl in Hr.
  lia.
Qed.

Lemma live_step m m' : live_inv m → room m → np_step m m' → live_inv m'.
Proof.
  intros Hi Hr Hs. destruct Hs as [m p Hp Hn|m p r Hn|m p all Hn Ha|m p seen name todo ret Hn
    |m p seen ret Hn|m p seen ret Hn Hin]; try (destruct (Hi _ _ Hn) as (H1 & H2 & H3));
    apply live_inv_set; simpl; try done.
  - split_and!; [lia..|set_solver|done].
  - set_solver.
  - split_and!; [lia..|auto|lia|]. right.
    rewrite (Readdirnames_all _ _ Hr Ha), Ha, elem_of_elements. auto.
  - destruct H3 as [H3 H4]. pose proof (count_name_bounds (alive m) name ret).
    split_and!; [lia..|auto|lia|].
    destruct H4 as [H4|[<-|H4]%elem_of_cons]; [left; lia|left|by right].
    rewrite (count_own _ _ _ _ H1 Hn). lia.
  - split_and!; [lia..|auto|]. destruct H3 as [_ [?|H3]]; [done|by apply elem_of_nil in H3].
  - intros q Hne Hq. apply elem_of_difference. split; [done|].
    intros E%elem_of_singleton%worker_file_inj. done.
Qed.

Lemma live_end m m' : live_inv m → np_end m m' → live_inv m'.
Proof.
  intros Hi He. destruct He as [m p]. intros q pc Hq. simpl in Hq.
  apply lookup_delete_Some in Hq as [_ Hq]. by apply Hi in Hq.
Qed.

(** ** When no process ends: the count is exact *)

(** A directory in which no file looks like one of a worker of this phase. *)
Definition clean_dir (dir : gset string) : Prop := ∀ f, f ∈ dir → scan_pid phase f = None.

Definition pc_exact (m : Machine) (p : Z) (pc : NPC) : Prop :=
  match pc with
  | NScanning seen todo ret =>
      p ∈ seen ∧ ret + Z.of_nat (length (omap (scan_pid phase) todo)) = Z.of_nat (size seen) ∧
      ∀ f q, f ∈ todo → scan_pid phase f = Some q → 0 < q ∧ is_Some (m_procs m !! q)
  | NSleeping seen ret => p ∈ seen ∧ ret = Z.of_nat (size seen)
  | _ => True
  end.

Record exact_inv (m : Machine) : Prop := {
  ei_live : live_inv m;
  ei_file f q : f ∈ m_dir m → scan_pid phase f = Some q →
    f = worker_file phase q ∧ ∃ pc, m_procs m !! q = Some pc ∧ is_active pc = true;
  ei_pc p pc : m_procs m !! p = Some pc → pc_exact m p pc
}.

Lemma elem_of_active m q :
  q ∈ active_pids m ↔ ∃ pc, m_procs m !! q = Some pc ∧ is_active pc = true.
Proof.
  unfold active_pids. rewrite elem_of_dom. split.
  - intros [pc [Hq Ha]%map_lookup_filter_Some]. eauto.
  - intros (pc & Hq & Ha). exists pc. by apply map_lookup_filter_Some.
Qed.

(** The names of the directory that count are those of the active processes, one each. *)
Lemma scan_dir_size m all :
  exact_inv m → all ≡ₚ elements (m_dir m) →
  length (omap (scan_pid phase) all) = size (active_pids m).
Proof.
  intros [Hl Hf _] Ha. rewrite <- (size_list_to_set (C := gset Z)).
  - f_equal. apply set_eq. intros q. rewrite elem_of_list_to_set, list_elem_of_omap, elem_of_active.
    split.
    + intros (f & Hin & Hq). rewrite Ha, elem_of_elements in Hin. by apply (Hf f q).
    + intros (pc & Hq & Hact). destruct (Hl _ _ Hq) as (Hp & Hfile & _). exists (worker_file phase q).
      rewrite Ha, elem_of_elements. split; [by apply Hfile|by apply scan_own_file].
  - assert (Hnd : NoDup all) by (rewrite Ha; apply NoDup_elements).
    assert (Hin : ∀ f, f ∈ all → f ∈ m_dir m) by (intros f; rewrite Ha; apply elem_of_elements).
    clear Ha. induction Hnd as [|f all Hn Hnd IH]; [constructor|]. simpl.
    destruct (scan_pid phase f) as [q|] eqn:Hq; [|apply IH; set_solver].
    constructor; [|apply IH; set_solver]. intros (g & Hg & Hgq)%list_elem_of_omap.
    destruct (Hf f q) as [E1 _]; [set_solver|done|]. destruct (Hf g q) as [E2 _]; [set_solver|done|].
    congruence.
Qed.

Lemma pc_exact_mono m m' p pc :
  (∀ q, is_Some (m_procs m !! q) → is_Some (m_procs m' !! q)) → pc_exact m p pc → pc_exact m' p pc.
Proof. intros Hm. destruct pc; simpl; naive_solver. Qed.

(** A step of [p] keeps the invariant when the files it leaves are those it should, and what it
    has counted is right. *)
Lemma exact_set m dir p pc :
  exact_inv m → live_inv (mkMachine dir (<[p := pc]> (m_procs m))) →
  (∀ f q, f ∈ dir → scan_pid phase f = Some q →
     (q = p ∧ f = worker_file phase p ∧ is_active pc = true) ∨ (q ≠ p ∧ f ∈ m_dir m)) →
  pc_exact (mkMachine dir (<[p := pc]> (m_procs m))) p pc →
  exact_inv (mkMachine dir (<[p := pc]> (m_procs m))).
Proof.
  intros [Hl Hf Hp] Hl' Hd Hpc. split; [done|..]; simpl.
  - intros f q Hin Hq. destruct (Hd f q Hin Hq) as [(-> & -> & Ha)|[Hne Hin']].
    + split; [done|]. exists pc. by rewrite lookup_insert_eq.
    + destruct (Hf f q Hin' Hq) as [-> H]. split; [done|]. by rewrite lookup_insert_ne.
  - intros q pc' [[<- <-]|[Hne Hq]]%lookup_insert_Some; [done|].
    eapply pc_exact_mono; [|by apply Hp]. intros r Hr. simpl. destruct (decide (r = p)) as [->|].
    + rewrite lookup_insert_eq. eauto.
    + by rewrite lookup_insert_ne.
Qed.

(** Staying active with the same directory. *)
Lemma exact_stay m p pc pc' :
  exact_inv m → m_procs m !! p = Some pc → is_active pc' = true →
  live_inv (set_npc m p pc') → pc_exact (set_npc m p pc') p pc' → exact_inv (set_npc m p pc').
Proof.
  intros Hi Hn Ha Hl Hp. apply exact_set; [done..| |done]. intros f q Hin Hq.
  destruct (ei_file _ Hi f q Hin Hq) as [-> _]. destruct (decide (q = p)) as [->|]; auto.
Qed.

Lemma count_name_exact m f q ret :
  scan_pid phase f = Some q → 0 < q → is_Some (m_procs m !! q) →
  count_name phase (alive m) f ret = ret + 1.
Proof.
  intros Hq Hp Hs. unfold count_name, alive. rewrite Hq, (proj2 (Z.ltb_lt 0 q)) by lia.
  by rewrite bool_decide_eq_true_2.
Qed.

Lemma exact_check m p seen name todo ret :
  exact_inv m → m_procs m !! p = Some (NScanning seen (name :: todo) ret) →
  pc_exact (set_npc m p (NScanning seen todo (count_name phase (alive m) name ret))) p
    (NScanning seen todo (count_name phase (alive m) name ret)).
Proof.
  intros Hi Hn. destruct (ei_pc _ Hi _ _ Hn) as (Hs & Hc & Ht).
  eapply (pc_exact_mono m). { intros q Hq. simpl. destruct (decide (p = q)) as [->|]; [rewrite lookup_insert_eq|rewrite lookup_insert_ne]; eauto. }
  simpl in *. split; [done|]. split; [|intros f q Hf; apply (Ht f q); by right].
  destruct (scan_pid phase name) as [q|] eqn:Hq.
  - destruct (Ht name q) as [Hp Hq']; [left|done|]. rewrite (count_name_exact m name q) by done.
    change (omap (scan_pid phase) todo) with (list_omap _ _ (scan_pid phase) todo). simpl in Hc. lia.
  - unfold count_name. by rewrite Hq.
Qed.

Lemma exact_step m m' : exact_inv m → room m → np_step m m' → exact_inv m'.
Proof.
  intros Hi Hr Hs. pose proof (live_step _ _ (ei_live _ Hi) Hr Hs) as Hl.
  destruct Hs as [m p Hp Hn|m p r Hn|m p all Hn Ha|m p seen name todo ret Hn
    |m p seen ret Hn|m p seen ret Hn Hin].
  - apply exact_set; [done..| |done]. intros f q Hf Hq. right. split; [|done]. intros ->.
    destruct (ei_file _ Hi f p Hf Hq) as [_ (pc & Hpc & _)]. congruence.
  - apply exact_set; [done..| |done]. intros f q [->%elem_of_singleton|Hf]%elem_of_union Hq.
    + left. destruct (Hl p NWritten) as [Hp _]; [simpl; by rewrite lookup_insert_eq|].
      rewrite scan_own_file in Hq by done. by simplify_eq.
    + destruct (ei_file _ Hi f q Hf Hq) as [-> _]. destruct (decide (q = p)) as [->|]; auto.
  - eapply exact_stay; [done..|]. simpl. rewrite (Readdirnames_all _ _ Hr Ha).
    split; [apply elem_of_active; eauto|]. split; [by rewrite (scan_dir_size m all)|].
    intros f q Hf Hq. rewrite Ha, elem_of_elements in Hf.
    destruct (ei_file _ Hi f q Hf Hq) as [_ (pc & Hpc & _)]. split; [apply (ei_live _ Hi _ _ Hpc)|].
    destruct (decide (p = q)) as [->|]; [rewrite lookup_insert_eq|rewrite lookup_insert_ne]; eauto.
  - eapply exact_stay; [done..|]. by apply exact_check.
  - eapply exact_stay; [done..|]. destruct (ei_pc _ Hi _ _ Hn) as (Hs & Hc & _). simpl in *. split; [done|lia].
  - apply exact_set; [done..| |done]. intros f q [Hf Hne]%elem_of_difference Hq.
    destruct (ei_file _ Hi f q Hf Hq) as [-> _]. right. split; [|done]. intros ->. set_solver.
Qed.

Definition np_any (a b : Machine) : Prop := room a ∧ (np_step a b ∨ np_end a b).
Definition np_all_live (a b : Machine) : Prop := room a ∧ np_step a b.

Lemma any_live dir m : rtc np_any (mkMachine dir ∅) m → live_inv m.
Proof.
  intros Hr. eapply (rtc_invariant np_any live_inv); [| |done].
  - intros p pc Hp. simpl in Hp. by rewrite lookup_empty in Hp.
  - intros a b Hi [Hroom [Hs|He]]; [by eapply live_step|by eapply live_end].
Qed.

Lemma exact_init dir : clean_dir dir → exact_inv (mkMachine dir ∅).
Proof.
  intros Hd. split; simpl.
  - intros p pc Hp. simpl in Hp. by rewrite lookup_empty in Hp.
  - intros f q Hf Hq. pose proof (Hd f Hf). congruence.
  - intros p pc Hp. simpl in Hp. by rewrite lookup_empty in Hp.
Qed.

(** [nparallel] survives the death of other workers. Whatever files are in the directory and
    whichever processes are killed at whatever moment, no call panics because its file is gone,
    and every call counts at least its own process. *)
Theorem nparallel_survives dir m :
  rtc np_any (mkMachine dir ∅) m →
  ¬ np_panics m ∧ ∀ p r, m_procs m !! p = Some (NIdle (Some r)) → 1 ≤ r.
Proof.
  intros Hr. pose proof (any_live _ _ Hr) as Hi. split.
  - intros (p & seen & ret & Hp & Hf). destruct (Hi _ _ Hp) as (_ & Hin & _). auto.
  - intros p r Hp. by destruct (Hi _ _ Hp) as (_ & _ & H).
Qed.

(** C18: [nparallel] counts exactly the workers that run in parallel. In a directory without
    stale files, with never more than the million names that are asked for, read as it is at
    one moment, and as long as no process ends, let any number of workers start, write their
    files, read the directory, check its names one by one, sleep and remove their files, their
    steps interleaved in any way. Then each call's result is the number of workers that were
    between writing and removing their files when it read the directory, and it is one of
    them. *)
Theorem nparallel_exact dir m p seen ret :
  clean_dir dir → rtc np_all_live (mkMachine dir ∅) m →
  m_procs m !! p = Some (NSleeping seen ret) → p ∈ seen ∧ ret = Z.of_nat (size seen).
Proof.
  intros Hd Hr Hp. assert (Hi : exact_inv m).
  { eapply (rtc_invariant np_all_live exact_inv); [by apply exact_init| |done].
    intros a b Ha [Hroom Hs]. by eapply exact_step. }
  apply (ei_pc _ Hi _ _ Hp).
Qed.
End machine.

(** The names of one phase are not taken for those of the other. *)
Theorem phases_apart pid :
  - 2 ^ 63 ≤ pid < 2 ^ 63 →
  scan_pid "map" (worker_file "map" pid) = Some pid ∧ scan_pid "map" (worker_file "reduce" pid) = None ∧
  scan_pid "reduce" (worker_file "reduce" pid) = Some pid ∧ scan_pid "reduce" (worker_file "map" pid) = None.
Proof. intros Hp. by split_and!; try apply scan_worker_file. Qed.

(** The result of Reduce does not depend on the order in which the values arrive. *)
Theorem mtiming_Reduce_deterministic key vs vs' :
  vs ≡ₚ vs' → mtiming_Reduce key vs = mtiming_Reduce key vs'.
Proof. intros Hp. unfold mtiming_Reduce. by rewrite (merge_sort_perm _ _ Hp). Qed.

(** ** Examples *)

(** Two workers in a directory with an input file: both write before the first one reads. *)
Definition ex_start : Machine := mkMachine {["pg-a.txt"]} ∅.

Definition ex_live : Machine → Machine → Prop := np_all_live "map" (λ _, true).

Definition ex_two : Machine :=
  mkMachine {["pg-a.txt"; worker_file "map" 7; worker_file "map" 8]} {[7 := NWritten; 8 := NWritten]}.

Lemma ex_two_reachable : rtc ex_live ex_start ex_two.
Proof.
  eapply rtc_l; [split; [by vm_compute|apply (np_start _ _ _ 7); [lia|reflexivity]]|].
  eapply rtc_l; [split; [by vm_compute|apply (np_start _ _ _ 8); [lia|reflexivity]]|].
  eapply rtc_l; [split; [by vm_compute|apply (np_write _ _ _ 7 None); reflexivity]|].
  eapply rtc_l; [split; [by vm_compute|apply (np_write _ _ _ 8 None); reflexivity]|].
  replace ex_two with (mkMachine ({[worker_file "map" 8]} ∪ ({[worker_file "map" 7]} ∪ {["pg-a.txt"]}))
    (<[8 := NWritten]> (<[7 := NWritten]> (<[8 := NIdle None]> (<[7 := NIdle None]> (∅ : gmap Z NPC)))))).
  - apply rtc_refl.
  - vm_compute. reflexivity.
Qed.

Definition ex_names : list string := [worker_file "map" 8; "pg-a.txt"; worker_file "map" 7].

Lemma ex_names_all : ex_names ≡ₚ elements (m_dir ex_two).
Proof.
  apply NoDup_Permutation; [by apply (bool_decide_unpack _); vm_compute|apply NoDup_elements|].
  intros x. rewrite elem_of_elements. set_solver.
Qed.

(** The first worker reads the directory and finds both. *)
Lemma ex_scan_reachable : ∃ m, rtc ex_live ex_two m ∧ m_procs m !! 7 = Some (NSleeping {[7; 8]} 2).
Proof.
  eexists. split.
  - eapply rtc_l; [split; [by vm_compute|apply (np_read _ _ _ 7 ex_names); [reflexivity|apply ex_names_all]]|].
    eapply rtc_l; [split; [by vm_compute|eapply (np_check _ _ _ 7); vm_compute; reflexivity]|].
    eapply rtc_l; [split; [by vm_compute|eapply (np_check _ _ _ 7); vm_compute; reflexivity]|].
    eapply rtc_l; [split; [by vm_compute|eapply (np_check _ _ _ 7); vm_compute; reflexivity]|].
    eapply rtc_l; [split; [by vm_compute|eapply (np_sleep _ _ _ 7); vm_compute; reflexivity]|].
    apply rtc_refl.
  - vm_compute. reflexivity.
Qed.

Lemma nparallel_exact_witness :
  ∃ m, rtc ex_live ex_start m ∧ m_procs m !! 7 = Some (NSleeping {[7; 8]} 2) ∧
    2 = Z.of_nat (size ({[7; 8]} : gset Z)).
Proof.
  destruct ex_scan_reachable as (m & Hm & Hp). exists m.
  assert (Hr : rtc ex_live ex_start m) by (etrans; [apply ex_two_reachable|exact Hm]).
  split; [exact Hr|]. split; [exact Hp|].
  apply (nparallel_exact "map" (λ _, true) {["pg-a.txt"]} m 7 {[7; 8]} 2); [|exact Hr|exact Hp].
  intros f ->%elem_of_singleton. vm_compute. reflexivity.
Defined.
