(* ===== verification/Commands.v ===== *)
(** * The other commands ([main/diskvd.go], [lockc.go], [lockd.go], [pbc.go], [pbd.go], [viewd.go])

    They read their arguments and call packages that the repository does not have; those
    packages are parameters. A server command, once it has started its server, sleeps for ever,
    [diskvd] for ten minutes. [args] is [os.Args], whose first element is the program. *)

From stdpp Require Import pretty.
From S2P Require Export Strconv.

Local Open Scope Z_scope.

Definition usage {A} : outcome A := Fatal "exit status 1".

(** ** [lockc], [lockd], [pbc], [pbd], [viewd] *)

Section services.

(** The clerks of [lockservice] and [pbservice]. *)
Context {LockClerk PbClerk : Type}.
Context (lock_MakeClerk : string → string → LockClerk) (Lock Unlock : LockClerk → string → bool).
Context (pb_MakeClerk : string → string → PbClerk) (pb_Get : PbClerk → string → string).

(** [lockc]: the reply that is printed. *)
Definition lockc_main (args : list string) : outcome bool :=
  match args with
  | [_; op; p; b; name] =>
      let ck := lock_MakeClerk p b in
      if bool_decide (op = "-l") then Ret (Lock ck name)
      else if bool_decide (op = "-u") then Ret (Unlock ck name)
      else usage
  | _ => usage
  end.

(** The servers that the commands start: what [StartServer] is given. *)
Inductive Started :=
  | LockServer (primary backup : string) (am_primary : bool)
  | PbServer (viewport myport : string)
  | ViewServer (port : string).

Definition lockd_main (args : list string) : outcome Started :=
  match args with
  | [_; op; p; b] =>
      if bool_decide (op = "-p") then Ret (LockServer p b true)
      else if bool_decide (op = "-b") then Ret (LockServer p b false)
      else usage
  | _ => usage
  end.

(** [pbc]: a Get prints the value; a Put is a call. *)
Inductive PbDone := PbPrinted (v : string) | PbPut (ck : PbClerk) (key value : string).

Definition pbc_main (args : list string) : outcome PbDone :=
  match args with
  | [_; viewport; key] => Ret (PbPrinted (pb_Get (pb_MakeClerk viewport "") key))
  | [_; viewport; key; value] => Ret (PbPut (pb_MakeClerk viewport "") key value)
  | _ => usage
  end.

Definition pbd_main (args : list string) : outcome Started :=
  match args with [_; viewport; myport] => Ret (PbServer viewport myport) | _ => usage end.

Definition viewd_main (args : list string) : outcome Started :=
  match args with [_; port] => Ret (ViewServer port) | _ => usage end.

End services.

(** ** [diskvd] *)

Record Flags := mkFlags {
  fl_gid : Z;
  fl_masters : list string;
  fl_replicas : list string;
  fl_me : Z;
  fl_unreliable : bool;
  fl_dir : string;
  fl_restart : bool
}.

Definition no_flags : Flags := mkFlags (-1) [] [] (-1) false "" false.

(** One pair of arguments; what [strconv] says about errors is ignored. *)
Definition set_flag (fl : Flags) (a0 a1 : string) : outcome Flags :=
  let '(mkFlags gid masters replicas me unreliable dir restart) := fl in
  if bool_decide (a0 = "-g") then
    Ret (mkFlags (ParseInt a1).1 masters replicas me unreliable dir restart)
  else if bool_decide (a0 = "-m") then
    Ret (mkFlags gid (masters ++ [a1]) replicas me unreliable dir restart)
  else if bool_decide (a0 = "-s") then
    Ret (mkFlags gid masters (replicas ++ [a1]) me unreliable dir restart)
  else if bool_decide (a0 = "-i") then
    Ret (mkFlags gid masters replicas (Atoi a1).1 unreliable dir restart)
  else if bool_decide (a0 = "-u") then
    Ret (mkFlags gid masters replicas me (ParseBool a1).1 dir restart)
  else if bool_decide (a0 = "-d") then
    Ret (mkFlags gid masters replicas me unreliable a1 restart)
  else if bool_decide (a0 = "-r") then
    Ret (mkFlags gid masters replicas me unreliable dir (ParseBool a1).1)
  else usage.

(** [for i := 1; i+1 < len(os.Args); i += 2]: the arguments in pairs; a last one alone is left. *)
Fixpoint read_flags (fl : Flags) (args : list string) : outcome Flags :=
  match args with
  | a0 :: a1 :: args => fl ← set_flag fl a0 a1; read_flags fl args
  | _ => Ret fl
  end.

(** The flags with which [diskv.StartServer] and [Setunreliable] are called. *)
Definition diskvd_main (args : list string) : outcome Flags :=
  fl ← read_flags no_flags (tail args);
  if (fl_gid fl <? 0) || (fl_me fl <? 0) || (length (fl_masters fl) <? 1)%nat ||
     (Z.of_nat (length (fl_replicas fl)) <=? fl_me fl) || bool_decide (fl_dir fl = "")
  then usage else Ret fl.

(** ** Properties *)

(** The flags as somebody would write them. *)
Definition write_flags (fl : Flags) : list string :=
  ["-g"; pretty (fl_gid fl)] ++ mjoin ((λ m, ["-m"; m]) <$> fl_masters fl) ++
  mjoin ((λ s, ["-s"; s]) <$> fl_replicas fl) ++ ["-i"; pretty (fl_me fl)] ++
  ["-u"; FormatBool (fl_unreliable fl)] ++ ["-d"; fl_dir fl] ++ ["-r"; FormatBool (fl_restart fl)].

(** What a server can be started with. *)
Record flags_ok (fl : Flags) : Prop := {
  fo_gid : 0 ≤ fl_gid fl < 2 ^ 63;
  fo_masters : fl_masters fl ≠ [];
  fo_me : 0 ≤ fl_me fl < Z.of_nat (length (fl_replicas fl));
  fo_me63 : fl_me fl < 2 ^ 63;
  fo_dir : fl_dir fl ≠ ""
}.

#[local] Arguments ParseBool : simpl never.
#[local] Arguments ParseInt : simpl never.

Lemma read_pair fl a0 a1 args :
  read_flags fl (a0 :: a1 :: args) = (fl ← set_flag fl a0 a1; read_flags fl args).
Proof. done. Qed.

Lemma read_masters g ms ms' rs me u d r args :
  read_flags (mkFlags g ms rs me u d r) (mjoin ((λ m, ["-m"; m]) <$> ms') ++ args) =
  read_flags (mkFlags g (ms ++ ms') rs me u d r) args.
Proof.
  revert ms. induction ms' as [|m ms' IH]; intros ms; [by rewrite app_nil_r|].
  change (mjoin ((λ m, ["-m"; m]) <$> m :: ms')) with ("-m" :: m :: mjoin ((λ m, ["-m"; m]) <$> ms')).
  cbn [app]. rewrite read_pair. simpl set_flag. cbn [mbind outcome_bind]. rewrite IH.
  by rewrite <- app_assoc.
Qed.

Lemma read_replicas g ms rs rs' me u d r args :
  read_flags (mkFlags g ms rs me u d r) (mjoin ((λ s, ["-s"; s]) <$> rs') ++ args) =
  read_flags (mkFlags g ms (rs ++ rs') me u d r) args.
Proof.
  revert rs. induction rs' as [|s rs' IH]; intros rs; [by rewrite app_nil_r|].
  change (mjoin ((λ s, ["-s"; s]) <$> s :: rs')) with ("-s" :: s :: mjoin ((λ s, ["-s"; s]) <$> rs')).
  cbn [app]. rewrite read_pair. simpl set_flag. cbn [mbind outcome_bind]. rewrite IH.
  by rewrite <- app_assoc.
Qed.

(** diskvd_roundtrip: flags that a server can be started with, written as arguments, are read
    back as they are, and the server is started with them. *)
Theorem diskvd_roundtrip prog fl :
  flags_ok fl → diskvd_main (prog :: write_flags fl) = Ret fl.
Proof.
  intros [Hg Hm Hi Hi' Hd]. destruct fl as [g ms rs me u d r]. simpl in *.
  unfold diskvd_main, write_flags, no_flags. cbn [tail fl_gid fl_masters fl_replicas fl_me fl_unreliable
    fl_dir fl_restart].
  cbn [app]. rewrite read_pair. simpl set_flag. cbn [mbind outcome_bind].
  rewrite read_masters, read_replicas. simpl. unfold Atoi. rewrite !ParseInt_pretty, !ParseBool_FormatBool by lia.
  simpl. rewrite (proj2 (Z.ltb_ge g 0)), (proj2 (Z.ltb_ge me 0)), (proj2 (Z.leb_gt _ me)) by lia.
  rewrite bool_decide_eq_false_2 by done. by destruct ms.
Qed.

(** No other server is started: the flags are always usable. *)
Theorem diskvd_starts_ok args fl : diskvd_main args = Ret fl → 0 ≤ fl_gid fl ∧ fl_masters fl ≠ [] ∧
  0 ≤ fl_me fl < Z.of_nat (length (fl_replicas fl)) ∧ fl_dir fl ≠ "".
Proof.
  unfold diskvd_main. intros H. bind_inv H.
  destruct (_ || _) eqn:E; simplify_eq. rewrite !orb_false_iff, !Z.ltb_ge, Z.leb_gt, Nat.ltb_ge in E.
  destruct E as ((((H1 & H2) & H3) & H4) & H5%bool_decide_eq_false). split_and!; try done; try lia.
  intros E. rewrite E in H3. simpl in H3. lia.
Qed.

(** A number that is not one is 0, not an error: [-i x] is server 0. *)
Lemma not_a_number : fl_me <$> set_flag no_flags "-i" "x" = Ret 0.
Proof. done. Qed.

Lemma diskvd_roundtrip_witness :
  diskvd_main ["diskvd"; "-g"; "7"; "-m"; "m0"; "-s"; "s0"; "-s"; "s1"; "-i"; "1"; "-u"; "false"; "-d"; "/d";
    "-r"; "true"] = Ret (mkFlags 7 ["m0"] ["s0"; "s1"] 1 false "/d" true).
Proof.
  apply (diskvd_roundtrip "diskvd" (mkFlags 7 ["m0"] ["s0"; "s1"] 1 false "/d" true)).
  split; simpl; [lia|discriminate|lia|lia|discriminate].
Defined.
