(* ===== verification/MrMain.v ===== *)
(** * The MapReduce commands ([main/mrcoordinator.go], [main/mrworker.go])

    A distributed job: one coordinator process and any number of worker processes, whose main
    functions are put together with [mr/coordinator.go] and [mr/worker.go]. Plugins are a
    parameter. As the code stands no job makes progress, and no process of it returns. *)

From stdpp Require Import pretty.
From S2P Require Export Worker.

Local Open Scope Z_scope.

Section job.

(** What a plugin exports under a name. *)
Inductive Symbol := SymMap (f : Mapf) | SymReduce (f : Reducef) | SymOther.

(** [plugin.Open] and [Plugin.Lookup]; the decoder of the intermediate files, and the sort. *)
Context (plugin_open : string → option (string → option Symbol)).
Context (decode : string → list KeyValue) (sort_kvs : list KeyValue → list KeyValue).

Definition loadPlugin (filename : string) : outcome (Mapf * Reducef) :=
  match plugin_open filename with
  | None => Fatal ("cannot load plugin " +:+ filename)
  | Some lookup =>
      xmapf ← match lookup "Map" with
              | Some x => Ret x
              | None => Fatal ("cannot find Map in " +:+ filename)
              end;
      mapf ← match xmapf with SymMap f => Ret f | _ => Panic "interface conversion" end;
      xreducef ← match lookup "Reduce" with
                 | Some x => Ret x
                 | None => Fatal ("cannot find Reduce in " +:+ filename)
                 end;
      reducef ← match xreducef with SymReduce f => Ret f | _ => Panic "interface conversion" end;
      Ret (mapf, reducef)
  end.

(** The same function in [main/mrsequential.go], and [main] around [mrsequential]: the contents of
    mr-out-0. *)
Definition mrsequential_loadPlugin (filename : string) : outcome (Mapf * Reducef) := loadPlugin filename.

Definition mrsequential_main (fs : gmap string string) (args : list string) : outcome string :=
  if (length args <? 3)%nat then Fatal "exit status 1" else
  filename ← index args 1;
  '(mapf, reducef) ← mrsequential_loadPlugin filename;
  mrsequential mapf reducef sort_kvs fs (drop 2 args).

(** The socket of the coordinator of user [uid], in [mr/rpc.go]. *)
Definition coordinatorSock (uid : Z) : string := "/var/tmp/5840-mr-" +:+ pretty uid.

(** [server] of the coordinator: what [rpc.Register] and [net.Listen] answer. *)
Definition server (registered listening : bool) : outcome unit :=
  if negb registered then Fatal "register error:"
  else if negb listening then Fatal "listen error:"
  else Ret tt.

(** [args] is [os.Args]. *)
Definition mrcoordinator_start (args : list string) (registered listening : bool) : outcome Coordinator :=
  if (length args <? 2)%nat then Fatal "exit status 1"
  else
    _ ← server registered listening;
    Ret (MakeCoordinator (drop 1 args) 10).

(** Where a worker process is: not yet started; in the loop of [Worker]; returned from [main];
    or ended by [log.Fatal], [os.Exit] or a panic. *)
Inductive WorkerPC :=
  | WNew (args : list string)
  | WLoop (mapf : Mapf) (reducef : Reducef) (reply : GetTaskReply)
  | WReturned
  | WExited.

(** [main] of mrworker up to the loop. *)
Definition mrworker_start (c : Coordinator) (now now' : Z) (args : list string)
    : outcome (Coordinator * WorkerPC) :=
  if bool_decide (length args ≠ 2%nat) then Fatal "exit status 1" else
  filename ← index args 1;
  '(mapf, reducef) ← loadPlugin filename;
  '(c, reply) ← getTaskRPC c now now';
  Ret (c, WLoop mapf reducef reply).

(** One iteration of a worker whose temporary files are in [tmpdir]: what the coordinator becomes, where the worker is, and the files written. *)
Definition worker_turn (tmpdir : string) (c : Coordinator) (fs : gmap string string) (pid : Z) (suffix : nat → string)
    (mapf : Mapf) (reducef : Reducef) (reply : GetTaskReply)
    : outcome (Coordinator * WorkerPC * list (string * string)) :=
  match Worker_iteration reply with
  | None => Ret (c, WReturned, [])
  | Some (DoMap t) =>
      files ← doMap tmpdir mapf fs suffix t;
      c ← reportTaskDone c pid (t_TaskId t);
      Ret (c, WLoop mapf reducef reply, files)
  | Some (DoReduce t b m) =>
      results ← doReduce decode sort_kvs reducef fs t b m;
      c ← reportTaskDone c pid (t_TaskId t);
      Ret (c, WLoop mapf reducef reply,
           imap (λ i r, (CreateTemp tmpdir ("res-" +:+ pretty b) (suffix i), r)) results)
  | Some _ => Ret (c, WLoop mapf reducef reply, [])
  end.

(** The job: the coordinator, or nothing once its [main] has returned; the workers; the files. *)
Record Job := mkJob { jb_coord : option Coordinator; jb_workers : list WorkerPC; jb_fs : gmap string string }.

Definition set_worker (j : Job) (c : Coordinator) (i : nat) (w : WorkerPC) (files : list (string * string)) : Job :=
  mkJob (Some c) (<[i := w]> (jb_workers j)) (list_to_map files ∪ jb_fs j).

(** The next iteration works on a task. *)
Definition has_task (reply : GetTaskReply) : Prop :=
  match Worker_iteration reply with Some (DoMap _) | Some (DoReduce _ _ _) => True | _ => False end.

Inductive job_step : Job → Job → Prop :=
  | js_poll j c :                           (* [for m.Done() == false] ends *)
      jb_coord j = Some c → Done c = true → job_step j (mkJob None (jb_workers j) (jb_fs j))
  | js_start j c i args now now' c' w :
      jb_coord j = Some c → jb_workers j !! i = Some (WNew args) →
      mrworker_start c now now' args = Ret (c', w) → job_step j (set_worker j c' i w [])
  | js_turn j c i tmpdir pid suffix mapf reducef reply c' w files :
      jb_coord j = Some c → jb_workers j !! i = Some (WLoop mapf reducef reply) →
      worker_turn tmpdir c (jb_fs j) pid suffix mapf reducef reply = Ret (c', w, files) →
      job_step j (set_worker j c' i w files)
  | js_exit j i w :                         (* a worker exits, panics or is killed *)
      jb_workers j !! i = Some w →
      job_step j (mkJob (jb_coord j) (<[i := WExited]> (jb_workers j)) (jb_fs j))
  | js_exit_midway j i mapf reducef reply files :   (* the same, in the middle of a task *)
      jb_workers j !! i = Some (WLoop mapf reducef reply) → has_task reply →
      job_step j (mkJob (jb_coord j) (<[i := WExited]> (jb_workers j)) (list_to_map files ∪ jb_fs j)).

(** ** Loading and starting *)

(** A plugin that exports the two functions is loaded, and nothing else is. *)
Lemma loadPlugin_spec filename mapf reducef :
  loadPlugin filename = Ret (mapf, reducef) ↔
  ∃ lookup, plugin_open filename = Some lookup ∧ lookup "Map" = Some (SymMap mapf) ∧
    lookup "Reduce" = Some (SymReduce reducef).
Proof.
  unfold loadPlugin. split.
  - intros H. destruct (plugin_open filename) as [lookup|]; [|done]. exists lookup.
    destruct (lookup "Map") as [[]|], (lookup "Reduce") as [[]|]; simplify_eq/=; done.
  - intros (lookup & -> & -> & ->). done.
Qed.

(** The sequential command is its job on the functions of the plugin. *)
Lemma mrsequential_main_spec fs prog filename files mapf reducef :
  loadPlugin filename = Ret (mapf, reducef) → files ≠ [] →
  mrsequential_main fs (prog :: filename :: files) = mrsequential mapf reducef sort_kvs fs files.
Proof.
  intros Hl Hf. unfold mrsequential_main, mrsequential_loadPlugin. destruct files; [done|]. simpl.
  by rewrite Hl.
Qed.

(** Users do not share a coordinator. *)
Lemma coordinatorSock_inj uid uid' : coordinatorSock uid = coordinatorSock uid' → uid = uid'.
Proof. unfold coordinatorSock. intros E%(inj (String.append _)). by apply (inj pretty) in E. Qed.

(** ** No progress *)

(** Every worker that runs has the zero reply. *)
Definition idle_worker (w : WorkerPC) : Prop :=
  match w with
  | WLoop _ _ reply => reply = zero_GetTaskReply
  | WReturned => False
  | _ => True
  end.

Record stuck (c : Coordinator) (fs : gmap string string) (j : Job) : Prop := {
  st_coord : jb_coord j = Some c;
  st_workers : Forall idle_worker (jb_workers j);
  st_fs : jb_fs j = fs
}.

Lemma getTaskRPC_fails c now now' : getTaskRPC c now now' = Ret (c, zero_GetTaskReply).
Proof. unfold getTaskRPC, call. by rewrite bool_decide_eq_false_2. Qed.

Lemma stuck_step c fs j j' : stuck c fs j → job_step j j' → stuck c fs j'.
Proof.
  intros [Hc Hw Hfs] Hs.
  destruct Hs as [j c0 Hc0 Hd|j c0 i args now now' c' w Hc0 Hi Hst|
    j c0 i tmpdir pid suffix mapf reducef reply c' w files Hc0 Hi Ht|j i w Hi|
    j i mapf reducef reply files Hi Ht].
  - done.
  - rewrite Hc in Hc0. simplify_eq. unfold mrworker_start in Hst. rewrite getTaskRPC_fails in Hst.
    destruct (bool_decide _); [done|].
    bind_inv Hst. bind_inv Hst.
    split; simpl; [done|by apply Forall_insert|]. by rewrite (left_id_L ∅ (∪)).
  - rewrite Hc in Hc0. simplify_eq. pose proof (Forall_lookup_1 _ _ _ _ Hw Hi) as Hz. simpl in Hz. subst.
    unfold worker_turn in Ht. simpl in Ht. simplify_eq.
    split; simpl; [done|by apply Forall_insert|]. by rewrite (left_id_L ∅ (∪)).
  - split; simpl; [done|by apply Forall_insert|done].
  - pose proof (Forall_lookup_1 _ _ _ _ Hw Hi) as Hz. simpl in Hz. by subst.
Qed.

Lemma MakeCoordinator_idle files nReduce t : t ∈ c_tasks (MakeCoordinator files nReduce) → t_Status t = Idle.
Proof.
  unfold MakeCoordinator. cbn [c_tasks]. intros [Ht|Ht]%elem_of_app.
  - apply elem_of_lookup_imap in Ht as (i & f & -> & _). done.
  - apply list_elem_of_fmap in Ht as (i & -> & _). done.
Qed.

(** No distributed job makes progress. Whatever the input files, the plugin and the number
    of workers, and however the processes are scheduled or killed, the coordinator keeps the
    job as it was made, with every task idle; no file is ever written; the coordinator's
    [main] does not return, and no worker's does. *)
Theorem mr_job_makes_no_progress args registered listening c workers fs j :
  mrcoordinator_start args registered listening = Ret c →
  rtc job_step (mkJob (Some c) (WNew <$> workers) fs) j →
  jb_coord j = Some (MakeCoordinator (drop 1 args) 10) ∧ jb_fs j = fs ∧
  (∀ t, t ∈ c_tasks c → t_Status t = Idle) ∧ WReturned ∉ jb_workers j.
Proof.
  intros Hc Hr. unfold mrcoordinator_start in Hc. destruct (length args <? 2)%nat; [done|]. bind_inv Hc.
  assert (Hst : stuck (MakeCoordinator (drop 1 args) 10) fs j).
  { eapply (rtc_invariant job_step (stuck _ fs)); [| |done].
    - split; simpl; [done| |done]. apply Forall_fmap, Forall_true. done.
    - intros x y Hx Hxy. by eapply stuck_step. }
  destruct Hst as [H1 H2 H3]. split; [done|]. split; [done|]. split.
  - apply MakeCoordinator_idle.
  - intros Hin. by apply (proj1 (Forall_forall _ _) H2) in Hin.
Qed.

End job.
