(* ===== verification/Vis.v ===== *)
(** * Visualizing the histories of a test ([kvtest1/porcupine.go], [tester1/annotation.go])

    [checkPorcupine] as a whole: besides its verdict (Porcupine.v) it may draw the operations of
    the clients and the annotations (Annotation.v) to a file, depending on the environment
    variables [VIS_ENABLE] and [VIS_FILE]; and the [cleanup] of the annotations at the end of a
    test may draw a page without the operations. The checker and the drawing are the package
    porcupine, a parameter; files are a map from names to contents. *)

From S2P Require Export Porcupine Annotation.

Local Open Scope Z_scope.

(** [VIS_ENABLE] and [VIS_FILE]. *)
Record VisEnv := mkVisEnv { VIS_ENABLE : string; VIS_FILE : string }.

(** The lines printed. *)
Inductive VisMsg :=
  | FailedToOpen (fpath : string)
  | FailedToWrite (name : string)
  | Wrote (name : string)
  | TimedOut.

Record VisState := mkVisState {
  vs_globals : Globals;
  vs_files : gmap string string;
  vs_printed : list VisMsg
}.

Definition vs_print (m : VisMsg) (st : VisState) : VisState :=
  mkVisState (vs_globals st) (vs_files st) (vs_printed st ++ [m]).

Definition vs_write (name page : string) (st : VisState) : VisState :=
  mkVisState (vs_globals st) (<[name := page]> (vs_files st)) (vs_printed st).

Definition vs_annotation (g : Globals) (st : VisState) : VisState :=
  mkVisState g (vs_files st) (vs_printed st).

(** [os.CreateTemp] if [fpath] is empty, else [os.OpenFile]: both leave an empty file. [opened] is
    the name that [os.CreateTemp] chooses, or nothing when the call fails. *)
Definition vis_open (fpath : string) (opened : option string) (st : VisState)
    : VisState * option string :=
  match opened with
  | None => (st, None)
  | Some tmp =>
      let name := if bool_decide (fpath = "") then tmp else fpath in
      (vs_write name "" st, Some name)
  end.

(** What the clock and the machine say when a page may be drawn: the two readings of the
    clock, the order in which the
    ongoing annotations are visited, and the file that is opened. *)
Record VisDraw := mkVisDraw {
  vd_t : Z;
  vd_t' : Z;
  vd_order : list (string * Continuous);
  vd_opened : option string
}.

Section vis.

(** [porcupine.LinearizationInfo], and what [Visualize] writes and whether it succeeds. *)
Context {Info : Type} (no_info : Info) (AddAnnotations : Info → list PAnnotation → Info).
Context (Visualize : Info → string * bool).
Context (CheckOperationsVerbose : list Operation → Z → CheckResult * Info).

Definition visualize (info : Info) (end_ name : string) (d : VisDraw) (st : VisState) : VisState :=
  let '(g, annotations) := FinalizeAnnotations (vs_globals st) (vd_t d) (vd_t' d) (vd_order d) end_ in
  let info := AddAnnotations info annotations in
  let '(page, ok) := Visualize info in
  let st := vs_write name page (vs_annotation g st) in
  vs_print (if ok : bool then Wrote name else FailedToWrite name) st.

Definition checkPorcupine_vis (env : VisEnv) (opLog : OpLog) (nsec : Z) (d : VisDraw) (st : VisState)
    : VisState * outcome unit :=
  let enabled := VIS_ENABLE env in
  let fpath := VIS_FILE env in
  let '(res, info) := CheckOperationsVerbose (OpLog_Read opLog) nsec in
  match res with
  | CheckIllegal =>
      let st :=
        match vis_open fpath (vd_opened d) st with
        | (st, None) => vs_print (FailedToOpen fpath) st
        | (st, Some name) =>
            if bool_decide (enabled ≠ "never") then visualize info "test failed" name d st else st
        end in
      (st, Fatal "history is not linearizable")
  | _ =>
      let st := match res with CheckUnknown => vs_print TimedOut st | _ => st end in
      if bool_decide (enabled = "always") && GetAnnotationFinalized (vs_globals st) then
        match vis_open fpath (vd_opened d) st with
        | (st, None) => (vs_print (FailedToOpen fpath) st, Ret tt)
        | (st, Some name) => (visualize info "test passed" name d st, Ret tt)
        end
      else (st, Ret tt)
  end.

Definition linearizabilityCheckTimeout : Z := 10 ^ 9.

Definition CheckPorcupineT (env : VisEnv) (oplog : OpLog) (nsec : Z) :=
  checkPorcupine_vis env oplog nsec.

Definition CheckPorcupine (env : VisEnv) (oplog : OpLog) :=
  CheckPorcupineT env oplog linearizabilityCheckTimeout.

(** [cleanup] of the annotations, with the file. *)
Definition cleanup_vis (env : VisEnv) (failed : bool) (end_ : string) (d : VisDraw) (st : VisState)
    : VisState :=
  let '(g, annotations) :=
    an_cleanup (vs_globals st) (vd_t d) (vd_t' d) (vd_order d) (VIS_ENABLE env) failed end_ in
  let st := vs_annotation g st in
  match annotations with
  | None => st
  | Some annotations =>
      match vis_open (VIS_FILE env) (vd_opened d) st with
      | (st, None) => vs_print (FailedToOpen (VIS_FILE env)) st
      | (st, Some name) =>
          let info := AddAnnotations no_info annotations in
          vs_print (Wrote name) (vs_write name (Visualize info).1 st)
      end
  end.

(** The end of [Config.Cleanup]; [failed] is [t.Failed()]. *)
Definition Config_Cleanup_vis (env : VisEnv) (failed : bool) : VisDraw → VisState → VisState :=
  if failed then cleanup_vis env true "test failed" else cleanup_vis env false "test passed".

Definition AnnotateCheckerFailureBeforeExit (env : VisEnv) (t : Z) (desp details : string)
    (d : VisDraw) (st : VisState) : outcome VisState :=
  g ← AnnotateCheckerFailure (vs_globals st) t desp details;
  Ret (cleanup_vis env true "test failed" d (vs_annotation g st)).

(** The goroutine of [captureSignal], on an interrupt. *)
Definition captureSignal (env : VisEnv) (d : VisDraw) (st : VisState) : VisState * outcome unit :=
  (cleanup_vis env true "interrupted" d st, Fatal "exit status 1").

(** ** Properties *)

(** Whether [checkPorcupine] draws a page. *)
Definition draws (env : VisEnv) (res : CheckResult) (finalized : bool) : Prop :=
  match res with
  | CheckIllegal => VIS_ENABLE env ≠ "never"
  | _ => VIS_ENABLE env = "always" ∧ finalized = true
  end.

Definition vis_end (res : CheckResult) : string :=
  match res with CheckIllegal => "test failed" | _ => "test passed" end.

Definition vis_name (env : VisEnv) (tmp : string) : string :=
  if bool_decide (VIS_FILE env = "") then tmp else VIS_FILE env.

(** The verdict does not depend on the settings, the annotations or the files. *)
Theorem checkPorcupine_vis_verdict env opLog nsec d st :
  (checkPorcupine_vis env opLog nsec d st).2 =
  checkPorcupine (λ ops n, (CheckOperationsVerbose ops n).1) opLog nsec.
Proof.
  unfold checkPorcupine_vis, checkPorcupine.
  destruct (CheckOperationsVerbose (OpLog_Read opLog) nsec) as [[] info]; simpl;
    repeat (case_match; simpl); done.
Qed.

Lemma visualize_spec info end_ name d st :
  let st' := visualize info end_ name d st in
  vs_files st' = <[name := (Visualize (AddAnnotations info
    (FinalizeAnnotations (vs_globals st) (vd_t d) (vd_t' d) (vd_order d) end_).2)).1]> (vs_files st) ∧
  isFinalized (vs_globals st') = true.
Proof.
  unfold visualize. simpl. by destruct (Visualize _) as [page []].
Qed.

(** The page that [checkPorcupine] draws. *)
Lemma checkPorcupine_draws env opLog nsec d st res info tmp :
  CheckOperationsVerbose (OpLog_Read opLog) nsec = (res, info) →
  draws env res (isFinalized (vs_globals st)) → vd_opened d = Some tmp →
  let st' := (checkPorcupine_vis env opLog nsec d st).1 in
  vs_files st' !! vis_name env tmp = Some (Visualize (AddAnnotations info
    (FinalizeAnnotations (vs_globals st) (vd_t d) (vd_t' d) (vd_order d) (vis_end res)).2)).1 ∧
  (∀ f, f ≠ vis_name env tmp → vs_files st' !! f = vs_files st !! f) ∧
  isFinalized (vs_globals st') = true.
Proof.
  intros Hc Hd Ho. unfold checkPorcupine_vis, vis_open. rewrite Hc, Ho. fold (vis_name env tmp).
  pose proof (visualize_spec info (vis_end res) (vis_name env tmp) d) as Hv.
  destruct res; simpl in Hd; try destruct Hd as [He Hf].
  - rewrite He. unfold GetAnnotationFinalized. rewrite Hf. simpl.
    destruct (Hv (vs_write (vis_name env tmp) "" st)) as [E1 E2].
    simpl vis_end in *. rewrite E1, E2. simpl. by split_and!; [rewrite lookup_insert_eq|
      intros; rewrite !lookup_insert_ne|].
  - rewrite bool_decide_eq_true_2 by done. simpl.
    destruct (Hv (vs_write (vis_name env tmp) "" st)) as [E1 E2].
    simpl vis_end in *. rewrite E1, E2. simpl. by split_and!; [rewrite lookup_insert_eq|
      intros; rewrite !lookup_insert_ne|].
  - rewrite He. unfold GetAnnotationFinalized. simpl. rewrite Hf. simpl.
    destruct (Hv (vs_write (vis_name env tmp) "" (vs_print TimedOut st))) as [E1 E2].
    simpl vis_end in *. rewrite E1, E2. simpl. by split_and!; [rewrite lookup_insert_eq|
      intros; rewrite !lookup_insert_ne|].
Qed.

Lemma cleanup_finalized env failed end_ d st :
  isFinalized (vs_globals st) = true →
  cleanup_vis env failed end_ d st =
    vs_annotation (mkGlobals mkAnnotation0 (g_finfo (vs_globals st))) st.
Proof. intros Hf. unfold cleanup_vis, an_cleanup. by rewrite Hf, orb_true_r. Qed.

(** A page of operations is not overridden. When [checkPorcupine] draws (an illegal history,
    unless [VIS_ENABLE] is "never"; or any other if it is "always" and the test has marked the
    annotations final) and the file can be opened, the file holds the operations and all
    annotations, those that were ongoing included; no other file changes; and the clean-up at
    the end of the test, whatever its outcome, leaves the files as they are and the annotations
    empty. *)
Theorem drawn_page_survives env opLog nsec d st res info tmp failed d' :
  CheckOperationsVerbose (OpLog_Read opLog) nsec = (res, info) →
  draws env res (isFinalized (vs_globals st)) → vd_opened d = Some tmp →
  let st1 := (checkPorcupine_vis env opLog nsec d st).1 in
  let st2 := Config_Cleanup_vis env failed d' st1 in
  vs_files st2 !! vis_name env tmp = Some (Visualize (AddAnnotations info
    (FinalizeAnnotations (vs_globals st) (vd_t d) (vd_t' d) (vd_order d) (vis_end res)).2)).1 ∧
  (∀ f, f ≠ vis_name env tmp → vs_files st2 !! f = vs_files st !! f) ∧
  g_annotation (vs_globals st2) = mkAnnotation0.
Proof.
  intros Hc Hd Ho st1 st2.
  destruct (checkPorcupine_draws env opLog nsec d st res info tmp Hc Hd Ho) as (H1 & H2 & H3).
  fold st1 in H1, H2, H3. subst st2. unfold Config_Cleanup_vis.
  destruct failed; rewrite cleanup_finalized by done; by split_and!.
Qed.

(** Drawing is switched off: after a failed check the file named by [VIS_FILE] is empty,
    whatever it held. *)
Theorem never_still_truncates env opLog nsec d st info tmp :
  CheckOperationsVerbose (OpLog_Read opLog) nsec = (CheckIllegal, info) →
  VIS_ENABLE env = "never" → VIS_FILE env ≠ "" → vd_opened d = Some tmp →
  vs_files (checkPorcupine_vis env opLog nsec d st).1 = <[VIS_FILE env := ""]> (vs_files st).
Proof.
  intros Hc He Hf Ho. unfold checkPorcupine_vis, vis_open. rewrite Hc, Ho, He.
  by rewrite (bool_decide_eq_false_2 (VIS_FILE env = "")) by done.
Qed.

(** Unless "always", a check that passes leaves the files alone. *)
Lemma passing_check_quiet env opLog nsec d st res info :
  CheckOperationsVerbose (OpLog_Read opLog) nsec = (res, info) → res ≠ CheckIllegal →
  VIS_ENABLE env ≠ "always" ∨ isFinalized (vs_globals st) = false →
  let st' := (checkPorcupine_vis env opLog nsec d st).1 in
  vs_files st' = vs_files st ∧ vs_globals st' = vs_globals st.
Proof.
  intros Hc Hr Hq. unfold checkPorcupine_vis. rewrite Hc.
  assert (Hb : bool_decide (VIS_ENABLE env = "always") && isFinalized (vs_globals st) = false).
  { destruct Hq as [Hq| ->]; [by rewrite bool_decide_eq_false_2|apply andb_false_r]. }
  unfold GetAnnotationFinalized. destruct res; [|done|]; simpl; by rewrite Hb.
Qed.

(** A test that passes with "always" but does not mark its annotations final: the page comes
    from the clean-up, without the operations. *)
Theorem passed_page_without_operations env opLog nsec d st res info d' tmp :
  CheckOperationsVerbose (OpLog_Read opLog) nsec = (res, info) → res ≠ CheckIllegal →
  VIS_ENABLE env = "always" → isFinalized (vs_globals st) = false →
  an_annotations (g_annotation (vs_globals st)) ≠ [] → vd_opened d' = Some tmp →
  let st1 := (checkPorcupine_vis env opLog nsec d st).1 in
  vs_files (Config_Cleanup_vis env false d' st1) =
    <[vis_name env tmp := (Visualize (AddAnnotations no_info
      (FinalizeAnnotations (vs_globals st) (vd_t d') (vd_t' d') (vd_order d') "test passed").2)).1]> (vs_files st).
Proof.
  intros Hc Hr He Hf Hne Ho st1.
  destruct (passing_check_quiet env opLog nsec d st res info Hc Hr (or_intror Hf)) as [Hfiles Hg].
  fold st1 in Hfiles, Hg. unfold Config_Cleanup_vis, cleanup_vis, an_cleanup. rewrite Hg, He, Hf.
  simpl. destruct (an_annotations (g_annotation (vs_globals st)) ++ _) eqn:E;
    [by apply app_eq_nil in E as [? _]|].
  unfold vis_open. rewrite Ho. simpl. rewrite Hfiles. fold (vis_name env tmp).
  by rewrite insert_insert_eq.
Qed.

End vis.

(** ** Examples *)

Definition ex_Visualize (info : list string) : string * bool := (String.concat "," info, true).

Definition ex_AddAnnotations (info : list string) (l : list PAnnotation) : list string :=
  info ++ (pa_Description <$> l).

Definition ex_check (ops : list Operation) (nsec : Z) : CheckResult * list string :=
  (CheckIllegal, op_key <$> ops).

Definition ex_vis_state : VisState :=
  mkVisState (AnnotateTest (mkGlobals mkAnnotation0 None) 5 "example" 3) {["old.html" := "old"]} [].

Definition ex_log : OpLog := [put_op 0 (mkPutArgs "k" "v" 0) 6 7 OK].

Lemma drawn_page_survives_witness :
  vs_files (Config_Cleanup_vis [] ex_AddAnnotations ex_Visualize (mkVisEnv "" "h.html") true
    (mkVisDraw 11 12 [] None)
    (checkPorcupine_vis ex_AddAnnotations ex_Visualize ex_check (mkVisEnv "" "h.html") ex_log 1
       (mkVisDraw 8 9 [] (Some "tmp")) ex_vis_state).1) !! "h.html" = Some "k,example (3 servers),test failed".
Proof.
  destruct (drawn_page_survives [] ex_AddAnnotations ex_Visualize ex_check (mkVisEnv "" "h.html")
    ex_log 1 (mkVisDraw 8 9 [] (Some "tmp")) ex_vis_state CheckIllegal ["k"] "tmp" true
    (mkVisDraw 11 12 [] None)) as [H _]; [reflexivity|discriminate|reflexivity|].
  etransitivity; [exact H|]. vm_compute. reflexivity.
Defined.
