(* ===== verification/LabCodec.v ===== *)
(** * Encoders and decoders of labgob ([labgob/labgob.go])

    A [LabEncoder] and a [LabDecoder] put the checks of Labgob.v in front of [encoding/gob],
    which is an interface: its encoder and decoder with their states, and the law that a stream
    is decoded in the order in which it was encoded. Every value that the rest of the code
    sends, persists or snapshots goes through here. *)

From S2P Require Export Labgob.

Local Open Scope Z_scope.

(** [encoding/gob]: encoders and decoders remember which types they have met. [g_encode] yields
    the bytes written and whether there was no error; [g_decode] reads from the front of its
    input into a value that is there, and yields what it has not read. *)
Class Gob (V : Type) := {
  GobEnc : Type;
  GobDec : Type;
  g_enc0 : GobEnc;
  g_dec0 : GobDec;
  g_encode : GobEnc → V → GobEnc * list Z * bool;
  g_decode : GobDec → list Z → V → GobDec * list Z * V * bool
}.

(** What its documentation promises for the values it can encode: a decoder that has read what
    an encoder has written reads the next value, into the zero value of its type. *)
Class GobLaws (V : Type) `{Gob V} (encodable : V → Prop) (zero : V → V) := {
  g_synced : GobEnc → GobDec → Prop;
  g_synced0 : g_synced g_enc0 g_dec0;
  g_round e d v : g_synced e d → encodable v →
    ∃ e' b d', g_encode e v = (e', b, true) ∧ g_synced e' d' ∧
      ∀ rest, g_decode d (b ++ rest) (zero v) = (d', rest, v, true)
}.

Section codec.
Context {V : Type} `{Gob V}.

(** What [reflect] shows: the types, which names are upper case, the type of a value, and the
    value behind the pointer that is decoded into. *)
Context (desc : nat → TypeDesc) (is_upper : string → bool) (type_no : V → nat)
  (view : V → option GoValue).

(** How deep types are nested at most. *)
Context (fuel : nat).

(** The writer behind an encoder, and the reader behind a decoder. *)
Record LabEncoder := mkLabEncoder { le_out : list Z; le_gob : GobEnc }.
Record LabDecoder := mkLabDecoder { ld_in : list Z; ld_gob : GobDec }.

Definition NewEncoder (w : list Z) : LabEncoder := mkLabEncoder w g_enc0.
Definition NewDecoder (r : list Z) : LabDecoder := mkLabDecoder r g_dec0.

Definition checkValue (value : V) (lg : Labgob) : outcome Labgob :=
  checkType desc is_upper fuel (type_no value) lg.

(** The result tells whether the error is nil. [EncodeValue] does the same with a
    [reflect.Value]. *)
Definition Encode (lg : Labgob) (enc : LabEncoder) (e : V) : outcome (Labgob * LabEncoder * bool) :=
  lg ← checkValue e lg;
  let '(g, b, ok) := g_encode (le_gob enc) e in
  Ret (lg, mkLabEncoder (le_out enc ++ b) g, ok).

Definition EncodeValue (lg : Labgob) (enc : LabEncoder) (value : V)
    : outcome (Labgob * LabEncoder * bool) := Encode lg enc value.

(** [e] is what the pointer refers to before, and in the result after. *)
Definition Decode (lg : Labgob) (dec : LabDecoder) (e : V)
    : outcome (Labgob * LabDecoder * V * bool) :=
  lg ← checkValue e lg;
  lg ← checkDefault is_upper (view e) lg;
  let '(g, r, e, ok) := g_decode (ld_gob dec) (ld_in dec) e in
  Ret (lg, mkLabDecoder r g, e, ok).

(** The registry of gob is a parameter. *)
Definition Register {R} (g_register : R → V → R) (lg : Labgob) (reg : R) (value : V)
    : outcome (Labgob * R) :=
  lg ← checkValue value lg;
  Ret (lg, g_register reg value).

Definition RegisterName {R} (g_register_name : R → string → V → R) (lg : Labgob) (reg : R)
    (name : string) (value : V) : outcome (Labgob * R) :=
  lg ← checkValue value lg;
  Ret (lg, g_register_name reg name value).

(** Values one after the other into one stream, and out of it. *)
Fixpoint Encode_all (lg : Labgob) (enc : LabEncoder) (vs : list V) : outcome (Labgob * LabEncoder * bool) :=
  match vs with
  | [] => Ret (lg, enc, true)
  | v :: vs =>
      '(lg, enc, ok) ← Encode lg enc v;
      '(lg, enc, oks) ← Encode_all lg enc vs;
      Ret (lg, enc, ok && oks)
  end.

Fixpoint Decode_all (lg : Labgob) (dec : LabDecoder) (es : list V)
    : outcome (Labgob * LabDecoder * list V * bool) :=
  match es with
  | [] => Ret (lg, dec, [], true)
  | e :: es =>
      '(lg, dec, e, ok) ← Decode lg dec e;
      '(lg, dec, es, oks) ← Decode_all lg dec es;
      Ret (lg, dec, e :: es, ok && oks)
  end.

(** ** Values that [checkDefault] has nothing to say about *)

(** All zero, and reached through upper-case fields, to the depth that is looked at. *)
Fixpoint fresh (d : nat) (value : GoValue) : bool :=
  match d with
  | O => true
  | S d =>
      match value with
      | VStruct fields => forallb (λ f, is_upper f.1.1 && fresh d f.2) fields
      | VPtr (Some elem) => fresh d elem
      | VBasic _ z => z
      | _ => true
      end
  end.

Definition fresh_value (e : V) : Prop := from_option (λ v, fresh 3 v = true) True (view e).

Lemma fresh_checkDefault1 d value name lg :
  fresh d value = true → checkDefault1 is_upper d NoRO value name lg = Ret lg.
Proof.
  revert value name lg. induction d as [|d IH]; intros value name lg Hf; simpl in *; [done|].
  destruct value as [fields|[elem|]|t z|]; [|by apply IH|done|by rewrite Hf|done].
  revert lg. induction fields as [|[[f em] v] fields IHf]; intros lg; simpl in *; [done|].
  apply andb_true_iff in Hf as [[Hu Hv]%andb_true_iff Hf].
  rewrite Hu, (IH _ _ _ Hv). simpl. by apply IHf.
Qed.

Lemma fresh_checkDefault e lg : fresh_value e → checkDefault is_upper (view e) lg = Ret lg.
Proof.
  unfold fresh_value. destruct (view e) as [v|]; [|done]. intros Hf. exact (fresh_checkDefault1 3 v "" lg Hf).
Qed.

(** ** Round trips *)

(** The types of the values, closed under being part of, and the depth they need. *)
Context (U : gset nat) (HU : ∀ t u, t ∈ U → child desc t u → u ∈ U) (Hfuel : (size U < fuel)%nat).

Definition lg_ok (lg : Labgob) : Prop :=
  lg_checked lg ⊆ U ∧ closed_except desc ∅ (lg_checked lg).

(** Checks of types never warn about values. *)
Lemma checkType_warnings n t lg lg' :
  checkType desc is_upper n t lg = Ret lg' → lg_warnings lg' = lg_warnings lg.
Proof.
  revert t lg lg'. induction n as [|n IH]; intros t lg lg' Hc; simpl in Hc; [done|].
  case_decide; [by simplify_eq|].
  assert (Hfields : ∀ name fields l l', check_fields is_upper (checkType desc is_upper n) name fields l = Ret l' →
    lg_warnings l' = lg_warnings l).
  { intros name fields. induction fields as [|[f ft] fields IHf]; intros l l' Hl; simpl in Hl; [by simplify_eq|].
    bind_inv Hl. apply IHf in Hl as ->. apply IH in Hbind as ->. by destruct (is_upper f). }
  destruct (desc t) as [name fields|e|k e|].
  - by apply Hfields in Hc.
  - by apply IH in Hc.
  - bind_inv Hc. apply IH in Hc as ->. by apply IH in Hbind.
  - by simplify_eq.
Qed.

Lemma checkValue_ok v lg :
  type_no v ∈ U → lg_ok lg →
  ∃ lg', checkValue v lg = Ret lg' ∧ lg_ok lg' ∧ lg_warnings lg' = lg_warnings lg.
Proof.
  intros Hv [HlU Hcl].
  destruct (checkType_spec desc is_upper U HU fuel ∅ (type_no v) lg) as (lg' & Hc & Hck); [done..| |done|].
  { unfold left_over. assert (size (U ∖ lg_checked lg) ≤ size U)%nat; [|lia].
    apply subseteq_size. set_solver. }
  exists lg'. split; [done|]. split; [|by eapply checkType_warnings].
  split; [apply (ck_U _ _ _ _ _ _ _ _ Hck)|apply (ck_closed _ _ _ _ _ _ _ _ Hck)].
Qed.

Context (encodable : V → Prop) (zero : V → V) `{!GobLaws V encodable zero}.

(** A value of this program: its type is known, and it can be encoded; its zero value has the
    same type, and none of its fields are lower case. *)
Record good_value (v : V) : Prop := {
  gv_type : type_no v ∈ U;
  gv_zero : type_no (zero v) ∈ U;
  gv_encodable : encodable v;
  gv_fresh : fresh_value (zero v)
}.

Lemma Encode_spec lg e v w d :
  good_value v → lg_ok lg → g_synced e d →
  ∃ lg' e' b d', Encode lg (mkLabEncoder w e) v = Ret (lg', mkLabEncoder (w ++ b) e', true) ∧
    lg_ok lg' ∧ g_synced e' d' ∧
    ∀ lg1 rest, lg_ok lg1 → ∃ lg1',
      Decode lg1 (mkLabDecoder (b ++ rest) d) (zero v) = Ret (lg1', mkLabDecoder rest d', v, true) ∧
      lg_ok lg1' ∧ lg_warnings lg1' = lg_warnings lg1.
Proof.
  intros [Ht Hz He Hf] Hlg Hs. destruct (checkValue_ok v lg Ht Hlg) as (lg' & Hc & Hlg' & _).
  destruct (g_round e d v Hs He) as (e' & b & d' & Henc & Hs' & Hdec).
  exists lg', e', b, d'. unfold Encode. rewrite Hc. simpl. rewrite Henc.
  split; [done|]. split; [done|]. split; [done|]. intros lg1 rest Hlg1.
  destruct (checkValue_ok (zero v) lg1 Hz Hlg1) as (lg1' & Hc1 & Hlg1' & Hw).
  exists lg1'. unfold Decode. rewrite Hc1. cbn [mbind outcome_bind].
  rewrite (fresh_checkDefault _ _ Hf). simpl. rewrite Hdec. done.
Qed.

Lemma Encode_all_spec lg e w d vs :
  Forall good_value vs → lg_ok lg → g_synced e d →
  ∃ lg' e' b, Encode_all lg (mkLabEncoder w e) vs = Ret (lg', mkLabEncoder (w ++ b) e', true) ∧
    lg_ok lg' ∧
    ∀ lg1 rest, lg_ok lg1 → ∃ lg1' d',
      Decode_all lg1 (mkLabDecoder (b ++ rest) d) (zero <$> vs) = Ret (lg1', mkLabDecoder rest d', vs, true) ∧
      lg_ok lg1' ∧ lg_warnings lg1' = lg_warnings lg1.
Proof.
  intros Hvs. revert lg e w d. induction Hvs as [|v vs Hv Hvs IH]; intros lg e w d Hlg Hs.
  { exists lg, e, []. simpl. rewrite app_nil_r. split; [done|]. split; [done|]. intros lg1 rest Hlg1. eauto. }
  destruct (Encode_spec lg e v w d Hv Hlg Hs) as (lg' & e' & b & d' & Henc & Hlg' & Hs' & Hdec).
  destruct (IH lg' e' (w ++ b) d' Hlg' Hs') as (lg2 & e2 & b2 & Henc2 & Hlg2 & Hdec2).
  exists lg2, e2, (b ++ b2). cbn [Encode_all].
  rewrite Henc. cbn [mbind outcome_bind]. rewrite Henc2. cbn [mbind outcome_bind].
  split; [by rewrite (assoc app)|]. split; [done|]. intros lg1 rest Hlg1.
  destruct (Hdec lg1 (b2 ++ rest) Hlg1) as (lg3 & Hd3 & Hlg3 & Hw3).
  destruct (Hdec2 lg3 rest Hlg3) as (lg4 & d4 & Hd4 & Hlg4 & Hw4).
  exists lg4, d4. rewrite <- (assoc app), fmap_cons. cbn [Decode_all].
  rewrite Hd3. cbn [mbind outcome_bind]. rewrite Hd4. split; [done|]. split; [done|]. congruence.
Qed.

(** C35: what is encoded with labgob comes back. Let any number of values be encoded into one
    stream and, whatever has been checked in the meantime, decoded from it in the same order,
    each into the zero value of its type. If the fields of the types are upper case and gob
    keeps its promise, then no call fails or panics, the values are the same, the stream is
    used up, and no warning about decoding into a non-default variable is given. *)
Theorem labgob_stream_roundtrip lg lg1 vs :
  Forall good_value vs → lg_ok lg → lg_ok lg1 →
  ∃ lg' enc lg1' dec, Encode_all lg (NewEncoder []) vs = Ret (lg', enc, true) ∧
    Decode_all lg1 (NewDecoder (le_out enc)) (zero <$> vs) = Ret (lg1', dec, vs, true) ∧
    ld_in dec = [] ∧ lg_warnings lg1' = lg_warnings lg1.
Proof.
  intros Hvs Hlg Hlg1.
  destruct (Encode_all_spec lg g_enc0 [] g_dec0 vs Hvs Hlg g_synced0) as (lg' & e' & b & He & _ & Hd).
  destruct (Hd lg1 [] Hlg1) as (lg1' & d' & Hdec & _ & Hw). rewrite app_nil_r in Hdec.
  exists lg', (mkLabEncoder b e'), lg1', (mkLabDecoder [] d'). done.
Qed.

(** ** The encoding as the network uses it *)

(** [ClientEnd.Call] and [Service.dispatch] encode each value into a buffer of its own. *)
Definition lab_encode (lg : Labgob) (v : V) : list Z * bool :=
  match Encode lg (NewEncoder []) v with Ret (_, enc, ok) => (le_out enc, ok) | _ => ([], false) end.

Definition lab_decode (lg : Labgob) (b : list Z) (e : V) : V * bool :=
  match Decode lg (NewDecoder b) e with Ret (_, _, e, ok) => (e, ok) | _ => (e, false) end.

(** It is an encoding as Labrpc.v and KvNet.v require one. *)
Theorem lab_decode_encode lg lg1 v :
  good_value v → lg_ok lg → lg_ok lg1 →
  (lab_encode lg v).2 = true ∧ lab_decode lg1 (lab_encode lg v).1 (zero v) = (v, true).
Proof.
  intros Hv Hlg Hlg1. unfold lab_decode, lab_encode.
  destruct (Encode_spec lg g_enc0 v [] g_dec0 Hv Hlg g_synced0) as (lg' & e' & b & d' & He & _ & _ & Hd).
  unfold NewEncoder. rewrite He. simpl. destruct (Hd lg1 [] Hlg1) as (lg1' & Hdec & _).
  rewrite app_nil_r in Hdec. unfold NewDecoder. by rewrite Hdec.
Qed.
End codec.

(** ** An example: numbers in a struct with one field *)

(** Like gob, it sends a description of the type before the first value. *)
#[export] Instance ex_gob : Gob Z := {
  GobEnc := bool;
  GobDec := bool;
  g_enc0 := false;
  g_dec0 := false;
  g_encode := λ sent v, (true, (if sent then [] else [255]) ++ [v], true);
  g_decode := λ known b v,
    match known, b with
    | true, v :: b => (true, b, v, true)
    | false, _ :: v :: b => (true, b, v, true)
    | _, _ => (known, b, v, false)
    end
}.

#[export] Instance ex_gob_laws : GobLaws Z (λ _, True) (λ _, 0).
Proof.
  refine {| g_synced := (@eq bool : GobEnc → GobDec → Prop) |}; [done|].
  intros e d v <- _. exists true. destruct e; eexists _, true; (split; [reflexivity|]); done.
Defined.

Definition ex_struct (t : nat) : TypeDesc :=
  match t with O => TStruct "Cmd" [("Val", 1%nat)] | _ => TOther end.

Definition ex_view (v : Z) : option GoValue :=
  Some (VPtr (Some (VStruct [("Val", false, VBasic "int" (v =? 0))]))).

Lemma ex_struct_closed t u :
  t ∈ ({[0%nat; 1%nat]} : gset nat) → child ex_struct t u → u ∈ ({[0%nat; 1%nat]} : gset nat).
Proof. intros _. destruct t as [|t]; [|done]. intros ->%list_elem_of_singleton. set_solver. Qed.

Lemma labgob_stream_roundtrip_witness :
  ∃ lg' enc lg1' dec,
    Encode_all ex_struct ascii_upper (λ _, 0%nat) 3 labgob_init (NewEncoder []) [4; 5] = Ret (lg', enc, true) ∧
    Decode_all ex_struct ascii_upper (λ _, 0%nat) ex_view 3 labgob_init (NewDecoder (le_out enc)) [0; 0] =
      Ret (lg1', dec, [4; 5], true) ∧ ld_in dec = [] ∧ lg_warnings lg1' = [].
Proof.
  apply (labgob_stream_roundtrip ex_struct ascii_upper (λ _, 0%nat) ex_view 3 {[0%nat; 1%nat]}
    ex_struct_closed ltac:(vm_compute; lia) (λ _, True) (λ _, 0)
    labgob_init labgob_init [4; 5]).
  - repeat constructor; try set_solver.
  - split; [set_solver|intros u; set_solver].
  - split; [set_solver|intros u; set_solver].
Defined.
